(* ===== verification/_CoqProject ===== *)
-Q . S2P
Prelude.v
Bytes.v
Protocol.v
Decoder.v
DecoderLemmas.v
DecoderTheorems.v
Expiry.v
ExpiryLemmas.v
ExpiryTheorems.v
Command.v
CommandLemmas.v
CommandTheorems.v
Store.v
StoreSpec.v
StoreLemmas.v
StoreEffects.v
StoreInvariant.v
StoreTheorems.v
Text.v
Net.v
Config.v
Engine.v
EngineSplit.v
System.v
SystemSpec.v
SystemLocal.v
SystemClients.v
SystemCoordinator.v
SystemConservation.v
SystemOwners.v
SystemRuns.v
SystemProgress.v
SystemDriver.v
SystemSample.v
SystemTheorems.v
Session.v
EngineContract.v
SystemEngine.v
Server.v
ServerLemmas.v
ServerSample.v
ServerTheorems.v
EndToEnd.v
AcceptTheorems.v
ServerRun.v
ServerDialogue.v
Tasks.v
TaskLemmas.v
TaskConnection.v
TaskRun.v
Concurrent.v
Settings.v
SettingsTheorems.v
Process.v
