(* ===== verification/Prelude.v ===== *)
(** * Recall: a verification development of the in-memory cache server

    Recall is a multithreaded, memory-only cache that speaks RESP2.  Clients
    connect to the accept loop; each connection decodes requests from its stream,
    parses them into commands and executes them in its session; data commands go
    to the engine, whose owner threads hold one shard of the table each, and
    whose coordinator executes the commands that span several owners; a shard is
    a hash map with an index of deadlines.  The development models these parts as
    the code has them and proves them correct up to the whole: the bytes a client
    gets back are the replies of one table ([EndToEnd]).

    ** The files and the code they model

    - [Prelude]: outcomes of Rust code ([res]: a value, an error, a panic), machine
      integers, slices, tactics.  [Bytes]: byte strings and decimal numerals.
      [Text], [Net]: the text and address functions of the Rust standard library
      that the settings use.
    - [Protocol], [Decoder], [DecoderLemmas], [DecoderTheorems]:
      [recall-protocol/src/lib.rs].  Replies with their length and encoding; the
      incremental request decoder as the stages of its loop.
    - [Command], [CommandLemmas], [CommandTheorems]: [recall-core/src/command.rs].
      The command table, the parser, the metadata replies.
    - [Expiry], [ExpiryLemmas], [ExpiryTheorems]: [recall-core/src/expiry.rs].  The
      binary heap of deadlines with positions.  The class [TimerIndex] is what the
      store calls, [TimerIndexLaws] what it relies on; [ExpiryTheorems] has the
      instance.
    - [Store], [StoreSpec], [StoreLemmas], [StoreEffects], [StoreInvariant],
      [StoreTheorems]: [recall-core/src/store.rs].  A shard over any [TimerIndex],
      the table it promises ([StoreSpec.outcome], [StoreSpec.serves]), and the
      refinement.
    - [Config]: [recall-server/src/config.rs].  Defaults, validation, the shards'
      limits.
    - [Engine], [EngineSplit], [System], and the [System*] files:
      [recall-server/src/engine.rs].  [Engine] has the sequential parts (owners,
      routing, [split], [combine], admission); [System] their interleaving
      ([fire]: admission with its two suspension points, credits and then room,
      owners, coordinator, clock, shutdown); [SystemSpec] the
      promise ([linear], [sim]) and the invariant ([sys_ok]); [SystemLocal],
      [SystemClients], [SystemCoordinator], [SystemOwners] the actions;
      [SystemConservation] requests and credits; [SystemRuns] runs from the start;
      [SystemProgress] progress and shutdown; [SystemDriver] the engine as one
      waiting client sees it; [SystemTheorems] the properties.
    - [Session]: [recall-server/src/session.rs], over any engine ([EngineApi]);
      [EngineContract]: what the connections rely on of the engine ([EngineService]
      to return, [EngineLaws] to be a table); [SystemEngine]: the engine of [System]
      keeps it.
    - [Server], [ServerLemmas], [ServerTheorems], [AcceptTheorems]:
      [recall-server/src/lib.rs].  Reading and framing requests, connections,
      bounded replies, the accept loop.  [ServerRun]: the accept loop and the
      engine in any interleaving up to the shutdown, with guards for what the
      connections may ask; [ServerDialogue] each client's part of it.  [Tasks]:
      [Server::run] with one task per connection, which is [connection] cut where
      it awaits ([host_step]); [TaskLemmas] the steps of a task; [TaskConnection]
      that they are the turns of [connection]; [TaskRun] that the guards of
      [ServerRun] hold because of where the tasks are.  [EndToEnd], [Concurrent]:
      all parts together, for one client and for many.
    - [Settings], [SettingsTheorems]: [recall-server/src/settings.rs].
      [Process]: [main.rs], from the arguments to the exit code.
    - [SystemSample], [ServerSample]: concrete systems for the witnesses.

    State is a record with the fields of the struct, an operation a function from
    states to outcomes, a loop a fixpoint over its data or with fuel, a class a
    trait or an interface.  [u64], [usize] and [i64] are integers with their checks
    and saturations written out, on a 64-bit target.

    ** What the theorems show

    - Whole server: the bytes a client gets back ([end_to_end], and
      [concurrent_end_to_end] among other clients), each client served request by
      request ([clients_take_turns]), nobody cut off by the shutdown
      ([server_graceful]), the exit code and what can stop the process
      ([process_exits]).
    - Shards: every trace of calls and sweeps is served as the table specifies,
      within its budgets, with exact accounting, errors included and without
      panics ([shard_serves_trace], [execute_refines], [execute_preserves],
      [expire_due_spec], [apply_order_irrelevant] and others).
    - Engine: every interleaving is linearizable, no assertion fails, requests and
      credits are conserved, coordinated commands make progress, owners are not
      starved, a shutdown serves everything accepted ([engine_linearizable],
      [requests_conserved], [credits_conserved], [coordinator_progress],
      [owners_are_fair], [shutdown_serves_everything], [split_combine_correct]).
    - Connections: pipelining, independence of fragmentation, authentication,
      bounds, the accept loop ([connection_pipelines], [fragmentation_immaterial],
      [password_guards_engine], [connection_bounded], [accept_loop_bounded]).
    - Wire format: the decoder accepts exactly the grammar, incrementally, safely
      and within its limits; replies have the computed length and decode uniquely.
    - Commands: the parser is total, sound, complete up to [unparse], and agrees
      with the metadata it advertises.
    - Expiration index: a map with an earliest element.
    - Settings: precedence, round trip of environment files, diagnostics that
      contain no values; the configuration's validation suffices for every
      component.

    ** Bounds and fuel

    The loops of the decoder take as fuel what is left of the input, the loops of
    the heap its size, [next_request] the bytes and events still to arrive
    ([read_fuel]); in each case a lemma shows the fuel suffices, so that the
    theorems state results and not partial correctness.  [shutdown] and
    [SystemDriver.drain] run for [total_work], a measure every action decreases.
    The revision counters of shards abort the process when a [u64] is exhausted;
    the theorems on runs assume fewer than 2^64 actions ([run_work]), and those on
    the server fewer than 2^63 connections, whose identities it counts likewise.

    ** Abstractions

    The hash function ([RandomState]), the allocator (which may fail at every
    reservation), the constant-time comparison and the clock are parameters; the
    clock of the engine does not go back.  A round trip of the coordinator with an
    owner is one action, at the moment the owner handles the message.  What the
    network decides - how bytes arrive, deadlines, errors, the shutdown signal -
    is data of a connection's run.  A hash map is a finite map; where the order of
    its iteration could matter, the theorems quantify over it.  [end_to_end] runs
    the engine for one client, by a schedule that serves it; [ServerRun] has every
    schedule, and names a connection by its identity: it may submit a request
    when it is live and waits for no reply.  In [Tasks] that is no guard but what
    a task does: it submits the command of the request it has read, at the point
    where [connection] calls the engine, and goes on when the engine answers.  A
    request acquires its credits at once when they are there: the permits that
    tokio assigns beforehand to a waiter count as available, and no order among
    waiters is assumed.  A task that is told of the shutdown while it reads may
    see it after bytes that came later.  [shutdown] is one schedule of
    [Engine::shutdown]; a thread that panics aborts the process ([fatal]), so the
    join of the threads returns no error.  What the operating system answers
    (the arguments, the environment, the file, the listener, [set_nodelay], the
    standard streams) is data.

    ** Not modelled

    What is printed, the source of signals, the tokio runtime, sockets and threads
    themselves and the failure to start a thread or the engine's runtime; memory
    consumption beyond the accounted payload; the [Display] instances of errors
    other than their messages; tests, tools, documentation and deployment files.
    The admission timeout is an action that may happen whenever a request waits;
    no theorem bounds how long it waits. *)

From stdpp Require Export base gmap sets list strings numbers sorting.
From Stdlib Require Export ZArith Lia.

#[export] Set Default Goal Selector "!".

(** ** Outcomes of Rust code

    [res E A] is what a call of a fallible Rust function can produce: a value,
    an error returned to the caller ([Result::Err]), or a panic ([assert!],
    [expect], an index out of bounds, an arithmetic overflow). *)

Inductive res (E A : Type) : Type :=
| Ok (a : A)
| Err (e : E)
| Panic.
Arguments Ok {E A} a.
Arguments Err {E A} e.
Arguments Panic {E A}.

#[export] Instance res_ret {E} : MRet (res E) := fun A a => Ok a.

#[export] Instance res_bind {E} : MBind (res E) := fun A B f m =>
  match m with
  | Ok a => f a
  | Err e => Err e
  | Panic => Panic
  end.

#[export] Instance res_fmap {E} : FMap (res E) := fun A B f m =>
  match m with
  | Ok a => Ok (f a)
  | Err e => Err e
  | Panic => Panic
  end.

(** [Option::ok_or]. *)
Definition ok_or {E A} (e : E) (o : option A) : res E A :=
  match o with Some a => Ok a | None => Err e end.

(** [Option::expect], [Option::unwrap] and slice indexing. *)
Definition expect {E A} (o : option A) : res E A :=
  match o with Some a => Ok a | None => Panic end.

(** [assert!]. *)
Definition assertion {E} (b : bool) : res E () :=
  if b then Ok tt else Panic.

(** [Result::map_err]. *)
Definition map_err {E F A} (f : E -> F) (m : res E A) : res F A :=
  match m with
  | Ok a => Ok a
  | Err e => Err (f e)
  | Panic => Panic
  end.

Definition succeeds {E A} (m : res E A) : bool := match m with Ok _ => true | _ => false end.

Definition is_panic {E A} (m : res E A) : bool :=
  match m with Panic => true | _ => false end.

(** ** Machine integers

    A 64-bit target: [usize] and [u64] coincide. *)

Definition usize_max : Z := 2 ^ 64 - 1.
Definition i64_min : Z := - 2 ^ 63.
Definition i64_max : Z := 2 ^ 63 - 1.

Definition in_usize (z : Z) : bool := (0 <=? z)%Z && (z <=? usize_max)%Z.
Definition in_i64 (z : Z) : bool := (i64_min <=? z)%Z && (z <=? i64_max)%Z.

(** [checked_add] and friends: the mathematical result, when it fits. *)
Definition checked_usize (z : Z) : option Z := if in_usize z then Some z else None.
Definition checked_i64 (z : Z) : option Z := if in_i64 z then Some z else None.

(** [saturating_sub] on [i64] and [saturating_add] on [u64]. *)
Definition saturating_i64 (z : Z) : Z := Z.max i64_min (Z.min i64_max z).
Definition saturating_usize (z : Z) : Z := Z.max 0 (Z.min usize_max z).

(** ** Slices indexed by [usize] *)

Abbreviation zlen l := (Z.of_nat (length l)).

Definition zlookup {A} (l : list A) (i : Z) : option A :=
  if (0 <=? i)%Z then l !! Z.to_nat i else None.

(** [&l[a..b]] for [a <= b <= l.len()]. *)
Definition slice {A} (l : list A) (a b : Z) : list A :=
  take (Z.to_nat (b - a)) (drop (Z.to_nat a) l).

(** The same with the bounds check: [None] is the panic of an invalid range. *)
Definition zslice {A} (l : list A) (a b : Z) : option (list A) :=
  if (0 <=? a)%Z && (a <=? b)%Z && (b <=? zlen l)%Z then Some (slice l a b) else None.

(** ** Control flow

    A stage of a loop body with early returns: it either goes on with a new
    state or returns from the enclosing function. *)

Inductive flow (S R : Type) : Type :=
| Next (s : S)
| Return (r : R) (s : S).
Arguments Next {S R} s.
Arguments Return {S R} r s.

Definition flow_then {S R} (m : flow S R) (k : S -> flow S R) : flow S R :=
  match m with
  | Next s => k s
  | Return r s => Return r s
  end.

(** ** Tactics *)

(** Case analysis on the integer comparisons of the goal. *)
Ltac zcase :=
  match goal with
  | |- context [Z.ltb ?a ?b] => destruct (Z.ltb_spec a b)
  | |- context [Z.leb ?a ?b] => destruct (Z.leb_spec a b)
  | |- context [Z.eqb ?a ?b] => destruct (Z.eqb_spec a b)
  end.

(** Turn boolean integer tests of the hypotheses into propositions. *)
Ltac zhyps :=
  repeat match goal with
  | H : andb _ _ = true |- _ => apply andb_true_iff in H; destruct H
  | H : orb _ _ = false |- _ => apply orb_false_iff in H; destruct H
  | H : negb _ = true |- _ => apply negb_true_iff in H
  | H : negb _ = false |- _ => apply negb_false_iff in H
  | H : Z.ltb _ _ = true |- _ => apply Z.ltb_lt in H
  | H : Z.ltb _ _ = false |- _ => apply Z.ltb_ge in H
  | H : Z.leb _ _ = true |- _ => apply Z.leb_le in H
  | H : Z.leb _ _ = false |- _ => apply Z.leb_gt in H
  | H : Z.eqb _ _ = true |- _ => apply Z.eqb_eq in H
  | H : Z.eqb _ _ = false |- _ => apply Z.eqb_neq in H
  end.

(** Linear arithmetic that knows the bounds of the machine integers. *)
Ltac int_lia := unfold i64_min, i64_max, usize_max in *; lia.

(** Split the first conditional or match of the goal, remembering its equation. *)
Ltac split_match :=
  match goal with
  | |- context [match ?x with _ => _ end] => destruct x eqn:?
  end.

(** The same for a hypothesis. *)
Ltac split_match_in H :=
  match type of H with
  | context [match ?x with _ => _ end] => destruct x eqn:?
  end.

Create HintDb recall discriminated.

(** ** Lemmas on outcomes *)

Lemma bind_Ok {E A B} (m : res E A) (f : A -> res E B) b :
  (x ← m; f x) = Ok b <-> exists a, m = Ok a /\ f a = Ok b.
Proof.
  destruct m; simpl; split; naive_solver.
Qed.

Lemma is_panic_bind {E A B} (m : res E A) (f : A -> res E B) :
  is_panic m = false ->
  (forall a, m = Ok a -> is_panic (f a) = false) ->
  is_panic (x ← m; f x) = false.
Proof. destruct m; simpl; naive_solver. Qed.

Lemma ok_or_Ok {E A} (e : E) (o : option A) a : ok_or e o = Ok a <-> o = Some a.
Proof. destruct o; simpl; split; congruence. Qed.

Lemma expect_Ok {E A} (o : option A) a : expect (E:=E) o = Ok a <-> o = Some a.
Proof. destruct o; simpl; split; congruence. Qed.

Lemma expect_Some {E A} (o : option A) a :
  o = Some a -> expect (E:=E) o = Ok a.
Proof. by intros ->. Qed.

(** ** Lemmas on machine integers *)

Lemma in_usize_spec z : in_usize z = true <-> (0 <= z <= usize_max)%Z.
Proof. unfold in_usize. rewrite andb_true_iff, !Z.leb_le. lia. Qed.

Lemma in_i64_spec z : in_i64 z = true <-> (i64_min <= z <= i64_max)%Z.
Proof. unfold in_i64. rewrite andb_true_iff, !Z.leb_le. lia. Qed.

Lemma checked_usize_Some z n :
  checked_usize z = Some n <-> n = z /\ (0 <= z <= usize_max)%Z.
Proof.
  unfold checked_usize. destruct (in_usize z) eqn:H.
  - apply in_usize_spec in H. naive_solver.
  - split; [done|]. intros [_ H']. apply in_usize_spec in H'. congruence.
Qed.

Lemma checked_usize_None z :
  checked_usize z = None <-> ~ (0 <= z <= usize_max)%Z.
Proof.
  unfold checked_usize. rewrite <- in_usize_spec.
  destruct (in_usize z); naive_solver.
Qed.

Lemma checked_i64_Some z n :
  checked_i64 z = Some n <-> n = z /\ (i64_min <= z <= i64_max)%Z.
Proof.
  unfold checked_i64. destruct (in_i64 z) eqn:H.
  - apply in_i64_spec in H. naive_solver.
  - split; [done|]. intros [_ H']. apply in_i64_spec in H'. congruence.
Qed.

Lemma checked_i64_None z :
  checked_i64 z = None <-> ~ (i64_min <= z <= i64_max)%Z.
Proof.
  unfold checked_i64. rewrite <- in_i64_spec.
  destruct (in_i64 z); naive_solver.
Qed.

(** ** Lemmas on lists *)

(** Induction on the length of a list, for loops that skip elements. *)
Lemma list_length_ind {A} (P : list A -> Prop) :
  (forall l, (forall l', length l' < length l -> P l') -> P l) -> forall l, P l.
Proof.
  intros IH l. remember (length l) as n eqn:Hn. revert l Hn.
  induction n as [n IHn] using lt_wf_ind. intros l ->. apply IH. eauto.
Qed.

Lemma elem_of_concat {A} (x : A) (ls : list (list A)) :
  x ∈ concat ls <-> exists l, l ∈ ls /\ x ∈ l.
Proof.
  rewrite list_elem_of_In, in_concat. by setoid_rewrite <- list_elem_of_In.
Qed.

(** ** Lemmas on slices *)

Lemma zlookup_Some_bounds {A} (l : list A) i x :
  zlookup l i = Some x -> (0 <= i < zlen l)%Z.
Proof.
  unfold zlookup. zcase; [|done].
  intros Hx%lookup_lt_Some. lia.
Qed.

Lemma zlookup_is_Some {A} (l : list A) i :
  (0 <= i < zlen l)%Z -> is_Some (zlookup l i).
Proof.
  intros. unfold zlookup. zcase; [|lia]. apply lookup_lt_is_Some. lia.
Qed.

Lemma zlookup_app_l {A} (l k : list A) i :
  (i < zlen l)%Z -> zlookup (l ++ k) i = zlookup l i.
Proof.
  intros. unfold zlookup. zcase; [|done]. apply lookup_app_l. lia.
Qed.

Lemma zlookup_app_r {A} (l k : list A) i :
  (zlen l <= i)%Z -> zlookup (l ++ k) i = zlookup k (i - zlen l).
Proof.
  intros. unfold zlookup. rewrite !(proj2 (Z.leb_le _ _)) by lia.
  rewrite lookup_app_r by lia. f_equal. lia.
Qed.

Lemma slice_app_l {A} (l k : list A) a b :
  (0 <= a)%Z -> (b <= zlen l)%Z -> slice (l ++ k) a b = slice l a b.
Proof.
  intros. unfold slice. destruct (Z.le_gt_cases b a).
  - by rewrite (Z2Nat.nonpos (b - a)) by lia.
  - rewrite drop_app_le, take_app_le; [done|rewrite length_drop; lia|lia].
Qed.

Lemma length_slice {A} (l : list A) a b :
  (0 <= a <= b)%Z -> (b <= zlen l)%Z -> zlen (slice l a b) = (b - a)%Z.
Proof. intros. unfold slice. rewrite length_take, length_drop. lia. Qed.

Lemma slice_nil_r {A} (l : list A) a b : (b <= a)%Z -> slice l a b = [].
Proof. intros. unfold slice. by rewrite (Z2Nat.nonpos (b - a)) by lia. Qed.

(** A slice that starts at the end of the first half lies in the second. *)
Lemma slice_app_r {A} (l k : list A) a b :
  (zlen l <= a)%Z -> slice (l ++ k) a b = slice k (a - zlen l) (b - zlen l).
Proof.
  intros. unfold slice. rewrite drop_app_ge by lia. f_equal; [lia|]. f_equal. lia.
Qed.

Lemma slice_take {A} (l : list A) a b c :
  (0 <= a <= b)%Z -> (b <= c)%Z -> slice l a b ++ slice l b c = slice l a c.
Proof.
  intros. unfold slice.
  replace (drop (Z.to_nat b) l) with (drop (Z.to_nat (b - a)) (drop (Z.to_nat a) l))
    by (rewrite drop_drop; f_equal; lia).
  replace (Z.to_nat (c - a)) with (Z.to_nat (b - a) + Z.to_nat (c - b))%nat by lia.
  apply take_take_drop.
Qed.

Lemma slice_one {A} (l : list A) a x : zlookup l a = Some x -> slice l a (a + 1) = [x].
Proof.
  intros Hx. assert (Hb := zlookup_Some_bounds _ _ _ Hx). unfold zlookup, slice in *.
  rewrite (proj2 (Z.leb_le _ _)) in Hx by lia.
  replace (Z.to_nat (a + 1 - a)) with 1%nat by lia. by rewrite (drop_S _ _ _ Hx).
Qed.

Lemma slice_two {A} (l : list A) a x y :
  zlookup l a = Some x -> zlookup l (a + 1) = Some y -> slice l a (a + 2) = [x; y].
Proof.
  intros Hx Hy. assert (Hb := zlookup_Some_bounds _ _ _ Hx).
  rewrite <- (slice_take l a (a + 1)) by lia.
  replace (a + 2)%Z with (a + 1 + 1)%Z by lia. by rewrite (slice_one l a x), (slice_one l _ y).
Qed.

Lemma slice_app_middle {A} (l m r : list A) :
  slice (l ++ m ++ r) (zlen l) (zlen l + zlen m) = m.
Proof.
  unfold slice. rewrite Nat2Z.id, drop_app_length.
  replace (Z.to_nat _) with (length m) by lia. apply take_app_length.
Qed.

Lemma zslice_Some {A} (l : list A) a b :
  (0 <= a <= b)%Z -> (b <= zlen l)%Z -> zslice l a b = Some (slice l a b).
Proof. intros. unfold zslice. by rewrite !(proj2 (Z.leb_le _ _)) by lia. Qed.

Lemma zslice_inv {A} (l : list A) a b k :
  zslice l a b = Some k -> k = slice l a b /\ (0 <= a <= b)%Z /\ (b <= zlen l)%Z.
Proof.
  unfold zslice. destruct (_ && _) eqn:E; [|done]. zhyps. intros. simplify_eq.
  repeat split; lia.
Qed.

Lemma zslice_app_l {A} (l k : list A) a b :
  (b <= zlen l)%Z -> zslice (l ++ k) a b = zslice l a b.
Proof.
  intros Hb. unfold zslice. rewrite length_app.
  repeat zcase; simpl; try done; try lia. by rewrite slice_app_l by lia.
Qed.
