(* ===== verification/Bytes.v ===== *)
(** * Byte strings and decimal numerals

    [bytes::Bytes], [&[u8]] and [Vec<u8>] are lists of 8-bit bytes.  The file
    holds the parts of the Rust standard library the program applies to them:
    ASCII case-insensitive comparison, the decimal rendering of integers
    ([to_string]) and [str::parse::<i64>], with their lemmas. *)

From Stdlib Require Export Strings.Byte.
From S2P Require Import Prelude.

Local Open Scope Z_scope.

Abbreviation bytes := (list byte).

#[export] Instance byte_eq_decision : EqDecision byte := byte_eq_dec.

#[export] Program Instance byte_countable : Countable byte :=
  inj_countable Byte.to_N Byte.of_N _.
Next Obligation. intros b. apply Byte.of_to_N. Qed.

(** A string literal as bytes. *)
Definition bs (s : string) : bytes := String.list_byte_of_string s.

(** A byte as a number, and back ([None] outside 0..=255). *)
Definition byte_val (b : byte) : Z := Z.of_N (Byte.to_N b).
Definition byte_of (z : Z) : byte :=
  default x00 (Byte.of_N (Z.to_N z)).

Definition CR : byte := x0d.
Definition LF : byte := x0a.
Definition CRLF : bytes := [CR; LF].

(** [u8::is_ascii_digit]. *)
Definition is_ascii_digit (b : byte) : bool :=
  (48 <=? byte_val b) && (byte_val b <=? 57).

(** [u8::to_ascii_lowercase] and [<[u8]>::eq_ignore_ascii_case]. *)
Definition to_ascii_lowercase (b : byte) : byte :=
  if (65 <=? byte_val b) && (byte_val b <=? 90) then byte_of (byte_val b + 32) else b.

Definition eq_ignore_ascii_case (a b : bytes) : bool :=
  bool_decide (to_ascii_lowercase <$> a = to_ascii_lowercase <$> b).

(** ** Decimal rendering *)

Definition digit (d : Z) : byte := byte_of (48 + d).

Fixpoint dec_fuel (fuel : nat) (n : Z) : bytes :=
  match fuel with
  | O => []
  | S fuel => if n <? 10 then [digit n] else dec_fuel fuel (n / 10) ++ [digit (n mod 10)]
  end.

(** [n.to_string()] for an unsigned [n]: a number has at most as many decimal
    as binary digits, so its bit length is enough fuel. *)
Definition dec (n : Z) : bytes := dec_fuel (S (Z.to_nat (Z.log2 n))) n.

(** [n.to_string()] for an [i64]. *)
Definition i64_to_string (n : Z) : bytes :=
  if n <? 0 then byte_of 45 :: dec (- n) else dec n.

#[global] Arguments dec : simpl never.
#[global] Arguments i64_to_string : simpl never.

(** ** [str::parse::<i64>]

    One optional sign, then at least one digit; digits are accumulated with
    checked arithmetic, downwards for a negative number. *)

Fixpoint parse_digits (negative : bool) (acc : Z) (l : bytes) : option Z :=
  match l with
  | [] => Some acc
  | b :: l =>
      if is_ascii_digit b then
        scaled ← checked_i64 (acc * 10);
        next ← checked_i64 (if negative then scaled - (byte_val b - 48)
                            else scaled + (byte_val b - 48));
        parse_digits negative next l
      else None
  end.

Definition parse_i64 (l : bytes) : option Z :=
  match l with
  | [] => None
  | sign :: rest =>
      if byte_val sign =? 45 then
        match rest with [] => None | _ => parse_digits true 0 rest end
      else if byte_val sign =? 43 then
        match rest with [] => None | _ => parse_digits false 0 rest end
      else parse_digits false 0 l
  end.

(** The number a list of digits denotes, without bounds. *)
Definition undec (l : bytes) : Z :=
  foldl (fun acc b => acc * 10 + (byte_val b - 48)) 0 l.

(** ** Lemmas on bytes *)

Lemma byte_val_bounds b : 0 <= byte_val b <= 255.
Proof. destruct b; vm_compute; by split. Qed.

Lemma byte_of_val b : byte_of (byte_val b) = b.
Proof. unfold byte_of, byte_val. by rewrite N2Z.id, Byte.of_to_N. Qed.

Lemma byte_val_inj a b : byte_val a = byte_val b -> a = b.
Proof. intros H. by rewrite <- (byte_of_val a), <- (byte_of_val b), H. Qed.

Lemma byte_val_digit d : 0 <= d < 10 -> byte_val (digit d) = 48 + d.
Proof.
  intros Hd.
  assert (d = 0 \/ d = 1 \/ d = 2 \/ d = 3 \/ d = 4 \/ d = 5 \/ d = 6 \/ d = 7 \/ d = 8 \/ d = 9)
    as Hcases by lia.
  by repeat destruct Hcases as [->|Hcases]; subst.
Qed.

Lemma is_ascii_digit_spec b : is_ascii_digit b = true <-> 48 <= byte_val b <= 57.
Proof. unfold is_ascii_digit. rewrite andb_true_iff, !Z.leb_le. lia. Qed.

Lemma digit_is_digit d : 0 <= d < 10 -> is_ascii_digit (digit d) = true.
Proof. intros. apply is_ascii_digit_spec. rewrite byte_val_digit; lia. Qed.

Lemma digit_val_inv b : is_ascii_digit b = true -> digit (byte_val b - 48) = b.
Proof.
  intros. unfold digit. replace (48 + _) with (byte_val b) by lia. apply byte_of_val.
Qed.

Lemma digit_not_CR b : is_ascii_digit b = true -> b <> CR /\ b <> LF.
Proof. intros H. by split; intros ->. Qed.

Lemma eq_ignore_ascii_case_refl a : eq_ignore_ascii_case a a = true.
Proof. by apply bool_decide_eq_true. Qed.

Lemma eq_ignore_ascii_case_sym a b :
  eq_ignore_ascii_case a b = eq_ignore_ascii_case b a.
Proof. apply bool_decide_ext. split; done. Qed.

(** Comparison sees its left argument only up to case. *)
Lemma eq_ignore_ascii_case_congr a a' b :
  eq_ignore_ascii_case a a' = true ->
  eq_ignore_ascii_case a b = eq_ignore_ascii_case a' b.
Proof.
  intros H%bool_decide_eq_true. apply bool_decide_ext. by rewrite H.
Qed.

(** ** Lemmas on decimal rendering *)

Lemma div10_lt_pow n k : 0 <= n < 2 ^ Z.of_nat (S k) -> 0 <= n / 10 < 2 ^ Z.of_nat k.
Proof.
  rewrite Nat2Z.inj_succ, Z.pow_succ_r by lia. intros. split.
  - apply Z.div_pos; lia.
  - apply Z.div_lt_upper_bound; lia.
Qed.

Lemma dec_fuel_enough f g n :
  0 <= n < 2 ^ Z.of_nat (S f) -> n < 2 ^ Z.of_nat (S g) ->
  dec_fuel (S f) n = dec_fuel (S g) n.
Proof.
  revert g n. induction f as [|f IH]; intros g n Hf Hg;
    cbn [dec_fuel]; (zcase; [done|]).
  - change (2 ^ Z.of_nat 1) with 2 in Hf. lia.
  - destruct g as [|g]; [change (2 ^ Z.of_nat 1) with 2 in Hg; lia|].
    f_equal. apply IH; apply div10_lt_pow; lia.
Qed.

Lemma dec_log2 n : 0 <= n -> 0 <= n < 2 ^ Z.of_nat (S (Z.to_nat (Z.log2 n))).
Proof.
  intros. rewrite Nat2Z.inj_succ, Z2Nat.id by apply Z.log2_nonneg.
  destruct (Z.eq_dec n 0) as [->|]; [done|]. split; [done|]. apply Z.log2_spec. lia.
Qed.

Lemma dec_unfold n : 0 <= n ->
  dec n = if n <? 10 then [digit n] else dec (n / 10) ++ [digit (n mod 10)].
Proof.
  intros Hn. unfold dec at 1. cbn [dec_fuel]. zcase; [done|]. f_equal.
  assert (Hlog := dec_log2 n Hn).
  destruct (Z.to_nat (Z.log2 n)) as [|k]; [change (2 ^ Z.of_nat 1) with 2 in Hlog; lia|].
  apply div10_lt_pow in Hlog. unfold dec. apply dec_fuel_enough; [done|].
  apply dec_log2. lia.
Qed.

(** Induction over the digits of a number. *)
Lemma dec_ind (P : Z -> bytes -> Prop) :
  (forall d, 0 <= d < 10 -> P d [digit d]) ->
  (forall n d, 0 < n -> 0 <= d < 10 -> P n (dec n) -> P (n * 10 + d) (dec n ++ [digit d])) ->
  forall n, 0 <= n -> P n (dec n).
Proof.
  intros Hone Hmore n Hn. revert n Hn.
  apply (Zlt_0_ind (fun n => P n (dec n))). intros n IH Hn.
  rewrite dec_unfold by done. zcase; [auto with lia|].
  assert (Hdiv := Z.div_mod n 10 ltac:(lia)).
  assert (Hmod := Z.mod_pos_bound n 10 ltac:(lia)).
  replace n with (n / 10 * 10 + n mod 10) at 1 by lia.
  apply Hmore; [lia|done|]. apply IH; lia.
Qed.

Lemma undec_app l k : undec (l ++ k) = foldl (fun acc b => acc * 10 + (byte_val b - 48)) (undec l) k.
Proof. apply foldl_app. Qed.

Lemma undec_snoc l d : 0 <= d < 10 -> undec (l ++ [digit d]) = undec l * 10 + d.
Proof. intros. rewrite undec_app. simpl. rewrite byte_val_digit; lia. Qed.

(** The numeral of a number: it denotes the number, in digits, with no leading
    zero but for zero itself. *)
Lemma undec_dec n : 0 <= n -> undec (dec n) = n.
Proof.
  revert n. apply (dec_ind (fun n l => undec l = n)).
  - intros d Hd. change [digit d] with ([] ++ [digit d]). by rewrite undec_snoc.
  - intros n d _ Hd IH. by rewrite undec_snoc, IH.
Qed.

Lemma dec_digits n : 0 <= n -> Forall (fun b => is_ascii_digit b = true) (dec n).
Proof.
  revert n. apply (dec_ind (fun _ l => Forall _ l)).
  - intros. by apply Forall_singleton, digit_is_digit.
  - intros. by apply Forall_app_2, Forall_singleton, digit_is_digit.
Qed.

Lemma dec_not_nil n : 0 <= n -> dec n <> [].
Proof.
  revert n. apply (dec_ind (fun _ l => l <> [])); [done|].
  intros n d _ _ _ []%app_nil. done.
Qed.

Lemma dec_inj n m : 0 <= n -> 0 <= m -> dec n = dec m -> n = m.
Proof. intros ?? E. by rewrite <- (undec_dec n), <- (undec_dec m), E. Qed.

(** The length of a numeral counts the powers of ten below the number. *)
Lemma dec_length n : 0 <= n ->
  n < 10 ^ zlen (dec n) /\ (10 <= n -> 10 ^ (zlen (dec n) - 1) <= n).
Proof.
  revert n. apply (dec_ind (fun n l => n < 10 ^ zlen l /\ (10 <= n -> 10 ^ (zlen l - 1) <= n))).
  - intros d Hd. change (zlen [digit d]) with 1. lia.
  - intros n d Hn Hd [IH1 IH2]. rewrite length_app, Nat2Z.inj_add. simpl length.
    assert (zlen (dec n) > 0).
    { assert (dec n <> []) by (apply dec_not_nil; lia). destruct (dec n); simpl; [done|lia]. }
    split; [rewrite Z.add_1_r, Z.pow_succ_r by lia; lia|]. intros _.
    replace (zlen (dec n) + _ - 1) with (Z.succ (zlen (dec n) - 1)) by lia.
    rewrite Z.pow_succ_r by lia.
    destruct (Z.lt_ge_cases n 10); [|lia].
    rewrite dec_unfold by lia. rewrite (proj2 (Z.ltb_lt _ _)) by lia. simpl. lia.
Qed.

Lemma dec_length_lt n k : 0 <= n < 10 ^ k -> 0 < k -> zlen (dec n) <= k.
Proof.
  intros Hn Hk. destruct (dec_length n) as [_ Hl]; [lia|].
  destruct (Z.lt_ge_cases n 10).
  - rewrite dec_unfold by lia. rewrite (proj2 (Z.ltb_lt _ _)) by lia. simpl. lia.
  - assert (10 ^ (zlen (dec n) - 1) < 10 ^ k) as Hlt%Z.pow_lt_mono_r_iff by lia; lia.
Qed.

(** ** Lemmas on parsing *)

Lemma parse_digits_app neg acc (l k : bytes) :
  parse_digits neg acc (l ++ k) = (a ← parse_digits neg acc l; parse_digits neg a k).
Proof.
  revert acc. induction l as [|b l IH]; intros acc; simpl; [done|].
  destruct (is_ascii_digit b); [|done].
  destruct (checked_i64 (acc * 10)) as [scaled|]; [|done]. simpl.
  destruct (checked_i64 _) as [next|]; [|done]. apply IH.
Qed.

Lemma parse_digits_digit (neg : bool) (acc d : Z) :
  0 <= d < 10 ->
  parse_digits neg acc [digit d] =
    (scaled ← checked_i64 (acc * 10);
     checked_i64 (if neg then scaled - d else scaled + d)).
Proof.
  intros Hd. simpl. rewrite digit_is_digit, byte_val_digit by done.
  destruct (checked_i64 (acc * 10)) as [scaled|]; [|done]. simpl.
  replace (48 + d - 48) with d by lia. by destruct (checked_i64 _).
Qed.

Lemma checked_i64_in z : i64_min <= z <= i64_max -> checked_i64 z = Some z.
Proof. intros. by apply checked_i64_Some. Qed.

Lemma parse_digits_dec (neg : bool) (n : Z) :
  0 <= n -> i64_min <= (if neg then - n else n) <= i64_max ->
  parse_digits neg 0 (dec n) = Some (if neg then - n else n).
Proof.
  revert n. apply (dec_ind (fun n l => i64_min <= (if neg then - n else n) <= i64_max ->
    parse_digits neg 0 l = Some (if neg then - n else n))).
  - intros d Hd Hb. rewrite parse_digits_digit by done. cbn -[checked_i64].
    destruct neg; simpl; rewrite checked_i64_in; (done || int_lia).
  - intros n d Hn Hd IH Hb. unfold i64_min, i64_max in *.
    rewrite parse_digits_app, IH by (destruct neg; lia). cbn [mbind option_bind].
    rewrite parse_digits_digit by done.
    rewrite checked_i64_in by (destruct neg; int_lia). cbn [mbind option_bind].
    rewrite checked_i64_in by (destruct neg; int_lia).
    f_equal. destruct neg; lia.
Qed.

Lemma parse_digits_bounds neg acc l n :
  i64_min <= acc <= i64_max -> parse_digits neg acc l = Some n -> i64_min <= n <= i64_max.
Proof.
  revert acc. induction l as [|b l IH]; intros acc Hacc; simpl; [naive_solver|].
  destruct (is_ascii_digit b); [|done].
  destruct (checked_i64 (acc * 10)) as [scaled|]; [|done]. simpl.
  destruct (checked_i64 _) as [next|] eqn:Hnext; [|done].
  apply checked_i64_Some in Hnext as [-> Hnext]. apply IH, Hnext.
Qed.

Lemma parse_i64_bounds l n : parse_i64 l = Some n -> i64_min <= n <= i64_max.
Proof.
  unfold parse_i64. destruct l as [|b l]; [done|].
  assert (i64_min <= 0 <= i64_max) by done.
  repeat zcase; destruct l; try done; intros; by eapply parse_digits_bounds.
Qed.

(** The head of a numeral is a digit, so it is never taken for a sign. *)
Lemma dec_head n : 0 <= n -> exists b l, dec n = b :: l /\ is_ascii_digit b = true.
Proof.
  intros Hn. assert (Hd := dec_digits n Hn). assert (Hne := dec_not_nil n Hn).
  destruct (dec n) as [|b l]; [done|]. inversion Hd. eauto.
Qed.

Lemma parse_i64_to_string n :
  i64_min <= n <= i64_max -> parse_i64 (i64_to_string n) = Some n.
Proof.
  intros Hn. unfold i64_to_string. zcase.
  - cbn [parse_i64]. change (byte_val (byte_of 45) =? 45) with true.
    destruct (dec_head (- n)) as (b & l & E & _); [lia|].
    assert (Hp := parse_digits_dec true (- n)). rewrite E in Hp |- *. cbn.
    cbn in Hp. rewrite Hp; [f_equal|..]; lia.
  - destruct (dec_head n) as (b & l & E & Hb%is_ascii_digit_spec); [lia|].
    assert (Hp := parse_digits_dec false n). rewrite E in Hp |- *. unfold parse_i64.
    rewrite !(proj2 (Z.eqb_neq _ _)) by lia. apply Hp; lia.
Qed.

Lemma i64_to_string_inj n m :
  i64_min <= n <= i64_max -> i64_min <= m <= i64_max ->
  i64_to_string n = i64_to_string m -> n = m.
Proof.
  intros Hn Hm E. apply parse_i64_to_string in Hn, Hm. congruence.
Qed.

Lemma i64_to_string_length n :
  i64_min <= n <= i64_max -> 1 <= zlen (i64_to_string n) <= 20.
Proof.
  unfold i64_min, i64_max. intros Hn. unfold i64_to_string.
  assert (forall m, 0 <= m <= 2 ^ 63 -> 1 <= zlen (dec m) <= 19) as Hl.
  { intros m Hm. split; [|apply dec_length_lt; lia].
    destruct (dec_head m) as (b & l & -> & _); [lia|]. simpl. lia. }
  zcase; simpl length; [assert (Hl' := Hl (- n))|assert (Hl' := Hl n)]; lia.
Qed.
