(* ===== verification/Protocol.v ===== *)
(** * RESP2 limits, requests and replies ([recall-protocol/src/lib.rs])

    The data exchanged with a client: the decoder's [Limits] and their
    validation, a decoded [Request], and [Reply] with its length computation
    and its encoder.  The incremental decoder is in [Decoder.v]. *)

From S2P Require Import Prelude Bytes.

Local Open Scope Z_scope.

(** ** Data *)

Record Limits := mkLimits {
  max_frame_bytes : Z;
  max_bulk_bytes : Z;
  max_arguments : Z;
  max_header_bytes : Z;
}.

Definition default_limits : Limits := {|
  max_frame_bytes := 1024 * 1024;
  max_bulk_bytes := 1024 * 1024 - 64;
  max_arguments := 1024;
  max_header_bytes := 24;
|}.

Record ProtocolError := mkProtocolError { protocol_message : string }.

#[export] Instance protocol_error_eq_dec : EqDecision ProtocolError.
Proof. solve_decision. Defined.

Definition validate_limits (l : Limits) : res ProtocolError () :=
  if (max_frame_bytes l <? 16)
     || (max_frame_bytes l <? max_bulk_bytes l)
     || (max_arguments l =? 0)
     || (max_header_bytes l <? 4)
     || (max_frame_bytes l <? max_header_bytes l)
  then Err (mkProtocolError "invalid protocol limits")
  else Ok tt.

Record Request := mkRequest {
  arguments : list bytes;
  wire_bytes : Z;
}.

Inductive Reply :=
| Simple (value : bytes)
| Error (value : bytes)
| Integer (value : Z)
| Bulk (value : option bytes)
| Array (values : list Reply).

(** [Reply::ok], [Reply::error] and [Reply::bulk]. *)
Definition reply_ok : Reply := Simple (bs "OK").
Definition reply_error (message : string) : Reply := Error (bs message).
Definition reply_bulk (value : bytes) : Reply := Bulk (Some value).

(** ** Operations *)

Fixpoint decimal_digits_loop (fuel : nat) (value digits : Z) : Z :=
  match fuel with
  | O => digits
  | S fuel =>
      if 10 <=? value then decimal_digits_loop fuel (value / 10) (digits + 1) else digits
  end.

(** The loop divides by ten until one digit is left: the bit length of the
    value bounds its iterations. *)
Definition decimal_digits (value : Z) : Z :=
  decimal_digits_loop (S (Z.to_nat (Z.log2 value))) value 1.

(** [Iterator::try_fold] on [Option]. *)
Definition try_fold {A B} (f : B -> A -> option B) : B -> list A -> option B :=
  fix go acc l :=
    match l with
    | [] => Some acc
    | x :: l => match f acc x with Some acc => go acc l | None => None end
    end.

Fixpoint encoded_len (r : Reply) : option Z :=
  match r with
  | Simple value | Error value => checked_usize (zlen value + 3)
  | Integer value =>
      checked_usize (decimal_digits (Z.abs value) + (3 + (if value <? 0 then 1 else 0)))
  | Bulk None => Some 5
  | Bulk (Some value) =>
      header ← checked_usize (decimal_digits (zlen value) + 5);
      checked_usize (header + zlen value)
  | Array values =>
      start ← checked_usize (decimal_digits (zlen values) + 3);
      try_fold (fun total value =>
        match encoded_len value with
        | Some n => checked_usize (total + n)
        | None => None
        end) start values
  end.

Fixpoint encode (r : Reply) (output : bytes) : bytes :=
  match r with
  | Simple value => output ++ bs "+" ++ value ++ CRLF
  | Error value => output ++ bs "-" ++ value ++ CRLF
  | Integer value => output ++ bs ":" ++ i64_to_string value ++ CRLF
  | Bulk None => output ++ bs "$-1" ++ CRLF
  | Bulk (Some value) =>
      output ++ bs "$" ++ dec (zlen value) ++ CRLF ++ value ++ CRLF
  | Array values =>
      foldl (fun output value => encode value output)
        (output ++ bs "*" ++ dec (zlen values) ++ CRLF) values
  end.

(** What a reply must satisfy for its wire form to be readable: the one-line
    strings hold no carriage return, the integers are 64-bit. *)
Fixpoint wire_safe (r : Reply) : bool :=
  match r with
  | Simple value | Error value => bool_decide (CR ∉ value)
  | Integer value => in_i64 value
  | Bulk _ => true
  | Array values => forallb wire_safe values
  end.

(** ** Induction over replies *)

Lemma Reply_nested_ind (P : Reply -> Prop) :
  (forall v, P (Simple v)) -> (forall v, P (Error v)) -> (forall v, P (Integer v)) ->
  (forall v, P (Bulk v)) -> (forall vs, Forall P vs -> P (Array vs)) ->
  forall r, P r.
Proof.
  intros HS HE HI HB HA. fix IH 1. intros [v|v|v|v|vs]; [apply HS|apply HE|apply HI|apply HB|].
  apply HA. induction vs as [|v vs IHvs]; constructor; [apply IH|apply IHvs].
Qed.

(** ** Lemmas on lengths *)

Lemma decimal_digits_loop_spec fuel value digits :
  0 <= value < 2 ^ Z.of_nat (S fuel) ->
  decimal_digits_loop (S fuel) value digits = digits - 1 + zlen (dec value).
Proof.
  revert value digits. induction fuel as [|fuel IH]; intros value digits Hv;
    cbn [decimal_digits_loop]; rewrite dec_unfold by lia;
    destruct (Z.leb_spec 10 value), (Z.ltb_spec value 10); try lia;
    try (cbn [length]; lia).
  assert (0 <= value / 10 < 2 ^ Z.of_nat (S fuel)) as Hdiv by by apply div10_lt_pow.
  cbn [decimal_digits_loop] in IH. rewrite IH by done.
  rewrite length_app. cbn [length]. lia.
Qed.

Lemma decimal_digits_dec n : 0 <= n -> decimal_digits n = zlen (dec n).
Proof.
  intros. unfold decimal_digits. rewrite decimal_digits_loop_spec by by apply dec_log2. lia.
Qed.

Lemma i64_to_string_len n :
  zlen (i64_to_string n) = decimal_digits (Z.abs n) + (if n <? 0 then 1 else 0).
Proof.
  unfold i64_to_string. zcase.
  - rewrite Z.abs_neq, decimal_digits_dec by lia. simpl length. lia.
  - rewrite Z.abs_eq, decimal_digits_dec by lia. lia.
Qed.

(** The encoder only appends. *)
Lemma encode_app r output : encode r output = output ++ encode r [].
Proof.
  revert output. induction r as [v|v|v|[v|]|vs IH] using Reply_nested_ind;
    intros output; cbn [encode app]; try done.
  generalize (bs "*" ++ dec (zlen vs) ++ CRLF) as header.
  revert output. induction IH as [|v vs IHv _ IHvs]; intros output header; simpl; [done|].
  rewrite IHv, (IHv header), <- (assoc_L (++)). apply IHvs.
Qed.

Lemma encode_array vs output :
  foldl (fun output value => encode value output) output vs =
  output ++ concat ((fun v => encode v []) <$> vs).
Proof.
  revert output. induction vs as [|v vs IH]; intros output; simpl.
  - by rewrite app_nil_r.
  - by rewrite IH, encode_app, <- (assoc_L (++)).
Qed.

Lemma checked_usize_chain a b :
  0 <= a -> 0 <= b ->
  (x ← checked_usize a; checked_usize (x + b)) = checked_usize (a + b).
Proof.
  intros. destruct (checked_usize a) as [x|] eqn:E; simpl.
  - by apply checked_usize_Some in E as [-> _].
  - symmetry. apply checked_usize_None in E. apply checked_usize_None. lia.
Qed.

Lemma try_fold_encoded_len vs :
  Forall (fun v => encoded_len v = checked_usize (zlen (encode v []))) vs ->
  forall start, 0 <= start ->
  (s ← checked_usize start;
   try_fold (fun total value =>
     match encoded_len value with
     | Some n => checked_usize (total + n)
     | None => None
     end) s vs)
  = checked_usize (start + zlen (concat ((fun v => encode v []) <$> vs))).
Proof.
  induction 1 as [|v vs Hv _ IH]; intros start Hstart; simpl.
  - rewrite Z.add_0_r. by destruct (checked_usize start).
  - rewrite length_app, Nat2Z.inj_add, Z.add_assoc, <- IH by lia. rewrite Hv.
    destruct (checked_usize start) as [s|] eqn:Es; simpl.
    + apply checked_usize_Some in Es as [-> Hs].
      destruct (checked_usize (zlen (encode v []))) as [n|] eqn:En.
      * apply checked_usize_Some in En as [-> _]. by destruct (checked_usize _).
      * apply checked_usize_None in En.
        by rewrite (proj2 (checked_usize_None (start + _))) by lia.
    + apply checked_usize_None in Es.
      by rewrite (proj2 (checked_usize_None (start + _))) by lia.
Qed.

(** The announced length is the length of the encoding. *)
Lemma encoded_len_spec r : encoded_len r = checked_usize (zlen (encode r [])).
Proof.
  induction r as [v|v|v|[v|]|vs IH] using Reply_nested_ind; cbn [encoded_len encode app].
  - rewrite !length_app. f_equal. simpl. lia.
  - rewrite !length_app. f_equal. simpl. lia.
  - rewrite !length_app, !Nat2Z.inj_add, i64_to_string_len. f_equal. simpl. lia.
  - rewrite decimal_digits_dec, checked_usize_chain by lia.
    rewrite !length_app, !Nat2Z.inj_add. f_equal. simpl. lia.
  - done.
  - rewrite try_fold_encoded_len, encode_array, !length_app by
      (rewrite ?decimal_digits_dec; (done || lia)).
    rewrite decimal_digits_dec, !Nat2Z.inj_add by lia. f_equal. simpl. lia.
Qed.

(** ** Lemmas on reading a reply back *)

(** A line without carriage return is delimited by its terminator. *)
Lemma line_inj (l l' s s' : bytes) :
  CR ∉ l -> CR ∉ l' -> l ++ CRLF ++ s = l' ++ CRLF ++ s' -> l = l' /\ s = s'.
Proof.
  revert l'. induction l as [|b l IH]; intros [|b' l'] Hl Hl' E; simpl in E.
  - naive_solver.
  - simplify_eq. by destruct Hl'; left.
  - simplify_eq. by destruct Hl; left.
  - injection E as -> E. rewrite not_elem_of_cons in Hl, Hl'.
    destruct (IH l') as [-> ->]; naive_solver.
Qed.

Lemma digits_no_CR (l : bytes) : Forall (fun b => is_ascii_digit b = true) l -> CR ∉ l.
Proof.
  intros Hl Hin. rewrite Forall_forall in Hl. by specialize (Hl _ Hin).
Qed.

Lemma dec_no_CR n : 0 <= n -> CR ∉ dec n.
Proof. intros. by apply digits_no_CR, dec_digits. Qed.

Lemma i64_to_string_no_CR n : CR ∉ i64_to_string n.
Proof.
  unfold i64_to_string. zcase; [|by apply dec_no_CR].
  apply not_elem_of_cons. split; [done|]. apply dec_no_CR. lia.
Qed.

#[export] Hint Resolve dec_no_CR i64_to_string_no_CR : recall.

(** A length header is never read as the null bulk string. *)
Lemma dec_not_minus n (s s' : bytes) : 0 <= n -> dec n ++ s <> byte_of 45 :: s'.
Proof.
  intros Hn E. destruct (dec_head n Hn) as (b & l & Hb & Hd).
  rewrite Hb in E. by injection E as ->.
Qed.

Lemma bulk_inj (v v' s s' : bytes) :
  dec (zlen v) ++ CRLF ++ v ++ CRLF ++ s = dec (zlen v') ++ CRLF ++ v' ++ CRLF ++ s' ->
  v = v' /\ s = s'.
Proof.
  intros E. apply line_inj in E as [Hlen E]; [|by apply dec_no_CR; lia..].
  apply dec_inj in Hlen; [|lia..].
  apply app_inj_1 in E as [-> E]; [|lia]. by apply app_inv_head in E.
Qed.

(** Encoded replies can be separated again, whatever follows them. *)
Definition separable (r : Reply) : Prop :=
  forall r' s s', wire_safe r = true -> wire_safe r' = true ->
    encode r [] ++ s = encode r' [] ++ s' -> r = r' /\ s = s'.

Lemma array_inj vs : Forall separable vs ->
  forall vs' s s', Forall (fun v => wire_safe v = true) vs ->
    Forall (fun v => wire_safe v = true) vs' -> length vs = length vs' ->
    concat ((fun v => encode v []) <$> vs) ++ s = concat ((fun v => encode v []) <$> vs') ++ s' ->
    vs = vs' /\ s = s'.
Proof.
  induction 1 as [|v vs Hv _ IH]; intros [|v' vs'] s s' Hsafe Hsafe' Hlen E; try done.
  simpl in E. rewrite <- !(assoc_L (++)) in E.
  inversion Hsafe. inversion Hsafe'. subst.
  apply Hv in E as [-> E]; [|done..]. apply IH in E as [-> ->]; auto.
Qed.

Lemma wire_safe_array vs : wire_safe (Array vs) = true -> Forall (fun v => wire_safe v = true) vs.
Proof.
  simpl. induction vs as [|v vs IH]; simpl; [by constructor|].
  rewrite andb_true_iff. intros []. constructor; auto.
Qed.

Lemma encode_separable r : separable r.
Proof.
  induction r as [v|v|v|[v|]|vs IH] using Reply_nested_ind;
    intros [v'|v'|v'|[v'|]|vs'] s s' Hs Hs'; cbn [encode app];
    rewrite ?encode_array, <- ?(assoc_L (++)); intros E; simpl in E;
    try discriminate E; try injection E as E.
  - apply bool_decide_eq_true in Hs, Hs'. by apply line_inj in E as [-> ->].
  - apply bool_decide_eq_true in Hs, Hs'. by apply line_inj in E as [-> ->].
  - apply in_i64_spec in Hs, Hs'. apply line_inj in E as [E ->]; auto with recall.
    by apply i64_to_string_inj in E as ->.
  - by apply bulk_inj in E as [-> ->].
  - by apply dec_not_minus in E; [|lia].
  - symmetry in E. by apply dec_not_minus in E; [|lia].
  - done.
  - apply line_inj in E as [Hlen E]; [|by apply dec_no_CR; lia..].
    apply dec_inj in Hlen; [|lia..].
    apply array_inj in E as [-> ->]; auto using wire_safe_array. lia.
Qed.

(** ** Properties *)

(** C23: the length a reply announces before it is encoded is exactly the number
    of bytes the encoder appends, and it is unavailable precisely when that
    number does not fit a [usize]. *)
Theorem encoded_len_matches_wire (r : Reply) (output : bytes) :
  exists wire, encode r output = output ++ wire /\
    encoded_len r = if zlen wire <=? usize_max then Some (zlen wire) else None.
Proof.
  exists (encode r []). split; [apply encode_app|]. rewrite encoded_len_spec.
  unfold checked_usize, in_usize. rewrite (proj2 (Z.leb_le 0 _)) by lia. done.
Qed.

(** C24: replies written one after the other are recovered in order: when two
    outputs that start with a reply agree, the replies and the rest agree. *)
Theorem encode_uniquely_decodable (r r' : Reply) (output s s' : bytes)
  (Hr : wire_safe r = true) (Hr' : wire_safe r' = true) :
  encode r output ++ s = encode r' output ++ s' -> r = r' /\ s = s'.
Proof.
  rewrite !(encode_app _ output), <- !(assoc_L (++)). intros E%app_inv_head.
  by apply encode_separable in E.
Qed.

Lemma encode_uniquely_decodable_witness :
  let r := Array [Integer (-7); Bulk None; reply_bulk (bs "a")] in
  wire_safe r = true /\
  (encode r [] ++ bs "x" = encode r [] ++ bs "x" -> r = r /\ bs "x" = bs "x").
Proof.
  split; [reflexivity|].
  apply (encode_uniquely_decodable _ _ [] (bs "x") (bs "x")); reflexivity.
Defined.
