(* ===== verification/Decoder.v ===== *)
(** * The incremental request decoder ([recall-protocol/src/lib.rs])

    [Decoder] keeps its position in a growing input buffer between calls: the
    end of the last complete element ([cursor]), how far the next header has
    been searched ([scan]), and what has been read of the current frame.  A call
    of [decode] either consumes one request from the front of the buffer, asks
    for more input ([Ok None]), or fails for good. *)

From S2P Require Import Prelude Bytes Protocol.

Local Open Scope Z_scope.

(** ** State *)

Record Decoder := mkDecoder {
  limits : Limits;
  cursor : Z;
  scan : Z;
  argument_count : option Z;
  bulk_length : option Z;
  spans : list (Z * Z);
}.

(** The decoder before the first byte of a frame. *)
Definition idle (l : Limits) : Decoder := mkDecoder l 0 0 None None [].

Definition new_decoder (l : Limits) : res ProtocolError Decoder :=
  _ ← validate_limits l; Ok (idle l).

Definition set_scan (d : Decoder) (s : Z) : Decoder :=
  mkDecoder (limits d) (cursor d) s (argument_count d) (bulk_length d) (spans d).

Definition set_argument_count (d : Decoder) (c : option Z) : Decoder :=
  mkDecoder (limits d) (cursor d) (scan d) c (bulk_length d) (spans d).

Definition set_bulk_length (d : Decoder) (b : option Z) : Decoder :=
  mkDecoder (limits d) (cursor d) (scan d) (argument_count d) b (spans d).

Definition advance_header (d : Decoder) (stop : Z) : Decoder :=
  mkDecoder (limits d) (stop + 2) (stop + 2) (argument_count d) (bulk_length d) (spans d).

(** The outcome of [decode]. *)
Abbreviation answer := (res ProtocolError (option Request)).

Definition protocol_error {A} (message : string) : res ProtocolError A :=
  Err (mkProtocolError message).

(** ** Headers *)

(** After the search loop of [header_end]: is there room for more input? *)
Definition header_pending (l : Limits) (input : bytes) (cursor scan : Z) :
    res ProtocolError (option Z) * Z :=
  if (max_header_bytes l <=? saturating_usize (zlen input - cursor))
     || (max_frame_bytes l <=? zlen input)
  then (protocol_error "unterminated or excessive protocol header", scan)
  else (Ok None, scan).

Fixpoint header_scan (fuel : nat) (l : Limits) (input : bytes) (cursor scan : Z) :
    res ProtocolError (option Z) * Z :=
  match fuel with
  | O => header_pending l input cursor scan
  | S fuel =>
      if scan + 1 <? zlen input then
        if (max_header_bytes l <? scan - cursor + 2) || (max_frame_bytes l <? scan + 2)
        then (protocol_error "protocol header exceeds configured limit", scan)
        else
          match zlookup input scan, zlookup input (scan + 1) with
          | Some here, Some next =>
              if bool_decide (here = CR) && bool_decide (next = LF) then (Ok (Some scan), scan)
              else if bool_decide (here = LF)
              then (protocol_error "invalid protocol line ending", scan)
              else header_scan fuel l input cursor (scan + 1)
          | _, _ => (Panic, scan)
          end
      else header_pending l input cursor scan
  end.

(** [header_end]: each iteration moves [scan] one byte, so the bytes left
    bound the iterations. *)
Definition header_end (d : Decoder) (input : bytes) : res ProtocolError (option Z) * Decoder :=
  let '(r, s) :=
    header_scan (Z.to_nat (zlen input - scan d)) (limits d) input (cursor d) (scan d) in
  (r, set_scan d s).

Fixpoint accumulate_length (acc : Z) (digits : bytes) : res ProtocolError Z :=
  match digits with
  | [] => Ok acc
  | b :: digits =>
      if negb (is_ascii_digit b) then protocol_error "invalid RESP2 length"
      else
        match v ← checked_usize (acc * 10); checked_usize (v + (byte_val b - 48)) with
        | Some acc => accumulate_length acc digits
        | None => protocol_error "RESP2 length overflow"
        end
  end.

Definition length_header (d : Decoder) (input : bytes) (stop : Z) (prefix : byte) :
    res ProtocolError Z :=
  if stop <=? cursor d + 1 then protocol_error "expected a nonnegative RESP2 length"
  else
    first ← expect (zlookup input (cursor d));
    if bool_decide (first <> prefix) then protocol_error "expected a nonnegative RESP2 length"
    else
      digits ← expect (zslice input (cursor d + 1) stop);
      accumulate_length 0 digits.

(** ** The stages of one iteration of the loop of [decode] *)

(** A header stage: find the end of the header, read its number, check it with
    [valid] and store it with [store]. *)
Definition header_stage (input : bytes) (prefix : byte) (valid : Z -> bool)
    (message : string) (store : Decoder -> Z -> Z -> Decoder) (d : Decoder) :
    flow Decoder answer :=
  match header_end d input with
  | (Ok None, d) => Return (Ok None) d
  | (Err e, d) => Return (Err e) d
  | (Panic, d) => Return Panic d
  | (Ok (Some stop), d) =>
      match length_header d input stop prefix with
      | Err e => Return (Err e) d
      | Panic => Return Panic d
      | Ok n => if valid n then Next (store d n stop) else Return (protocol_error message) d
      end
  end.

Definition count_stage (input : bytes) (d : Decoder) : flow Decoder answer :=
  match argument_count d with
  | Some _ => Next d
  | None =>
      header_stage input (byte_of 42)
        (fun count => negb ((count =? 0) || (max_arguments (limits d) <? count)))
        "invalid or excessive argument count"
        (fun d count stop => advance_header (set_argument_count d (Some count)) stop) d
  end.

Definition bulk_stage (input : bytes) (d : Decoder) : flow Decoder answer :=
  match bulk_length d with
  | Some _ => Next d
  | None =>
      header_stage input (byte_of 36)
        (fun length => length <=? max_bulk_bytes (limits d))
        "bulk argument exceeds configured limit"
        (fun d length stop => set_bulk_length (advance_header d stop) (Some length)) d
  end.

(** The copies of the arguments; [None] is an out-of-range span. *)
Definition copy_spans (input : bytes) (sp : list (Z * Z)) : option (list bytes) :=
  mapM (fun span => zslice input (span.1) (span.2)) sp.

(** The payload of the current argument and, after the last one, the request:
    it is built before the input is advanced past the frame. *)
Definition payload_stage (input : bytes) (d : Decoder) : flow Decoder answer :=
  match bulk_length d with
  | None => Return Panic d
  | Some length =>
      match v ← checked_usize (cursor d + length); checked_usize (v + 2) with
      | None => Return (protocol_error "frame length overflow") d
      | Some stop =>
          if max_frame_bytes (limits d) <? stop
          then Return (protocol_error "request exceeds configured limit") d
          else if zlen input <? stop then Return (Ok None) d
          else
            match zslice input (stop - 2) stop with
            | None => Return Panic d
            | Some ending =>
                if bool_decide (ending <> CRLF)
                then Return (protocol_error "bulk argument is not CRLF terminated") d
                else
                  let d := mkDecoder (limits d) stop stop (argument_count d) None
                             (spans d ++ [(cursor d, stop - 2)]) in
                  if bool_decide (Some (zlen (spans d)) = argument_count d) then
                    match copy_spans input (spans d) with
                    | None => Return Panic d
                    | Some args => Return (Ok (Some (mkRequest args (cursor d)))) (idle (limits d))
                    end
                  else Next d
            end
      end
  end.

Definition decode_iteration (input : bytes) (d : Decoder) : flow Decoder answer :=
  flow_then (flow_then (count_stage input d) (bulk_stage input)) (payload_stage input).

Fixpoint decode_loop (fuel : nat) (d : Decoder) (input : bytes) : answer * Decoder :=
  match fuel with
  | O => (Panic, d)
  | S fuel =>
      match decode_iteration input d with
      | Next d => decode_loop fuel d input
      | Return r d => (r, d)
      end
  end.

(** [Decoder::decode]: the answer, the decoder and the input that is left.  Each
    iteration but the last consumes at least the two bytes of a terminator. *)
Definition decode (d : Decoder) (input : bytes) : answer * Decoder * bytes :=
  match decode_loop (S (length input)) d input with
  | (Ok (Some q), d) => (Ok (Some q), d, drop (Z.to_nat (wire_bytes q)) input)
  | (r, d) => (r, d, input)
  end.

(** The client's side of the protocol, as the integration tests write it
    ([tests/support/mod.rs]): a request as an array of bulk strings. *)
Definition frame (args : list bytes) : bytes :=
  foldl (fun result arg => result ++ (bs "$" ++ dec (zlen arg) ++ CRLF) ++ arg ++ CRLF)
    (bs "*" ++ dec (zlen args) ++ CRLF) args.

Example decode_ping :
  decode (idle default_limits) (bs "*1" ++ CRLF ++ bs "$4" ++ CRLF ++ bs "PING" ++ CRLF ++ bs "*")
  = (Ok (Some (mkRequest [bs "PING"] 14)), idle default_limits, bs "*").
Proof. reflexivity. Qed.
