(* ===== verification/DecoderLemmas.v ===== *)
(** * Invariants of the incremental decoder

    [decoder_ok] says what a decoder has read of the input it was given;
    [stage_ok] is the contract of each stage of the loop of [Decoder.decode]
    against it and [stage_grows] relates a stage's answers on an input and on a
    longer one.  From these come the fuel-free equation of the loop
    ([decode_run_eq]), its induction principle, and its two specifications
    [decode_run_spec] and [decode_run_grows]. *)

From S2P Require Import Prelude Bytes Protocol Decoder.

Local Open Scope Z_scope.

(** ** Invariants *)

Record limits_ok (l : Limits) : Prop := {
  limits_valid : validate_limits l = Ok tt;
  limits_bulk_nonneg : 0 <= max_bulk_bytes l;
  limits_frame_usize : max_frame_bytes l <= usize_max;
  limits_arguments_usize : max_arguments l <= usize_max;
}.

Lemma limits_ok_bounds l : limits_ok l ->
  16 <= max_frame_bytes l /\ max_bulk_bytes l <= max_frame_bytes l /\
  max_arguments l <> 0 /\ 4 <= max_header_bytes l <= max_frame_bytes l.
Proof.
  intros [Hv _ _ _]. unfold validate_limits in Hv. destruct (_ || _) eqn:E; [done|].
  zhyps. lia.
Qed.

Lemma default_limits_ok : limits_ok default_limits.
Proof. by split. Qed.

(** The wire form of a length: prefix, decimal digits, terminator. *)
Definition is_header (prefix : byte) (n : Z) (w : bytes) : Prop :=
  exists ds, w = prefix :: ds ++ CRLF /\ ds <> [] /\
    Forall (fun b => is_ascii_digit b = true) ds /\ undec ds = n.

(** The wire form of one argument, and of a request within the limits. *)
Definition is_bulk (l : Limits) (arg w : bytes) : Prop :=
  exists h, w = h ++ arg ++ CRLF /\ is_header (byte_of 36) (zlen arg) h /\
    zlen h <= max_header_bytes l /\ zlen arg <= max_bulk_bytes l.

Definition is_frame (l : Limits) (args : list bytes) (w : bytes) : Prop :=
  exists h ws, w = h ++ concat ws /\ is_header (byte_of 42) (zlen args) h /\
    zlen h <= max_header_bytes l /\ Forall2 (is_bulk l) args ws /\
    1 <= zlen args <= max_arguments l /\ zlen w <= max_frame_bytes l.

(** What the decoder has read up to its cursor: the request header, whole
    arguments, and possibly the header of the next argument. *)
Definition reads (d : Decoder) (input : bytes) (count : Z) : Prop :=
  exists h args ws t,
    slice input 0 (cursor d) = h ++ concat ws ++ t /\
    is_header (byte_of 42) count h /\ zlen h <= max_header_bytes (limits d) /\
    Forall2 (is_bulk (limits d)) args ws /\ copy_spans input (spans d) = Some args /\
    match bulk_length d with
    | None => t = []
    | Some n => is_header (byte_of 36) n t /\ zlen t <= max_header_bytes (limits d)
    end.

(** The decoder points into the input it has been given. *)
Record decoder_ok (d : Decoder) (input : bytes) : Prop := {
  ok_limits : limits_ok (limits d);
  ok_cursor : 0 <= cursor d <= scan d;
  ok_scan : scan d <= zlen input;
  ok_frame : cursor d <= max_frame_bytes (limits d);
  ok_spans : Forall (fun s => s.2 <= cursor d) (spans d);
  ok_count : match argument_count d with
    | None => bulk_length d = None /\ spans d = [] /\ cursor d = 0
    | Some c => zlen (spans d) < c <= max_arguments (limits d) /\ reads d input c
    end;
  ok_bulk : match bulk_length d with
    | None => True
    | Some n => 0 <= n <= max_bulk_bytes (limits d)
    end;
}.

Definition scan_ok (d : Decoder) (input : bytes) : Prop :=
  0 <= cursor d <= scan d /\ scan d <= zlen input.

Lemma decoder_ok_scan_ok d input : decoder_ok d input -> scan_ok d input.
Proof. by intros []. Qed.

Lemma idle_ok l input : limits_ok l -> decoder_ok (idle l) input.
Proof.
  intros Hl. destruct (limits_ok_bounds l Hl). split; simpl; try done; try lia.
Qed.

Lemma copy_spans_app a b sp (c : Z) :
  c <= zlen a -> Forall (fun s => s.2 <= c) sp -> copy_spans (a ++ b) sp = copy_spans a sp.
Proof.
  intros Hc. unfold copy_spans. induction 1 as [|s sp Hs _ IH]; [done|].
  cbn [mapM]. by rewrite zslice_app_l, IH by lia.
Qed.

Lemma decoder_ok_app d a b : decoder_ok d a -> decoder_ok d (a ++ b).
Proof.
  intros [? ? ? ? ? Hcount ?]. split; try done; [rewrite length_app; lia|].
  destruct (argument_count d) as [c|]; [|done]. destruct Hcount as [Hc Hreads].
  split; [done|]. destruct Hreads as (h & args & ws & t & Hr & ? & ? & ? & Hcopy & ?).
  exists h, args, ws, t. rewrite slice_app_l, (copy_spans_app a b _ (cursor d)) by (done || lia).
  done.
Qed.

(** ** Length headers *)

Lemma undec_from_ge acc l :
  Forall (fun b => is_ascii_digit b = true) l -> 0 <= acc ->
  acc <= foldl (fun acc b => acc * 10 + (byte_val b - 48)) acc l.
Proof.
  intros Hl. revert acc. induction Hl as [|b l Hb _ IH]; intros acc Hacc; simpl; [done|].
  apply is_ascii_digit_spec in Hb. etrans; [|apply IH]; lia.
Qed.

Lemma accumulate_length_spec acc l n : 0 <= acc <= usize_max ->
  accumulate_length acc l = Ok n <->
  Forall (fun b => is_ascii_digit b = true) l /\
  n = foldl (fun acc b => acc * 10 + (byte_val b - 48)) acc l /\ n <= usize_max.
Proof.
  revert acc. induction l as [|b l IH]; intros acc Hacc; simpl.
  - split; [intros [= ->]; repeat split; (constructor || lia)|by intros (_ & -> & _)].
  - rewrite Forall_cons. destruct (is_ascii_digit b) eqn:Hb; simpl; [|naive_solver].
    assert (Hd := Hb). apply is_ascii_digit_spec in Hd.
    rewrite checked_usize_chain by lia.
    destruct (checked_usize _) as [next|] eqn:Hn.
    + apply checked_usize_Some in Hn as [-> ?]. rewrite IH by done. naive_solver.
    + apply checked_usize_None in Hn. split; [done|]. intros ([_ Hl] & -> & Hmax).
      assert (Hge := undec_from_ge (acc * 10 + (byte_val b - 48)) l Hl). lia.
Qed.

Lemma accumulate_length_no_panic acc l : accumulate_length acc l <> Panic.
Proof.
  revert acc. induction l as [|b l IH]; intros acc; simpl; [done|].
  destruct (negb _); [done|]. by destruct (checked_usize _ ≫= _).
Qed.

(** ** Searching the end of a header *)

Definition header_search (l : Limits) (input : bytes) (cursor s : Z) :
    res ProtocolError (option Z) * Z :=
  header_scan (Z.to_nat (zlen input - s)) l input cursor s.

Lemma header_search_eq l input cursor s : 0 <= s ->
  header_search l input cursor s =
  if s + 1 <? zlen input then
    if (max_header_bytes l <? s - cursor + 2) || (max_frame_bytes l <? s + 2)
    then (protocol_error "protocol header exceeds configured limit", s)
    else
      match zlookup input s, zlookup input (s + 1) with
      | Some here, Some next =>
          if bool_decide (here = CR) && bool_decide (next = LF) then (Ok (Some s), s)
          else if bool_decide (here = LF)
          then (protocol_error "invalid protocol line ending", s)
          else header_search l input cursor (s + 1)
      | _, _ => (Panic, s)
      end
  else header_pending l input cursor s.
Proof.
  intros Hs. unfold header_search at 1.
  destruct (Z.to_nat (zlen input - s)) as [|fuel] eqn:Hf; cbn [header_scan].
  - by rewrite (proj2 (Z.ltb_ge _ _)) by lia.
  - unfold header_search. by replace (Z.to_nat (zlen input - (s + 1))) with fuel by lia.
Qed.

(** Induction on the bytes that are left to search. *)
Lemma search_ind (input : bytes) (P : Z -> Prop) :
  (forall s, 0 <= s -> (s + 1 < zlen input -> P (s + 1)) -> P s) ->
  forall s, 0 <= s -> P s.
Proof.
  intros IH s Hs. remember (Z.to_nat (zlen input - s)) as n eqn:Hn.
  revert s Hs Hn. induction n as [|n IHn]; intros s Hs Hn; apply IH; try done.
  - lia.
  - intros. apply IHn; lia.
Qed.

(** What the search finds, and that it never leaves the input. *)
Lemma header_search_spec l input cursor s : 0 <= s <= zlen input ->
  match header_search l input cursor s with
  | (Ok (Some stop), s') => s' = stop /\ s <= stop /\ stop + 2 <= zlen input /\
      zlookup input stop = Some CR /\ zlookup input (stop + 1) = Some LF /\
      stop - cursor + 2 <= max_header_bytes l /\ stop + 2 <= max_frame_bytes l
  | (Ok None, s') => s <= s' <= zlen input
  | (Err _, _) => True
  | (Panic, _) => False
  end.
Proof.
  intros [Hs Hle]. revert Hle. pattern s. revert s Hs. apply (search_ind input).
  intros s Hs IH Hle. rewrite header_search_eq by done. zcase.
  - destruct (_ || _) eqn:Hmax; [done|]. zhyps.
    destruct (zlookup_is_Some input s) as [here Hhere]; [lia|].
    destruct (zlookup_is_Some input (s + 1)) as [next Hnext]; [lia|].
    rewrite Hhere, Hnext.
    destruct (_ && _) eqn:Hend.
    + apply andb_true_iff in Hend as [->%bool_decide_eq_true ->%bool_decide_eq_true].
      repeat split; (done || lia).
    + clear Hend. case_bool_decide; [done|].
      specialize (IH ltac:(lia) ltac:(lia)).
      destruct (header_search l input cursor (s + 1)) as [[[stop|]| |] s']; try done; intuition lia.
  - unfold header_pending. destruct (_ || _); [done|]. lia.
Qed.

(** More input does not change what has been found, lets a pending search go on
    from where it stopped, and does not cure an error. *)
Lemma header_search_app l a b cursor s :
  4 <= max_header_bytes l -> 0 <= cursor <= s -> s <= zlen a ->
  match header_search l a cursor s with
  | (Ok (Some stop), s') => header_search l (a ++ b) cursor s = (Ok (Some stop), s')
  | (Ok None, s') => header_search l (a ++ b) cursor s' = header_search l (a ++ b) cursor s
  | (Err _, _) => exists e s', header_search l (a ++ b) cursor s = (Err e, s')
  | (Panic, _) => True
  end.
Proof.
  intros Hl [Hc Hcs] Hle. assert (Hs : 0 <= s) by lia. revert Hcs Hle. pattern s. revert s Hs.
  apply (search_ind a). intros s Hs IH Hcs Hle.
  rewrite (header_search_eq l a) by done. unfold header_pending, protocol_error.
  destruct (Z.ltb_spec (s + 1) (zlen a)) as [Hlt|Hge].
  - rewrite (header_search_eq l (a ++ b)), length_app by done. unfold protocol_error.
    rewrite (proj2 (Z.ltb_lt (s + 1) _)) by lia.
    destruct (_ || _); [by eauto|]. rewrite !zlookup_app_l by lia.
    destruct (zlookup a s) as [here|], (zlookup a (s + 1)) as [next|]; try done.
    destruct (_ && _); [done|]. case_bool_decide; [by eauto|].
    specialize (IH Hlt ltac:(lia) ltac:(lia)).
    destruct (header_search l a cursor (s + 1)) as [[[stop|]| |] s']; try done.
  - destruct ((max_header_bytes l <=? _) || _) eqn:Hstop; [|done].
    rewrite (header_search_eq l (a ++ b)) by done. unfold header_pending, protocol_error.
    apply orb_true_iff in Hstop as [Hstop|Hstop]; zhyps; rewrite length_app;
      destruct (_ <? _) eqn:Hmore; destruct (_ || _) eqn:Hgo; eauto;
      exfalso; zhyps; unfold saturating_usize in *; lia.
Qed.

(** ** The number in a header *)

Lemma header_bytes (input : bytes) (c stop : Z) (p : byte) :
  0 <= c -> c < stop -> stop + 2 <= zlen input -> zlookup input c = Some p ->
  zlookup input stop = Some CR -> zlookup input (stop + 1) = Some LF ->
  slice input c (stop + 2) = p :: slice input (c + 1) stop ++ CRLF.
Proof.
  intros Hc Hlt Hle Hp Hcr Hlf.
  rewrite <- (slice_take input c (c + 1)), <- (slice_take input (c + 1) stop) by lia.
  rewrite (slice_one input c p), (slice_two input stop CR LF) by done. done.
Qed.

Lemma length_header_spec d input stop p n :
  0 <= cursor d -> stop + 2 <= zlen input ->
  zlookup input stop = Some CR -> zlookup input (stop + 1) = Some LF ->
  length_header d input stop p = Ok n ->
  is_header p n (slice input (cursor d) (stop + 2)) /\ 0 <= n <= usize_max /\ cursor d < stop.
Proof.
  intros Hc Hstop Hcr Hlf. unfold length_header. zcase; [done|]. intros E.
  apply bind_Ok in E as (first & Hfirst & E).
  destruct (zlookup input (cursor d)) as [b|] eqn:Hb; [|done]. injection Hfirst as <-.
  case_bool_decide as Hp; [done|]. subst b.
  rewrite zslice_Some in E by lia. cbn [expect mbind res_bind] in E.
  apply accumulate_length_spec in E as (Hdigits & -> & Hmax); [|done].
  split; [|split; [split; [by apply undec_from_ge|done]|lia]].
  exists (slice input (cursor d + 1) stop).
  rewrite (header_bytes input (cursor d) stop p) by (try done; lia).
  repeat split; try done. intros Hnil.
  assert (zlen (slice input (cursor d + 1) stop) = stop - (cursor d + 1)) as Hlen
    by (apply length_slice; lia).
  rewrite Hnil in Hlen. simpl in Hlen. lia.
Qed.

Lemma length_header_no_panic d input stop p :
  0 <= cursor d -> stop <= zlen input -> length_header d input stop p <> Panic.
Proof.
  intros Hc Hstop. unfold length_header. zcase; [done|].
  destruct (zlookup_is_Some input (cursor d)) as [b ->]; [lia|]. cbn [expect mbind res_bind].
  case_bool_decide; [done|]. rewrite zslice_Some by lia. apply accumulate_length_no_panic.
Qed.

Lemma length_header_app d a b stop p :
  stop <= zlen a -> length_header d (a ++ b) stop p = length_header d a stop p.
Proof.
  intros. unfold length_header. zcase; [done|].
  by rewrite zlookup_app_l, zslice_app_l by lia.
Qed.

(** ** The header stages *)

Lemma header_stage_spec input p valid msg store d :
  scan_ok d input ->
  match header_stage input p valid msg store d with
  | Next d' => exists n stop, d' = store (set_scan d stop) n stop /\ valid n = true /\
      0 <= n /\ cursor d < stop /\ stop + 2 <= zlen input /\
      stop + 2 <= max_frame_bytes (limits d) /\
      stop + 2 - cursor d <= max_header_bytes (limits d) /\
      is_header p n (slice input (cursor d) (stop + 2))
  | Return (Ok None) d' => exists s, d' = set_scan d s /\ scan d <= s <= zlen input
  | Return (Ok (Some _)) _ => False
  | Return (Err _) _ => True
  | Return Panic _ => False
  end.
Proof.
  intros [Hc Hs]. unfold header_stage, header_end.
  fold (header_search (limits d) input (cursor d) (scan d)).
  assert (Hspec := header_search_spec (limits d) input (cursor d) (scan d) ltac:(lia)).
  destruct (header_search _ _ _ _) as [[[stop|]| |] s']; try done; [|by exists s'].
  destruct Hspec as (-> & Hle & Hlen & Hcr & Hlf & Hmax & Hframe).
  destruct (length_header _ _ _ _) as [n| |] eqn:Hn; try done.
  - destruct (valid n) eqn:Hv; [|done].
    apply length_header_spec in Hn as (Hh & Hbound & Hlt); [|simpl; (done || lia)..].
    exists n, stop. simpl in *. repeat split; try done; lia.
  - by apply length_header_no_panic in Hn; [|simpl; lia..].
Qed.

(** How the answer of a stage on an input relates to its answer on a longer one. *)
Definition stage_grows (stage : bytes -> Decoder -> flow Decoder answer)
    (a b : bytes) (d : Decoder) : Prop :=
  match stage a d with
  | Next d' => stage (a ++ b) d = Next d'
  | Return (Ok None) d' => stage (a ++ b) d' = stage (a ++ b) d
  | Return (Ok (Some q)) d' => stage (a ++ b) d = Return (Ok (Some q)) d'
  | Return (Err _) _ => exists e d', stage (a ++ b) d = Return (Err e) d'
  | Return Panic _ => True
  end.

Lemma header_stage_grows p valid msg store a b d :
  limits_ok (limits d) -> scan_ok d a ->
  stage_grows (fun input => header_stage input p valid msg store) a b d.
Proof.
  intros Hl [Hc Hs]. destruct (limits_ok_bounds _ Hl) as (_ & _ & _ & Hheader & _).
  unfold stage_grows, header_stage, header_end.
  fold (header_search (limits d) a (cursor d) (scan d)).
  fold (header_search (limits d) (a ++ b) (cursor d) (scan d)).
  assert (Happ := header_search_app (limits d) a b (cursor d) (scan d) Hheader Hc Hs).
  assert (Hspec := header_search_spec (limits d) a (cursor d) (scan d) ltac:(lia)).
  destruct (header_search _ a _ _) as [[[stop|]| |] s']; try done.
  - destruct Hspec as (-> & _ & Hlen & _). rewrite Happ, length_header_app by lia.
    destruct (length_header _ _ _ _) as [n|e|]; try done; [|by eauto].
    destruct (valid n); [done|]. unfold protocol_error. eauto.
  - simpl. fold (header_search (limits d) (a ++ b) (cursor d) s').
    rewrite Happ. done.
  - destruct Happ as (e' & s'' & ->). eauto.
Qed.

(** ** Invariant and growth of each stage *)

(** The contract of a stage: its invariant, what it keeps, and what a request
    it returns was read from. *)
Definition stage_ok (input : bytes) (d : Decoder) (gain : Z) (m : flow Decoder answer)
    (post : Decoder -> Prop) : Prop :=
  match m with
  | Next d' => decoder_ok d' input /\ limits d' = limits d /\ cursor d + gain <= cursor d' /\ post d'
  | Return (Ok None) d' => decoder_ok d' input /\ limits d' = limits d
  | Return (Ok (Some q)) d' => d' = idle (limits d) /\ 0 <= wire_bytes q <= zlen input /\
      is_frame (limits d) (arguments q) (slice input 0 (wire_bytes q))
  | Return (Err _) _ => True
  | Return Panic _ => False
  end.

Lemma set_scan_ok d input s : decoder_ok d input -> scan d <= s <= zlen input ->
  decoder_ok (set_scan d s) input.
Proof. intros [] Hs. split; simpl; try done; lia. Qed.

Lemma count_stage_ok input d : decoder_ok d input ->
  stage_ok input d 0 (count_stage input d) (fun d' => is_Some (argument_count d')).
Proof.
  intros Hok. assert (Hok' := Hok). destruct Hok' as [? Hc Hs ? ? Hcount ?].
  unfold count_stage.
  destruct (argument_count d) as [c|] eqn:Hcnt.
  { simpl. rewrite Hcnt. split_and!; (done || lia || by eexists). }
  destruct Hcount as (Hbulk & Hspans & Hzero).
  match goal with |- context [header_stage input ?p ?v ?m ?st d] =>
    assert (Hst := header_stage_spec input p v m st d (decoder_ok_scan_ok _ _ Hok));
    destruct (header_stage input p v m st d) as [d'|[[q|]| |] d']; try done
  end.
  - destruct Hst as (n & stop & -> & Hv & Hn & Hlt & Hlen & Hframe & Hhead & Hh).
    zhyps. simpl. split; [|split_and!; simpl; (done || lia || by eexists)].
    split; simpl; try done; try lia.
    + by rewrite Hspans.
    + rewrite Hspans. simpl. split; [lia|]. rewrite Hzero in *.
      exists (slice input 0 (stop + 2)), [], [], []. simpl. rewrite Hbulk, Hspans.
      rewrite length_slice by lia. split_and!; rewrite ?app_nil_r; try done; lia.
  - destruct Hst as (s & -> & Hs'). by split; [apply set_scan_ok|].
Qed.

Lemma bulk_stage_ok input d : decoder_ok d input -> is_Some (argument_count d) ->
  stage_ok input d 0 (bulk_stage input d)
    (fun d' => argument_count d' = argument_count d /\ is_Some (bulk_length d')).
Proof.
  intros Hok [c Hcnt]. assert (Hok' := Hok). destruct Hok' as [? Hc Hs ? Hspans Hcount ?].
  unfold bulk_stage. destruct (bulk_length d) as [n|] eqn:Hbulk.
  { simpl. rewrite Hbulk. split_and!; (done || lia || by eexists). }
  match goal with |- context [header_stage input ?p ?v ?m ?st d] =>
    assert (Hst := header_stage_spec input p v m st d (decoder_ok_scan_ok _ _ Hok));
    destruct (header_stage input p v m st d) as [d'|[[q|]| |] d']; try done
  end.
  - destruct Hst as (n & stop & -> & Hv & Hn & Hlt & Hlen & Hframe & Hhead & Hh).
    zhyps. simpl. split; [|split_and!; simpl; (done || lia || by eexists)].
    rewrite Hcnt in Hcount. destruct Hcount as [Hcount Hreads].
    split; simpl; rewrite ?Hcnt; try done; try lia.
    + eapply Forall_impl; [done|]. simpl. intros. lia.
    + split; [done|]. destruct Hreads as (h & args & ws & t & Hr & ? & ? & ? & Hcopy & Ht).
      rewrite Hbulk in Ht. subst t.
      exists h, args, ws, (slice input (cursor d) (stop + 2)). simpl.
      rewrite length_slice, <- (slice_take input 0 (cursor d)), Hr by lia.
      split_and!; rewrite ?app_nil_r, <- ?(assoc_L (++)); (done || lia).
  - destruct Hst as (s & -> & Hs'). by split; [apply set_scan_ok|].
Qed.

(** The state after a complete argument. *)
Definition push_span (d : Decoder) (stop : Z) : Decoder :=
  mkDecoder (limits d) stop stop (argument_count d) None (spans d ++ [(cursor d, stop - 2)]).

Lemma copy_spans_snoc input sp args a b :
  copy_spans input sp = Some args -> 0 <= a <= b -> b <= zlen input ->
  copy_spans input (sp ++ [(a, b)]) = Some (args ++ [slice input a b]).
Proof.
  intros Hcopy Ha Hb. unfold copy_spans in *. apply mapM_Some in Hcopy. apply mapM_Some.
  apply Forall2_app; [done|]. constructor; [|constructor]. by apply zslice_Some.
Qed.

Lemma copy_spans_length input sp args : copy_spans input sp = Some args -> length args = length sp.
Proof. unfold copy_spans. intros H%mapM_Some. symmetry. by eapply Forall2_length. Qed.

(** Reading the payload of an argument completes it. *)
Lemma push_span_reads input d c n stop :
  reads d input c -> bulk_length d = Some n -> 0 <= n <= max_bulk_bytes (limits d) ->
  0 <= cursor d -> stop = cursor d + n + 2 -> stop <= zlen input ->
  slice input (stop - 2) stop = CRLF ->
  exists h args ws, slice input 0 stop = h ++ concat ws /\
    is_header (byte_of 42) c h /\ zlen h <= max_header_bytes (limits d) /\
    Forall2 (is_bulk (limits d)) args ws /\
    copy_spans input (spans d ++ [(cursor d, stop - 2)]) = Some args.
Proof.
  intros (h & args & ws & t & Hr & Hh & Hhl & Hargs & Hcopy & Ht) Hbulk Hn Hc Hstop Hle Hend.
  rewrite Hbulk in Ht. destruct Ht as [Ht Htl].
  set (arg := slice input (cursor d) (stop - 2)).
  assert (zlen arg = n) as Harg by (unfold arg; rewrite length_slice; lia).
  exists h, (args ++ [arg]), (ws ++ [t ++ arg ++ CRLF]). split_and!; try done.
  - rewrite <- (slice_take input 0 (cursor d)), <- (slice_take input (cursor d) (stop - 2)) by lia.
    rewrite Hr, Hend, concat_app. simpl. by rewrite app_nil_r, <- !(assoc_L (++)).
  - apply Forall2_app; [done|]. constructor; [|constructor].
    exists t. rewrite Harg. split_and!; (done || lia).
  - apply copy_spans_snoc; (done || lia).
Qed.

Lemma payload_stage_ok input d : decoder_ok d input -> is_Some (argument_count d) ->
  is_Some (bulk_length d) -> stage_ok input d 2 (payload_stage input d) (fun _ => True).
Proof.
  intros Hok [c Hcnt] [n Hbulk]. assert (Hok' := Hok).
  destruct Hok' as [? Hc Hs ? Hspans Hcount Hbnd]. unfold payload_stage.
  rewrite Hcnt in Hcount. destruct Hcount as [Hcount Hreads]. rewrite Hbulk in *.
  rewrite checked_usize_chain by lia.
  destruct (checked_usize (cursor d + n + 2)) as [stop|] eqn:Hstop; [|done].
  apply checked_usize_Some in Hstop as [Hstop _].
  destruct (max_frame_bytes (limits d) <? stop) eqn:Hframe; [done|].
  destruct (zlen input <? stop) eqn:Hlen; [done|]. zhyps.
  rewrite zslice_Some by lia. case_bool_decide as Hend; [done|].
  fold (push_span d stop). cbn -[push_span bool_decide].
  destruct (push_span_reads input d c n stop) as (h & args & ws & Hr & Hh & Hhl & Hargs & Hcopy);
    try (done || lia).
  assert (Hlargs := copy_spans_length _ _ _ Hcopy).
  simpl. rewrite Hcnt, Hcopy. case_bool_decide as Hlast.
  - injection Hlast as Hlast. simpl. split_and!; try (done || lia).
    exists h, ws. rewrite Hlargs, Hlast, length_slice by lia. split_and!; (done || lia).
  - split_and!; simpl; try (done || lia). split; simpl; try (done || lia).
    + apply Forall_app. split; [|constructor; simpl; [lia|done]].
      eapply Forall_impl; [done|]. simpl. intros. lia.
    + assert (zlen (spans d ++ [(cursor d, stop - 2)]) <> c) as Hmore by congruence.
      rewrite Hcnt, length_app in *. simpl in *. split; [lia|].
      exists h, args, ws, []. simpl. rewrite app_nil_r. done.
Qed.

Lemma stage_ok_then input d gain gain' (m : flow Decoder answer) k (P Q : Decoder -> Prop) :
  stage_ok input d gain m P ->
  (forall d', m = Next d' -> decoder_ok d' input -> P d' -> stage_ok input d' gain' (k d') Q) ->
  stage_ok input d (gain + gain') (flow_then m k) Q.
Proof.
  destruct m as [d'|[[q|]| |] d']; simpl; try done.
  intros (Hok & Hl & Hgain & HP) Hk. specialize (Hk d' eq_refl Hok HP).
  destruct (k d') as [d''|[[q|]| |] d'']; simpl in *; rewrite <- ?Hl; try done.
  destruct Hk as (? & ? & ? & ?). split_and!; try done. lia.
Qed.

Lemma decode_iteration_ok input d : decoder_ok d input ->
  stage_ok input d 2 (decode_iteration input d) (fun _ => True).
Proof.
  intros Hok. unfold decode_iteration. change 2 with (0 + 0 + 2).
  eapply stage_ok_then; [eapply stage_ok_then; [by apply count_stage_ok|]|].
  - intros d' _ Hok' Hcnt.
    assert (Hb := bulk_stage_ok _ _ Hok' Hcnt).
    instantiate (1 := fun d' => is_Some (argument_count d') /\ is_Some (bulk_length d')).
    destruct (bulk_stage input d') as [d''|[[q|]| |] d'']; simpl in *; try done.
    destruct Hb as (? & ? & ? & Hcnt' & ?). split_and!; try done. by rewrite Hcnt'.
  - intros d' _ Hok' [Hcnt Hbulk]. by apply payload_stage_ok.
Qed.

(** ** More input *)

Lemma count_stage_grows a b d : decoder_ok d a -> stage_grows count_stage a b d.
Proof.
  intros Hok. unfold stage_grows, count_stage.
  destruct (argument_count d) as [c|] eqn:Hcnt; [done|].
  match goal with |- context [header_stage a ?p ?v ?m ?st d] =>
    assert (Hg := header_stage_grows p v m st a b d (ok_limits _ _ Hok) (decoder_ok_scan_ok _ _ Hok));
    assert (Hs := header_stage_spec a p v m st d (decoder_ok_scan_ok _ _ Hok))
  end.
  unfold stage_grows in Hg. destruct (header_stage a _ _ _ _ _) as [d'|[[q|]| |] d']; try done.
  destruct Hs as (s & -> & _). simpl. by rewrite Hcnt.
Qed.

Lemma bulk_stage_grows a b d : decoder_ok d a -> stage_grows bulk_stage a b d.
Proof.
  intros Hok. unfold stage_grows, bulk_stage.
  destruct (bulk_length d) as [n|] eqn:Hbulk; [done|].
  match goal with |- context [header_stage a ?p ?v ?m ?st d] =>
    assert (Hg := header_stage_grows p v m st a b d (ok_limits _ _ Hok) (decoder_ok_scan_ok _ _ Hok));
    assert (Hs := header_stage_spec a p v m st d (decoder_ok_scan_ok _ _ Hok))
  end.
  unfold stage_grows in Hg. destruct (header_stage a _ _ _ _ _) as [d'|[[q|]| |] d']; try done.
  destruct Hs as (s & -> & _). simpl. by rewrite Hbulk.
Qed.

Lemma payload_stage_pending input d d' :
  payload_stage input d = Return (Ok None) d' -> d' = d.
Proof.
  unfold payload_stage. repeat (split_match; try (intros [=]; congruence)).
Qed.

Lemma payload_stage_app a b d : decoder_ok d a ->
  payload_stage a d <> Return (Ok None) d -> payload_stage (a ++ b) d = payload_stage a d.
Proof.
  intros [? Hc Hs ? Hspans _ Hn]. unfold payload_stage.
  destruct (bulk_length d) as [n|]; [|done].
  rewrite checked_usize_chain by lia.
  destruct (checked_usize _) as [stop|] eqn:Hstop; [|done].
  apply checked_usize_Some in Hstop as [-> _].
  destruct (max_frame_bytes (limits d) <? _); [done|].
  destruct (zlen a <? _) eqn:Hlen; [done|]. zhyps. intros _.
  rewrite length_app, (proj2 (Z.ltb_ge (Z.of_nat (length a + length b)) _)), zslice_app_l by lia.
  destruct (zslice a _ _); [|done]. case_bool_decide; [done|]. cbn [spans].
  rewrite (copy_spans_app a b _ (cursor d + n + 2)); [done|lia|].
  apply Forall_app. split; [|constructor; simpl; [lia|done]].
  eapply Forall_impl; [done|]. simpl. intros. lia.
Qed.

Lemma payload_stage_grows a b d : decoder_ok d a -> stage_grows payload_stage a b d.
Proof.
  intros Hok. assert (Happ := payload_stage_app a b d Hok). unfold stage_grows.
  destruct (payload_stage a d) as [d'|[[q|]|e|] d'] eqn:E; try (rewrite Happ by done; by eauto).
  - by apply payload_stage_pending in E as ->.
  - done.
Qed.

Lemma bulk_stage_idle d input n : bulk_length d = Some n -> bulk_stage input d = Next d.
Proof. intros H. unfold bulk_stage. by rewrite H. Qed.

Lemma count_stage_idle d input c : argument_count d = Some c -> count_stage input d = Next d.
Proof. intros H. unfold count_stage. by rewrite H. Qed.

(** A pending stage is followed, on more input, by the stages before it doing
    nothing again. *)
Lemma flow_then_grows m k a b d :
  stage_grows m a b d ->
  (forall d1, m a d = Next d1 -> stage_grows k a b d1) ->
  (forall d1 d2, m a d = Next d1 -> k a d1 = Return (Ok None) d2 -> m (a ++ b) d2 = Next d2) ->
  stage_grows (fun input d => flow_then (m input d) (k input)) a b d.
Proof.
  unfold stage_grows. intros Hm Hk Hidle.
  destruct (m a d) as [d1|[[q|]|e|] d1] eqn:E; simpl; try done.
  - specialize (Hk d1 eq_refl). specialize (Hidle d1). rewrite Hm. simpl.
    destruct (k a d1) as [d2|[[q|]|e|] d2] eqn:E2; try done.
    by rewrite (Hidle d2).
  - by rewrite Hm.
  - by rewrite Hm.
  - destruct Hm as (e' & d' & ->). eauto.
Qed.

Lemma bulk_stage_pending input d d' c : argument_count d = Some c -> scan_ok d input ->
  bulk_stage input d = Return (Ok None) d' -> argument_count d' = Some c.
Proof.
  intros Hc Hs. unfold bulk_stage. destruct (bulk_length d); [done|]. intros E.
  match type of E with header_stage _ ?p ?v ?m ?st _ = _ =>
    assert (Hspec := header_stage_spec input p v m st d Hs) end.
  rewrite E in Hspec. by destruct Hspec as (s & -> & _).
Qed.

Lemma decode_iteration_grows a b d : decoder_ok d a -> stage_grows decode_iteration a b d.
Proof.
  intros Hok.
  assert (Hc := count_stage_ok a d Hok).
  assert (forall d1, count_stage a d = Next d1 ->
    decoder_ok d1 a /\ exists c, argument_count d1 = Some c) as Hcount.
  { intros d1 E. rewrite E in Hc. simpl in Hc. naive_solver. }
  apply (flow_then_grows (fun input d => flow_then (count_stage input d) (bulk_stage input))
    payload_stage).
  - apply (flow_then_grows count_stage bulk_stage); [by apply count_stage_grows|..].
    + intros d1 E. apply bulk_stage_grows. by apply Hcount.
    + intros d1 d2 E Hp. destruct (Hcount _ E) as [Hok1 [c Hcnt]].
      eapply count_stage_idle, bulk_stage_pending; [done| |done]. by apply decoder_ok_scan_ok.
  - intros d1 E. destruct (count_stage a d) as [d0|] eqn:E0; simpl in E; [|done].
    destruct (Hcount _ eq_refl) as [Hok0 Hcnt]. apply payload_stage_grows.
    assert (Hb := bulk_stage_ok a d0 Hok0 Hcnt). rewrite E in Hb. by destruct Hb.
  - intros d1 d2 E ->%payload_stage_pending.
    destruct (count_stage a d) as [d0|] eqn:E0; simpl in E; [|done].
    destruct (Hcount _ eq_refl) as [Hok0 [c Hcnt]].
    assert (Hb := bulk_stage_ok a d0 Hok0 (mk_is_Some _ _ Hcnt)). rewrite E in Hb.
    destruct Hb as (_ & _ & _ & Hcnt' & n & Hbulk). rewrite Hcnt in Hcnt'.
    rewrite (count_stage_idle _ _ _ Hcnt'). simpl. by eapply bulk_stage_idle.
Qed.

(** ** The loop *)

(** Enough iterations for the input that is left. *)
Lemma decode_loop_fuel input d f g : decoder_ok d input ->
  (Z.to_nat (zlen input - cursor d) < f)%nat -> (Z.to_nat (zlen input - cursor d) < g)%nat ->
  decode_loop f d input = decode_loop g d input.
Proof.
  revert d g. induction f as [|f IH]; intros d g Hok Hf Hg; [lia|].
  destruct g as [|g]; [lia|]. simpl.
  assert (Hit := decode_iteration_ok input d Hok).
  destruct (decode_iteration input d) as [d'|r d']; [|done]. simpl in Hit.
  destruct Hit as (Hok' & _ & Hgain & _). destruct (ok_cursor _ _ Hok') as [? ?].
  assert (Hscan := ok_scan _ _ Hok'). assert (Hc := ok_cursor _ _ Hok). apply IH; (done || lia).
Qed.

(** The loop without its fuel. *)
Definition decode_run (d : Decoder) (input : bytes) : answer * Decoder :=
  decode_loop (S (length input)) d input.

Lemma decode_run_eq d input : decoder_ok d input ->
  decode_run d input =
  match decode_iteration input d with
  | Next d' => decode_run d' input
  | Return r d' => (r, d')
  end.
Proof.
  intros Hok. unfold decode_run at 1. cbn [decode_loop].
  assert (Hit := decode_iteration_ok input d Hok).
  destruct (decode_iteration input d) as [d'|r d']; [|done]. simpl in Hit.
  destruct Hit as (Hok' & _ & Hgain & _).
  assert (Hscan := ok_scan _ _ Hok'). assert (Hc := ok_cursor _ _ Hok).
  assert (Hc' := ok_cursor _ _ Hok'). apply decode_loop_fuel; (done || lia).
Qed.

(** Induction over the iterations of the loop. *)
Lemma decode_run_ind input (P : Decoder -> Prop) :
  (forall d, decoder_ok d input ->
    (forall d', decode_iteration input d = Next d' -> decoder_ok d' input -> P d') -> P d) ->
  forall d, decoder_ok d input -> P d.
Proof.
  intros IH d Hok. remember (Z.to_nat (zlen input - cursor d)) as n eqn:Hn.
  revert d Hok Hn. induction n as [n IHn] using lt_wf_ind. intros d Hok Hn.
  apply IH; [done|]. intros d' E Hok'.
  assert (Hit := decode_iteration_ok input d Hok). rewrite E in Hit. simpl in Hit.
  assert (Hscan := ok_scan _ _ Hok'). assert (Hc := ok_cursor _ _ Hok).
  assert (Hc' := ok_cursor _ _ Hok').
  eapply IHn; [|done|done]. lia.
Qed.

Lemma decode_run_spec input d : decoder_ok d input ->
  stage_ok input d 0 (let '(r, d') := decode_run d input in Return r d') (fun _ => True).
Proof.
  revert d. apply decode_run_ind. intros d Hok IH. rewrite decode_run_eq by done.
  assert (Hit := decode_iteration_ok input d Hok).
  destruct (decode_iteration input d) as [d'|r d'] eqn:E; [|by destruct r as [[]| |]].
  simpl in Hit. destruct Hit as (Hok' & Hl & _). specialize (IH d' eq_refl Hok').
  destruct (decode_run d' input) as [[[q|]|e|] d'']; simpl in *; rewrite ?Hl in *; done.
Qed.

Lemma decode_run_grows a b d : decoder_ok d a ->
  match decode_run d a with
  | (Ok None, d') => decode_run d' (a ++ b) = decode_run d (a ++ b)
  | (Ok (Some q), d') => decode_run d (a ++ b) = (Ok (Some q), d')
  | (Err _, _) => exists e d', decode_run d (a ++ b) = (Err e, d')
  | (Panic, _) => False
  end.
Proof.
  revert d. apply decode_run_ind. intros d Hok IH.
  assert (Hok2 := decoder_ok_app d a b Hok).
  rewrite (decode_run_eq d a), (decode_run_eq d (a ++ b)) by done.
  assert (Hit := decode_iteration_ok a d Hok).
  assert (Hg := decode_iteration_grows a b d Hok). unfold stage_grows in Hg.
  destruct (decode_iteration a d) as [d'|[[q|]|e|] d'] eqn:E.
  - rewrite Hg. apply IH; [done|]. by destruct Hit.
  - by rewrite Hg.
  - destruct Hit as [Hok' _]. rewrite <- Hg. apply decode_run_eq. by apply decoder_ok_app.
  - destruct Hg as (e' & d'' & ->). eauto.
  - done.
Qed.

(** While a request is pending there is still room for input. *)
Lemma header_pending_room l input c s s' :
  header_search l input c s = (Ok None, s') -> 0 <= s <= zlen input ->
  zlen input < max_frame_bytes l.
Proof.
  intros E [Hs Hle]. revert Hle E. pattern s. revert s Hs. apply (search_ind input).
  intros s Hs IH Hle. rewrite header_search_eq by done. unfold header_pending. zcase.
  - destruct (_ || _); [done|]. destruct (zlookup input s), (zlookup input (s + 1)); try done.
    destruct (_ && _); [done|]. destruct (bool_decide _); [done|]. auto with lia.
  - destruct (_ || _) eqn:Hroom; [done|]. zhyps. lia.
Qed.

Lemma header_stage_room input p valid msg store d d' : scan_ok d input ->
  header_stage input p valid msg store d = Return (Ok None) d' ->
  zlen input < max_frame_bytes (limits d).
Proof.
  intros [Hc Hs]. unfold header_stage, header_end.
  fold (header_search (limits d) input (cursor d) (scan d)).
  destruct (header_search _ _ _ _) as [[[stop|]| |] s'] eqn:E; try done.
  - destruct (length_header _ _ _ _) as [n| |]; try done. by destruct (valid n).
  - intros _. eapply header_pending_room; [done|]. lia.
Qed.

Lemma payload_stage_room input d d' :
  payload_stage input d = Return (Ok None) d' -> zlen input < max_frame_bytes (limits d).
Proof.
  unfold payload_stage. destruct (bulk_length d) as [n|]; [|done].
  destruct (_ ≫= _) as [stop|]; [|done].
  destruct (max_frame_bytes _ <? stop) eqn:Hf; [done|].
  destruct (zlen input <? stop) eqn:Hl; [zhyps; lia|].
  repeat (split_match; try done).
Qed.

Lemma decode_iteration_room input d d' : decoder_ok d input ->
  decode_iteration input d = Return (Ok None) d' -> zlen input < max_frame_bytes (limits d).
Proof.
  intros Hok. unfold decode_iteration.
  assert (Hc := count_stage_ok input d Hok).
  destruct (count_stage input d) as [d1|r d1] eqn:E1; simpl in *.
  - destruct Hc as (Hok1 & <- & _ & Hcnt). assert (Hb := bulk_stage_ok input d1 Hok1 Hcnt).
    destruct (bulk_stage input d1) as [d2|r d2] eqn:E2; simpl in *.
    + destruct Hb as (_ & <- & _). apply payload_stage_room.
    + intros [= -> ->]. unfold bulk_stage in E2. destruct (bulk_length d1); [done|].
      eapply header_stage_room; [|done]. by apply decoder_ok_scan_ok.
  - intros [= -> ->]. unfold count_stage in E1. destruct (argument_count d); [done|].
    eapply header_stage_room; [|done]. by apply decoder_ok_scan_ok.
Qed.

Lemma decode_run_room input d d' : decoder_ok d input ->
  decode_run d input = (Ok None, d') -> zlen input < max_frame_bytes (limits d).
Proof.
  revert d. apply (decode_run_ind input (fun d => decode_run d input = (Ok None, d') -> _)).
  intros d Hok IH. rewrite decode_run_eq by done.
  assert (Hit := decode_iteration_ok input d Hok).
  destruct (decode_iteration input d) as [d1|r d1] eqn:E.
  - destruct Hit as (Hok1 & <- & _). by apply IH.
  - intros [= -> ->]. by eapply decode_iteration_room.
Qed.
