(* ===== verification/DecoderTheorems.v ===== *)
(** * What the incremental decoder guarantees

    Completeness of the decoder (every frame within the limits is accepted) and
    the properties of [Decoder.decode]: it accepts exactly the frames of the
    grammar [is_frame], and how the bytes arrive does not matter. *)

From S2P Require Import Prelude Bytes Protocol Decoder DecoderLemmas.

Local Open Scope Z_scope.

(** ** Completeness: frames within the limits are accepted *)

Lemma zlookup_middle (pre : bytes) b post : zlookup (pre ++ b :: post) (zlen pre) = Some b.
Proof. rewrite zlookup_app_r, Z.sub_diag by lia. done. Qed.

Lemma header_search_finds l pre ds post c :
  Forall (fun b => b <> CR /\ b <> LF) ds -> 0 <= c <= zlen pre ->
  zlen pre + zlen ds - c + 2 <= max_header_bytes l ->
  zlen pre + zlen ds + 2 <= max_frame_bytes l ->
  header_search l (pre ++ ds ++ CRLF ++ post) c (zlen pre) =
    (Ok (Some (zlen pre + zlen ds)), zlen pre + zlen ds).
Proof.
  intros Hds. revert pre. induction Hds as [|b ds [Hcr Hlf] _ IH]; intros pre Hc Hh Hf;
    rewrite header_search_eq by lia.
  - simpl app. rewrite (proj2 (Z.ltb_lt _ _)) by (rewrite length_app; simpl; lia).
    simpl length in *. rewrite zlookup_middle.
    rewrite (zlookup_app_r pre), Z.add_simpl_l by lia. simpl.
    destruct (_ || _) eqn:Hmax; [apply orb_true_iff in Hmax as [?|?]; zhyps; lia|].
    by rewrite Z.add_0_r.
  - rewrite (proj2 (Z.ltb_lt _ _)) by (rewrite !length_app; simpl; lia).
    simpl length in *.
    destruct (_ || _) eqn:Hmax; [apply orb_true_iff in Hmax as [?|?]; zhyps; lia|].
    simpl app. rewrite zlookup_middle.
    destruct (zlookup_is_Some (pre ++ b :: ds ++ CR :: LF :: post) (zlen pre + 1)) as [x ->].
    { rewrite !length_app. simpl. rewrite length_app. simpl. lia. }
    rewrite (bool_decide_eq_false_2 (b = CR)), (bool_decide_eq_false_2 (b = LF)) by done. simpl.
    specialize (IH (pre ++ [b])). rewrite length_app in IH. simpl in IH.
    rewrite <- (assoc_L (++)) in IH. simpl in IH.
    replace (zlen pre + 1) with (Z.of_nat (length pre + 1)) by lia.
    rewrite IH by lia.
    by replace (Z.of_nat (length pre + 1) + zlen ds) with (zlen pre + Z.of_nat (S (length ds))) by lia.
Qed.

Lemma is_header_length p n h : is_header p n h -> 4 <= zlen h.
Proof.
  intros (ds & -> & Hne & _). destruct ds; [done|]. simpl. rewrite length_app. simpl. lia.
Qed.

Lemma length_header_finds d pre p ds post :
  cursor d = zlen pre -> ds <> [] ->
  Forall (fun b => is_ascii_digit b = true) ds -> undec ds <= usize_max ->
  length_header d (pre ++ (p :: ds ++ CRLF) ++ post) (zlen pre + 1 + zlen ds) p = Ok (undec ds).
Proof.
  intros Hc Hne Hds Hmax. unfold length_header. rewrite Hc.
  assert (0 < zlen ds) by (destruct ds; [done|simpl; lia]).
  rewrite (proj2 (Z.leb_gt _ _)) by lia. simpl app. rewrite zlookup_middle. cbn [expect mbind res_bind].
  rewrite bool_decide_eq_false_2 by (intros []; done).
  assert (pre ++ p :: (ds ++ CRLF) ++ post = (pre ++ [p]) ++ ds ++ CRLF ++ post) as ->
    by (by rewrite <- !(assoc_L (++))).
  assert (zlen (pre ++ [p]) = zlen pre + 1) as Hpre by (rewrite length_app; simpl; lia).
  rewrite zslice_Some by (rewrite ?length_app in *; simpl in *; lia).
  rewrite <- Hpre, slice_app_middle. cbn [expect mbind res_bind].
  by apply accumulate_length_spec.
Qed.

Lemma header_stage_finds input p valid msg store d pre h post n :
  input = pre ++ h ++ post -> cursor d = zlen pre -> scan d = zlen pre ->
  is_header p n h -> p <> CR /\ p <> LF -> n <= usize_max ->
  zlen h <= max_header_bytes (limits d) -> zlen pre + zlen h <= max_frame_bytes (limits d) ->
  valid n = true ->
  header_stage input p valid msg store d =
    Next (store (set_scan d (zlen pre + zlen h - 2)) n (zlen pre + zlen h - 2)).
Proof.
  intros -> Hc Hs (ds & -> & Hne & Hds & <-) Hp Hmax Hh Hf Hv.
  assert (zlen (p :: ds ++ CRLF) = zlen ds + 3) as Hlen by (simpl; rewrite length_app; simpl; lia).
  rewrite Hlen in *. replace (zlen pre + (zlen ds + 3) - 2) with (zlen pre + 1 + zlen ds) by lia.
  unfold header_stage, header_end.
  fold (header_search (limits d) (pre ++ (p :: ds ++ CRLF) ++ post) (cursor d) (scan d)).
  rewrite Hc, Hs.
  assert ((p :: ds ++ CRLF) ++ post = (p :: ds) ++ CRLF ++ post) as E
    by (simpl; by rewrite <- (assoc_L (++))).
  rewrite E, header_search_finds, <- E;
    [|constructor; [done|]; eapply Forall_impl; [done|]; intros b; apply digit_not_CR
     |lia|simpl length; lia|simpl length; lia].
  simpl length. replace (zlen pre + Z.of_nat (S (length ds))) with (zlen pre + 1 + zlen ds) by lia.
  rewrite length_header_finds by done. by rewrite Hv.
Qed.

(** The bytes of one argument make the decoder push its span. *)
Lemma bulk_iteration input d pre arg w post c :
  input = pre ++ w ++ post -> is_bulk (limits d) arg w -> limits_ok (limits d) ->
  argument_count d = Some c -> bulk_length d = None ->
  cursor d = zlen pre -> scan d = zlen pre ->
  zlen pre + zlen w <= max_frame_bytes (limits d) ->
  exists d1, cursor d1 + zlen arg + 2 = zlen pre + zlen w /\ limits d1 = limits d /\
    spans d1 = spans d /\ argument_count d1 = Some c /\ bulk_length d1 = Some (zlen arg) /\
    decode_iteration input d = payload_stage input d1 /\
    slice input (cursor d1) (cursor d1 + zlen arg) = arg /\
    slice input (cursor d1 + zlen arg) (cursor d1 + zlen arg + 2) = CRLF.
Proof.
  intros -> (h & -> & Hh & Hhl & Harg) Hl Hcnt Hbulk Hc Hs Hf.
  rewrite !length_app in *. simpl in Hf. rewrite !Nat2Z.inj_add in *. simpl in Hf.
  assert (4 <= zlen h) by by eapply is_header_length.
  assert (Hlb := limits_ok_bounds _ Hl). assert (Hlu := limits_frame_usize _ Hl).
  exists (set_bulk_length (advance_header (set_scan d (zlen pre + zlen h - 2))
    (zlen pre + zlen h - 2)) (Some (zlen arg))). simpl.
  replace (zlen pre + zlen h - 2 + 2) with (zlen (pre ++ h)) by (rewrite length_app; lia).
  rewrite length_app, !Nat2Z.inj_add. split_and!; try done; [simpl; lia| | |].
  - unfold decode_iteration. rewrite (count_stage_idle _ _ c) by done. simpl.
    unfold bulk_stage. rewrite Hbulk.
    rewrite (header_stage_finds _ _ _ _ _ d pre h (arg ++ CRLF ++ post) (zlen arg)) by
      (first [done | lia | by rewrite <- !(assoc_L (++)) | by apply Z.leb_le]).
    simpl. do 2 f_equal; lia.
  - rewrite <- Nat2Z.inj_add, <- length_app.
    rewrite <- !(assoc_L (++)), (assoc_L (++) pre). apply slice_app_middle.
  - rewrite <- !(assoc_L (++)), (assoc_L (++) pre), (assoc_L (++) (pre ++ h)).
    replace (zlen pre + zlen h + zlen arg) with (zlen ((pre ++ h) ++ arg))
      by (rewrite !length_app; lia).
    apply (slice_app_middle _ CRLF).
Qed.

Lemma payload_stage_accepts input d n stop :
  bulk_length d = Some n -> 0 <= n -> 0 <= cursor d -> cursor d + n + 2 = stop ->
  stop <= max_frame_bytes (limits d) -> max_frame_bytes (limits d) <= usize_max ->
  stop <= zlen input -> slice input (stop - 2) stop = CRLF ->
  payload_stage input d =
    if bool_decide (Some (zlen (spans d ++ [(cursor d, stop - 2)])) = argument_count d) then
      match copy_spans input (spans d ++ [(cursor d, stop - 2)]) with
      | None => Return Panic (push_span d stop)
      | Some args => Return (Ok (Some (mkRequest args stop))) (idle (limits d))
      end
    else Next (push_span d stop).
Proof.
  intros Hbulk Hn Hc Hstop Hf Hu Hlen Hend. unfold payload_stage. rewrite Hbulk.
  rewrite checked_usize_chain, Hstop by lia.
  rewrite (proj2 (checked_usize_Some stop stop)) by lia.
  rewrite (proj2 (Z.ltb_ge (max_frame_bytes (limits d)) stop)) by lia.
  rewrite (proj2 (Z.ltb_ge (zlen input) stop)) by lia.
  rewrite zslice_Some, Hend, bool_decide_eq_false_2 by (lia || naive_solver). done.
Qed.

Lemma decode_run_bulks l input post args ws :
  Forall2 (is_bulk l) args ws -> args <> [] ->
  forall d pre prev, decoder_ok d input -> limits d = l -> input = pre ++ concat ws ++ post ->
    cursor d = zlen pre -> scan d = zlen pre -> bulk_length d = None ->
    argument_count d = Some (zlen (spans d) + zlen args) ->
    copy_spans input (spans d) = Some prev ->
    zlen pre + zlen (concat ws) <= max_frame_bytes l ->
    decode_run d input =
      (Ok (Some (mkRequest (prev ++ args) (zlen pre + zlen (concat ws)))), idle l).
Proof.
  induction 1 as [|arg w args ws Hw Hws IH]; [done|]. intros _ d pre prev Hok Hl Hin Hc Hs Hbulk
    Hcnt Hcopy Hf. subst l. simpl in Hin, Hf. rewrite length_app in Hf.
  rewrite <- (assoc_L (++)) in Hin. destruct (ok_limits _ _ Hok) as [_ _ Husize _].
  destruct (bulk_iteration input d pre arg w (concat ws ++ post) _ Hin Hw (ok_limits _ _ Hok)
    Hcnt Hbulk Hc Hs) as (d1 & Hc1 & Hl1 & Hs1 & Hcnt1 & Hb1 & Hit & Hslice & Hend); [lia|].
  assert (zlen input = zlen pre + zlen w + zlen (concat ws ++ post)) as Hlen
    by (rewrite Hin, !length_app; lia).
  assert (0 <= cursor d1) as Hpos.
  { destruct Hw as (h & -> & _). rewrite !length_app in Hc1. simpl in Hc1. lia. }
  rewrite (payload_stage_accepts input d1 (zlen arg) (zlen pre + zlen w)) in Hit;
    rewrite ?Hl1; try (done || lia).
  2: { replace (zlen pre + zlen w - 2) with (cursor d1 + zlen arg) by lia.
       by rewrite <- Hc1. }
  assert (copy_spans input (spans d1 ++ [(cursor d1, zlen pre + zlen w - 2)]) =
    Some (prev ++ [arg])) as Hcopy1.
  { rewrite Hs1. rewrite (copy_spans_snoc _ _ prev) by (done || lia).
    by replace (zlen pre + zlen w - 2) with (cursor d1 + zlen arg) by lia; rewrite Hslice. }
  rewrite decode_run_eq by done. assert (Hiok := decode_iteration_ok input d Hok).
  rewrite Hit, Hcnt1, Hcopy1, Hl1, Hs1, length_app in *. simpl in *.
  destruct args as [|arg' args].
  - inversion Hws; subst. rewrite bool_decide_eq_true_2 by (simpl; f_equal; lia).
    simpl. by rewrite !app_nil_r.
  - rewrite bool_decide_eq_false_2 in * by (simpl; intros [=]; lia).
    destruct Hiok as (Hok1 & _).
    rewrite (IH ltac:(done) (push_span d1 (zlen pre + zlen w)) (pre ++ w) (prev ++ [arg]));
      simpl; rewrite ?Hs1, ?Hcnt1, ?length_app, ?Nat2Z.inj_add; try done.
    + by rewrite <- (assoc_L (++)), Z.add_assoc.
    + by rewrite Hin, <- (assoc_L (++)).
    + f_equal. simpl. lia.
    + lia.
Qed.

Lemma decode_run_frame l args w rest : limits_ok l -> is_frame l args w ->
  decode_run (idle l) (w ++ rest) = (Ok (Some (mkRequest args (zlen w))), idle l).
Proof.
  intros Hl (h & ws & -> & Hh & Hhl & Hargs & Hcount & Hf).
  assert (Hlb := limits_ok_bounds l Hl). assert (Hla := limits_arguments_usize l Hl).
  rewrite length_app in *. assert (Hok := idle_ok l ((h ++ concat ws) ++ rest) Hl).
  assert (4 <= zlen h) by by eapply is_header_length.
  set (d1 := advance_header (set_argument_count (set_scan (idle l) (zlen h - 2))
    (Some (zlen args))) (zlen h - 2)).
  assert (count_stage ((h ++ concat ws) ++ rest) (idle l) = Next d1) as Hstage.
  { unfold count_stage. simpl argument_count.
    rewrite (header_stage_finds _ _ _ _ _ (idle l) [] h (concat ws ++ rest) (zlen args)) by
      (first [done | simpl; lia | by rewrite <- (assoc_L (++))
        | simpl; by rewrite (proj2 (Z.eqb_neq _ _)), (proj2 (Z.ltb_ge _ _)) by lia]).
    done. }
  assert (Hc := count_stage_ok _ _ Hok). rewrite Hstage in Hc. destruct Hc as (Hok1 & _).
  assert (zlen h - 2 + 2 = zlen h) as Hcur by lia.
  assert (decode_run (idle l) ((h ++ concat ws) ++ rest) = decode_run d1 ((h ++ concat ws) ++ rest))
    as ->.
  { rewrite (decode_run_eq (idle l)), (decode_run_eq d1) by done.
    unfold decode_iteration. rewrite Hstage.
    reflexivity. }
  rewrite (decode_run_bulks l _ rest args ws Hargs) with (pre := h) (prev := []); try done.
  - do 4 f_equal. lia.
  - destruct args; [simpl in *; lia|done].
  - by rewrite <- (assoc_L (++)).
  - lia.
Qed.

(** ** The decoder as a whole *)

Lemma decode_unfold d input :
  decode d input =
  match decode_run d input with
  | (Ok (Some q), d) => (Ok (Some q), d, drop (Z.to_nat (wire_bytes q)) input)
  | (r, d) => (r, d, input)
  end.
Proof. done. Qed.

Lemma slice_0_take {A} (l : list A) n : 0 <= n -> slice l 0 n = take (Z.to_nat n) l.
Proof. intros. unfold slice. by rewrite Z.sub_0_r. Qed.

Lemma decode_spec d input : decoder_ok d input ->
  match decode d input with
  | (Ok (Some q), d', rest) => d' = idle (limits d) /\
      exists w, input = w ++ rest /\ zlen w = wire_bytes q /\ is_frame (limits d) (arguments q) w
  | (Ok None, d', rest) => rest = input /\ decoder_ok d' input /\ limits d' = limits d /\
      zlen input < max_frame_bytes (limits d)
  | (Err _, _, _) => True
  | (Panic, _, _) => False
  end.
Proof.
  intros Hok. rewrite decode_unfold. assert (Hspec := decode_run_spec input d Hok).
  destruct (decode_run d input) as [[[q|]|e|] d'] eqn:E; simpl in Hspec; try done.
  - destruct Hspec as (-> & Hw & Hframe). split; [done|].
    exists (take (Z.to_nat (wire_bytes q)) input). rewrite take_drop. split; [done|].
    rewrite <- slice_0_take by lia. split; [rewrite length_slice; lia|done].
  - destruct Hspec as [Hok' Hl]. split_and!; try done. by eapply decode_run_room.
Qed.

Lemma is_frame_frame l args :
  1 <= zlen args <= max_arguments l -> zlen (frame args) <= max_frame_bytes l ->
  zlen (dec (zlen args)) + 3 <= max_header_bytes l ->
  Forall (fun arg => zlen arg <= max_bulk_bytes l /\
    zlen (dec (zlen arg)) + 3 <= max_header_bytes l) args ->
  is_frame l args (frame args).
Proof.
  intros Hn Hf Hh Hargs.
  assert (forall out, foldl (fun result arg =>
      result ++ (bs "$" ++ dec (zlen arg) ++ CRLF) ++ arg ++ CRLF) out args =
    out ++ concat ((fun arg => (bs "$" ++ dec (zlen arg) ++ CRLF) ++ arg ++ CRLF) <$> args)) as Hfold.
  { clear. induction args as [|arg args IH]; intros out; [by rewrite app_nil_r|].
    simpl foldl. rewrite IH. cbn [fmap list_fmap concat]. by rewrite <- (assoc_L (++)). }
  assert (forall n, 0 <= n -> is_header (byte_of 42) n (bs "*" ++ dec n ++ CRLF) /\
    is_header (byte_of 36) n (bs "$" ++ dec n ++ CRLF)) as Hhead.
  { intros n Hpos. split; exists (dec n); split_and!;
      auto using dec_not_nil, dec_digits, undec_dec. }
  unfold frame in *. rewrite Hfold in *.
  exists (bs "*" ++ dec (zlen args) ++ CRLF), ((fun arg =>
    (bs "$" ++ dec (zlen arg) ++ CRLF) ++ arg ++ CRLF) <$> args).
  split_and!; try (done || lia); [by apply Hhead; lia|simpl; rewrite length_app; simpl; lia|].
  apply Forall2_fmap_r, Forall_Forall2_diag. eapply Forall_impl; [done|].
  intros arg [Ha Hd]. exists (bs "$" ++ dec (zlen arg) ++ CRLF).
  split_and!; try done; [by apply Hhead; lia|]. simpl. rewrite length_app. simpl. lia.
Qed.

(** ** Properties *)

(** C25: a decoder that is consistent with its input never panics and runs to an
    answer; a request it returns was read from a well-formed frame at the front
    of the input, within every configured limit, and exactly that frame is
    removed; while a request is pending the input is left alone, the decoder
    stays consistent with it, and there is still room below the frame limit. *)
Theorem decode_safe (d : Decoder) (input : bytes) (Hok : decoder_ok d input) :
  match decode d input with
  | (Ok (Some q), d', rest) => d' = idle (limits d) /\
      exists w, input = w ++ rest /\ zlen w = wire_bytes q /\ is_frame (limits d) (arguments q) w
  | (Ok None, d', rest) => rest = input /\ decoder_ok d' input /\ limits d' = limits d /\
      zlen input < max_frame_bytes (limits d)
  | (Err _, _, _) => True
  | (Panic, _, _) => False
  end.
Proof. by apply decode_spec. Qed.

Lemma decode_safe_witness :
  decoder_ok (idle default_limits) (bs "*1" ++ CRLF ++ bs "$4" ++ CRLF ++ bs "PI") /\
  match decode (idle default_limits) (bs "*1" ++ CRLF ++ bs "$4" ++ CRLF ++ bs "PI") with
  | (Ok None, d', rest) => rest = bs "*1" ++ CRLF ++ bs "$4" ++ CRLF ++ bs "PI" /\ cursor d' = 8
  | _ => False
  end.
Proof.
  pose proof (idle_ok default_limits (bs "*1" ++ CRLF ++ bs "$4" ++ CRLF ++ bs "PI")
    default_limits_ok) as Hok.
  split; [exact Hok|].
  pose proof (decode_safe _ _ Hok) as Hsafe. vm_compute in Hsafe |- *.
  split; [apply Hsafe|reflexivity].
Defined.

(** C26: an idle decoder accepts exactly the frames of the grammar: it returns a
    request and a rest if and only if the input is a well-formed frame of these
    arguments, within the limits, followed by that rest. *)
Theorem decode_accepts_frames (l : Limits) (input rest : bytes) (args : list bytes)
  (Hl : limits_ok l) :
  (exists n, decode (idle l) input = (Ok (Some (mkRequest args n)), idle l, rest)) <->
  (exists w, input = w ++ rest /\ is_frame l args w).
Proof.
  split.
  - intros [n E]. assert (Hspec := decode_spec (idle l) input (idle_ok l input Hl)).
    rewrite E in Hspec. destruct Hspec as (_ & w & -> & _ & Hw). eauto.
  - intros (w & -> & Hw). exists (zlen w).
    rewrite decode_unfold, (decode_run_frame l args) by done. simpl wire_bytes.
    by rewrite Nat2Z.id, drop_app_length.
Qed.

Lemma decode_accepts_frames_witness :
  exists w, bs "*1" ++ CRLF ++ bs "$01" ++ CRLF ++ bs "a" ++ CRLF ++ bs "x" = w ++ bs "x" /\
    is_frame default_limits [bs "a"] w.
Proof.
  apply (decode_accepts_frames default_limits
    (bs "*1" ++ CRLF ++ bs "$01" ++ CRLF ++ bs "a" ++ CRLF ++ bs "x") (bs "x") [bs "a"]
    default_limits_ok).
  exists 12. vm_compute. reflexivity.
Defined.

(** C27: round trip: the decoder recovers the arguments a client framed, at their
    exact wire length, and leaves the bytes that follow for the next request. *)
Theorem decode_frame_roundtrip (l : Limits) (args : list bytes) (rest : bytes)
  (Hl : limits_ok l) (Hn : 1 <= zlen args <= max_arguments l)
  (Hf : zlen (frame args) <= max_frame_bytes l)
  (Hh : zlen (dec (zlen args)) + 3 <= max_header_bytes l)
  (Hargs : Forall (fun arg => zlen arg <= max_bulk_bytes l /\
    zlen (dec (zlen arg)) + 3 <= max_header_bytes l) args) :
  decode (idle l) (frame args ++ rest) =
    (Ok (Some (mkRequest args (zlen (frame args)))), idle l, rest).
Proof.
  rewrite decode_unfold, (decode_run_frame l args) by auto using is_frame_frame.
  simpl wire_bytes. by rewrite Nat2Z.id, drop_app_length.
Qed.

Lemma decode_frame_roundtrip_witness :
  decode (idle default_limits) (frame [bs "SET"; bs "k"; CRLF] ++ bs "*1") =
    (Ok (Some (mkRequest [bs "SET"; bs "k"; CRLF] 28)), idle default_limits, bs "*1").
Proof.
  apply (decode_frame_roundtrip default_limits [bs "SET"; bs "k"; CRLF] (bs "*1") default_limits_ok).
  - vm_compute. split; discriminate.
  - vm_compute. discriminate.
  - vm_compute. discriminate.
  - repeat (apply List.Forall_cons; [vm_compute; split; discriminate|]). apply List.Forall_nil.
Defined.

Lemma decode_grows (d : Decoder) (a b : bytes) (Hok : decoder_ok d a) :
  match decode d a with
  | (Ok None, d', _) => decode d' (a ++ b) = decode d (a ++ b)
  | (Ok (Some q), d', rest) => decode d (a ++ b) = (Ok (Some q), d', rest ++ b)
  | (Err _, _, _) => exists e d', decode d (a ++ b) = (Err e, d', a ++ b)
  | (Panic, _, _) => False
  end.
Proof.
  assert (Hg := decode_run_grows a b d Hok). assert (Hspec := decode_run_spec a d Hok).
  rewrite !decode_unfold. destruct (decode_run d a) as [[[q|]|e|] d'] eqn:E; try done.
  - rewrite Hg. destruct Hspec as (_ & Hw & _). by rewrite drop_app_le by lia.
  - rewrite decode_unfold. by rewrite Hg.
  - destruct Hg as (e' & d'' & ->). eauto.
Qed.

(** C28: the way the bytes are cut into reads is immaterial.  Whatever a call
    answered on the input received so far, with more input: a pending request is
    decoded from where it stopped with the same result as in one go, a request
    already complete is returned unchanged and the additional bytes are kept,
    and a rejected input stays rejected. *)
Theorem decode_incremental (d : Decoder) (a b : bytes) (Hok : decoder_ok d a) :
  match decode d a with
  | (Ok None, d', _) => decode d' (a ++ b) = decode d (a ++ b)
  | (Ok (Some q), d', rest) => decode d (a ++ b) = (Ok (Some q), d', rest ++ b)
  | (Err _, _, _) => exists e d', decode d (a ++ b) = (Err e, d', a ++ b)
  | (Panic, _, _) => False
  end.
Proof. by apply decode_grows. Qed.

Lemma decode_incremental_witness :
  let a := bs "*1" ++ CRLF ++ bs "$4" ++ [CR] in
  let b := [LF] ++ bs "PING" ++ CRLF in
  decoder_ok (idle default_limits) a /\
  decode (decode (idle default_limits) a).1.2 (a ++ b) = decode (idle default_limits) (a ++ b).
Proof.
  pose proof (idle_ok default_limits (bs "*1" ++ CRLF ++ bs "$4" ++ [CR]) default_limits_ok) as Hok.
  split; [exact Hok|].
  exact (decode_incremental _ (bs "*1" ++ CRLF ++ bs "$4" ++ [CR]) ([LF] ++ bs "PING" ++ CRLF) Hok).
Defined.
