(* ===== verification/Expiry.v ===== *)
(** * The indexed expiration heap ([recall-core/src/expiry.rs])

    [ExpiryIndex] is a binary min-heap of timers in a vector, with a hash map
    from each key to its position, so that a key's deadline can be updated or
    removed in place.  A [None] answer of an operation is a panic (an index out
    of bounds).  [TimerIndex] is what the store asks of such an index and
    [TimerIndexLaws] what it relies on; [ExpiryTheorems] discharges the laws. *)

From S2P Require Import Prelude Bytes.

(** ** Interface *)

Class TimerIndex (I : Type) := {
  timer_len : I -> nat;
  timer_set : I -> bytes -> Z -> option I;
  timer_remove : I -> bytes -> option I;
  timer_expired : I -> Z -> option bytes;
}.

(** The laws: the index behaves as a finite map from keys to deadlines and
    [timer_expired] finds an earliest due key. *)
Class TimerIndexLaws (I : Type) `{TimerIndex I} := {
  timers_ok : I -> Prop;
  timers : I -> gmap bytes Z;
  timer_len_spec x : timers_ok x -> timer_len x = size (timers x);
  timer_set_spec x k d : timers_ok x ->
    exists x', timer_set x k d = Some x' /\ timers_ok x' /\ timers x' = <[k := d]> (timers x);
  timer_remove_spec x k : timers_ok x ->
    exists x', timer_remove x k = Some x' /\ timers_ok x' /\ timers x' = delete k (timers x);
  timer_expired_Some x now k : timers_ok x -> timer_expired x now = Some k ->
    exists d, timers x !! k = Some d /\ (d <= now)%Z /\
      forall k' d', timers x !! k' = Some d' -> (d <= d')%Z;
  timer_expired_None x now : timers_ok x -> timer_expired x now = None ->
    forall k d, timers x !! k = Some d -> (now < d)%Z;
}.

(** ** State *)

Record Timer := mkTimer { timer_key : bytes; deadline : Z }.

Record ExpiryIndex := mkIndex {
  heap : list Timer;
  positions : gmap bytes nat;
}.

(** The reservations of memory the program can be refused. *)
Inductive reservation_site := TimerHeap | TimerPositions | KeyTable | CommandEffects.

(** The allocator: whether a reservation for so many elements is granted. *)
Abbreviation allocator := (reservation_site -> nat -> bool).

Inductive TryReserveError := reservation_refused.

(** ** Operations *)

Definition new_index (reserve : allocator) (capacity : nat) : res TryReserveError ExpiryIndex :=
  if negb (reserve TimerHeap capacity) then Err reservation_refused
  else if negb (reserve TimerPositions capacity) then Err reservation_refused
  else Ok (mkIndex [] ∅).

Definition index_len (x : ExpiryIndex) : nat := length (heap x).

(** [self.swap]: exchange two timers and record their positions. *)
Definition swap (x : ExpiryIndex) (left right : nat) : option ExpiryIndex :=
  a ← heap x !! left;
  b ← heap x !! right;
  let h := <[right := a]> (<[left := b]> (heap x)) in
  l ← h !! left;
  r ← h !! right;
  Some (mkIndex h (<[timer_key r := right]> (<[timer_key l := left]> (positions x)))).

Definition parent (index : nat) : nat := (index - 1) / 2.

Fixpoint up_loop (fuel : nat) (x : ExpiryIndex) (index : nat) : option (nat * ExpiryIndex) :=
  match fuel with
  | O => None
  | S fuel =>
      if decide (0 < index) then
        p ← heap x !! parent index;
        c ← heap x !! index;
        if (deadline p <=? deadline c)%Z then Some (index, x)
        else x ← swap x (parent index) index; up_loop fuel x (parent index)
      else Some (index, x)
  end.

(** [self.up]: the index shrinks with every iteration. *)
Definition up (x : ExpiryIndex) (index : nat) : option (nat * ExpiryIndex) :=
  up_loop (S index) x index.

(** The smaller child, the left one when they are equal or alone. *)
Definition smaller_child (h : list Timer) (left : nat) : option nat :=
  let right := left + 1 in
  if decide (right < length h) then
    r ← h !! right;
    l ← h !! left;
    Some (if (deadline r <? deadline l)%Z then right else left)
  else Some left.

Fixpoint down_loop (fuel : nat) (x : ExpiryIndex) (index : nat) : option ExpiryIndex :=
  match fuel with
  | O => None
  | S fuel =>
      let left := index * 2 + 1 in
      if decide (length (heap x) <= left) then Some x
      else
        child ← smaller_child (heap x) left;
        p ← heap x !! index;
        c ← heap x !! child;
        if (deadline p <=? deadline c)%Z then Some x
        else x ← swap x index child; down_loop fuel x child
  end.

(** [self.down]: the index grows with every iteration and stays in the heap. *)
Definition down (x : ExpiryIndex) (index : nat) : option ExpiryIndex :=
  down_loop (S (length (heap x))) x index.

Definition index_set (x : ExpiryIndex) (key : bytes) (d : Z) : option ExpiryIndex :=
  match positions x !! key with
  | Some index =>
      t ← heap x !! index;
      let x := mkIndex (<[index := mkTimer (timer_key t) d]> (heap x)) (positions x) in
      '(index, x) ← up x index;
      down x index
  | None =>
      let index := length (heap x) in
      let x := mkIndex (heap x ++ [mkTimer key d]) (<[key := index]> (positions x)) in
      '(_, x) ← up x index;
      Some x
  end.

(** [Vec::swap_remove]: the last element takes the place of the removed one. *)
Definition swap_remove {A} (l : list A) (i : nat) : option (list A) :=
  _ ← l !! i;
  final ← last l;
  Some (take (length l - 1) (<[i := final]> l)).

Definition index_remove (x : ExpiryIndex) (key : bytes) : option ExpiryIndex :=
  match positions x !! key with
  | None => Some x
  | Some index =>
      h ← swap_remove (heap x) index;
      let x := mkIndex h (delete key (positions x)) in
      if decide (index < length h) then
        t ← h !! index;
        let x := mkIndex h (<[timer_key t := index]> (positions x)) in
        '(index, x) ← up x index;
        down x index
      else Some x
  end.

Definition index_expired (x : ExpiryIndex) (now_ms : Z) : option bytes :=
  match heap x !! 0 with
  | Some timer => if (deadline timer <=? now_ms)%Z then Some (timer_key timer) else None
  | None => None
  end.

#[export] Instance expiry_timer_index : TimerIndex ExpiryIndex := {|
  timer_len := index_len;
  timer_set := index_set;
  timer_remove := index_remove;
  timer_expired := index_expired;
|}.

Example set_then_expired :
  (x ← index_set (mkIndex [] ∅) (bs "a") 30; x ← index_set x (bs "b") 20;
   x ← index_set x (bs "a") 10; y ← index_remove x (bs "a");
   Some (index_expired x 15, index_expired y 15, index_expired y 20, index_len y))
  = Some (Some (bs "a"), None, Some (bs "b"), 1).
Proof. vm_compute. reflexivity. Qed.
