(* ===== verification/ExpiryLemmas.v ===== *)
(** * Heap order and positions of the expiration index

    The two halves of the invariant of [Expiry.ExpiryIndex]: [indexed], the
    position map is the inverse of the heap, and [ordered], no timer is due
    before its parent; what [swap], [up] and [down] do to both and to the map
    from keys to deadlines that the heap represents ([view]). *)

From S2P Require Import Prelude Bytes Expiry.

(** ** Invariants *)

Definition indexed (x : ExpiryIndex) : Prop :=
  forall k i, positions x !! k = Some i <-> exists t, heap x !! i = Some t /\ timer_key t = k.

(** The deadlines by key. *)
Definition view (x : ExpiryIndex) : gmap bytes Z :=
  list_to_map ((fun t => (timer_key t, deadline t)) <$> heap x).

(** The deadline at an index of the heap. *)
Definition due (h : list Timer) (i : nat) : Z := default 0%Z (deadline <$> h !! i).

Definition edge (h : list Timer) (j : nat) : Prop := (due h (parent j) <= due h j)%Z.

Definition ordered (h : list Timer) : Prop := forall j, 0 < j < length h -> edge h j.

(** Heap order but around [i], where the grandparent still bounds the children. *)
Definition bridged (h : list Timer) (i : nat) : Prop :=
  forall j, 0 < i -> 0 < j < length h -> parent j = i -> (due h (parent i) <= due h j)%Z.

Definition below (h : list Timer) (i : nat) : Prop :=
  forall j, 0 < j < length h -> parent j = i -> edge h j.

Definition near (h : list Timer) (i : nat) : Prop :=
  (forall j, 0 < j < length h -> j <> i -> parent j <> i -> edge h j) /\ bridged h i.

Definition near_down (h : list Timer) (i : nat) : Prop :=
  (forall j, 0 < j < length h -> parent j <> i -> edge h j) /\ bridged h i.

(** ** Indices *)

Lemma parent_iff i j : 0 < j -> parent j = i <-> j = i * 2 + 1 \/ j = i * 2 + 2.
Proof.
  intros Hj. unfold parent. assert (Hdiv := Nat.div_mod_eq (j - 1) 2).
  assert (Hmod := Nat.mod_upper_bound (j - 1) 2 ltac:(lia)). lia.
Qed.

Lemma parent_lt j : 0 < j -> parent j < j.
Proof. intros Hj. assert (H := parent_iff (parent j) j Hj). lia. Qed.

(** ** Exchanging two timers *)

Definition transpose (l r j : nat) : nat :=
  if decide (j = l) then r else if decide (j = r) then l else j.

Lemma swapped_lookup (h : list Timer) l r a b j :
  h !! l = Some a -> h !! r = Some b ->
  <[r := a]> (<[l := b]> h) !! j = h !! transpose l r j.
Proof.
  intros Ha Hb. assert (Hl := lookup_lt_Some _ _ _ Ha). assert (Hr := lookup_lt_Some _ _ _ Hb).
  unfold transpose. rewrite !list_lookup_insert, length_insert.
  repeat case_decide; naive_solver.
Qed.

Lemma transpose_involutive l r j : transpose l r (transpose l r j) = j.
Proof. unfold transpose. repeat case_decide; congruence. Qed.

Lemma indexed_keys_NoDup x : indexed x -> NoDup (timer_key <$> heap x).
Proof.
  intros Hx. apply NoDup_alt. intros i j k Hi Hj.
  apply list_lookup_fmap_Some in Hi as (t & -> & Ht).
  apply list_lookup_fmap_Some in Hj as (u & Hk & Hu).
  assert (positions x !! timer_key t = Some i) by (apply Hx; eauto).
  assert (positions x !! timer_key t = Some j) by (apply Hx; eauto). congruence.
Qed.

Lemma view_keys (h : list Timer) :
  ((fun t => (timer_key t, deadline t)) <$> h).*1 = timer_key <$> h.
Proof. by rewrite <- list_fmap_compose. Qed.

Lemma view_lookup x k d : indexed x ->
  view x !! k = Some d <-> exists i t, heap x !! i = Some t /\ timer_key t = k /\ deadline t = d.
Proof.
  intros Hx. unfold view. rewrite <- elem_of_list_to_map by
    (rewrite view_keys; by apply indexed_keys_NoDup).
  rewrite list_elem_of_fmap. split.
  - intros (t & [= -> ->] & Ht). apply list_elem_of_lookup in Ht as [i Hi]. eauto.
  - intros (i & t & Ht & <- & <-). exists t. split; [done|]. by eapply list_elem_of_lookup_2.
Qed.

Lemma view_size x : indexed x -> size (view x) = length (heap x).
Proof.
  intros Hx. unfold view. rewrite map_size_list_to_map, length_fmap; [done|].
  rewrite view_keys. by apply indexed_keys_NoDup.
Qed.

(** Two indices with the same timers, in whatever order, have the same view. *)
Lemma view_ext x y : indexed x -> indexed y ->
  (forall t, (exists i, heap x !! i = Some t) <-> (exists i, heap y !! i = Some t)) -> view x = view y.
Proof.
  intros Hx Hy Hxy. apply map_eq. intros k. apply option_eq. intros d.
  rewrite !view_lookup by done. naive_solver.
Qed.

Lemma swap_spec x l r : indexed x -> l < length (heap x) -> r < length (heap x) -> l <> r ->
  exists x', swap x l r = Some x' /\ indexed x' /\ view x' = view x /\
    length (heap x') = length (heap x) /\
    (forall j, heap x' !! j = heap x !! transpose l r j).
Proof.
  intros Hx [a Ha]%lookup_lt_is_Some [b Hb]%lookup_lt_is_Some Hne.
  assert (Hlook := fun j => swapped_lookup (heap x) l r a b j Ha Hb).
  assert (transpose l r l = r) as Hl by (unfold transpose; by rewrite decide_True).
  assert (transpose l r r = l) as Hr
    by (unfold transpose; by rewrite decide_False, decide_True).
  unfold swap. rewrite Ha, Hb. cbn [mbind option_bind].
  rewrite !Hlook, Hl, Hr, Ha, Hb. cbn [mbind option_bind].
  eexists. split; [done|].
  assert (indexed (mkIndex (<[r:=a]> (<[l:=b]> (heap x)))
    (<[timer_key a:=r]> (<[timer_key b:=l]> (positions x))))) as Hx'.
  { intros k i. cbn [heap positions]. rewrite Hlook.
    assert (positions x !! timer_key a = Some l) as Hpa by (apply Hx; eauto).
    assert (positions x !! timer_key b = Some r) as Hpb by (apply Hx; eauto).
    rewrite !lookup_insert. unfold transpose.
    destruct (decide (timer_key a = k)) as [<-|Hka].
    { split; [intros [= <-]; rewrite decide_False, decide_True by done; eauto|].
      intros (t & Ht & Hk). assert (positions x !! timer_key t =
        Some (if decide (i = l) then r else if decide (i = r) then l else i)) as Hp
        by (apply Hx; eauto). rewrite Hk, Hpa in Hp. f_equal. repeat case_decide; congruence. }
    destruct (decide (timer_key b = k)) as [<-|Hkb].
    { split; [intros [= <-]; rewrite decide_True by done; eauto|].
      intros (t & Ht & Hk). assert (positions x !! timer_key t =
        Some (if decide (i = l) then r else if decide (i = r) then l else i)) as Hp
        by (apply Hx; eauto). rewrite Hk, Hpb in Hp. f_equal. repeat case_decide; congruence. }
    rewrite (Hx k i). repeat case_decide; subst; naive_solver. }
  split_and!; [done| |by (cbn [heap]; rewrite !length_insert)|done].
  apply view_ext; [done..|]. intros t. cbn [heap]. setoid_rewrite Hlook. split.
  - intros [i Hi]. eauto.
  - intros [i Hi]. exists (transpose l r i). by rewrite transpose_involutive.
Qed.

(** ** Moving a timer up *)

Lemma due_swapped (h h' : list Timer) l r j :
  (forall j, h' !! j = h !! transpose l r j) -> due h' j = due h (transpose l r j).
Proof. intros H. unfold due. by rewrite H. Qed.

Lemma transpose_l l r : transpose l r l = r.
Proof. unfold transpose. by rewrite decide_True. Qed.

Lemma transpose_r l r : transpose l r r = l.
Proof. unfold transpose. case_decide; [congruence|]. by rewrite decide_True. Qed.

Lemma transpose_ne l r j : j <> l -> j <> r -> transpose l r j = j.
Proof. intros. unfold transpose. by rewrite !decide_False. Qed.

(** One step up keeps the order away from the timer and orders what is below. *)
Lemma near_up h h' i : 0 < i < length h -> near h i -> length h' = length h ->
  (forall j, h' !! j = h !! transpose (parent i) i j) -> (due h i < due h (parent i))%Z ->
  near h' (parent i) /\ below h' (parent i).
Proof.
  intros Hi [Hedge Hbridge] Hlen Hlook Hlt.
  assert (Hpi := parent_lt i ltac:(lia)).
  assert (Hdue := fun j => due_swapped h h' _ _ j Hlook).
  unfold near, below, bridged, edge in *. rewrite Hlen.
  assert (forall j, 0 < j < length h -> j <> i -> parent j = parent i ->
    (due h (parent i) <= due h j)%Z) as Hsib.
  { intros j Hj Hji Hp. rewrite <- Hp. apply Hedge; (done || lia). }
  split; [split|].
  - intros j Hj Hjp Hpj. rewrite !Hdue. assert (j <> i) by naive_solver.
    rewrite (transpose_ne _ _ j) by done.
    destruct (decide (parent j = i)) as [E|E].
    + rewrite E, transpose_r. apply Hbridge; (done || lia).
    + rewrite transpose_ne by done. by apply Hedge.
  - intros j Hp Hj Hpj. rewrite !Hdue. assert (Hpp := parent_lt (parent i) Hp).
    assert (Hgp := parent_lt j ltac:(lia)).
    rewrite (transpose_ne _ _ (parent (parent i))) by lia.
    assert (due h (parent (parent i)) <= due h (parent i))%Z as Hup
      by (apply Hedge; lia).
    destruct (decide (j = i)) as [->|Hji]; [by rewrite transpose_r|].
    rewrite transpose_ne by lia. specialize (Hsib j Hj Hji Hpj). lia.
  - intros j Hj Hpj. rewrite !Hdue, Hpj, transpose_l.
    destruct (decide (j = i)) as [->|Hji]; [rewrite transpose_r; lia|].
    assert (Hgp := parent_lt j ltac:(lia)).
    rewrite transpose_ne by lia. specialize (Hsib j Hj Hji Hpj). lia.
Qed.

(** What [up] and [down] keep of the index. *)
Definition same_timers (x x' : ExpiryIndex) : Prop :=
  indexed x' /\ view x' = view x /\ length (heap x') = length (heap x).

Lemma up_loop_spec fuel x i : i < fuel -> i < length (heap x) -> indexed x -> near (heap x) i ->
  exists i' x', up_loop fuel x i = Some (i', x') /\ same_timers x x' /\
    i' < length (heap x') /\ near_down (heap x') i' /\
    (below (heap x) i -> ordered (heap x')).
Proof.
  revert x i. induction fuel as [|fuel IH]; intros x i Hf Hi Hx Hnear; [lia|]. simpl.
  assert (edge (heap x) i \/ i = 0 -> near_down (heap x) i /\
    (below (heap x) i -> ordered (heap x))) as Hstop.
  { intros He. destruct Hnear as [Hedge Hbridge]. split; [split; [|done]|].
    - intros j Hj Hpj. destruct (decide (j = i)) as [->|]; [naive_solver lia|by apply Hedge].
    - intros Hb j Hj. destruct (decide (j = i)) as [->|]; [naive_solver lia|].
      destruct (decide (parent j = i)); [by apply Hb|by apply Hedge]. }
  case_decide as Hpos.
  2: { exists i, x. split_and!; try done; apply Hstop; lia. }
  assert (Hpi := parent_lt i Hpos).
  destruct (lookup_lt_is_Some_2 (heap x) (parent i)) as [p Hp]; [lia|].
  destruct (lookup_lt_is_Some_2 (heap x) i) as [c Hc]; [lia|].
  rewrite Hp, Hc. cbn [mbind option_bind].
  destruct (Z.leb_spec (deadline p) (deadline c)) as [Hle|Hlt].
  - assert (edge (heap x) i) by (unfold edge, due; by rewrite Hp, Hc).
    exists i, x. split_and!; try done; apply Hstop; by left.
  - destruct (swap_spec x (parent i) i) as (x1 & -> & Hx1 & Hv & Hlen & Hlook); try (done || lia).
    cbn [mbind option_bind].
    destruct (near_up (heap x) (heap x1) i) as [Hn1 Hb1]; try (done || lia).
    { unfold due. by rewrite Hp, Hc. }
    destruct (IH x1 (parent i)) as (i' & x' & -> & (? & Hv' & Hl') & ? & ? & Hord);
      try (done || lia).
    exists i', x'. split_and!; try done; [unfold same_timers; split_and!; (done || congruence)|by intros; apply Hord].
Qed.

Lemma up_spec x i : i < length (heap x) -> indexed x -> near (heap x) i ->
  exists i' x', up x i = Some (i', x') /\ same_timers x x' /\
    i' < length (heap x') /\ near_down (heap x') i' /\
    (below (heap x) i -> ordered (heap x')).
Proof. intros. apply up_loop_spec; (done || lia). Qed.

(** ** Moving a timer down *)

Lemma smaller_child_spec h left : left < length h ->
  exists c, smaller_child h left = Some c /\ c < length h /\ (c = left \/ c = left + 1) /\
    (forall j, j < length h -> j = left \/ j = left + 1 -> (due h c <= due h j)%Z).
Proof.
  intros Hl. unfold smaller_child. case_decide as Hr.
  - destruct (lookup_lt_is_Some_2 h (left + 1)) as [r Hr']; [lia|].
    destruct (lookup_lt_is_Some_2 h left) as [l Hl']; [lia|].
    rewrite Hr', Hl'. cbn [mbind option_bind].
    eexists. split; [done|].
    destruct (Z.ltb_spec (deadline r) (deadline l)); (split_and!; [lia|lia|]);
      intros j _ [->| ->]; unfold due; rewrite ?Hr', ?Hl'; simpl; lia.
  - exists left. split_and!; [done|lia|lia|]. intros j Hj [->| ->]; [done|lia].
Qed.

Lemma near_down_step h h' i c : near_down h i -> 0 < c < length h -> parent c = i ->
  (forall j, 0 < j < length h -> parent j = i -> (due h c <= due h j)%Z) ->
  length h' = length h -> (forall j, h' !! j = h !! transpose i c j) ->
  (due h c < due h i)%Z -> near_down h' c.
Proof.
  intros [Hedge Hbridge] Hc Hpc Hmin Hlen Hlook Hlt.
  assert (Hic := parent_lt c ltac:(lia)). rewrite Hpc in Hic.
  assert (Hdue := fun j => due_swapped h h' _ _ j Hlook).
  unfold near_down, bridged, edge in *. rewrite Hlen. split.
  - intros j Hj Hpj. rewrite !Hdue. assert (Hpl := parent_lt j ltac:(lia)).
    destruct (decide (parent j = i)) as [E|E].
    + rewrite E, transpose_l. destruct (decide (j = c)) as [->|Hjc]; [rewrite transpose_r; lia|].
      rewrite transpose_ne by lia. by apply Hmin.
    + rewrite (transpose_ne _ _ (parent j)) by done.
      destruct (decide (j = i)) as [->|Hji].
      * rewrite transpose_l. apply Hbridge; (done || lia).
      * rewrite transpose_ne by naive_solver. by apply Hedge.
  - intros j _ Hj Hpj. rewrite !Hdue, Hpc, transpose_l. assert (Hpl := parent_lt j ltac:(lia)).
    rewrite transpose_ne by lia. rewrite <- Hpj. apply Hedge; lia.
Qed.

Lemma down_loop_spec fuel x i : length (heap x) - i < fuel -> i < length (heap x) ->
  indexed x -> near_down (heap x) i ->
  exists x', down_loop fuel x i = Some x' /\ same_timers x x' /\ ordered (heap x').
Proof.
  revert x i. induction fuel as [|fuel IH]; intros x i Hf Hi Hx Hnear; [lia|].
  cbn [down_loop].
  assert (below (heap x) i -> ordered (heap x)) as Hstop.
  { intros Hb j Hj. destruct (decide (parent j = i)); [by apply Hb|by apply Hnear]. }
  case_decide as Hleft.
  - exists x. split_and!; try done. apply Hstop. intros j Hj Hpj%parent_iff; lia.
  - destruct (smaller_child_spec (heap x) (i * 2 + 1)) as (c & Hsc & Hc & Hcl & Hmin); [lia|].
    assert (parent c = i) as Hpc by (apply parent_iff; lia).
    assert (forall j, 0 < j < length (heap x) -> parent j = i ->
      (due (heap x) c <= due (heap x) j)%Z) as Hmin'.
    { intros j Hj Hpj%parent_iff; [|lia]. apply Hmin; lia. }
    destruct (lookup_lt_is_Some_2 (heap x) i) as [p Hp]; [lia|].
    destruct (lookup_lt_is_Some_2 (heap x) c) as [t Ht]; [lia|].
    rewrite Hsc. cbn [mbind option_bind]. rewrite Hp, Ht. cbn [mbind option_bind].
    assert (due (heap x) i = deadline p /\ due (heap x) c = deadline t) as [Hdi Hdc]
      by (unfold due; by rewrite Hp, Ht).
    destruct (Z.leb_spec (deadline p) (deadline t)).
    + exists x. split_and!; try done. apply Hstop. intros j Hj Hpj. unfold edge. rewrite Hpj.
      specialize (Hmin' j Hj Hpj). lia.
    + destruct (swap_spec x i c) as (x1 & -> & Hx1 & Hv & Hlen & Hlook); try (done || lia).
      cbn [mbind option_bind].
      destruct (IH x1 c) as (x' & -> & (? & Hv' & Hl') & Hord); try (done || lia).
      { eapply (near_down_step (heap x)); try (done || lia). }
      exists x'. split_and!; try done. unfold same_timers; split_and!; (done || congruence).
Qed.

Lemma down_spec x i : i < length (heap x) -> indexed x -> near_down (heap x) i ->
  exists x', down x i = Some x' /\ same_timers x x' /\ ordered (heap x').
Proof. intros. apply down_loop_spec; (done || lia). Qed.

(** A timer put in the place of another: up, then down, restores the order. *)
Lemma up_down_spec x i : i < length (heap x) -> indexed x -> near (heap x) i ->
  exists x', ('(j, y) ← up x i; down y j) = Some x' /\ same_timers x x' /\ ordered (heap x').
Proof.
  intros Hi Hx Hnear.
  destruct (up_spec x i) as (j & y & -> & (Hy & Hv & Hl) & Hj & Hdown & _); try done.
  cbn [mbind option_bind].
  destruct (down_spec y j) as (x' & -> & (Hx' & Hv' & Hl') & Hord); try done.
  exists x'. split_and!; try done. unfold same_timers; split_and!; (done || congruence).
Qed.
