(* ===== verification/ExpiryTheorems.v ===== *)
(** * The expiration index is a map with an earliest element

    Each operation of [Expiry.ExpiryIndex] keeps [index_ok] (heap order and the
    position map) without panicking and acts on the map of deadlines ([view]) as
    insertion, deletion and search of a minimum; these are the laws of
    [TimerIndex] the store relies on. *)

From S2P Require Import Prelude Bytes Expiry ExpiryLemmas.

Definition index_ok (x : ExpiryIndex) : Prop := indexed x /\ ordered (heap x).

Lemma empty_index_ok : index_ok (mkIndex [] ∅).
Proof.
  split; [|intros j Hj; simpl in Hj; lia].
  intros k i. simpl. rewrite lookup_empty. naive_solver.
Qed.

Lemma same_timers_ok x x' : same_timers x x' -> ordered (heap x') -> index_ok x'.
Proof. by intros [? _]. Qed.

(** ** Insertion *)

Lemma due_insert_eq h i t : i < length h -> due (<[i := t]> h) i = deadline t.
Proof. intros. unfold due. by rewrite list_lookup_insert_eq. Qed.

Lemma due_insert_ne h i j t : i <> j -> due (<[i := t]> h) j = due h j.
Proof. intros. unfold due. by rewrite list_lookup_insert_ne. Qed.

Lemma near_insert h i t : ordered h -> near (<[i := t]> h) i.
Proof.
  intros Hord. unfold near, bridged, edge. rewrite length_insert. split.
  - intros j Hj Hji Hpj. rewrite !due_insert_ne by done. by apply Hord.
  - intros j Hi Hj Hpj. assert (Hpl := parent_lt j ltac:(lia)).
    assert (Hpi := parent_lt i ltac:(lia)). rewrite !due_insert_ne by lia.
    assert (H1 := Hord j Hj). assert (H2 := Hord i ltac:(lia)).
    unfold edge in *. rewrite Hpj in H1. lia.
Qed.

Lemma update_indexed x i t d : indexed x -> heap x !! i = Some t ->
  let x' := mkIndex (<[i := mkTimer (timer_key t) d]> (heap x)) (positions x) in
  indexed x' /\ view x' = <[timer_key t := d]> (view x).
Proof.
  intros Hx Ht x'. assert (Hi := lookup_lt_Some _ _ _ Ht).
  assert (indexed x') as Hx'.
  { intros k j. unfold x'. cbn [heap positions]. rewrite (Hx k j).
    setoid_rewrite list_lookup_insert. case_decide as Hj; [|done].
    destruct Hj as [-> _]. split; intros (u & Hu & <-); simplify_eq; simpl; eauto. }
  split; [done|]. apply map_eq. intros k. apply option_eq. intros d'.
  rewrite view_lookup, lookup_insert_Some, view_lookup by done.
  unfold x'. cbn [heap]. setoid_rewrite list_lookup_insert_Some. split.
  - intros (j & u & [(-> & <- & _)|[Hne Hu]] & <- & <-); simpl; [by left|right].
    split; [|by eauto]. intros Hk.
    assert (positions x !! timer_key u = Some j) by (apply Hx; eauto).
    assert (positions x !! timer_key u = Some i) by (apply Hx; eauto). congruence.
  - intros [[<- <-]|(Hne & j & u & Hu & <- & <-)]; [by eauto 10|].
    exists j, u. split; [right|done]. split; [|done]. intros ->. by simplify_eq.
Qed.

Lemma push_indexed x k d : indexed x -> positions x !! k = None ->
  let x' := mkIndex (heap x ++ [mkTimer k d]) (<[k := length (heap x)]> (positions x)) in
  indexed x' /\ view x' = <[k := d]> (view x).
Proof.
  intros Hx Hk x'.
  assert (forall i t, heap x !! i = Some t -> timer_key t <> k) as Hfresh.
  { intros i t Ht E. assert (positions x !! timer_key t = Some i) by (apply Hx; eauto). congruence. }
  split.
  - intros k' i. unfold x'. cbn [heap positions].
    setoid_rewrite lookup_snoc_Some. rewrite lookup_insert_Some, (Hx k' i). split.
    + intros [[<- <-]|(Hne & t & Ht & <-)]; [by eauto 6|].
      exists t. split; [left|done]. split; [by eapply lookup_lt_Some|done].
    + intros (t & [[_ Ht]|[-> <-]] & <-); [right|by left].
      split; [|by eauto]. intros E. by eapply (Hfresh i t).
  - unfold view, x'. cbn [heap]. rewrite fmap_app. apply list_to_map_snoc.
    rewrite view_keys. intros (t & E & Ht)%list_elem_of_fmap.
    apply list_elem_of_lookup in Ht as [i Hi]. by eapply (Hfresh i t).
Qed.

Lemma due_app_l h k j : j < length h -> due (h ++ k) j = due h j.
Proof. intros. unfold due. by rewrite lookup_app_l. Qed.

Lemma near_push h t : ordered h ->
  near (h ++ [t]) (length h) /\ below (h ++ [t]) (length h).
Proof.
  intros Hord. unfold near, bridged, below, edge. rewrite length_app. simpl. split; [split|].
  - intros j Hj Hji Hpj. assert (Hpl := parent_lt j ltac:(lia)).
    rewrite !due_app_l by lia. apply Hord. lia.
  - intros j _ Hj Hpj. assert (Hpl := parent_lt j ltac:(lia)). lia.
  - intros j Hj Hpj. assert (Hpl := parent_lt j ltac:(lia)). lia.
Qed.

Lemma index_set_spec x k d : index_ok x ->
  exists x', index_set x k d = Some x' /\ index_ok x' /\ view x' = <[k := d]> (view x).
Proof.
  intros [Hx Hord]. unfold index_set. destruct (positions x !! k) as [i|] eqn:Hk.
  - assert (Hk' := Hk). apply Hx in Hk' as (t & Ht & <-). rewrite Ht. cbn [mbind option_bind].
    destruct (update_indexed x i t d Hx Ht) as [Hx1 Hv1].
    match goal with |- context [up ?y i] =>
      destruct (up_down_spec y i) as (x' & -> & Hs & Hord'); [|exact Hx1|..] end.
    + cbn [heap]. rewrite length_insert. by eapply lookup_lt_Some.
    + by apply near_insert.
    + exists x'. split_and!; [done|by eapply same_timers_ok|]. destruct Hs as (_ & -> & _). done.
  - destruct (push_indexed x k d Hx Hk) as [Hx1 Hv1].
    destruct (near_push (heap x) (mkTimer k d) Hord) as [Hn Hb].
    match goal with |- context [up ?y (length (heap x))] =>
      destruct (up_spec y (length (heap x))) as (i' & x' & -> & Hs & _ & _ & Hord');
        [cbn [heap]; rewrite length_app; simpl; lia|exact Hx1|exact Hn|] end.
    exists x'. split_and!; [done|by eapply same_timers_ok; auto|].
    destruct Hs as (_ & -> & _). done.
Qed.

(** ** Removal *)

Lemma swap_remove_spec {A} (l : list A) i a : l !! i = Some a ->
  exists l' z, swap_remove l i = Some l' /\ l !! (length l - 1) = Some z /\
    length l' = length l - 1 /\
    (forall j, l' !! j = if decide (j < length l - 1) then if decide (j = i) then Some z else l !! j
                         else None).
Proof.
  intros Ha. assert (Hi := lookup_lt_Some _ _ _ Ha).
  destruct (lookup_lt_is_Some_2 l (length l - 1)) as [z Hz]; [lia|].
  unfold swap_remove. rewrite Ha, last_lookup. cbn [mbind option_bind].
  replace (Nat.pred (length l)) with (length l - 1) by lia. rewrite Hz. cbn [mbind option_bind].
  eexists _, z. split_and!; try done.
  - rewrite length_take, length_insert. lia.
  - intros j. rewrite lookup_take, list_lookup_insert. repeat case_decide; naive_solver.
Qed.

Lemma indexed_injective x i j u v : indexed x -> heap x !! j = Some u -> heap x !! i = Some v ->
  timer_key u = timer_key v -> j = i.
Proof.
  intros Hx Hu Hv E. assert (positions x !! timer_key u = Some j) by (apply Hx; eauto).
  assert (positions x !! timer_key v = Some i) by (apply Hx; eauto). congruence.
Qed.

(** Removing by swap keeps the other timers. *)
Lemma remove_others x i t h' u : indexed x -> heap x !! i = Some t -> swap_remove (heap x) i = Some h' ->
  (exists j, h' !! j = Some u) <-> (exists j, heap x !! j = Some u /\ timer_key u <> timer_key t).
Proof.
  intros Hx Ht Hrm. assert (Hi := lookup_lt_Some _ _ _ Ht).
  destruct (swap_remove_spec _ _ _ Ht) as (h'' & z & Hrm' & Hz & Hlen & Hlook).
  assert (h'' = h') as -> by congruence.
  assert (Hinj := fun j u v => indexed_injective x i j u v Hx).
  setoid_rewrite Hlook. split.
  - intros [j Hj]. repeat case_decide; simplify_eq; eexists; (split; [done|]); intros E.
    + assert (length (heap x) - 1 = i) by eauto. lia.
    + by assert (j = i) by eauto.
  - intros (j & Hj & Hne). assert (Hjl := lookup_lt_Some _ _ _ Hj).
    destruct (decide (j = length (heap x) - 1)) as [->|].
    + simplify_eq. exists i. rewrite decide_True, decide_True; [done..|].
      assert (i <> length (heap x) - 1) by (intros E; congruence). lia.
    + exists j. rewrite decide_True, decide_False; [done| |lia]. congruence.
Qed.

(** The state between [swap_remove] and the repair of the order. *)
Lemma remove_indexed x i t h' z : indexed x -> heap x !! i = Some t ->
  swap_remove (heap x) i = Some h' -> heap x !! (length (heap x) - 1) = Some z ->
  let x' := mkIndex h' (if decide (i < length h') then
      <[timer_key z := i]> (delete (timer_key t) (positions x)) else delete (timer_key t) (positions x)) in
  indexed x' /\ view x' = delete (timer_key t) (view x).
Proof.
  intros Hx Ht Hrm Hz x'. assert (Hi := lookup_lt_Some _ _ _ Ht).
  destruct (swap_remove_spec _ _ _ Ht) as (h'' & z' & Hrm' & Hz' & Hlen & Hlook).
  simplify_eq.
  assert (forall j u, heap x !! j = Some u -> positions x !! timer_key u = Some j) as Hpos
    by (intros; apply Hx; eauto).
  assert (Hinj := fun j u v => indexed_injective x i j u v Hx).
  assert (Hsame := fun u => remove_others x i t h' u Hx Ht Hrm).
  assert (indexed x') as Hx'.
  { intros k j. unfold x'. cbn [heap positions]. rewrite Hlook, Hlen.
    case_decide as Hil.
    - rewrite lookup_insert_Some, lookup_delete_Some, (Hx k j). split.
      + intros [[<- <-]|(Hzk & Htk & u & Hu & <-)]; [rewrite !decide_True by done; eauto|].
        assert (Hul := lookup_lt_Some _ _ _ Hu).
        rewrite decide_True, decide_False; [by eauto|congruence|].
        assert (j <> length (heap x) - 1) by (intros ->; congruence). lia.
      + intros (u & Hu & <-). repeat case_decide; simplify_eq; [by left|right].
        assert (Hu' := Hu). apply Hpos in Hu'. split_and!; eauto; intros E.
        apply Hpos in Hz. rewrite E, Hu' in Hz. simplify_eq. lia.
    - rewrite lookup_delete_Some, (Hx k j). split.
      + intros (Htk & u & Hu & <-). assert (Hul := lookup_lt_Some _ _ _ Hu).
        assert (j <> i) by (intros ->; congruence).
        rewrite decide_True, decide_False by lia. eauto.
      + intros (u & Hu & <-). repeat case_decide; simplify_eq; try lia.
        split; [|by eauto]. intros E. apply Hpos in Ht, Hu. congruence. }
  split; [done|]. apply map_eq. intros k. apply option_eq. intros d.
  rewrite lookup_delete_Some, !view_lookup by done. unfold x'. cbn [heap]. split.
  - intros (j & u & Hu & <- & <-).
    destruct (proj1 (Hsame u)) as (j' & Hj' & Hne); [by eauto|]. split; [congruence|eauto].
  - intros (Hne & j & u & Hu & <- & <-).
    destruct (proj2 (Hsame u)) as (j' & Hj'); [by eauto|]. eauto.
Qed.

Lemma near_swap_remove h i t h' : ordered h -> h !! i = Some t -> swap_remove h i = Some h' ->
  i < length h' -> near h' i.
Proof.
  intros Hord Ht Hrm Hi. destruct (swap_remove_spec _ _ _ Ht) as (h'' & z & Hrm' & _ & Hlen & Hlook).
  simplify_eq.
  assert (forall j, j < length h' -> j <> i -> due h' j = due h j) as Hdue.
  { intros j Hj Hji. unfold due. rewrite Hlook, decide_True, decide_False by (done || lia). done. }
  unfold near, bridged, edge. split.
  - intros j Hj Hji Hpj. assert (Hpl := parent_lt j ltac:(lia)).
    rewrite !Hdue by (done || lia). apply Hord. lia.
  - intros j Hi0 Hj Hpj. assert (Hpl := parent_lt j ltac:(lia)).
    assert (Hpi := parent_lt i ltac:(lia)). rewrite !Hdue by lia.
    assert (H1 := Hord j ltac:(lia)). assert (H2 := Hord i ltac:(lia)).
    unfold edge in *. rewrite Hpj in H1. lia.
Qed.

Lemma index_remove_spec x k : index_ok x ->
  exists x', index_remove x k = Some x' /\ index_ok x' /\ view x' = delete k (view x).
Proof.
  intros [Hx Hord]. unfold index_remove. destruct (positions x !! k) as [i|] eqn:Hk.
  - apply Hx in Hk as (t & Ht & <-).
    destruct (swap_remove_spec _ _ _ Ht) as (h' & z & Hrm & Hz & Hlen & Hlook).
    destruct (remove_indexed x i t h' z Hx Ht Hrm Hz) as [Hx1 Hv1].
    rewrite Hrm. cbn [mbind option_bind]. case_decide as Hi.
    + assert (h' !! i = Some z) as -> by (rewrite Hlook, !decide_True by (done || lia); done).
      cbn [mbind option_bind].
      match goal with |- context [up ?y i] =>
        destruct (up_down_spec y i) as (x' & -> & Hs & Hord'); [exact Hi|exact Hx1| |] end.
      * by eapply near_swap_remove.
      * exists x'. split_and!; [done|by eapply same_timers_ok|]. destruct Hs as (_ & -> & _). done.
    + eexists. split_and!; [done| |done]. split; [done|]. cbn [heap].
      intros j Hj. assert (Hpl := parent_lt j ltac:(lia)).
      assert (He := Hord j ltac:(lia)). unfold edge, due in *.
      rewrite !Hlook. repeat case_decide; (done || lia).
  - exists x. split_and!; try done. symmetry. apply delete_id.
    destruct (view x !! k) as [d|] eqn:Hv; [|done].
    apply view_lookup in Hv as (i & t & Ht & <- & _); [|done].
    assert (positions x !! timer_key t = Some i) by (apply Hx; eauto). congruence.
Qed.

(** ** The earliest timer *)

Lemma ordered_root h i t r : ordered h -> h !! 0 = Some r -> h !! i = Some t ->
  (deadline r <= deadline t)%Z.
Proof.
  intros Hord Hr. revert t. induction i as [i IH] using lt_wf_ind. intros t Ht.
  destruct (decide (i = 0)) as [->|Hi]; [by simplify_eq|].
  assert (Hl := lookup_lt_Some _ _ _ Ht). assert (Hp := parent_lt i ltac:(lia)).
  destruct (lookup_lt_is_Some_2 h (parent i)) as [p Hpp]; [lia|].
  assert (He := Hord i ltac:(lia)). unfold edge, due in He. rewrite Ht, Hpp in He. simpl in He.
  specialize (IH _ Hp _ Hpp). lia.
Qed.

Lemma index_expired_Some x now k : index_ok x -> index_expired x now = Some k ->
  exists d, view x !! k = Some d /\ (d <= now)%Z /\
    forall k' d', view x !! k' = Some d' -> (d <= d')%Z.
Proof.
  intros [Hx Hord] E. unfold index_expired in E.
  destruct (heap x !! 0) as [r|] eqn:Hr; [|done].
  destruct (deadline r <=? now)%Z eqn:Hle; simplify_eq. zhyps.
  exists (deadline r). split_and!; [by apply view_lookup; eauto|done|].
  intros k' d' Hv. apply view_lookup in Hv as (i & t & Ht & _ & <-); [|done].
  by eapply ordered_root.
Qed.

Lemma index_expired_None x now : index_ok x -> index_expired x now = None ->
  forall k d, view x !! k = Some d -> (now < d)%Z.
Proof.
  intros [Hx Hord] E k d Hv. apply view_lookup in Hv as (i & t & Ht & _ & <-); [|done].
  unfold index_expired in E. destruct (heap x !! 0) as [r|] eqn:Hr.
  - destruct (deadline r <=? now)%Z eqn:Hle; simplify_eq. zhyps.
    assert (deadline r <= deadline t)%Z by by eapply ordered_root. lia.
  - apply lookup_ge_None in Hr. apply lookup_lt_Some in Ht. lia.
Qed.

#[export] Instance expiry_timer_index_laws : TimerIndexLaws ExpiryIndex.
Proof.
  refine {| timers_ok := index_ok; timers := view |}.
  - intros x [Hx _]. symmetry. by apply view_size.
  - apply index_set_spec.
  - apply index_remove_spec.
  - apply index_expired_Some.
  - apply index_expired_None.
Defined.

(** ** Sequences of operations *)

Inductive timer_op := SetTimer (k : bytes) (d : Z) | RemoveTimer (k : bytes).

Definition run_timer_op (x : ExpiryIndex) (op : timer_op) : option ExpiryIndex :=
  match op with
  | SetTimer k d => index_set x k d
  | RemoveTimer k => index_remove x k
  end.

Fixpoint run_timer_ops (x : ExpiryIndex) (ops : list timer_op) : option ExpiryIndex :=
  match ops with
  | [] => Some x
  | op :: ops => x ← run_timer_op x op; run_timer_ops x ops
  end.

(** The same on the map of deadlines. *)
Definition map_timer_op (m : gmap bytes Z) (op : timer_op) : gmap bytes Z :=
  match op with
  | SetTimer k d => <[k := d]> m
  | RemoveTimer k => delete k m
  end.

Lemma run_timer_ops_spec x ops : index_ok x ->
  exists x', run_timer_ops x ops = Some x' /\ index_ok x' /\
    view x' = foldl map_timer_op (view x) ops.
Proof.
  revert x. induction ops as [|op ops IH]; intros x Hx; simpl; [by eauto|].
  assert (exists y, run_timer_op x op = Some y /\ index_ok y /\ view y = map_timer_op (view x) op)
    as (y & -> & Hy & <-)
    by (destruct op; simpl; auto using index_set_spec, index_remove_spec).
  by apply IH.
Qed.

Lemma positions_view x : indexed x -> dom (positions x) = dom (view x).
Proof.
  intros Hx. apply set_eq. intros k. rewrite !elem_of_dom. unfold is_Some.
  setoid_rewrite view_lookup; [|done]. setoid_rewrite (Hx k). naive_solver.
Qed.

(** ** Properties *)

(** C29: from a consistent index, any sequence of updates and removals runs
    without panicking (no index out of bounds, the loops finish), stays
    consistent, and leaves exactly the deadlines the same sequence leaves in a
    map, with one heap node and one position entry for each of them. *)
Theorem index_refines_map (x : ExpiryIndex) (ops : list timer_op) (Hx : index_ok x) :
  exists x', run_timer_ops x ops = Some x' /\ index_ok x' /\
    view x' = foldl map_timer_op (view x) ops /\
    index_len x' = size (view x') /\ dom (positions x') = dom (view x').
Proof.
  destruct (run_timer_ops_spec x ops Hx) as (x' & -> & [Hi Ho] & Hv).
  exists x'. split_and!; try done; [symmetry; by apply view_size|by apply positions_view].
Qed.

Lemma index_refines_map_witness :
  exists x', run_timer_ops (mkIndex [] ∅)
      [SetTimer (bs "a") 3; SetTimer (bs "b") 1; SetTimer (bs "a") 0; RemoveTimer (bs "b")] = Some x' /\
    view x' !! bs "a" = Some 0%Z /\ view x' !! bs "b" = None.
Proof.
  destruct (index_refines_map (mkIndex [] ∅)
    [SetTimer (bs "a") 3; SetTimer (bs "b") 1; SetTimer (bs "a") 0; RemoveTimer (bs "b")]
    empty_index_ok) as (x' & Hrun & _ & Hv & _).
  exists x'. split; [exact Hrun|]. rewrite Hv. split; vm_compute; reflexivity.
Defined.

(** C30: the index never reports a key early or misses a due one: after any
    sequence of updates and removals from a new index, it returns a key exactly
    when some deadline the sequence leaves has passed, and then a key whose
    deadline is the earliest of all those. *)
Theorem index_expired_earliest (reserve : allocator) (capacity : nat) (x0 : ExpiryIndex)
  (ops : list timer_op) (now_ms : Z) (Hnew : new_index reserve capacity = Ok x0) :
  let m := foldl map_timer_op ∅ ops in
  exists x, run_timer_ops x0 ops = Some x /\
    match index_expired x now_ms with
    | Some k => exists d, m !! k = Some d /\ (d <= now_ms)%Z /\
        forall k' d', m !! k' = Some d' -> (d <= d')%Z
    | None => forall k d, m !! k = Some d -> (now_ms < d)%Z
    end.
Proof.
  assert (x0 = mkIndex [] ∅) as ->.
  { unfold new_index in Hnew. repeat (destruct (negb _); [done|]). by injection Hnew as <-. }
  intros m. destruct (run_timer_ops_spec (mkIndex [] ∅) ops empty_index_ok) as (x & Hrun & Hx & Hv).
  change (view (mkIndex [] ∅)) with (∅ : gmap bytes Z) in Hv. fold m in Hv.
  exists x. split; [done|]. rewrite <- Hv. destruct (index_expired x now_ms) as [k|] eqn:E.
  - by apply index_expired_Some.
  - by apply index_expired_None.
Qed.

(** Of three deadlines, one removed, the earlier is reported once it has passed. *)
Lemma index_expired_earliest_witness :
  let ops := [SetTimer (bs "a") 3; SetTimer (bs "b") 1; SetTimer (bs "c") 2; SetTimer (bs "a") 9; RemoveTimer (bs "b")] in
  exists x d, run_timer_ops (mkIndex [] ∅) ops = Some x /\ index_expired x 5 = Some (bs "c") /\
    foldl map_timer_op ∅ ops !! bs "c" = Some d /\ (d <= 5)%Z.
Proof.
  intros ops.
  destruct (index_expired_earliest (fun _ _ => true) 8 (mkIndex [] ∅) ops 5 eq_refl) as (x & Hrun & Hx).
  assert (Hc : (x ← run_timer_ops (mkIndex [] ∅) ops; index_expired x 5) = Some (bs "c")) by (vm_compute; reflexivity).
  rewrite Hrun in Hc. cbn [mbind option_bind] in Hc. rewrite Hc in Hx. destruct Hx as (d & Hd & Hle & _).
  exists x, d. split; [exact Hrun|]. split; [exact Hc|]. split; [exact Hd|exact Hle].
Defined.
