(* ===== verification/Command.v ===== *)
(** * Commands and their parser ([recall-core/src/command.rs])

    The command surface: the data types a request is parsed into, the parser
    from decoded arguments ([parse]) with its per-command helpers, the canonical
    integer syntax ([integer]), and the discovery metadata ([SPECS]). *)

From S2P Require Import Prelude Bytes Protocol.

Local Open Scope Z_scope.

(** ** Data *)

Record ParseLimits := mkParseLimits {
  max_key_bytes : Z;
  max_value_bytes : Z;
  max_client_metadata_bytes : Z;
}.

Definition default_parse_limits : ParseLimits := {|
  max_key_bytes := 1024;
  max_value_bytes := 512 * 1024;
  max_client_metadata_bytes := 128;
|}.

Record CommandError := mkCommandError { command_message : string }.

(** [CommandError::reply]. *)
Definition command_error_reply (e : CommandError) : Reply := reply_error (command_message e).

Inductive Condition := Always | IfAbsent | IfPresent.

Inductive Expiry := Clear | Keep | AfterMilliseconds (duration : Z).

#[export] Instance condition_eq_dec : EqDecision Condition.
Proof. solve_decision. Defined.

#[export] Instance expiry_eq_dec : EqDecision Expiry.
Proof. solve_decision. Defined.

Inductive Operation :=
| Get (key : bytes)
| Set_ (key value : bytes) (condition : Condition) (expiry : Expiry)
| Increment (key : bytes) (amount : Z) (subtract : bool)
| Delete (ks : list bytes)
| Exists (ks : list bytes)
| MultiGet (ks : list bytes)
| MultiSet (pairs : list (bytes * bytes))
| Expire (key : bytes) (milliseconds : Z)
| Ttl (key : bytes) (milliseconds : bool)
| Persist (key : bytes).

Definition keys (op : Operation) : list bytes :=
  match op with
  | Get key | Persist key | Set_ key _ _ _ | Increment key _ _ | Expire key _ | Ttl key _ => [key]
  | Delete ks | Exists ks | MultiGet ks => ks
  | MultiSet pairs => pairs.*1
  end.

Definition sum_len (l : list bytes) : Z := foldr (fun b n => zlen b + n) 0 l.

Definition payload_bytes (op : Operation) : Z :=
  match op with
  | Set_ key value _ _ => zlen key + zlen value
  | MultiSet pairs => foldr (fun p n => zlen p.1 + zlen p.2 + n) 0 pairs
  | _ => sum_len (keys op)
  end.

Inductive ClientCommand :=
| GetName
| SetName (name : bytes)
| SetInfo (library_name : bool) (value : bytes).

Inductive MetadataCommand :=
| All
| Count
| Info_ (names : list bytes).

Inductive Command :=
| Data (op : Operation)
| Ping (payload : option bytes)
| Echo (payload : bytes)
| Quit
| Auth (username : option bytes) (password : bytes)
| Hello (protocol : option Z) (auth : option (bytes * bytes)) (name : option bytes)
| Select (db : Z)
| Client (c : ClientCommand)
| Metadata (m : MetadataCommand)
| Info (section : option bytes).

Record CommandSpec := mkSpec {
  spec_name : string;
  arity : Z;
  write : bool;
  first_key : Z;
  last_key : Z;
  key_step : Z;
}.

Definition SPECS : list CommandSpec := [
  mkSpec "ping" (-1) false 0 0 0;
  mkSpec "echo" 2 false 0 0 0;
  mkSpec "quit" 1 false 0 0 0;
  mkSpec "auth" (-2) false 0 0 0;
  mkSpec "hello" (-1) false 0 0 0;
  mkSpec "select" 2 false 0 0 0;
  mkSpec "get" 2 false 1 1 1;
  mkSpec "set" (-3) true 1 1 1;
  mkSpec "incr" 2 true 1 1 1;
  mkSpec "incrby" 3 true 1 1 1;
  mkSpec "decr" 2 true 1 1 1;
  mkSpec "decrby" 3 true 1 1 1;
  mkSpec "del" (-2) true 1 (-1) 1;
  mkSpec "exists" (-2) false 1 (-1) 1;
  mkSpec "mget" (-2) false 1 (-1) 1;
  mkSpec "mset" (-3) true 1 (-1) 2;
  mkSpec "expire" 3 true 1 1 1;
  mkSpec "pexpire" 3 true 1 1 1;
  mkSpec "ttl" 2 false 1 1 1;
  mkSpec "pttl" 2 false 1 1 1;
  mkSpec "persist" 2 true 1 1 1;
  mkSpec "command" (-1) false 0 0 0;
  mkSpec "client" (-2) false 0 0 0;
  mkSpec "info" (-1) false 0 0 0
].

(** ** Operations *)

Definition command_error {A} (message : string) : res CommandError A :=
  Err (mkCommandError message).

Definition syntax_error {A} : res CommandError A := command_error "ERR syntax error".

(** [integer]: the text must be the canonical rendering of the number.
    [str::from_utf8] is subsumed: [parse] refuses every byte outside ASCII. *)
Definition integer (value : bytes) : res CommandError Z :=
  if bool_decide (value = []) || (20 <? zlen value)
  then command_error "ERR value is not an integer or out of range"
  else
    match parse_i64 value with
    | Some parsed =>
        if bool_decide (i64_to_string parsed = value) then Ok parsed
        else command_error "ERR value is not an integer or out of range"
    | None => command_error "ERR value is not an integer or out of range"
    end.

Definition is_option (argument : bytes) (name : string) : bool :=
  eq_ignore_ascii_case argument (bs name).

(** The loop of [parse_set] over the arguments from index 3. *)
Fixpoint parse_set_options (options : list bytes) (condition : Condition) (expiry : Expiry) :
    res CommandError (Condition * Expiry) :=
  match options with
  | [] => Ok (condition, expiry)
  | option :: rest =>
      if is_option option "nx" || is_option option "xx" then
        if bool_decide (condition <> Always) then syntax_error
        else parse_set_options rest
               (if is_option option "nx" then IfAbsent else IfPresent) expiry
      else if is_option option "keepttl" then
        if bool_decide (expiry <> Clear) then syntax_error
        else parse_set_options rest condition Keep
      else if is_option option "ex" || is_option option "px" then
        if bool_decide (expiry <> Clear) then syntax_error
        else
          match rest with
          | [] => syntax_error
          | value :: rest =>
              duration ← integer value;
              duration ← (if is_option option "ex" then
                ok_or (mkCommandError "ERR invalid expire time in 'set' command")
                  (checked_i64 (duration * 1000))
                else Ok duration);
              if duration <=? 0 then command_error "ERR invalid expire time in 'set' command"
              else parse_set_options rest condition (AfterMilliseconds duration)
          end
      else syntax_error
  end.

Definition parse_set (a : list bytes) : res CommandError Operation :=
  '(condition, expiry) ← parse_set_options (drop 3 a) Always Clear;
  key ← expect (a !! 1%nat);
  value ← expect (a !! 2%nat);
  Ok (Set_ key value condition expiry).

Definition client_name (value : bytes) (limits : ParseLimits) : res CommandError () :=
  if (max_client_metadata_bytes limits <? zlen value)
     || existsb (fun b => negb ((33 <=? byte_val b) && (byte_val b <=? 126))) value
  then command_error "ERR Client names cannot contain spaces, newlines or special characters"
  else Ok tt.

(** The loop of [parse_hello] over the arguments from index 2. *)
Fixpoint parse_hello_options (limits : ParseLimits) (options : list bytes)
    (auth : option (bytes * bytes)) (name : option bytes) :
    res CommandError (option (bytes * bytes) * option bytes) :=
  match options with
  | [] => Ok (auth, name)
  | option :: rest =>
      match is_option option "auth", auth, rest with
      | true, None, username :: password :: rest =>
          parse_hello_options limits rest (Some (username, password)) name
      | _, _, _ =>
          match is_option option "setname", name, rest with
          | true, None, value :: rest =>
              _ ← client_name value limits;
              parse_hello_options limits rest auth (Some value)
          | _, _, _ => syntax_error
          end
      end
  end.

Definition parse_hello (a : list bytes) (limits : ParseLimits) : res CommandError Command :=
  protocol ← (match a !! 1%nat with
    | Some value => version ← integer value; Ok (Some version)
    | None => Ok None
    end);
  '(auth, name) ← parse_hello_options limits (drop 2 a) None None;
  Ok (Hello protocol auth name).

Definition parse_client (a : list bytes) (limits : ParseLimits) : res CommandError ClientCommand :=
  sub ← expect (a !! 1%nat);
  if is_option sub "getname" && (length a =? 2)%nat then Ok GetName
  else if is_option sub "setname" && (length a =? 3)%nat then
    value ← expect (a !! 2%nat);
    _ ← client_name value limits;
    Ok (SetName value)
  else if is_option sub "setinfo" && (length a =? 4)%nat then
    value ← expect (a !! 3%nat);
    _ ← client_name value limits;
    attribute ← expect (a !! 2%nat);
    library_name ← (if is_option attribute "lib-name" then Ok true
      else if is_option attribute "lib-ver" then Ok false
      else command_error "ERR unsupported CLIENT SETINFO attribute");
    Ok (SetInfo library_name value)
  else command_error "ERR unsupported CLIENT subcommand or arguments".

(** [chunks_exact(2)]. *)
Fixpoint pairs_of (l : list bytes) : list (bytes * bytes) :=
  match l with
  | key :: value :: l => (key, value) :: pairs_of l
  | _ => []
  end.

(** The match of [parse] on the canonical name. *)
Definition dispatch (name : string) (a : list bytes) (limits : ParseLimits) :
    res CommandError Command :=
  match name with
  | "ping" => if (length a <=? 2)%nat then Ok (Ping (a !! 1%nat)) else syntax_error
  | "echo" => payload ← expect (a !! 1%nat); Ok (Echo payload)
  | "quit" => Ok Quit
  | "get" => key ← expect (a !! 1%nat); Ok (Data (Get key))
  | "set" => op ← parse_set a; Ok (Data op)
  | "incr" | "decr" | "incrby" | "decrby" =>
      key ← expect (a !! 1%nat);
      amount ← (if (length a =? 3)%nat then value ← expect (a !! 2%nat); integer value else Ok 1);
      Ok (Data (Increment key amount (String.prefix "decr" name)))
  | "del" => Ok (Data (Delete (drop 1 a)))
  | "exists" => Ok (Data (Exists (drop 1 a)))
  | "mget" => Ok (Data (MultiGet (drop 1 a)))
  | "mset" =>
      if Nat.odd (length a) then Ok (Data (MultiSet (pairs_of (drop 1 a)))) else syntax_error
  | "expire" | "pexpire" =>
      argument ← expect (a !! 2%nat);
      value ← integer argument;
      milliseconds ← (if String.eqb name "expire" then
        ok_or (mkCommandError "ERR invalid expire time in 'expire' command")
          (checked_i64 (value * 1000))
        else Ok value);
      key ← expect (a !! 1%nat);
      Ok (Data (Expire key milliseconds))
  | "ttl" | "pttl" =>
      key ← expect (a !! 1%nat); Ok (Data (Ttl key (String.eqb name "pttl")))
  | "persist" => key ← expect (a !! 1%nat); Ok (Data (Persist key))
  | "auth" =>
      if (length a =? 2)%nat then
        password ← expect (a !! 1%nat); Ok (Auth None password)
      else if (length a =? 3)%nat then
        username ← expect (a !! 1%nat);
        password ← expect (a !! 2%nat);
        Ok (Auth (Some username) password)
      else syntax_error
  | "select" => argument ← expect (a !! 1%nat); db ← integer argument; Ok (Select db)
  | "hello" => parse_hello a limits
  | "client" => c ← parse_client a limits; Ok (Client c)
  | "command" =>
      if (length a =? 1)%nat then Ok (Metadata All)
      else
        sub ← expect (a !! 1%nat);
        if is_option sub "count" && (length a =? 2)%nat then Ok (Metadata Count)
        else if is_option sub "info" then Ok (Metadata (Info_ (drop 2 a)))
        else syntax_error
  | "info" => if (length a <=? 2)%nat then Ok (Info (a !! 1%nat)) else syntax_error
  | _ => syntax_error
  end.

(** The size checks of [parse] on a data command. *)
Definition check_sizes (command : Command) (limits : ParseLimits) : res CommandError Command :=
  match command with
  | Data op =>
      if existsb (fun key => max_key_bytes limits <? zlen key) (keys op)
      then command_error "ERR key exceeds configured limit"
      else if
        match op with
        | Set_ _ value _ _ => max_value_bytes limits <? zlen value
        | MultiSet pairs => existsb (fun p => max_value_bytes limits <? zlen p.2) pairs
        | _ => false
        end
      then command_error "ERR value exceeds configured limit"
      else Ok command
  | _ => Ok command
  end.

Definition find_spec (name : bytes) : option CommandSpec :=
  List.find (fun spec => eq_ignore_ascii_case name (bs (spec_name spec))) SPECS.

Definition parse (arguments : list bytes) (limits : ParseLimits) : res CommandError Command :=
  match arguments with
  | [] => command_error "ERR empty command"
  | name :: _ =>
      spec ← ok_or (mkCommandError "ERR unknown command") (find_spec name);
      let count := zlen arguments in
      if ((0 <? arity spec) && negb (count =? arity spec))
         || ((arity spec <? 0) && (count <? - arity spec))
      then command_error
             ("ERR wrong number of arguments for '" +:+ spec_name spec +:+ "' command")
      else
        command ← dispatch (spec_name spec) arguments limits;
        check_sizes command limits
  end.

Definition spec_reply (spec : CommandSpec) : Reply :=
  Array [
    reply_bulk (bs (spec_name spec));
    Integer (arity spec);
    Array (if first_key spec =? 0 then []
           else [Simple (bs (if write spec then "write" else "readonly"))]);
    Integer (first_key spec);
    Integer (last_key spec);
    Integer (key_step spec)
  ].

Definition metadata (command : MetadataCommand) : Reply :=
  match command with
  | Count => Integer (zlen SPECS)
  | All => Array (spec_reply <$> SPECS)
  | Info_ [] => Array (spec_reply <$> SPECS)
  | Info_ names =>
      Array ((fun name => default (Bulk None) (spec_reply <$> find_spec name)) <$> names)
  end.

Example parse_set_example :
  parse [bs "sEt"; bs "k"; bs "v"; bs "nX"; bs "eX"; bs "10"] default_parse_limits
  = Ok (Data (Set_ (bs "k") (bs "v") IfAbsent (AfterMilliseconds 10000))).
Proof. vm_compute. reflexivity. Qed.

Example parse_mset_example :
  parse [bs "MSET"; bs "a"; bs "1"; bs "b"] default_parse_limits = syntax_error.
Proof. vm_compute. reflexivity. Qed.
