(* ===== verification/CommandLemmas.v ===== *)
(** * Lemmas on the command parser

    Canonical integers, absence of panics, the shape of a successful call, and
    the sizes and types of the operations ([operation_ok]). *)

From S2P Require Import Prelude Bytes Protocol Command.

Local Open Scope Z_scope.

(** ** Canonical integers *)

Lemma integer_no_panic v : is_panic (integer v) = false.
Proof. unfold integer. repeat split_match; done. Qed.

Lemma integer_Ok v n :
  integer v = Ok n <-> i64_min <= n <= i64_max /\ v = i64_to_string n.
Proof.
  unfold integer. split.
  - destruct (_ || _); [done|]. destruct (parse_i64 v) as [p|] eqn:Hp; [|done].
    case_bool_decide as Hv; [|done]. intros [= <-]. split; [|done]. by eapply parse_i64_bounds.
  - intros [Hn ->]. assert (Hl := i64_to_string_length n Hn).
    rewrite parse_i64_to_string, bool_decide_eq_false_2, (proj2 (Z.ltb_ge _ _)) by
      (done || lia || (intros E; rewrite E in Hl; simpl in Hl; lia)).
    simpl. by rewrite bool_decide_eq_true_2.
Qed.

#[export] Hint Resolve integer_no_panic : recall.

(** ** No panics *)

Lemma is_panic_ok_or {E A} (e : E) (o : option A) : is_panic (ok_or e o) = false.
Proof. by destruct o. Qed.

Lemma is_panic_expect {E A} (o : option A) : is_Some o -> is_panic (expect (E:=E) o) = false.
Proof. by intros [a ->]. Qed.

(** Reduce absence of panics to that of the calls, conditional by conditional. *)
Ltac no_panic :=
  repeat first
    [ done
    | solve [auto with recall]
    | apply is_panic_ok_or
    | apply is_panic_bind; [|intros; try match goal with p : (_ * _)%type |- _ => destruct p end]
    | split_match ].

Lemma parse_set_options_no_panic options c e :
  is_panic (parse_set_options options c e) = false.
Proof.
  revert c e. induction options as [options IH] using list_length_ind. intros c e.
  destruct options as [|option rest]; [done|]. cbn [parse_set_options].
  destruct rest as [|value rest]; no_panic; apply IH; simpl; lia.
Qed.

Lemma client_name_no_panic v limits : is_panic (client_name v limits) = false.
Proof. unfold client_name. by destruct (_ || _). Qed.

#[export] Hint Resolve parse_set_options_no_panic client_name_no_panic : recall.

Lemma parse_hello_options_no_panic limits options auth name :
  is_panic (parse_hello_options limits options auth name) = false.
Proof.
  revert auth name. induction options as [options IH] using list_length_ind. intros auth name.
  destruct options as [|option rest]; [done|]. cbn [parse_hello_options].
  no_panic; apply IH; simpl; lia.
Qed.

#[export] Hint Resolve parse_hello_options_no_panic : recall.

Lemma parse_hello_no_panic a limits : is_panic (parse_hello a limits) = false.
Proof. unfold parse_hello. no_panic. Qed.

Lemma parse_client_no_panic a limits :
  (2 <= length a)%nat -> is_panic (parse_client a limits) = false.
Proof.
  intros Ha. unfold parse_client.
  destruct a as [|n0 [|n1 [|n2 [|n3 rest]]]]; simpl in Ha; try lia; simpl;
    rewrite ?andb_false_r, ?andb_true_r; no_panic.
Qed.

Lemma parse_set_no_panic a : (3 <= length a)%nat -> is_panic (parse_set a) = false.
Proof.
  intros Ha. unfold parse_set. destruct a as [|n0 [|n1 [|n2 rest]]]; simpl in Ha; try lia.
  no_panic.
Qed.

#[export] Hint Resolve parse_hello_no_panic : recall.

(** The arity check of [parse]. *)
Definition arity_ok (spec : CommandSpec) (count : Z) : bool :=
  negb (((0 <? arity spec) && negb (count =? arity spec))
     || ((arity spec <? 0) && (count <? - arity spec))).

Lemma find_spec_In name spec : find_spec name = Some spec -> In spec SPECS.
Proof. intros H. by apply List.find_some in H as [? _]. Qed.

(** Every call that passes the arity check knows its command and its number of
    arguments: case analysis over the table. *)
Ltac spec_cases H :=
  unfold SPECS in H; simpl in H;
  repeat match type of H with _ \/ _ => destruct H as [H|H] end;
  [subst..|done].

Lemma dispatch_no_panic spec a limits : In spec SPECS -> arity_ok spec (zlen a) = true ->
  a <> [] -> is_panic (dispatch (spec_name spec) a limits) = false.
Proof.
  intros Hin Ha Hne.
  assert (forall n : nat, (Z.of_nat n <= zlen a)%Z -> (n <= length a)%nat) as Hlen by lia.
  spec_cases Hin; unfold arity_ok in Ha; cbn [arity spec_name dispatch] in *;
    apply negb_true_iff, orb_false_iff in Ha as [Ha1 Ha2]; simpl in Ha1, Ha2; zhyps.
  all: destruct a as [|n0 [|n1 [|n2 [|n3 rest]]]]; try done; simpl in *; try lia.
  all: try solve [no_panic].
  all: try (apply is_panic_bind; [|done]).
  all: try (by apply parse_set_no_panic; simpl; lia).
  all: try (by apply parse_client_no_panic; simpl; lia).
Qed.

(** ** The shape of [parse] *)

Lemma find_spec_congr n n' :
  eq_ignore_ascii_case n n' = true -> find_spec n = find_spec n'.
Proof.
  intros Hn. unfold find_spec. induction SPECS as [|spec specs IH]; [done|]. simpl.
  by rewrite (eq_ignore_ascii_case_congr n n'), IH.
Qed.

Lemma check_sizes_inv command limits command' :
  check_sizes command limits = Ok command' -> command' = command.
Proof.
  destruct command; simpl; try congruence.
  intros H. repeat split_match_in H; unfold command_error in *; congruence.
Qed.

(** A call succeeds when its command is known, its arity is right, and the
    command's own parser and the size checks accept it. *)
Lemma parse_Ok arguments limits command : parse arguments limits = Ok command <->
  exists name rest spec, arguments = name :: rest /\ find_spec name = Some spec /\
    arity_ok spec (zlen arguments) = true /\
    dispatch (spec_name spec) arguments limits = Ok command /\
    check_sizes command limits = Ok command.
Proof.
  unfold parse, arity_ok. destruct arguments as [|name rest];
    [split; [done|intros (? & ? & ? & ? & ?); done]|].
  destruct (find_spec name) as [spec|] eqn:Hs; cbn [ok_or mbind res_bind];
    [|split; [done|intros (? & ? & ? & [= <- <-] & ? & ?); congruence]].
  destruct (_ || _) eqn:Ha;
    [split; [done|intros (? & ? & ? & [= <- <-] & ? & Ha' & _); simplify_eq; by rewrite Ha in Ha']|].
  rewrite bind_Ok. split.
  - intros (c & Hd & Hc). assert (Hc' := check_sizes_inv _ _ _ Hc). subst.
    exists name, rest, spec. by rewrite Ha.
  - intros (n & r & sp & [= <- <-] & Hs' & _ & Hd & Hc). simplify_eq. eauto.
Qed.

(** ** Sizes and types *)

Definition expiry_ok (e : Expiry) : Prop :=
  match e with AfterMilliseconds d => 0 < d <= i64_max | _ => True end.

(** What the store may assume of an operation. *)
Definition operation_ok (limits : ParseLimits) (op : Operation) : Prop :=
  Forall (fun key => zlen key <= max_key_bytes limits) (keys op) /\
  keys op <> [] /\
  match op with
  | Set_ _ value _ e => zlen value <= max_value_bytes limits /\ expiry_ok e
  | Increment _ amount _ => i64_min <= amount <= i64_max
  | MultiSet pairs => Forall (fun p => zlen p.2 <= max_value_bytes limits) pairs
  | Expire _ milliseconds => i64_min <= milliseconds <= i64_max
  | _ => True
  end.

Lemma existsb_Forall {A} (f : A -> bool) l :
  existsb f l = false <-> Forall (fun a => f a = false) l.
Proof.
  induction l as [|a l IH]; simpl; [by split|].
  rewrite orb_false_iff, Forall_cons, IH. done.
Qed.

Lemma existsb_too_long {A} (f : A -> bytes) n l :
  existsb (fun a => n <? zlen (f a)) l = false <-> Forall (fun a => zlen (f a) <= n) l.
Proof.
  rewrite existsb_Forall. apply Forall_iff. intros a. apply Z.ltb_ge.
Qed.

Lemma check_sizes_Ok op limits : check_sizes (Data op) limits = Ok (Data op) <->
  Forall (fun key => zlen key <= max_key_bytes limits) (keys op) /\
  match op with
  | Set_ _ value _ _ => zlen value <= max_value_bytes limits
  | MultiSet pairs => Forall (fun p => zlen p.2 <= max_value_bytes limits) pairs
  | _ => True
  end.
Proof.
  unfold check_sizes. rewrite <- (existsb_too_long id). unfold id.
  destruct (existsb _ (keys op)); [naive_solver|].
  destruct op; try naive_solver.
  - rewrite <- Z.ltb_ge. destruct (_ <? _); naive_solver.
  - rewrite <- (existsb_too_long snd). destruct (existsb _ _); naive_solver.
Qed.

(** ** The options of SET *)

(** What an option of SET asks for. *)
Inductive SetOption := OnCondition (c : Condition) | OnExpiry (e : Expiry).

(** The arguments that spell an option. *)
Definition spells (o : SetOption) (l : list bytes) : Prop :=
  match o with
  | OnCondition Always | OnExpiry Clear => False
  | OnCondition IfAbsent => exists t, l = [t] /\ is_option t "nx" = true
  | OnCondition IfPresent => exists t, l = [t] /\ is_option t "xx" = true
  | OnExpiry Keep => exists t, l = [t] /\ is_option t "keepttl" = true
  | OnExpiry (AfterMilliseconds d) => exists t n, l = [t; i64_to_string n] /\
      i64_min <= n <= i64_max /\ 0 < d <= i64_max /\
      (is_option t "ex" = true /\ d = n * 1000 \/ is_option t "px" = true /\ d = n)
  end.

Definition condition_list (c : Condition) : list Condition :=
  match c with Always => [] | _ => [c] end.

Definition expiry_list (e : Expiry) : list Expiry :=
  match e with Clear => [] | _ => [e] end.

Definition conditions (os : list SetOption) : list Condition :=
  omap (fun o => match o with OnCondition c => Some c | _ => None end) os.

Definition expiries (os : list SetOption) : list Expiry :=
  omap (fun o => match o with OnExpiry e => Some e | _ => None end) os.

(** A list of arguments that spells a list of options. *)
Definition spelled (os : list SetOption) (arguments : list bytes) : Prop :=
  exists ls, Forall2 spells os ls /\ arguments = concat ls.

Lemma spelled_nil arguments : spelled [] arguments <-> arguments = [].
Proof.
  split.
  - intros (ls & H & ->). apply Forall2_nil_inv_l in H as ->. done.
  - intros ->. by exists [].
Qed.

Lemma spelled_cons o os arguments : spelled (o :: os) arguments <->
  exists l rest, spells o l /\ spelled os rest /\ arguments = l ++ rest.
Proof.
  split.
  - intros (ls & H & ->). apply Forall2_cons_inv_l in H as (l & ls' & Hl & H & ->).
    exists l, (concat ls'). split_and!; [done| |done]. by exists ls'.
  - intros (l & rest & Hl & (ls & H & ->) & ->). exists (l :: ls). auto.
Qed.

Lemma spells_not_nil o l : spells o l -> exists t l', l = t :: l'.
Proof. destruct o as [[]|[]]; simpl; naive_solver. Qed.

(** The first word of an option tells which option it is. *)
Lemma is_option_known t a b : is_option t a = true ->
  is_option t b = eq_ignore_ascii_case (bs a) (bs b).
Proof. apply eq_ignore_ascii_case_congr. Qed.

(** Evaluate the tests of the goal on a word known from [H : is_option t a = true]. *)
Ltac known_option H :=
  match type of H with
  | is_option ?t ?a = true =>
      repeat match goal with
      | |- context [is_option t ?b] =>
          rewrite (is_option_known t a b H);
          let v := eval vm_compute in (eq_ignore_ascii_case (bs a) (bs b)) in
          change (eq_ignore_ascii_case (bs a) (bs b)) with v
      end
  end; cbn [orb andb].

Lemma condition_list_inj c c' : condition_list c = condition_list c' -> c = c'.
Proof. by destruct c, c'. Qed.

Lemma expiry_list_inj e e' : expiry_list e = expiry_list e' -> e = e'.
Proof. destruct e, e'; simpl; congruence. Qed.

Lemma condition_list_full c c1 l c' :
  condition_list c ++ c1 :: l = condition_list c' -> c = Always.
Proof. by destruct c, c'. Qed.

Lemma expiry_list_full e e1 l e' :
  expiry_list e ++ e1 :: l = expiry_list e' -> e = Clear.
Proof. by destruct e, e'. Qed.

(** One option: what the loop does with the words of [o]. *)
Lemma parse_set_options_step o l rest c0 e0 :
  spells o l ->
  parse_set_options (l ++ rest) c0 e0 =
  match o with
  | OnCondition c =>
      if decide (c0 = Always) then parse_set_options rest c e0 else syntax_error
  | OnExpiry e =>
      if decide (e0 = Clear) then parse_set_options rest c0 e else syntax_error
  end.
Proof.
  destruct o as [[]|[| |d]]; simpl; [done|..|done| |].
  1-3: intros (t & -> & Ht); cbn [app parse_set_options]; known_option Ht;
    case_bool_decide; case_decide; naive_solver.
  intros (t & n & -> & Hn & Hd & Ht). cbn [app parse_set_options].
  assert (integer (i64_to_string n) = Ok n) as -> by (by apply integer_Ok).
  destruct Ht as [[Ht ->]|[Ht ->]]; known_option Ht;
    (case_bool_decide; case_decide; try done; cbn [mbind res_bind]).
  - rewrite checked_i64_in by int_lia. cbn [ok_or mbind res_bind]. by rewrite (proj2 (Z.leb_gt _ _)) by lia.
  - by rewrite (proj2 (Z.leb_gt _ _)) by lia.
Qed.

(** The loop only goes on past the words of an option. *)
Lemma parse_set_options_inv t rest c0 e0 r :
  parse_set_options (t :: rest) c0 e0 = Ok r ->
  exists o l rest', t :: rest = l ++ rest' /\ spells o l.
Proof.
  cbn [parse_set_options]. unfold syntax_error, command_error.
  destruct (is_option t "nx") eqn:Hnx; [intros _|]; [exists (OnCondition IfAbsent), [t], rest; split; [done|by exists t]|].
  destruct (is_option t "xx") eqn:Hxx; [intros _|]; [exists (OnCondition IfPresent), [t], rest; split; [done|by exists t]|].
  destruct (is_option t "keepttl") eqn:Hk; [intros _|]; [exists (OnExpiry Keep), [t], rest; split; [done|by exists t]|].
  cbn [orb]. destruct (_ || _) eqn:Ht; [|done]. case_bool_decide; [done|].
  destruct rest as [|v rest]; [done|].
  rewrite bind_Ok. intros (n & Hn & Hr). rewrite bind_Ok in Hr. destruct Hr as (d & Hd & Hr).
  apply integer_Ok in Hn as [Hn ->]. destruct (d <=? 0) eqn:Hd0; [done|]. zhyps.
  exists (OnExpiry (AfterMilliseconds d)), [t; i64_to_string n], rest. split; [done|].
  exists t, n. split_and!; [done|lia..| |].
  - destruct (is_option t "ex"); [|naive_solver lia]. unfold ok_or in Hd.
    destruct (checked_i64 _) as [m|] eqn:Hc; [|done]. apply checked_i64_Some in Hc. naive_solver lia.
  - destruct (is_option t "ex") eqn:He; [left|right]; split; try done; [|congruence].
    unfold ok_or in Hd. destruct (checked_i64 _) as [m|] eqn:Hc; [|done].
    apply checked_i64_Some in Hc. naive_solver.
Qed.

Lemma parse_set_options_spec options c0 e0 c e :
  parse_set_options options c0 e0 = Ok (c, e) <->
  exists os, spelled os options /\ condition_list c0 ++ conditions os = condition_list c /\
    expiry_list e0 ++ expiries os = expiry_list e.
Proof.
  revert c0 e0. induction options as [options IH] using list_length_ind. intros c0 e0. split.
  - intros Hp. destruct options as [|t rest].
    { injection Hp as -> ->. exists []. rewrite spelled_nil, !app_nil_r. done. }
    destruct (parse_set_options_inv _ _ _ _ _ Hp) as (o & l & rest' & E & Hl).
    assert (length rest' < length (t :: rest))%nat as Hlt.
    { rewrite E, length_app. apply spells_not_nil in Hl as (? & ? & ->). simpl. lia. }
    rewrite E in Hp |- *. rewrite (parse_set_options_step _ _ _ _ _ Hl) in Hp.
    destruct o as [c1|e1]; (case_decide as H0; [subst|done]);
      apply IH in Hp as (os & Hos & Hc & He); try done.
    + exists (OnCondition c1 :: os). rewrite spelled_cons. split_and!; [by eauto| |done].
      destruct c1; [done|done|done].
    + exists (OnExpiry e1 :: os). rewrite spelled_cons. split_and!; [by eauto|done|].
      destruct e1; [done|done|done].
  - intros (os & Hos & Hc & He). destruct os as [|o os].
    { apply spelled_nil in Hos as ->. rewrite app_nil_r in Hc, He. simpl.
      by rewrite (condition_list_inj _ _ Hc), (expiry_list_inj _ _ He). }
    apply spelled_cons in Hos as (l & rest & Hl & Hos & ->).
    assert (length rest < length (l ++ rest))%nat.
    { rewrite length_app. apply spells_not_nil in Hl as (? & ? & ->). simpl. lia. }
    rewrite (parse_set_options_step _ _ _ _ _ Hl).
    destruct o as [c1|e1]; cbn in Hc, He.
    + apply condition_list_full in Hc as H0. rewrite decide_True by done. apply IH; [done|].
      exists os. subst c0. split_and!; [done| |done]. by destruct c1.
    + apply expiry_list_full in He as H0. rewrite decide_True by done. apply IH; [done|].
      exists os. subst e0. split_and!; [done|done|]. by destruct e1.
Qed.

Lemma parse_set_options_expiry_ok options c0 e0 c e : expiry_ok e0 ->
  parse_set_options options c0 e0 = Ok (c, e) -> expiry_ok e.
Proof.
  intros H0 (os & (ls & Hos & _) & _ & He)%parse_set_options_spec.
  assert (Forall expiry_ok (expiries os)) as Hok.
  { clear He. induction Hos as [|o l os ls Hl _ IH]; [constructor|].
    destruct o as [|[| |d]]; cbn; [done|done|by constructor|].
    constructor; [|done]. destruct Hl as (_ & _ & _ & _ & Hd & _). exact Hd. }
  assert (Forall expiry_ok (expiry_list e)) as He' by (rewrite <- He; destruct e0; simpl; auto).
  destruct e; simpl in *; try done. by inversion He'.
Qed.
