(* ===== verification/CommandTheorems.v ===== *)
(** * What the command parser guarantees

    Absence of panics, the sizes and types of the operations it produces, their
    expressibility, the grammar of the options of SET, case insensitivity, and
    the agreement of the advertised command table with the parser. *)

From S2P Require Import Prelude Bytes Protocol Command CommandLemmas.

Local Open Scope Z_scope.

(** ** The command table *)

(** The operations that may change the table. *)
Definition mutates (op : Operation) : bool :=
  match op with
  | Set_ _ _ _ _ | Increment _ _ _ | Delete _ | MultiSet _ | Expire _ _ | Persist _ => true
  | Get _ | Exists _ | MultiGet _ | Ttl _ _ => false
  end.

(** One element out of [step], after the first [skip]. *)
Fixpoint stride {A} (step skip : nat) (l : list A) : list A :=
  match l with
  | [] => []
  | x :: l =>
      match skip with
      | O => x :: stride step (step - 1) l
      | S skip => stride step skip l
      end
  end.

(** The arguments COMMAND announces as keys: from [first_key] to [last_key]
    (counted from the end when negative), one out of [key_step]. *)
Definition spec_keys (spec : CommandSpec) (arguments : list bytes) : list bytes :=
  if first_key spec =? 0 then []
  else
    let final :=
      if last_key spec <? 0 then zlen arguments + last_key spec else last_key spec in
    stride (Z.to_nat (key_step spec)) 0 (slice arguments (first_key spec) (final + 1)).

Lemma stride_one {A} (l : list A) : stride 1 0 l = l.
Proof. induction l as [|x l IH]; simpl; congruence. Qed.

Lemma stride_two l : Nat.even (length l) = true -> stride 2 0 l = (pairs_of l).*1.
Proof.
  induction l as [l IH] using list_length_ind. intros Hl.
  destruct l as [|x [|y l]]; [done|done|]. simpl in *. f_equal. apply IH; [lia|done].
Qed.

Lemma slice_tail (n : bytes) rest : slice (n :: rest) 1 (zlen (n :: rest) + -1 + 1) = rest.
Proof.
  unfold slice. replace (Z.to_nat 1) with 1%nat by lia. simpl drop.
  apply take_ge. simpl. lia.
Qed.

(** A data command of a known, well-counted call: its keys, whether it writes,
    and the types of its numbers. *)
Definition dispatch_sound (spec : CommandSpec) (a : list bytes) (command : Command) : Prop :=
  match command with
  | Data op =>
      first_key spec <> 0 /\ keys op = spec_keys spec a /\ keys op <> [] /\
      mutates op = write spec /\
      match op with
      | Set_ _ _ _ e => expiry_ok e
      | Increment _ n _ | Expire _ n => i64_min <= n <= i64_max
      | _ => True
      end
  | _ => first_key spec = 0
  end.

Lemma spec_keys_rest spec n rest : first_key spec = 1 -> last_key spec = -1 ->
  spec_keys spec (n :: rest) = stride (Z.to_nat (key_step spec)) 0 rest.
Proof. intros Hf Hl. unfold spec_keys. rewrite Hf, Hl. f_equal. apply slice_tail. Qed.

Lemma parse_hello_command a limits command :
  parse_hello a limits = Ok command -> exists p auth name, command = Hello p auth name.
Proof.
  unfold parse_hello. rewrite bind_Ok. intros (p & _ & H).
  apply bind_Ok in H as ([auth name] & _ & [= <-]). eauto.
Qed.

Lemma parse_client_command a limits command :
  (x ← parse_client a limits; Ok (Client x)) = Ok command -> exists x, command = Client x.
Proof. rewrite bind_Ok. intros (x & _ & [= <-]). eauto. Qed.

Lemma parse_set_command n k v options command :
  (op ← parse_set (n :: k :: v :: options); Ok (Data op)) = Ok command ->
  exists c e, command = Data (Set_ k v c e) /\ parse_set_options options Always Clear = Ok (c, e).
Proof.
  rewrite bind_Ok. intros (op & H & [= <-]).
  unfold parse_set in H. apply bind_Ok in H as ([c e] & H & [= <-]). eauto.
Qed.

(** Invert a successful computation, step by step. *)
Ltac res_inv H :=
  repeat first
    [ discriminate H
    | injection H as <-
    | apply bind_Ok in H as (? & ? & H)
    | split_match_in H ].

Lemma dispatch_sound_all spec a limits command : In spec SPECS -> arity_ok spec (zlen a) = true ->
  a <> [] -> dispatch (spec_name spec) a limits = Ok command -> dispatch_sound spec a command.
Proof.
  intros Hin Ha Hne Hd.
  spec_cases Hin; unfold arity_ok in Ha; cbn [arity spec_name dispatch] in *;
    apply negb_true_iff, orb_false_iff in Ha as [Ha1 Ha2]; simpl in Ha1, Ha2; zhyps.
  all: try (apply parse_hello_command in Hd as (? & ? & ? & ->); done).
  all: try (apply parse_client_command in Hd as (? & ->); done).
  all: destruct a as [|n0 rest]; [done|].
  all: try (injection Hd as <-; cbn [dispatch_sound mutates keys]; rewrite spec_keys_rest, stride_one by done;
    by destruct rest).
  all: try (res_inv Hd; done).
  all: destruct rest as [|n1 [|n2 rest]]; simpl in Ha1, Ha2; try lia.
  all: try (apply parse_set_command in Hd as (c & e & -> & He); split_and!; try done;
    by apply (parse_set_options_expiry_ok _ Always Clear) in He).
  all: try (destruct (Nat.odd _) eqn:Hodd in Hd; [injection Hd as <-|discriminate];
    cbn [length] in Hodd; rewrite Nat.odd_succ in Hodd;
    cbn [dispatch_sound mutates]; rewrite spec_keys_rest, stride_two by done; done).
  all: try (destruct rest; simpl in Ha1; [|lia]); simpl in Hd; res_inv Hd;
    repeat match goal with
      | H : integer _ = Ok _ |- _ => apply integer_Ok in H as [H _]
      | H : ok_or _ _ = Ok _ |- _ => apply ok_or_Ok, checked_i64_Some in H as [-> H]
      end; split_and!; (done || lia).
Qed.

(** ** The parser is total *)

Lemma parse_total arguments limits : is_panic (parse arguments limits) = false.
Proof.
  unfold parse. destruct arguments as [|name rest]; [done|].
  destruct (find_spec name) as [spec|] eqn:Hs; [|done]. cbn [ok_or mbind res_bind].
  destruct (_ || _) eqn:Ha; [done|]. apply is_panic_bind.
  - apply dispatch_no_panic; [by eapply find_spec_In| |done]. unfold arity_ok. by rewrite Ha.
  - intros c _. unfold check_sizes. repeat split_match; done.
Qed.

(** C31: Parsing never panics: no list of arguments indexes past its end or
    overflows, whatever the limits. *)
Theorem parse_no_panic arguments limits : is_panic (parse arguments limits) = false.
Proof. apply parse_total. Qed.

Lemma parsed_operation_ok arguments limits op :
  parse arguments limits = Ok (Data op) -> operation_ok limits op.
Proof.
  intros (name & rest & spec & -> & Hs & Ha & Hd & Hc)%parse_Ok.
  apply dispatch_sound_all in Hd as (_ & _ & Hne & _ & Ht); [|by eapply find_spec_In|done..].
  apply check_sizes_Ok in Hc as [Hk Hv]. unfold operation_ok. split_and!; [done..|].
  destruct op; (done || by split).
Qed.

(** C32: A parsed data command is within the limits, has at least one key, and
    its numbers fit their types; a deadline of SET is positive. *)
Theorem parse_operation_ok arguments limits op :
  parse arguments limits = Ok (Data op) -> operation_ok limits op.
Proof. apply parsed_operation_ok. Qed.

Lemma parse_operation_ok_witness :
  parse [bs "set"; bs "k"; bs "v"; bs "ex"; bs "1"] default_parse_limits
    = Ok (Data (Set_ (bs "k") (bs "v") Always (AfterMilliseconds 1000))) /\
  operation_ok default_parse_limits (Set_ (bs "k") (bs "v") Always (AfterMilliseconds 1000)).
Proof.
  assert (parse [bs "set"; bs "k"; bs "v"; bs "ex"; bs "1"] default_parse_limits
    = Ok (Data (Set_ (bs "k") (bs "v") Always (AfterMilliseconds 1000)))) as H
    by (vm_compute; reflexivity).
  split; [exact H|exact (parse_operation_ok _ _ _ H)].
Defined.

(** ** Every operation is expressible *)

Definition unparse_condition (c : Condition) : list bytes :=
  match c with Always => [] | IfAbsent => [bs "NX"] | IfPresent => [bs "XX"] end.

Definition unparse_expiry (e : Expiry) : list bytes :=
  match e with
  | Clear => []
  | Keep => [bs "KEEPTTL"]
  | AfterMilliseconds d => [bs "PX"; i64_to_string d]
  end.

(** The call that asks for an operation. *)
Definition unparse (op : Operation) : list bytes :=
  match op with
  | Get k => [bs "GET"; k]
  | Set_ k v c e => bs "SET" :: k :: v :: unparse_condition c ++ unparse_expiry e
  | Increment k n subtract => [bs (if subtract then "DECRBY" else "INCRBY"); k; i64_to_string n]
  | Delete ks => bs "DEL" :: ks
  | Exists ks => bs "EXISTS" :: ks
  | MultiGet ks => bs "MGET" :: ks
  | MultiSet pairs => bs "MSET" :: concat ((fun p => [p.1; p.2]) <$> pairs)
  | Expire k n => [bs "PEXPIRE"; k; i64_to_string n]
  | Ttl k milliseconds => [bs (if milliseconds then "PTTL" else "TTL"); k]
  | Persist k => [bs "PERSIST"; k]
  end.

Definition unparse_name (op : Operation) : string :=
  match op with
  | Get _ => "get" | Set_ _ _ _ _ => "set"
  | Increment _ _ subtract => if subtract then "decrby" else "incrby"
  | Delete _ => "del" | Exists _ => "exists" | MultiGet _ => "mget" | MultiSet _ => "mset"
  | Expire _ _ => "pexpire"
  | Ttl _ milliseconds => if milliseconds then "pttl" else "ttl"
  | Persist _ => "persist"
  end.

Lemma length_concat_pairs (l : list (bytes * bytes)) :
  length (concat ((fun p => [p.1; p.2]) <$> l)) = (2 * length l)%nat.
Proof. induction l as [|p l IH]; [done|]. cbn [fmap list_fmap concat app length]. rewrite IH. lia. Qed.

Lemma pairs_of_concat l : pairs_of (concat ((fun p : bytes * bytes => [p.1; p.2]) <$> l)) = l.
Proof.
  induction l as [|[k v] l IH]; [done|]. cbn [fmap list_fmap concat app pairs_of fst snd]. by rewrite IH.
Qed.

Lemma arity_ok_at_least spec count : arity spec < 0 -> - arity spec <= count ->
  arity_ok spec count = true.
Proof. intros. unfold arity_ok. repeat (zcase; try lia); done. Qed.

Lemma unparse_spec op : keys op <> [] -> exists name rest spec,
  unparse op = name :: rest /\ find_spec name = Some spec /\ spec_name spec = unparse_name op /\
  arity_ok spec (zlen (unparse op)) = true.
Proof.
  intros Hne.
  destruct op as [k|k v c e|k n []|ks|ks|ks|pairs|k n|k []|k]; eexists _, _, _;
    (split; [reflexivity|]; split; [vm_compute; reflexivity|]; split; [reflexivity|]);
    cbn [unparse].
  all: try reflexivity.
  all: apply arity_ok_at_least; [done|]; cbn [arity].
  1: simpl; lia.
  1-3: destruct ks; [done|simpl; lia].
  destruct pairs; [done|]. cbn [length]. rewrite length_concat_pairs. simpl. lia.
Qed.

Lemma spelled_app o l os rest :
  spells o l -> spelled os rest -> spelled (o :: os) (l ++ rest).
Proof. intros. apply spelled_cons. eauto. Qed.

Lemma unparse_options c e : expiry_ok e ->
  parse_set_options (unparse_condition c ++ unparse_expiry e) Always Clear = Ok (c, e).
Proof.
  intros He. apply parse_set_options_spec.
  exists ((OnCondition <$> condition_list c) ++ (OnExpiry <$> expiry_list e)).
  split_and!.
  - assert (spelled (OnExpiry <$> expiry_list e) (unparse_expiry e)) as Hs.
    { destruct e as [| |d]; cbn [expiry_list fmap list_fmap unparse_expiry]; [by apply spelled_nil|..].
      - apply (spelled_app _ [_] [] []); [by eexists|by apply spelled_nil].
      - apply (spelled_app _ [_; _] [] []); [|by apply spelled_nil].
        exists (bs "PX"), d. simpl in He. split_and!; [done|int_lia..|by right]. }
    destruct c; cbn; [done|..]; (apply (spelled_app _ [_]); [by eexists|done]).
  - by destruct c, e.
  - by destruct c, e.
Qed.

(** C33: Round trip: every operation within the limits is what the parser makes
    of its call. *)
Theorem parse_unparse limits op :
  operation_ok limits op -> parse (unparse op) limits = Ok (Data op).
Proof.
  intros (Hk & Hne & Ht). apply parse_Ok.
  destruct (unparse_spec op Hne) as (name & rest & spec & E & Hf & Hn & Ha).
  exists name, rest, spec. rewrite Hn. split_and!; [done..| |].
  - clear E. destruct op as [k|k v c e|k n []|ks|ks|ks|pairs|k n|k []|k]; try reflexivity;
      cbn [unparse unparse_name dispatch].
    + unfold parse_set. cbn [drop]. rewrite drop_0. by rewrite unparse_options by apply Ht.
    + simpl in Ht. simpl. by rewrite (proj2 (integer_Ok _ n)).
    + simpl in Ht. simpl. by rewrite (proj2 (integer_Ok _ n)).
    + cbn [length drop]. rewrite length_concat_pairs, Nat.odd_succ, Nat.even_mul. simpl.
      by rewrite drop_0, pairs_of_concat.
    + simpl in Ht. simpl. by rewrite (proj2 (integer_Ok _ n)).
  - apply check_sizes_Ok. split; [done|]. by destruct op; destruct_and?.
Qed.

Lemma parse_unparse_witness :
  parse (unparse (MultiSet [(bs "a", bs "1"); (bs "b", bs "")])) default_parse_limits
  = Ok (Data (MultiSet [(bs "a", bs "1"); (bs "b", bs "")])).
Proof.
  apply parse_unparse. unfold operation_ok. split; [|split; [discriminate|]];
    repeat (constructor; [vm_compute; discriminate|]); constructor.
Defined.

(** ** The options of SET *)

(** C34: The grammar of SET: the options are any sequence, in any order and case,
    of at most one of NX and XX and at most one of KEEPTTL, EX and PX with a
    canonical integer whose deadline is positive and in range; and the call asks
    for exactly what they say. *)
Theorem set_options_grammar limits key value options c e :
  zlen key <= max_key_bytes limits -> zlen value <= max_value_bytes limits ->
  parse (bs "SET" :: key :: value :: options) limits = Ok (Data (Set_ key value c e)) <->
  exists os, spelled os options /\ conditions os = condition_list c /\
    expiries os = expiry_list e.
Proof.
  intros Hk Hv. rewrite parse_Ok.
  assert (Hg := parse_set_options_spec options Always Clear c e).
  cbn [condition_list expiry_list app] in Hg. rewrite <- Hg. split.
  - intros (name & rest & spec & [= <- <-] & Hs & _ & Hd & _).
    injection Hs as <-. cbn [dispatch spec_name] in Hd.
    apply parse_set_command in Hd as (c' & e' & [= <- <-] & Hp). done.
  - intros Hp. eexists _, _, _. split; [reflexivity|]. split; [vm_compute; reflexivity|].
    split_and!.
    + apply arity_ok_at_least; [done|]. simpl. lia.
    + cbn [dispatch spec_name]. unfold parse_set. cbn [drop]. by rewrite drop_0, Hp.
    + apply check_sizes_Ok. split; [|done]. by constructor.
Qed.

Lemma set_options_grammar_witness :
  exists os, spelled os [bs "Px"; bs "20"; bs "nX"] /\ conditions os = [IfAbsent] /\
    expiries os = [AfterMilliseconds 20].
Proof.
  apply (set_options_grammar default_parse_limits (bs "k") (bs "v") _ IfAbsent (AfterMilliseconds 20));
    vm_compute; [discriminate|discriminate|reflexivity].
Defined.

(** ** Case insensitivity *)

(** The case of a command name is immaterial, in every call and for every
    outcome, the text of the errors included. *)
Theorem parse_case_insensitive name name' rest limits :
  eq_ignore_ascii_case name name' = true ->
  parse (name :: rest) limits = parse (name' :: rest) limits.
Proof.
  intros Hn. unfold parse. rewrite (find_spec_congr _ _ Hn).
  destruct (find_spec name') as [spec|]; [|done]. reflexivity.
Qed.

Lemma parse_case_insensitive_witness :
  parse [bs "gEt"; bs "K"] default_parse_limits = parse [bs "GET"; bs "K"] default_parse_limits /\
  parse [bs "GET"; bs "K"] default_parse_limits = Ok (Data (Get (bs "K"))).
Proof. split; [apply parse_case_insensitive|]; vm_compute; reflexivity. Defined.

(** ** The advertised table *)

(** Names of commands are found under themselves, so COMMAND INFO of an
    advertised name is its own entry. *)
Lemma find_spec_self spec : In spec SPECS -> find_spec (bs (spec_name spec)) = Some spec.
Proof. intros H. by spec_cases H. Qed.

(** COMMAND tells the truth: a successfully parsed call has the advertised
    arity; it is a data command exactly when keys are advertised, its keys are
    the arguments at the advertised positions, and it is advertised as writing
    exactly when its operation may change the table. *)
Theorem metadata_agrees_with_parser name rest limits command :
  parse (name :: rest) limits = Ok command ->
  exists spec, In spec SPECS /\
    metadata (Info_ [name]) = Array [spec_reply spec] /\
    (if 0 <? arity spec then zlen (name :: rest) = arity spec
     else - arity spec <= zlen (name :: rest)) /\
    match command with
    | Data op => first_key spec <> 0 /\ keys op = spec_keys spec (name :: rest) /\
        mutates op = write spec
    | _ => first_key spec = 0
    end.
Proof.
  intros (n & r & spec & [= <- <-] & Hs & Ha & Hd & _)%parse_Ok.
  assert (Hin := find_spec_In _ _ Hs). exists spec. split_and!; [done|..].
  - unfold metadata. cbn [fmap list_fmap option_fmap]. by rewrite Hs.
  - unfold arity_ok in Ha. apply negb_true_iff, orb_false_iff in Ha as [H1 H2].
    assert (arity spec <> 0) by (clear -Hin; spec_cases Hin; cbn; lia).
    destruct (Z.ltb_spec 0 (arity spec)); cbn [andb] in H1; zhyps; [done|].
    rewrite (proj2 (Z.ltb_lt _ 0)) in H2 by lia. cbn [andb] in H2. by zhyps.
  - apply dispatch_sound_all in Hd; [|done..]. destruct command; [|done..].
    by destruct Hd as (? & ? & _ & ? & _).
Qed.

Lemma metadata_agrees_with_parser_witness :
  exists spec, In spec SPECS /\
    metadata (Info_ [bs "MSET"]) = Array [spec_reply spec] /\
    (if 0 <? arity spec then 5 = arity spec else - arity spec <= 5) /\
    first_key spec <> 0 /\
    [bs "a"; bs "b"] = spec_keys spec [bs "MSET"; bs "a"; bs "1"; bs "b"; bs "2"] /\
    true = write spec.
Proof.
  apply (metadata_agrees_with_parser (bs "MSET") [bs "a"; bs "1"; bs "b"; bs "2"]
    default_parse_limits (Data (MultiSet [(bs "a", bs "1"); (bs "b", bs "2")]))).
  vm_compute. reflexivity.
Defined.

(** COMMAND lists every command under its own name exactly once: COMMAND
    COUNT is the length of the reply to COMMAND, COMMAND INFO of a listed name is
    the entry of that name whatever its case, and names do not collide. *)
Theorem metadata_complete :
  (exists l, metadata All = Array l /\ metadata Count = Integer (zlen l)) /\
  (forall spec name, In spec SPECS -> eq_ignore_ascii_case name (bs (spec_name spec)) = true ->
     metadata (Info_ [name]) = Array [spec_reply spec]) /\
  NoDup (spec_name <$> SPECS).
Proof.
  split_and!.
  - eexists. split; [reflexivity|]. simpl. reflexivity.
  - intros spec name Hin Hn. unfold metadata. cbn [fmap list_fmap].
    by rewrite (find_spec_congr _ _ Hn), find_spec_self.
  - apply (bool_decide_eq_true_1 (NoDup (spec_name <$> SPECS))). vm_compute. reflexivity.
Qed.

(** Integers are accepted in canonical form only: [integer] answers a number
    exactly on that number's decimal rendering, for every i64 and nothing else. *)
Theorem integer_canonical v :
  match integer v with
  | Ok n => i64_min <= n <= i64_max /\ v = i64_to_string n
  | Err e => command_message e = "ERR value is not an integer or out of range" /\
      forall n, i64_min <= n <= i64_max -> v <> i64_to_string n
  | Panic => False
  end.
Proof.
  destruct (integer v) as [n|e|] eqn:Hv.
  - by apply integer_Ok.
  - split.
    + unfold integer, command_error in Hv. repeat split_match_in Hv; (done || by injection Hv as <-).
    + intros n Hn ->. rewrite (proj2 (integer_Ok _ n)) in Hv by done. done.
  - assert (H := integer_no_panic v). by rewrite Hv in H.
Qed.
