(* ===== verification/Store.v ===== *)
(** * One shard of the table ([recall-core/src/store.rs])

    [Shard] owns a hash map of entries, the index of their deadlines, and the
    accounting of payload bytes.  A command runs in two phases: [prepare]
    computes the reply and the effects without changing the shard, and [apply]
    installs the effects.  [expire_due] removes due entries within a budget.
    A shard is generic in its index of deadlines ([TimerIndex]).

    A [None] answer of [apply] and [expire_due] is a panic. *)

From S2P Require Import Prelude Bytes Protocol Command Expiry.

Local Open Scope Z_scope.

Record ShardLimits := mkShardLimits {
  max_keys : Z;
  max_payload_bytes : Z;
  max_reply_bytes : Z;
}.

Definition default_shard_limits : ShardLimits := {|
  max_keys := 16384;
  max_payload_bytes := 32 * 1024 * 1024;
  max_reply_bytes := 4 * 1024 * 1024;
|}.

Record EngineError := mkEngineError { engine_message : string }.

(** [EngineError::reply]. *)
Definition engine_error_reply (e : EngineError) : Reply := reply_error (engine_message e).

Definition failure {A} (message : string) : res EngineError A := Err (mkEngineError message).

Record Entry := mkEntry {
  value : bytes;
  expires_at_ms : option Z;
}.

#[export] Instance entry_eq_dec : EqDecision Entry.
Proof. solve_decision. Defined.

(** What a command will do to each key it affects: [None] removes it. *)
Abbreviation effect_map := (gmap bytes (option Entry)).

Record Prepared := mkPrepared {
  prepared_revision : Z;
  effects : effect_map;
  payload_after : Z;
  response : Reply;
}.

Record ShardStats := mkShardStats {
  stats_keys : Z;
  stats_payload_bytes : Z;
  stats_expiring_keys : Z;
  stats_expired_keys : Z;
  stats_applied_commands : Z;
  stats_max_keys : Z;
  stats_max_payload_bytes : Z;
}.

Record Shard (I : Type) := mkShard {
  entries : gmap bytes Entry;
  expiry : I;
  limits : ShardLimits;
  shard_payload : Z;
  revision : Z;
  expired_keys : Z;
  applied_commands : Z;
}.
Arguments mkShard {I}.
Arguments entries {I}.
Arguments expiry {I}.
Arguments limits {I}.
Arguments shard_payload {I}.
Arguments revision {I}.
Arguments expired_keys {I}.
Arguments applied_commands {I}.

(** [ShardLimits] refused by [Shard::new]. *)
Definition bad_limits (l : ShardLimits) : bool :=
  (max_keys l =? 0) || (max_payload_bytes l =? 0) || (max_reply_bytes l <? 64).

(** [Shard::new], with the index of deadlines of the program. *)
Definition new_shard (reserve : allocator) (l : ShardLimits) :
    res EngineError (Shard ExpiryIndex) :=
  if bad_limits l then failure "ERR invalid shard limits"
  else if negb (reserve KeyTable (Z.to_nat (max_keys l)))
  then failure "OOM could not reserve key table"
  else
    x ← map_err (fun _ => mkEngineError "OOM could not reserve expiration index")
          (new_index reserve (Z.to_nat (max_keys l)));
    Ok (mkShard ∅ x l 0 0 0 0).

Definition due_at (e : Entry) (now_ms : Z) : bool :=
  match expires_at_ms e with Some d => d <=? now_ms | None => false end.

(** The bytes an entry is charged for. *)
Definition charge (key : bytes) (e : Entry) : Z := zlen key + zlen (value e).

Section Shard.
Context {I : Type} `{TimerIndex I}.
Implicit Types (s : Shard I) (eff : effect_map).

Definition stats s : ShardStats := {|
  stats_keys := Z.of_nat (size (entries s));
  stats_payload_bytes := shard_payload s;
  stats_expiring_keys := Z.of_nat (timer_len (expiry s));
  stats_expired_keys := expired_keys s;
  stats_applied_commands := applied_commands s;
  stats_max_keys := max_keys (limits s);
  stats_max_payload_bytes := max_payload_bytes (limits s);
|}.

(** The live entry of a key; a due entry is scheduled for removal instead. *)
Definition observe s (key : bytes) (now_ms : Z) eff : option Entry * effect_map :=
  match entries s !! key with
  | None => (None, eff)
  | Some entry =>
      if due_at entry now_ms then (None, <[key := None]> eff) else (Some entry, eff)
  end.

(** The loops over the keys of a command. *)
Fixpoint delete_keys s (now_ms : Z) (ks : list bytes) (removed : Z) eff : Z * effect_map :=
  match ks with
  | [] => (removed, eff)
  | key :: ks =>
      if decide (is_Some (eff !! key)) then delete_keys s now_ms ks removed eff
      else
        let '(old, eff) := observe s key now_ms eff in
        let removed := match old with Some _ => removed + 1 | None => removed end in
        delete_keys s now_ms ks removed (<[key := None]> eff)
  end.

Fixpoint count_existing s (now_ms : Z) (ks : list bytes) eff : Z * effect_map :=
  match ks with
  | [] => (0, eff)
  | key :: ks =>
      let '(old, eff) := observe s key now_ms eff in
      let '(count, eff) := count_existing s now_ms ks eff in
      (match old with Some _ => count + 1 | None => count end, eff)
  end.

Fixpoint get_values s (now_ms : Z) (ks : list bytes) eff : list Reply * effect_map :=
  match ks with
  | [] => ([], eff)
  | key :: ks =>
      let '(old, eff) := observe s key now_ms eff in
      let '(replies, eff) := get_values s now_ms ks eff in
      (Bulk (value <$> old) :: replies, eff)
  end.

Definition set_pairs (pairs : list (bytes * bytes)) eff : effect_map :=
  foldl (fun eff p => <[p.1 := Some (mkEntry p.2 None)]> eff) eff pairs.

(** The match of [prepare] on the operation. *)
Definition respond s (operation : Operation) (now_ms : Z) : res EngineError (Reply * effect_map) :=
  match operation with
  | Get key =>
      let '(old, eff) := observe s key now_ms ∅ in
      Ok (Bulk (value <$> old), eff)
  | Set_ key v condition e =>
      let '(old, eff) := observe s key now_ms ∅ in
      deadline ← match e with
        | Clear => Ok None
        | Keep => Ok (old ≫= expires_at_ms)
        | AfterMilliseconds duration =>
            match checked_i64 (now_ms + duration) with
            | Some d =>
                if 0 <? duration then Ok (Some d)
                else failure "ERR invalid expire time in 'set' command"
            | None => failure "ERR invalid expire time in 'set' command"
            end
        end;
      if bool_decide (condition = IfAbsent) && bool_decide (is_Some old)
         || bool_decide (condition = IfPresent) && bool_decide (old = None)
      then Ok (Bulk None, eff)
      else Ok (reply_ok, <[key := Some (mkEntry v deadline)]> eff)
  | Increment key amount subtract =>
      if subtract && (amount =? i64_min)
      then failure "ERR increment or decrement would overflow"
      else
        let '(old, eff) := observe s key now_ms ∅ in
        current ← match old with
          | Some entry => map_err (fun e => mkEngineError (command_message e)) (integer (value entry))
          | None => Ok 0
          end;
        next ← ok_or (mkEngineError "ERR increment or decrement would overflow")
          (checked_i64 (if subtract then current - amount else current + amount));
        Ok (Integer next,
            <[key := Some (mkEntry (i64_to_string next) (old ≫= expires_at_ms))]> eff)
  | Delete ks =>
      let '(removed, eff) := delete_keys s now_ms ks 0 ∅ in Ok (Integer removed, eff)
  | Exists ks =>
      let '(count, eff) := count_existing s now_ms ks ∅ in Ok (Integer count, eff)
  | MultiGet ks =>
      let '(replies, eff) := get_values s now_ms ks ∅ in Ok (Array replies, eff)
  | MultiSet pairs => Ok (reply_ok, set_pairs pairs ∅)
  | Expire key milliseconds =>
      let '(old, eff) := observe s key now_ms ∅ in
      match old with
      | Some old =>
          if milliseconds <=? 0 then Ok (Integer 1, <[key := None]> eff)
          else
            deadline ← ok_or (mkEngineError "ERR invalid expire time in 'expire' command")
              (checked_i64 (now_ms + milliseconds));
            Ok (Integer 1, <[key := Some (mkEntry (value old) (Some deadline))]> eff)
      | None => Ok (Integer 0, eff)
      end
  | Ttl key milliseconds =>
      let '(old, eff) := observe s key now_ms ∅ in
      let ttl :=
        match old with
        | None => -2
        | Some entry =>
            match expires_at_ms entry with
            | None => -1
            | Some d =>
                let remaining := saturating_i64 (d - now_ms) in
                if milliseconds then remaining
                else Z.quot remaining 1000 + (if 500 <=? Z.rem remaining 1000 then 1 else 0)
            end
        end in
      Ok (Integer ttl, eff)
  | Persist key =>
      let '(old, eff) := observe s key now_ms ∅ in
      match old with
      | Some old =>
          match expires_at_ms old with
          | Some _ => Ok (Integer 1, <[key := Some (mkEntry (value old) None)]> eff)
          | None => Ok (Integer 0, eff)
          end
      | None => Ok (Integer 0, eff)
      end
  end.

(** One round of the accounting loop of [preflight]. *)
Definition account s (counts : Z * Z) (kn : bytes * option Entry) : Z * Z :=
  let '(ks, payload) := counts in
  let '(key, next) := kn in
  let '(ks, payload) :=
    match entries s !! key with
    | Some old => (ks - 1, payload - charge key old)
    | None => (ks, payload)
    end in
  match next with
  | Some next => (ks + 1, payload + charge key next)
  | None => (ks, payload)
  end.

Definition reply_too_long (l : ShardLimits) (r : Reply) : bool :=
  match encoded_len r with Some n => max_reply_bytes l <? n | None => true end.

Definition preflight s eff (r : Reply) : res EngineError Prepared :=
  if reply_too_long (limits s) r then failure "ERR response exceeds configured limit"
  else
    let '(ks, payload) :=
      foldl (account s) (Z.of_nat (size (entries s)), shard_payload s) (map_to_list eff) in
    if (max_keys (limits s) <? ks) || (max_payload_bytes (limits s) <? payload)
    then failure "OOM owner key or payload budget exhausted"
    else
      payload_after ← expect (checked_usize payload);
      Ok (mkPrepared (revision s) eff payload_after r).

Definition prepare (reserve : allocator) s (operation : Operation) (now_ms : Z) :
    res EngineError Prepared :=
  if negb (reserve CommandEffects (length (keys operation)))
  then failure "OOM could not reserve command effects"
  else
    '(r, eff) ← respond s operation now_ms;
    preflight s eff r.

(** The loop of [apply], in the order the hash map yields the effects. *)
Definition install (x : I) (table : gmap bytes Entry) (kn : bytes * option Entry) :
    option (I * gmap bytes Entry) :=
  let '(key, next) := kn in
  match next with
  | Some entry =>
      x ← match expires_at_ms entry with
        | Some d => timer_set x key d
        | None => timer_remove x key
        end;
      Some (x, <[key := entry]> table)
  | None => x ← timer_remove x key; Some (x, delete key table)
  end.

Fixpoint install_all (x : I) (table : gmap bytes Entry) (l : list (bytes * option Entry)) :
    option (I * gmap bytes Entry) :=
  match l with
  | [] => Some (x, table)
  | kn :: l => '(x, table) ← install x table kn; install_all x table l
  end.

Definition apply_in_order s (p : Prepared) (order : list (bytes * option Entry)) :
    option (Shard I * Reply) :=
  if negb (revision s =? prepared_revision p) then None
  else
    '(x, table) ← install_all (expiry s) (entries s) order;
    revision' ← checked_usize (revision s + 1);
    Some (mkShard table x (limits s) (payload_after p) revision' (expired_keys s)
            (saturating_usize (applied_commands s + 1)),
          response p).

Definition apply s (p : Prepared) : option (Shard I * Reply) :=
  apply_in_order s p (map_to_list (effects p)).

Definition execute (reserve : allocator) s (operation : Operation) (now_ms : Z) :
    res EngineError (Shard I * Reply) :=
  prepared ← prepare reserve s operation now_ms;
  expect (apply s prepared).

(** The loop of [expire_due]: [budget] is what is left of it. *)
Fixpoint expire_due_loop s (now_ms : Z) (budget removed : nat) : option (Shard I * nat) :=
  match budget with
  | O => Some (s, removed)
  | S budget =>
      match timer_expired (expiry s) now_ms with
      | None => Some (s, removed)
      | Some key =>
          x ← timer_remove (expiry s) key;
          entry ← entries s !! key;
          if negb (due_at entry now_ms) then None
          else
            payload ← checked_usize (shard_payload s - charge key entry);
            revision' ← checked_usize (revision s + 1);
            expire_due_loop
              (mkShard (delete key (entries s)) x (limits s) payload revision'
                 (saturating_usize (expired_keys s + 1)) (applied_commands s))
              now_ms budget (S removed)
      end
  end.

Definition expire_due s (now_ms : Z) (budget : nat) : option (Shard I * nat) :=
  expire_due_loop s now_ms budget 0.

End Shard.

(** The replies of a sequence of commands, the errors as their replies. *)
Fixpoint replies_of (s : Shard ExpiryIndex) (calls : list (Operation * Z)) : option (list Reply) :=
  match calls with
  | [] => Some []
  | (operation, now_ms) :: calls =>
      match execute (fun _ _ => true) s operation now_ms with
      | Ok (s, r) => rs ← replies_of s calls; Some (r :: rs)
      | Err e => rs ← replies_of s calls; Some (engine_error_reply e :: rs)
      | Panic => None
      end
  end.

Definition empty_shard (l : ShardLimits) : Shard ExpiryIndex :=
  mkShard ∅ (mkIndex [] ∅) l 0 0 0 0.

Example assignment_conditions_and_deadlines_are_atomic :
  replies_of (empty_shard default_shard_limits)
    [(Set_ (bs "k") (bs "1") IfAbsent (AfterMilliseconds 1000), 0);
     (Set_ (bs "k") (bs "2") IfAbsent Clear, 1);
     (Set_ (bs "k") (bs "2") IfPresent Keep, 10);
     (Ttl (bs "k") true, 11); (Get (bs "k"), 999); (Get (bs "k"), 1000); (Get (bs "k"), 0)]
  = Some [reply_ok; Bulk None; reply_ok; Integer 989; Bulk (Some (bs "2")); Bulk None; Bulk None].
Proof. vm_compute. reflexivity. Qed.

Example duplicate_multi_key_semantics :
  replies_of (empty_shard default_shard_limits)
    [(MultiSet [(bs "a", bs "1"); (bs "b", bs "2"); (bs "a", bs "3")], 0);
     (MultiGet [bs "a"; bs "b"; bs "a"; bs "z"], 0);
     (Exists [bs "a"; bs "a"; bs "b"], 0); (Delete [bs "a"; bs "a"; bs "b"], 0)]
  = Some [reply_ok;
      Array [Bulk (Some (bs "3")); Bulk (Some (bs "2")); Bulk (Some (bs "3")); Bulk None];
      Integer 3; Integer 2].
Proof. vm_compute. reflexivity. Qed.
