(* ===== verification/StoreSpec.v ===== *)
(** * What a shard promises

    An abstract key-value table is a finite map of entries without stale ones.
    [spec_exec] gives the reply and the new table of every operation in closed
    form; [outcome] adds what the budgets of a shard refuse.  [StoreTheorems]
    shows that the shard of [Store] implements both. *)

From S2P Require Import Prelude Bytes Protocol Command Expiry Store.

Local Open Scope Z_scope.

Abbreviation table := (gmap bytes Entry).

(** The entries that are not due, and the due entries outside [ks]. *)
Definition live_at (now_ms : Z) (m : table) : table :=
  filter (fun kv => due_at kv.2 now_ms = false) m.

Definition leftover (now_ms : Z) (ks : list bytes) (m : table) : table :=
  filter (fun kv => due_at kv.2 now_ms = true /\ kv.1 ∉ ks) m.

Definition overflow_error : EngineError :=
  mkEngineError "ERR increment or decrement would overflow".

(** Whether a condition of SET allows the assignment. *)
Definition allows (c : Condition) (old : option Entry) : bool :=
  match c, old with
  | IfAbsent, Some _ | IfPresent, None => false
  | _, _ => true
  end.

Definition spec_deadline (e : Expiry) (old : option Entry) (now_ms : Z) :
    res EngineError (option Z) :=
  match e with
  | Clear => Ok None
  | Keep => Ok (old ≫= expires_at_ms)
  | AfterMilliseconds d =>
      if (0 <? d) && in_i64 (now_ms + d) then Ok (Some (now_ms + d))
      else failure "ERR invalid expire time in 'set' command"
  end.

(** The number an entry holds, 0 without an entry. *)
Definition spec_number (old : option Entry) : res EngineError Z :=
  match old with
  | None => Ok 0
  | Some entry =>
      match integer (value entry) with
      | Ok n => Ok n
      | _ => failure "ERR value is not an integer or out of range"
      end
  end.

(** The reply of TTL and PTTL: the time left, to the nearest second for TTL. *)
Definition spec_ttl (old : option Entry) (milliseconds : bool) (now_ms : Z) : Z :=
  match old with
  | None => -2
  | Some entry =>
      match expires_at_ms entry with
      | None => -1
      | Some d =>
          let remaining := Z.min i64_max (d - now_ms) in
          if milliseconds then remaining else (remaining + 500) / 1000
      end
  end.

(** The reply and the new table of an operation on a table of live entries. *)
Definition spec_exec (m : table) (op : Operation) (now_ms : Z) : res EngineError (Reply * table) :=
  match op with
  | Get k => Ok (Bulk (value <$> m !! k), m)
  | Set_ k v c e =>
      d ← spec_deadline e (m !! k) now_ms;
      Ok (if allows c (m !! k) then (reply_ok, <[k := mkEntry v d]> m) else (Bulk None, m))
  | Increment k n subtract =>
      if subtract && (n =? i64_min) then Err overflow_error
      else
        current ← spec_number (m !! k);
        let next := if subtract then current - n else current + n in
        if in_i64 next
        then Ok (Integer next,
                 <[k := mkEntry (i64_to_string next) (m !! k ≫= expires_at_ms)]> m)
        else Err overflow_error
  | Delete ks =>
      let rest := filter (fun kv => kv.1 ∉ ks) m in
      Ok (Integer (Z.of_nat (size m) - Z.of_nat (size rest)), rest)
  | Exists ks => Ok (Integer (zlen (filter (fun k => is_Some (m !! k)) ks)), m)
  | MultiGet ks => Ok (Array ((fun k => Bulk (value <$> m !! k)) <$> ks), m)
  | MultiSet pairs =>
      Ok (reply_ok, foldl (fun m p => <[p.1 := mkEntry p.2 None]> m) m pairs)
  | Expire k n =>
      match m !! k with
      | None => Ok (Integer 0, m)
      | Some entry =>
          if n <=? 0 then Ok (Integer 1, delete k m)
          else if in_i64 (now_ms + n)
          then Ok (Integer 1, <[k := mkEntry (value entry) (Some (now_ms + n))]> m)
          else failure "ERR invalid expire time in 'expire' command"
      end
  | Ttl k milliseconds => Ok (Integer (spec_ttl (m !! k) milliseconds now_ms), m)
  | Persist k =>
      match m !! k with
      | Some (mkEntry v (Some _)) => Ok (Integer 1, <[k := mkEntry v None]> m)
      | _ => Ok (Integer 0, m)
      end
  end.

(** ** Budgets *)

(** The payload bytes of a table. *)
Definition total (m : table) : Z := map_fold (fun k e n => charge k e + n) 0 m.

Definition within_budget (l : ShardLimits) (m : table) : Prop :=
  Z.of_nat (size m) <= max_keys l /\ total m <= max_payload_bytes l.

#[export] Instance within_budget_dec l m : Decision (within_budget l m).
Proof. unfold within_budget. apply _. Defined.

(** What a call on a shard with entries [m] answers, and its new entries: the
    specification, on the live entries, within the budgets.  The due entries the
    call does not name stay and count. *)
Definition outcome (reserve : bool) (l : ShardLimits) (m : table) (op : Operation) (now_ms : Z) :
    res EngineError (Reply * table) :=
  if negb reserve then failure "OOM could not reserve command effects"
  else
    '(r, m') ← spec_exec (live_at now_ms m) op now_ms;
    if reply_too_long l r then failure "ERR response exceeds configured limit"
    else
      let after := m' ∪ leftover now_ms (keys op) m in
      if decide (within_budget l after) then Ok (r, after)
      else failure "OOM owner key or payload budget exhausted".

(** ** Traces

    A shard serves calls and sweeps in some order, with its clock's readings. *)

Inductive event := Call (op : Operation) (now_ms : Z) | Sweep (now_ms : Z) (budget : nat).

Definition event_time (ev : event) : Z :=
  match ev with Call _ now_ms | Sweep now_ms _ => now_ms end.

(** The errors by which budgets, and not the operation, refuse a call. *)
Definition refusal (e : EngineError) : Prop :=
  engine_message e ∈ ["OOM could not reserve command effects";
                       "ERR response exceeds configured limit";
                       "OOM owner key or payload budget exhausted"]%string.

(** A call on a table, whatever the budgets: it is executed as specified, fails
    as specified, or is refused, and then nothing changes. *)
Inductive served (m : table) (op : Operation) (now_ms : Z) : Reply -> table -> Prop :=
| served_done r m' :
    spec_exec (live_at now_ms m) op now_ms = Ok (r, m') -> served m op now_ms r m'
| served_failed e :
    spec_exec (live_at now_ms m) op now_ms = Err e -> served m op now_ms (engine_error_reply e) m
| served_refused e : refusal e -> served m op now_ms (engine_error_reply e) m.

(** The calls of a trace, in order; sweeps are invisible. *)
Inductive serves : table -> list event -> list Reply -> Prop :=
| serves_nil m : serves m [] []
| serves_call m op now_ms r m' evs rs :
    served m op now_ms r m' -> serves m' evs rs -> serves m (Call op now_ms :: evs) (r :: rs)
| serves_sweep m now_ms budget evs rs :
    serves m evs rs -> serves m (Sweep now_ms budget :: evs) rs.

(** The clock does not go back. *)
Fixpoint clock_from (t : Z) (evs : list event) : Prop :=
  match evs with
  | [] => True
  | ev :: evs => t <= event_time ev <= i64_max /\ clock_from (event_time ev) evs
  end.

(** What the shard does with a trace. *)
Fixpoint shard_run {I} `{TimerIndex I} (reserve : allocator)
    (s : Shard I) (evs : list event) : option (list Reply) :=
  match evs with
  | [] => Some []
  | Call op now_ms :: evs =>
      match execute reserve s op now_ms with
      | Ok (s, r) => rs ← shard_run reserve s evs; Some (r :: rs)
      | Err e => rs ← shard_run reserve s evs; Some (engine_error_reply e :: rs)
      | Panic => None
      end
  | Sweep now_ms budget :: evs =>
      '(s, _) ← expire_due s now_ms budget; shard_run reserve s evs
  end.
