(* ===== verification/StoreLemmas.v ===== *)
(** * Lemmas on the table, the effects and their accounting

    Live entries, what committing effects does to a table, and the payload of a
    table ([total]) under insertion and deletion. *)

From S2P Require Import Prelude Bytes Protocol Command CommandLemmas Expiry Store StoreSpec.

Local Open Scope Z_scope.

(** ** Live entries *)

Lemma live_at_lookup_Some now m k e :
  live_at now m !! k = Some e <-> m !! k = Some e /\ due_at e now = false.
Proof. apply map_lookup_filter_Some. Qed.

Lemma live_at_lookup now m k :
  live_at now m !! k = match m !! k with
                       | Some e => if due_at e now then None else Some e
                       | None => None
                       end.
Proof.
  apply option_eq. intros e. rewrite live_at_lookup_Some.
  destruct (m !! k) as [e'|]; [|split; [by intros []|done]].
  destruct (due_at e' now) eqn:He; (split; [intros [[= ->] ?]; congruence|]); [done|].
  by intros [= ->].
Qed.

Lemma leftover_lookup now ks m k :
  leftover now ks m !! k =
    match m !! k with
    | Some e => if due_at e now then if decide (k ∈ ks) then None else Some e else None
    | None => None
    end.
Proof.
  apply option_eq. intros e. unfold leftover. rewrite map_lookup_filter_Some. simpl.
  destruct (m !! k) as [e'|]; [|split; [by intros []|done]].
  destruct (due_at e' now) eqn:He; [case_decide|];
    (split; [intros ([= ->] & ? & ?); congruence|]); try done. by intros [= ->].
Qed.

Lemma due_at_mono e t t' : t <= t' -> due_at e t = true -> due_at e t' = true.
Proof. unfold due_at. destruct (expires_at_ms e); [|done]. rewrite !Z.leb_le. lia. Qed.

Lemma live_at_live_at t t' m : t <= t' -> live_at t' (live_at t m) = live_at t' m.
Proof.
  intros Ht. apply map_eq. intros k. rewrite !live_at_lookup.
  destruct (m !! k) as [e|]; [|done]. destruct (due_at e t) eqn:He; [|done].
  by rewrite (due_at_mono _ _ _ Ht He).
Qed.

Lemma live_at_leftover t t' ks m : t <= t' -> live_at t' (leftover t ks m) = ∅.
Proof.
  intros Ht. apply map_eq. intros k. rewrite live_at_lookup, leftover_lookup, lookup_empty.
  destruct (m !! k) as [e|]; [|done]. destruct (due_at e t) eqn:He; [|done].
  case_decide; [done|]. by rewrite (due_at_mono _ _ _ Ht He).
Qed.

(** [m'] agrees with the live entries of [m] outside [ks]. *)
Definition frames (now : Z) (ks : list bytes) (m m' : table) : Prop :=
  forall k, k ∉ ks -> m' !! k = live_at now m !! k.

Lemma live_at_union t t' ks m m' : t <= t' -> frames t ks m m' ->
  live_at t' (m' ∪ leftover t ks m) = live_at t' m'.
Proof.
  intros Ht Hf. apply map_eq. intros k. rewrite !live_at_lookup, lookup_union, leftover_lookup.
  destruct (m' !! k) as [e|] eqn:Hk; [by rewrite union_Some_l|]. rewrite (left_id_L None _).
  destruct (m !! k) as [e|]; [|done]. destruct (due_at e t) eqn:He; [|done].
  case_decide; [done|]. by rewrite (due_at_mono _ _ _ Ht He).
Qed.

(** ** Effects *)

(** The table after the effects. *)
Definition commit (eff : effect_map) (m : table) : table :=
  merge (fun next old => match next with Some n => n | None => old end) eff m.

Lemma commit_lookup eff m k :
  commit eff m !! k = match eff !! k with Some n => n | None => m !! k end.
Proof. unfold commit. rewrite lookup_merge. by destruct (eff !! k), (m !! k). Qed.

Lemma commit_empty m : commit ∅ m = m.
Proof. apply map_eq. intros k. by rewrite commit_lookup, lookup_empty. Qed.

Definition step_effect (m : table) (kn : bytes * option Entry) : table :=
  match kn.2 with Some e => <[kn.1 := e]> m | None => delete kn.1 m end.

Lemma step_effect_lookup m k n k' :
  step_effect m (k, n) !! k' = if decide (k = k') then n else m !! k'.
Proof.
  unfold step_effect. case_decide; subst; destruct n; simpl;
    by rewrite ?lookup_insert_eq, ?lookup_delete_eq, ?lookup_insert_ne, ?lookup_delete_ne.
Qed.

Lemma commit_insert k n eff m : commit (<[k := n]> eff) m = step_effect (commit eff m) (k, n).
Proof.
  apply map_eq. intros k'. rewrite commit_lookup, step_effect_lookup, commit_lookup.
  case_decide; subst; by rewrite ?lookup_insert_eq, ?lookup_insert_ne.
Qed.

(** Installing a list of effects, each key once. *)
Lemma foldl_step_effect l m : NoDup l.*1 ->
  foldl step_effect m l = commit (list_to_map l) m.
Proof.
  revert m. induction l as [|[k n] l IH]; intros m Hl; [by rewrite commit_empty|].
  cbn [fmap list_fmap fst] in Hl. apply NoDup_cons in Hl as [Hk Hl]. cbn [foldl list_to_map foldr].
  rewrite IH by done. apply map_eq. intros k'.
  change (list_to_map ((k, n) :: l)) with (<[k := n]> (list_to_map (M := gmap bytes (option Entry)) l)).
  rewrite !commit_lookup, step_effect_lookup.
  destruct (decide (k = k')) as [<-|]; [|by rewrite lookup_insert_ne].
  rewrite lookup_insert_eq. by apply not_elem_of_list_to_map in Hk as ->.
Qed.

Lemma commit_effects eff l m : l ≡ₚ map_to_list eff -> foldl step_effect m l = commit eff m.
Proof.
  intros Hl. assert (NoDup l.*1) by (rewrite Hl; apply NoDup_fst_map_to_list).
  rewrite foldl_step_effect by done.
  by rewrite (list_to_map_proper l (map_to_list eff)), list_to_map_to_list.
Qed.

(** ** Accounting *)

Lemma charge_nonneg k e : 0 <= charge k e.
Proof. unfold charge. lia. Qed.

Lemma total_empty : total ∅ = 0.
Proof. apply map_fold_empty. Qed.

Lemma total_insert m k e : m !! k = None -> total (<[k := e]> m) = charge k e + total m.
Proof. intros Hk. unfold total. rewrite map_fold_insert_L; [done|intros; lia|done]. Qed.

Lemma total_delete m k e : m !! k = Some e -> total (delete k m) = total m - charge k e.
Proof.
  intros Hk. rewrite <- (insert_delete_id m k e) at 2 by done.
  rewrite total_insert by apply lookup_delete_eq. lia.
Qed.

Lemma total_nonneg m : 0 <= total m.
Proof.
  induction m as [|k e m Hk IH] using map_ind; [by rewrite total_empty|].
  rewrite total_insert by done. assert (H := charge_nonneg k e). lia.
Qed.

Lemma total_delete_le m k : total (delete k m) <= total m.
Proof.
  destruct (m !! k) as [e|] eqn:Hk; [|by rewrite delete_id].
  rewrite (total_delete m k e) by done. assert (H := charge_nonneg k e). lia.
Qed.

Lemma size_delete_Z (m : table) k :
  Z.of_nat (size (delete k m)) = Z.of_nat (size m) - (if m !! k is Some _ then 1 else 0).
Proof.
  assert (Hs := map_size_delete k m). destruct (m !! k) as [e|] eqn:He; rewrite Hs; [|unfold id; lia].
  assert (size m <> 0%nat); [|lia]. intros E%map_size_empty_inv. by subst.
Qed.

Section Account.
Context {I : Type} `{TimerIndex I}.
Implicit Types s : Shard I.

(** One round of the accounting is exact, on a table that has the old entry. *)
Lemma account_step s m k n : m !! k = entries s !! k ->
  account s (Z.of_nat (size m), total m) (k, n) =
    (Z.of_nat (size (step_effect m (k, n))), total (step_effect m (k, n))).
Proof.
  intros Hk. unfold account. rewrite <- Hk.
  assert (Hs := size_delete_Z m k).
  assert (total (delete k m) = total m - match m !! k with Some e => charge k e | None => 0 end) as Ht.
  { destruct (m !! k) as [e|] eqn:He; [by apply total_delete|rewrite delete_id by done; lia]. }
  destruct n as [e|]; cbn [step_effect fst snd].
  - rewrite <- insert_delete_eq, map_size_insert_None, total_insert by apply lookup_delete_eq.
    destruct (m !! k); f_equal; lia.
  - destruct (m !! k); f_equal; lia.
Qed.

Lemma account_all s l m : NoDup l.*1 -> (forall k, k ∈ l.*1 -> m !! k = entries s !! k) ->
  foldl (account s) (Z.of_nat (size m), total m) l =
    (Z.of_nat (size (foldl step_effect m l)), total (foldl step_effect m l)).
Proof.
  revert m. induction l as [|[k n] l IH]; intros m Hl Hm; [done|].
  cbn [fmap list_fmap fst] in Hl, Hm. apply NoDup_cons in Hl as [Hk Hl]. cbn [foldl].
  rewrite account_step by (apply Hm; constructor). apply IH; [done|].
  intros k' Hk'. rewrite step_effect_lookup. case_decide; [by subst|].
  apply Hm. by constructor.
Qed.

Lemma account_effects s eff : shard_payload s = total (entries s) ->
  foldl (account s) (Z.of_nat (size (entries s)), shard_payload s) (map_to_list eff) =
    (Z.of_nat (size (commit eff (entries s))), total (commit eff (entries s))).
Proof.
  intros ->. rewrite account_all, (commit_effects eff) by (done || apply NoDup_fst_map_to_list).
  done.
Qed.
End Account.
