(* ===== verification/StoreEffects.v ===== *)
(** * The effects of an operation are those of its specification

    [respond_spec]: on a shard, [Store.respond] answers what [StoreSpec.spec_exec]
    answers on the live entries, and committing its effects gives the specified
    table and the due entries it does not name. *)

From S2P Require Import Prelude Bytes Protocol Command CommandLemmas Expiry Store StoreSpec StoreLemmas.

Local Open Scope Z_scope.

Section Respond.
Context {I : Type} `{TimerIndex I}.
Implicit Types (s : Shard I) (eff : effect_map) (now : Z) (k : bytes) (ks : list bytes).

(** The live entries of a shard. *)
Definition live s now : table := live_at now (entries s).

(** The due entries among [ks], and only they, became removals. *)
Definition observed s now ks eff eff' : Prop := forall k,
  eff' !! k = match entries s !! k with
              | Some e => if due_at e now then if decide (k ∈ ks) then Some None else eff !! k
                          else eff !! k
              | None => eff !! k
              end.

Lemma observed_nil s now eff : observed s now [] eff eff.
Proof.
  intros k. destruct (entries s !! k) as [e|]; [|done]. destruct (due_at e now); [|done].
  case_decide as Hk; [|done]. by apply not_elem_of_nil in Hk.
Qed.

Lemma observed_cons s now k ks eff eff1 eff2 :
  observed s now [k] eff eff1 -> observed s now ks eff1 eff2 -> observed s now (k :: ks) eff eff2.
Proof.
  intros H1 H2 k'. rewrite (H2 k'), (H1 k').
  destruct (entries s !! k') as [e|]; [|done]. destruct (due_at e now); [|done].
  destruct (decide (k' ∈ ks)), (decide (k' ∈ [k])), (decide (k' ∈ k :: ks)); set_solver.
Qed.

Lemma observe_spec s k now eff :
  exists eff', observe s k now eff = (live s now !! k, eff') /\ observed s now [k] eff eff'.
Proof.
  unfold observe, live. rewrite live_at_lookup.
  destruct (entries s !! k) as [e|] eqn:Hk; [destruct (due_at e now) eqn:He|].
  - eexists. split; [done|]. intros k'. destruct (decide (k = k')) as [<-|Hne].
    + rewrite lookup_insert_eq, Hk, He, decide_True; [done|by constructor].
    + rewrite lookup_insert_ne by done.
      destruct (entries s !! k') as [e'|]; [|done]. destruct (due_at e' now); [|done].
      rewrite decide_False; [done|]. by intros ->%list_elem_of_singleton.
  - eexists. split; [done|]. intros k'. destruct (entries s !! k') as [e'|] eqn:Hk'; [|done].
    destruct (due_at e' now) eqn:He'; [|done]. rewrite decide_False; [done|].
    intros ->%list_elem_of_singleton. congruence.
  - eexists. split; [done|]. intros k'. destruct (entries s !! k') as [e'|] eqn:Hk'; [|done].
    destruct (due_at e' now) eqn:He'; [|done]. rewrite decide_False; [done|].
    intros ->%list_elem_of_singleton. congruence.
Qed.

Lemma commit_observed s now ks eff : observed s now ks ∅ eff ->
  commit eff (entries s) = live s now ∪ leftover now ks (entries s).
Proof.
  intros Ho. apply map_eq. intros k. unfold live.
  rewrite commit_lookup, (Ho k), lookup_empty, lookup_union, live_at_lookup, leftover_lookup.
  destruct (entries s !! k) as [e|]; [|done].
  destruct (due_at e now); [case_decide|]; done.
Qed.

Lemma observe_empty s k now : exists eff,
  observe s k now ∅ = (live s now !! k, eff) /\
  commit eff (entries s) = live s now ∪ leftover now [k] (entries s).
Proof.
  destruct (observe_spec s k now ∅) as (eff & -> & Ho). exists eff. split; [done|].
  by apply commit_observed.
Qed.

Lemma leftover_not_elem now ks m k : k ∈ ks -> leftover now ks m !! k = None.
Proof.
  intros Hk. rewrite leftover_lookup. destruct (m !! k) as [e|]; [|done].
  destruct (due_at e now); [|done]. by rewrite decide_True.
Qed.

(** An assignment or a removal on top of the observed table. *)
Lemma commit_step s now k n eff m :
  commit eff (entries s) = m ∪ leftover now [k] (entries s) ->
  commit (<[k := n]> eff) (entries s) =
    step_effect m (k, n) ∪ leftover now [k] (entries s).
Proof.
  intros Hc. rewrite commit_insert, Hc. apply map_eq. intros k'.
  rewrite step_effect_lookup, !lookup_union, step_effect_lookup.
  case_decide as E; [|done]. subst k'.
  rewrite leftover_not_elem by (by constructor). by rewrite (right_id_L None _).
Qed.

Lemma commit_assign s now k e eff m :
  commit eff (entries s) = m ∪ leftover now [k] (entries s) ->
  commit (<[k := Some e]> eff) (entries s) = <[k := e]> m ∪ leftover now [k] (entries s).
Proof. apply (commit_step s now k (Some e)). Qed.

Lemma commit_remove s now k eff m :
  commit eff (entries s) = m ∪ leftover now [k] (entries s) ->
  commit (<[k := None]> eff) (entries s) = delete k m ∪ leftover now [k] (entries s).
Proof. apply (commit_step s now k None). Qed.

Lemma count_existing_spec s now ks eff : exists eff',
  count_existing s now ks eff =
    (zlen (filter (fun k => is_Some (live s now !! k)) ks), eff') /\
  observed s now ks eff eff'.
Proof.
  revert eff. induction ks as [|k ks IH]; intros eff; [eexists; split; [done|apply observed_nil]|].
  cbn [count_existing]. destruct (observe_spec s k now eff) as (eff1 & -> & H1).
  destruct (IH eff1) as (eff2 & -> & H2). exists eff2. split; [|by eapply observed_cons].
  rewrite filter_cons. destruct (live s now !! k) as [e|].
  - rewrite decide_True by eauto. f_equal. cbn [length]. lia.
  - rewrite decide_False by (by intros []). done.
Qed.

Lemma get_values_spec s now ks eff : exists eff',
  get_values s now ks eff = ((fun k => Bulk (value <$> live s now !! k)) <$> ks, eff') /\
  observed s now ks eff eff'.
Proof.
  revert eff. induction ks as [|k ks IH]; intros eff; [eexists; split; [done|apply observed_nil]|].
  cbn [get_values]. destruct (observe_spec s k now eff) as (eff1 & -> & H1).
  destruct (IH eff1) as (eff2 & -> & H2). exists eff2. split; [done|by eapply observed_cons].
Qed.

(** The live entries DEL has not met yet. *)
Definition unmet s now eff : table := filter (fun kv => eff !! kv.1 = None) (live s now).

Lemma unmet_lookup s now eff k :
  unmet s now eff !! k = match eff !! k with Some _ => None | None => live s now !! k end.
Proof.
  apply option_eq. intros e. unfold unmet. rewrite map_lookup_filter_Some. simpl.
  destruct (eff !! k); split; [by intros []|done|by intros []|done].
Qed.

Lemma unmet_insert s now eff k n : unmet s now (<[k := n]> eff) = delete k (unmet s now eff).
Proof.
  apply map_eq. intros k'. rewrite unmet_lookup. destruct (decide (k = k')) as [<-|].
  - by rewrite lookup_insert_eq, lookup_delete_eq.
  - by rewrite lookup_insert_ne, lookup_delete_ne, unmet_lookup.
Qed.

Lemma observe_then_delete s k now eff :
  exists eff1, observe s k now eff = (live s now !! k, eff1) /\
    <[k := None]> eff1 = <[k := None]> eff.
Proof.
  unfold observe, live. rewrite live_at_lookup.
  destruct (entries s !! k) as [e|]; [destruct (due_at e now)|]; eexists; (split; [done|]);
    by rewrite ?insert_insert_eq.
Qed.

Lemma delete_keys_spec s now ks removed eff : exists eff',
  delete_keys s now ks removed eff =
    (removed + (Z.of_nat (size (unmet s now eff))
      - Z.of_nat (size (filter (fun kv => kv.1 ∉ ks) (unmet s now eff)))), eff') /\
  forall k, eff' !! k = match eff !! k with
                        | Some n => Some n
                        | None => if decide (k ∈ ks) then Some None else None
                        end.
Proof.
  revert removed eff. induction ks as [|k ks IH]; intros removed eff.
  { exists eff. split; [|by intros k; destruct (eff !! k); [|rewrite decide_False by set_solver]].
    cbn [delete_keys]. f_equal. rewrite map_filter_id; [lia|set_solver]. }
  cbn [delete_keys]. case_decide as Hk.
  - destruct Hk as [n Hk]. destruct (IH removed eff) as (eff' & -> & Heff). exists eff'. split.
    + do 4 f_equal. apply f_equal, map_filter_ext. intros k' e Hk'. simpl.
      rewrite unmet_lookup in Hk'. destruct (decide (k' = k)) as [->|]; [by rewrite Hk in Hk'|].
      set_solver.
    + intros k'. rewrite Heff. destruct (decide (k' = k)) as [->|]; [by rewrite Hk|].
      destruct (eff !! k'); [done|].
      destruct (decide (k' ∈ ks)), (decide (k' ∈ k :: ks)); set_solver.
  - rewrite <- eq_None_not_Some in Hk.
    destruct (observe_then_delete s k now eff) as (eff1 & -> & ->).
    match goal with |- context [delete_keys s now ks ?r ?e] => destruct (IH r e) as (eff' & -> & Heff) end.
    exists eff'. split.
    + f_equal. rewrite unmet_insert, size_delete_Z, unmet_lookup, Hk.
      replace (filter (fun kv => kv.1 ∉ ks) (delete k (unmet s now eff)))
        with (filter (fun kv => kv.1 ∉ k :: ks) (unmet s now eff)).
      * destruct (live s now !! k); lia.
      * apply map_eq. intros k'. apply option_eq. intros e.
        rewrite !map_lookup_filter_Some, lookup_delete_Some. simpl. set_solver.
    + intros k'. rewrite Heff. destruct (decide (k = k')) as [<-|].
      * rewrite lookup_insert_eq, Hk, decide_True; [done|by constructor].
      * rewrite lookup_insert_ne by done. destruct (eff !! k'); [done|].
        destruct (decide (k' ∈ ks)), (decide (k' ∈ k :: ks)); set_solver.
Qed.

(** Several assignments, the last one of a key wins. *)
Lemma commit_set_pairs pairs eff m :
  commit (set_pairs pairs eff) m =
    foldl (fun m p => <[p.1 := mkEntry p.2 None]> m) (commit eff m) pairs.
Proof.
  revert eff. induction pairs as [|p pairs IH]; intros eff; [done|].
  unfold set_pairs in *. cbn [foldl]. rewrite IH, commit_insert. done.
Qed.

Lemma foldl_assign_ne (pairs : list (bytes * bytes)) (m : table) k : k ∉ pairs.*1 ->
  foldl (fun m p => <[p.1 := mkEntry p.2 None]> m) m pairs !! k = m !! k.
Proof.
  revert m. induction pairs as [|p pairs IH]; intros m Hk; [done|].
  cbn [foldl fmap list_fmap] in *. rewrite IH by set_solver. apply lookup_insert_ne. set_solver.
Qed.

Lemma foldl_assign_eq (pairs : list (bytes * bytes)) (m m' : table) k : k ∈ pairs.*1 ->
  foldl (fun m p => <[p.1 := mkEntry p.2 None]> m) m pairs !! k =
  foldl (fun m p => <[p.1 := mkEntry p.2 None]> m) m' pairs !! k.
Proof.
  revert m m'. induction pairs as [|p pairs IH]; intros m m' Hk; [by apply not_elem_of_nil in Hk|].
  cbn [foldl]. destruct (decide (k ∈ pairs.*1)) as [|Hn]; [by apply IH|].
  rewrite !foldl_assign_ne by done. cbn [fmap list_fmap] in Hk.
  assert (k = p.1) as -> by set_solver. by rewrite !lookup_insert_eq.
Qed.

(** The response and the effects of an operation are as specified. *)
Definition respond_ok s (op : Operation) now : Prop :=
  match spec_exec (live s now) op now with
  | Ok (r, m') => exists eff, respond s op now = Ok (r, eff) /\
      commit eff (entries s) = m' ∪ leftover now (keys op) (entries s)
  | Err e => respond s op now = Err e
  | Panic => False
  end.

Lemma respond_set s k v c e now : respond_ok s (Set_ k v c e) now.
Proof.
  unfold respond_ok. cbn [spec_exec respond keys].
  destruct (observe_empty s k now) as (eff & -> & Hc).
  set (old := live s now !! k) in *. clearbody old.
  assert (spec_deadline e old now = match e with
    | Clear => Ok None
    | Keep => Ok (old ≫= expires_at_ms)
    | AfterMilliseconds duration =>
        match checked_i64 (now + duration) with
        | Some d => if 0 <? duration then Ok (Some d)
                    else failure "ERR invalid expire time in 'set' command"
        | None => failure "ERR invalid expire time in 'set' command"
        end
    end) as <-.
  { destruct e as [| |d]; [done..|]. unfold spec_deadline, checked_i64.
    destruct (in_i64 (now + d)); [|by rewrite andb_false_r]. by rewrite andb_true_r. }
  destruct (spec_deadline e old now) as [d|err|] eqn:Hd; [|done|].
  - cbn [mbind res_bind]. destruct c, old as [entry|];
      repeat first [rewrite bool_decide_eq_true_2 by (done || by eexists)
                   |rewrite bool_decide_eq_false_2 by (done || by intros [])];
      cbn [allows andb orb]; eexists; (split; [reflexivity|]);
      (exact Hc || by apply commit_assign).
  - exfalso. destruct e; simpl in Hd; try done. by destruct (_ && _).
Qed.

Lemma spec_number_spec old : spec_number old = match old with
  | Some entry => map_err (fun e => mkEngineError (command_message e)) (integer (value entry))
  | None => Ok 0
  end.
Proof.
  destruct old as [[v d]|]; [|done]. cbn [spec_number value].
  destruct (integer v) as [n|e|] eqn:Hv; [done| |].
  - unfold integer, command_error in Hv.
    repeat split_match_in Hv; try discriminate; by injection Hv as <-.
  - assert (Hp := integer_no_panic v). by rewrite Hv in Hp.
Qed.

Lemma respond_increment s k n sub now : respond_ok s (Increment k n sub) now.
Proof.
  unfold respond_ok. cbn [spec_exec respond keys].
  destruct (sub && (n =? i64_min)); [done|].
  destruct (observe_empty s k now) as (eff & -> & Hc).
  set (old := live s now !! k) in *. clearbody old. rewrite <- spec_number_spec.
  destruct (spec_number old) as [c|e|] eqn:Hn; [|done|].
  - cbn [mbind res_bind]. unfold checked_i64. destruct (in_i64 _); [|done].
    eexists. split; [reflexivity|]. by apply commit_assign.
  - destruct old as [entry|]; [|done]. simpl in Hn. by destruct (integer _).
Qed.

Lemma respond_delete s ks now : respond_ok s (Delete ks) now.
Proof.
  unfold respond_ok. cbn [spec_exec respond keys].
  destruct (delete_keys_spec s now ks 0 ∅) as (eff & -> & Heff).
  assert (unmet s now ∅ = live s now) as ->.
  { apply map_eq. intros k. by rewrite unmet_lookup, lookup_empty. }
  eexists. split; [reflexivity|]. apply map_eq. intros k.
  rewrite commit_lookup, Heff, lookup_empty, lookup_union, leftover_lookup.
  assert (filter (fun kv => kv.1 ∉ ks) (live s now) !! k =
    if decide (k ∈ ks) then None else live s now !! k) as ->.
  { apply option_eq. intros entry. rewrite map_lookup_filter_Some. simpl. case_decide; naive_solver. }
  unfold live. rewrite live_at_lookup.
  destruct (decide (k ∈ ks)) as [?|?]; destruct (entries s !! k) as [entry|]; try done; by destruct (due_at entry now).
Qed.

Lemma respond_multi_set s pairs now : respond_ok s (MultiSet pairs) now.
Proof.
  unfold respond_ok. cbn [spec_exec respond keys]. eexists. split; [reflexivity|].
  rewrite commit_set_pairs, commit_empty. apply map_eq. intros k. rewrite lookup_union.
  destruct (decide (k ∈ pairs.*1)) as [Hk|Hk].
  - rewrite leftover_not_elem, (right_id_L None _) by done. by apply foldl_assign_eq.
  - rewrite !foldl_assign_ne by done. unfold live. rewrite live_at_lookup, leftover_lookup.
    destruct (entries s !! k) as [e|]; [|done]. rewrite decide_False by done.
    by destruct (due_at e now).
Qed.

Lemma respond_expire s k n now : respond_ok s (Command.Expire k n) now.
Proof.
  unfold respond_ok. cbn [spec_exec respond keys].
  destruct (observe_empty s k now) as (eff & -> & Hc).
  destruct (live s now !! k) as [entry|] eqn:Hk; [|by eauto].
  destruct (n <=? 0); [eexists; split; [reflexivity|]; by apply commit_remove|].
  unfold checked_i64. destruct (in_i64 _); [|done].
  eexists. split; [reflexivity|]. by apply commit_assign.
Qed.

Lemma ttl_spec s k milliseconds now :
  match live s now !! k with
  | None => -2
  | Some entry =>
      match expires_at_ms entry with
      | None => -1
      | Some d =>
          let remaining := saturating_i64 (d - now) in
          if (milliseconds : bool) then remaining
          else Z.quot remaining 1000 + (if 500 <=? Z.rem remaining 1000 then 1 else 0)
      end
  end = spec_ttl (live s now !! k) milliseconds now.
Proof.
  unfold live. destruct (live_at now (entries s) !! k) as [entry|] eqn:Hk; [|done].
  apply live_at_lookup_Some in Hk as [_ Hd]. unfold spec_ttl, due_at in *.
  destruct (expires_at_ms entry) as [d|]; [|done]. zhyps. cbn zeta.
  assert (saturating_i64 (d - now) = Z.min i64_max (d - now)) as -> by (unfold saturating_i64; int_lia).
  destruct milliseconds; [done|]. set (r := Z.min _ _). assert (0 < r) by int_lia.
  rewrite Z.quot_div_nonneg, Z.rem_mod_nonneg by lia. zcase; Z.to_euclidean_division_equations; lia.
Qed.

Lemma respond_spec s op now : respond_ok s op now.
Proof.
  destruct op as [k|k v c e|k n sub|ks|ks|ks|pairs|k n|k ms|k].
  - unfold respond_ok. cbn [spec_exec respond keys].
    destruct (observe_empty s k now) as (eff & -> & Hc). by eauto.
  - apply respond_set.
  - apply respond_increment.
  - apply respond_delete.
  - unfold respond_ok. cbn [spec_exec respond keys].
    destruct (count_existing_spec s now ks ∅) as (eff & -> & Ho).
    eexists. split; [reflexivity|]. by apply commit_observed.
  - unfold respond_ok. cbn [spec_exec respond keys].
    destruct (get_values_spec s now ks ∅) as (eff & -> & Ho).
    eexists. split; [reflexivity|]. by apply commit_observed.
  - apply respond_multi_set.
  - apply respond_expire.
  - unfold respond_ok. cbn [spec_exec respond keys].
    destruct (observe_empty s k now) as (eff & -> & Hc). cbn zeta. rewrite ttl_spec. by eauto.
  - unfold respond_ok. cbn [spec_exec respond keys].
    destruct (observe_empty s k now) as (eff & -> & Hc).
    destruct (live s now !! k) as [[v [d|]]|] eqn:Hk; [|by eauto..].
    eexists. split; [reflexivity|]. by apply commit_assign.
Qed.
End Respond.

(** An operation leaves the keys it does not name alone. *)
Lemma spec_exec_frame m op now r m' k :
  spec_exec m op now = Ok (r, m') -> k ∉ keys op -> m' !! k = m !! k.
Proof.
  destruct op as [k0|k0 v c e|k0 n sub|ks|ks|ks|pairs|k0 n|k0 ms|k0]; cbn [spec_exec keys]; intros H Hk.
  all: try (injection H as <- <-; done).
  all: try (assert (k0 <> k) as Hne by (intros ->; apply Hk; constructor)).
  - apply bind_Ok in H as (d & _ & H). destruct (allows _ _); injection H as <- <-; [|done].
    by apply lookup_insert_ne.
  - destruct (_ && _); [done|]. apply bind_Ok in H as (c & _ & H). destruct (in_i64 _); [|done].
    injection H as <- <-. by apply lookup_insert_ne.
  - injection H as <- <-. apply option_eq. intros e. rewrite map_lookup_filter_Some. naive_solver.
  - injection H as <- <-. by apply foldl_assign_ne.
  - destruct (m !! k0); [|by injection H as <- <-].
    destruct (_ <=? _); [injection H as <- <-; by apply lookup_delete_ne|].
    destruct (in_i64 _); [|done]. injection H as <- <-. by apply lookup_insert_ne.
  - destruct (m !! k0) as [[v [d|]]|]; injection H as <- <-; [|done..]. by apply lookup_insert_ne.
Qed.
