(* ===== verification/StoreInvariant.v ===== *)
(** * The invariant of a shard and its preservation

    [shard_ok]: the index holds exactly the deadlines of the table, the payload
    is accounted exactly, and every counter and budget is respected.  The two
    phases of a call ([prepare_spec], [apply_spec]) and one removal of
    [expire_due] ([expire_step_spec]) keep it without panicking. *)

From S2P Require Import Prelude Bytes Protocol Command CommandLemmas Expiry Store StoreSpec.
From S2P Require Import StoreLemmas StoreEffects.

Local Open Scope Z_scope.

(** Limits [new_shard] accepts, as [usize] values. *)
Definition shard_limits_ok (l : ShardLimits) : Prop :=
  0 < max_keys l <= usize_max /\ 0 < max_payload_bytes l <= usize_max /\
  64 <= max_reply_bytes l <= usize_max.

Definition deadlines (m : table) : gmap bytes Z := omap expires_at_ms m.

Lemma deadlines_insert_Some m k v d :
  deadlines (<[k := mkEntry v (Some d)]> m) = <[k := d]> (deadlines m).
Proof. unfold deadlines. by rewrite (omap_insert_Some _ _ _ _ d). Qed.

Lemma deadlines_insert_None m k v :
  deadlines (<[k := mkEntry v None]> m) = delete k (deadlines m).
Proof. unfold deadlines. by rewrite omap_insert_None. Qed.

Lemma deadlines_delete m k : deadlines (delete k m) = delete k (deadlines m).
Proof. apply omap_delete. Qed.

Lemma deadlines_lookup m k d : deadlines m !! k = Some d <->
  exists e, m !! k = Some e /\ expires_at_ms e = Some d.
Proof. unfold deadlines. rewrite lookup_omap_Some. naive_solver. Qed.

Section Invariant.
Context {I : Type} `{Laws : TimerIndexLaws I}.
Implicit Types (s : Shard I) (eff : effect_map) (now : Z).

Record shard_ok s : Prop := {
  ok_limits : shard_limits_ok (limits s);
  ok_index : timers_ok (expiry s);
  ok_timers : timers (expiry s) = deadlines (entries s);
  ok_payload : shard_payload s = total (entries s);
  ok_budget : within_budget (limits s) (entries s);
  ok_revision : 0 <= revision s <= usize_max;
  ok_expired : 0 <= expired_keys s <= usize_max;
  ok_applied : 0 <= applied_commands s <= usize_max;
}.

(** ** Preparation *)

Definition prepared_ok s (p : Prepared) : Prop :=
  prepared_revision p = revision s /\
  payload_after p = total (commit (effects p) (entries s)) /\
  within_budget (limits s) (commit (effects p) (entries s)).

(** [preflight] is exact: it accepts exactly the effects within the budgets. *)
Lemma preflight_spec s eff r : shard_ok s ->
  preflight s eff r =
    if reply_too_long (limits s) r then failure "ERR response exceeds configured limit"
    else if decide (within_budget (limits s) (commit eff (entries s)))
    then Ok (mkPrepared (revision s) eff (total (commit eff (entries s))) r)
    else failure "OOM owner key or payload budget exhausted".
Proof.
  intros Hs. unfold preflight. destruct (reply_too_long _ _); [done|].
  rewrite account_effects by apply Hs. set (m := commit eff (entries s)).
  destruct (ok_limits s Hs) as (Hk & Hp & _). assert (Hm := total_nonneg m).
  case_decide as Hb; unfold within_budget in Hb.
  - rewrite !(proj2 (Z.ltb_ge _ _)) by lia. simpl.
    by rewrite (proj2 (checked_usize_Some (total m) (total m))) by lia.
  - destruct (_ || _) eqn:E; [done|]. zhyps. lia.
Qed.

Lemma prepare_spec reserve s op now : shard_ok s ->
  match outcome (reserve CommandEffects (length (keys op))) (limits s) (entries s) op now with
  | Ok (r, m) => exists p, prepare reserve s op now = Ok p /\ prepared_ok s p /\
      response p = r /\ commit (effects p) (entries s) = m
  | Err e => prepare reserve s op now = Err e
  | Panic => False
  end.
Proof.
  intros Hs. unfold outcome, prepare. destruct (negb _); [done|].
  assert (Hr := respond_spec s op now). unfold respond_ok, live in Hr.
  destruct (spec_exec (live_at now (entries s)) op now) as [[r m]|e|]; [|by rewrite Hr|done].
  destruct Hr as (eff & -> & Hc). cbn [mbind res_bind].
  rewrite preflight_spec, <- Hc by done. destruct (reply_too_long _ _); [done|].
  case_decide as Hb; [|done]. eexists. split; [reflexivity|]. done.
Qed.

(** ** Installation *)

Lemma install_spec x m kn : timers_ok x -> timers x = deadlines m ->
  exists x', install x m kn = Some (x', step_effect m kn) /\ timers_ok x' /\
    timers x' = deadlines (step_effect m kn).
Proof.
  intros Hx Hm. destruct kn as [k [[v [d|]]|]]; cbn [install expires_at_ms].
  - destruct (timer_set_spec x k d Hx) as (x' & -> & Hx' & Ht). exists x'.
    split_and!; [done..|]. by rewrite Ht, Hm, <- (deadlines_insert_Some m k v).
  - destruct (timer_remove_spec x k Hx) as (x' & -> & Hx' & Ht). exists x'.
    split_and!; [done..|]. by rewrite Ht, Hm, <- (deadlines_insert_None m k v).
  - destruct (timer_remove_spec x k Hx) as (x' & -> & Hx' & Ht). exists x'.
    split_and!; [done..|]. by rewrite Ht, Hm, <- (deadlines_delete m k).
Qed.

Lemma install_all_spec x m l : timers_ok x -> timers x = deadlines m ->
  exists x', install_all x m l = Some (x', foldl step_effect m l) /\ timers_ok x' /\
    timers x' = deadlines (foldl step_effect m l).
Proof.
  revert x m. induction l as [|kn l IH]; intros x m Hx Hm; [by eauto|].
  cbn [install_all]. destruct (install_spec x m kn Hx Hm) as (x' & -> & Hx' & Hm').
  by apply IH.
Qed.

(** What a call changes besides the table and the deadlines. *)
Definition advanced s s' (m : table) : Prop :=
  entries s' = m /\ limits s' = limits s /\ revision s' = revision s + 1 /\
  expired_keys s' = expired_keys s /\
  applied_commands s' = Z.min usize_max (applied_commands s + 1).

Lemma apply_spec s p order : shard_ok s -> prepared_ok s p -> revision s < usize_max ->
  order ≡ₚ map_to_list (effects p) ->
  exists s', apply_in_order s p order = Some (s', response p) /\ shard_ok s' /\
    advanced s s' (commit (effects p) (entries s)).
Proof.
  intros Hs (Hr & Hp & Hb) Hmax Hl. unfold apply_in_order. rewrite Hr, Z.eqb_refl. cbn [negb].
  destruct (install_all_spec (expiry s) (entries s) order) as (x & -> & Hx & Ht); [apply Hs..|].
  rewrite (commit_effects _ _ _ Hl) in Ht |- *. assert (Hrv := ok_revision s Hs).
  assert (Ha := ok_applied s Hs).
  cbn [mbind option_bind]. rewrite (proj2 (checked_usize_Some _ (revision s + 1))) by lia.
  eexists. split; [reflexivity|]. unfold saturating_usize. split.
  - constructor; simpl; try done; try (apply Hs); lia.
  - unfold advanced. simpl. split_and!; try done. lia.
Qed.

(** ** Removal of one due entry *)

Lemma timer_has_entry s k d : shard_ok s -> timers (expiry s) !! k = Some d ->
  exists e, entries s !! k = Some e /\ expires_at_ms e = Some d.
Proof. intros Hs. rewrite (ok_timers s Hs). apply deadlines_lookup. Qed.

Lemma no_timer_no_due s now : shard_ok s -> timer_expired (expiry s) now = None ->
  live_at now (entries s) = entries s.
Proof.
  intros Hs Hn. apply map_filter_id. intros k e Hk. simpl. unfold due_at.
  destruct (expires_at_ms e) as [d|] eqn:Hd; [|done]. apply Z.leb_gt.
  apply (timer_expired_None (expiry s) now (ok_index s Hs) Hn k d).
  rewrite (ok_timers s Hs). apply deadlines_lookup. eauto.
Qed.

Definition swept s s' (k : bytes) : Prop :=
  entries s' = delete k (entries s) /\ limits s' = limits s /\ revision s' = revision s + 1 /\
  expired_keys s' = Z.min usize_max (expired_keys s + 1) /\
  applied_commands s' = applied_commands s.

Lemma within_budget_delete l m k : within_budget l m -> within_budget l (delete k m).
Proof.
  unfold within_budget. intros [Hs Ht]. assert (H1 := total_delete_le m k).
  rewrite size_delete_Z. destruct (m !! k); lia.
Qed.

(** What one round of the loop finds and removes. *)
Lemma expire_step_spec s now k b n : shard_ok s -> revision s < usize_max ->
  timer_expired (expiry s) now = Some k ->
  exists e d s', entries s !! k = Some e /\ expires_at_ms e = Some d /\ d <= now /\
    (forall k' e' d', entries s !! k' = Some e' -> expires_at_ms e' = Some d' -> d <= d') /\
    expire_due_loop s now (S b) n = expire_due_loop s' now b (S n) /\
    shard_ok s' /\ swept s s' k.
Proof.
  intros Hs Hmax Hk.
  destruct (timer_expired_Some _ _ _ (ok_index s Hs) Hk) as (d & Ht & Hd & Hmin).
  destruct (timer_has_entry s k d Hs Ht) as (e & He & Hed).
  destruct (timer_remove_spec (expiry s) k (ok_index s Hs)) as (x & Hx & Hxok & Hxt).
  assert (Hpay := total_delete (entries s) k e He). assert (Hnn := total_nonneg (delete k (entries s))).
  assert (Hle := total_delete_le (entries s) k). assert (Hsp := ok_payload s Hs).
  destruct (ok_budget s Hs) as [Hbk Hbp]. destruct (ok_limits s Hs) as (_ & Hlp & _).
  assert (Hr := ok_revision s Hs). assert (Hx' := ok_expired s Hs).
  exists e, d. eexists. split_and!; [done..| | | |].
  - intros k' e' d' He' Hd'. apply (Hmin k'). rewrite (ok_timers s Hs). apply deadlines_lookup. eauto.
  - cbn [expire_due_loop]. rewrite Hk, Hx. cbn [mbind option_bind]. rewrite He.
    cbn [mbind option_bind]. unfold due_at. rewrite Hed, (proj2 (Z.leb_le _ _)) by lia. cbn [negb].
    rewrite (proj2 (checked_usize_Some (shard_payload s - charge k e) (shard_payload s - charge k e))) by lia.
    cbn [mbind option_bind]. rewrite (proj2 (checked_usize_Some _ (revision s + 1))) by lia.
    reflexivity.
  - unfold saturating_usize. constructor; simpl; try done; try (apply Hs); try lia.
    + by rewrite Hxt, (ok_timers s Hs), <- deadlines_delete.
    + by apply within_budget_delete, Hs.
  - unfold swept, saturating_usize. simpl. split_and!; try done. lia.
Qed.
End Invariant.
