(* ===== verification/StoreTheorems.v ===== *)
(** * A shard implements the table it promises

    Every call refines [StoreSpec.outcome], preserves the invariant, and does not
    depend on the order a hash map yields its effects; sweeps remove due entries
    only, earliest first, within their budget; and any trace of calls and sweeps
    is served as [StoreSpec.serves] says. *)

From S2P Require Import Prelude Bytes Protocol Command CommandLemmas CommandTheorems Expiry.
From S2P Require Import ExpiryLemmas ExpiryTheorems Store StoreSpec StoreLemmas StoreEffects StoreInvariant.

Local Open Scope Z_scope.

Section Calls.
Context {I : Type} `{Laws : TimerIndexLaws I}.
Implicit Types (s : Shard I) (now : Z).

(** Everything about a successful or failed call. *)
Lemma execute_spec reserve s op now : shard_ok s -> revision s < usize_max ->
  match outcome (reserve CommandEffects (length (keys op))) (limits s) (entries s) op now with
  | Ok (r, m) => exists s', execute reserve s op now = Ok (s', r) /\ shard_ok s' /\ advanced s s' m
  | Err e => execute reserve s op now = Err e
  | Panic => False
  end.
Proof.
  intros Hs Hmax. assert (Hp := prepare_spec reserve s op now Hs). unfold execute.
  destruct (outcome _ _ _ _ _) as [[r m]|e|]; [|by rewrite Hp|done].
  destruct Hp as (p & -> & Hp & <- & <-). cbn [mbind res_bind].
  destruct (apply_spec s p _ Hs Hp Hmax (Permutation_refl _)) as (s' & Ha & Hs' & Hadv).
  exists s'. unfold apply. by rewrite Ha.
Qed.

(** C4: Refinement: a call on a shard answers, and leaves in its table, exactly
    what the specification of the operation gives on the live entries within
    the budgets, errors included; it does not panic before the revision
    counter is exhausted. *)
Theorem execute_refines reserve s op now : shard_ok s -> revision s < usize_max ->
  (fun '(s', r) => (r, entries s')) <$> execute reserve s op now =
  outcome (reserve CommandEffects (length (keys op))) (limits s) (entries s) op now.
Proof.
  intros Hs Hmax. assert (Hx := execute_spec reserve s op now Hs Hmax).
  destruct (outcome _ _ _ _ _) as [[r m]|e|]; [|by rewrite Hx|done].
  by destruct Hx as (s' & -> & _ & <- & _).
Qed.

(** C5: Invariant: a successful call keeps the index in step with the table, the
    payload exactly accounted, the budgets respected and the counters in
    range, and advances the revision by one. *)
Theorem execute_preserves reserve s op now s' r : shard_ok s -> revision s < usize_max ->
  execute reserve s op now = Ok (s', r) ->
  shard_ok s' /\ limits s' = limits s /\ revision s' = revision s + 1.
Proof.
  intros Hs Hmax He. assert (Hx := execute_spec reserve s op now Hs Hmax).
  destruct (outcome _ _ _ _ _) as [[r' m]|e|]; [|by rewrite Hx in He|done].
  destruct Hx as (s1 & Hx & Hs' & _ & Hl & Hr & _). rewrite He in Hx. by injection Hx as <- <-.
Qed.

(** Shards that differ in the layout of their index only. *)
#[global] Instance shard_equiv : Equiv (Shard I) := fun s1 s2 =>
  entries s1 = entries s2 /\ timers (expiry s1) = timers (expiry s2) /\ limits s1 = limits s2 /\
  shard_payload s1 = shard_payload s2 /\ revision s1 = revision s2 /\
  expired_keys s1 = expired_keys s2 /\ applied_commands s1 = applied_commands s2.

#[global] Instance shard_equivalence : Equivalence (≡@{Shard I}).
Proof.
  split.
  - by intros s.
  - intros s1 s2 (? & ? & ? & ? & ? & ? & ?). by split_and!.
  - intros s1 s2 s3 (? & ? & ? & ? & ? & ? & ?) (? & ? & ? & ? & ? & ? & ?).
    split_and!; by etrans.
Qed.

#[global] Instance entries_proper : Proper ((≡@{Shard I}) ==> (=)) entries.
Proof. by intros s1 s2 (? & _). Qed.

#[global] Instance limits_proper : Proper ((≡@{Shard I}) ==> (=)) limits.
Proof. by intros s1 s2 (_ & _ & ? & _). Qed.

(** The invariant and what a call changed determine a shard up to its layout. *)
Lemma advanced_equiv s1 s2 s1' s2' m : s1 ≡ s2 -> shard_ok s1' -> shard_ok s2' ->
  advanced s1 s1' m -> advanced s2 s2' m -> s1' ≡ s2'.
Proof.
  intros (_ & _ & Hl & _ & Hr & He & Ha) H1 H2 (E1 & L1 & R1 & X1 & A1) (E2 & L2 & R2 & X2 & A2).
  split_and!; [congruence| |congruence| |congruence..].
  - rewrite (ok_timers _ H1), (ok_timers _ H2). congruence.
  - rewrite (ok_payload _ H1), (ok_payload _ H2). congruence.
Qed.

Lemma equiv_call reserve s1 s2 op now : s1 ≡ s2 -> shard_ok s1 -> shard_ok s2 -> revision s1 < usize_max ->
  match execute reserve s1 op now, execute reserve s2 op now with
  | Ok (s1', r1), Ok (s2', r2) => r1 = r2 /\ s1' ≡ s2' /\ shard_ok s1' /\ shard_ok s2' /\
      revision s1' = revision s1 + 1 /\ limits s1' = limits s1
  | Err e1, Err e2 => e1 = e2
  | _, _ => False
  end.
Proof.
  intros Heq H1 H2 Hrev. assert (revision s2 < usize_max) as Hrev2 by (destruct Heq as (_ & _ & _ & _ & <- & _); done).
  assert (G1 := execute_spec reserve s1 op now H1 Hrev). assert (G2 := execute_spec reserve s2 op now H2 Hrev2).
  assert (entries s1 = entries s2) as E by (by rewrite Heq). assert (limits s1 = limits s2) as L by (by rewrite Heq).
  rewrite <- E, <- L in G2. destruct (outcome _ _ _ _ _) as [[r m]|e|]; [|by rewrite G1, G2|done].
  destruct G1 as (t1 & -> & O1 & A1), G2 as (t2 & -> & O2 & A2).
  split_and!; [done|by eapply (advanced_equiv s1 s2)|done|done|apply A1|apply A1].
Qed.
End Calls.

Section Sweeps.
Context {I : Type} `{Laws : TimerIndexLaws I}.
Implicit Types (s : Shard I) (now : Z).

Lemma live_at_delete_due t now m k e d : m !! k = Some e -> expires_at_ms e = Some d -> d <= now ->
  now <= t -> live_at t (delete k m) = live_at t m.
Proof.
  intros He Hd Hle Ht. apply map_eq. intros k'. rewrite !live_at_lookup.
  destruct (decide (k = k')) as [<-|]; [|by rewrite lookup_delete_ne].
  rewrite lookup_delete_eq, He. unfold due_at. by rewrite Hd, (proj2 (Z.leb_le _ _)) by lia.
Qed.

(** What a sweep from [s] to [s'] that removed [n] entries did. *)
Record sweep_from s now (b n : nat) s' : Prop := {
  sweep_ok : shard_ok s';
  sweep_limits : limits s' = limits s;
  sweep_revision : revision s' = revision s + Z.of_nat n;
  sweep_expired : expired_keys s' = Z.min usize_max (expired_keys s + Z.of_nat n);
  sweep_applied : applied_commands s' = applied_commands s;
  sweep_budget : (n <= b)%nat;
  sweep_subset : entries s' ⊆ entries s;
  sweep_size : size (entries s) = (size (entries s') + n)%nat;
  sweep_live t : now <= t -> live_at t (entries s') = live_at t (entries s);
  sweep_complete : (n < b)%nat -> live_at now (entries s') = entries s';
  sweep_earliest k e d k' e' d' :
    entries s !! k = Some e -> expires_at_ms e = Some d -> entries s' !! k = None ->
    entries s' !! k' = Some e' -> expires_at_ms e' = Some d' -> d <= d';
}.

Lemma sweep_refl s now b : shard_ok s -> (b = 0%nat \/ timer_expired (expiry s) now = None) ->
  sweep_from s now b 0 s.
Proof.
  intros Hs Hb. assert (Hx := ok_expired s Hs).
  constructor; try done; try lia; [intros ?|congruence].
  destruct Hb as [->|Hn]; [lia|]. by apply no_timer_no_due.
Qed.

Lemma sweep_step s now k b n s1 s' e d : entries s !! k = Some e -> expires_at_ms e = Some d ->
  d <= now -> (forall k' e' d', entries s !! k' = Some e' -> expires_at_ms e' = Some d' -> d <= d') ->
  swept s s1 k -> 0 <= expired_keys s ->
  sweep_from s1 now b n s' -> sweep_from s now (S b) (S n) s'.
Proof.
  intros He Hd Hnow Hmin (E1 & L1 & R1 & X1 & A1) H0 Hsw.
  destruct Hsw as [Hok Hl Hr Hx Ha Hb Hsub Hsize Hlive Hcomp Hearly].
  assert (entries s' !! k = None) as Hgone.
  { destruct (entries s' !! k) as [e1|] eqn:G; [|done].
    apply (lookup_weaken _ _ _ _ G) in Hsub. rewrite E1, lookup_delete_eq in Hsub. done. }
  constructor; try done; try lia.
  - congruence.
  - rewrite E1 in Hsub. etrans; [exact Hsub|apply delete_subseteq].
  - rewrite E1 in Hsize. assert (G := size_delete_Z (entries s) k). rewrite He in G. lia.
  - intros t Ht. rewrite (Hlive t Ht), E1. by eapply live_at_delete_due.
  - intros. apply Hcomp. lia.
  - intros k1 e1 d1 k2 e2 d2 G1 Gd1 Gn1 G2 Gd2.
    assert (entries s1 !! k2 = Some e2) as G2' by (by eapply lookup_weaken).
    destruct (decide (k1 = k)) as [->|Hne].
    + simplify_eq. apply (Hmin k2 e2); [|done]. rewrite E1 in G2'. by apply lookup_delete_Some in G2' as [_ ?].
    + apply (Hearly k1 e1 d1 k2 e2 d2); try done. rewrite E1. by rewrite lookup_delete_ne.
Qed.

Lemma expire_due_loop_spec s now b n : shard_ok s -> revision s + Z.of_nat b <= usize_max ->
  exists s' n', expire_due_loop s now b n = Some (s', (n + n')%nat) /\ sweep_from s now b n' s'.
Proof.
  revert s n. induction b as [|b IH]; intros s n Hs Hmax.
  { exists s, 0%nat. split; [cbn; do 2 f_equal; lia|]. apply sweep_refl; auto. }
  destruct (timer_expired (expiry s) now) as [k|] eqn:Hk.
  - destruct (expire_step_spec s now k b n Hs ltac:(lia) Hk)
      as (e & d & s1 & He & Hd & Hnow & Hmin & -> & Hs1 & Hsw).
    assert (Hsw' := Hsw). destruct Hsw' as (_ & _ & Hr & _).
    destruct (IH s1 (S n) Hs1 ltac:(lia)) as (s' & n' & -> & Hfrom).
    exists s', (S n'). split; [do 2 f_equal; lia|].
    eapply (sweep_step s now k b n' s1 s' e d); try done. apply ok_expired, Hs.
  - exists s, 0%nat. cbn [expire_due_loop]. rewrite Hk. split; [do 2 f_equal; lia|].
    apply sweep_refl; auto.
Qed.

(** C19: A sweep always ends, within its budget, without panicking: it keeps the
    invariant, removes due entries only (no live entry changes, now or later),
    the earliest first, counts what it removes, and leaves no due entry when it
    stops before its budget. *)
Theorem expire_due_spec s now budget : shard_ok s ->
  revision s + Z.of_nat budget <= usize_max ->
  exists s' n, expire_due s now budget = Some (s', n) /\ sweep_from s now budget n s'.
Proof. intros Hs Hmax. apply (expire_due_loop_spec s now budget 0 Hs Hmax). Qed.
End Sweeps.

(** ** Traces *)

(** The revisions a trace may use up. *)
Definition work (ev : event) : Z :=
  match ev with Call _ _ => 1 | Sweep _ budget => Z.of_nat budget end.

Definition total_work (evs : list event) : Z := foldr (fun ev n => work ev + n) 0 evs.

Lemma total_work_nonneg evs : 0 <= total_work evs.
Proof. induction evs as [|[] evs IH]; simpl; lia. Qed.

Lemma outcome_Err reserve l m op now e :
  outcome reserve l m op now = Err e -> spec_exec (live_at now m) op now = Err e \/ refusal e.
Proof.
  unfold outcome. destruct (negb reserve).
  { intros [= <-]. right. unfold refusal. simpl. set_solver. }
  destruct (spec_exec _ _ _) as [[r m']|e'|]; cbn [mbind res_bind]; [|by left|done].
  destruct (reply_too_long _ _); [|case_decide; [done|]];
    intros [= <-]; right; unfold refusal; simpl; set_solver.
Qed.

Lemma outcome_Ok reserve l m op now r m' : outcome reserve l m op now = Ok (r, m') ->
  exists m1, spec_exec (live_at now m) op now = Ok (r, m1) /\
    m' = m1 ∪ leftover now (keys op) m /\
    forall t, now <= t -> live_at t m' = live_at t m1.
Proof.
  unfold outcome. destruct (negb reserve); [done|]. intros H.
  apply bind_Ok in H as ([r1 m1] & H1 & H). destruct (reply_too_long _ _); [done|].
  case_decide; [|done]. injection H as -> <-. exists m1. split_and!; [done..|].
  intros t Ht. apply live_at_union; [done|]. intros k Hk. by eapply spec_exec_frame.
Qed.

Section Traces.
Context {I : Type} `{Laws : TimerIndexLaws I}.
Implicit Types (s : Shard I) (now : Z).

(** The simulation: the same entries are live from [t] on. *)
Definition simulates (t : Z) s (m : table) : Prop :=
  shard_ok s /\ forall t', t <= t' -> live_at t' (entries s) = live_at t' m.

Lemma simulates_later t t' s m : t <= t' -> simulates t s m -> simulates t' s m.
Proof. intros Ht [Hs Hl]. split; [done|]. intros t1 Ht1. apply Hl. lia. Qed.

Lemma call_simulated reserve t s m op now : simulates t s m -> revision s < usize_max -> t <= now ->
  exists s' r m', served m op now r m' /\ simulates now s' m' /\ revision s' <= revision s + 1 /\
    forall evs, shard_run reserve s (Call op now :: evs) =
      (rs ← shard_run reserve s' evs; Some (r :: rs)).
Proof.
  intros [Hs Hl] Hmax Ht. assert (Hx := execute_spec reserve s op now Hs Hmax).
  destruct (outcome _ _ _ _ _) as [[r m1]|e|] eqn:Ho; [| |done].
  - destruct Hx as (s' & Hx & Hs' & Hm & _ & Hr & _).
    apply outcome_Ok in Ho as (m' & Hspec & _ & Hlive). rewrite Hl in Hspec by lia.
    exists s', r, m'. split_and!; [by apply served_done| |lia|].
    + split; [done|]. intros t' Ht'. rewrite Hm. by apply Hlive.
    + intros evs. cbn [shard_run]. by rewrite Hx.
  - exists s, (engine_error_reply e), m. split_and!.
    + apply outcome_Err in Ho as [Hspec|Href]; [|by apply served_refused].
      rewrite Hl in Hspec by lia. by apply served_failed.
    + by apply (simulates_later t now s m Ht).
    + lia.
    + intros evs. cbn [shard_run]. by rewrite Hx.
Qed.

Lemma sweep_simulated t s m now b : simulates t s m -> revision s + Z.of_nat b <= usize_max ->
  t <= now -> exists s' n, expire_due s now b = Some (s', n) /\ simulates now s' m /\
    revision s' <= revision s + Z.of_nat b.
Proof.
  intros [Hs Hl] Hmax Ht.
  destruct (expire_due_loop_spec s now b 0 Hs Hmax) as (s' & n & He & Hsw).
  exists s', n. split_and!; [done| |].
  - split; [apply Hsw|]. intros t' Ht'. rewrite (sweep_live _ _ _ _ _ Hsw) by done. apply Hl. lia.
  - assert (H1 := sweep_revision _ _ _ _ _ Hsw). assert (H2 := sweep_budget _ _ _ _ _ Hsw). lia.
Qed.

(** C3: Simulation: whatever the interleaving of calls with sweeps of any budget,
    while the clock does not go back and the revisions last, a shard never
    panics and its replies are those of a table in which every call takes
    effect at once, entries vanish exactly at their deadline, failed and
    refused calls change nothing, and sweeps are invisible. *)
Theorem shard_serves_trace reserve t s evs : shard_ok s -> clock_from t evs ->
  revision s + total_work evs <= usize_max ->
  exists rs, shard_run reserve s evs = Some rs /\ serves (live_at t (entries s)) evs rs.
Proof.
  intros Hs. assert (simulates t s (live_at t (entries s))) as Hsim.
  { split; [done|]. intros t' Ht'. by rewrite live_at_live_at. }
  clear Hs. revert Hsim. generalize (live_at t (entries s)) as m. revert t s.
  induction evs as [|ev evs IH]; intros t s m Hsim Hclock Hwork.
  { exists []. split; [done|constructor]. }
  cbn [clock_from total_work foldr] in Hclock, Hwork. destruct Hclock as [Ht Hclock].
  assert (Hnn := total_work_nonneg evs). unfold total_work in Hnn.
  destruct ev as [op now|now b]; cbn [event_time work] in *.
  - destruct (call_simulated reserve t s m op now Hsim) as (s' & r & m' & Hc & Hsim' & Hr & Hrun);
      [lia..|]. destruct (IH now s' m' Hsim' Hclock) as (rs & Hrs & Hserves); [unfold total_work; lia|].
    exists (r :: rs). rewrite Hrun, Hrs. split; [done|]. by econstructor.
  - destruct (sweep_simulated t s m now b Hsim) as (s' & n & He & Hsim' & Hr); [lia..|].
    destruct (IH now s' m Hsim' Hclock) as (rs & Hrs & Hserves); [unfold total_work; lia|].
    exists rs. cbn [shard_run]. rewrite He. split; [done|]. by constructor.
Qed.
End Traces.

(** ** Shards that differ in the layout of their index *)

Section Layout.
Context {I : Type} `{Laws : TimerIndexLaws I}.
Implicit Types (s : Shard I) (now : Z).

(** A trace, with the shard it ends in. *)
Fixpoint shard_trace (reserve : allocator) s (evs : list event) : option (Shard I * list Reply) :=
  match evs with
  | [] => Some (s, [])
  | Call op now_ms :: evs =>
      match execute reserve s op now_ms with
      | Ok (s, r) => '(s, rs) ← shard_trace reserve s evs; Some (s, r :: rs)
      | Err e => '(s, rs) ← shard_trace reserve s evs; Some (s, engine_error_reply e :: rs)
      | Panic => None
      end
  | Sweep now_ms budget :: evs => '(s, _) ← expire_due s now_ms budget; shard_trace reserve s evs
  end.

(** Its sweeps have room for every key. *)
Definition thorough (l : ShardLimits) (evs : list event) : Prop :=
  Forall (fun ev => match ev with Sweep _ b => max_keys l < Z.of_nat b | Call _ _ => True end) evs.

(** A sweep that is not cut short leaves exactly what is live. *)
Lemma equiv_sweep s1 s2 now b : s1 ≡ s2 -> shard_ok s1 -> shard_ok s2 -> max_keys (limits s1) < Z.of_nat b ->
  revision s1 + Z.of_nat b <= usize_max ->
  exists s1' s2' n, expire_due s1 now b = Some (s1', n) /\ expire_due s2 now b = Some (s2', n) /\
    s1' ≡ s2' /\ shard_ok s1' /\ shard_ok s2' /\ revision s1' <= revision s1 + Z.of_nat b /\
    limits s1' = limits s1.
Proof.
  intros Heq H1 H2 Hb Hrev. destruct Heq as (E & _ & L & _ & R & X & A).
  destruct (expire_due_loop_spec s1 now b 0 H1 Hrev) as (s1' & n1 & He1 & Hs1).
  destruct (expire_due_loop_spec s2 now b 0 H2 ltac:(by rewrite <- R)) as (s2' & n2 & He2 & Hs2).
  assert (Z.of_nat (size (entries s1)) <= max_keys (limits s1)) as Hsize by apply (ok_budget _ H1).
  assert (Z1 := sweep_size _ _ _ _ _ Hs1). assert (Z2 := sweep_size _ _ _ _ _ Hs2).
  assert (entries s1' = entries s2') as E'.
  { rewrite <- (sweep_complete _ _ _ _ _ Hs1), <- (sweep_complete _ _ _ _ _ Hs2) by (rewrite <- ?E in *; lia).
    rewrite (sweep_live _ _ _ _ _ Hs1), (sweep_live _ _ _ _ _ Hs2) by lia. by rewrite E. }
  assert (n1 = n2) as <- by (rewrite <- E, E' in *; lia).
  assert (O1 := sweep_ok _ _ _ _ _ Hs1). assert (O2 := sweep_ok _ _ _ _ _ Hs2).
  exists s1', s2', n1. split_and!; [done|done| |done|done| |by apply Hs1].
  - split_and!; [done|by rewrite (ok_timers _ O1), (ok_timers _ O2), E'| | | | |].
    + by rewrite (sweep_limits _ _ _ _ _ Hs1), (sweep_limits _ _ _ _ _ Hs2).
    + by rewrite (ok_payload _ O1), (ok_payload _ O2), E'.
    + by rewrite (sweep_revision _ _ _ _ _ Hs1), (sweep_revision _ _ _ _ _ Hs2), R.
    + by rewrite (sweep_expired _ _ _ _ _ Hs1), (sweep_expired _ _ _ _ _ Hs2), X.
    + by rewrite (sweep_applied _ _ _ _ _ Hs1), (sweep_applied _ _ _ _ _ Hs2).
  - assert (S1 := sweep_revision _ _ _ _ _ Hs1). assert (S2 := sweep_budget _ _ _ _ _ Hs1). lia.
Qed.

(** They behave alike. *)
Lemma equiv_trace reserve evs s1 s2 : s1 ≡ s2 -> shard_ok s1 -> shard_ok s2 -> thorough (limits s1) evs ->
  revision s1 + total_work evs <= usize_max ->
  exists s1' s2' rs, shard_trace reserve s1 evs = Some (s1', rs) /\ shard_trace reserve s2 evs = Some (s2', rs) /\
    s1' ≡ s2'.
Proof.
  revert s1 s2. induction evs as [|ev evs IH]; intros s1 s2 Heq H1 H2 Hall Hwork.
  { by exists s1, s2, []. }
  apply Forall_cons in Hall as [Hev Hall]. assert (Hnn := total_work_nonneg evs).
  change (total_work (ev :: evs)) with (work ev + total_work evs) in Hwork.
  destruct ev as [op now|now b]; cbn [shard_trace work] in *.
  - assert (G := equiv_call reserve s1 s2 op now Heq H1 H2 ltac:(lia)).
    destruct (execute reserve s1 op now) as [[s1' r1]|e1|], (execute reserve s2 op now) as [[s2' r2]|e2|]; try done.
    + destruct G as (<- & Heq' & O1 & O2 & R & L).
      destruct (IH s1' s2' Heq' O1 O2 ltac:(by rewrite L) ltac:(lia)) as (t1 & t2 & rs & -> & -> & Ht).
      by exists t1, t2, (r1 :: rs).
    + subst e2. destruct (IH s1 s2 Heq H1 H2 Hall ltac:(lia)) as (t1 & t2 & rs & -> & -> & Ht).
      by exists t1, t2, (engine_error_reply e1 :: rs).
  - destruct (equiv_sweep s1 s2 now b Heq H1 H2 Hev ltac:(lia)) as (s1' & s2' & n & -> & -> & Heq' & O1 & O2 & R & L).
    cbn [mbind option_bind]. by apply IH; [..|rewrite L|lia].
Qed.

(** C20: The order in which the hash map of effects is iterated is immaterial:
    installing a prepared command in any two orders gives the same reply and two
    shards that differ at most in the layout of their expiry heaps; and any
    sequence of further commands, with sweeps that have room for every key, gives
    the same replies and again such shards - the same entries, deadlines,
    payload, revision and counts.  (A sweep that its budget cuts short may remove
    other keys in one than in the other, among those with the same deadline.) *)
Theorem apply_order_irrelevant reserve s op now p order1 order2 :
  shard_ok s -> revision s < usize_max -> prepare reserve s op now = Ok p ->
  order1 ≡ₚ map_to_list (effects p) -> order2 ≡ₚ map_to_list (effects p) ->
  exists s1 s2 r, apply_in_order s p order1 = Some (s1, r) /\
    apply_in_order s p order2 = Some (s2, r) /\ s1 ≡ s2 /\
    forall evs, thorough (limits s) evs -> revision s + 1 + total_work evs <= usize_max ->
      exists s1' s2' rs, shard_trace reserve s1 evs = Some (s1', rs) /\
        shard_trace reserve s2 evs = Some (s2', rs) /\ s1' ≡ s2'.
Proof.
  intros Hs Hmax Hp H1 H2. assert (Hx := prepare_spec reserve s op now Hs).
  destruct (outcome _ _ _ _ _) as [[r m]|e|]; [|by rewrite Hp in Hx|done].
  destruct Hx as (p' & Hp' & Hok & Hr & _). rewrite Hp in Hp'. injection Hp' as <-.
  destruct (apply_spec s p _ Hs Hok Hmax H1) as (s1 & Ha1 & Hs1 & Hadv1).
  destruct (apply_spec s p _ Hs Hok Hmax H2) as (s2 & Ha2 & Hs2 & Hadv2).
  exists s1, s2, (response p). assert (s1 ≡ s2) as Heq by by eapply (advanced_equiv s s).
  split_and!; [done..|]. intros evs Hall Hwork. destruct Hadv1 as (_ & L & R & _).
  apply equiv_trace; [done..|by rewrite L|lia].
Qed.
End Layout.

(** ** The shard of the program *)

Lemma empty_shard_ok l : shard_limits_ok l -> shard_ok (empty_shard l).
Proof.
  intros Hl. constructor; simpl; try done; try (unfold usize_max; lia).
  - apply empty_index_ok.
  - unfold within_budget. rewrite map_size_empty, total_empty. destruct Hl as (? & ? & _). lia.
Qed.

Lemma bad_limits_spec l : 0 <= max_keys l <= usize_max -> 0 <= max_payload_bytes l <= usize_max ->
  0 <= max_reply_bytes l <= usize_max -> bad_limits l = false <-> shard_limits_ok l.
Proof.
  intros Hk Hp Hr. unfold bad_limits, shard_limits_ok.
  rewrite !orb_false_iff, !Z.eqb_neq, Z.ltb_ge. lia.
Qed.

(** A new shard is refused with its own message for unusable limits and for
    each failed reservation; otherwise it starts empty, satisfies the invariant
    and reports no key. *)
Theorem new_shard_spec reserve l : 0 <= max_keys l <= usize_max ->
  0 <= max_payload_bytes l <= usize_max -> 0 <= max_reply_bytes l <= usize_max ->
  let n := Z.to_nat (max_keys l) in
  match new_shard reserve l with
  | Ok s => shard_ok s /\ entries s = ∅ /\ limits s = l /\
      stats s = mkShardStats 0 0 0 0 0 (max_keys l) (max_payload_bytes l) /\
      forallb (fun site => reserve site n) [KeyTable; TimerHeap; TimerPositions] = true
  | Err e => engine_message e =
      (if bad_limits l then "ERR invalid shard limits"
       else if negb (reserve KeyTable n) then "OOM could not reserve key table"
       else "OOM could not reserve expiration index")%string /\
      (shard_limits_ok l ->
       forallb (fun site => reserve site n) [KeyTable; TimerHeap; TimerPositions] = false)
  | Panic => False
  end.
Proof.
  intros Hk Hp Hr n. assert (Hb := bad_limits_spec l Hk Hp Hr). unfold new_shard, new_index. fold n.
  destruct (bad_limits l); [split; [done|]; intros; by apply Hb in H|].
  destruct (reserve KeyTable n) eqn:R1; simpl; [|by rewrite ?R1].
  destruct (reserve TimerHeap n) eqn:R2; simpl; [|by rewrite ?R1, ?R2].
  destruct (reserve TimerPositions n) eqn:R3; simpl; [|by rewrite ?R1, ?R2, ?R3].
  split_and!; [|done..|by rewrite ?R1, ?R2, ?R3]. by apply empty_shard_ok, Hb.
Qed.

(** ** Types *)

(** The deadlines of a table are [i64] values. *)
Definition deadlines_typed (m : table) : Prop :=
  map_Forall (fun _ e => forall d, expires_at_ms e = Some d -> i64_min <= d <= i64_max) m.

(** The numbers of an operation are [i64] values, and a vector's length fits. *)
Definition operation_typed (op : Operation) : Prop :=
  zlen (keys op) <= i64_max /\
  match op with
  | Increment _ n _ | Command.Expire _ n => i64_min <= n <= i64_max
  | _ => True
  end.

Definition reply_typed (r : Reply) : Prop :=
  match r with Integer n => i64_min <= n <= i64_max | _ => True end.

Lemma deadlines_typed_insert m k e : deadlines_typed m ->
  (forall d, expires_at_ms e = Some d -> i64_min <= d <= i64_max) ->
  deadlines_typed (<[k := e]> m).
Proof. intros Hm He. by apply map_Forall_insert_2. Qed.

Lemma deadlines_typed_subset m m' : m' ⊆ m -> deadlines_typed m -> deadlines_typed m'.
Proof. intros Hs Hm k e He. apply (Hm k e). by eapply lookup_weaken. Qed.

Lemma deadlines_typed_union m m' : deadlines_typed m -> deadlines_typed m' -> deadlines_typed (m ∪ m').
Proof. intros H1 H2 k e [He|[_ He]]%lookup_union_Some_raw; [by eapply H1|by eapply H2]. Qed.

Lemma deadlines_typed_lookup m k d : deadlines_typed m -> m !! k ≫= expires_at_ms = Some d ->
  i64_min <= d <= i64_max.
Proof. intros Hm. destruct (m !! k) as [e|] eqn:He; [|done]. simpl. by apply (Hm k e). Qed.

(** A removal of [ks] removes no more entries than there are keys. *)
Lemma removed_at_most (m : table) ks :
  0 <= Z.of_nat (size m) - Z.of_nat (size (filter (fun kv => kv.1 ∉ ks) m)) <= zlen ks.
Proof.
  induction ks as [|k ks IH].
  - rewrite map_filter_id by set_solver. simpl. lia.
  - assert (filter (fun kv => kv.1 ∉ k :: ks) m = delete k (filter (fun kv => kv.1 ∉ ks) m)) as ->.
    { apply map_eq. intros k'. apply option_eq. intros e.
      rewrite lookup_delete_Some, !map_lookup_filter_Some. simpl. set_solver. }
    rewrite size_delete_Z. cbn [length]. destruct (_ !! k); lia.
Qed.

Lemma foldl_assign_typed (pairs : list (bytes * bytes)) (m : table) : deadlines_typed m ->
  deadlines_typed (foldl (fun m p => <[p.1 := mkEntry p.2 None]> m) m pairs).
Proof.
  revert m. induction pairs as [|p pairs IH]; intros m Hm; [done|]. cbn [foldl].
  apply IH, deadlines_typed_insert; [done|]. by intros d.
Qed.

Lemma spec_deadline_typed e m k now d : deadlines_typed m ->
  spec_deadline e (m !! k) now = Ok (Some d) -> i64_min <= d <= i64_max.
Proof.
  intros Hm. destruct e as [| |n]; cbn [spec_deadline]; [done|..].
  - intros [= H]. by eapply deadlines_typed_lookup.
  - destruct (_ && _) eqn:E; [|done]. apply andb_true_iff in E as [_ E%in_i64_spec]. by intros [= <-].
Qed.

Lemma spec_exec_typed m op now r m' : deadlines_typed m -> operation_typed op ->
  i64_min <= now <= i64_max ->
  (forall k e d, m !! k = Some e -> expires_at_ms e = Some d -> now < d) ->
  spec_exec m op now = Ok (r, m') -> deadlines_typed m' /\ reply_typed r.
Proof.
  intros Hm [Hlen Hop] Hnow Hlive.
  destruct op as [k|k v c e|k n sub|ks|ks|ks|pairs|k n|k ms|k]; cbn [spec_exec]; intros H.
  - by injection H as <- <-.
  - apply bind_Ok in H as (d & Hd & H). destruct (allows _ _); injection H as <- <-; [|done].
    split; [|done]. apply deadlines_typed_insert; [done|]. cbn [expires_at_ms].
    intros d' ->. by eapply spec_deadline_typed.
  - destruct (_ && _); [done|]. apply bind_Ok in H as (c & _ & H).
    destruct (in_i64 _) eqn:E; [|done]. apply in_i64_spec in E. injection H as <- <-.
    split; [|done]. apply deadlines_typed_insert; [done|]. intros d. by apply deadlines_typed_lookup.
  - injection H as <- <-. split; [by eapply deadlines_typed_subset; [apply map_filter_subseteq|]|].
    assert (G := removed_at_most m ks). simpl in Hlen |- *. unfold i64_min. lia.
  - injection H as <- <-. split; [done|]. simpl in Hlen |- *.
    assert (G := length_filter (fun k => is_Some (m !! k)) ks). unfold i64_min. lia.
  - by injection H as <- <-.
  - injection H as <- <-. split; [|done]. by apply foldl_assign_typed.
  - destruct (m !! k) as [e|] eqn:Hk; [|by injection H as <- <-].
    destruct (_ <=? _).
    { injection H as <- <-. split; [|done]. eapply deadlines_typed_subset; [apply delete_subseteq|done]. }
    destruct (in_i64 _) eqn:E; [|done]. apply in_i64_spec in E. injection H as <- <-. split; [|done].
    apply deadlines_typed_insert; [done|]. by intros d [= <-].
  - injection H as <- <-. split; [done|]. unfold spec_ttl. cbn [reply_typed].
    destruct (m !! k) as [e|] eqn:Hk; [|done]. destruct (expires_at_ms e) as [d|] eqn:Hd; [|done].
    assert (now < d) by (by eapply Hlive). cbn zeta.
    destruct ms; [unfold i64_min in *; int_lia|].
    assert (0 <= Z.min i64_max (d - now) <= i64_max) by int_lia.
    Z.to_euclidean_division_equations. int_lia.
  - destruct (m !! k) as [[v [d|]]|] eqn:Hk; injection H as <- <-; [|done..].
    split; [|done]. apply deadlines_typed_insert; [done|]. by intros d'.
Qed.

Section Typed.
Context {I : Type} `{Laws : TimerIndexLaws I}.
Implicit Types (s : Shard I) (now : Z).

(** Types: from [i64] deadlines, clock and arguments, a call leaves [i64]
    deadlines and replies an [i64]: no sum, count or remaining time overflows. *)
Theorem execute_typed reserve s op now s' r : shard_ok s -> revision s < usize_max ->
  deadlines_typed (entries s) -> operation_typed op -> i64_min <= now <= i64_max ->
  execute reserve s op now = Ok (s', r) -> deadlines_typed (entries s') /\ reply_typed r.
Proof.
  intros Hs Hmax Hd Hop Hnow He. assert (Hx := execute_spec reserve s op now Hs Hmax).
  destruct (outcome _ _ _ _ _) as [[r' m']|e|] eqn:Ho; [|by rewrite He in Hx|done].
  destruct Hx as (s1 & Hx & _ & Hm' & _). rewrite He in Hx. injection Hx as <- <-.
  apply outcome_Ok in Ho as (m1 & Hspec & -> & _). rewrite Hm'.
  assert (live_at now (entries s) ⊆ entries s) as Hsub by apply map_filter_subseteq.
  destruct (spec_exec_typed (live_at now (entries s)) op now r m1) as [H1 H2]; try done.
  - by eapply deadlines_typed_subset.
  - intros k e d [_ G]%live_at_lookup_Some Hd'. unfold due_at in G. rewrite Hd' in G. by zhyps.
  - split; [|done]. apply deadlines_typed_union; [done|].
    eapply deadlines_typed_subset; [apply map_filter_subseteq|done].
Qed.
End Typed.

(** ** Behaviour of the commands *)

Lemma readonly_spec m op now r m' : mutates op = false ->
  spec_exec m op now = Ok (r, m') -> m' = m.
Proof. destruct op; simpl; try done; intros _; congruence. Qed.

(** The reply to a counter's updates: the running sums. *)
Fixpoint running_sums (start : Z) (amounts : list Z) : list Reply :=
  match amounts with
  | [] => []
  | n :: amounts => Integer (start + n) :: running_sums (start + n) amounts
  end.

(** The sums stay in range. *)
Fixpoint sums_in_range (start : Z) (amounts : list Z) : Prop :=
  match amounts with
  | [] => True
  | n :: amounts => i64_min <= start + n <= i64_max /\ sums_in_range (start + n) amounts
  end.

Section Behaviour.
Context {I : Type} `{Laws : TimerIndexLaws I}.
Implicit Types (s : Shard I) (now : Z).

Lemma execute_Ok_inv reserve s op now s' r : shard_ok s -> revision s < usize_max ->
  execute reserve s op now = Ok (s', r) ->
  shard_ok s' /\ revision s' = revision s + 1 /\ exists m,
    spec_exec (live_at now (entries s)) op now = Ok (r, m) /\
    forall k, entries s' !! k = (m ∪ leftover now (keys op) (entries s)) !! k.
Proof.
  intros Hs Hmax He. assert (Hx := execute_spec reserve s op now Hs Hmax).
  destruct (outcome _ _ _ _ _) as [[r' m']|e|] eqn:Ho; [|by rewrite He in Hx|done].
  destruct Hx as (s1 & Hx & Hs1 & Hm & _ & Hr & _). rewrite He in Hx. injection Hx as <- <-.
  apply outcome_Ok in Ho as (m1 & Hspec & -> & _). split_and!; [done..|].
  exists m1. split; [done|]. intros k. by rewrite Hm.
Qed.

(** Commands advertised as readonly are: a parsed call whose entry in the
    command table lacks the write flag leaves every live entry as it was, with
    its deadline, now and at any later time. *)
Theorem readonly_commands_do_not_write reserve s name rest plimits spec op now s' r :
  parse (name :: rest) plimits = Ok (Data op) -> find_spec name = Some spec ->
  write spec = false -> shard_ok s -> revision s < usize_max ->
  execute reserve s op now = Ok (s', r) ->
  forall t, now <= t -> live_at t (entries s') = live_at t (entries s).
Proof.
  intros (n & rs & sp & [= <- <-] & Hf & Ha & Hd & _)%parse_Ok Hf' Hw Hs Hmax He t Ht.
  simplify_eq. apply dispatch_sound_all in Hd as (_ & _ & _ & Hmut & _);
    [|by eapply find_spec_In|done..]. rewrite Hw in Hmut.
  destruct (execute_Ok_inv _ _ _ _ _ _ Hs Hmax He) as (_ & _ & m & Hspec & Hm).
  apply (readonly_spec _ _ _ _ _ Hmut) in Hspec as ->.
  assert (entries s' = live_at now (entries s) ∪ leftover now (keys op) (entries s)) as -> by
    (by apply map_eq). rewrite (live_at_union now t) by done. by apply live_at_live_at.
Qed.

(** C21: Expiration is exact: a key assigned with a time to live is read back
    until, and gone from, the very millisecond of its deadline, and PTTL tells
    the time left. *)
Theorem set_expires_exactly reserve s k v d now s1 r now' s2 s3 r2 r3 :
  shard_ok s -> revision s + 1 < usize_max ->
  execute reserve s (Set_ k v Always (AfterMilliseconds d)) now = Ok (s1, r) ->
  execute reserve s1 (Get k) now' = Ok (s2, r2) ->
  execute reserve s1 (Ttl k true) now' = Ok (s3, r3) ->
  r = reply_ok /\
  r2 = Bulk (if now' <? now + d then Some v else None) /\
  r3 = Integer (if now' <? now + d then Z.min i64_max (now + d - now') else -2).
Proof.
  intros Hs Hmax He He2 He3.
  destruct (execute_Ok_inv _ _ _ _ _ _ Hs ltac:(lia) He) as (Hs1 & Hr1 & m & Hspec & Hm).
  cbn [spec_exec] in Hspec. apply bind_Ok in Hspec as (d' & Hd' & Hspec).
  assert (d' = Some (now + d)) as ->.
  { simpl in Hd'. destruct (_ && _); [|done]. by injection Hd'. }
  injection Hspec as <- <-. split; [done|].
  assert (entries s1 !! k = Some (mkEntry v (Some (now + d)))) as Hk.
  { rewrite Hm, lookup_union, lookup_insert_eq. by destruct (leftover _ _ _ !! k). }
  assert (live_at now' (entries s1) !! k =
    if now' <? now + d then Some (mkEntry v (Some (now + d))) else None) as Hl.
  { rewrite live_at_lookup, Hk. unfold due_at. simpl. repeat zcase; (done || lia). }
  destruct (execute_Ok_inv _ _ _ _ _ _ Hs1 ltac:(lia) He2) as (_ & _ & m2 & Hspec2 & _).
  destruct (execute_Ok_inv _ _ _ _ _ _ Hs1 ltac:(lia) He3) as (_ & _ & m3 & Hspec3 & _).
  cbn [spec_exec] in Hspec2, Hspec3. rewrite Hl in Hspec2, Hspec3.
  injection Hspec2 as <- <-. injection Hspec3 as <- <-. by zcase.
Qed.

(** Key [k] holds the number [n], and does not expire before [until] has passed. *)
Definition counts s (until : Z) k (n : Z) : Prop :=
  i64_min <= n <= i64_max /\ spec_number (entries s !! k) = Ok n /\
  forall e d, entries s !! k = Some e -> expires_at_ms e = Some d -> until < d.

Lemma counts_live s until k n now : counts s until k n -> now <= until ->
  live_at now (entries s) !! k = entries s !! k.
Proof.
  intros (_ & _ & Hd) Hnow. rewrite live_at_lookup. destruct (entries s !! k) as [e|] eqn:He; [|done].
  assert (due_at e now = false) as ->; [|done]. unfold due_at. destruct (expires_at_ms e) as [d|] eqn:Hx; [|done].
  specialize (Hd e d eq_refl Hx). by rewrite (proj2 (Z.leb_gt _ _)) by lia.
Qed.

Lemma increment_step reserve s k n subtract now until start : shard_ok s -> revision s < usize_max ->
  counts s until k start -> now <= until -> (subtract = true -> n <> i64_min) ->
  let next := start + (if subtract then - n else n) in i64_min <= next <= i64_max ->
  match execute reserve s (Increment k n subtract) now with
  | Ok (s', r) => shard_ok s' /\ revision s' = revision s + 1 /\ r = Integer next /\ counts s' until k next
  | Err e => refusal e
  | Panic => False
  end.
Proof.
  intros Hs Hmax Hc Hnow Hmin next Hsum. assert (Hlive := counts_live _ _ _ _ _ Hc Hnow).
  destruct Hc as (Hst & Hn & Hd). assert (Hx := execute_spec reserve s (Increment k n subtract) now Hs Hmax).
  assert (spec_exec (live_at now (entries s)) (Increment k n subtract) now =
    Ok (Integer next, <[k := mkEntry (i64_to_string next) (entries s !! k ≫= expires_at_ms)]>
      (live_at now (entries s)))) as Hspec.
  { cbn [spec_exec]. assert (subtract && (n =? i64_min) = false) as ->.
    { destruct subtract; [|done]. by rewrite (proj2 (Z.eqb_neq _ _)) by auto. }
    rewrite Hlive, Hn. cbn [mbind res_bind].
    assert ((if subtract then start - n else start + n) = next) as -> by (unfold next; destruct subtract; lia).
    by rewrite (proj2 (in_i64_spec next)). }
  destruct (outcome _ _ _ _ _) as [[r m]|e|] eqn:Ho; [| |done].
  - destruct Hx as (s' & -> & Hs' & Hm & _ & Hr & _).
    apply outcome_Ok in Ho as (m1 & Hspec' & _ & Hlive'). rewrite Hspec in Hspec'.
    injection Hspec' as <- <-. split_and!; [done..|].
    assert (live_at now (entries s') !! k
      = Some (mkEntry (i64_to_string next) (entries s !! k ≫= expires_at_ms))) as [Hk _]%live_at_lookup_Some.
    { rewrite Hm, Hlive', live_at_lookup, lookup_insert_eq by lia.
      unfold due_at. cbn [expires_at_ms]. destruct (entries s !! k) as [e|] eqn:He; [|done]. cbn.
      destruct (expires_at_ms e) as [d|] eqn:Hxp; [|done]. specialize (Hd e d eq_refl Hxp).
      by rewrite (proj2 (Z.leb_gt _ _)) by lia. }
    split_and!; [by apply Hsum|by apply Hsum|by rewrite Hk; cbn; rewrite (proj2 (integer_Ok _ next))|].
    intros e d He Hxp. rewrite Hk in He. injection He as <-. cbn in Hxp.
    destruct (entries s !! k) as [e|] eqn:He; [|done]. by eapply Hd.
  - rewrite Hx. apply outcome_Err in Ho as [Hspec'|]; [|done]. by rewrite Hspec in Hspec'.
Qed.

(** Additions and subtractions, each at its own reading of the clock. *)
Definition counter_calls k (steps : list (Z * bool * Z)) : list event :=
  (fun '(now, subtract, n) => Call (Increment k n subtract) now) <$> steps.

Definition changes (steps : list (Z * bool * Z)) : list Z :=
  (fun '(now, subtract, n) => if (subtract : bool) then - n else n) <$> steps.

(** C22: Counters are exact: a sequence of additions and subtractions, each at its
    own reading of the clock, answers the running sums, starting from the number
    the key holds (0 if it is absent), as long as the sums fit an [i64], the least
    [i64] is not subtracted, no budget refuses a call, and the key does not
    expire by the last reading. *)
Theorem counter_matches_sums reserve s k until start steps rs :
  shard_ok s -> revision s + zlen steps <= usize_max -> counts s until k start ->
  Forall (fun '(now, subtract, n) => now <= until /\ (subtract = true -> n <> i64_min)) steps ->
  sums_in_range start (changes steps) ->
  shard_run reserve s (counter_calls k steps) = Some rs ->
  (forall e, refusal e -> engine_error_reply e ∉ rs) ->
  rs = running_sums start (changes steps).
Proof.
  revert s start rs. induction steps as [|[[now subtract] n] steps IH]; intros s start rs Hs Hmax Hh Hall Hsum Hrun Hne.
  { by injection Hrun as <-. }
  apply Forall_cons in Hall as [[Hnow Hmin] Hall].
  cbn [counter_calls changes fmap list_fmap shard_run length sums_in_range] in *. destruct Hsum as [Hsum Hrest].
  assert (Hx := increment_step reserve s k n subtract now until start Hs ltac:(lia) Hh Hnow Hmin Hsum).
  destruct (execute _ _ _ _) as [[s' r]|e|]; [| |done].
  - destruct Hx as (Hs' & Hr & -> & Hh').
    destruct (shard_run _ _ _) as [rs'|] eqn:Hrs; [|done]. injection Hrun as <-.
    cbn [running_sums]. f_equal. apply (IH s'); try done; [lia|]. set_solver.
  - destruct (shard_run _ _ _) as [rs'|] eqn:Hrs; [|done]. injection Hrun as <-.
    exfalso. apply (Hne e Hx). by constructor.
Qed.
End Behaviour.

(** ** Witnesses *)

Definition granted : allocator := fun _ _ => true.

Definition shard0 : Shard ExpiryIndex := empty_shard default_shard_limits.

Lemma default_shard_limits_ok : shard_limits_ok default_shard_limits.
Proof. unfold shard_limits_ok, usize_max. simpl. lia. Qed.

Lemma shard0_ok : shard_ok shard0.
Proof. apply empty_shard_ok, default_shard_limits_ok. Qed.

Lemma shard0_revision : revision shard0 < usize_max.
Proof. reflexivity. Qed.

Definition set_k : Operation := Set_ (bs "k") (bs "v") Always (AfterMilliseconds 10).

(** The state after a call that succeeds. *)
Definition after (s : Shard ExpiryIndex) (op : Operation) (now_ms : Z) : Shard ExpiryIndex :=
  match execute granted s op now_ms with Ok (s, _) => s | _ => s end.

Lemma after_spec s op now_ms r :
  snd <$> execute granted s op now_ms = Ok r -> execute granted s op now_ms = Ok (after s op now_ms, r).
Proof. unfold after. destruct (execute _ _ _ _) as [[s' r']|e|]; [|done..]. by intros [= ->]. Qed.

Definition shard1 : Shard ExpiryIndex := after shard0 set_k 5.

Lemma shard1_reached : execute granted shard0 set_k 5 = Ok (shard1, reply_ok).
Proof. apply after_spec. vm_compute. reflexivity. Qed.

Lemma shard1_ok : shard_ok shard1.
Proof.
  exact (proj1 (execute_Ok_inv granted shard0 set_k 5 shard1 reply_ok shard0_ok shard0_revision shard1_reached)).
Qed.

Lemma execute_refines_witness :
  (fun '(s', r) => (r, entries s')) <$> execute granted shard0 set_k 5 =
    outcome true default_shard_limits ∅ set_k 5 /\
  (fun '(r, m) => (r, (m : table) !! bs "k")) <$> outcome true default_shard_limits ∅ set_k 5 =
    Ok (reply_ok, Some (mkEntry (bs "v") (Some 15))).
Proof.
  split; [exact (execute_refines granted shard0 set_k 5 shard0_ok shard0_revision)|].
  vm_compute. reflexivity.
Defined.

(** A sweep at the deadline of the one key. *)
Lemma expire_due_spec_witness :
  exists s, expire_due shard1 15 2 = Some (s, 1%nat) /\ entries s !! bs "k" = None /\ sweep_from shard1 15 2 1 s.
Proof.
  destruct (expire_due_spec shard1 15 2 shard1_ok) as (s & n & Hx & Hs); [vm_compute; discriminate|].
  assert (Hn : (fun '(s, n) => (entries s !! bs "k", n)) <$> expire_due shard1 15 2 = Some (None, 1%nat))
    by (vm_compute; reflexivity).
  rewrite Hx in Hn. injection Hn as Hk ->. exists s. exact (conj Hx (conj Hk Hs)).
Defined.

Lemma execute_preserves_witness : shard_ok shard1 /\ revision shard1 = 1.
Proof.
  destruct (execute_preserves granted shard0 set_k 5 shard1 reply_ok shard0_ok shard0_revision shard1_reached)
    as (Hok & _ & _).
  split; [exact Hok|vm_compute; reflexivity].
Defined.

Definition mset_ab : Operation := MultiSet [(bs "a", bs "1"); (bs "b", bs "2")].

Definition prepared_ab : Prepared :=
  mkPrepared 0 {[bs "a" := Some (mkEntry (bs "1") None); bs "b" := Some (mkEntry (bs "2") None)]}
    4 reply_ok.

(** Two installations of a write, then a read and a sweep that has room. *)
Lemma apply_order_irrelevant_witness : exists s1 s2 r s1' s2' rs,
  apply_in_order shard0 prepared_ab (map_to_list (effects prepared_ab)) = Some (s1, r) /\
  apply_in_order shard0 prepared_ab (reverse (map_to_list (effects prepared_ab))) = Some (s2, r) /\
  let evs := [Call (MultiGet [bs "a"; bs "b"]) 1; Sweep 20 (Z.to_nat (max_keys default_shard_limits + 1))] in
  shard_trace granted s1 evs = Some (s1', rs) /\ shard_trace granted s2 evs = Some (s2', rs) /\ s1' ≡ s2'.
Proof.
  destruct (apply_order_irrelevant granted shard0 mset_ab 0 prepared_ab
    (map_to_list (effects prepared_ab)) (reverse (map_to_list (effects prepared_ab))))
    as (s1 & s2 & r & H1 & H2 & _ & Hall).
  - exact shard0_ok.
  - exact shard0_revision.
  - vm_compute. reflexivity.
  - reflexivity.
  - apply reverse_Permutation.
  - destruct (Hall [Call (MultiGet [bs "a"; bs "b"]) 1; Sweep 20 (Z.to_nat (max_keys default_shard_limits + 1))])
      as (s1' & s2' & rs & G1 & G2 & G3).
    + repeat constructor.
    + vm_compute. discriminate.
    + exists s1, s2, r, s1', s2', rs. exact (conj H1 (conj H2 (conj G1 (conj G2 G3)))).
Defined.


Definition trace0 : list event :=
  [Call set_k 5; Sweep 7 3; Call (Get (bs "k")) 14; Sweep 15 1; Call (Get (bs "k")) 15].

Lemma shard_serves_trace_witness :
  serves ∅ trace0 [reply_ok; Bulk (Some (bs "v")); Bulk None].
Proof.
  destruct (shard_serves_trace granted 0 shard0 trace0 shard0_ok) as (rs & Hrs & H).
  - vm_compute. repeat split; discriminate.
  - vm_compute. discriminate.
  - assert (shard_run granted shard0 trace0 = Some [reply_ok; Bulk (Some (bs "v")); Bulk None]) as Hr
      by (vm_compute; reflexivity).
    rewrite Hr in Hrs. injection Hrs as Hrs. rewrite Hrs. exact H.
Defined.

Lemma new_shard_spec_witness :
  match new_shard granted default_shard_limits with
  | Ok s => shard_ok s
  | _ => False
  end.
Proof.
  assert (H := new_shard_spec granted default_shard_limits ltac:(unfold usize_max; simpl; lia)
    ltac:(unfold usize_max; simpl; lia) ltac:(unfold usize_max; simpl; lia)).
  exact (proj1 H).
Defined.

Lemma execute_typed_witness : deadlines_typed (entries shard1) /\ reply_typed reply_ok.
Proof.
  apply (execute_typed granted shard0 set_k 5 shard1 reply_ok shard0_ok shard0_revision).
  - apply map_Forall_empty.
  - split; [vm_compute; discriminate|exact Logic.I].
  - unfold i64_min, i64_max. lia.
  - exact shard1_reached.
Defined.

Lemma readonly_commands_do_not_write_witness :
  live_at 20 (entries (after shard1 (Get (bs "k")) 7)) = live_at 20 (entries shard1).
Proof.
  apply (readonly_commands_do_not_write granted shard1 (bs "get") [bs "k"] default_parse_limits
    (mkSpec "get" 2 false 1 1 1) (Get (bs "k")) 7 _ (Bulk (Some (bs "v")))).
  - vm_compute. reflexivity.
  - vm_compute. reflexivity.
  - reflexivity.
  - exact shard1_ok.
  - reflexivity.
  - apply after_spec. vm_compute. reflexivity.
  - lia.
Defined.

Lemma set_expires_exactly_witness :
  execute granted shard1 (Get (bs "k")) 14 = Ok (after shard1 (Get (bs "k")) 14, Bulk (Some (bs "v"))) /\
  Bulk (Some (bs "v")) = Bulk (if 14 <? 5 + 10 then Some (bs "v") else None).
Proof.
  assert (execute granted shard1 (Get (bs "k")) 14
    = Ok (after shard1 (Get (bs "k")) 14, Bulk (Some (bs "v")))) as H2 by (apply after_spec; vm_compute; reflexivity).
  assert (execute granted shard1 (Ttl (bs "k") true) 14
    = Ok (after shard1 (Ttl (bs "k") true) 14, Integer 1)) as H3 by (apply after_spec; vm_compute; reflexivity).
  split; [exact H2|].
  exact (proj1 (proj2 (set_expires_exactly granted shard0 (bs "k") (bs "v") 10 5 shard1 reply_ok 14
    _ _ _ _ shard0_ok ltac:(reflexivity) shard1_reached H2 H3))).
Defined.

(** A counter with a deadline, over a time. *)
Definition set_n : Operation := Set_ (bs "n") (bs "7") Always (AfterMilliseconds 10).

Definition shard_n : Shard ExpiryIndex := after shard0 set_n 5.

Lemma shard_n_reached : execute granted shard0 set_n 5 = Ok (shard_n, reply_ok).
Proof. apply after_spec. vm_compute. reflexivity. Qed.

Lemma counter_matches_sums_witness :
  [Integer 10; Integer 8; Integer (-2)] = running_sums 7 (changes [(6, false, 3); (9, false, -2); (14, true, 10)]).
Proof.
  destruct (execute_Ok_inv granted shard0 set_n 5 shard_n reply_ok shard0_ok shard0_revision shard_n_reached)
    as (Hs & Hr & _).
  apply (counter_matches_sums granted shard_n (bs "n") 14 7 [(6, false, 3); (9, false, -2); (14, true, 10)]
    [Integer 10; Integer 8; Integer (-2)] Hs).
  - rewrite Hr. vm_compute. discriminate.
  - assert (entries shard_n !! bs "n" = Some (mkEntry (bs "7") (Some 15))) as He by (vm_compute; reflexivity).
    split; [unfold i64_min, i64_max; lia|]. rewrite He. split; [reflexivity|].
    intros e d [= <-] [= <-]. lia.
  - repeat constructor; try lia; discriminate.
  - unfold sums_in_range, changes, i64_min, i64_max. cbn. lia.
  - vm_compute. reflexivity.
  - intros e _ He. apply list_elem_of_In in He as [He|[He|[He|[]]]]; discriminate He.
Defined.
