(* ===== verification/Text.v ===== *)
(** * Text: [str] and [String]

    A [str] is the list of its characters, as Unicode scalar values.  The file
    holds the parts of the Rust standard library that the settings apply to
    text - UTF-8, [lines], [trim], [split_once], [str::parse::<usize>] - with
    their lemmas. *)

From S2P Require Import Prelude Bytes.

Local Open Scope Z_scope.

Abbreviation str := (list Z).

(** A string literal, in ASCII. *)
Definition st (s : string) : str := byte_val <$> bs s.

(** ** UTF-8 *)

Definition is_scalar (c : Z) : bool :=
  ((0 <=? c) && (c <? 55296)) || ((57344 <=? c) && (c <? 1114112)).

Definition char_bytes (c : Z) : bytes :=
  byte_of <$>
    if c <? 128 then [c]
    else if c <? 2048 then [192 + c / 64; 128 + c mod 64]
    else if c <? 65536 then [224 + c / 4096; 128 + c / 64 mod 64; 128 + c mod 64]
    else [240 + c / 262144; 128 + c / 4096 mod 64; 128 + c / 64 mod 64; 128 + c mod 64].

(** [str::as_bytes] and [str::len]. *)
Definition as_bytes (s : str) : bytes := s ≫= char_bytes.
Definition str_len (s : str) : Z := zlen (as_bytes s).

(** The payload of a continuation byte. *)
Definition continuation (b : byte) : option Z :=
  if (128 <=? byte_val b) && (byte_val b <? 192) then Some (byte_val b - 128) else None.

(** A character of at least [least], so not encoded in more bytes than needed. *)
Definition checked_char (least c : Z) : option Z :=
  if (least <=? c) && is_scalar c then Some c else None.

(** [std::str::from_utf8]. *)
Fixpoint from_utf8 (l : bytes) : option str :=
  match l with
  | [] => Some []
  | a :: l1 =>
      let x := byte_val a in
      if x <? 128 then (x ::.) <$> from_utf8 l1
      else
        match l1 with
        | [] => None
        | b :: l2 =>
            y ← continuation b;
            if x <? 224 then
              c ← checked_char 128 ((x - 192) * 64 + y); (c ::.) <$> from_utf8 l2
            else
              match l2 with
              | [] => None
              | b :: l3 =>
                  z ← continuation b;
                  if x <? 240 then
                    c ← checked_char 2048 ((x - 224) * 4096 + y * 64 + z); (c ::.) <$> from_utf8 l3
                  else
                    match l3 with
                    | [] => None
                    | b :: l4 =>
                        w ← continuation b;
                        c ← checked_char 65536 ((x - 240) * 262144 + y * 4096 + z * 64 + w);
                        (c ::.) <$> from_utf8 l4
                    end
              end
        end
  end.

(** ** Lines and trimming *)

(** [str::lines]: the last line may lack its newline; a carriage return before a
    newline belongs to it. *)
Fixpoint lines (s : str) : list str :=
  match s with
  | [] => []
  | c :: s1 =>
      if c =? 10 then [] :: lines s1
      else
        match s1 with
        | [] => [[c]]
        | d :: s2 =>
            if (c =? 13) && (d =? 10) then [] :: lines s2
            else match lines s1 with [] => [[c]] | l :: ls => (c :: l) :: ls end
        end
  end.

(** [char::is_whitespace]. *)
Definition is_whitespace (c : Z) : bool :=
  ((9 <=? c) && (c <=? 13)) || (c =? 32) || (c =? 133) || (c =? 160) || (c =? 5760)
  || ((8192 <=? c) && (c <=? 8202)) || (c =? 8232) || (c =? 8233) || (c =? 8239)
  || (c =? 8287) || (c =? 12288).

(** [str::trim_start_matches] for a predicate on characters. *)
Fixpoint trim_start (p : Z -> bool) (s : str) : str :=
  match s with
  | [] => []
  | c :: s1 => if p c then trim_start p s1 else s
  end.

Definition trim (s : str) : str :=
  reverse (trim_start is_whitespace (reverse (trim_start is_whitespace s))).

(** [str::split_once] for a character. *)
Fixpoint split_once (c : Z) (s : str) : option (str * str) :=
  match s with
  | [] => None
  | d :: s1 =>
      if d =? c then Some ([], s1) else '(before, after) ← split_once c s1; Some (d :: before, after)
  end.

Definition starts_with (c : Z) (s : str) : bool :=
  match s with d :: _ => d =? c | [] => false end.

(** ** Numbers *)

Definition is_digit (c : Z) : bool := (48 <=? c) && (c <=? 57).

(** The value of a digit: [char::to_digit] in base ten. *)
Definition digit_value (c : Z) : Z := c - 48.

(** [str::parse::<usize>] on digits: multiply and add with overflow checks. *)
Fixpoint parse_usize (acc : Z) (s : str) : option Z :=
  match s with
  | [] => Some acc
  | c :: s1 =>
      if is_digit c then
        scaled ← checked_usize (acc * 10);
        next ← checked_usize (scaled + digit_value c);
        parse_usize next s1
      else None
  end.

(** [n.to_string()]. *)
Definition str_dec (n : Z) : str := byte_val <$> dec n.

(** The number some digits stand for. *)
Definition str_undec (s : str) : Z := foldl (fun acc c => acc * 10 + digit_value c) 0 s.

(** ** Lemmas *)

Lemma byte_val_of z : 0 <= z < 256 -> byte_val (byte_of z) = z.
Proof.
  intros Hz. unfold byte_val, byte_of.
  destruct (Byte.of_N (Z.to_N z)) as [b|] eqn:Hb.
  - cbn. apply Byte.to_of_N in Hb. rewrite Hb. lia.
  - apply Byte.of_N_None_iff in Hb. lia.
Qed.

Lemma checked_char_Some least c : is_scalar c = true -> least <= c -> checked_char least c = Some c.
Proof. intros Hc Hl. unfold checked_char. by rewrite (proj2 (Z.leb_le _ _) Hl), Hc. Qed.

Lemma continuation_of n : 0 <= n < 64 -> continuation (byte_of (128 + n)) = Some n.
Proof.
  intros Hn. unfold continuation. rewrite byte_val_of by lia.
  rewrite (proj2 (Z.leb_le _ _)), (proj2 (Z.ltb_lt _ _)) by lia. cbn [andb]. f_equal. lia.
Qed.

(** Linear arithmetic with divisions by constants. *)
Ltac div_lia := Z.to_euclidean_division_equations; lia.

(** One character, then the rest. *)
Lemma from_utf8_char c l : is_scalar c = true -> from_utf8 (char_bytes c ++ l) = (c ::.) <$> from_utf8 l.
Proof.
  intros Hc. assert (0 <= c < 1114112) as Hb.
  { unfold is_scalar in Hc. apply orb_true_iff in Hc as [Hc|Hc]; zhyps; lia. }
  unfold char_bytes. destruct (c <? 128) eqn:H1; [|destruct (c <? 2048) eqn:H2; [|destruct (c <? 65536) eqn:H3]];
    zhyps; cbn [fmap list_fmap app from_utf8]; rewrite byte_val_of by div_lia.
  - rewrite (proj2 (Z.ltb_lt _ _)) by lia. done.
  - rewrite (proj2 (Z.ltb_ge _ 128)), (proj2 (Z.ltb_lt _ 224)) by div_lia.
    rewrite !continuation_of by (apply Z.mod_pos_bound; lia). cbn [mbind option_bind].
    replace ((192 + c / 64 - 192) * 64 + c mod 64) with c by div_lia.
    by rewrite checked_char_Some by (done || lia).
  - rewrite (proj2 (Z.ltb_ge _ 128)), (proj2 (Z.ltb_ge _ 224)), (proj2 (Z.ltb_lt _ 240)) by div_lia.
    rewrite !continuation_of by (apply Z.mod_pos_bound; lia). cbn [mbind option_bind].
    replace ((224 + c / 4096 - 224) * 4096 + c / 64 mod 64 * 64 + c mod 64) with c by div_lia.
    by rewrite checked_char_Some by (done || lia).
  - rewrite (proj2 (Z.ltb_ge _ 128)), (proj2 (Z.ltb_ge _ 224)), (proj2 (Z.ltb_ge _ 240)) by div_lia.
    rewrite !continuation_of by (apply Z.mod_pos_bound; lia). cbn [mbind option_bind].
    replace ((240 + c / 262144 - 240) * 262144 + c / 4096 mod 64 * 4096 + c / 64 mod 64 * 64 + c mod 64)
      with c by div_lia.
    by rewrite checked_char_Some by (done || lia).
Qed.

(** UTF-8 is decoded to what was encoded. *)
Lemma from_utf8_as_bytes s : Forall (fun c => is_scalar c = true) s -> from_utf8 (as_bytes s) = Some s.
Proof.
  induction 1 as [|c s Hc Hs IH]; [done|].
  change (as_bytes (c :: s)) with (char_bytes c ++ as_bytes s). by rewrite from_utf8_char, IH.
Qed.

Lemma as_bytes_app s t : as_bytes (s ++ t) = as_bytes s ++ as_bytes t.
Proof. unfold as_bytes. by rewrite bind_app. Qed.

Lemma str_len_app s t : str_len (s ++ t) = str_len s + str_len t.
Proof. unfold str_len. rewrite as_bytes_app, length_app. lia. Qed.

(** Characters that are not line ends, then a newline: one line. *)
Lemma lines_line l s : Forall (fun c => c <> 10) l -> last l <> Some 13 ->
  lines (l ++ 10 :: s) = l :: lines s.
Proof.
  induction l as [|c l IH]; intros Hl Hlast; [done|].
  apply Forall_cons in Hl as [Hc Hl]. cbn [app lines]. rewrite (proj2 (Z.eqb_neq _ _) Hc).
  destruct l as [|d l].
  - cbn [app]. destruct (c =? 13) eqn:H13; [apply Z.eqb_eq in H13; by subst|]. cbn [andb].
    cbn [lines Z.eqb Pos.eqb]. done.
  - cbn [app]. apply Forall_cons in Hl as Hd. destruct Hd as [Hd _].
    rewrite (proj2 (Z.eqb_neq d 10) Hd), andb_false_r.
    change (d :: l ++ 10 :: s) with ((d :: l) ++ 10 :: s). by rewrite IH.
Qed.

Lemma trim_start_id p s : match s with c :: _ => p c = false | [] => True end -> trim_start p s = s.
Proof. destruct s as [|c s]; [done|]. cbn. by intros ->. Qed.

(** Text that neither starts nor ends in a space. *)
Lemma trim_id c s d : is_whitespace c = false -> is_whitespace d = false ->
  trim (c :: s ++ [d]) = c :: s ++ [d].
Proof.
  intros Hc Hd. unfold trim. rewrite (trim_start_id _ (c :: _)) by done.
  rewrite reverse_cons, reverse_snoc. cbn [app]. rewrite trim_start_id by done.
  by rewrite reverse_cons, reverse_snoc, reverse_involutive.
Qed.

Lemma split_once_app c s t : Forall (fun d => d <> c) s -> split_once c (s ++ c :: t) = Some (s, t).
Proof.
  induction 1 as [|d s Hd Hs IH]; cbn [app split_once]; [by rewrite Z.eqb_refl|].
  by rewrite (proj2 (Z.eqb_neq _ _) Hd), IH.
Qed.

Lemma str_undec_ge s acc : Forall (fun c => is_digit c = true) s -> 0 <= acc ->
  acc <= foldl (fun acc c => acc * 10 + digit_value c) acc s.
Proof.
  intros Hs. revert acc. induction Hs as [|c s Hc Hs IH]; intros acc Ha; [done|]. cbn [foldl].
  unfold is_digit in Hc. zhyps. unfold digit_value in *. specialize (IH (acc * 10 + (c - 48))). lia.
Qed.

(** Parsing digits: their number, when it fits. *)
Lemma parse_usize_spec s acc : Forall (fun c => is_digit c = true) s -> 0 <= acc <= usize_max ->
  parse_usize acc s = checked_usize (foldl (fun acc c => acc * 10 + digit_value c) acc s).
Proof.
  intros Hs. revert acc. induction Hs as [|c s Hc Hs IH]; intros acc Ha; cbn [parse_usize foldl].
  { symmetry. by apply checked_usize_Some. }
  rewrite Hc. assert (0 <= digit_value c <= 9) as Hd by (unfold is_digit in Hc; zhyps; unfold digit_value; lia).
  assert (Hge := str_undec_ge s (acc * 10 + digit_value c) Hs ltac:(lia)).
  destruct (checked_usize (acc * 10)) as [scaled|] eqn:H1; cbn [mbind option_bind].
  - apply checked_usize_Some in H1 as [-> H1].
    destruct (checked_usize (acc * 10 + digit_value c)) as [next|] eqn:H2; cbn [mbind option_bind].
    + apply checked_usize_Some in H2 as [-> H2]. by apply IH.
    + symmetry. apply checked_usize_None. apply checked_usize_None in H2. lia.
  - symmetry. apply checked_usize_None. apply checked_usize_None in H1. lia.
Qed.
