(* ===== verification/Net.v ===== *)
(** * Socket addresses

    The addresses of [std::net] that the configuration holds, and the parts of
    [core::net::parser] that [str::parse::<SocketAddr>] runs.  A parser either
    consumes a prefix of its input or leaves it alone ([read_atomically]). *)

From S2P Require Import Prelude Bytes Text.

Local Open Scope Z_scope.

(** An IPv4 address by its first octet and the other three, an IPv6 address by
    its 128 bits. *)
Inductive IpAddr := V4 (octet : Z) (others : Z) | V6 (bits : Z).

(** The scope of an IPv6 address is 0 unless given; an IPv4 address has none. *)
Record SocketAddr := mkSocketAddr { ip : IpAddr; port : Z; scope_id : Z }.

(** [IpAddr::is_loopback]: 127.0.0.0/8 and ::1. *)
Definition is_loopback (a : IpAddr) : bool :=
  match a with V4 octet _ => octet =? 127 | V6 bits => bits =? 1 end.

(** ** Parsing *)

Definition parser (A : Type) : Type := bytes -> option (A * bytes).

Definition read_given_char (c : Z) : parser () := fun l =>
  match l with
  | b :: l => if byte_val b =? c then Some (tt, l) else None
  | [] => None
  end.

Definition read_separator {A} (c : Z) (first : bool) (inner : parser A) : parser A := fun l =>
  if first then inner l else '(_, l) ← read_given_char c l; inner l.

(** [char::to_digit]. *)
Definition to_digit (radix : Z) (b : byte) : option Z :=
  let x := byte_val b in
  let value :=
    if (48 <=? x) && (x <=? 57) then Some (x - 48)
    else if (97 <=? x) && (x <=? 122) then Some (x - 87)
    else if (65 <=? x) && (x <=? 90) then Some (x - 55)
    else None in
  d ← value; if d <? radix then Some d else None.

(** The digits of a number of a type with largest value [bound]: at most
    [max_digits] of them if given, with overflow checks otherwise. *)
Fixpoint read_digits (radix : Z) (max_digits : option Z) (bound : Z) (count acc : Z) (l : bytes) :
    option (Z * Z * bytes) :=
  match l with
  | [] => Some (acc, count, [])
  | b :: l1 =>
      match to_digit radix b with
      | None => Some (acc, count, l)
      | Some d =>
          let next := acc * radix + d in
          if match max_digits with Some m => m <? count + 1 | None => bound <? next end then None
          else read_digits radix max_digits bound (count + 1) next l1
      end
  end.

Definition read_number (radix : Z) (max_digits : option Z) (allow_zero_prefix : bool) (bound : Z) :
    parser Z := fun l =>
  let has_leading_zero := match l with b :: _ => byte_val b =? 48 | [] => false end in
  '(n, count, rest) ← read_digits radix max_digits bound 0 0 l;
  if count =? 0 then None
  else if negb allow_zero_prefix && has_leading_zero && (1 <? count) then None
  else if bound <? n then None
  else Some (n, rest).

Definition read_octet (first : bool) : parser Z := read_separator 46 first (read_number 10 (Some 3) false 255).

Definition read_ipv4_addr : parser (Z * Z * Z * Z) := fun l =>
  '(a, l) ← read_octet true l; '(b, l) ← read_octet false l;
  '(c, l) ← read_octet false l; '(d, l) ← read_octet false l;
  Some (a, b, c, d, l).

(** [read_groups] for [limit] groups: those read, whether they end in an embedded
    IPv4 address, and the rest. *)
Fixpoint read_groups (limit : nat) (first : bool) (l : bytes) : list Z * bool * bytes :=
  match limit with
  | O => ([], false, l)
  | S limit =>
      match (if bool_decide (limit = O) then None else read_separator 58 first read_ipv4_addr l) with
      | Some (a, b, c, d, l) => ([a * 256 + b; c * 256 + d], true, l)
      | None =>
          match read_separator 58 first (read_number 16 (Some 4) true 65535) l with
          | None => ([], false, l)
          | Some (group, l) =>
              let '(groups, embedded, l) := read_groups limit false l in (group :: groups, embedded, l)
          end
      end
  end.

Definition read_ipv6_addr : parser Z := fun l =>
  let '(head, head_ipv4, l) := read_groups 8 true l in
  let bits := foldl (fun acc g => acc * 65536 + g) 0 in
  if bool_decide (length head = 8%nat) then Some (bits head, l)
  else if head_ipv4 then None
  else
    '(_, l) ← read_given_char 58 l; '(_, l) ← read_given_char 58 l;
    let '(tail, _, l) := read_groups (8 - (length head + 1)) true l in
    Some (bits (head ++ replicate (8 - length head - length tail) 0 ++ tail), l).

Definition read_port : parser Z := fun l =>
  '(_, l) ← read_given_char 58 l; read_number 10 None true 65535 l.

Definition read_scope_id : parser Z := fun l =>
  '(_, l) ← read_given_char 37 l; read_number 10 None true (2 ^ 32 - 1) l.

Definition read_socket_addr_v4 : parser SocketAddr := fun l =>
  '(a, b, c, d, l) ← read_ipv4_addr l; '(p, l) ← read_port l;
  Some (mkSocketAddr (V4 a (b * 65536 + c * 256 + d)) p 0, l).

Definition read_socket_addr_v6 : parser SocketAddr := fun l =>
  '(_, l) ← read_given_char 91 l; '(bits, l) ← read_ipv6_addr l;
  let '(scope, l) := default (0, l) (read_scope_id l) in
  '(_, l) ← read_given_char 93 l; '(p, l) ← read_port l;
  Some (mkSocketAddr (V6 bits) p scope, l).

(** [str::parse::<SocketAddr>]: all of the text. *)
Definition parse_socket_addr (s : str) : option SocketAddr :=
  let l := as_bytes s in
  match (match read_socket_addr_v4 l with Some r => Some r | None => read_socket_addr_v6 l end) with
  | Some (a, []) => Some a
  | _ => None
  end.

Example parse_loopback : parse_socket_addr (st "127.0.0.1:6379") = Some (mkSocketAddr (V4 127 1) 6379 0).
Proof. vm_compute. reflexivity. Qed.

Example parse_v6 : parse_socket_addr (st "[::1%7]:080") = Some (mkSocketAddr (V6 1) 80 7).
Proof. vm_compute. reflexivity. Qed.

Example parse_v6_embedded : is_loopback <$> (ip <$> parse_socket_addr (st "[1:2::10.0.0.1]:1")) = Some false.
Proof. vm_compute. reflexivity. Qed.

Example parse_refuses :
  parse_socket_addr <$> [st "127.0.0.1"; st "127.0.0.01:1"; st "127.0.0.256:1"; st "127.0.0.1:65536";
    st "[1:2:3:4:5:6:7:8:9]:1"; st "localhost:1"; st "127.0.0.1:1 "; st "[::1]"] = replicate 8 None.
Proof. vm_compute. reflexivity. Qed.
