(* ===== verification/Config.v ===== *)
(** * The configuration ([recall-server/src/config.rs])

    The limits of the server, their validation, and how the payload budget is
    apportioned to the owners of the table. *)

From S2P Require Import Prelude Bytes Text Net Protocol Decoder Command Expiry.
From S2P Require Import Store StoreSpec StoreInvariant StoreTheorems.

Local Open Scope Z_scope.

(** Durations are counted in nanoseconds. *)
Record Config := mkConfig {
  bind : SocketAddr;
  workers : Z;
  io_threads : Z;
  max_connections : Z;
  queue_capacity : Z;
  queue_bytes : Z;
  admission_timeout : Z;
  read_timeout : Z;
  write_timeout : Z;
  expiry_interval : Z;
  expiry_batch : Z;
  config_payload_bytes : Z;
  keys_per_worker : Z;
  config_reply_bytes : Z;
  protocol : Limits;
  commands : ParseLimits;
  password : option bytes;
}.

Definition milliseconds (n : Z) : Z := n * 1000000.

(** [Config::default], given [available_parallelism]. *)
Definition default_config (cpus : option Z) : Config := {|
  bind := mkSocketAddr (V4 127 1) 6379 0;
  workers := Z.max 1 (Z.min 16 (Z.max 0 (default 4 cpus - 2)));
  io_threads := 2;
  max_connections := 128;
  queue_capacity := 256;
  queue_bytes := 4 * 1024 * 1024;
  admission_timeout := milliseconds 250;
  read_timeout := milliseconds 30000;
  write_timeout := milliseconds 10000;
  expiry_interval := milliseconds 10;
  expiry_batch := 64;
  config_payload_bytes := 512 * 1024 * 1024;
  keys_per_worker := 16384;
  config_reply_bytes := 4 * 1024 * 1024;
  protocol := default_limits;
  commands := default_parse_limits;
  password := None;
|}.

Definition within (lo hi n : Z) : bool := (lo <=? n) && (n <=? hi).

Definition u32_max : Z := 2 ^ 32 - 1.

(** [invalid]: an [io::Error] of kind [InvalidInput], by its message. *)
Definition invalid {A} (message : string) : res string A := Err message.

Definition validate (c : Config) : res string () :=
  if negb (is_loopback (ip (bind c)))
  then invalid "this milestone permits loopback binds only; transport security is not implemented"
  else if negb (within 1 64 (workers c))
    || negb (within 1 64 (io_threads c))
    || negb (within 1 65536 (max_connections c))
    || negb (within 1 65536 (queue_capacity c))
    || (queue_bytes c =? 0)
    || (u32_max <? queue_bytes c)
    || (keys_per_worker c =? 0)
    || (1048576 <? keys_per_worker c)
    || (config_payload_bytes c <? workers c)
  then invalid "invalid worker, connection, queue, key, or payload limit"
  else if (admission_timeout c =? 0)
    || (read_timeout c =? 0)
    || (write_timeout c =? 0)
    || (expiry_interval c =? 0)
    || (expiry_batch c =? 0)
  then invalid "timeouts and expiration budgets must be nonzero"
  else
    _ ← map_err protocol_message (validate_limits (protocol c));
    if (16 * 1024 * 1024 <? max_frame_bytes (protocol c))
      || (4096 <? max_arguments (protocol c))
      || (max_bulk_bytes (protocol c) <? max_key_bytes (commands c))
      || (max_bulk_bytes (protocol c) <? max_value_bytes (commands c))
      || (1024 <? max_client_metadata_bytes (commands c))
      || (config_reply_bytes c <? saturating_usize (max_value_bytes (commands c) + 64))
      || (64 * 1024 * 1024 <? config_reply_bytes c)
    then invalid "inconsistent or excessive protocol/command/reply limits"
    else if match password c with
            | Some p => bool_decide (p = []) || (1024 <? zlen p)
            | None => false
            end
    then invalid "the configured password must contain 1 to 1024 bytes"
    else Ok tt.

(** [Config::shard_limits]: the first owners get the remainder of the budget. *)
Definition shard_limits (c : Config) (owner : Z) : ShardLimits := {|
  max_keys := keys_per_worker c;
  max_payload_bytes := config_payload_bytes c / workers c
    + (if owner <? config_payload_bytes c mod workers c then 1 else 0);
  max_reply_bytes := config_reply_bytes c;
|}.

(** The fields are [usize] and [Duration] values. *)
Definition config_typed (c : Config) : Prop :=
  Forall (fun n => 0 <= n <= usize_max)
    [workers c; io_threads c; max_connections c; queue_capacity c; queue_bytes c; expiry_batch c;
     config_payload_bytes c; keys_per_worker c; config_reply_bytes c;
     max_frame_bytes (protocol c); max_bulk_bytes (protocol c); max_arguments (protocol c);
     max_header_bytes (protocol c);
     max_key_bytes (commands c); max_value_bytes (commands c); max_client_metadata_bytes (commands c)] /\
  Forall (fun n => 0 <= n)
    [admission_timeout c; read_timeout c; write_timeout c; expiry_interval c].

(** What validation establishes, for the components that rely on it. *)
Record config_ok (c : Config) : Prop := {
  ok_loopback : is_loopback (ip (bind c)) = true;
  ok_workers : 1 <= workers c <= 64;
  ok_connections : 1 <= max_connections c <= 65536;
  ok_queue : 1 <= queue_capacity c /\ 1 <= queue_bytes c <= u32_max;
  ok_keys : 1 <= keys_per_worker c <= 1048576;
  ok_payload_bytes : workers c <= config_payload_bytes c <= usize_max;
  ok_times : 0 < admission_timeout c /\ 0 < read_timeout c /\ 0 < write_timeout c /\
    0 < expiry_interval c;
  ok_batch : 1 <= expiry_batch c;
  ok_protocol : validate_limits (protocol c) = Ok tt;
  ok_command_limits : max_key_bytes (commands c) <= max_bulk_bytes (protocol c) /\
    max_value_bytes (commands c) <= max_bulk_bytes (protocol c);
  ok_values : 0 <= max_value_bytes (commands c);
  ok_reply : max_value_bytes (commands c) + 64 <= config_reply_bytes c <= 64 * 1024 * 1024;
  ok_password p : password c = Some p -> 1 <= zlen p <= 1024;
}.

(** Turn the refusal tests that did not fire into their bounds. *)
Lemma validate_ok c : config_typed c -> validate c = Ok tt -> config_ok c.
Proof.
  intros [Ht Hd]. repeat rewrite Forall_cons in Ht. repeat rewrite Forall_cons in Hd. cbv beta in Ht, Hd. unfold validate, within.
  destruct (is_loopback _) eqn:Hl; [cbn [negb]|done].
  destruct (_ || (config_payload_bytes c <? workers c)) eqn:H1; [done|].
  destruct (_ || (expiry_batch c =? 0)) eqn:H2; [done|].
  destruct (validate_limits (protocol c)) as [[]| |] eqn:Hp; [|done..]. cbn [map_err mbind res_bind].
  destruct (_ || (64 * 1024 * 1024 <? config_reply_bytes c)) eqn:H3; [done|].
  destruct (match password c with Some _ => _ | None => _ end) eqn:H4; [done|]. intros _.
  unfold saturating_usize in H3. zhyps.
  constructor; try done; try int_lia.
  intros p E. rewrite E in H4. apply orb_false_iff in H4 as [Hne Hlen].
  apply bool_decide_eq_false in Hne. apply Z.ltb_ge in Hlen. destruct p; [done|]. simpl in *. lia.
Qed.

(** ** The payload budget *)

Section Apportioning.
Context (c : Config) (Hw : 1 <= workers c) (Hp : 0 <= config_payload_bytes c).

(** The budgets of the first [n] owners. *)
Definition apportioned (n : nat) : Z :=
  foldr Z.add 0 ((fun i => max_payload_bytes (shard_limits c (Z.of_nat i))) <$> seq 0 n).

Lemma sum_app l k : foldr Z.add 0 (l ++ k) = foldr Z.add 0 l + foldr Z.add 0 k.
Proof. induction l as [|x l IH]; simpl; lia. Qed.

Lemma apportioned_prefix n : Z.of_nat n <= workers c ->
  apportioned n = Z.of_nat n * (config_payload_bytes c / workers c)
    + Z.min (Z.of_nat n) (config_payload_bytes c mod workers c).
Proof.
  unfold apportioned. induction n as [|n IH]; intros Hn.
  - simpl. assert (H := Z.mod_pos_bound (config_payload_bytes c) (workers c)). lia.
  - rewrite seq_S, fmap_app, sum_app, IH by lia. simpl. zcase; lia.
Qed.
End Apportioning.

(** The owners' payload budgets add up to exactly the configured budget, and
    no two of them differ by more than one byte. *)
Theorem shard_limits_apportion c : 1 <= workers c -> 0 <= config_payload_bytes c ->
  foldr Z.add 0 ((fun i => max_payload_bytes (shard_limits c (Z.of_nat i)))
    <$> seq 0 (Z.to_nat (workers c))) = config_payload_bytes c /\
  forall i j, Z.abs (max_payload_bytes (shard_limits c i) - max_payload_bytes (shard_limits c j)) <= 1.
Proof.
  intros Hw Hp. split.
  - fold (apportioned c (Z.to_nat (workers c))). rewrite apportioned_prefix by lia.
    assert (H := Z.mod_pos_bound (config_payload_bytes c) (workers c)).
    assert (H' := Z.div_mod (config_payload_bytes c) (workers c)). lia.
  - intros i j. simpl. repeat zcase; lia.
Qed.

Lemma shard_limits_apportion_witness :
  (fun i => max_payload_bytes (shard_limits (default_config None) (Z.of_nat i))) <$> seq 0 2
    = [268435456; 268435456] /\
  foldr Z.add 0 ((fun i => max_payload_bytes (shard_limits (default_config None) (Z.of_nat i)))
    <$> seq 0 2) = 536870912.
Proof.
  split; [vm_compute; reflexivity|].
  exact (proj1 (shard_limits_apportion (default_config None) ltac:(vm_compute; discriminate)
    ltac:(vm_compute; discriminate))).
Defined.

Lemma shard_limits_fine c owner : config_ok c -> 0 <= owner -> shard_limits_ok (shard_limits c owner) /\
  bad_limits (shard_limits c owner) = false.
Proof.
  intros Hc Ho. destruct (ok_workers c Hc), (ok_keys c Hc), (ok_payload_bytes c Hc), (ok_reply c Hc).
  assert (Hv := ok_values c Hc). assert (Hwp := ok_workers c Hc).
  assert (1 <= config_payload_bytes c / workers c) by (apply Z.div_le_lower_bound; lia).
  assert (config_payload_bytes c / workers c <= config_payload_bytes c) by
    (apply Z.div_le_upper_bound; nia).
  assert (Hm := Z.mod_pos_bound (config_payload_bytes c) (workers c)).
  assert (Hd := Z.div_mod (config_payload_bytes c) (workers c)).
  assert (shard_limits_ok (shard_limits c owner)) as Hok; [|split; [done|]].
  - specialize (Hm ltac:(lia)). specialize (Hd ltac:(lia)).
    assert (config_payload_bytes c / workers c <= workers c * (config_payload_bytes c / workers c)) by nia.
    unfold shard_limits_ok. simpl. zcase; int_lia.
  - apply bad_limits_spec; [..|done]; unfold shard_limits_ok in Hok; lia.
Qed.


(** The size of a bulk reply. *)
Lemma bulk_reply_length v : zlen v < 10 ^ 18 ->
  exists n, encoded_len (Bulk (Some v)) = Some n /\ n <= zlen v + 25.
Proof.
  intros Hv. exists (zlen (encode (Bulk (Some v)) [])).
  assert (zlen (encode (Bulk (Some v)) []) = 5 + zlen (dec (zlen v)) + zlen v) as Hl.
  { cbn [encode app]. rewrite !length_app. simpl. lia. }
  assert (H := dec_length_lt (zlen v) 18 ltac:(lia) ltac:(lia)).
  rewrite encoded_len_spec, (proj2 (checked_usize_Some _ (zlen (encode (Bulk (Some v)) [])))); [split; [done|lia]|].
  split; [done|]. unfold usize_max. lia.
Qed.

(** C35: A validated configuration never fails the construction of its components
    for its limits: every owner's shard limits and the decoder's limits are
    accepted, the server listens on a loopback address only, every request
    within the value limit has a reply within the reply limit, and every charge
    within the queue budget fits the 32 bits of a semaphore acquisition. *)
Theorem validate_sound c : config_typed c -> validate c = Ok tt ->
  (forall owner, 0 <= owner ->
     bad_limits (shard_limits c owner) = false /\ shard_limits_ok (shard_limits c owner)) /\
  (exists d, new_decoder (protocol c) = Ok d) /\
  is_loopback (ip (bind c)) = true /\
  (forall v, zlen v <= max_value_bytes (commands c) ->
     exists n, encoded_len (Bulk (Some v)) = Some n /\ n <= config_reply_bytes c) /\
  (forall charge, charge <= queue_bytes c -> charge <= u32_max).
Proof.
  intros Hty Hv. apply (validate_ok c Hty) in Hv as Hok. split_and!.
  - intros owner Ho. destruct (shard_limits_fine c owner Hok Ho). done.
  - unfold new_decoder. rewrite (ok_protocol c Hok). by eexists.
  - apply Hok.
  - intros v Hlen. destruct (ok_reply c Hok). destruct (bulk_reply_length v) as (n & Hn & Hle); [lia|].
    exists n. split; [done|lia].
  - intros charge. destruct (ok_queue c Hok). lia.
Qed.

Lemma default_config_typed cpus : config_typed (default_config cpus).
Proof.
  split; repeat apply Forall_cons_2; try apply Forall_nil_2;
    unfold usize_max; cbn -[Z.max Z.min Z.pow Z.sub]; unfold milliseconds; lia.
Qed.

Lemma validate_sound_witness :
  validate (default_config (Some 8)) = Ok tt /\
  shard_limits_ok (shard_limits (default_config (Some 8)) 3).
Proof.
  assert (validate (default_config (Some 8)) = Ok tt) as H by (vm_compute; reflexivity).
  split; [exact H|].
  exact (proj2 (proj1 (validate_sound _ (default_config_typed (Some 8)) H) 3 ltac:(lia))).
Defined.

(** The defaults are valid on every machine, whatever its parallelism. *)
Theorem default_config_valid cpus : validate (default_config cpus) = Ok tt.
Proof.
  unfold validate. cbn -[workers within Z.max Z.min].
  assert (1 <= workers (default_config cpus) <= 16) as Hw by (cbn -[Z.max Z.min]; lia).
  unfold within at 1. rewrite !(proj2 (Z.leb_le _ _)) by lia. cbn -[workers].
  rewrite (proj2 (Z.ltb_ge (512 * 1024 * 1024) _)) by lia. reflexivity.
Qed.
