(* ===== verification/Engine.v ===== *)
(** * Owners, routing and the cross-owner coordinator ([recall-server/src/engine.rs])

    Keys are routed by hash to owners, each a thread with its own shard.  A
    command whose keys have one owner is queued there; a command over several
    owners is queued at the coordinator, which reserves the owners in order,
    prepares the parts, decides, applies and releases.

    Owners, the coordinator and the clock interleave: [fire] executes one action
    of one of them.  A round trip of the coordinator with an owner is one action,
    at the moment the owner handles the message: the coordinator only waits in
    between.  The random hash function is a parameter. *)

From S2P Require Import Prelude Bytes Protocol Command Expiry Store Config.

Local Open Scope Z_scope.

(** ** Requests *)

(** A request and its one-shot response channel, named by its client. *)
Record DataRequest := mkDataRequest {
  client : nat;
  operation : Operation;
  credit : Z;
}.

Inductive Control :=
| Reserve (id : Z)
| Prepare (id : Z) (op : Operation) (now_ms : Z)
| Apply (id : Z)
| Release (id : Z)
| Stats
| Stop.

(** What an owner answers to a control message. *)
Inductive completion :=
| Completed
| PrepareResult (reply : Reply)
| PrepareError (e : EngineError)
| StatsResult (s : ShardStats).

Record Reservation := mkReservation {
  reservation_id : Z;
  prepared : option Prepared;
}.

(** A part of a cross-owner command. *)
Record Part := mkPart {
  part_owner : nat;
  part_operation : Operation;
  positions : list nat;
}.

(** ** Splitting and combining *)

(** [BTreeMap::entry(owner).or_default().push(x)], on the sorted entries. *)
Fixpoint group_push {A} (owner : nat) (x : A) (groups : list (nat * list A)) :
    list (nat * list A) :=
  match groups with
  | [] => [(owner, [x])]
  | (o, xs) :: rest =>
      if (owner =? o)%nat then (o, xs ++ [x]) :: rest
      else if (owner <? o)%nat then (owner, [x]) :: groups
      else (o, xs) :: group_push owner x rest
  end.

Definition group_all {A} (owner_of : A -> nat) (l : list A) : list (nat * list A) :=
  foldl (fun groups x => group_push (owner_of x) x groups) [] l.

(** [route]: the owner of a key. *)
Definition route (hash : bytes -> Z) (owners : nat) (key : bytes) : nat :=
  Z.to_nat (hash key mod Z.of_nat owners).

(** [split]; [None] is its [fatal]. *)
Definition split (hash : bytes -> Z) (owners : nat) (op : Operation) : option (list Part) :=
  let with_positions (f : list bytes -> Operation) (ks : list bytes) :=
    (fun g => mkPart g.1 (f g.2.*2) g.2.*1) <$>
      group_all (fun ik => route hash owners ik.2) (imap pair ks) in
  match op with
  | MultiSet pairs =>
      Some ((fun g => mkPart g.1 (MultiSet g.2) []) <$>
              group_all (fun kv => route hash owners kv.1) pairs)
  | Delete ks => Some (with_positions Delete ks)
  | Exists ks => Some (with_positions Exists ks)
  | MultiGet ks => Some (with_positions MultiGet ks)
  | _ => None
  end.

(** [response[position] = value] for each pair. *)
Fixpoint write_all (writes : list (nat * Reply)) (l : list Reply) : option (list Reply) :=
  match writes with
  | [] => Some l
  | (i, v) :: writes => _ ← l !! i; write_all writes (<[i := v]> l)
  end.

(** One participant's values in the reply of MGET. *)
Definition combine_values (response : list Reply) (part : Part) (result : Reply) :
    option (list Reply) :=
  match result with
  | Array values =>
      if (length (positions part) =? length values)%nat
      then write_all (zip (positions part) values) response
      else None
  | _ => None
  end.

Fixpoint combine_all (response : list Reply) (l : list (Part * Reply)) : option (list Reply) :=
  match l with
  | [] => Some response
  | (part, result) :: l => response ← combine_values response part result; combine_all response l
  end.

(** The sum of integer replies, an [i64]. *)
Fixpoint sum_replies (sum : Z) (results : list Reply) : option Z :=
  match results with
  | [] => Some sum
  | Integer n :: results => sum ← checked_i64 (sum + n); sum_replies sum results
  | _ => None
  end.

Definition combine (op : Operation) (parts : list Part) (results : list Reply) : option Reply :=
  match op with
  | MultiSet _ => Some reply_ok
  | MultiGet ks =>
      response ← combine_all (replicate (length ks) (Bulk None)) (zip parts results);
      Some (Array response)
  | Delete _ | Exists _ => sum ← sum_replies 0 results; Some (Integer sum)
  | _ => None
  end.

(** ** Admission *)

(** The credits a request is charged: its payload and a conservative amount for
    its arguments. *)
Definition request_charge (op : Operation) : Z :=
  saturating_usize
    (saturating_usize (payload_bytes op + saturating_usize (zlen (keys op) * 128)) + 256).

Inductive admission :=
| Refuse (reply : Reply)
| AdmitLocal (owner : nat) (charge : Z)
| AdmitCross (charge : Z).

(** [EngineHandle::execute] up to the queues. *)
Definition admit_request (hash : bytes -> Z) (owners : nat) (queue_bytes : Z) (closing : bool)
    (op : Operation) : admission :=
  if closing then Refuse (reply_error "BUSY Recall is shutting down")
  else
    match keys op with
    | [] => Refuse (reply_error "ERR empty key set")
    | first_key :: _ =>
        let first_owner := route hash owners first_key in
        let charge := request_charge op in
        if (queue_bytes <? charge) || (u32_max <? charge)
        then Refuse (reply_error "BUSY command exceeds queue byte capacity")
        else if forallb (fun key => (route hash owners key =? first_owner)%nat) (keys op)
        then AdmitLocal first_owner charge
        else AdmitCross charge
    end.

(** ** Owners *)

Section Owner.
Context {I : Type} `{TimerIndex I}.

Record Owner := mkOwner {
  shard : Shard I;
  reservation : option Reservation;
  data : list DataRequest;
  data_turn : bool;
  stopping : bool;
}.

Implicit Types o : Owner.

Definition set_shard o (s : Shard I) : Owner :=
  mkOwner s (reservation o) (data o) (data_turn o) (stopping o).

Definition set_reservation o (r : option Reservation) : Owner :=
  mkOwner (shard o) r (data o) (data_turn o) (stopping o).

Definition set_data o (l : list DataRequest) : Owner :=
  mkOwner (shard o) (reservation o) l (data_turn o) (stopping o).

Definition set_data_turn o (b : bool) : Owner :=
  mkOwner (shard o) (reservation o) (data o) b (stopping o).

(** [execute_local]; [None] is a panic. *)
Definition execute_local (reserve : allocator) (s : Shard I) (op : Operation) (now_ms : Z) :
    option (Shard I * Reply) :=
  match Store.execute reserve s op now_ms with
  | Ok (s, r) => Some (s, r)
  | Err e => Some (s, engine_error_reply e)
  | Panic => None
  end.

(** The match of [owner_loop] on a control message; [None] is a panic. *)
Definition handle_control (reserve : allocator) o (message : Control) : option (Owner * completion) :=
  match message with
  | Reserve id =>
      match reservation o with
      | Some _ => None
      | None => Some (set_reservation o (Some (mkReservation id None)), Completed)
      end
  | Prepare id op now_ms =>
      active ← reservation o;
      if negb (reservation_id active =? id) then None
      else
        match prepared active with
        | Some _ => None
        | None =>
            match Store.prepare reserve (shard o) op now_ms with
            | Ok p => Some (set_reservation o (Some (mkReservation id (Some p))),
                            PrepareResult (response p))
            | Err e => Some (o, PrepareError e)
            | Panic => None
            end
        end
  | Apply id =>
      active ← reservation o;
      if negb (reservation_id active =? id) then None
      else
        p ← prepared active;
        '(s, _) ← Store.apply (shard o) p;
        Some (set_shard (set_reservation o (Some (mkReservation id None))) s, Completed)
  | Release id =>
      active ← reservation o;
      if negb (reservation_id active =? id) then None
      else Some (set_data_turn (set_reservation o None) true, Completed)
  | Stats => Some (set_data_turn o true, StatsResult (stats (shard o)))
  | Stop =>
      match reservation o with
      | Some _ => None
      | None => Some (mkOwner (shard o) None (data o) (data_turn o) true, Completed)
      end
  end.

(** Serving the first queued request, if any, with its reply. *)
Definition serve_data (reserve : allocator) o (now_ms : Z) :
    option (Owner * option (DataRequest * Reply)) :=
  match data o with
  | [] => Some (o, None)
  | req :: rest =>
      '(s, r) ← execute_local reserve (shard o) (operation req) now_ms;
      Some (set_data (set_shard o s) rest, Some (req, r))
  end.

(** The head of the loop has the turn of the data queue pending. *)
Definition turn_pending o : bool := data_turn o && bool_decide (reservation o = None).

(** What an owner does on its own: the head of the loop when a turn is pending,
    and otherwise a branch of the [select!] other than the control channel. *)
Inductive owner_branch := DataTurn | TickBranch | DataBranch.

(** [Err] when the branch is disabled, [Panic] when it panics. *)
Definition owner_act (reserve : allocator) (batch : nat) o (now_ms : Z) (b : owner_branch) :
    res () (Owner * option (DataRequest * Reply)) :=
  match b with
  | DataTurn =>
      if turn_pending o then expect (serve_data reserve (set_data_turn o false) now_ms) else Err tt
  | TickBranch =>
      if turn_pending o || bool_decide (is_Some (reservation o)) || stopping o then Err tt
      else
        '(s, _) ← expect (expire_due (shard o) now_ms batch);
        Ok (set_data_turn (set_shard o s) true, None)
  | DataBranch =>
      if turn_pending o || bool_decide (is_Some (reservation o)) || bool_decide (data o = []) then Err tt
      else expect (serve_data reserve o now_ms)
  end.
End Owner.
Arguments Owner : clear implicits.

#[export] Instance reservation_eq_none_dec (r : option Reservation) : Decision (r = None).
Proof. destruct r; [right; discriminate|left; reflexivity]. Defined.
