(* ===== verification/EngineSplit.v ===== *)
(** * Splitting a command over owners and combining the replies

    [split] partitions the keys by owner, in ascending order of owners and
    keeping the order of the keys; the specification of an operation is local to
    its keys; and combining the specified replies of the parts gives the
    specified reply of the whole ([combine_spec]). *)

From S2P Require Import Prelude Bytes Protocol Command Expiry Store StoreSpec StoreLemmas.
From S2P Require Import StoreEffects StoreTheorems Config Engine.

Local Open Scope Z_scope.

(** ** Grouping *)

Section Groups.
Context {A : Type}.
Implicit Types (g : list (nat * list A)) (l : list A).

(** The group of an owner, empty when absent. *)
Definition group_of g (o : nat) : list A := concat ((fun p => if decide (p.1 = o) then p.2 else []) <$> g).

Definition groups_sorted g : Prop := Sorted.StronglySorted lt g.*1.

Lemma group_of_absent g o : o ∉ g.*1 -> group_of g o = [].
Proof.
  unfold group_of. induction g as [|[o' xs] g IH]; intros Ho; [done|]. cbn [fmap list_fmap concat] in *.
  rewrite decide_False by set_solver. apply IH. set_solver.
Qed.

Lemma group_push_keys o x g : forall o', o' ∈ (group_push o x g).*1 <-> o' = o \/ o' ∈ g.*1.
Proof.
  intros o'. induction g as [|[o1 xs] g IH]; cbn [group_push fmap list_fmap]; [set_solver|].
  destruct (Nat.eqb_spec o o1); [subst; cbn; set_solver|].
  destruct (Nat.ltb_spec o o1); cbn; [set_solver|]. rewrite !elem_of_cons, IH. set_solver.
Qed.

Lemma group_push_sorted o x g : groups_sorted g -> groups_sorted (group_push o x g).
Proof.
  unfold groups_sorted. induction g as [|[o1 xs] g IH]; intros Hg; cbn [group_push fmap list_fmap].
  { repeat constructor. }
  inversion Hg as [|? ? Hs Hall]; subst. destruct (Nat.eqb_spec o o1); [done|].
  destruct (Nat.ltb_spec o o1); cbn.
  - constructor; [done|]. constructor; [done|]. eapply Forall_impl; [exact Hall|]. simpl. lia.
  - constructor; [by apply IH|]. apply Forall_forall. intros o' [->|Ho']%group_push_keys; [lia|].
    rewrite Forall_forall in Hall. by apply Hall.
Qed.

Lemma group_push_of o x g o' : groups_sorted g ->
  group_of (group_push o x g) o' = if decide (o = o') then group_of g o' ++ [x] else group_of g o'.
Proof.
  unfold groups_sorted. induction g as [|[o1 xs] g IH]; intros Hg.
  { unfold group_of. cbn. case_decide; done. }
  inversion Hg as [|? ? Hs Hall]; subst. cbn [group_push].
  assert (forall p, p < o1 -> p ∉ g.*1)%nat as Hlt.
  { intros p Hp Hin. rewrite Forall_forall in Hall. assert (G := Hall _ Hin). lia. }
  destruct (Nat.eqb_spec o o1) as [->|Hne]; [|destruct (Nat.ltb_spec o o1)].
  - unfold group_of. cbn [fmap list_fmap concat fst snd]. case_decide as E; [subst|done].
    fold (group_of g o'). rewrite (group_of_absent g o'), !app_nil_r; [done|].
    intros Hin. rewrite Forall_forall in Hall. assert (G := Hall _ Hin). lia.
  - unfold group_of. cbn [fmap list_fmap concat fst snd]. case_decide as E; [subst|done].
    rewrite decide_False by done. fold (group_of g o'). by rewrite group_of_absent by (apply Hlt; lia).
  - specialize (IH Hs). unfold group_of in *. cbn [fmap list_fmap concat fst snd]. rewrite IH.
    case_decide; [|done]. subst. by rewrite decide_False by done.
Qed.

Lemma group_push_nonempty o x g : Forall (fun p => p.2 <> []) g ->
  Forall (fun p => p.2 <> []) (group_push o x g).
Proof.
  induction g as [|[o1 xs] g IH]; intros Hg; cbn [group_push]; [by repeat constructor|].
  apply Forall_cons in Hg as [Hxs Hg].
  destruct (_ =? _)%nat; [constructor; [|done]; cbn; by destruct xs|].
  destruct (_ <? _)%nat; [by repeat constructor|]. constructor; [done|]. by apply IH.
Qed.

Lemma group_all_snoc owner_of l x :
  group_all owner_of (l ++ [x]) = group_push (owner_of x) x (group_all owner_of l).
Proof. unfold group_all. by rewrite foldl_app. Qed.

Lemma group_all_sorted owner_of l : groups_sorted (group_all owner_of l).
Proof.
  induction l as [|x l IH] using rev_ind; [constructor|].
  rewrite group_all_snoc. by apply group_push_sorted.
Qed.

Lemma group_all_of owner_of l o :
  group_of (group_all owner_of l) o = filter (fun x => owner_of x = o) l.
Proof.
  induction l as [|x l IH] using rev_ind; [done|].
  rewrite group_all_snoc, group_push_of, IH by apply group_all_sorted. rewrite filter_app.
  cbn. case_decide; [done|]. by rewrite app_nil_r.
Qed.

Lemma group_all_nonempty owner_of l : Forall (fun p => p.2 <> []) (group_all owner_of l).
Proof.
  induction l as [|x l IH] using rev_ind; [constructor|].
  rewrite group_all_snoc. by apply group_push_nonempty.
Qed.

Lemma sorted_NoDup g : groups_sorted g -> NoDup g.*1.
Proof.
  unfold groups_sorted. induction g.*1 as [|o os IH]; intros Hs; [constructor|].
  inversion Hs as [|? ? H1 H2]; subst. constructor; [|by apply IH].
  intros Hin. rewrite Forall_forall in H2. assert (G := H2 _ Hin). lia.
Qed.

Lemma group_of_elem g o xs : NoDup g.*1 -> (o, xs) ∈ g -> group_of g o = xs.
Proof.
  induction g as [|[o1 ys] g IH]; intros Hnd Hin; [by apply not_elem_of_nil in Hin|].
  cbn in Hnd. apply NoDup_cons in Hnd as [Ho Hnd]. unfold group_of. cbn [fmap list_fmap concat fst snd].
  apply elem_of_cons in Hin as [[= -> ->]|Hin].
  - rewrite decide_True by done. fold (group_of g o1). by rewrite group_of_absent, app_nil_r.
  - rewrite decide_False; [by apply IH|]. intros ->. apply Ho.
    apply list_elem_of_fmap. by exists (o, xs).
Qed.

(** The members of a group: its owner's elements, in order. *)
Lemma group_all_elem owner_of l o xs : (o, xs) ∈ group_all owner_of l ->
  xs = filter (fun x => owner_of x = o) l /\ xs <> [].
Proof.
  intros Hin. split.
  - rewrite <- group_all_of. symmetry. apply group_of_elem; [|done].
    apply sorted_NoDup, group_all_sorted.
  - assert (G := group_all_nonempty owner_of l). rewrite Forall_forall in G. by apply (G _ Hin).
Qed.

Lemma group_push_permutation o x g : concat (group_push o x g).*2 ≡ₚ x :: concat g.*2.
Proof.
  induction g as [|[o1 xs] g IH]; [done|]. cbn [group_push].
  destruct (_ =? _)%nat; [|destruct (_ <? _)%nat]; cbn [fmap list_fmap concat snd fst].
  - rewrite <- app_assoc. symmetry. apply Permutation_middle.
  - done.
  - rewrite IH. symmetry. apply Permutation_middle.
Qed.

Lemma group_all_permutation owner_of l : concat (group_all owner_of l).*2 ≡ₚ l.
Proof.
  induction l as [|x l IH] using rev_ind; [done|].
  rewrite group_all_snoc, group_push_permutation, IH. apply Permutation_cons_append.
Qed.
End Groups.

(** ** Locality of the specification *)

Definition agree (ks : list bytes) (m1 m2 : table) : Prop := forall k, k ∈ ks -> m1 !! k = m2 !! k.

Definition named (ks : list bytes) (m : table) : table := filter (fun kv => kv.1 ∈ ks) m.

Lemma named_agree ks m1 m2 : agree ks m1 m2 -> named ks m1 = named ks m2.
Proof.
  intros Ha. apply map_eq. intros k. apply option_eq. intros e. unfold named.
  rewrite !map_lookup_filter_Some. simpl. split; intros [H Hk]; (split; [|done]).
  - by rewrite <- (Ha k Hk).
  - by rewrite (Ha k Hk).
Qed.

Lemma removed_count (ks : list bytes) (m : table) :
  Z.of_nat (size m) - Z.of_nat (size (filter (fun kv => kv.1 ∉ ks) m)) = Z.of_nat (size (named ks m)).
Proof.
  assert (size m = size (named ks m) + size (filter (fun kv => kv.1 ∉ ks) m))%nat; [|lia].
  rewrite <- map_size_disj_union by apply map_disjoint_filter_complement.
  unfold named. by rewrite map_filter_union_complement.
Qed.

Lemma agree_insert ks m1 m2 k e : agree ks m1 m2 -> agree ks (<[k := e]> m1) (<[k := e]> m2).
Proof.
  intros Ha k' Hk'. destruct (decide (k = k')) as [<-|];
    by rewrite ?lookup_insert_eq, ?lookup_insert_ne by done; auto.
Qed.

Lemma agree_delete ks m1 m2 k : agree ks m1 m2 -> agree ks (delete k m1) (delete k m2).
Proof.
  intros Ha k' Hk'. destruct (decide (k = k')) as [<-|];
    by rewrite ?lookup_delete_eq, ?lookup_delete_ne by done; auto.
Qed.

Lemma agree_filter (ks : list bytes) m1 m2 : agree ks m1 m2 ->
  agree ks (filter (fun kv => kv.1 ∉ ks) m1) (filter (fun kv => kv.1 ∉ ks) m2).
Proof.
  intros Ha k Hk. apply option_eq. intros e. rewrite !map_lookup_filter_Some, (Ha k Hk). done.
Qed.

(** The reply, and the result on the keys, depend on the keys only. *)
Lemma spec_exec_local m1 m2 op now : agree (keys op) m1 m2 ->
  match spec_exec m1 op now with
  | Ok (r, m1') => exists m2', spec_exec m2 op now = Ok (r, m2') /\ agree (keys op) m1' m2'
  | Err e => spec_exec m2 op now = Err e
  | Panic => spec_exec m2 op now = Panic
  end.
Proof.
  destruct op as [k|k v c e|k n sub|ks|ks|ks|pairs|k n|k ms|k]; cbn [spec_exec keys]; intros Ha.
  all: try (assert (m1 !! k = m2 !! k) as Hk by (apply Ha; constructor); rewrite Hk).
  - eauto.
  - destruct (spec_deadline _ _ _); cbn [mbind res_bind]; [|done..].
    destruct (allows _ _); eexists; (split; [reflexivity|]); [by apply agree_insert|done].
  - destruct (_ && _); [done|]. destruct (spec_number _); cbn [mbind res_bind]; [|done..].
    destruct (in_i64 _); [|done]. eexists. split; [reflexivity|]. by apply agree_insert.
  - rewrite !removed_count, (named_agree _ _ _ Ha). eexists. split; [reflexivity|]. by apply agree_filter.
  - exists m2. split; [|done]. do 4 f_equal.
    assert (Forall (fun k => is_Some (m1 !! k) <-> is_Some (m2 !! k)) ks) as Hf.
    { apply Forall_forall. intros k Hk. by rewrite (Ha k Hk). }
    clear Ha. induction Hf as [|k ks Hk _ IH]; [done|]. rewrite !filter_cons.
    repeat case_decide; naive_solver.
  - exists m2. split; [|done]. do 3 f_equal. apply list_fmap_ext.
    intros i k Hk. by rewrite (Ha k) by (by eapply list_elem_of_lookup_2).
  - eexists. split; [reflexivity|]. intros k Hk. by apply foldl_assign_eq.
  - destruct (m2 !! k); [|by eauto]. destruct (_ <=? _); [eexists; split; [reflexivity|]; by apply agree_delete|].
    destruct (in_i64 _); [|done]. eexists. split; [reflexivity|]. by apply agree_insert.
  - eauto.
  - destruct (m2 !! k) as [[v [d|]]|]; [|by eauto..]. eexists. split; [reflexivity|]. by apply agree_insert.
Qed.

(** ** The parts of a command *)

(** The commands [split] accepts. *)
Definition is_multi (op : Operation) : bool :=
  match op with MultiSet _ | Delete _ | Exists _ | MultiGet _ => true | _ => false end.

Lemma split_is_multi hash n op : is_Some (split hash n op) <-> is_multi op = true.
Proof. destruct op; simpl; split; try done; intros []; done. Qed.

Section Split.
Context (hash : bytes -> Z) (n : nat).
Implicit Types (op : Operation) (p : Part) (parts : list Part).

(** The keys of [ks] that belong to an owner, in order. *)
Definition keys_of (o : nat) (ks : list bytes) : list bytes := filter (fun k => route hash n k = o) ks.

Lemma fmap_filter {B} (f : B -> bytes) (l : list B) o :
  f <$> filter (fun x => route hash n (f x) = o) l = keys_of o (f <$> l).
Proof.
  induction l as [|x l IH]; [done|]. unfold keys_of in *. rewrite fmap_cons, !filter_cons.
  case_decide; [|done]. cbn. by rewrite IH.
Qed.

Lemma fmap_imap_pair (ks : list bytes) i : (imap (fun j k => (i + j, k)%nat) ks).*2 = ks.
Proof.
  revert i. induction ks as [|k ks IH]; intros i; [done|]. cbn. f_equal.
  rewrite <- (IH (S i)) at 2. f_equal. apply imap_ext. intros j k' _. cbn. f_equal. lia.
Qed.

Lemma imap_pair_snd (ks : list bytes) : (imap pair ks).*2 = ks.
Proof. apply (fmap_imap_pair ks 0). Qed.

Lemma imap_pair_elem (ks : list bytes) i k : (i, k) ∈ imap pair ks <-> ks !! i = Some k.
Proof.
  rewrite list_elem_of_lookup. setoid_rewrite list_lookup_imap_Some. split.
  - by intros (j & x & Hx & [= <- <-]).
  - intros Hk. exists i, k. done.
Qed.

(** What [split] makes of a command. *)
Record split_of op parts : Prop := {
  split_sorted : Sorted.StronglySorted lt (part_owner <$> parts);
  split_keys p : p ∈ parts -> keys (part_operation p) = keys_of (part_owner p) (keys op) /\
    keys (part_operation p) <> [] /\ is_multi (part_operation p) = true;
  split_cover : concat ((fun p => keys (part_operation p)) <$> parts) ≡ₚ keys op;
  split_positions ks p : op = MultiGet ks -> p ∈ parts ->
    part_operation p = MultiGet (keys (part_operation p)) /\
    length (positions p) = length (keys (part_operation p)) /\
    forall i k, (i, k) ∈ zip (positions p) (keys (part_operation p)) <->
      ks !! i = Some k /\ route hash n k = part_owner p;
  split_delete ks p : op = Delete ks -> p ∈ parts -> part_operation p = Delete (keys (part_operation p));
  split_exists ks p : op = Exists ks -> p ∈ parts -> part_operation p = Exists (keys (part_operation p));
  split_set pairs p : op = MultiSet pairs -> p ∈ parts ->
    part_operation p = MultiSet (filter (fun kv => route hash n kv.1 = part_owner p) pairs);
}.

(** The parts with positions of DEL, EXISTS and MGET. *)
Definition positioned (f : list bytes -> Operation) (ks : list bytes) : list Part :=
  (fun g => mkPart g.1 (f g.2.*2) g.2.*1) <$>
    group_all (fun ik => route hash n ik.2) (imap pair ks).

Lemma positioned_elem f ks p : p ∈ positioned f ks ->
  let l := filter (fun ik => route hash n ik.2 = part_owner p) (imap pair ks) in
  part_operation p = f l.*2 /\ positions p = l.*1 /\ l <> [] /\ l.*2 = keys_of (part_owner p) ks.
Proof.
  intros ([o l'] & -> & Hin)%list_elem_of_fmap l. cbn in *.
  apply group_all_elem in Hin as [-> Hne]. split_and!; [done..|].
  subst l. cbn. by rewrite (fmap_filter snd), imap_pair_snd.
Qed.

Lemma positioned_cover f ks : (forall l, keys (f l) = l) ->
  concat ((fun p => keys (part_operation p)) <$> positioned f ks) ≡ₚ ks.
Proof.
  intros Hf. unfold positioned. rewrite <- list_fmap_compose.
  assert (forall g : list (nat * list (nat * bytes)),
    concat (((fun p => keys (part_operation p)) ∘ (fun g => mkPart g.1 (f g.2.*2) g.2.*1)) <$> g)
    = (concat g.*2).*2) as ->.
  { intros g. induction g as [|[o xs] g IH]; [done|].
    cbn [fmap list_fmap concat compose part_operation fst snd]. rewrite Hf, fmap_app. f_equal. exact IH. }
  rewrite group_all_permutation. by rewrite imap_pair_snd.
Qed.

Lemma positioned_split f ks op : (forall l, keys (f l) = l) -> (forall l, is_multi (f l) = true) ->
  keys op = ks -> is_multi op = true -> (forall pairs, op <> MultiSet pairs) ->
  (forall l, op = MultiGet l -> f = MultiGet) -> (forall l, op = Delete l -> f = Delete) ->
  (forall l, op = Exists l -> f = Exists) -> split_of op (positioned f ks).
Proof.
  intros Hf Hfm Hks Hm Hns Hg Hd He. constructor.
  - unfold positioned. rewrite <- list_fmap_compose. apply group_all_sorted.
  - intros p Hp. apply positioned_elem in Hp as (Hop & _ & Hne & Hl). rewrite Hop, Hf, Hl, Hks.
    split_and!; [done| |apply Hfm]. intros E. apply Hne. rewrite <- Hl in E. by apply fmap_nil_inv in E.
  - rewrite Hks. by apply positioned_cover.
  - intros l p Hop Hp. apply positioned_elem in Hp as (Hpo & Hpos & _ & _).
    rewrite Hpo, (Hg l Hop), Hpos. cbn [keys]. split_and!; [done|by rewrite !length_fmap|].
    intros i k. rewrite zip_fst_snd, list_elem_of_filter, imap_pair_elem. cbn [snd].
    rewrite Hop in Hks. cbn in Hks. subst l. tauto.
  - intros l p Hop Hp. apply positioned_elem in Hp as (Hpo & _). by rewrite Hpo, (Hd l Hop).
  - intros l p Hop Hp. apply positioned_elem in Hp as (Hpo & _). by rewrite Hpo, (He l Hop).
  - intros pairs p Hop. by apply Hns in Hop.
Qed.

Lemma set_split pairs : split_of (MultiSet pairs)
  ((fun g => mkPart g.1 (MultiSet g.2) []) <$> group_all (fun kv => route hash n kv.1) pairs).
Proof.
  constructor; try done.
  - rewrite <- list_fmap_compose. apply group_all_sorted.
  - intros p ([o l] & -> & Hin)%list_elem_of_fmap. cbn in *.
    apply group_all_elem in Hin as [-> Hne]. rewrite (fmap_filter fst). split_and!; [done| |done].
    intros E. apply Hne. rewrite <- (fmap_filter fst) in E. by apply fmap_nil_inv in E.
  - rewrite <- list_fmap_compose. cbn [keys].
    assert (forall g : list (nat * list (bytes * bytes)),
      concat (((fun p => keys (part_operation p)) ∘ (fun g => mkPart g.1 (MultiSet g.2) [])) <$> g)
      = (concat g.*2).*1) as ->.
    { intros g. induction g as [|[o xs] g IH]; [done|].
      cbn [fmap list_fmap concat compose part_operation fst snd keys]. rewrite fmap_app. f_equal. exact IH. }
    by rewrite group_all_permutation.
  - intros pairs' p [= <-] ([o l] & -> & Hin)%list_elem_of_fmap. cbn in *.
    by apply group_all_elem in Hin as [-> _].
Qed.

Lemma split_spec op : is_multi op = true -> exists parts, split hash n op = Some parts /\ split_of op parts.
Proof.
  intros Hm. destruct op as [| | |ks|ks|ks|pairs| | |]; try done; cbn [split]; eexists; (split; [reflexivity|]).
  - apply (positioned_split Delete ks); by try done.
  - apply (positioned_split Exists ks); by try done.
  - apply (positioned_split MultiGet ks); by try done.
  - apply set_split.
Qed.
End Split.

(** ** Combining *)

Definition sum (ns : list Z) : Z := foldr Z.add 0 ns.

Lemma sum_replies_spec ns start : Forall (fun m => 0 <= m) ns -> 0 <= start ->
  start + sum ns <= i64_max -> sum_replies start (Integer <$> ns) = Some (start + sum ns).
Proof.
  revert start. induction ns as [|m ns IH]; intros start Hns Hs Hb; cbn [sum_replies fmap list_fmap sum foldr] in *.
  { f_equal. lia. }
  apply Forall_cons in Hns as [Hm Hns].
  assert (0 <= sum ns) by (clear -Hns; induction Hns; simpl; lia). unfold sum in *.
  rewrite checked_i64_in by (unfold i64_min; lia). cbn [mbind option_bind].
  rewrite IH by (done || lia). f_equal. lia.
Qed.

(** Writing the right values at some positions. *)
Lemma write_all_spec writes (l target : list Reply) : length l = length target ->
  (forall i v, (i, v) ∈ writes -> target !! i = Some v) ->
  exists l', write_all writes l = Some l' /\ length l' = length target /\
    forall i, l' !! i = if decide (i ∈ writes.*1) then target !! i else l !! i.
Proof.
  revert l. induction writes as [|[i v] writes IH]; intros l Hl Hw.
  { exists l. split_and!; [done..|]. intros i. by rewrite decide_False by apply not_elem_of_nil. }
  cbn [write_all]. assert (target !! i = Some v) as Hv by (apply Hw; constructor).
  destruct (lookup_lt_is_Some_2 l i) as [old ->]; [rewrite Hl; by eapply lookup_lt_Some|].
  cbn [mbind option_bind]. destruct (IH (<[i := v]> l)) as (l' & -> & Hl' & Hlook).
  - by rewrite length_insert.
  - intros j w Hj. apply Hw. by constructor.
  - exists l'. split_and!; [done..|]. intros j. rewrite Hlook. cbn [fmap list_fmap fst].
    destruct (decide (j ∈ writes.*1)) as [Hj|Hj].
    + by rewrite decide_True by (by constructor).
    + destruct (decide (i = j)) as [<-|Hne].
      * rewrite decide_True by constructor. rewrite list_lookup_insert_eq; [done|].
        rewrite Hl. by eapply lookup_lt_Some.
      * rewrite list_lookup_insert_ne by done. rewrite decide_False by set_solver. done.
Qed.

Lemma list_eq_target {A} (l target : list A) : length l = length target ->
  (forall i x, target !! i = Some x -> l !! i = Some x) -> l = target.
Proof.
  intros Hl Hx. apply list_eq. intros i. destruct (target !! i) as [x|] eqn:E; [by apply Hx|].
  apply lookup_ge_None. apply lookup_ge_None in E. lia.
Qed.

Section Combine.
Context (hash : bytes -> Z) (n : nat).
Implicit Types (op : Operation) (p : Part) (parts : list Part) (m : table).

(** Parts of distinct owners have distinct keys. *)
Lemma named_parts m parts : NoDup (part_owner <$> parts) ->
  (forall p k, p ∈ parts -> k ∈ keys (part_operation p) -> route hash n k = part_owner p) ->
  Z.of_nat (size (named (concat ((fun p => keys (part_operation p)) <$> parts)) m)) =
    sum ((fun p => Z.of_nat (size (named (keys (part_operation p)) m))) <$> parts).
Proof.
  induction parts as [|p parts IH]; intros Hnd Hr.
  - cbn. unfold named. assert (filter (fun kv : bytes * Entry => kv.1 ∈ []) m = ∅) as ->.
    { apply map_eq. intros k. apply option_eq. intros e.
      rewrite map_lookup_filter_Some, lookup_empty. simpl. set_solver. }
    done.
  - cbn [fmap list_fmap concat sum foldr] in *. apply NoDup_cons in Hnd as [Hp Hnd].
    unfold sum in IH. rewrite <- IH by (try done; intros; apply Hr; by try constructor).
    set (l := concat _).
    assert (forall k, k ∈ keys (part_operation p) -> k ∈ l -> False) as Hdis.
    { intros k Hk Hl. unfold l in Hl. apply elem_of_concat in Hl as (ks & Hks & Hk').
      apply list_elem_of_fmap in Hks as (p' & -> & Hp').
      assert (route hash n k = part_owner p) as E1 by (apply Hr; [constructor|done]).
      assert (route hash n k = part_owner p') as E2 by (apply Hr; [by constructor|done]).
      apply Hp. rewrite <- E1, E2. apply list_elem_of_fmap. eauto. }
    assert (named (keys (part_operation p) ++ l) m = named (keys (part_operation p)) m ∪ named l m) as ->.
    { apply map_eq. intros k. apply option_eq. intros e. unfold named.
      rewrite lookup_union_Some_raw, map_lookup_filter_None, !map_lookup_filter_Some. simpl.
      rewrite elem_of_app. split; [|naive_solver].
      intros [He Hk]. destruct (decide (k ∈ keys (part_operation p))); [by left|].
      right. split; [right; by intros e' _|]. naive_solver. }
    rewrite map_size_disj_union; [lia|]. apply map_disjoint_spec. intros k e1 e2 H1 H2.
    apply map_lookup_filter_Some in H1 as [_ H1], H2 as [_ H2]. by eapply Hdis.
Qed.

Lemma count_parts (P : bytes -> Prop) `{!forall k, Decision (P k)} parts :
  zlen (filter P (concat ((fun p => keys (part_operation p)) <$> parts))) =
    sum ((fun p => zlen (filter P (keys (part_operation p)))) <$> parts).
Proof.
  induction parts as [|p parts IH]; [done|]. cbn [fmap list_fmap concat sum foldr].
  rewrite filter_app, length_app. unfold sum in IH. lia.
Qed.

Lemma foldl_assign_filter (pairs : list (bytes * bytes)) m1 m2 k o : route hash n k = o -> m1 !! k = m2 !! k ->
  foldl (fun m kv => <[kv.1 := mkEntry kv.2 None]> m) m1 pairs !! k =
  foldl (fun m kv => <[kv.1 := mkEntry kv.2 None]> m) m2
    (filter (fun kv => route hash n kv.1 = o) pairs) !! k.
Proof.
  intros Hk. revert m1 m2. induction pairs as [|[k' v] pairs IH]; intros m1 m2 Hm; [done|].
  rewrite filter_cons. cbn [foldl fst snd]. case_decide as Ho.
  - cbn [foldl fst snd]. apply IH. destruct (decide (k' = k)) as [->|];
      by rewrite ?lookup_insert_eq, ?lookup_insert_ne by done.
  - apply IH. rewrite lookup_insert_ne; [done|]. by intros ->.
Qed.

(** The replies of the parts, each as specified on the same table. *)
Definition part_replies m now parts (rs : list Reply) : Prop :=
  Forall2 (fun p r => exists m', spec_exec m (part_operation p) now = Ok (r, m')) parts rs.

(** The integers the parts answer. *)
Lemma integer_replies m now parts rs (f : Part -> Z) :
  part_replies m now parts rs ->
  (forall p r m', p ∈ parts -> spec_exec m (part_operation p) now = Ok (r, m') -> r = Integer (f p)) ->
  rs = Integer <$> (f <$> parts).
Proof.
  intros Hrs. induction Hrs as [|p r parts rs (m' & Hr) _ IH]; intros Hf; [done|].
  cbn [fmap list_fmap]. f_equal; [|apply IH]; intros; eapply Hf; try done; by constructor.
Qed.

Lemma combine_values_spec m now ks p r (response : list Reply) op parts :
  split_of hash n op parts -> op = MultiGet ks -> p ∈ parts ->
  (exists m', spec_exec m (part_operation p) now = Ok (r, m')) ->
  let f := fun k => Bulk (value <$> m !! k) in
  length response = length ks ->
  exists response', combine_values response p r = Some response' /\ length response' = length ks /\
    forall i k, ks !! i = Some k ->
      response' !! i = if decide (route hash n k = part_owner p) then Some (f k) else response !! i.
Proof.
  intros Hsp Hop Hp (m' & Hr) f Hlen.
  destruct (split_positions _ _ _ _ Hsp ks p Hop Hp) as (Hpo & Hlp & Hz).
  set (kp := keys (part_operation p)) in *. rewrite Hpo in Hr. cbn [spec_exec] in Hr.
  injection Hr as <- <-. cbn [combine_values]. rewrite length_fmap, Hlp, Nat.eqb_refl. fold f.
  assert (zip (positions p) (f <$> kp) = prod_map id f <$> zip (positions p) kp) as -> by
    (by rewrite prod_map_zip, list_fmap_id).
  destruct (write_all_spec (prod_map id f <$> zip (positions p) kp) response (f <$> ks))
    as (l' & Hw & Hl' & Hlook).
  - by rewrite length_fmap.
  - intros i v ([j k] & [= -> ->] & Hin)%list_elem_of_fmap. apply Hz in Hin as [Hk _].
    by rewrite list_lookup_fmap, Hk.
  - exists l'. rewrite length_fmap in Hl'. split_and!; [done..|]. intros i k Hk.
    rewrite Hlook, list_lookup_fmap, Hk. cbn [fmap option_fmap].
    rewrite <- list_fmap_compose.
    assert (i ∈ (fst ∘ prod_map id f) <$> zip (positions p) kp <-> route hash n k = part_owner p) as Hiff.
    { rewrite list_elem_of_fmap. split.
      - intros ([j k'] & -> & [Hk' Ho]%Hz). cbn in Hk. by simplify_eq.
      - intros Ho. exists (i, k). split; [done|]. by apply Hz. }
    repeat case_decide; tauto || done.
Qed.

Lemma combine_all_spec m now ks op parts ps rs (response : list Reply) :
  split_of hash n op parts -> op = MultiGet ks -> (forall p, p ∈ ps -> p ∈ parts) ->
  part_replies m now ps rs ->
  let f := fun k => Bulk (value <$> m !! k) in
  length response = length ks ->
  exists response', combine_all response (zip ps rs) = Some response' /\ length response' = length ks /\
    forall i k, ks !! i = Some k ->
      response' !! i = if decide (route hash n k ∈ part_owner <$> ps) then Some (f k) else response !! i.
Proof.
  intros Hsp Hop Hsub Hrs f. revert response.
  induction Hrs as [|p r ps rs Hr _ IH]; intros response Hlen.
  { exists response. split_and!; [done..|]. intros i k _. by rewrite decide_False by apply not_elem_of_nil. }
  cbn [zip zip_with combine_all].
  destruct (combine_values_spec m now ks p r response op parts Hsp Hop ltac:(apply Hsub; constructor) Hr Hlen)
    as (r1 & -> & Hl1 & H1). cbn [mbind option_bind].
  destruct (IH ltac:(intros; apply Hsub; by constructor) r1 Hl1) as (r2 & -> & Hl2 & H2).
  exists r2. split_and!; [done..|]. intros i k Hk. rewrite (H2 i k Hk), (H1 i k Hk). cbn [fmap list_fmap].
  repeat case_decide; set_solver.
Qed.

Lemma split_NoDup op parts : split_of hash n op parts -> NoDup (part_owner <$> parts).
Proof.
  intros Hsp. assert (Hs := split_sorted _ _ _ _ Hsp). revert Hs.
  induction (part_owner <$> parts) as [|o os IH]; intros Hs; [constructor|].
  inversion Hs as [|? ? H1 H2]; subst. constructor; [|by apply IH].
  intros Hin. rewrite Forall_forall in H2. assert (G := H2 _ Hin). lia.
Qed.

Lemma split_route op parts p k : split_of hash n op parts -> p ∈ parts ->
  k ∈ keys (part_operation p) -> route hash n k = part_owner p /\ k ∈ keys op.
Proof.
  intros Hsp Hp Hk. destruct (split_keys _ _ _ _ Hsp p Hp) as (E & _). rewrite E in Hk.
  by apply list_elem_of_filter in Hk.
Qed.

Lemma split_part_of op parts k : split_of hash n op parts -> k ∈ keys op ->
  exists p, p ∈ parts /\ k ∈ keys (part_operation p).
Proof.
  intros Hsp Hk. rewrite <- (split_cover _ _ _ _ Hsp), elem_of_concat in Hk.
  destruct Hk as (ks & (p & -> & Hp)%list_elem_of_fmap & Hk). eauto.
Qed.

(** A sum over the parts of amounts that add up to the amount of the whole. *)
Lemma sum_parts_spec (f : Part -> Z) parts total : (forall p, 0 <= f p) ->
  sum (f <$> parts) = total -> total <= i64_max ->
  sum_replies 0 (Integer <$> (f <$> parts)) = Some total.
Proof.
  intros Hf Hsum Htot. rewrite sum_replies_spec; [by rewrite Hsum| |lia|by rewrite Hsum].
  apply Forall_fmap, Forall_forall. intros p _. apply Hf.
Qed.

Lemma size_named_le m ks : Z.of_nat (size (named ks m)) <= zlen ks.
Proof. rewrite <- removed_count. apply removed_at_most. Qed.

Lemma combine_delete m now ks parts rs : split_of hash n (Delete ks) parts -> zlen ks <= i64_max ->
  part_replies m now parts rs ->
  combine (Delete ks) parts rs = Some (Integer (Z.of_nat (size (named ks m)))).
Proof.
  intros Hsp Hlen Hrs. cbn [combine].
  rewrite (integer_replies _ _ _ _ (fun p => Z.of_nat (size (named (keys (part_operation p)) m))) Hrs).
  - rewrite (sum_parts_spec _ _ (Z.of_nat (size (named ks m)))); [done|lia| |].
    + rewrite <- (named_parts m parts (split_NoDup _ _ Hsp)).
      * do 2 f_equal. unfold named. apply map_filter_ext. intros k e _. simpl.
        by rewrite (split_cover _ _ _ _ Hsp).
      * intros p k Hp Hk. by eapply split_route.
    + assert (G := size_named_le m ks). lia.
  - intros p r m' Hp Hr. rewrite (split_delete _ _ _ _ Hsp ks p) in Hr by done.
    cbn [spec_exec] in Hr. rewrite removed_count in Hr. by injection Hr as <- _.
Qed.

Lemma combine_exists m now ks parts rs : split_of hash n (Exists ks) parts -> zlen ks <= i64_max ->
  part_replies m now parts rs ->
  combine (Exists ks) parts rs = Some (Integer (zlen (filter (fun k => is_Some (m !! k)) ks))).
Proof.
  intros Hsp Hlen Hrs. cbn [combine].
  rewrite (integer_replies _ _ _ _
    (fun p => zlen (filter (fun k => is_Some (m !! k)) (keys (part_operation p)))) Hrs).
  - rewrite (sum_parts_spec _ _ (zlen (filter (fun k => is_Some (m !! k)) ks))); [done|lia| |].
    + rewrite <- count_parts. by rewrite (split_cover _ _ _ _ Hsp).
    + assert (G := length_filter (fun k => is_Some (m !! k)) ks). lia.
  - intros p r m' Hp Hr. rewrite (split_exists _ _ _ _ Hsp ks p) in Hr by done.
    cbn [spec_exec] in Hr. by injection Hr as <- _.
Qed.

Lemma combine_multi_get m now ks parts rs : split_of hash n (MultiGet ks) parts ->
  part_replies m now parts rs ->
  combine (MultiGet ks) parts rs = Some (Array ((fun k => Bulk (value <$> m !! k)) <$> ks)).
Proof.
  intros Hsp Hrs. cbn [combine].
  destruct (combine_all_spec m now ks _ parts parts rs (replicate (length ks) (Bulk None)) Hsp)
    as (l & -> & Hl & Hlook); [done|done|done|by rewrite length_replicate|].
  cbn [mbind option_bind]. do 2 f_equal. apply list_eq_target; [by rewrite length_fmap|].
  intros i x Hx. rewrite list_lookup_fmap in Hx. destruct (ks !! i) as [k|] eqn:Hk; [|done].
  injection Hx as <-. rewrite (Hlook i k Hk), decide_True; [done|].
  destruct (split_part_of _ _ k Hsp) as (p & Hp & Hkp); [by eapply list_elem_of_lookup_2|].
  destruct (split_route _ _ p k Hsp Hp Hkp) as [-> _]. by apply list_elem_of_fmap_2.
Qed.

(** Running the parts on their keys and combining the replies is running the
    whole: the same reply, and the same entries on the keys of each part. *)
Lemma combine_spec m now op parts rs : is_multi op = true -> split_of hash n op parts ->
  zlen (keys op) <= i64_max -> part_replies m now parts rs ->
  exists reply m', combine op parts rs = Some reply /\ spec_exec m op now = Ok (reply, m') /\
    forall p r m1, p ∈ parts -> spec_exec m (part_operation p) now = Ok (r, m1) ->
      agree (keys (part_operation p)) m' m1.
Proof.
  intros Hm Hsp Hlen Hrs. destruct op as [| | |ks|ks|ks|pairs| | |]; try done; cbn [keys] in Hlen.
  - rewrite (combine_delete m now) by done. do 2 eexists. split; [done|]. split.
    { cbn [spec_exec]. by rewrite removed_count. }
    intros p r m1 Hp Hr k Hk. rewrite (split_delete _ _ _ _ Hsp ks p) in Hr by done.
    cbn [spec_exec] in Hr. injection Hr as _ <-.
    destruct (split_route _ _ p k Hsp Hp Hk) as [_ Hks]. cbn [keys] in Hks.
    apply option_eq. intros e. rewrite !map_lookup_filter_Some. simpl. tauto.
  - rewrite (combine_exists m now) by done. do 2 eexists. split_and!; [done..|].
    intros p r m1 Hp Hr. rewrite (split_exists _ _ _ _ Hsp ks p) in Hr by done.
    cbn [spec_exec] in Hr. by injection Hr as _ <-.
  - rewrite (combine_multi_get m now) by done. do 2 eexists. split_and!; [done..|].
    intros p r m1 Hp Hr. rewrite (proj1 (split_positions _ _ _ _ Hsp ks p eq_refl Hp)) in Hr.
    cbn [spec_exec] in Hr. by injection Hr as _ <-.
  - do 2 eexists. split_and!; [done..|]. intros p r m1 Hp Hr k Hk.
    rewrite (split_set _ _ _ _ Hsp pairs p) in Hr by done. cbn [spec_exec] in Hr. injection Hr as _ <-.
    apply foldl_assign_filter; [|done]. by eapply split_route.
Qed.
End Combine.

(** ** The parts on their own owners *)

Lemma route_lt hash n k : (0 < n)%nat -> (route hash n k < n)%nat.
Proof.
  intros Hn. unfold route. assert (G := Z.mod_pos_bound (hash k) (Z.of_nat n)). lia.
Qed.

Lemma spec_exec_multi m op now : is_multi op = true -> exists r m', spec_exec m op now = Ok (r, m').
Proof. destruct op; intros Hm; try done; cbn [spec_exec]; eauto. Qed.


Section Parts.
Context (hash : bytes -> Z) (n : nat).
Implicit Types (op : Operation) (p : Part) (parts : list Part) (m : table).

Lemma split_owner_lt op parts p : (0 < n)%nat -> split_of hash n op parts -> p ∈ parts ->
  (part_owner p < n)%nat.
Proof.
  intros Hn Hsp Hp. destruct (split_keys _ _ _ _ Hsp p Hp) as (_ & Hne & _).
  destruct (keys (part_operation p)) as [|k ks] eqn:Hks; [done|].
  destruct (split_route _ _ _ _ p k Hsp Hp) as [<- _]; [rewrite Hks; constructor|]. by apply route_lt.
Qed.

Lemma split_length op parts : (0 < n)%nat -> split_of hash n op parts -> (length parts <= n)%nat.
Proof.
  intros Hn Hsp. rewrite <- (length_fmap part_owner), <- (length_seq n 0).
  apply submseteq_length, NoDup_submseteq; [by eapply split_NoDup|].
  intros i (p & -> & Hp)%list_elem_of_fmap. apply elem_of_seq.
  assert (G := split_owner_lt _ _ _ Hn Hsp Hp). lia.
Qed.

Lemma parts_execute m now op parts : split_of hash n op parts ->
  exists results, part_replies m now parts results.
Proof.
  intros Hsp. assert (Forall (fun p => is_multi (part_operation p) = true) parts) as Hm.
  { apply Forall_forall. intros p Hp. by apply (split_keys _ _ _ _ Hsp p Hp). }
  clear Hsp. induction Hm as [|p parts Hp _ (results & IH)]; [by exists []; constructor|].
  destruct (spec_exec_multi m _ now Hp) as (r & m' & Hr). exists (r :: results). constructor; eauto.
Qed.

(** A part on its owner's entries alone: the same reply, and the same entries
    of that owner as the whole command leaves. *)
Lemma part_alone m now op parts p r m2 reply m' : split_of hash n op parts -> p ∈ parts ->
  spec_exec m (part_operation p) now = Ok (r, m2) ->
  spec_exec m op now = Ok (reply, m') -> agree (keys (part_operation p)) m' m2 ->
  exists m1, spec_exec (filter (fun kv => route hash n kv.1 = part_owner p) m) (part_operation p) now
      = Ok (r, m1) /\
    forall k, route hash n k = part_owner p -> m' !! k = m1 !! k.
Proof.
  intros Hsp Hp Hr Hop Hag. set (owned := filter _ m : table).
  assert (forall k, route hash n k = part_owner p -> owned !! k = m !! k) as Hown.
  { intros k Hk. apply option_eq. intros e. unfold owned. rewrite map_lookup_filter_Some. simpl. tauto. }
  assert (agree (keys (part_operation p)) m owned) as Ha.
  { intros k Hk. symmetry. apply Hown. by apply (split_route _ _ _ _ p k Hsp Hp). }
  assert (G := spec_exec_local m owned _ now Ha). rewrite Hr in G. destruct G as (m1 & Hm1 & Hag1).
  exists m1. split; [done|]. intros k Hk.
  destruct (decide (k ∈ keys (part_operation p))) as [Hin|Hin]; [by rewrite Hag, Hag1|].
  rewrite (spec_exec_frame _ _ _ _ _ _ Hm1 Hin), (Hown k Hk).
  eapply spec_exec_frame; [done|]. intros Hk'. apply Hin.
  destruct (split_keys _ _ _ _ Hsp p Hp) as (-> & _). by apply list_elem_of_filter.
Qed.
End Parts.
