(* ===== verification/System.v ===== *)
(** * The engine as a system of interleaved actions ([recall-server/src/engine.rs])

    The owners, the coordinator ([coordinator_loop] and [coordinate]), the
    admission of requests with its byte credits and bounded queues, and a clock
    that does not go back.  [fire] executes one action: [Err] when it is
    disabled (a full queue, an empty one, an owner that must serve data first),
    [Panic] when an assertion of the program fails.  An action carries what the
    environment decides: the allocator, the reading of the clock, the client. *)

From S2P Require Import Prelude Bytes Protocol Command Expiry Store Config Engine.

Local Open Scope Z_scope.

(** Where [coordinate] is: how many parts are done in the current loop.
    [CoStopped] is the end of [coordinator_loop]. *)
Inductive phase :=
| CoIdle
| CoReserving (req : DataRequest) (parts : list Part) (n : nat)
| CoPreparing (req : DataRequest) (parts : list Part) (now_ms : Z) (results : list Reply)
| CoApplying (req : DataRequest) (parts : list Part) (reply : Reply) (n : nat)
| CoReleasing (req : DataRequest) (parts : list Part) (reply : Reply) (n : nat)
| CoStopped.

Inductive action :=
| Submit (client : nat) (op : Operation)
| AdmissionTimeout (client : nat) (op : Operation)
| AdmissionClosed (client : nat) (op : Operation)
| Enqueue (n : nat)
| AdmissionExpires (n : nat)
| Act (owner : nat) (branch : owner_branch) (reserve : allocator)
| Coordinate (reserve : allocator)
| Advance (now_ms : Z)
| Sample (owner : nat)
| StopCoordinator
| StopOwner (owner : nat).

(** What happens: a request enters a queue or is refused, an operation takes
    effect with its reply, a client gets its reply, a client of [stats] gets the
    statistics of an owner. *)
Inductive occurrence :=
| Accepted (client : nat) (op : Operation)
| Refused (client : nat) (reply : Reply)
| TakesEffect (client : nat) (op : Operation) (now_ms : Z) (reply : Reply)
| Answered (client : nat) (reply : Reply)
| Sampled (owner : nat) (s : ShardStats).

(** A request that holds its credits and waits for room in a queue: an owner's,
    or the coordinator's. *)
Record Admission := mkAdmission {
  request : DataRequest;
  destination : option nat;
}.

(** [SystemClock::now_ms], given the milliseconds since the epoch ([None] before
    it). *)
Definition now_ms (elapsed : option Z) : Z := Z.min (default 0 elapsed) i64_max.

Lemma now_ms_bounds elapsed : (forall n, elapsed = Some n -> 0 <= n) -> 0 <= now_ms elapsed <= i64_max.
Proof.
  intros He. unfold now_ms. destruct elapsed as [n|].
  - change (default 0 (Some n)) with n. specialize (He n eq_refl). int_lia.
  - change (default 0 None) with 0. int_lia.
Qed.

Definition too_long : Reply := reply_error "ERR response exceeds configured limit".

Definition shutting_down : Reply := reply_error "BUSY Recall is shutting down".

Definition deadline_exceeded : Reply := reply_error "BUSY admission queue deadline exceeded".

Section System.
Context {I : Type} `{TimerIndex I}.
Context (hash : bytes -> Z) (config : Config).

Record system := mkSystem {
  owners : list (Owner I);
  coordinator : phase;
  coordinator_id : Z;
  cross : list DataRequest;
  clock : Z;
  owner_credits : list Z;
  cross_credits : Z;
  admitting : list Admission;
}.

Implicit Types sys : system.

Definition set_owners sys (l : list (Owner I)) : system :=
  mkSystem l (coordinator sys) (coordinator_id sys) (cross sys) (clock sys)
    (owner_credits sys) (cross_credits sys) (admitting sys).

Definition set_phase sys (p : phase) : system :=
  mkSystem (owners sys) p (coordinator_id sys) (cross sys) (clock sys)
    (owner_credits sys) (cross_credits sys) (admitting sys).

(** [coordinator_loop] has returned. *)
Definition stopped (ph : phase) : bool := match ph with CoStopped => true | _ => false end.

(** ** Clients *)

(** [EngineHandle::execute] up to the queue: a request that finds credits takes
    them, and then waits for room. *)
Definition submit sys (client : nat) (op : Operation) : res () (system * list occurrence) :=
  match admit_request hash (length (owners sys)) (queue_bytes config) false op with
  | Refuse reply => Ok (sys, [Refused client reply])
  | AdmitLocal i charge =>
      match owner_credits sys !! i with
      | Some available =>
          if negb (charge <=? available) then Err tt
          else
            Ok (mkSystem (owners sys) (coordinator sys) (coordinator_id sys) (cross sys) (clock sys)
                  (<[i := available - charge]> (owner_credits sys)) (cross_credits sys)
                  (admitting sys ++ [mkAdmission (mkDataRequest client op charge) (Some i)]), [])
      | None => Panic
      end
  | AdmitCross charge =>
      if negb (charge <=? cross_credits sys) then Err tt
      else
        Ok (mkSystem (owners sys) (coordinator sys) (coordinator_id sys) (cross sys) (clock sys)
              (owner_credits sys) (cross_credits sys - charge)
              (admitting sys ++ [mkAdmission (mkDataRequest client op charge) None]), [])
  end.

(** The credits of a request return when it is dropped. *)
Definition release sys (a : Admission) : system :=
  match destination a with
  | Some i =>
      mkSystem (owners sys) (coordinator sys) (coordinator_id sys) (cross sys) (clock sys)
        (alter (fun available => available + credit (request a)) i (owner_credits sys))
        (cross_credits sys) (admitting sys)
  | None =>
      mkSystem (owners sys) (coordinator sys) (coordinator_id sys) (cross sys) (clock sys)
        (owner_credits sys) (cross_credits sys + credit (request a)) (admitting sys)
  end.

Definition forget sys (n : nat) : system :=
  mkSystem (owners sys) (coordinator sys) (coordinator_id sys) (cross sys) (clock sys)
    (owner_credits sys) (cross_credits sys) (delete n (admitting sys)).

(** The request is dropped, with its credits, and its client is told. *)
Definition abandon sys (n : nat) (reply : Reply) : res () (system * list occurrence) :=
  match admitting sys !! n with
  | Some a => Ok (release (forget sys n) a, [Refused (client (request a)) reply])
  | None => Err tt
  end.

(** The queue has room for a request that waits for it, or is closed. *)
Definition enqueue sys (n : nat) : res () (system * list occurrence) :=
  match admitting sys !! n with
  | None => Err tt
  | Some (mkAdmission req (Some i)) =>
      match owners sys !! i with
      | Some o =>
          if stopping o then abandon sys n shutting_down
          else if zlen (data o) <? queue_capacity config
          then
            Ok (set_owners (forget sys n) (<[i := set_data o (data o ++ [req])]> (owners sys)),
                [Accepted (client req) (operation req)])
          else Err tt
      | None => Panic
      end
  | Some (mkAdmission req None) =>
      if stopped (coordinator sys) then abandon sys n shutting_down
      else if zlen (cross sys) <? queue_capacity config
      then
        Ok (mkSystem (owners sys) (coordinator sys) (coordinator_id sys) (cross sys ++ [req])
              (clock sys) (owner_credits sys) (cross_credits sys) (delete n (admitting sys)),
            [Accepted (client req) (operation req)])
      else Err tt
  end.

(** ** Owners *)

(** An owner acts on its own; a served request is answered and its credits
    return. *)
Definition act (reserve : allocator) sys (i : nat) (b : owner_branch) :
    res () (system * list occurrence) :=
  match owners sys !! i, owner_credits sys !! i with
  | Some o, Some available =>
      '(o, served) ← owner_act reserve (Z.to_nat (expiry_batch config)) o (clock sys) b;
      let sys := set_owners sys (<[i := o]> (owners sys)) in
      match served with
      | None => Ok (sys, [])
      | Some (req, reply) =>
          Ok (mkSystem (owners sys) (coordinator sys) (coordinator_id sys) (cross sys) (clock sys)
                (<[i := available + credit req]> (owner_credits sys)) (cross_credits sys)
                (admitting sys),
              [TakesEffect (client req) (operation req) (clock sys) reply;
               Answered (client req) reply])
      end
  | _, _ => Err tt
  end.

(** ** The coordinator *)

(** A control round trip with an owner: it must not owe a turn to its data. *)
Definition contact (reserve : allocator) sys (i : nat) (message : Control) :
    res () (system * completion) :=
  o ← expect (owners sys !! i);
  if turn_pending o || stopping o then Err tt
  else
    '(o, answer) ← expect (handle_control reserve o message);
    Ok (set_owners sys (<[i := o]> (owners sys)), answer).

(** The next request of [coordinator_loop]. *)
Definition next_cross sys : res () (system * list occurrence) :=
  match cross sys with
  | [] => Err tt
  | req :: rest =>
      id ← expect (checked_usize (coordinator_id sys + 1));
      parts ← expect (split hash (length (owners sys)) (operation req));
      Ok (mkSystem (owners sys) (CoReserving req parts 0) id rest (clock sys)
            (owner_credits sys) (cross_credits sys) (admitting sys), [])
  end.

(** The decision of [coordinate] once every part is prepared. *)
Definition decide_phase (req : DataRequest) (parts : list Part) (now_ms : Z)
    (results : list Reply) : option (phase * Reply) :=
  reply ← combine (operation req) parts results;
  Some (if match encoded_len reply with Some n => config_reply_bytes config <? n | None => true end
        then (CoReleasing req parts too_long 0, too_long)
        else (CoApplying req parts reply 0, reply)).

(** The end of the loop body of [coordinator_loop]. *)
Definition finish sys (req : DataRequest) (reply : Reply) : system * list occurrence :=
  (mkSystem (owners sys) CoIdle (coordinator_id sys) (cross sys) (clock sys) (owner_credits sys)
     (cross_credits sys + credit req) (admitting sys),
   [Answered (client req) reply]).

Definition coordinate (reserve : allocator) sys : res () (system * list occurrence) :=
  let id := coordinator_id sys in
  match coordinator sys with
  | CoIdle => next_cross sys
  | CoReserving req parts n =>
      match parts !! n with
      | Some p =>
          '(sys, _) ← contact reserve sys (part_owner p) (Reserve id);
          Ok (set_phase sys (CoReserving req parts (S n)), [])
      | None => Ok (set_phase sys (CoPreparing req parts (clock sys) []), [])
      end
  | CoPreparing req parts now_ms results =>
      match parts !! length results with
      | Some p =>
          '(sys, answer) ← contact reserve sys (part_owner p) (Prepare id (part_operation p) now_ms);
          match answer with
          | PrepareResult r => Ok (set_phase sys (CoPreparing req parts now_ms (results ++ [r])), [])
          | PrepareError e =>
              Ok (set_phase sys (CoReleasing req parts (engine_error_reply e) 0),
                  [TakesEffect (client req) (operation req) now_ms (engine_error_reply e)])
          | _ => Panic
          end
      | None =>
          '(p, reply) ← expect (decide_phase req parts now_ms results);
          Ok (set_phase sys p, [TakesEffect (client req) (operation req) now_ms reply])
      end
  | CoApplying req parts reply n =>
      match parts !! n with
      | Some p =>
          '(sys, _) ← contact reserve sys (part_owner p) (Apply id);
          Ok (set_phase sys (CoApplying req parts reply (S n)), [])
      | None => Ok (set_phase sys (CoReleasing req parts reply 0), [])
      end
  | CoReleasing req parts reply n =>
      match parts !! n with
      | Some p =>
          '(sys, _) ← contact reserve sys (part_owner p) (Release id);
          Ok (set_phase sys (CoReleasing req parts reply (S n)), [])
      | None => Ok (finish sys req reply)
      end
  | CoStopped => Err tt
  end.

(** ** Statistics *)

(** One owner's part of [EngineHandle::stats] (which takes no memory). *)
Definition sample sys (i : nat) : res () (system * list occurrence) :=
  if (length (owners sys) <=? i)%nat then Err tt
  else
    '(sys, answer) ← contact (fun _ _ => true) sys i Stats;
    match answer with
    | StatsResult s => Ok (sys, [Sampled i s])
    | _ => Panic
    end.

(** ** Shutdown *)

(** [Engine::shutdown] up to the coordinator's return: its queue is closed, and
    it ends once the queue is empty. *)
Definition stop_coordinator sys : res () (system * list occurrence) :=
  match coordinator sys, cross sys with
  | CoIdle, [] => Ok (set_phase sys CoStopped, [])
  | _, _ => Err tt
  end.

(** [Engine::shutdown] then tells the owners to stop (which takes no memory). *)
Definition stop_owner sys (i : nat) : res () (system * list occurrence) :=
  if negb (stopped (coordinator sys)) then Err tt
  else if (length (owners sys) <=? i)%nat then Err tt
  else
    '(sys, _) ← contact (fun _ _ => true) sys i Stop;
    Ok (sys, []).

(** ** Actions *)

Definition fire sys (a : action) : res () (system * list occurrence) :=
  match a with
  | Submit client op => submit sys client op
  | AdmissionTimeout client op =>
      match admit_request hash (length (owners sys)) (queue_bytes config) false op with
      | Refuse _ => Err tt
      | _ => Ok (sys, [Refused client deadline_exceeded])
      end
  | AdmissionClosed client op =>
      match admit_request hash (length (owners sys)) (queue_bytes config) true op with
      | Refuse reply => Ok (sys, [Refused client reply])
      | _ => Panic
      end
  | Enqueue n => enqueue sys n
  | AdmissionExpires n => abandon sys n deadline_exceeded
  | Act i b reserve => act reserve sys i b
  | Coordinate reserve => coordinate reserve sys
  | Advance now_ms =>
      if (clock sys <=? now_ms) && (now_ms <=? i64_max)
      then Ok (mkSystem (owners sys) (coordinator sys) (coordinator_id sys) (cross sys) now_ms
                 (owner_credits sys) (cross_credits sys) (admitting sys), [])
      else Err tt
  | Sample i => sample sys i
  | StopCoordinator => stop_coordinator sys
  | StopOwner i => stop_owner sys i
  end.

(** Actions in sequence, with what happened. *)
Fixpoint run sys (actions : list action) : res () (system * list occurrence) :=
  match actions with
  | [] => Ok (sys, [])
  | a :: actions =>
      '(sys, happened) ← fire sys a;
      '(sys, later) ← run sys actions;
      Ok (sys, happened ++ later)
  end.

(** The system [Engine::with_clock] starts, given its shards. *)
Definition start (shards : list (Shard I)) (now_ms : Z) : system :=
  mkSystem ((fun s => mkOwner s None [] false false) <$> shards) CoIdle 0 [] now_ms
    (replicate (length shards) (queue_bytes config)) (queue_bytes config) [].
End System.
Arguments system : clear implicits.

(** The shards of [Engine::with_clock]: one per worker, with its limits. *)
Fixpoint start_shards (reserve : allocator) (config : Config) (first count : nat) :
    res EngineError (list (Shard ExpiryIndex)) :=
  match count with
  | O => Ok []
  | S count =>
      s ← new_shard reserve (shard_limits config (Z.of_nat first));
      rest ← start_shards reserve config (S first) count;
      Ok (s :: rest)
  end.

Definition with_clock (reserve : allocator) (config : Config) (now_ms : Z) :
    res string (system ExpiryIndex) :=
  _ ← validate config;
  shards ← map_err engine_message (start_shards reserve config 0 (Z.to_nat (workers config)));
  Ok (start config shards now_ms).
