(* ===== verification/SystemSpec.v ===== *)
(** * What the engine promises, and the invariant that keeps the promise

    The promise: seen from its clients, the engine is one table on which the
    operations take effect one at a time ([linear]).  The invariant [sys_ok] ties
    the reservations of the owners to the phase of the coordinator, and [sim]
    ties the shards to the one table. *)

From S2P Require Import Prelude Bytes Protocol Command Expiry Store StoreSpec StoreLemmas.
From S2P Require Import StoreEffects StoreInvariant StoreTheorems Config Engine EngineSplit System.

Local Open Scope Z_scope.

(** ** The promise *)

(** [m'] on the keys [ks], [m] elsewhere. *)
Definition overlay (ks : list bytes) (m' m : table) : table :=
  filter (fun kv => kv.1 ∈ ks) m' ∪ filter (fun kv => kv.1 ∉ ks) m.

Lemma overlay_lookup ks m' m k :
  overlay ks m' m !! k = if decide (k ∈ ks) then m' !! k else m !! k.
Proof.
  unfold overlay. apply option_eq. intros e.
  rewrite lookup_union_Some_raw, map_lookup_filter_None, !map_lookup_filter_Some. simpl.
  case_decide; split; try tauto; try naive_solver.
Qed.

(** An operation takes effect at [now_ms] on a table: as specified on the live
    entries, changing only the keys it names; or it fails or is refused, and
    changes nothing. *)
Inductive takes_effect (m : table) (op : Operation) (now_ms : Z) : Reply -> table -> Prop :=
| effect_done r m' :
    spec_exec (live_at now_ms m) op now_ms = Ok (r, m') ->
    takes_effect m op now_ms r (overlay (keys op) m' m)
| effect_failed e :
    spec_exec (live_at now_ms m) op now_ms = Err e ->
    takes_effect m op now_ms (engine_error_reply e) m
| effect_refused e :
    refusal e -> takes_effect m op now_ms (engine_error_reply e) m.

(** The operations of a history take effect one after the other. *)
Inductive linear : table -> list occurrence -> table -> Prop :=
| linear_nil m : linear m [] m
| linear_effect m c op now_ms r m1 h m2 :
    takes_effect m op now_ms r m1 -> linear m1 h m2 ->
    linear m (TakesEffect c op now_ms r :: h) m2
| linear_other m x h m2 :
    match x with TakesEffect _ _ _ _ => False | _ => True end ->
    linear m h m2 -> linear m (x :: h) m2.

Lemma linear_app m h1 m1 h2 m2 : linear m h1 m1 -> linear m1 h2 m2 -> linear m (h1 ++ h2) m2.
Proof.
  intros H1 H2. induction H1; [done|eapply linear_effect; eauto|by apply linear_other; auto].
Qed.

(** ** The invariant *)

Section Invariant.
Context {I : Type} `{Laws : TimerIndexLaws I}.
Context (hash : bytes -> Z) (config : Config).

Implicit Types (sys : system I) (o : Owner I) (i j n : nat) (w : Z).

(** A request for owner [i] of [n]. *)
Definition local_request n i (req : DataRequest) : Prop :=
  forall k, k ∈ keys (operation req) -> route hash n k = i.

Definition cross_request (req : DataRequest) : Prop :=
  is_multi (operation req) = true /\ zlen (keys (operation req)) <= i64_max.

(** A request on its way to a queue. *)
Definition admission_ok n (a : Admission) : Prop :=
  match destination a with
  | Some i => (i < n)%nat /\ local_request n i (request a)
  | None => cross_request (request a)
  end.

Record owner_ok n w i o : Prop := {
  owner_shard_ok : shard_ok (shard o);
  owner_revision : revision (shard o) <= w;
  owner_routed k e : entries (shard o) !! k = Some e -> route hash n k = i;
  owner_data : Forall (local_request n i) (data o);
}.

(** The preparation of a part: what it will answer and install. *)
Definition prepared_for o (p : Part) (now : Z) (pr : Prepared) : Prop :=
  prepared_ok (shard o) pr /\
  exists m, spec_exec (live_at now (entries (shard o))) (part_operation p) now = Ok (response pr, m) /\
    commit (effects pr) (entries (shard o))
      = m ∪ leftover now (keys (part_operation p)) (entries (shard o)).

Definition phase_parts (ph : phase) : list Part :=
  match ph with
  | CoIdle | CoStopped => []
  | CoReserving _ parts _ | CoPreparing _ parts _ _ | CoApplying _ parts _ _
  | CoReleasing _ parts _ _ => parts
  end.

(** The reservation the owner of part [j] has in a phase. *)
Definition expected (id : Z) (ph : phase) (p : Part) (j : nat) o : Prop :=
  match ph with
  | CoIdle | CoStopped => True
  | CoReserving _ _ n =>
      reservation o = if decide (j < n)%nat then Some (mkReservation id None) else None
  | CoPreparing _ _ now rs =>
      if decide (j < length rs)%nat then
        exists pr, reservation o = Some (mkReservation id (Some pr)) /\
          prepared_for o p now pr /\ rs !! j = Some (response pr)
      else reservation o = Some (mkReservation id None)
  | CoApplying _ _ _ n =>
      if decide (j < n)%nat then reservation o = Some (mkReservation id None)
      else exists pr now, reservation o = Some (mkReservation id (Some pr)) /\ prepared_for o p now pr
  | CoReleasing _ _ _ n =>
      if decide (j < n)%nat then reservation o = None
      else exists pr, reservation o = Some (mkReservation id pr)
  end.

(** The phase belongs to a command over several owners. *)
Definition phase_ok (n : nat) (clock : Z) (ph : phase) : Prop :=
  match ph with
  | CoIdle | CoStopped => True
  | CoReserving req parts j | CoApplying req parts _ j | CoReleasing req parts _ j =>
      cross_request req /\ split_of hash n (operation req) parts /\ (j <= length parts)%nat
  | CoPreparing req parts now rs =>
      cross_request req /\ split_of hash n (operation req) parts /\ (length rs <= length parts)%nat /\
      now <= clock
  end.

Record sys_ok w sys : Prop := {
  sys_owners i o : owners sys !! i = Some o -> owner_ok (length (owners sys)) w i o;
  sys_nonempty : (0 < length (owners sys))%nat;
  sys_phase : phase_ok (length (owners sys)) (clock sys) (coordinator sys);
  sys_expected j p : phase_parts (coordinator sys) !! j = Some p ->
    exists o, owners sys !! part_owner p = Some o /\
      expected (coordinator_id sys) (coordinator sys) p j o;
  sys_unreserved i o : owners sys !! i = Some o ->
    i ∉ part_owner <$> phase_parts (coordinator sys) -> reservation o = None;
  sys_cross : Forall cross_request (cross sys);
  sys_id : 0 <= coordinator_id sys <= w;
  sys_credits : length (owner_credits sys) = length (owners sys);
  sys_running i o : owners sys !! i = Some o -> stopped (coordinator sys) = false -> stopping o = false;
  sys_stopped : stopped (coordinator sys) = true -> cross sys = [];
  sys_admitting : Forall (admission_ok (length (owners sys))) (admitting sys);
}.

(** ** The one table *)

(** The table of an owner; once the coordinator has decided to apply, its
    prepared effects count as installed. *)
Definition decided_table (ph : phase) o : table :=
  match ph, reservation o with
  | CoApplying _ _ _ _, Some (mkReservation _ (Some pr)) => commit (effects pr) (entries (shard o))
  | _, _ => entries (shard o)
  end.

Definition owner_table sys i : table :=
  match owners sys !! i with Some o => decided_table (coordinator sys) o | None => ∅ end.

(** Since when the owner's live entries are those of the one table: since the
    coordinator's reading of the clock for the owners it prepares, and otherwise
    now. *)
Definition since sys i : Z :=
  match coordinator sys with
  | CoPreparing _ parts now _ => if decide (i ∈ part_owner <$> parts) then now else clock sys
  | _ => clock sys
  end.

(** Every key is live in its owner's table exactly when it is in the one table. *)
Definition sim sys (m : table) : Prop := forall k t,
  let i := route hash (length (owners sys)) k in
  since sys i <= t -> live_at t (owner_table sys i) !! k = live_at t m !! k.

(** An outcome of an action keeps the invariant and the promise. *)
Definition good w sys (out : res () (system I * list occurrence)) : Prop :=
  match out with
  | Ok (sys', h) => sys_ok w sys' /\
      length (owners sys') = length (owners sys) /\
      forall m, sim sys m -> exists m', linear m h m' /\ sim sys' m'
  | Err _ => True
  | Panic => False
  end.

(** The same from a given table. *)
Definition good_from w sys m (out : res () (system I * list occurrence)) : Prop :=
  match out with
  | Ok (sys', h) => sys_ok w sys' /\
      length (owners sys') = length (owners sys) /\
      exists m', linear m h m' /\ sim sys' m'
  | Err _ => True
  | Panic => False
  end.

Lemma good_at w sys m out : good w sys out -> sim sys m -> good_from w sys m out.
Proof. destruct out as [[sys' h]|e|]; [|done..]. intros (? & ? & Hm) Hsim. split_and!; auto. Qed.
End Invariant.
