(* ===== verification/SystemLocal.v ===== *)
(** * Actions of the clients and of the owners on their own

    Submissions, local requests and sweeps keep the invariant, never panic, and
    are steps of the one table. *)

From S2P Require Import Prelude Bytes Protocol Command Expiry Store StoreSpec StoreLemmas.
From S2P Require Import StoreEffects StoreInvariant StoreTheorems Config Engine EngineSplit System SystemSpec.

Local Open Scope Z_scope.

Lemma live_at_lookup_ext (t : Z) (m1 m2 : table) (k : bytes) :
  m1 !! k = m2 !! k -> live_at t m1 !! k = live_at t m2 !! k.
Proof. intros E. by rewrite !live_at_lookup, E. Qed.

Lemma live_at_twice (t t' : Z) (m : table) (k : bytes) : t <= t' ->
  live_at t' (live_at t m) !! k = live_at t' m !! k.
Proof. intros. by rewrite live_at_live_at. Qed.

Section Local.
Context {I : Type} `{Laws : TimerIndexLaws I}.
Context (hash : bytes -> Z) (config : Config).

Implicit Types (sys : system I) (o : Owner I) (i j n : nat) (w : Z) (s : Shard I) (m : table).

(** ** One request on one shard *)

(** A local request, on a table that agrees with the shard on its keys. *)
Lemma execute_local_spec reserve s op now : shard_ok s -> revision s < usize_max ->
  exists s' r, execute_local reserve s op now = Some (s', r) /\ shard_ok s' /\
    revision s' <= revision s + 1 /\
    (forall k e, k ∉ keys op -> entries s' !! k = Some e -> entries s !! k = Some e) /\
    forall m, (forall k, k ∈ keys op -> live_at now (entries s) !! k = live_at now m !! k) ->
      exists m', takes_effect m op now r m' /\ (forall k, k ∉ keys op -> m' !! k = m !! k) /\
        forall k t, now <= t -> live_at t (entries s') !! k =
          if decide (k ∈ keys op) then live_at t m' !! k else live_at t (entries s) !! k.
Proof.
  intros Hs Hmax. assert (Hx := execute_spec reserve s op now Hs Hmax). unfold execute_local.
  destruct (outcome _ _ _ _ _) as [[r m1]|e|] eqn:Ho; [| |done].
  - destruct Hx as (s' & -> & Hs' & Hm1 & _ & Hr & _).
    apply outcome_Ok in Ho as (m2 & Hspec & E & Hlive). exists s', r. split_and!; [done|done|lia|..].
    + intros k e Hk He. rewrite Hm1, E, lookup_union in He.
      rewrite (spec_exec_frame _ _ _ _ _ _ Hspec Hk), live_at_lookup, leftover_lookup in He.
      destruct (entries s !! k) as [e'|]; [|done]. rewrite decide_False in He by done.
      by destruct (due_at e' now).
    + intros m Ha. assert (Hloc := spec_exec_local _ _ _ now Ha). rewrite Hspec in Hloc.
      destruct Hloc as (m3 & Hm3 & Hag). exists (overlay (keys op) m3 m). split_and!.
      * by apply effect_done.
      * intros k Hk. by rewrite overlay_lookup, decide_False.
      * intros k t Ht. rewrite Hm1, Hlive by done. case_decide as Hk.
        -- apply live_at_lookup_ext. by rewrite overlay_lookup, decide_True, (Hag k Hk).
        -- rewrite (live_at_lookup_ext t m2 _ k (spec_exec_frame _ _ _ _ _ _ Hspec Hk)).
           by apply live_at_twice.
  - exists s, (engine_error_reply e). rewrite Hx. split_and!; [done|done|lia|done|].
    intros m Ha. exists m. split_and!; [|done|].
    + apply outcome_Err in Ho as [Hspec|Href]; [|by apply effect_refused].
      assert (Hloc := spec_exec_local _ _ _ now Ha). rewrite Hspec in Hloc. by apply effect_failed.
    + intros k t Ht. case_decide as Hk; [|done].
      rewrite <- (live_at_twice now t), (live_at_lookup_ext t _ _ k (Ha k Hk)) by done.
      by apply live_at_twice.
Qed.

(** ** The invariant under a change of one owner *)

Lemma expected_same id ph p j o o' : reservation o' = reservation o ->
  (reservation o = None \/ shard o' = shard o) -> expected id ph p j o -> expected id ph p j o'.
Proof.
  intros Hr Hs. unfold expected, prepared_for. rewrite Hr.
  destruct Hs as [Hn | ->]; [|done]. rewrite Hn.
  destruct ph; try done; case_decide; try done; naive_solver.
Qed.

Lemma sys_ok_owner w w' sys i o o' : sys_ok hash w sys -> owners sys !! i = Some o -> w <= w' ->
  owner_ok hash (length (owners sys)) w' i o' -> reservation o' = reservation o ->
  (reservation o = None \/ shard o' = shard o) -> (stopping o = false -> stopping o' = false) ->
  sys_ok hash w' (set_owners sys (<[i := o']> (owners sys))).
Proof.
  intros Hs Ho Hw Ho' Hr Hsh Hst. destruct Hs as [H1 H2 H3 H4 H5 H6 H7 H8 H9 H10].
  assert (i < length (owners sys))%nat by (by eapply lookup_lt_Some).
  constructor; cbn [owners set_owners coordinator clock cross coordinator_id owner_credits];
    rewrite ?length_insert; try done; try lia.
  - intros i' o1 [(-> & <- & _)|[Hne Hi']]%list_lookup_insert_Some; [done|].
    destruct (H1 i' o1 Hi'). constructor; try done. lia.
  - intros j p Hp. destruct (H4 j p Hp) as (o1 & Ho1 & He).
    destruct (decide (i = part_owner p)) as [E|].
    + exists o'. rewrite E, list_lookup_insert_eq by (by rewrite <- E). split; [done|].
      rewrite E in Ho. simplify_eq. by eapply expected_same.
    + exists o1. by rewrite list_lookup_insert_ne.
  - intros i' o1 [(-> & <- & _)|[Hne Hi']]%list_lookup_insert_Some Hn; [|by eapply H5].
    rewrite Hr. by eapply H5.
  - intros i' o1 [(-> & <- & _)|[Hne Hi']]%list_lookup_insert_Some Hp; [|by eapply H9].
    by eapply Hst, H9.
Qed.

Lemma sys_ok_credits w sys credits extra l : sys_ok hash w sys ->
  length credits = length (owner_credits sys) -> Forall (admission_ok hash (length (owners sys))) l ->
  sys_ok hash w (mkSystem (owners sys) (coordinator sys) (coordinator_id sys) (cross sys) (clock sys)
                   credits extra l).
Proof. intros [] E Hl. constructor; cbn in *; try done. congruence. Qed.

Lemma since_unreserved w sys i o : sys_ok hash w sys -> owners sys !! i = Some o ->
  reservation o = None -> since sys i = clock sys.
Proof.
  intros Hs Ho Hr. unfold since. destruct (coordinator sys) as [| |req parts now rs| | |] eqn:Hc; try done.
  case_decide as Hin; [|done]. exfalso. apply list_elem_of_fmap in Hin as (p & -> & Hp).
  apply list_elem_of_lookup in Hp as [j Hp].
  destruct (sys_expected _ _ _ Hs j p) as (o1 & Ho1 & He); [by rewrite Hc|].
  rewrite Ho in Ho1. simplify_eq. rewrite Hc in He. cbn in He. case_decide; naive_solver.
Qed.

Lemma decided_unreserved ph o : reservation o = None -> decided_table ph o = entries (shard o).
Proof. intros Hr. unfold decided_table. rewrite Hr. by destruct ph. Qed.

(** The promise under a change of one unreserved owner. *)
Lemma sim_owner w sys i o o' m m' : sys_ok hash w sys -> owners sys !! i = Some o ->
  reservation o = None -> reservation o' = None -> sim hash sys m ->
  (forall k, route hash (length (owners sys)) k <> i -> m' !! k = m !! k) ->
  (forall k t, route hash (length (owners sys)) k = i -> clock sys <= t ->
     live_at t (entries (shard o')) !! k = live_at t m' !! k) ->
  sim hash (set_owners sys (<[i := o']> (owners sys))) m'.
Proof.
  intros Hs Ho Hr Hr' Hsim Hother Hown k t. cbn [owners set_owners]. rewrite length_insert.
  cbn zeta. set (i' := route hash (length (owners sys)) k).
  change (since (set_owners sys (<[i := o']> (owners sys))) i') with (since sys i'). intros Ht.
  unfold owner_table. cbn [owners set_owners coordinator].
  destruct (decide (i' = i)) as [E|Hne].
  - rewrite E, list_lookup_insert_eq by (by eapply lookup_lt_Some).
    rewrite decided_unreserved by done. apply Hown; [done|].
    rewrite E, (since_unreserved w sys i o Hs Ho Hr) in Ht. done.
  - rewrite list_lookup_insert_ne by done. rewrite (live_at_lookup_ext t m' m k) by by apply Hother.
    by apply (Hsim k t).
Qed.

(** What the shard of an unreserved owner holds, seen from the one table. *)
Lemma sim_shard w sys i o m k t : sys_ok hash w sys -> owners sys !! i = Some o ->
  reservation o = None -> sim hash sys m -> route hash (length (owners sys)) k = i -> clock sys <= t ->
  live_at t (entries (shard o)) !! k = live_at t m !! k.
Proof.
  intros Hs Ho Hr Hsim Hk Ht. assert (G := Hsim k t). cbn zeta in G. rewrite Hk in G.
  unfold owner_table in G. rewrite Ho, decided_unreserved in G by done. apply G.
  by rewrite (since_unreserved w sys i o).
Qed.

(** ** Requests *)

Lemma owner_ok_later n w w' i o : owner_ok hash n w i o -> w <= w' -> owner_ok hash n w' i o.
Proof. intros [] Hw. constructor; try done. lia. Qed.

Lemma serve_data_good w sys i o turn reserve : sys_ok hash w sys -> owners sys !! i = Some o ->
  reservation o = None -> w < usize_max ->
  let o1 := set_data_turn o turn in
  exists o' served, serve_data reserve o1 (clock sys) = Some (o', served) /\
    owner_ok hash (length (owners sys)) (w + 1) i o' /\ reservation o' = None /\ stopping o' = stopping o /\
    forall m, sim hash sys m -> exists m',
      match served with
      | None => m' = m
      | Some (req, r) => takes_effect m (operation req) (clock sys) r m'
      end /\ sim hash (set_owners sys (<[i := o']> (owners sys))) m'.
Proof.
  intros Hs Ho Hr Hw o1. destruct (sys_owners _ _ _ Hs i o Ho) as [Hso Hrev Hrt Hd].
  unfold serve_data, o1. cbn [data set_data_turn shard].
  destruct (data o) as [|req rest] eqn:Hdata.
  - exists o1, None. split_and!; [done| |done|done|].
    + constructor; cbn [o1 set_data_turn shard data]; try done; [lia|by rewrite Hdata].
    + intros m Hsim. exists m. split; [done|].
      apply (sim_owner w sys i o _ m m); try done. intros k t Hk Ht.
      by apply (sim_shard w sys i o m k t).
  - apply Forall_cons in Hd as [Hreq Hd].
    destruct (execute_local_spec reserve (shard o) (operation req) (clock sys) Hso ltac:(lia))
      as (s' & r & -> & Hs' & Hr' & Hdom & Heff).
    cbn [mbind option_bind]. do 2 eexists. split_and!; [reflexivity| |done|done|].
    + constructor; cbn; try done; [lia|]. intros k e He.
      destruct (decide (k ∈ keys (operation req))) as [Hk|Hk]; [by apply Hreq|].
      by eapply Hrt, Hdom.
    + intros m Hsim. destruct (Heff m) as (m' & Ht & Hframe & Hlive).
      { intros k Hk. eapply sim_shard; try done. by apply Hreq. }
      exists m'. split; [done|]. eapply sim_owner; try done.
      * intros k Hk. apply Hframe. intros Hin. by apply Hk, Hreq.
      * intros k t Hk Hct. cbn [shard set_data set_shard]. rewrite Hlive by done.
        case_decide as Hin; [done|].
        rewrite (live_at_lookup_ext t m' m k) by by apply Hframe. by eapply sim_shard.
Qed.

(** ** Sweeps *)

Lemma tick_good w sys i o b : sys_ok hash w sys -> owners sys !! i = Some o ->
  reservation o = None -> w + Z.of_nat b <= usize_max ->
  exists s' n, expire_due (shard o) (clock sys) b = Some (s', n) /\
    let o' := set_data_turn (set_shard o s') true in
    owner_ok hash (length (owners sys)) (w + Z.of_nat b) i o' /\ reservation o' = None /\
    forall m, sim hash sys m -> sim hash (set_owners sys (<[i := o']> (owners sys))) m.
Proof.
  intros Hs Ho Hr Hw. destruct (sys_owners _ _ _ Hs i o Ho) as [Hso Hrev Hrt Hd].
  destruct (expire_due_loop_spec (shard o) (clock sys) b 0 Hso ltac:(lia)) as (s' & n & He & Hsw).
  exists s', n. split; [exact He|]. cbn zeta. split_and!; [|done|].
  - assert (H1 := sweep_revision _ _ _ _ _ Hsw). assert (H2 := sweep_budget _ _ _ _ _ Hsw).
    constructor; cbn; try done; [apply Hsw|lia|]. intros k e Hk. eapply (Hrt k e), lookup_weaken; [done|].
    apply Hsw.
  - intros m Hsim. apply (sim_owner w sys i o _ m m); try done. intros k t Hk Ht.
    cbn [shard set_data_turn set_shard]. rewrite (sweep_live _ _ _ _ _ Hsw) by done.
    by apply (sim_shard w sys i o m k t).
Qed.

(** ** The actions *)

Lemma sys_ok_later w w' sys : sys_ok hash w sys -> w <= w' -> sys_ok hash w' sys.
Proof.
  intros [] Hw. constructor; try done; [|lia]. intros i o Ho. eapply owner_ok_later; eauto.
Qed.

Lemma good_later w w' sys m out : good_from hash w sys m out -> w <= w' -> good_from hash w' sys m out.
Proof.
  destruct out as [[sys' h]|e|]; [|done..]. intros (Hs & ? & ?) Hw. split_and!; [|done..].
  by eapply sys_ok_later.
Qed.

Lemma served_linear c op now r m m' : takes_effect m op now r m' ->
  linear m [TakesEffect c op now r; Answered c r] m'.
Proof.
  intros H1. eapply linear_effect; [done|]. apply linear_other; [done|]. constructor.
Qed.

(** An owner's own action, once its new state is known. *)
Lemma act_finish w sys i o o' available served (w' : Z) : sys_ok hash w sys -> owners sys !! i = Some o ->
  reservation o = None -> w <= w' ->
  owner_ok hash (length (owners sys)) w' i o' -> reservation o' = None -> stopping o' = stopping o ->
  (forall m, sim hash sys m -> exists m',
     match served with
     | None => m' = m
     | Some (req, r) => takes_effect m (operation req) (clock sys) r m'
     end /\ sim hash (set_owners sys (<[i := o']> (owners sys))) m') ->
  good hash w' sys
    (let sys1 := set_owners sys (<[i := o']> (owners sys)) in
     match served with
     | None => Ok (sys1, [])
     | Some (req, reply) =>
         Ok (mkSystem (owners sys1) (coordinator sys1) (coordinator_id sys1) (cross sys1) (clock sys1)
               (<[i := available + credit req]> (owner_credits sys1)) (cross_credits sys1)
               (admitting sys1),
             [TakesEffect (client req) (operation req) (clock sys1) reply;
              Answered (client req) reply])
     end).
Proof.
  intros Hs Ho Hr Hw Hok Hr' Hst Hsim. cbn zeta.
  assert (sys_ok hash w' (set_owners sys (<[i := o']> (owners sys)))) as Hs'.
  { eapply sys_ok_owner; try done; [congruence|by left|congruence]. }
  assert (length (<[i := o']> (owners sys)) = length (owners sys)) as Hlen by apply length_insert.
  destruct served as [[req reply]|]; cbn [good].
  - split_and!.
    + apply (sys_ok_credits w' (set_owners sys _)); [done|apply length_insert|apply Hs'].
    + done.
    + intros m Hm. destruct (Hsim m Hm) as (m' & Heff & Hm'). exists m'. split; [|exact Hm'].
      by apply served_linear.
  - split_and!; [done..|]. intros m Hm. destruct (Hsim m Hm) as (m' & -> & Hm').
    exists m. split; [constructor|done].
Qed.

Definition action_work (a : action) : Z :=
  match a with Act _ TickBranch _ => Z.of_nat (Z.to_nat (expiry_batch config)) | _ => 1 end.

Lemma turn_pending_unreserved o : turn_pending o = true -> reservation o = None.
Proof. unfold turn_pending. intros [_ Hr]%andb_true_iff. by apply bool_decide_eq_true in Hr. Qed.

Lemma set_data_turn_id o : set_data_turn o (data_turn o) = o.
Proof. by destruct o. Qed.

Lemma act_good w sys i b reserve : sys_ok hash w sys ->
  w + action_work (Act i b reserve) <= usize_max ->
  good hash (w + action_work (Act i b reserve)) sys (act config reserve sys i b).
Proof.
  intros Hs Hw. unfold act. destruct (owners sys !! i) as [o|] eqn:Ho; [|done].
  destruct (owner_credits sys !! i) as [available|]; [|done]. unfold owner_act.
  destruct b; cbn [action_work] in *.
  - destruct (turn_pending o) eqn:Ht; [|done]. apply turn_pending_unreserved in Ht.
    destruct (serve_data_good w sys i o false reserve Hs Ho Ht ltac:(lia))
      as (o' & served & -> & Hok & Hr' & Hst & Hsim).
    apply (act_finish w sys i o); try done. lia.
  - destruct (turn_pending o || _ || _) eqn:Ht; [done|].
    apply orb_false_iff in Ht as [[_ Hr]%orb_false_iff _]. apply bool_decide_eq_false in Hr.
    rewrite <- eq_None_not_Some in Hr.
    destruct (tick_good w sys i o _ Hs Ho Hr Hw) as (s' & n & -> & Hok & Hr' & Hsim).
    apply (act_finish w sys i o _ available None); try done; [lia|]. intros m Hm. exists m. eauto.
  - destruct (turn_pending o || _ || _) eqn:Ht; [done|].
    apply orb_false_iff in Ht as [[_ Hr]%orb_false_iff _]. apply bool_decide_eq_false in Hr.
    rewrite <- eq_None_not_Some in Hr.
    destruct (serve_data_good w sys i o (data_turn o) reserve Hs Ho Hr ltac:(lia))
      as (o' & served & E & Hok & Hr' & Hst & Hsim).
    rewrite set_data_turn_id in E. rewrite E.
    apply (act_finish w sys i o); try done. lia.
Qed.
End Local.
