(* ===== verification/SystemClients.v ===== *)
(** * Actions of the clients and of the clock

    Submissions, refusals, admission timeouts and the clock keep the invariant
    and leave the one table alone; what is admitted is routed to its owner. *)

From S2P Require Import Prelude Bytes Protocol Command Expiry Store StoreSpec StoreLemmas.
From S2P Require Import StoreEffects StoreInvariant StoreTheorems Config Engine EngineSplit System SystemSpec SystemLocal.

Local Open Scope Z_scope.

Lemma sum_len_nonneg l : 0 <= sum_len l.
Proof. induction l as [|b l IH]; simpl; lia. Qed.

Lemma payload_bytes_nonneg op : 0 <= payload_bytes op.
Proof.
  destruct op as [| | |ks|ks|ks|pairs| | |]; cbn [payload_bytes]; try (apply sum_len_nonneg); [lia|].
  induction pairs as [|p pairs IH]; simpl; lia.
Qed.

(** A request within the 32 bits of the semaphore has few keys. *)
Lemma request_charge_keys op : request_charge op <= u32_max -> zlen (keys op) <= i64_max.
Proof.
  unfold request_charge, saturating_usize, u32_max. assert (G := payload_bytes_nonneg op). int_lia.
Qed.

(** Within those 32 bits, nothing saturates. *)
Lemma request_charge_exact op : request_charge op <= u32_max ->
  request_charge op = payload_bytes op + 128 * zlen (keys op) + 256.
Proof.
  unfold request_charge, saturating_usize, u32_max. assert (G := payload_bytes_nonneg op). int_lia.
Qed.

Lemma forallb_false {A} (f : A -> bool) l : forallb f l = false -> exists x, x ∈ l /\ f x = false.
Proof.
  induction l as [|x l IH]; [done|]. cbn. destruct (f x) eqn:E; [|by exists x; split; [constructor|]].
  intros (y & Hy & Hf)%IH. exists y. split; [by constructor|done].
Qed.

Lemma forallb_route hash n i ks : forallb (fun k => (route hash n k =? i)%nat) ks = true ->
  forall k, k ∈ ks -> route hash n k = i.
Proof.
  intros Hf k Hk. rewrite forallb_forall in Hf. apply Nat.eqb_eq, Hf. by apply list_elem_of_In.
Qed.

(** What admission decides. *)
Lemma admit_spec hash n queue_bytes op :
  match admit_request hash n queue_bytes false op with
  | Refuse _ => True
  | AdmitLocal i charge =>
      (exists k, i = route hash n k) /\ (forall k, k ∈ keys op -> route hash n k = i) /\
      charge = request_charge op /\ charge <= queue_bytes
  | AdmitCross charge =>
      cross_request (mkDataRequest 0 op charge) /\ charge = request_charge op /\ charge <= queue_bytes
  end.
Proof.
  unfold admit_request. destruct (keys op) as [|k0 ks] eqn:Hks; [done|].
  destruct (_ || _) eqn:Hc; [done|]. zhyps.
  destruct (forallb _ _) eqn:Hf.
  - split_and!; [by eexists| |done|done]. intros k Hk. by eapply forallb_route.
  - split_and!; [split; cbn [operation]| |done]; [|by apply request_charge_keys|done].
    destruct op; try done; cbn in Hks; injection Hks as <- <-; simpl in Hf;
      by rewrite Nat.eqb_refl in Hf.
Qed.

Section Clients.
Context {I : Type} `{Laws : TimerIndexLaws I}.
Context (hash : bytes -> Z) (config : Config).

Implicit Types (sys : system I) (o : Owner I) (i j n : nat) (w : Z) (m : table).

(** A change of the queues only. *)
Lemma sim_same sys i o o' m : owners sys !! i = Some o -> reservation o' = reservation o ->
  shard o' = shard o -> sim hash sys m -> sim hash (set_owners sys (<[i := o']> (owners sys))) m.
Proof.
  intros Ho Hr Hsh Hsim k t. cbn [owners set_owners]. rewrite length_insert. cbn zeta.
  set (i' := route hash (length (owners sys)) k). intros Ht.
  assert (owner_table (set_owners sys (<[i := o']> (owners sys))) i' = owner_table sys i') as ->.
  { unfold owner_table. cbn [owners set_owners coordinator].
    destruct (decide (i' = i)) as [->|Hne]; [|by rewrite list_lookup_insert_ne].
    rewrite list_lookup_insert_eq, Ho by (by eapply lookup_lt_Some).
    unfold decided_table. by rewrite Hr, Hsh. }
  by apply (Hsim k t).
Qed.

Lemma linear_quiet m h :
  Forall (fun x => match x with TakesEffect _ _ _ _ => False | _ => True end) h -> linear m h m.
Proof. induction 1 as [|x h Hx _ IH]; [constructor|by apply linear_other]. Qed.

Lemma good_unchanged w sys h : sys_ok hash w sys ->
  Forall (fun x => match x with TakesEffect _ _ _ _ => False | _ => True end) h ->
  good hash w sys (Ok (sys, h)).
Proof.
  intros Hs Hh. split_and!; [done..|]. intros m Hsim. exists m. split; [by apply linear_quiet|done].
Qed.

(** A change of the credits and of who waits for room. *)
Lemma good_credits w sys credits extra l h : sys_ok hash w sys ->
  length credits = length (owner_credits sys) -> Forall (admission_ok hash (length (owners sys))) l ->
  Forall (fun x => match x with TakesEffect _ _ _ _ => False | _ => True end) h ->
  good hash w sys (Ok (mkSystem (owners sys) (coordinator sys) (coordinator_id sys) (cross sys) (clock sys)
    credits extra l, h)).
Proof.
  intros Hs Hlen Hl Hh. split_and!; [by apply sys_ok_credits|done|]. intros m Hsim. exists m. split; [|exact Hsim].
  by apply linear_quiet.
Qed.

Lemma submit_good w sys c op : sys_ok hash w sys -> good hash w sys (submit hash config sys c op).
Proof.
  intros Hs. assert (Ha := admit_spec hash (length (owners sys)) (queue_bytes config) op).
  assert (Hl := sys_admitting _ _ _ Hs).
  unfold submit. destruct (admit_request _ _ _ _ _) as [r|i charge|charge].
  - apply good_unchanged; [done|]. by constructor.
  - destruct Ha as ((k & Hk) & Hroute & _).
    assert (i < length (owners sys))%nat as Hi by (rewrite Hk; apply route_lt, Hs).
    destruct (lookup_lt_is_Some_2 (owner_credits sys) i) as [available ->]; [by rewrite (sys_credits _ _ _ Hs)|].
    destruct (negb _); [done|]. apply good_credits; [done|apply length_insert| |done].
    apply Forall_app. split; [done|]. by apply Forall_singleton.
  - destruct (negb _); [done|]. destruct Ha as (Hreq & _). apply good_credits; [done|done| |done].
    apply Forall_app. split; [done|]. by apply Forall_singleton.
Qed.

Lemma Forall_delete {A} (P : A -> Prop) l n : Forall P l -> Forall P (delete n l).
Proof. intros Hl. rewrite delete_take_drop. apply Forall_app. split; [by apply Forall_take|by apply Forall_drop]. Qed.

Lemma abandon_good w sys n reply : sys_ok hash w sys -> good hash w sys (abandon sys n reply).
Proof.
  intros Hs. assert (Hl := sys_admitting _ _ _ Hs). unfold abandon.
  destruct (admitting sys !! n) as [a|]; [|done]. unfold release, forget.
  cbn [owners coordinator coordinator_id cross clock owner_credits cross_credits admitting].
  destruct (destination a);
    (apply good_credits; [done|cbn; by rewrite ?length_alter|by apply Forall_delete|by constructor]).
Qed.

Lemma enqueue_good w sys n : sys_ok hash w sys -> good hash w sys (enqueue config sys n).
Proof.
  intros Hs. assert (Hl := sys_admitting _ _ _ Hs). unfold enqueue.
  destruct (admitting sys !! n) as [[req [i|]]|] eqn:Hn; [..|done].
  all: assert (Ha := Forall_lookup_1 _ _ _ _ Hl Hn); cbn in Ha.
  - destruct Ha as [Hi Hreq]. destruct (lookup_lt_is_Some_2 (owners sys) i Hi) as [o Ho]. rewrite Ho.
    destruct (stopping o); [by apply abandon_good|]. destruct (_ <? _); [|done].
    assert (sys_ok hash w (set_owners sys (<[i := set_data o (data o ++ [req])]> (owners sys)))) as Hs'.
    { eapply (sys_ok_owner hash w w sys i o); try done; [|by right].
      destruct (sys_owners _ _ _ Hs i o Ho). constructor; try done.
      cbn [data set_data]. apply Forall_app. split; [done|]. by constructor. }
    split_and!; [|apply length_insert|].
    + apply (sys_ok_credits hash w _ (owner_credits sys) (cross_credits sys) (delete n (admitting sys)) Hs'); [done|].
      cbn [owners set_owners]. rewrite length_insert. by apply Forall_delete.
    + intros m Hsim. exists m. split; [by apply linear_quiet; repeat constructor|].
      by apply (sim_same sys i o (set_data o (data o ++ [req]))).
  - destruct (stopped _) eqn:Hst; [by apply abandon_good|]. destruct (_ <? _); [|done]. split_and!; [|done|].
    + destruct Hs as [A1 A2 A3 A4 A5 A6 A7 A8 A9 A10 A11]. constructor; try done.
      * cbn [cross]. apply Forall_app. split; [done|]. by constructor.
      * cbn [coordinator]. by rewrite Hst.
      * by apply Forall_delete.
    + intros m Hsim. exists m. split; [by apply linear_quiet; repeat constructor|done].
Qed.

Lemma timeout_good w sys c op : sys_ok hash w sys ->
  good hash w sys (fire hash config sys (AdmissionTimeout c op)).
Proof.
  intros Hs. cbn [fire]. destruct (admit_request _ _ _ _ _); [done|..];
    (apply good_unchanged; [done|by constructor]).
Qed.

Lemma closed_good w sys c op : sys_ok hash w sys ->
  good hash w sys (fire hash config sys (AdmissionClosed c op)).
Proof. intros Hs. cbn [fire admit_request]. apply good_unchanged; [done|by constructor]. Qed.

Lemma advance_good w sys now : sys_ok hash w sys -> good hash w sys (fire hash config sys (Advance now)).
Proof.
  intros Hs. cbn [fire]. destruct (_ && _) eqn:Hn; [|done]. zhyps. split_and!; [|done|].
  - destruct Hs as [A1 A2 A3 A4 A5 A6 A7 A8 A9 A10]. constructor; try done. cbn [clock owners coordinator].
    destruct (coordinator sys); try done. cbn in *. destruct A3 as (? & ? & ? & ?). split_and!; try done. lia.
  - intros m Hsim. exists m. split; [constructor|]. intros k t. cbn zeta. intros Ht. apply (Hsim k t).
    unfold since in *. cbn [coordinator clock owners] in *.
    destruct (coordinator sys); try lia. case_decide; [done|lia].
Qed.
End Clients.
