(* ===== verification/SystemCoordinator.v ===== *)
(** * Actions of the coordinator

    Every round trip of the coordinator keeps the invariant without a failed
    assertion, and its decision is one step of the one table. *)

From S2P Require Import Prelude Bytes Protocol Command Expiry Store StoreSpec StoreLemmas.
From S2P Require Import StoreEffects StoreInvariant StoreTheorems Config Engine EngineSplit System SystemSpec.
From S2P Require Import SystemLocal SystemClients.

Local Open Scope Z_scope.

Section Coordinator.
Context {I : Type} `{Laws : TimerIndexLaws I}.
Context (hash : bytes -> Z) (config : Config).

Implicit Types (sys : system I) (o : Owner I) (i j n : nat) (w : Z) (m : table).

(** ** The invariant under a change of phase *)

(** A change of phase that keeps every owner. *)
Lemma phase_change w sys ph : sys_ok hash w sys ->
  phase_parts ph = phase_parts (coordinator sys) -> stopped ph = stopped (coordinator sys) ->
  (forall j p o, phase_parts ph !! j = Some p ->
     expected (coordinator_id sys) (coordinator sys) p j o -> expected (coordinator_id sys) ph p j o) ->
  phase_ok hash (length (owners sys)) (clock sys) ph ->
  sys_ok hash w (set_phase sys ph).
Proof.
  intros Hs Hparts Hrun He Hph. destruct Hs as [A1 A2 A3 A4 A5 A6 A7 A8 A9 A10].
  constructor; cbn [owners coordinator clock cross coordinator_id owner_credits set_phase]; try done.
  - intros j p Hp. assert (Hp' := Hp). rewrite Hparts in Hp'.
    destruct (A4 j p Hp') as (o & Ho & Hx). eauto.
  - intros i o Ho Hi. rewrite Hparts in Hi. by eapply A5.
  - rewrite Hrun. done.
  - by rewrite Hrun.
Qed.

(** A change of phase with a round trip with the owner of part [j]. *)
Lemma phase_step w w' sys ph j p o o' : sys_ok hash w sys -> w <= w' ->
  phase_parts ph = phase_parts (coordinator sys) -> stopped ph = stopped (coordinator sys) ->
  NoDup (part_owner <$> phase_parts ph) -> stopping o' = stopping o ->
  phase_parts ph !! j = Some p -> owners sys !! part_owner p = Some o ->
  owner_ok hash (length (owners sys)) w' (part_owner p) o' ->
  (forall j' p' o1, j' <> j -> expected (coordinator_id sys) (coordinator sys) p' j' o1 ->
     expected (coordinator_id sys) ph p' j' o1) ->
  expected (coordinator_id sys) ph p j o' ->
  phase_ok hash (length (owners sys)) (clock sys) ph ->
  sys_ok hash w' (set_phase (set_owners sys (<[part_owner p := o']> (owners sys))) ph).
Proof.
  intros Hs Hw Hparts Hrun Hnd Hst Hp Ho Hok Hother Hown Hph.
  destruct Hs as [A1 A2 A3 A4 A5 A6 A7 A8 A9 A10].
  assert (part_owner p < length (owners sys))%nat as Hlt by (by eapply lookup_lt_Some).
  constructor; cbn [owners coordinator clock cross coordinator_id owner_credits set_phase set_owners];
    rewrite ?length_insert; try done; try lia.
  - intros i o1 [(<- & <- & _)|[Hne Hi]]%list_lookup_insert_Some; [done|].
    eapply owner_ok_later; eauto.
  - intros j' p' Hp'. destruct (decide (j' = j)) as [->|Hne].
    + simplify_eq. exists o'. by rewrite list_lookup_insert_eq.
    + assert (Hp2 := Hp'). rewrite Hparts in Hp2. destruct (A4 j' p' Hp2) as (o1 & Ho1 & Hx).
      exists o1. rewrite list_lookup_insert_ne; [by eauto|]. intros E. apply Hne.
      eapply (NoDup_lookup _ _ _ (part_owner p') Hnd); rewrite list_lookup_fmap; [by rewrite Hp'|].
      rewrite Hp. cbn. by rewrite E.
  - intros i o1 [(<- & <- & _)|[Hne Hi]]%list_lookup_insert_Some Hn; [|rewrite Hparts in Hn; by eapply A5].
    exfalso. apply Hn, list_elem_of_fmap. exists p. split; [done|]. by eapply list_elem_of_lookup_2.
  - rewrite Hrun. intros i o1 [(<- & <- & _)|[Hne Hi]]%list_lookup_insert_Some; [|by eapply A9].
    rewrite Hst. by eapply A9.
  - by rewrite Hrun.
Qed.

(** ** The promise under a change of phase *)

(** The one table does not change when the owners' tables do not. *)
Lemma sim_tables sys sys' m : length (owners sys') = length (owners sys) ->
  (forall i, owner_table sys' i = owner_table sys i) ->
  (forall i t, since sys' i <= t -> since sys i <= t) ->
  sim hash sys m -> sim hash sys' m.
Proof.
  intros Hlen Ht Hsi Hsim k t. cbn zeta. rewrite Hlen, Ht. intros H1. apply (Hsim k t). by apply Hsi.
Qed.

Definition applying (ph : phase) : bool := match ph with CoApplying _ _ _ _ => true | _ => false end.

Lemma decided_entries ph o : applying ph = false -> decided_table ph o = entries (shard o).
Proof. unfold decided_table. by destruct ph. Qed.

(** Outside the decision, the owners' tables are their entries. *)
Lemma owner_table_entries sys i o : applying (coordinator sys) = false -> owners sys !! i = Some o ->
  owner_table sys i = entries (shard o).
Proof. intros Ha Ho. unfold owner_table. rewrite Ho. by apply decided_entries. Qed.

Lemma since_le_clock w sys i : sys_ok hash w sys -> since sys i <= clock sys.
Proof.
  intros Hs. unfold since. assert (Hp := sys_phase _ _ _ Hs).
  destruct (coordinator sys); try lia. case_decide; [|lia]. by destruct Hp as (_ & _ & _ & ?).
Qed.

(** A round trip that changes neither shard nor decision. *)
Lemma sim_contact sys ph i o o' m : owners sys !! i = Some o ->
  shard o' = shard o -> applying (coordinator sys) = false -> applying ph = false ->
  (forall i, since sys i <= since (set_phase sys ph) i) ->
  sim hash sys m -> sim hash (set_phase (set_owners sys (<[i := o']> (owners sys))) ph) m.
Proof.
  intros Ho Hsh Ha Ha' Hsi. apply sim_tables.
  - cbn. apply length_insert.
  - intros i'. unfold owner_table. cbn [owners set_owners set_phase coordinator].
    destruct (decide (i' = i)) as [->|Hne].
    + rewrite list_lookup_insert_eq, Ho by (by eapply lookup_lt_Some).
      rewrite !decided_entries by done. by rewrite Hsh.
    + rewrite list_lookup_insert_ne by done. destruct (owners sys !! i'); [|done].
      by rewrite !decided_entries.
  - intros i' t Ht. specialize (Hsi i').
    change (since (set_phase sys ph) i') with
      (since (set_phase (set_owners sys (<[i := o']> (owners sys))) ph) i') in Hsi. lia.
Qed.

Lemma sim_phase sys ph m : applying (coordinator sys) = false -> applying ph = false ->
  (forall i, since sys i <= since (set_phase sys ph) i) ->
  sim hash sys m -> sim hash (set_phase sys ph) m.
Proof.
  intros Ha Ha' Hsi. apply sim_tables; [done| |].
  - intros i. unfold owner_table. cbn [owners set_phase coordinator].
    destruct (owners sys !! i); [|done]. by rewrite !decided_entries.
  - intros i t Ht. specialize (Hsi i). lia.
Qed.

(** ** Round trips *)

(** A round trip happens, or the owner owes a turn to its data first. *)
Lemma contact_spec w sys i o o' reserve message answer : sys_ok hash w sys -> owners sys !! i = Some o ->
  handle_control reserve o message = Some (o', answer) ->
  contact reserve sys i message = Err tt \/
  contact reserve sys i message = Ok (set_owners sys (<[i := o']> (owners sys)), answer).
Proof.
  intros Hs Ho Hh. unfold contact. rewrite Ho. cbn [expect mbind res_bind].
  destruct (turn_pending o || stopping o); [by left|right]. by rewrite Hh.
Qed.

(** Nothing takes effect in a round trip that only changes the phase. *)
Lemma good_quiet w w' sys sys' : sys_ok hash w' sys' -> length (owners sys') = length (owners sys) ->
  w <= w' -> (forall m, sim hash sys m -> sim hash sys' m) -> good hash w' sys (Ok (sys', [])).
Proof.
  intros Hs Hlen Hw Hsim. split_and!; [done..|]. intros m Hm. exists m. split; [constructor|by apply Hsim].
Qed.

Lemma owner_ok_reservation n w i o r : owner_ok hash n w i o -> owner_ok hash n w i (set_reservation o r).
Proof. by intros []. Qed.

Lemma length_set_owner sys ph i o' :
  length (owners (set_phase (set_owners sys (<[i := o']> (owners sys))) ph)) = length (owners sys).
Proof. apply length_insert. Qed.

(** *** Reserving *)

Lemma reserving_good w sys req parts n reserve : sys_ok hash w sys ->
  coordinator sys = CoReserving req parts n -> good hash w sys (coordinate hash config reserve sys).
Proof.
  intros Hs Hc. unfold coordinate. rewrite Hc. cbn zeta.
  assert (Hph := sys_phase _ _ _ Hs). rewrite Hc in Hph. destruct Hph as (Hreq & Hsp & Hn).
  destruct (parts !! n) as [p|] eqn:Hp.
  - destruct (sys_expected _ _ _ Hs n p) as (o & Ho & He); [by rewrite Hc|]. rewrite Hc in He.
    cbn in He. rewrite decide_False in He by lia.
    destruct (contact_spec w sys (part_owner p) o
      (set_reservation o (Some (mkReservation (coordinator_id sys) None))) reserve
      (Reserve (coordinator_id sys)) Completed Hs Ho) as [->| ->]; [|done|].
    { cbn [handle_control]. by rewrite He. }
    cbn [mbind res_bind]. apply (good_quiet w); [|apply length_set_owner|done|].
    + apply (phase_step w w sys _ n p o); rewrite ?Hc; try done.
      * by apply (split_NoDup hash (length (owners sys)) (operation req)).
      * apply owner_ok_reservation. by apply (sys_owners _ _ _ Hs).
      * intros j' p' o1 Hne. cbn [expected]. repeat case_decide; (done || lia).
      * cbn [expected]. by rewrite decide_True by lia.
      * cbn. split_and!; try done. apply lookup_lt_Some in Hp. lia.
    + intros m. apply (sim_contact sys _ _ o); try done; rewrite ?Hc; try done.
      intros i. unfold since. rewrite Hc. cbn. lia.
  - apply lookup_ge_None in Hp. apply (good_quiet w); [|done|done|].
    + apply phase_change; rewrite ?Hc; try done.
      * intros j p o Hj. apply lookup_lt_Some in Hj. cbn in Hj |- *. by rewrite decide_True by lia.
      * cbn. split_and!; try done; lia.
    + intros m. apply sim_phase; rewrite ?Hc; try done.
      intros i. unfold since. rewrite Hc. cbn. case_decide; lia.
Qed.

(** *** Preparing *)

(** A part that its owner cannot prepare ends the request. *)
Lemma preparing_failed w sys req parts now rs p b l m1 e : sys_ok hash w sys ->
  coordinator sys = CoPreparing req parts now rs -> parts !! length rs = Some p ->
  outcome b l m1 (part_operation p) now = Err e ->
  good hash w sys (Ok (set_phase sys (CoReleasing req parts (engine_error_reply e) 0),
    [TakesEffect (client req) (operation req) now (engine_error_reply e)])).
Proof.
  intros Hs Hc Hp Hout. assert (Hph := sys_phase _ _ _ Hs). rewrite Hc in Hph.
  destruct Hph as (Hreq & Hsp & Hn & Hnow). split_and!; [|done|].
  - apply phase_change; rewrite ?Hc; try done.
    + intros j q x Hj Hx. cbn [expected] in *. rewrite decide_False by lia.
      case_decide; [|by eauto]. destruct Hx as (pr & -> & _). by eauto.
    + cbn. split_and!; try done. lia.
  - intros m Hsim. exists m. split.
    + eapply linear_effect; [|constructor]. apply effect_refused.
      apply outcome_Err in Hout as [Hspec|]; [|done]. exfalso.
      destruct (split_keys _ _ _ _ Hsp p) as (_ & _ & Hmulti); [by eapply list_elem_of_lookup_2|].
      destruct (spec_exec_multi (live_at now m1) _ now Hmulti) as (? & ? & G). congruence.
    + apply sim_phase; rewrite ?Hc; try done. intros i. apply (since_le_clock w). done.
Qed.

Lemma preparing_good w sys req parts now rs p reserve : sys_ok hash w sys ->
  coordinator sys = CoPreparing req parts now rs -> parts !! length rs = Some p ->
  good hash w sys (coordinate hash config reserve sys).
Proof.
  intros Hs Hc Hp. unfold coordinate. rewrite Hc. cbn zeta. rewrite Hp.
  assert (Hph := sys_phase _ _ _ Hs). rewrite Hc in Hph. destruct Hph as (Hreq & Hsp & Hn & Hnow).
  destruct (sys_expected _ _ _ Hs (length rs) p) as (o & Ho & He); [by rewrite Hc|]. rewrite Hc in He.
  cbn in He. rewrite decide_False in He by lia.
  destruct (sys_owners _ _ _ Hs _ o Ho) as [Hso Hrev Hrt Hd].
  assert (Hprep := prepare_spec reserve (shard o) (part_operation p) now Hso).
  destruct (outcome _ _ _ _ _) as [[r m1]|e|] eqn:Hout; [| |done].
  - destruct Hprep as (pr & Hpr & Hprok & Hresp & Hcom).
    apply outcome_Ok in Hout as (m2 & Hspec & E & _).
    destruct (contact_spec w sys (part_owner p) o
      (set_reservation o (Some (mkReservation (coordinator_id sys) (Some pr)))) reserve
      (Prepare (coordinator_id sys) (part_operation p) now) (PrepareResult (response pr)) Hs Ho)
      as [->| ->]; [|done|].
    { cbn [handle_control]. rewrite He. cbn [mbind option_bind reservation_id prepared].
      by rewrite Z.eqb_refl, Hpr. }
    cbn [mbind res_bind]. apply (good_quiet w); [|apply length_set_owner|done|].
    + apply (phase_step w w sys _ (length rs) p o); rewrite ?Hc; try done.
      * by apply (split_NoDup hash (length (owners sys)) (operation req)).
      * intros j' p' o1 Hne. cbn [expected]. rewrite length_app. cbn [length].
        repeat case_decide; try done; try lia. intros (pr' & G1 & G2 & G3). exists pr'.
        split_and!; try done. by rewrite lookup_app_l.
      * cbn [expected]. rewrite length_app. cbn [length]. rewrite decide_True by lia. exists pr.
        split_and!; [done| |by rewrite lookup_app_r, Nat.sub_diag by lia].
        split; [done|]. exists m2. cbn [shard set_reservation]. by rewrite Hresp, Hcom.
      * cbn. rewrite length_app. cbn. apply lookup_lt_Some in Hp. split_and!; try done. lia.
    + intros m. apply (sim_contact sys _ _ o); try done; rewrite ?Hc; try done.
      intros i. unfold since. rewrite Hc. cbn. lia.
  - destruct (contact_spec w sys (part_owner p) o o reserve
      (Prepare (coordinator_id sys) (part_operation p) now) (PrepareError e) Hs Ho)
      as [->| ->]; [|done|].
    { cbn [handle_control]. rewrite He. cbn [mbind option_bind reservation_id prepared].
      by rewrite Z.eqb_refl, Hprep. }
    cbn [mbind res_bind]. rewrite list_insert_id by done.
    replace (set_owners sys (owners sys)) with sys by (by destruct sys). by eapply preparing_failed.
Qed.

(** *** Deciding *)

(** Everything is prepared at [now]: what the participants hold. *)
Definition all_prepared sys (parts : list Part) (now : Z) (rs : list Reply) : Prop :=
  length rs = length parts /\
  forall j p, parts !! j = Some p -> exists o pr, owners sys !! part_owner p = Some o /\
    reservation o = Some (mkReservation (coordinator_id sys) (Some pr)) /\
    prepared_for o p now pr /\ rs !! j = Some (response pr).

Lemma preparing_done w sys req parts now rs : sys_ok hash w sys ->
  coordinator sys = CoPreparing req parts now rs -> parts !! length rs = None ->
  all_prepared sys parts now rs.
Proof.
  intros Hs Hc Hp. assert (Hph := sys_phase _ _ _ Hs). rewrite Hc in Hph.
  destruct Hph as (_ & _ & Hn & _). apply lookup_ge_None in Hp. split; [lia|].
  intros j p Hj. destruct (sys_expected _ _ _ Hs j p) as (o & Ho & He); [by rewrite Hc|].
  rewrite Hc in He. cbn in He. assert (G := lookup_lt_Some _ _ _ Hj).
  rewrite decide_True in He by lia. destruct He as (pr & E1 & E2 & E3). by exists o, pr.
Qed.

Section Decide.
Context (w : Z) (sys : system I) (req : DataRequest) (parts : list Part) (now : Z) (rs : list Reply).
Context (m : table).
Hypothesis Hs : sys_ok hash w sys.
Hypothesis Hc : coordinator sys = CoPreparing req parts now rs.
Hypothesis Hall : all_prepared sys parts now rs.
Hypothesis Hsim : sim hash sys m.

Let Hreq : cross_request req.
Proof. assert (Hph := sys_phase _ _ _ Hs). rewrite Hc in Hph. by destruct Hph. Qed.

Let Hsp : split_of hash (length (owners sys)) (operation req) parts.
Proof. assert (Hph := sys_phase _ _ _ Hs). rewrite Hc in Hph. by destruct Hph as (_ & ? & _). Qed.

Let Hnow : now <= clock sys.
Proof. assert (Hph := sys_phase _ _ _ Hs). rewrite Hc in Hph. by destruct Hph as (_ & _ & _ & ?). Qed.

(** The participants' entries are those of the one table since [now]. *)
Lemma participant_live p o k t : p ∈ parts -> owners sys !! part_owner p = Some o ->
  route hash (length (owners sys)) k = part_owner p -> now <= t ->
  live_at t (entries (shard o)) !! k = live_at t m !! k.
Proof.
  intros Hp Ho Hk Ht. assert (G := Hsim k t). cbn zeta in G. rewrite Hk in G.
  rewrite (owner_table_entries sys _ o) in G by (by rewrite ?Hc). apply G.
  unfold since. rewrite Hc, decide_True; [done|]. by apply list_elem_of_fmap_2.
Qed.

(** A participant's preparation, on the one table. *)
Lemma participant_spec p o pr : p ∈ parts -> owners sys !! part_owner p = Some o ->
  prepared_for o p now pr ->
  exists m1 m2, spec_exec (live_at now m) (part_operation p) now = Ok (response pr, m2) /\
    agree (keys (part_operation p)) m1 m2 /\
    (forall k, k ∉ keys (part_operation p) -> m1 !! k = live_at now (entries (shard o)) !! k) /\
    forall t, now <= t -> live_at t (commit (effects pr) (entries (shard o))) = live_at t m1.
Proof.
  intros Hp Ho (_ & m1 & Hspec & Hcom).
  assert (agree (keys (part_operation p)) (live_at now (entries (shard o))) (live_at now m)) as Ha.
  { intros k Hk. apply (participant_live p); try done.
    by eapply (split_route hash (length (owners sys)) (operation req) parts). }
  assert (Hloc := spec_exec_local _ _ _ now Ha). rewrite Hspec in Hloc.
  destruct Hloc as (m2 & Hm2 & Hag). exists m1, m2. split_and!; [done|done| |].
  - intros k Hk. by eapply spec_exec_frame.
  - intros t Ht. rewrite Hcom. apply live_at_union; [done|]. intros k Hk. by eapply spec_exec_frame.
Qed.

Lemma prepared_replies : part_replies (live_at now m) now parts rs.
Proof.
  destruct Hall as [Hlen Hparts]. apply Forall2_same_length_lookup_2; [done|].
  intros j p r Hj Hr. destruct (Hparts j p Hj) as (o & pr & Ho & _ & Hpr & Hrj).
  simplify_eq. destruct (participant_spec p o pr) as (m1 & m2 & Hm2 & _); try done.
  - by eapply list_elem_of_lookup_2.
  - by exists m2.
Qed.

(** The combined reply is that of the whole operation on the one table, and the
    prepared tables are its result. *)
Lemma decision_spec : exists reply m',
  combine (operation req) parts rs = Some reply /\
  spec_exec (live_at now m) (operation req) now = Ok (reply, m') /\
  sim hash (set_phase sys (CoApplying req parts reply 0)) (overlay (keys (operation req)) m' m).
Proof.
  destruct Hreq as [Hmulti Hlen].
  destruct (combine_spec hash (length (owners sys)) (live_at now m) now (operation req) parts rs
    Hmulti Hsp Hlen prepared_replies) as (reply & m' & Hcomb & Hspec & Hag).
  exists reply, m'. split_and!; [done..|]. intros k t. cbn zeta. cbn [owners set_phase].
  set (i := route hash (length (owners sys)) k). intros Ht.
  change (clock sys <= t) in Ht. unfold owner_table. cbn [owners set_phase coordinator].
  destruct (decide (i ∈ part_owner <$> parts)) as [Hin|Hin].
  - apply list_elem_of_fmap in Hin as (p & Hi & Hp). destruct (proj1 (list_elem_of_lookup _ _) Hp) as [j Hj].
    destruct (proj2 Hall j p Hj) as (o & pr & Ho & Hres & Hpr & _).
    destruct (participant_spec p o pr Hp Ho Hpr) as (m1 & m2 & Hm2 & Ha12 & Hframe & Hlive).
    rewrite Hi, Ho. unfold decided_table. rewrite Hres, Hlive by lia.
    destruct (decide (k ∈ keys (part_operation p))) as [Hk|Hk].
    + apply live_at_lookup_ext. rewrite overlay_lookup, decide_True; [|by eapply split_route].
      rewrite (Ha12 k Hk). symmetry. by apply (Hag p _ _ Hp Hm2).
    + rewrite (live_at_lookup_ext t m1 _ k (Hframe k Hk)), live_at_twice by lia.
      rewrite (participant_live p) by (done || lia). apply live_at_lookup_ext.
      rewrite overlay_lookup, decide_False; [done|]. intros Hko. apply Hk.
      destruct (split_keys _ _ _ _ Hsp p Hp) as (-> & _). by apply list_elem_of_filter.
  - assert (k ∉ keys (operation req)) as Hk.
    { intros Hk. destruct (split_part_of _ _ _ _ k Hsp Hk) as (p & Hp & Hkp). apply Hin.
      destruct (split_route _ _ _ _ p k Hsp Hp Hkp) as [E _]. unfold i. rewrite E.
      by apply list_elem_of_fmap_2. }
    assert (G := Hsim k t). cbn zeta in G. fold i in G. unfold owner_table, since in G. rewrite Hc in G.
    rewrite decide_False in G by done. specialize (G Ht).
    rewrite (live_at_lookup_ext t (overlay _ _ _) m k) by (by rewrite overlay_lookup, decide_False).
    destruct (owners sys !! i) as [o|] eqn:Ho; [|done]. rewrite <- G.
    assert (reservation o = None) as Hr by (eapply (sys_unreserved _ _ _ Hs); [done|by rewrite Hc]).
    by rewrite !decided_unreserved.
Qed.
End Decide.

Lemma too_long_refusal : exists e, too_long = engine_error_reply e /\ refusal e.
Proof.
  exists (mkEngineError "ERR response exceeds configured limit"). split; [done|].
  unfold refusal. simpl. set_solver.
Qed.

Lemma deciding_good w sys req parts now rs reserve m : sys_ok hash w sys ->
  coordinator sys = CoPreparing req parts now rs -> parts !! length rs = None -> sim hash sys m ->
  good_from hash w sys m (coordinate hash config reserve sys).
Proof.
  intros Hs Hc Hp Hsim. assert (Hall := preparing_done _ _ _ _ _ _ Hs Hc Hp).
  assert (Hph := sys_phase _ _ _ Hs). rewrite Hc in Hph. destruct Hph as (Hreq & Hsp & Hn & Hnow).
  destruct (decision_spec w sys req parts now rs m Hs Hc Hall Hsim) as (reply & m' & Hcomb & Hspec & Hsim').
  assert (forall j p o, parts !! j = Some p ->
    expected (coordinator_id sys) (CoPreparing req parts now rs) p j o ->
    exists pr, reservation o = Some (mkReservation (coordinator_id sys) (Some pr)) /\
      prepared_for o p now pr) as Hexp.
  { intros j p o Hj He. cbn in He. apply lookup_lt_Some in Hj. apply lookup_ge_None in Hp.
    rewrite decide_True in He by lia. destruct He as (pr & ? & ? & _). by exists pr. }
  unfold coordinate. rewrite Hc. cbn zeta. rewrite Hp. unfold decide_phase. rewrite Hcomb.
  cbn [mbind option_bind expect res_bind].
  destruct (match encoded_len reply with Some _ => _ | None => _ end); cbn [expect mbind res_bind].
  - split_and!; [|done|].
    + apply phase_change; rewrite ?Hc; try done.
      * intros j p o Hj He. destruct (Hexp j p o Hj He) as (pr & ? & _). cbn.
        rewrite decide_False by lia. by exists (Some pr).
      * cbn. split_and!; try done. lia.
    + exists m. split.
      * destruct too_long_refusal as (e & -> & He). eapply linear_effect; [by apply effect_refused|constructor].
      * apply sim_phase; rewrite ?Hc; try done. intros i. by apply (since_le_clock w).
  - split_and!; [|done|].
    + apply phase_change; rewrite ?Hc; try done.
      * intros j p o Hj He. destruct (Hexp j p o Hj He) as (pr & ? & ?). cbn.
        rewrite decide_False by lia. by exists pr, now.
      * cbn. split_and!; try done. lia.
    + exists (overlay (keys (operation req)) m' m). split; [|done].
      eapply linear_effect; [by apply effect_done|constructor].
Qed.

(** *** Applying *)

(** Installing a prepared part keeps its owner in order. *)
Lemma prepared_routed n w i o p now pr parts op : owner_ok hash n w i o ->
  split_of hash n op parts -> p ∈ parts -> i = part_owner p -> prepared_for o p now pr ->
  forall k e, commit (effects pr) (entries (shard o)) !! k = Some e -> route hash n k = i.
Proof.
  intros Hok Hsp Hp -> (_ & m & Hspec & Hcom) k e He.
  destruct (decide (k ∈ keys (part_operation p))) as [Hk|Hk]; [by eapply split_route|].
  rewrite Hcom, lookup_union, (spec_exec_frame _ _ _ _ _ _ Hspec Hk), live_at_lookup, leftover_lookup in He.
  destruct (entries (shard o) !! k) as [e'|] eqn:Hke; [|done]. by eapply (owner_routed _ _ _ _ _ Hok).
Qed.

(** Every part is applied. *)
Lemma applying_done w sys req parts reply n : sys_ok hash w sys ->
  coordinator sys = CoApplying req parts reply n -> parts !! n = None ->
  good hash (w + 1) sys (Ok (set_phase sys (CoReleasing req parts reply 0), [])).
Proof.
  intros Hs Hc Hp. assert (Hph := sys_phase _ _ _ Hs). rewrite Hc in Hph. destruct Hph as (Hreq & Hsp & Hn).
  apply lookup_ge_None in Hp. apply (good_quiet w); [|done|lia|].
  - eapply (sys_ok_later _ w); [|lia]. apply phase_change; rewrite ?Hc; try done.
    + intros j p o Hj. apply lookup_lt_Some in Hj. cbn in Hj |- *.
      rewrite (decide_True (P := (j < n)%nat)), decide_False by lia. by eauto.
    + cbn. split_and!; try done. lia.
  - intros m. apply sim_tables; [done| |].
    + intros i. unfold owner_table. cbn [owners set_phase coordinator].
      destruct (owners sys !! i) as [o|] eqn:Ho; [|done]. rewrite (decided_entries (CoReleasing _ _ _ _)) by done.
      rewrite Hc. unfold decided_table.
      destruct (decide (i ∈ part_owner <$> parts)) as [Hin|Hin].
      * apply list_elem_of_fmap in Hin as (p & -> & [j Hj]%list_elem_of_lookup).
        destruct (sys_expected _ _ _ Hs j p) as (o1 & Ho1 & He); [by rewrite Hc|].
        simplify_eq. rewrite Hc in He. cbn in He. apply lookup_lt_Some in Hj.
        rewrite decide_True in He by lia. by rewrite He.
      * rewrite (sys_unreserved _ _ _ Hs i o Ho); [done|by rewrite Hc].
    + intros i t. unfold since. cbn. by rewrite Hc.
Qed.

Lemma applying_good w sys req parts reply n reserve : sys_ok hash w sys -> w < usize_max ->
  coordinator sys = CoApplying req parts reply n ->
  good hash (w + 1) sys (coordinate hash config reserve sys).
Proof.
  intros Hs Hw Hc. unfold coordinate. rewrite Hc. cbn zeta.
  assert (Hph := sys_phase _ _ _ Hs). rewrite Hc in Hph. destruct Hph as (Hreq & Hsp & Hn).
  destruct (parts !! n) as [p|] eqn:Hp.
  - destruct (sys_expected _ _ _ Hs n p) as (o & Ho & He); [by rewrite Hc|]. rewrite Hc in He.
    cbn in He. rewrite decide_False in He by lia. destruct He as (pr & now & Hres & Hpr).
    assert (Hok := sys_owners _ _ _ Hs _ o Ho). assert (Hrev := owner_revision _ _ _ _ _ Hok).
    destruct (apply_spec (shard o) pr _ (owner_shard_ok _ _ _ _ _ Hok) (proj1 Hpr) ltac:(lia) (Permutation_refl _))
      as (s' & Happ & Hs' & Hadv). destruct Hadv as (Hent & _ & Hr' & _).
    set (o' := set_shard (set_reservation o (Some (mkReservation (coordinator_id sys) None))) s').
    destruct (contact_spec w sys (part_owner p) o o' reserve (Apply (coordinator_id sys)) Completed Hs Ho)
      as [->| ->]; [|done|].
    { cbn [handle_control]. rewrite Hres. cbn [mbind option_bind reservation_id prepared].
      rewrite Z.eqb_refl. cbn [negb]. unfold Store.apply. by rewrite Happ. }
    cbn [mbind res_bind]. apply (good_quiet w); [|apply length_set_owner|lia|].
    + apply (phase_step w (w + 1) sys _ n p o); rewrite ?Hc; try done; [lia|..].
      * by apply (split_NoDup hash (length (owners sys)) (operation req)).
      * destruct Hok as [B1 B2 B3 B4]. constructor; cbn; try done; [lia|].
        rewrite Hent. eapply prepared_routed; try done. by eapply list_elem_of_lookup_2.
      * intros j' p' o1 Hne. cbn [expected]. repeat case_decide; (done || lia).
      * cbn [expected]. by rewrite decide_True by lia.
      * cbn. split_and!; try done. apply lookup_lt_Some in Hp. lia.
    + intros m. apply sim_tables; [apply length_set_owner| |].
      * intros i. unfold owner_table. cbn [owners set_owners set_phase coordinator].
        destruct (decide (i = part_owner p)) as [->|Hne].
        -- rewrite list_lookup_insert_eq, Ho by (by eapply lookup_lt_Some). rewrite Hc.
           unfold decided_table. rewrite Hres. cbn. by rewrite Hent.
        -- rewrite list_lookup_insert_ne, Hc by done. done.
      * intros i t. unfold since. cbn. by rewrite Hc.
  - by eapply applying_done.
Qed.

(** *** Releasing *)

Lemma releasing_good w sys req parts reply n reserve : sys_ok hash w sys ->
  coordinator sys = CoReleasing req parts reply n ->
  good hash w sys (coordinate hash config reserve sys).
Proof.
  intros Hs Hc. unfold coordinate. rewrite Hc. cbn zeta.
  assert (Hph := sys_phase _ _ _ Hs). rewrite Hc in Hph. destruct Hph as (Hreq & Hsp & Hn).
  destruct (parts !! n) as [p|] eqn:Hp.
  - destruct (sys_expected _ _ _ Hs n p) as (o & Ho & He); [by rewrite Hc|]. rewrite Hc in He.
    cbn in He. rewrite decide_False in He by lia. destruct He as (pr & Hres).
    destruct (contact_spec w sys (part_owner p) o (set_data_turn (set_reservation o None) true) reserve
      (Release (coordinator_id sys)) Completed Hs Ho) as [->| ->]; [|done|].
    { cbn [handle_control]. rewrite Hres. cbn [mbind option_bind reservation_id].
      by rewrite Z.eqb_refl. }
    cbn [mbind res_bind]. apply (good_quiet w); [|apply length_set_owner|done|].
    + assert (Hok := sys_owners _ _ _ Hs _ o Ho). destruct Hok as [B1 B2 B3 B4].
      apply (phase_step w w sys _ n p o); rewrite ?Hc; try done.
      * by apply (split_NoDup hash (length (owners sys)) (operation req)).
      * intros j' p' o1 Hne. cbn [expected]. repeat case_decide; (done || lia).
      * cbn [expected]. by rewrite decide_True by lia.
      * cbn. split_and!; try done. apply lookup_lt_Some in Hp. lia.
    + intros m. apply (sim_contact sys _ _ o); try done; rewrite ?Hc; try done.
      intros i. unfold since. rewrite Hc. cbn. lia.
  - apply lookup_ge_None in Hp. split_and!; [|done|].
    + assert (Hs0 := Hs). destruct Hs as [A1 A2 A3 A4 A5 A6 A7 A8 A9 A10]. rewrite Hc in A9.
      constructor; cbn; try done.
      intros i o Ho _. destruct (decide (i ∈ part_owner <$> parts)) as [Hin|Hin].
      * apply list_elem_of_fmap in Hin as (p & -> & [j Hj]%list_elem_of_lookup).
        destruct (A4 j p) as (o1 & Ho1 & He); [by rewrite Hc|].
        simplify_eq. rewrite Hc in He. cbn in He. apply lookup_lt_Some in Hj.
        by rewrite decide_True in He by lia.
      * apply (A5 i o Ho). by rewrite Hc.
    + intros m Hm. exists m. split; [apply linear_other; [done|constructor]|].
      apply (sim_tables sys); [done| | |done].
      * intros i. unfold owner_table. cbn [owners coordinator finish fst]. rewrite Hc.
        destruct (owners sys !! i); [|done]. by rewrite !decided_entries.
      * intros i t. unfold since. cbn. by rewrite Hc.
Qed.

(** *** Starting *)

Lemma starting_good w sys reserve : sys_ok hash w sys -> w < usize_max -> coordinator sys = CoIdle ->
  good hash (w + 1) sys (coordinate hash config reserve sys).
Proof.
  intros Hs Hw Hc. unfold coordinate. rewrite Hc. unfold next_cross.
  destruct (cross sys) as [|req rest] eqn:Hcross; [done|].
  assert (Hcr := sys_cross _ _ _ Hs). rewrite Hcross in Hcr. apply Forall_cons in Hcr as [Hreq Hrest].
  assert (Hid := sys_id _ _ _ Hs).
  rewrite (proj2 (checked_usize_Some _ (coordinator_id sys + 1))) by lia. cbn [expect mbind res_bind].
  destruct (split_spec hash (length (owners sys)) (operation req)) as (parts & Hsplit & Hsp); [apply Hreq|].
  rewrite Hsplit. cbn [expect mbind res_bind].
  assert (Hun := sys_unreserved _ _ _ Hs). rewrite Hc in Hun. cbn in Hun.
  apply (good_quiet w); [|done|lia|].
  - destruct (sys_ok_later _ w (w + 1) sys Hs ltac:(lia)) as [A1 A2 A3 A4 A5 A6 A7 A8 A9 A10].
    rewrite Hc in A9. constructor; cbn; try done; try lia.
    + split_and!; try done. lia.
    + intros j p Hp. apply list_elem_of_lookup_2 in Hp.
      destruct (split_keys _ _ _ _ Hsp p Hp) as (_ & Hne & _).
      destruct (keys (part_operation p)) as [|k ks] eqn:Hks; [done|].
      destruct (split_route _ _ _ _ p k Hsp Hp) as [<- _]; [rewrite Hks; constructor|].
      destruct (lookup_lt_is_Some_2 (owners sys) (route hash (length (owners sys)) k)) as [o Ho].
      { by apply route_lt. }
      exists o. split; [done|]. apply (Hun _ _ Ho), not_elem_of_nil.
    + intros i o Ho _. apply (Hun _ _ Ho), not_elem_of_nil.
  - intros m. apply sim_tables; [done| |].
    + intros i. unfold owner_table. cbn. rewrite Hc. destruct (owners sys !! i); [|done].
      by rewrite !decided_entries.
    + intros i t. unfold since. cbn. by rewrite Hc.
Qed.

(** *** Every action of the coordinator *)

Lemma coordinate_good w sys reserve m : sys_ok hash w sys -> w < usize_max -> sim hash sys m ->
  good_from hash (w + 1) sys m (coordinate hash config reserve sys).
Proof.
  intros Hs Hw Hsim. destruct (coordinator sys) as [|req parts n|req parts now rs|req parts r n|req parts r n|] eqn:Hc.
  - apply good_at; [|done]. by apply starting_good.
  - apply good_later with w; [|lia]. apply good_at; [|done]. by eapply reserving_good.
  - apply good_later with w; [|lia]. destruct (parts !! length rs) as [p|] eqn:Hp.
    + apply good_at; [|done]. by eapply preparing_good.
    + by eapply deciding_good.
  - apply good_at; [|done]. by eapply applying_good.
  - apply good_later with w; [|lia]. apply good_at; [|done]. by eapply releasing_good.
  - unfold coordinate. by rewrite Hc.
Qed.

(** *** Statistics *)

Lemma sample_good w sys i : sys_ok hash w sys -> good hash w sys (sample sys i).
Proof.
  intros Hs. unfold sample. destruct (_ <=? _)%nat eqn:Hi; [done|]. apply Nat.leb_gt in Hi.
  destruct (lookup_lt_is_Some_2 (owners sys) i Hi) as [o Ho].
  destruct (contact_spec w sys i o (set_data_turn o true) (fun _ _ => true) Stats
    (StatsResult (stats (shard o))) Hs Ho) as [->| ->]; [done|done|].
  cbn [mbind res_bind]. split_and!; [|apply length_insert|].
  - eapply (sys_ok_owner hash w w sys i o); try done; [|by right].
    by destruct (sys_owners _ _ _ Hs i o Ho).
  - intros m Hm. exists m. split; [apply linear_other; [done|constructor]|].
    by apply (sim_same hash sys i o).
Qed.

(** *** Stopping *)

Lemma stop_coordinator_good w sys : sys_ok hash w sys -> good hash w sys (stop_coordinator sys).
Proof.
  intros Hs. unfold stop_coordinator. destruct (coordinator sys) eqn:Hc; try done.
  destruct (cross sys) eqn:Hx; [|done]. apply (good_quiet w); [|done|done|].
  - destruct Hs as [A1 A2 A3 A4 A5 A6 A7 A8 A9 A10]. rewrite Hc in A5.
    by constructor; cbn [owners coordinator clock cross coordinator_id owner_credits set_phase].
  - intros m. apply sim_phase; rewrite ?Hc; try done. intros i. unfold since. cbn. by rewrite Hc.
Qed.

Lemma stop_owner_good w sys i : sys_ok hash w sys -> good hash w sys (stop_owner sys i).
Proof.
  intros Hs. unfold stop_owner. destruct (stopped (coordinator sys)) eqn:Hst; [cbn [negb]|done].
  assert (coordinator sys = CoStopped) as Hc by (by destruct (coordinator sys)).
  destruct (_ <=? _)%nat eqn:Hi; [done|]. apply Nat.leb_gt in Hi.
  destruct (lookup_lt_is_Some_2 (owners sys) i Hi) as [o Ho].
  assert (reservation o = None) as Hr.
  { apply (sys_unreserved _ _ _ Hs i o Ho). rewrite Hc. apply not_elem_of_nil. }
  set (o' := mkOwner (shard o) None (data o) (data_turn o) true).
  destruct (contact_spec w sys i o o' (fun _ _ => true) Stop Completed Hs Ho) as [->| ->]; [|done|].
  { cbn [handle_control]. by rewrite Hr. }
  cbn [mbind res_bind]. apply (good_quiet w); [|apply length_insert|done|].
  - destruct (sys_owners _ _ _ Hs i o Ho) as [B1 B2 B3 B4].
    destruct Hs as [A1 A2 A3 A4 A5 A6 A7 A8 A9 A10].
    constructor; cbn [owners coordinator clock cross coordinator_id owner_credits set_owners];
      rewrite ?length_insert; rewrite ?Hc; try done.
    + by intros i1 o1 [(<- & <- & _)|[Hne Hi1]]%list_lookup_insert_Some; [|by apply A1].
    + intros i1 o1 [(<- & <- & _)|[Hne Hi1]]%list_lookup_insert_Some _; [done|].
      apply (A5 i1 o1 Hi1). rewrite Hc. apply not_elem_of_nil.
    + intros _. apply A10. by rewrite Hc.
  - intros m. by apply (sim_same hash sys i o).
Qed.
End Coordinator.
