(* ===== verification/SystemConservation.v ===== *)
(** * Conservation laws of the engine

    Every action conserves requests (an accepted request waits, or has taken
    effect once, and then is answered once, with that reply) and credits (what a
    queue does not hold is available).  No invariant is needed. *)

From S2P Require Import Prelude Bytes Protocol Command Expiry Store Config Engine System.

Local Open Scope Z_scope.

(** ** Histories *)

Definition accepted (h : list occurrence) : list (nat * Operation) :=
  omap (fun x => match x with Accepted c op => Some (c, op) | _ => None end) h.

Definition effective (h : list occurrence) : list (nat * Operation) :=
  omap (fun x => match x with TakesEffect c op _ _ => Some (c, op) | _ => None end) h.

Definition effect_replies (h : list occurrence) : list (nat * Reply) :=
  omap (fun x => match x with TakesEffect c _ _ r => Some (c, r) | _ => None end) h.

Definition answers (h : list occurrence) : list (nat * Reply) :=
  omap (fun x => match x with Answered c r => Some (c, r) | _ => None end) h.

(** The request of a phase before, and after, its decision. *)
Definition undecided (ph : phase) : list DataRequest :=
  match ph with CoReserving req _ _ | CoPreparing req _ _ _ => [req] | _ => [] end.

Definition decided (ph : phase) : list (DataRequest * Reply) :=
  match ph with CoApplying req _ r _ | CoReleasing req _ r _ => [(req, r)] | _ => [] end.

Definition request_of (req : DataRequest) : nat * Operation := (client req, operation req).

Definition total_credit (l : list DataRequest) : Z := foldr (fun req n => credit req + n) 0 l.

Lemma total_credit_app l k : total_credit (l ++ k) = total_credit l + total_credit k.
Proof. induction l as [|req l IH]; simpl; [done|]. unfold total_credit in *. lia. Qed.

Lemma conserve_trans {A} (a1 a2 e1 e2 w0 w1 w2 : list A) : a1 ++ w0 ≡ₚ e1 ++ w1 ->
  a2 ++ w1 ≡ₚ e2 ++ w2 -> (a1 ++ a2) ++ w0 ≡ₚ (e1 ++ e2) ++ w2.
Proof.
  intros H1 H2. rewrite (Permutation_app_comm a1 a2), <- !app_assoc, H1, <- H2, !app_assoc.
  by rewrite (Permutation_app_comm a2 e1).
Qed.

Section Conservation.
Context {I : Type} `{TimerIndex I}.
Context (hash : bytes -> Z) (config : Config).

Implicit Types (sys : system I) (o : Owner I).

Definition queued sys : list DataRequest := concat (data <$> owners sys) ++ cross sys.

Definition waiting sys : list (nat * Operation) :=
  request_of <$> queued sys ++ undecided (coordinator sys).

Definition unanswered sys : list (nat * Reply) :=
  (fun d => (client d.1, d.2)) <$> decided (coordinator sys).

(** Requests enter once, take effect once and are answered once. *)
Definition conserves sys (out : res () (system I * list occurrence)) : Prop :=
  match out with
  | Ok (sys', h) =>
      accepted h ++ waiting sys ≡ₚ effective h ++ waiting sys' /\
      effect_replies h ++ unanswered sys ≡ₚ answers h ++ unanswered sys'
  | _ => True
  end.

Lemma concat_data_insert (l : list (Owner I)) i o o' : l !! i = Some o ->
  concat (data <$> <[i := o']> l) ++ data o ≡ₚ concat (data <$> l) ++ data o'.
Proof.
  revert i. induction l as [|o1 l IH]; intros i Hi; [done|]. destruct i as [|i].
  - injection Hi as ->. cbn. set (rest := concat _). rewrite <- !app_assoc.
    rewrite (Permutation_app_comm rest (data o)), (Permutation_app_comm rest (data o')), !app_assoc.
    by rewrite (Permutation_app_comm (data o') (data o)).
  - cbn. rewrite <- !app_assoc. f_equiv. by apply IH.
Qed.

(** ** Requests *)

(** What an owner does on its own takes at most its first request. *)
Lemma owner_act_data reserve batch o now b o' served :
  owner_act reserve batch o now b = Ok (o', served) ->
  data o = (match served with Some (req, _) => [req] | None => [] end) ++ data o'.
Proof.
  assert (forall o1 o2 x, serve_data reserve o1 now = Some (o2, x) ->
    data o1 = (match x with Some (req, _) => [req] | None => [] end) ++ data o2) as Hserve.
  { intros o1 o2 x Hx. unfold serve_data in Hx. destruct (data o1) as [|req rest] eqn:Hd.
    - injection Hx as <- <-. by rewrite Hd.
    - apply bind_Some in Hx as ([s r] & _ & [= <- <-]). done. }
  unfold owner_act. destruct b.
  - destruct (turn_pending o); [|done]. intros Hx%expect_Ok. by apply Hserve in Hx.
  - destruct (_ || _); [done|]. intros Hx. apply bind_Ok in Hx as ([s n] & _ & [= <- <-]). done.
  - destruct (_ || _); [done|]. intros Hx%expect_Ok. by apply Hserve in Hx.
Qed.

Lemma handle_control_data reserve o msg o' answer :
  handle_control reserve o msg = Some (o', answer) -> data o' = data o.
Proof.
  destruct msg; cbn [handle_control]; intros Hx.
  - destruct (reservation o); [done|]. by injection Hx as <- _.
  - apply bind_Some in Hx as (a & _ & Hx). destruct (negb _); [done|]. destruct (prepared a); [done|].
    destruct (Store.prepare _ _ _ _); [|by injection Hx as <- _|done]. by injection Hx as <- _.
  - apply bind_Some in Hx as (a & _ & Hx). destruct (negb _); [done|].
    apply bind_Some in Hx as (p & _ & Hx). apply bind_Some in Hx as ([s r] & _ & Hx).
    by injection Hx as <- _.
  - apply bind_Some in Hx as (a & _ & Hx). destruct (negb _); [done|]. by injection Hx as <- _.
  - by injection Hx as <- _.
  - destruct (reservation o); [done|]. by injection Hx as <- _.
Qed.

(** A round trip keeps the queues, the credits and the phase. *)
Lemma contact_keeps reserve sys i msg sys' answer :
  contact reserve sys i msg = Ok (sys', answer) ->
  queued sys' ≡ₚ queued sys /\ coordinator sys' = coordinator sys /\
  (forall j, data <$> owners sys' !! j = data <$> owners sys !! j) /\
  cross sys' = cross sys /\
  owner_credits sys' = owner_credits sys /\ cross_credits sys' = cross_credits sys /\
  admitting sys' = admitting sys.
Proof.
  unfold contact. intros Hx. apply bind_Ok in Hx as (o & Ho%expect_Ok & Hx).
  destruct (_ || _); [done|]. apply bind_Ok in Hx as ([o' a] & Hh%expect_Ok & [= <- <-]).
  apply handle_control_data in Hh. split_and!; try done.
  - unfold queued. cbn [owners cross set_owners]. f_equiv.
    apply (Permutation_app_inv_r (data o)). rewrite concat_data_insert by done. by rewrite Hh.
  - intros j. cbn [owners set_owners]. destruct (decide (i = j)) as [<-|Hne].
    + rewrite list_lookup_insert_eq, Ho by (by eapply lookup_lt_Some). cbn. by rewrite Hh.
    + by rewrite list_lookup_insert_ne.
Qed.

(** The queues of a system after an owner's queue changed by appending or
    removing requests. *)
Lemma queued_owner sys i o o' : owners sys !! i = Some o ->
  concat (data <$> <[i := o']> (owners sys)) ++ cross sys ++ data o ≡ₚ queued sys ++ data o'.
Proof.
  intros Ho. unfold queued. rewrite (Permutation_app_comm (cross sys) (data o)), app_assoc.
  rewrite (concat_data_insert _ i o o' Ho), <- !app_assoc. f_equiv. apply Permutation_app_comm.
Qed.

Lemma act_conserves reserve sys i b : conserves sys (act config reserve sys i b).
Proof.
  unfold act. destruct (owners sys !! i) as [o|] eqn:Ho; [|done].
  destruct (owner_credits sys !! i); [|done].
  destruct (owner_act _ _ _ _ _) as [[o' served]|e|] eqn:Hact; [|done..]. cbn [mbind res_bind].
  apply owner_act_data in Hact. assert (Hq := queued_owner sys i o o' Ho). rewrite Hact in Hq.
  destruct served as [[req r]|]; cbn [conserves]; (split; [|done]); unfold waiting;
    cbn [accepted effective omap list_omap app]; rewrite !fmap_app; unfold queued at 2;
    cbn [owners cross set_owners coordinator].
  - assert (queued sys ≡ₚ req :: concat (data <$> <[i:=o']> (owners sys)) ++ cross sys) as ->; [|done].
    apply (Permutation_app_inv_r (data o')). rewrite <- Hq. cbn. rewrite <- app_assoc.
    rewrite (app_assoc (concat _)), (app_assoc (concat _)). symmetry.
    rewrite <- app_assoc, (app_assoc (concat _)). by rewrite <- Permutation_middle.
  - cbn in Hq. f_equiv. f_equiv. symmetry. apply (Permutation_app_inv_r (data o')).
    rewrite <- app_assoc. done.
Qed.

(** Credits and who waits for room do not matter. *)
Lemma conserves_same sys sys' h : owners sys' = owners sys -> cross sys' = cross sys ->
  coordinator sys' = coordinator sys -> accepted h = [] -> effective h = [] -> effect_replies h = [] ->
  answers h = [] -> conserves sys (Ok (sys', h)).
Proof.
  intros E1 E2 E3 H1 H2 H3 H4. unfold conserves, waiting, unanswered, queued. by rewrite E1, E2, E3, H1, H2, H3, H4.
Qed.

Lemma submit_conserves sys c op : conserves sys (submit hash config sys c op).
Proof.
  unfold submit. destruct (admit_request _ _ _ _ _) as [r|i charge|charge]; [done|..].
  - destruct (owner_credits sys !! i); [|done]. by destruct (negb _).
  - by destruct (negb _).
Qed.

Lemma abandon_conserves sys n reply : conserves sys (abandon sys n reply).
Proof.
  unfold abandon. destruct (admitting sys !! n) as [a|]; [|done]. unfold release.
  by destruct (destination a); apply conserves_same.
Qed.

Lemma enqueue_conserves sys n : conserves sys (enqueue config sys n).
Proof.
  unfold enqueue. destruct (admitting sys !! n) as [[req [i|]]|]; [..|done].
  - destruct (owners sys !! i) as [o|] eqn:Ho; [|done]. destruct (stopping o); [apply abandon_conserves|].
    destruct (_ <? _); [|done]. split; [|done]. unfold waiting. cbn [accepted effective omap list_omap app].
    rewrite !fmap_app. unfold queued at 2. cbn [owners cross coordinator set_owners forget].
    assert (concat (data <$> <[i := set_data o (data o ++ [req])]> (owners sys)) ++ cross sys
      ≡ₚ req :: queued sys) as ->; [|done].
    apply (Permutation_app_inv_r (data o)). rewrite <- app_assoc, queued_owner by done.
    cbn [data set_data]. rewrite app_assoc. by rewrite <- Permutation_cons_append.
  - destruct (stopped _); [apply abandon_conserves|].
    destruct (_ <? _); [|done]. split; [|done]. unfold waiting, queued.
    cbn [accepted effective omap list_omap app owners cross coordinator].
    rewrite app_assoc, !fmap_app. cbn. rewrite <- !app_assoc. cbn.
    rewrite <- !Permutation_middle. done.
Qed.

(** The coordinator's request moves on with the phase. *)
Lemma phase_conserves sys sys1 ph h : queued sys1 ≡ₚ queued sys ->
  accepted h = [] -> answers h = [] ->
  request_of <$> undecided (coordinator sys) = effective h ++ (request_of <$> undecided ph) ->
  effect_replies h ++ ((fun d => (client d.1, d.2)) <$> decided (coordinator sys))
    = (fun d => (client d.1, d.2)) <$> decided ph ->
  conserves sys (Ok (set_phase sys1 ph, h)).
Proof.
  intros Hq Ha1 Ha2 He Hr. split.
  - rewrite Ha1. unfold waiting. cbn [app]. rewrite !fmap_app, He.
    change (queued (set_phase sys1 ph)) with (queued sys1). rewrite Hq. cbn [coordinator set_phase].
    rewrite !app_assoc. f_equiv. apply Permutation_app_comm.
  - rewrite Ha2. unfold unanswered. cbn [app coordinator set_phase]. by rewrite Hr.
Qed.

Lemma coordinate_conserves reserve sys : conserves sys (coordinate hash config reserve sys).
Proof.
  unfold coordinate. cbn zeta.
  destruct (coordinator sys) as [|req parts n|req parts now rs|req parts r n|req parts r n|] eqn:Hc; [..|done].
  - unfold next_cross. destruct (cross sys) as [|req rest] eqn:Hcross; [done|].
    destruct (expect (checked_usize _)); [|done..]. cbn [mbind res_bind].
    destruct (expect (split _ _ _)); [|done..]. cbn [mbind res_bind]. split.
    + unfold waiting, queued. rewrite Hc, Hcross. cbn [owners cross coordinator undecided accepted effective].
      cbn [omap list_omap app]. rewrite app_nil_r, <- app_assoc.
      by rewrite (Permutation_cons_append rest req).
    + unfold unanswered. by rewrite Hc.
  - destruct (parts !! n) as [p|].
    + destruct (contact _ _ _ _) as [[sys1 a]|e|] eqn:Hx; [|done..]. cbn [mbind res_bind].
      apply contact_keeps in Hx as (Hq & Hc1 & _). apply phase_conserves; by rewrite ?Hc.
    + apply phase_conserves; by rewrite ?Hc.
  - destruct (parts !! length rs) as [p|].
    + destruct (contact _ _ _ _) as [[sys1 a]|e|] eqn:Hx; [|done..]. cbn [mbind res_bind].
      apply contact_keeps in Hx as (Hq & Hc1 & _).
      destruct a; try done; apply phase_conserves; by rewrite ?Hc.
    + destruct (decide_phase _ _ _ _ _) as [[ph r]|] eqn:Hd; [|done]. cbn [expect mbind res_bind].
      unfold decide_phase in Hd. apply bind_Some in Hd as (reply & _ & Hd).
      destruct (match encoded_len reply with Some _ => _ | None => _ end);
        injection Hd as <- <-; apply phase_conserves; by rewrite ?Hc.
  - destruct (parts !! n) as [p|].
    + destruct (contact _ _ _ _) as [[sys1 a]|e|] eqn:Hx; [|done..]. cbn [mbind res_bind].
      apply contact_keeps in Hx as (Hq & Hc1 & _). apply phase_conserves; by rewrite ?Hc.
    + apply phase_conserves; by rewrite ?Hc.
  - destruct (parts !! n) as [p|].
    + destruct (contact _ _ _ _) as [[sys1 a]|e|] eqn:Hx; [|done..]. cbn [mbind res_bind].
      apply contact_keeps in Hx as (Hq & Hc1 & _). apply phase_conserves; by rewrite ?Hc.
    + split.
      * unfold waiting. rewrite Hc. cbn. done.
      * unfold unanswered. rewrite Hc. cbn. done.
Qed.

Lemma contact_conserves reserve sys i msg sys1 a : contact reserve sys i msg = Ok (sys1, a) ->
  waiting sys ≡ₚ waiting sys1 /\ unanswered sys ≡ₚ unanswered sys1.
Proof.
  intros (Hq & Hc1 & _)%contact_keeps. unfold waiting, unanswered. rewrite Hc1. split; [|done].
  by rewrite !fmap_app, Hq.
Qed.

Lemma fire_conserves sys a : conserves sys (fire hash config sys a).
Proof.
  destruct a as [c op|c op|c op|n|n|i b r|r|now|i| |i]; cbn [fire].
  - apply submit_conserves.
  - destruct (admit_request _ _ _ _ _); done.
  - destruct (admit_request _ _ _ _ _); done.
  - apply enqueue_conserves.
  - apply abandon_conserves.
  - apply act_conserves.
  - apply coordinate_conserves.
  - by destruct (_ && _).
  - unfold sample. destruct (_ <=? _)%nat; [done|].
    destruct (contact _ _ _ _) as [[sys1 a]|e|] eqn:Hx; [|done..]. cbn [mbind res_bind].
    apply contact_conserves in Hx. by destruct a.
  - unfold stop_coordinator. destruct (coordinator sys) eqn:Hc; try done.
    destruct (cross sys); [|done]. apply phase_conserves; by rewrite ?Hc.
  - unfold stop_owner. destruct (negb _); [done|]. destruct (_ <=? _)%nat; [done|].
    destruct (contact _ _ _ _) as [[sys1 a]|e|] eqn:Hx; [|done..].
    by apply contact_conserves in Hx.
Qed.

Lemma run_conserves sys actions : conserves sys (run hash config sys actions).
Proof.
  revert sys. induction actions as [|a actions IH]; intros sys; [done|]. cbn [run].
  assert (Hf := fire_conserves sys a). destruct (fire _ _ _ _) as [[sys1 h1]|e|]; [|done..].
  cbn [mbind res_bind]. specialize (IH sys1). destruct (run _ _ _ _) as [[sys2 h2]|e|]; [|done..].
  cbn [mbind res_bind conserves] in *. destruct Hf as [Ha1 Hb1], IH as [Ha2 Hb2].
  unfold accepted, effective, effect_replies, answers in *. rewrite !omap_app.
  split; by eapply conserve_trans.
Qed.

(** ** Credits *)

(** The requests that hold the coordinator's credits. *)
Definition held (cross : list DataRequest) (ph : phase) : list DataRequest :=
  cross ++ undecided ph ++ (decided ph).*1.

(** What is available and what some requests hold add up to the budget. *)
Definition balanced (available : Z) (l : list DataRequest) : Prop :=
  0 <= available /\ Forall (fun req => 0 <= credit req) l /\
  available + total_credit l = queue_bytes config.

Lemma balanced_push available l req : balanced available l -> 0 <= credit req <= available ->
  balanced (available - credit req) (l ++ [req]).
Proof.
  intros (H0 & Hl & Hsum) Hreq. split_and!; [lia| |].
  - apply Forall_app. split; [done|]. constructor; [lia|done].
  - rewrite total_credit_app. cbn. lia.
Qed.

Lemma balanced_pop available l req : balanced available (req :: l) ->
  balanced (available + credit req) l.
Proof.
  intros (H0 & Hl & Hsum). apply Forall_cons in Hl as [Hreq Hl]. split_and!; [lia|done|].
  cbn in Hsum. unfold total_credit. lia.
Qed.

Lemma balanced_perm available l l' : l ≡ₚ l' -> balanced available l -> balanced available l'.
Proof.
  intros Hp (H0 & Hl & Hsum). split_and!; [done|by rewrite <- Hp|]. rewrite <- Hsum. f_equal.
  clear Hsum Hl. unfold total_credit. induction Hp; cbn; lia.
Qed.

(** The requests that hold credits of an owner, or of the coordinator, while they
    wait for room in its queue. *)
Definition holding (t : option nat) (l : list Admission) : list DataRequest :=
  request <$> filter (fun a => destination a = t) l.

#[local] Instance holding_proper t : Proper ((≡ₚ) ==> (≡ₚ)) (holding t).
Proof. intros l l' Hl. unfold holding. by rewrite Hl. Qed.

Lemma holding_cons t a l : holding t (a :: l) = if decide (destination a = t) then request a :: holding t l else holding t l.
Proof. unfold holding. rewrite filter_cons. by case_decide. Qed.

Lemma holding_push t a l : holding t (l ++ [a]) ≡ₚ if decide (destination a = t) then request a :: holding t l else holding t l.
Proof. by rewrite <- (Permutation_cons_append l a), holding_cons. Qed.

Lemma holding_delete t n a l : l !! n = Some a ->
  holding t l ≡ₚ if decide (destination a = t) then request a :: holding t (delete n l) else holding t (delete n l).
Proof. intros Hn. by rewrite <- holding_cons, <- (delete_Permutation l n a Hn). Qed.

Record credits_ok sys : Prop := {
  credits_length : length (owner_credits sys) = length (owners sys);
  credits_owner i o available : owners sys !! i = Some o -> owner_credits sys !! i = Some available ->
    balanced available (holding (Some i) (admitting sys) ++ data o);
  credits_cross : balanced (cross_credits sys)
    (holding None (admitting sys) ++ held (cross sys) (coordinator sys));
}.

Lemma request_charge_nonneg op : 0 <= request_charge op.
Proof. unfold request_charge, saturating_usize. lia. Qed.

(** Owners and coordinator have separate accounts. *)
Lemma credits_owner_step sys i o o' available available' : credits_ok sys ->
  owners sys !! i = Some o -> owner_credits sys !! i = Some available ->
  balanced available' (holding (Some i) (admitting sys) ++ data o') ->
  credits_ok (mkSystem (<[i := o']> (owners sys)) (coordinator sys) (coordinator_id sys) (cross sys)
    (clock sys) (<[i := available']> (owner_credits sys)) (cross_credits sys) (admitting sys)).
Proof.
  intros [H1 H2 H3] Ho Ha Hb. constructor; cbn [owners owner_credits cross coordinator cross_credits admitting].
  - by rewrite !length_insert.
  - intros j o1 a1 [(<- & <- & _)|[Hne Hj]]%list_lookup_insert_Some Ha1.
    + rewrite list_lookup_insert_eq in Ha1 by (by eapply lookup_lt_Some). by simplify_eq.
    + rewrite list_lookup_insert_ne in Ha1 by done. by eapply H2.
  - done.
Qed.

Lemma credits_phase_step sys sys1 ph id : credits_ok sys ->
  (forall j, data <$> owners sys1 !! j = data <$> owners sys !! j) ->
  length (owners sys1) = length (owners sys) ->
  owner_credits sys1 = owner_credits sys -> cross_credits sys1 = cross_credits sys ->
  admitting sys1 = admitting sys ->
  held (cross sys1) ph ≡ₚ held (cross sys) (coordinator sys) ->
  credits_ok (mkSystem (owners sys1) ph id (cross sys1) (clock sys1) (owner_credits sys1) (cross_credits sys1)
    (admitting sys1)).
Proof.
  intros [H1 H2 H3] Hd Hlen Ho Hx Had Hh.
  constructor; cbn [owners owner_credits cross coordinator cross_credits admitting]; rewrite ?Had.
  - congruence.
  - intros j o1 a1 Hj Ha. specialize (Hd j). rewrite Hj in Hd. cbn in Hd.
    destruct (owners sys !! j) as [o|] eqn:E; [|done]. injection Hd as ->.
    rewrite Ho in Ha. by eapply H2.
  - rewrite Hx. eapply balanced_perm; [|exact H3]. by rewrite Hh.
Qed.

(** ** Admission *)

(** An admitted request is charged [request_charge]. *)
Lemma admit_charge n queue closing op a : admit_request hash n queue closing op = a ->
  match a with Refuse _ => True | AdmitLocal _ charge | AdmitCross charge => charge = request_charge op end.
Proof.
  intros <-. unfold admit_request. destruct closing; [done|]. destruct (keys op); [done|].
  destruct (_ || _); [done|]. by destruct (forallb _ _).
Qed.

Lemma balanced_take available l req : balanced available l -> 0 <= credit req <= available ->
  balanced (available - credit req) (req :: l).
Proof.
  intros Hb Hreq. eapply balanced_perm; [|by apply balanced_push]. symmetry. apply Permutation_cons_append.
Qed.

Lemma submit_credits sys c op sys' h : credits_ok sys -> submit hash config sys c op = Ok (sys', h) -> credits_ok sys'.
Proof.
  intros Hs Hx. assert (Ha := request_charge_nonneg op). unfold submit in Hx.
  destruct (admit_request _ _ _ _ _) as [r|i charge|charge] eqn:Hadm; [by injection Hx as <- <-|apply admit_charge in Hadm as ->..].
  - destruct (owner_credits sys !! i) as [available|] eqn:Hav; [|done].
    destruct (negb _) eqn:Hroom; [done|]. injection Hx as <- <-. zhyps. destruct Hs as [H1 H2 H3].
    constructor; cbn [owners owner_credits cross coordinator cross_credits admitting].
    + by rewrite length_insert.
    + intros j o a Ho [(<- & <- & _)|[Hne Hj]]%list_lookup_insert_Some.
      * eapply balanced_perm; [|apply (balanced_take _ _ (mkDataRequest c op (request_charge op)) (H2 i o _ Ho Hav)); done].
        by rewrite holding_push, decide_True.
      * eapply balanced_perm; [|by eapply H2]. rewrite holding_push, decide_False; [done|]. cbn. congruence.
    + eapply balanced_perm; [|exact H3]. by rewrite holding_push, decide_False.
  - destruct (negb _) eqn:Hroom; [done|]. injection Hx as <- <-. zhyps. destruct Hs as [H1 H2 H3].
    constructor; cbn [owners owner_credits cross coordinator cross_credits admitting]; [done|..].
    + intros j o a Ho Hj. eapply balanced_perm; [|by eapply H2]. by rewrite holding_push, decide_False.
    + eapply balanced_perm; [|apply (balanced_take _ _ (mkDataRequest c op (request_charge op)) H3); done].
      by rewrite holding_push, decide_True.
Qed.

(** What is dropped on the way to its queue gives its credits back. *)
Lemma abandon_credits sys n reply sys' h : credits_ok sys -> abandon sys n reply = Ok (sys', h) -> credits_ok sys'.
Proof.
  intros Hs Hx. unfold abandon in Hx. destruct (admitting sys !! n) as [[req t]|] eqn:Hn; [|done].
  injection Hx as <- <-. destruct Hs as [H1 H2 H3]. assert (Hd := fun t' => holding_delete t' _ _ _ Hn).
  unfold release, forget. cbn [destination request] in *. destruct t as [i|];
    constructor; cbn [owners owner_credits cross coordinator cross_credits admitting]; rewrite ?length_alter; try done.
  - intros j o a Ho Hj. destruct (decide (i = j)) as [<-|Hne].
    + rewrite list_lookup_alter_eq in Hj. apply fmap_Some in Hj as (a0 & Ha0 & ->).
      apply balanced_pop. eapply balanced_perm; [|exact (H2 _ _ _ Ho Ha0)]. by rewrite (Hd (Some i)), decide_True.
    + rewrite list_lookup_alter_ne in Hj by done. eapply balanced_perm; [|by eapply H2].
      rewrite (Hd (Some j)), decide_False; [done|congruence].
  - eapply balanced_perm; [|exact H3]. by rewrite (Hd None), decide_False.
  - intros j o a Ho Hj. eapply balanced_perm; [|by eapply H2]. by rewrite (Hd (Some j)), decide_False.
  - apply balanced_pop. eapply balanced_perm; [|exact H3]. by rewrite (Hd None), decide_True.
Qed.

Lemma enqueue_credits sys n sys' h : credits_ok sys -> enqueue config sys n = Ok (sys', h) -> credits_ok sys'.
Proof.
  intros Hs Hx. unfold enqueue in Hx. destruct (admitting sys !! n) as [[req t]|] eqn:Hn; [|done].
  assert (Hd := fun t' => holding_delete t' _ _ _ Hn). cbn [destination request] in Hd. destruct t as [i|].
  - destruct (owners sys !! i) as [o|] eqn:Ho; [|done]. destruct (stopping o); [by eapply abandon_credits|].
    destruct (_ <? _); [|done]. injection Hx as <- <-. destruct Hs as [H1 H2 H3].
    constructor; cbn [owners owner_credits cross coordinator cross_credits admitting set_owners forget];
      [by rewrite length_insert|..].
    + intros j o1 a [(<- & <- & _)|[Hne Hj]]%list_lookup_insert_Some Ha.
      * eapply balanced_perm; [|exact (H2 _ _ _ Ho Ha)]. rewrite (Hd (Some i)), decide_True by done.
        cbn [data set_data]. rewrite app_assoc. by rewrite <- Permutation_cons_append.
      * eapply balanced_perm; [|exact (H2 _ _ _ Hj Ha)]. rewrite (Hd (Some j)), decide_False; [done|congruence].
    + eapply balanced_perm; [|exact H3]. by rewrite (Hd None), decide_False.
  - destruct (stopped _); [by eapply abandon_credits|]. destruct (_ <? _); [|done]. injection Hx as <- <-.
    destruct Hs as [H1 H2 H3].
    constructor; cbn [owners owner_credits cross coordinator cross_credits admitting]; [done|..].
    + intros j o a Ho Ha. eapply balanced_perm; [|by eapply H2]. by rewrite (Hd (Some j)), decide_False.
    + eapply balanced_perm; [|exact H3]. rewrite (Hd None), decide_True by done. unfold held.
      rewrite <- (Permutation_cons_append (cross sys) req). cbn [app]. by rewrite <- Permutation_middle.
Qed.

Lemma contact_length reserve sys i msg sys' answer :
  contact reserve sys i msg = Ok (sys', answer) -> length (owners sys') = length (owners sys).
Proof.
  unfold contact. intros Hx. apply bind_Ok in Hx as (o & Ho%expect_Ok & Hx).
  destruct (_ || _); [done|]. apply bind_Ok in Hx as ([o' a] & Hh%expect_Ok & [= <- <-]).
  apply length_insert.
Qed.

Lemma credits_contact reserve sys i msg sys1 answer ph : credits_ok sys ->
  contact reserve sys i msg = Ok (sys1, answer) ->
  undecided ph ++ (decided ph).*1 = undecided (coordinator sys) ++ (decided (coordinator sys)).*1 ->
  credits_ok (set_phase sys1 ph).
Proof.
  intros Hs Hx Hph. assert (Hlen := contact_length _ _ _ _ _ _ Hx).
  apply contact_keeps in Hx as (_ & _ & Hd & Hcr & Ho & Hcc & Had).
  apply (credits_phase_step sys); try done. unfold held. by rewrite Hcr, Hph.
Qed.

Lemma credits_contact_only reserve sys i msg sys1 answer : credits_ok sys ->
  contact reserve sys i msg = Ok (sys1, answer) -> credits_ok sys1.
Proof.
  intros Hs Hx. assert (Hco := Hx). apply contact_keeps in Hco as (_ & Hco & _).
  assert (sys1 = set_phase sys1 (coordinator sys)) as ->; [rewrite <- Hco; by destruct sys1|].
  by eapply credits_contact.
Qed.

Lemma credits_phase sys ph : credits_ok sys ->
  undecided ph ++ (decided ph).*1 = undecided (coordinator sys) ++ (decided (coordinator sys)).*1 ->
  credits_ok (set_phase sys ph).
Proof. intros Hs Hph. apply (credits_phase_step sys); try done. unfold held. by rewrite Hph. Qed.

Lemma coordinate_credits reserve sys sys' h : credits_ok sys ->
  coordinate hash config reserve sys = Ok (sys', h) -> credits_ok sys'.
Proof.
  intros Hs. unfold coordinate. cbn zeta.
  destruct (coordinator sys) as [|req parts n|req parts now rs|req parts r n|req parts r n|] eqn:Hc; intros Hx; [..|done].
  - unfold next_cross in Hx. destruct (cross sys) as [|req rest] eqn:Hcross; [done|].
    apply bind_Ok in Hx as (id & _ & Hx). apply bind_Ok in Hx as (parts & _ & [= <- <-]).
    destruct Hs as [H1 H2 H3]. constructor; [done|done|].
    cbn [owners owner_credits cross coordinator cross_credits admitting].
    rewrite Hc, Hcross in H3. eapply balanced_perm; [|exact H3]. f_equiv. unfold held. cbn.
    rewrite !app_nil_r. apply Permutation_cons_append.
  - destruct (parts !! n) as [p|].
    + apply bind_Ok in Hx as ([sys1 a] & Hx & [= <- <-]). eapply credits_contact; try done. by rewrite Hc.
    + injection Hx as <- <-. apply credits_phase; [done|by rewrite Hc].
  - destruct (parts !! length rs) as [p|].
    + apply bind_Ok in Hx as ([sys1 a] & Hx & Ha).
      destruct a; try done; injection Ha as <- <-; (eapply credits_contact; [done..|by rewrite Hc]).
    + apply bind_Ok in Hx as ([ph r] & Hd%expect_Ok & [= <- <-]).
      unfold decide_phase in Hd. apply bind_Some in Hd as (reply & _ & Hd).
      destruct (match encoded_len reply with Some _ => _ | None => _ end); injection Hd as <- <-;
        (apply credits_phase; [done|by rewrite Hc]).
  - destruct (parts !! n) as [p|].
    + apply bind_Ok in Hx as ([sys1 a] & Hx & [= <- <-]). eapply credits_contact; try done. by rewrite Hc.
    + injection Hx as <- <-. apply credits_phase; [done|by rewrite Hc].
  - destruct (parts !! n) as [p|].
    + apply bind_Ok in Hx as ([sys1 a] & Hx & [= <- <-]). eapply credits_contact; try done. by rewrite Hc.
    + injection Hx as <- <-. destruct Hs as [H1 H2 H3]. constructor; [done|done|].
      cbn [owners owner_credits cross coordinator cross_credits finish fst admitting].
      apply balanced_pop. eapply balanced_perm; [|exact H3]. unfold held. rewrite Hc. cbn.
      rewrite app_nil_r, app_assoc. symmetry. apply Permutation_cons_append.
Qed.

Lemma fire_credits sys a sys' h : credits_ok sys -> fire hash config sys a = Ok (sys', h) -> credits_ok sys'.
Proof.
  intros Hs. destruct a as [c op|c op|c op|n|n|i b r|r|now|i| |i]; cbn [fire]; intros Hx.
  - by eapply submit_credits.
  - destruct (admit_request _ _ _ _ _); by try injection Hx as <- <-.
  - destruct (admit_request _ _ _ _ _); by try injection Hx as <- <-.
  - by eapply enqueue_credits.
  - by eapply abandon_credits.
  - unfold act in Hx. destruct (owners sys !! i) as [o|] eqn:Ho; [|done].
    destruct (owner_credits sys !! i) as [available|] eqn:Hav; [|done].
    apply bind_Ok in Hx as ([o' served] & Hact & Hx). apply owner_act_data in Hact.
    assert (Hb := credits_owner sys Hs i o available Ho Hav). rewrite Hact in Hb.
    destruct served as [[req reply]|]; injection Hx as <- <-.
    + apply (credits_owner_step sys i o _ available); try done. apply balanced_pop.
      eapply balanced_perm; [|exact Hb]. cbn [app]. by rewrite <- Permutation_middle.
    + assert (G := credits_owner_step sys i o o' available available Hs Ho Hav Hb).
      by rewrite (list_insert_id _ _ _ Hav) in G.
  - by eapply coordinate_credits.
  - destruct (_ && _); [|done]. injection Hx as <- <-. by destruct Hs.
  - unfold sample in Hx. destruct (_ <=? _)%nat; [done|].
    apply bind_Ok in Hx as ([sys1 a] & Hx & Ha). destruct a; try done. injection Ha as <- <-.
    by eapply credits_contact_only.
  - unfold stop_coordinator in Hx. destruct (coordinator sys) eqn:Hc; try done.
    destruct (cross sys); [|done]. injection Hx as <- <-. apply credits_phase; [done|by rewrite Hc].
  - unfold stop_owner in Hx. destruct (negb _); [done|]. destruct (_ <=? _)%nat; [done|].
    apply bind_Ok in Hx as ([sys1 a] & Hx & [= <- <-]). by eapply credits_contact_only.
Qed.

Lemma run_credits sys actions sys' h : credits_ok sys -> run hash config sys actions = Ok (sys', h) ->
  credits_ok sys'.
Proof.
  revert sys h. induction actions as [|a actions IH]; intros sys h Hs Hx; cbn [run] in Hx.
  { by injection Hx as <- <-. }
  apply bind_Ok in Hx as ([sys1 h1] & H1 & Hx). apply bind_Ok in Hx as ([sys2 h2] & H2 & [= <- <-]).
  eapply IH; [|done]. by eapply fire_credits.
Qed.
End Conservation.

(** ** The start *)

(** A system that starts holds no request, and every credit is available. *)
Lemma with_clock_start reserve config now sys : with_clock reserve config now = Ok sys ->
  validate config = Ok tt /\ exists shards, sys = start config shards now.
Proof.
  unfold with_clock. intros H. apply bind_Ok in H as ([] & Hv & H).
  apply bind_Ok in H as (shards & _ & [= <-]). eauto.
Qed.

Lemma with_clock_idle reserve config now sys : with_clock reserve config now = Ok sys ->
  waiting sys = [] /\ unanswered sys = [].
Proof.
  intros (_ & shards & ->)%with_clock_start. split; [|done]. unfold waiting, queued. cbn.
  rewrite !app_nil_r. induction shards as [|s shards IH]; [done|]. exact IH.
Qed.

Lemma with_clock_credits reserve config now sys : config_typed config ->
  with_clock reserve config now = Ok sys -> credits_ok config sys.
Proof.
  intros Hty (Hv & shards & ->)%with_clock_start. apply (validate_ok config Hty) in Hv.
  destruct (ok_queue config Hv) as (_ & Hq).
  assert (balanced config (queue_bytes config) []) as Hb by (split_and!; [lia|done|cbn; lia]).
  constructor; cbn [start owners owner_credits cross coordinator cross_credits admitting].
  - by rewrite length_replicate, length_fmap.
  - intros i o av Ho Ha. apply lookup_replicate in Ha as [-> _].
    by apply list_lookup_fmap_Some in Ho as (s & -> & _).
  - done.
Qed.
