(* ===== verification/SystemOwners.v ===== *)
(** * What an action does to an owner

    An owner changes by a request that enters its queue, by its own action, by a
    round trip of the coordinator, or by being told to stop.  No invariant is
    needed. *)

From S2P Require Import Prelude Bytes Protocol Command Expiry Store Config Engine System.

Local Open Scope Z_scope.

Section Owners.
Context {I : Type} `{TimerIndex I}.
Context (hash : bytes -> Z) (config : Config).

Implicit Types (sys : system I) (o : Owner I).

(** How owner [i] changes by action [a], which [h] records. *)
Inductive owner_step sys (a : action) (h : list occurrence) (i : nat) o : Owner I -> Prop :=
| step_queue l :
    owner_step sys a h i o (set_data o (data o ++ l))
| step_act b reserve served o' :
    owner_act reserve (Z.to_nat (expiry_batch config)) o (clock sys) b = Ok (o', served) ->
    a = Act i b reserve ->
    (forall req r, served = Some (req, r) -> Answered (client req) r ∈ h) ->
    owner_step sys a h i o o'
| step_control reserve o' :
    a = Coordinate reserve -> turn_pending o = false -> limits (shard o') = limits (shard o) ->
    owner_step sys a h i o o'
| step_sample :
    turn_pending o = false -> owner_step sys a h i o (set_data_turn o true)
| step_stop o' :
    turn_pending o = false -> reservation o = None -> limits (shard o') = limits (shard o) ->
    owner_step sys a h i o o'.

(** Nothing changes the limits of a shard. *)
Lemma apply_limits (s : Shard I) p s' r : Store.apply s p = Some (s', r) -> limits s' = limits s.
Proof.
  unfold Store.apply, apply_in_order. destruct (negb _); [done|]. intros Hx.
  apply bind_Some in Hx as ([x t] & _ & Hx). by apply bind_Some in Hx as (n & _ & [= <- _]).
Qed.

Lemma expire_limits (s : Shard I) now budget removed s' n :
  expire_due_loop s now budget removed = Some (s', n) -> limits s' = limits s.
Proof.
  revert s removed. induction budget as [|budget IH]; intros s removed; cbn [expire_due_loop]; [by intros [= <- _]|].
  destruct (timer_expired _ _) as [k|]; [|by intros [= <- _]]. intros Hx.
  apply bind_Some in Hx as (x & _ & Hx). apply bind_Some in Hx as (e & _ & Hx).
  destruct (negb _); [done|]. apply bind_Some in Hx as (pl & _ & Hx). apply bind_Some in Hx as (rv & _ & Hx).
  by apply IH in Hx.
Qed.

Lemma execute_limits reserve (s : Shard I) op now s' r :
  execute_local reserve s op now = Some (s', r) -> limits s' = limits s.
Proof.
  unfold execute_local. destruct (Store.execute reserve s op now) as [[s1 r1]|e|] eqn:Hx; [| |done].
  - intros [= <- _]. apply bind_Ok in Hx as (p & _ & Hx%expect_Ok). by eapply apply_limits.
  - by intros [= <- _].
Qed.

Lemma handle_control_limits reserve o msg o' c :
  handle_control reserve o msg = Some (o', c) -> limits (shard o') = limits (shard o).
Proof.
  destruct msg; cbn [handle_control]; intros Hx.
  - destruct (reservation o); [done|]. by injection Hx as <- _.
  - apply bind_Some in Hx as (a & _ & Hx). destruct (negb _); [done|]. destruct (prepared a); [done|].
    destruct (Store.prepare _ _ _ _); [|by injection Hx as <- _|done]. by injection Hx as <- _.
  - apply bind_Some in Hx as (a & _ & Hx). destruct (negb _); [done|].
    apply bind_Some in Hx as (p & _ & Hx). apply bind_Some in Hx as ([s r] & Ha & [= <- _]).
    by eapply apply_limits.
  - apply bind_Some in Hx as (a & _ & Hx). destruct (negb _); [done|]. by injection Hx as <- _.
  - by injection Hx as <- _.
  - destruct (reservation o); [done|]. by injection Hx as <- _.
Qed.

Lemma owner_act_limits reserve batch o now b o' served :
  owner_act reserve batch o now b = Ok (o', served) -> limits (shard o') = limits (shard o).
Proof.
  assert (forall o1 o2 x, serve_data reserve o1 now = Some (o2, x) -> limits (shard o2) = limits (shard o1)) as Hs.
  { intros o1 o2 x Hx. unfold serve_data in Hx. destruct (data o1); [by injection Hx as <- _|].
    apply bind_Some in Hx as ([s r] & He & [= <- _]). by eapply execute_limits. }
  unfold owner_act. destruct b.
  - destruct (turn_pending o); [|done]. intros Hx%expect_Ok. by apply Hs in Hx.
  - destruct (_ || _); [done|]. intros Hx. apply bind_Ok in Hx as ([s n] & He%expect_Ok & [= <- _]).
    by eapply expire_limits.
  - destruct (_ || _); [done|]. intros Hx%expect_Ok. by apply Hs in Hx.
Qed.

Lemma step_same sys a h i o : owner_step sys a h i o o.
Proof.
  assert (o = set_data o (data o ++ [])) as E by (rewrite app_nil_r; by destruct o).
  rewrite E at 2. constructor.
Qed.

(** A change of one owner, seen from any owner. *)
Lemma owner_update sys (l : list (Owner I)) a h i j o o' : l !! j = Some o ->
  (i = j -> owner_step sys a h j o o') -> exists o1, <[i := o']> l !! j = Some o1 /\ owner_step sys a h j o o1.
Proof.
  intros Ho Hs. destruct (decide (i = j)) as [->|Hne].
  - exists o'. rewrite list_lookup_insert_eq by (by eapply lookup_lt_Some). auto.
  - exists o. rewrite list_lookup_insert_ne by done. split; [done|apply step_same].
Qed.

Lemma contact_owner reserve sys k msg sys1 x a h i o : contact reserve sys k msg = Ok (sys1, x) ->
  owners sys !! i = Some o ->
  (forall o' c, turn_pending o = false -> handle_control reserve o msg = Some (o', c) ->
     owner_step sys a h i o o') ->
  exists o1, owners sys1 !! i = Some o1 /\ owner_step sys a h i o o1.
Proof.
  intros Hx Ho Hs. unfold contact in Hx. apply bind_Ok in Hx as (o0 & Ho0%expect_Ok & Hx).
  destruct (_ || _) eqn:Hg; [done|]. apply orb_false_iff in Hg as [Ht _].
  apply bind_Ok in Hx as ([o' c] & Hh%expect_Ok & [= <- <-]).
  apply owner_update; [done|]. intros ->. simplify_eq. by eapply Hs.
Qed.

Lemma submit_owners sys c op sys' h : submit hash config sys c op = Ok (sys', h) -> owners sys' = owners sys.
Proof.
  unfold submit. intros Hx. destruct (admit_request _ _ _ _ _) as [r|k charge|charge]; [by injection Hx as <- <-|..].
  - destruct (owner_credits sys !! k); [|done]. destruct (negb _); [done|]. by injection Hx as <- <-.
  - destruct (negb _); [done|]. by injection Hx as <- <-.
Qed.

Lemma abandon_owners sys n reply sys' h : abandon sys n reply = Ok (sys', h) -> owners sys' = owners sys.
Proof.
  unfold abandon. destruct (admitting sys !! n) as [a|]; [|done]. intros [= <- <-]. unfold release.
  by destruct (destination a).
Qed.

Lemma enqueue_owner sys n sys' h i o : enqueue config sys n = Ok (sys', h) -> owners sys !! i = Some o ->
  exists o', owners sys' !! i = Some o' /\ owner_step sys (Enqueue n) h i o o'.
Proof.
  intros Hx Ho. assert (owners sys' = owners sys ->
    exists o', owners sys' !! i = Some o' /\ owner_step sys (Enqueue n) h i o o') as Hsame.
  { intros ->. exists o. split; [done|apply step_same]. }
  unfold enqueue in Hx. destruct (admitting sys !! n) as [[req [k|]]|]; [..|done].
  - destruct (owners sys !! k) as [o0|] eqn:Ho0; [|done].
    destruct (stopping o0); [by apply Hsame; eapply abandon_owners|].
    destruct (_ <? _); [|done]. injection Hx as <- <-. cbn [owners set_owners forget].
    apply owner_update; [done|]. intros ->. simplify_eq. constructor.
  - destruct (stopped _); [by apply Hsame; eapply abandon_owners|].
    destruct (_ <? _); [|done]. injection Hx as <- <-. by apply Hsame.
Qed.

Lemma coordinate_owner reserve sys sys' h i o : coordinate hash config reserve sys = Ok (sys', h) ->
  owners sys !! i = Some o ->
  exists o', owners sys' !! i = Some o' /\ owner_step sys (Coordinate reserve) h i o o'.
Proof.
  intros Hx Ho.
  assert (forall h' k msg sys1 x, contact reserve sys k msg = Ok (sys1, x) ->
    exists o', owners sys1 !! i = Some o' /\ owner_step sys (Coordinate reserve) h' i o o') as Hcontact.
  { intros h' k msg sys1 x Hk. eapply contact_owner; [done..|]. intros o' c Ht Hh.
    eapply step_control; [done..|]. by eapply handle_control_limits. }
  assert (exists o', owners sys !! i = Some o' /\ owner_step sys (Coordinate reserve) h i o o') as Hsame.
  { exists o. split; [done|apply step_same]. }
  unfold coordinate in Hx. cbn zeta in Hx.
  destruct (coordinator sys) as [|req parts n|req parts now rs|req parts r n|req parts r n|]; [..|done].
  - unfold next_cross in Hx. destruct (cross sys); [done|].
    apply bind_Ok in Hx as (id & _ & Hx). apply bind_Ok in Hx as (ps & _ & [= <- <-]). exact Hsame.
  - destruct (parts !! n); [|injection Hx as <- <-; exact Hsame].
    apply bind_Ok in Hx as ([sys1 x] & Hx & [= <- <-]). exact (Hcontact _ _ _ _ _ Hx).
  - destruct (parts !! length rs).
    + apply bind_Ok in Hx as ([sys1 x] & Hx & Hy).
      destruct x; try done; injection Hy as <- <-; exact (Hcontact _ _ _ _ _ Hx).
    + apply bind_Ok in Hx as ([ph r] & _ & [= <- <-]). exact Hsame.
  - destruct (parts !! n); [|injection Hx as <- <-; exact Hsame].
    apply bind_Ok in Hx as ([sys1 x] & Hx & [= <- <-]). exact (Hcontact _ _ _ _ _ Hx).
  - destruct (parts !! n); [|injection Hx as <- <-; exact Hsame].
    apply bind_Ok in Hx as ([sys1 x] & Hx & [= <- <-]). exact (Hcontact _ _ _ _ _ Hx).
Qed.

Lemma fire_owner sys a sys' h i o : fire hash config sys a = Ok (sys', h) ->
  owners sys !! i = Some o -> exists o', owners sys' !! i = Some o' /\ owner_step sys a h i o o'.
Proof.
  intros Hx Ho. assert (exists o', owners sys !! i = Some o' /\ owner_step sys a h i o o') as Hsame.
  { exists o. split; [done|apply step_same]. }
  assert (owners sys' = owners sys ->
    exists o', owners sys' !! i = Some o' /\ owner_step sys a h i o o') as Hsame' by (by intros ->).
  destruct a as [c op|c op|c op|n|n|k b r|r|now|k| |k]; cbn [fire] in Hx.
  - by apply Hsame'; eapply submit_owners.
  - destruct (admit_request _ _ _ _ _); by try injection Hx as <- <-.
  - destruct (admit_request _ _ _ _ _); by try injection Hx as <- <-.
  - by apply enqueue_owner.
  - by apply Hsame'; eapply abandon_owners.
  - unfold act in Hx. destruct (owners sys !! k) as [o0|] eqn:Ho0; [|done].
    destruct (owner_credits sys !! k); [|done]. apply bind_Ok in Hx as ([o' served] & Ha & Hx).
    assert (owners sys' = <[k := o']> (owners sys)) as ->
      by (destruct served as [[]|]; by injection Hx as <- <-).
    apply owner_update; [done|]. intros ->. simplify_eq. eapply step_act; [done..|].
    intros req reply ->. injection Hx as <- <-. set_solver.
  - by apply coordinate_owner.
  - destruct (_ && _); by try injection Hx as <- <-.
  - unfold sample in Hx. destruct (_ <=? _)%nat; [done|].
    apply bind_Ok in Hx as ([sys1 x] & Hx & Hy). destruct x; try done. injection Hy as <- <-.
    eapply contact_owner; [done..|]. intros o' c Ht [= <- _]. by apply step_sample.
  - unfold stop_coordinator in Hx. destruct (coordinator sys); try done.
    destruct (cross sys); [|done]. by injection Hx as <- <-.
  - unfold stop_owner in Hx. destruct (negb _); [done|]. destruct (_ <=? _)%nat; [done|].
    apply bind_Ok in Hx as ([sys1 x] & Hx & [= <- <-]). eapply contact_owner; [done..|].
    intros o' c Ht Hy. apply step_stop; [done| |by eapply handle_control_limits].
    cbn in Hy. by destruct (reservation o).
Qed.

(** The limits of the shards are those of the start. *)
Lemma fire_limits sys a sys' h i o : fire hash config sys a = Ok (sys', h) -> owners sys !! i = Some o ->
  exists o', owners sys' !! i = Some o' /\ limits (shard o') = limits (shard o).
Proof.
  intros Hx Ho. destruct (fire_owner _ _ _ _ _ _ Hx Ho) as (o' & Ho' & Hstep). exists o'. split; [done|].
  destruct Hstep as [l|b reserve served o' Hact _ _|reserve o' _ _ Hl|_|o' _ _ Hl]; try done.
  by eapply owner_act_limits.
Qed.

Lemma run_limits sys actions sys' h i o : run hash config sys actions = Ok (sys', h) -> owners sys !! i = Some o ->
  exists o', owners sys' !! i = Some o' /\ limits (shard o') = limits (shard o).
Proof.
  revert sys h o. induction actions as [|a actions IH]; intros sys h o Hx Ho; cbn [run] in Hx.
  { injection Hx as <- _. by exists o. }
  apply bind_Ok in Hx as ([sys1 h1] & H1 & Hx). apply bind_Ok in Hx as ([sys2 h2] & H2 & [= <- _]).
  destruct (fire_limits _ _ _ _ _ _ H1 Ho) as (o1 & Ho1 & E1).
  destruct (IH _ _ _ H2 Ho1) as (o2 & Ho2 & E2). exists o2. split; [done|congruence].
Qed.

(** ** The owner's own actions *)

Lemma owner_act_unreserved reserve batch o now b o' served :
  owner_act reserve batch o now b = Ok (o', served) -> reservation o = None.
Proof.
  unfold owner_act. destruct b; [destruct (turn_pending o) eqn:Ht; [|done]|..];
    [|destruct (_ || _) eqn:Hg; [done|]..]; intros _.
  - apply andb_true_iff in Ht as [_ Ht]. by apply bool_decide_eq_true in Ht.
  - apply orb_false_iff in Hg as [[_ Hg]%orb_false_iff _]. apply bool_decide_eq_false in Hg.
    by destruct (reservation o); [destruct Hg|].
  - apply orb_false_iff in Hg as [[_ Hg]%orb_false_iff _]. apply bool_decide_eq_false in Hg.
    by destruct (reservation o); [destruct Hg|].
Qed.

(** An owner that owes a turn takes it, and serves its first request. *)
Lemma owner_act_turn reserve batch o now b o' served req rest :
  owner_act reserve batch o now b = Ok (o', served) -> turn_pending o = true -> data o = req :: rest ->
  b = DataTurn /\ exists r, served = Some (req, r).
Proof.
  intros Hx Ht Hd. unfold owner_act in Hx. rewrite Ht in Hx. destruct b; [|done..]. split; [done|].
  apply expect_Ok in Hx. unfold serve_data in Hx. cbn [data set_data_turn] in Hx. rewrite Hd in Hx.
  apply bind_Some in Hx as ([s r] & _ & [= _ <-]). by exists r.
Qed.
End Owners.
