(* ===== verification/SystemRuns.v ===== *)
(** * Runs of the engine

    Every action, and so every run from the start of a validated configuration,
    keeps the invariant [sys_ok] and the promise [sim]. *)

From S2P Require Import Prelude Bytes Protocol Command Expiry ExpiryTheorems Store StoreSpec StoreLemmas.
From S2P Require Import StoreEffects StoreInvariant StoreTheorems Config Engine EngineSplit System SystemSpec.
From S2P Require Import SystemLocal SystemClients SystemCoordinator.

Local Open Scope Z_scope.

(** ** Runs *)

(** The revisions and identities a run may use up. *)
Definition run_work (config : Config) (actions : list action) : Z :=
  foldr (fun a n => action_work config a + n) 0 actions.

Lemma action_work_nonneg config a : 0 <= action_work config a.
Proof. destruct a as [| | | | |i [] r| | | | |]; simpl; lia. Qed.

Lemma run_work_nonneg config actions : 0 <= run_work config actions.
Proof.
  induction actions as [|a actions IH]; simpl; [lia|]. assert (G := action_work_nonneg config a). lia.
Qed.

Lemma run_work_cons config a actions :
  run_work config (a :: actions) = action_work config a + run_work config actions.
Proof. done. Qed.

Section Runs.
Context {I : Type} `{Laws : TimerIndexLaws I}.
Context (hash : bytes -> Z) (config : Config).

Implicit Types (sys : system I) (o : Owner I) (w : Z) (m : table).

Lemma fire_good w sys a m : sys_ok hash w sys -> sim hash sys m ->
  w + action_work config a <= usize_max ->
  good_from hash (w + action_work config a) sys m (fire hash config sys a).
Proof.
  intros Hs Hsim Hw. assert (Hn := action_work_nonneg config a). destruct a as [c op|c op|c op|n|n|i b r|r|now|i| |i].
  - apply (good_later hash w); [|lia]. apply good_at; [|done]. by apply submit_good.
  - apply (good_later hash w); [|lia]. apply good_at; [|done]. by apply timeout_good.
  - apply (good_later hash w); [|lia]. apply good_at; [|done]. by apply closed_good.
  - apply (good_later hash w); [|lia]. apply good_at; [|done]. by apply enqueue_good.
  - apply (good_later hash w); [|lia]. apply good_at; [|done]. by apply abandon_good.
  - apply good_at; [|done]. by apply act_good.
  - apply coordinate_good; try done. simpl in Hw. lia.
  - apply (good_later hash w); [|lia]. apply good_at; [|done]. by apply advance_good.
  - apply (good_later hash w); [|lia]. apply good_at; [|done]. by apply sample_good.
  - apply (good_later hash w); [|lia]. apply good_at; [|done]. by apply stop_coordinator_good.
  - apply (good_later hash w); [|lia]. apply good_at; [|done]. by apply stop_owner_good.
Qed.

Lemma run_good w sys actions m : sys_ok hash w sys -> sim hash sys m ->
  w + run_work config actions <= usize_max ->
  good_from hash (w + run_work config actions) sys m (run hash config sys actions).
Proof.
  revert w sys m. induction actions as [|a actions IH]; intros w sys m Hs Hsim Hw; cbn [run].
  { split_and!; [eapply sys_ok_later; [done|cbn; lia]|done|]. exists m. split; [constructor|done]. }
  rewrite run_work_cons in *. assert (Hn := run_work_nonneg config actions).
  assert (Hg := fire_good w sys a m Hs Hsim ltac:(lia)).
  destruct (fire hash config sys a) as [[sys1 h1]|e|]; [|done..]. cbn [mbind res_bind].
  destruct Hg as (Hs1 & Hlen1 & m1 & Hlin1 & Hsim1).
  assert (Hg := IH _ sys1 m1 Hs1 Hsim1 ltac:(lia)).
  destruct (run hash config sys1 actions) as [[sys2 h2]|e|]; [|done..]. cbn [mbind res_bind].
  destruct Hg as (Hs2 & Hlen2 & m2 & Hlin2 & Hsim2). split_and!.
  - by rewrite Z.add_assoc.
  - congruence.
  - exists m2. split; [|done]. by eapply linear_app.
Qed.
End Runs.

(** ** The start *)

Lemma new_shard_ok reserve l s : shard_limits_ok l -> new_shard reserve l = Ok s ->
  s = empty_shard l.
Proof.
  intros Hl. unfold new_shard, new_index. destruct (bad_limits l); [done|].
  destruct (negb _); [done|]. destruct (negb _); [done|]. destruct (negb _); [done|].
  cbn. by intros [= <-].
Qed.

Lemma start_shards_spec reserve config first count shards : config_ok config ->
  start_shards reserve config first count = Ok shards ->
  length shards = count /\
  Forall (fun s => exists l, shard_limits_ok l /\ s = empty_shard l) shards.
Proof.
  intros Hc. revert first shards. induction count as [|count IH]; intros first shards H; cbn in H.
  { injection H as <-. done. }
  apply bind_Ok in H as (s & Hs & H). apply bind_Ok in H as (rest & Hrest & [= <-]).
  destruct (shard_limits_fine config (Z.of_nat first) Hc ltac:(lia)) as [Hl _].
  apply (new_shard_ok _ _ _ Hl) in Hs. destruct (IH _ _ Hrest) as [Hlen Hall].
  split; [by cbn; rewrite Hlen|]. constructor; [by eexists|done].
Qed.

Lemma start_good hash config shards now : (0 < length shards)%nat ->
  Forall (fun s => exists l, shard_limits_ok l /\ s = empty_shard l) shards ->
  sys_ok hash 0 (start config shards now) /\ sim hash (start config shards now) ∅.
Proof.
  intros Hlen Hall. rewrite Forall_forall in Hall.
  assert (forall i o, owners (start config shards now) !! i = Some o ->
    exists l, shard_limits_ok l /\ o = mkOwner (empty_shard l) None [] false false) as Ho.
  { intros i o Hi. cbn in Hi. apply list_lookup_fmap_Some in Hi as (s & -> & Hs).
    apply list_elem_of_lookup_2, Hall in Hs as (l & Hl & ->). by exists l. }
  split.
  - constructor; cbn [start owners coordinator clock cross coordinator_id owner_credits phase_parts];
      rewrite ?length_fmap, ?length_replicate; try done.
    + intros i o Hi. destruct (Ho i o Hi) as (l & Hl & ->). constructor; cbn; try done.
      by apply empty_shard_ok.
    + intros i o Hi _. by destruct (Ho i o Hi) as (l & _ & ->).
    + intros i o Hi _. by destruct (Ho i o Hi) as (l & _ & ->).
  - intros k t. cbn zeta. intros _. unfold owner_table.
    destruct (owners _ !! _) as [o|] eqn:Hi; [|done].
    destruct (Ho _ o Hi) as (l & _ & ->). done.
Qed.

Lemma with_clock_good hash reserve config now sys : config_typed config ->
  with_clock reserve config now = Ok sys ->
  sys_ok hash 0 sys /\ sim hash sys ∅ /\ length (owners sys) = Z.to_nat (workers config).
Proof.
  intros Hty H. unfold with_clock in H. apply bind_Ok in H as ([] & Hv & H).
  apply (validate_ok config Hty) in Hv as Hok.
  apply bind_Ok in H as (shards & Hsh & [= <-]).
  destruct (start_shards _ _ _ _) as [shards'|e|] eqn:E; [|done..]. cbn in Hsh. simplify_eq.
  destruct (start_shards_spec _ _ _ _ _ Hok E) as [Hlen Hall]. assert (G := ok_workers config Hok).
  destruct (start_good hash config shards now) as [Hs Hsim]; [lia|done|].
  split_and!; [done..|]. cbn. by rewrite length_fmap.
Qed.
