(* ===== verification/SystemProgress.v ===== *)
(** * The engine always gets done

    A coordinated command takes a bounded number of the coordinator's actions
    ([remaining]), which only an owner that owes its queue a turn can hold up;
    one action of that owner lets it go on.  [shutdown] is a schedule of
    [Engine::shutdown]: the coordinator finishes its queue and stops, then each
    owner is told to stop and serves its queue.  [total_work] bounds its actions. *)

From S2P Require Import Prelude Bytes Protocol Command Expiry Store StoreSpec StoreInvariant.
From S2P Require Import Config Engine EngineSplit System SystemSpec SystemLocal SystemClients.
From S2P Require Import SystemConservation SystemRuns.

Local Open Scope Z_scope.

(** The coordinator's actions until it is idle: each loop over the parts takes
    one action per part and one to leave it. *)
Definition remaining (ph : phase) : nat :=
  match ph with
  | CoIdle | CoStopped => 0
  | CoReserving _ parts n => 4 * S (length parts) - n
  | CoPreparing _ parts _ rs => 3 * S (length parts) - length rs
  | CoApplying _ parts _ n => 2 * S (length parts) - n
  | CoReleasing _ parts _ n => S (length parts) - n
  end%nat.

(** The part whose owner the coordinator contacts next. *)
Definition next_part (ph : phase) : option Part :=
  match ph with
  | CoIdle | CoStopped => None
  | CoReserving _ parts n | CoApplying _ parts _ n | CoReleasing _ parts _ n => parts !! n
  | CoPreparing _ parts _ rs => parts !! length rs
  end.

Section Progress.
Context {I : Type} `{Laws : TimerIndexLaws I}.
Context (hash : bytes -> Z) (config : Config) (reserve : allocator).

Implicit Types (sys : system I) (o : Owner I) (w : Z).

(** The owner that holds the coordinator up. *)
Definition blocker sys : option nat :=
  p ← next_part (coordinator sys);
  o ← owners sys !! part_owner p;
  if turn_pending o then Some (part_owner p) else None.

(** An owner has stopped and served everything. *)
Definition finished o : bool := stopping o && bool_decide (data o = []).

Definition finish_owner (i : nat) o : action :=
  if turn_pending o then Act i DataTurn reserve
  else if stopping o then Act i DataBranch reserve
  else StopOwner i.

(** The next action of the shutdown; [None] once it is complete. *)
Definition shutdown_action sys : option action :=
  match coordinator sys with
  | CoStopped => (fun io => finish_owner io.1 io.2) <$> list_find (fun o => finished o = false) (owners sys)
  | CoIdle => Some (if bool_decide (cross sys = []) then StopCoordinator else Coordinate reserve)
  | _ => Some (match blocker sys with Some i => Act i DataTurn reserve | None => Coordinate reserve end)
  end.

(** The actions that [next] schedules, until it is done; [Err] when the fuel does
    not suffice. *)
Fixpoint follow (next : system I -> option action) (fuel : nat) sys : res () (system I * list occurrence) :=
  match next sys with
  | None => Ok (sys, [])
  | Some a =>
      match fuel with
      | O => Err tt
      | S fuel =>
          '(sys, happened) ← fire hash config sys a;
          '(sys, later) ← follow next fuel sys;
          Ok (sys, happened ++ later)
      end
  end.

(** [Engine::shutdown]. *)
Definition shutdown : nat -> system I -> res () (system I * list occurrence) := follow shutdown_action.

Lemma contact_enabled sys i o msg : owners sys !! i = Some o -> turn_pending o = false ->
  stopping o = false -> contact reserve sys i msg <> Err tt.
Proof.
  intros Ho Ht Hs. unfold contact. rewrite Ho. cbn [expect mbind res_bind]. rewrite Ht, Hs.
  cbn [orb]. by destruct (handle_control reserve o msg) as [[o' a]|].
Qed.

Lemma contact_coordinator sys i msg sys1 a : contact reserve sys i msg = Ok (sys1, a) ->
  exists l, sys1 = set_owners sys l.
Proof.
  unfold contact. intros Hx. apply bind_Ok in Hx as (o & _ & Hx).
  destruct (_ || _); [done|]. apply bind_Ok in Hx as ([o' b] & _ & [= <- <-]). by eexists.
Qed.

(** A step of the coordinator brings it nearer to idle. *)
Lemma coordinate_advances w sys sys' h : sys_ok hash w sys -> coordinator sys <> CoIdle ->
  coordinate hash config reserve sys = Ok (sys', h) ->
  (remaining (coordinator sys') < remaining (coordinator sys))%nat.
Proof.
  intros Hs Hc. assert (Hph := sys_phase _ _ _ Hs). unfold coordinate. cbn zeta.
  destruct (coordinator sys) as [|req parts n|req parts now rs|req parts r n|req parts r n|];
    [done|..]; cbn [phase_ok] in Hph.
  - destruct (parts !! n) as [p|] eqn:Hp; intros Hx.
    + apply lookup_lt_Some in Hp. apply bind_Ok in Hx as ([sys1 a] & _ & [= <- <-]). cbn. lia.
    + apply lookup_ge_None in Hp. injection Hx as <- <-. cbn. lia.
  - destruct (parts !! length rs) as [p|] eqn:Hp; intros Hx.
    + apply lookup_lt_Some in Hp. apply bind_Ok in Hx as ([sys1 a] & _ & Hx).
      destruct a; try done; injection Hx as <- <-; cbn; rewrite ?length_app; cbn; lia.
    + apply lookup_ge_None in Hp. apply bind_Ok in Hx as ([ph r] & Hd%expect_Ok & [= <- <-]).
      unfold decide_phase in Hd. apply bind_Some in Hd as (reply & _ & Hd).
      destruct (match encoded_len reply with Some _ => _ | None => _ end);
        injection Hd as <- <-; cbn; lia.
  - destruct (parts !! n) as [p|] eqn:Hp; intros Hx.
    + apply lookup_lt_Some in Hp. apply bind_Ok in Hx as ([sys1 a] & _ & [= <- <-]). cbn. lia.
    + apply lookup_ge_None in Hp. injection Hx as <- <-. cbn. lia.
  - destruct (parts !! n) as [p|] eqn:Hp; intros Hx.
    + apply lookup_lt_Some in Hp. apply bind_Ok in Hx as ([sys1 a] & _ & [= <- <-]). cbn. lia.
    + injection Hx as <- <-. cbn. lia.
  - done.
Qed.

Lemma bind_not_Err {A B} (m : res () A) (f : A -> res () B) : m <> Err tt ->
  (forall a, f a <> Err tt) -> mbind f m <> Err tt.
Proof. destruct m as [a|[]|]; [intros _ Hf; apply Hf|done|done]. Qed.

Lemma expect_not_Err {A} (x : option A) : expect x <> (Err tt : res () A).
Proof. by destruct x. Qed.

(** Nothing but an owed turn holds the coordinator up. *)
Lemma coordinate_enabled w sys : sys_ok hash w sys -> coordinator sys <> CoIdle ->
  stopped (coordinator sys) = false ->
  blocker sys = None -> coordinate hash config reserve sys <> Err tt.
Proof.
  intros Hs Hc Hst Hb.
  assert (forall p msg, next_part (coordinator sys) = Some p ->
    contact reserve sys (part_owner p) msg <> Err tt) as Hen.
  { intros p msg Hp. unfold blocker in Hb. rewrite Hp in Hb. cbn in Hb.
    destruct (owners sys !! part_owner p) as [o|] eqn:Ho.
    - cbn in Hb. apply (contact_enabled sys _ o); [done| |by apply (sys_running _ _ _ Hs _ _ Ho)].
      by destruct (turn_pending o).
    - unfold contact. by rewrite Ho. }
  unfold coordinate. cbn zeta.
  destruct (coordinator sys) as [|req parts n|req parts now rs|req parts r n|req parts r n|];
    [done|..]; cbn [next_part] in Hen.
  - destruct (parts !! n) as [p|]; [|done]. apply bind_not_Err; [by apply Hen|by intros []].
  - destruct (parts !! length rs) as [p|].
    + apply bind_not_Err; [by apply Hen|by intros [? []]].
    + apply bind_not_Err; [apply expect_not_Err|by intros []].
  - destruct (parts !! n) as [p|]; [|done]. apply bind_not_Err; [by apply Hen|by intros []].
  - destruct (parts !! n) as [p|]; [|done]. apply bind_not_Err; [by apply Hen|by intros []].
  - done.
Qed.

Lemma act_enabled w sys i o b : sys_ok hash w sys -> owners sys !! i = Some o ->
  owner_act reserve (Z.to_nat (expiry_batch config)) o (clock sys) b <> Err tt ->
  act config reserve sys i b <> Err tt.
Proof.
  intros Hs Ho Hact. destruct (lookup_lt_is_Some_2 (owner_credits sys) i) as [av Hav].
  { rewrite (sys_credits _ _ _ Hs). by eapply lookup_lt_Some. }
  unfold act. rewrite Ho, Hav. apply bind_not_Err; [done|]. by intros [o' [[]|]].
Qed.

(** An owner that owes a turn can take it, and a stopped one serves its queue. *)
Lemma turn_enabled w sys i o : sys_ok hash w sys -> owners sys !! i = Some o -> turn_pending o = true ->
  act config reserve sys i DataTurn <> Err tt.
Proof.
  intros Hs Ho Ht. apply (act_enabled w sys i o); [done..|]. cbn [owner_act]. rewrite Ht.
  apply expect_not_Err.
Qed.

Lemma blocker_owner sys i : blocker sys = Some i ->
  exists p o, next_part (coordinator sys) = Some p /\ part_owner p = i /\
    owners sys !! i = Some o /\ turn_pending o = true.
Proof.
  intros Hb. unfold blocker in Hb. apply bind_Some in Hb as (p & Hp & Hb).
  apply bind_Some in Hb as (o & Ho & Hb). destruct (turn_pending o) eqn:Ht; [|done].
  injection Hb as <-. by exists p, o.
Qed.

Lemma blocker_enabled w sys i : sys_ok hash w sys -> blocker sys = Some i ->
  act config reserve sys i DataTurn <> Err tt.
Proof. intros Hs (p & o & _ & _ & Ho & Ht)%blocker_owner. by eapply turn_enabled. Qed.

Lemma blocker_gone sys i sys' h : blocker sys = Some i ->
  act config reserve sys i DataTurn = Ok (sys', h) ->
  coordinator sys' = coordinator sys /\ blocker sys' = None.
Proof.
  intros (p & o & Hp & Hi & Ho & Ht)%blocker_owner. unfold act. rewrite Ho.
  destruct (owner_credits sys !! i); [|done]. cbn [owner_act]. rewrite Ht. intros Hx.
  apply bind_Ok in Hx as ([o' served] & Hs%expect_Ok & Hx).
  assert (turn_pending o' = false) as Ht'.
  { unfold serve_data in Hs. destruct (data _); [by injection Hs as <- <-|].
    by apply bind_Some in Hs as ([s r] & _ & [= <- <-]). }
  assert (coordinator sys' = coordinator sys /\ owners sys' = <[i := o']> (owners sys))
    as [Hco Hos] by (destruct served as [[req r]|]; by injection Hx as <- <-).
  split; [done|]. unfold blocker. rewrite Hco, Hp. cbn [mbind option_bind].
  rewrite Hi, Hos, list_lookup_insert_eq by (by eapply lookup_lt_Some). cbn. by rewrite Ht'.
Qed.

Lemma fire_progress w sys m a : sys_ok hash w sys -> sim hash sys m ->
  w + action_work config a <= usize_max -> fire hash config sys a <> Err tt ->
  exists sys' h, fire hash config sys a = Ok (sys', h).
Proof.
  intros Hs Hsim Hw He. assert (G := fire_good hash config w sys a m Hs Hsim Hw).
  destruct (fire _ _ _ _) as [[sys' h]|[]|]; [by eauto|done..].
Qed.

Lemma finish_enabled w sys i o : sys_ok hash w sys -> stopped (coordinator sys) = true ->
  owners sys !! i = Some o -> finished o = false ->
  fire hash config sys (finish_owner i o) <> Err tt.
Proof.
  intros Hs Hst Ho Hf. assert (coordinator sys = CoStopped) as Hc by (by destruct (coordinator sys)).
  unfold finish_owner. destruct (turn_pending o) eqn:Ht; [by eapply turn_enabled|].
  destruct (stopping o) eqn:Hso; cbn [fire].
  - apply (act_enabled w sys i o); [done..|]. cbn [owner_act]. unfold finished in Hf.
    rewrite Hso in Hf. cbn [andb] in Hf. rewrite Ht, Hf.
    rewrite (sys_unreserved _ _ _ Hs i o Ho) by (rewrite Hc; apply not_elem_of_nil).
    rewrite (bool_decide_eq_false_2 (is_Some None)) by (by intros [? ?]). apply expect_not_Err.
  - unfold stop_owner. rewrite Hst. cbn [negb]. destruct (_ <=? _)%nat eqn:Hi.
    { apply lookup_lt_Some in Ho. apply Nat.leb_le in Hi. lia. }
    apply bind_not_Err; [|by intros []].
    unfold contact. rewrite Ho. cbn [expect mbind res_bind]. rewrite Ht, Hso. cbn [orb].
    apply bind_not_Err; [apply expect_not_Err|by intros []].
Qed.

Lemma shutdown_enabled w sys a : sys_ok hash w sys -> shutdown_action sys = Some a ->
  fire hash config sys a <> Err tt.
Proof.
  intros Hs Ha. unfold shutdown_action in Ha.
  assert (coordinator sys <> CoIdle -> stopped (coordinator sys) = false ->
    Some (match blocker sys with Some i => Act i DataTurn reserve | None => Coordinate reserve end) = Some a ->
    fire hash config sys a <> Err tt) as Hco.
  { intros Hc Hst [= <-]. destruct (blocker sys) as [i|] eqn:Hb; [|by eapply coordinate_enabled].
    by eapply blocker_enabled. }
  destruct (coordinator sys) eqn:Hc; try by apply Hco.
  - injection Ha as <-. case_bool_decide as Hx; cbn [fire].
    + unfold stop_coordinator. by rewrite Hc, Hx.
    + unfold coordinate. rewrite Hc. unfold next_cross. destruct (cross sys); [done|].
      apply bind_not_Err; [apply expect_not_Err|intros id].
      by apply bind_not_Err; [apply expect_not_Err|].
  - apply fmap_Some in Ha as ([i o] & Hf & ->). apply list_find_Some in Hf as (Ho & Hf & _).
    eapply finish_enabled; try done. by rewrite Hc.
Qed.

(** ** The measure *)

(** The actions an owner still takes: its turn, its queue, its stop. *)
Definition load o : nat :=
  (if data_turn o then 1 else 0) + length (data o) + (if stopping o then 0 else 1).

(** A bound on the actions of a shutdown: a round trip can make an owner owe one
    turn, so an action of the coordinator counts double. *)
Definition total_work sys : nat :=
  2 * remaining (coordinator sys) + (if stopped (coordinator sys) then 0 else 1)
    + (8 * S (length (owners sys)) + 1) * length (cross sys) + sum_list_with load (owners sys).

Lemma sum_list_insert {A} (f : A -> nat) l i x y : l !! i = Some x ->
  (sum_list_with f (<[i := y]> l) + f x = sum_list_with f l + f y)%nat.
Proof.
  revert i. induction l as [|z l IH]; intros i Hi; [done|]. destruct i as [|i].
  - injection Hi as ->. cbn. lia.
  - specialize (IH i Hi).
    change (f z + sum_list_with f (<[i := y]> l) + f x = f z + sum_list_with f l + f y)%nat. lia.
Qed.

#[local] Instance control_stop_dec (msg : Control) : Decision (msg = Stop).
Proof. destruct msg; (by left) || (by right). Defined.

Lemma handle_control_load (rs : allocator) o msg o' a : handle_control rs o msg = Some (o', a) ->
  stopping o = false -> (load o' <= load o + 1)%nat /\ (msg = Stop -> load o' < load o)%nat.
Proof.
  intros Hx Hst. assert (Hd := handle_control_data _ _ _ _ _ Hx). unfold load. rewrite Hd, Hst.
  assert (stopping o' = bool_decide (msg = Stop)) as ->; [|assert (data_turn o' = data_turn o \/ msg <> Stop) as Ht].
  - destruct msg; cbn [handle_control] in Hx.
    + destruct (reservation o); [done|]. by injection Hx as <- _.
    + apply bind_Some in Hx as (r & _ & Hx). destruct (negb _); [done|]. destruct (prepared r); [done|].
      destruct (Store.prepare _ _ _ _); [by injection Hx as <- _|by injection Hx as <- _|done].
    + apply bind_Some in Hx as (r & _ & Hx). destruct (negb _); [done|].
      apply bind_Some in Hx as (p & _ & Hx). apply bind_Some in Hx as ([s r'] & _ & Hx).
      by injection Hx as <- _.
    + apply bind_Some in Hx as (r & _ & Hx). destruct (negb _); [done|]. by injection Hx as <- _.
    + by injection Hx as <- _.
    + destruct (reservation o); [done|]. by injection Hx as <- _.
  - destruct msg; try by right. left. cbn in Hx. destruct (reservation o); [done|]. by injection Hx as <- _.
  - case_bool_decide as E.
    + destruct Ht as [->|]; [|done]. split; [|intros _]; lia.
    + split; [|done]. destruct (data_turn o'), (data_turn o); lia.
Qed.

Lemma contact_load (rs : allocator) sys i msg sys1 a : contact rs sys i msg = Ok (sys1, a) ->
  coordinator sys1 = coordinator sys /\ cross sys1 = cross sys /\
  length (owners sys1) = length (owners sys) /\
  (sum_list_with load (owners sys1) <= sum_list_with load (owners sys) + 1)%nat /\
  (msg = Stop -> sum_list_with load (owners sys1) < sum_list_with load (owners sys))%nat.
Proof.
  unfold contact. intros Hx. apply bind_Ok in Hx as (o & Ho%expect_Ok & Hx).
  destruct (_ || stopping o) eqn:Hst; [done|]. apply orb_false_iff in Hst as [_ Hst].
  apply bind_Ok in Hx as ([o' b] & Hh%expect_Ok & [= <- <-]).
  apply handle_control_load in Hh as [H1 H2]; [|done].
  assert (Hsum := sum_list_insert load _ _ _ o' Ho). cbn [owners coordinator cross set_owners].
  split_and!; [done|done|apply length_insert|lia|]. intros E. specialize (H2 E). lia.
Qed.

(** Between requests, an action of the coordinator touches one owner. *)
Lemma coordinate_load sys sys' h : coordinator sys <> CoIdle ->
  coordinate hash config reserve sys = Ok (sys', h) ->
  cross sys' = cross sys /\ length (owners sys') = length (owners sys) /\
  stopped (coordinator sys') = false /\
  (sum_list_with load (owners sys') <= sum_list_with load (owners sys) + 1)%nat.
Proof.
  intros Hc. unfold coordinate. cbn zeta.
  destruct (coordinator sys) as [|req parts n|req parts now rs|req parts r n|req parts r n|]; [done|..].
  - destruct (parts !! n) as [p|]; intros Hx; [|injection Hx as <- <-; cbn; split_and!; (done || lia)].
    apply bind_Ok in Hx as ([sys1 a] & Hx%contact_load & [= <- <-]). cbn. naive_solver.
  - destruct (parts !! length rs) as [p|]; intros Hx.
    + apply bind_Ok in Hx as ([sys1 a] & Hx%contact_load & Ha).
      destruct a; try done; injection Ha as <- <-; cbn; naive_solver.
    + apply bind_Ok in Hx as ([ph r] & Hd%expect_Ok & [= <- <-]).
      unfold decide_phase in Hd. apply bind_Some in Hd as (reply & _ & Hd).
      destruct (match encoded_len reply with Some _ => _ | None => _ end);
        injection Hd as <- <-; cbn; split_and!; (done || lia).
  - destruct (parts !! n) as [p|]; intros Hx; [|injection Hx as <- <-; cbn; split_and!; (done || lia)].
    apply bind_Ok in Hx as ([sys1 a] & Hx%contact_load & [= <- <-]). cbn. naive_solver.
  - destruct (parts !! n) as [p|]; intros Hx; [|injection Hx as <- <-; cbn; split_and!; (done || lia)].
    apply bind_Ok in Hx as ([sys1 a] & Hx%contact_load & [= <- <-]). cbn. naive_solver.
  - done.
Qed.

Lemma remaining_bound w sys : sys_ok hash w sys ->
  (remaining (coordinator sys) <= 4 * S (length (owners sys)))%nat.
Proof.
  intros Hs. assert (Hph := sys_phase _ _ _ Hs). assert (Hn := sys_nonempty _ _ _ Hs).
  destruct (coordinator sys); cbn [remaining phase_ok] in *; try lia;
    destruct Hph as (_ & Hsp & _); assert (G := split_length _ _ _ _ Hn Hsp); lia.
Qed.

(** ** Every action of a shutdown makes progress *)

Lemma coordinate_total w sys sys' h : sys_ok hash w sys ->
  coordinate hash config reserve sys = Ok (sys', h) -> (total_work sys' < total_work sys)%nat.
Proof.
  intros Hs Hx. assert (coordinator sys = CoIdle \/ coordinator sys <> CoIdle) as [Hc|Hc]
    by (destruct (coordinator sys); auto).
  - unfold coordinate in Hx. rewrite Hc in Hx. unfold next_cross in Hx.
    assert (Hcr := sys_cross _ _ _ Hs). unfold total_work. rewrite Hc.
    destruct (cross sys) as [|req rest]; [done|]. apply Forall_cons in Hcr as [Hreq _].
    apply bind_Ok in Hx as (id & _ & Hx). apply bind_Ok in Hx as (parts & Hp%expect_Ok & [= <- <-]).
    destruct (split_spec hash (length (owners sys)) (operation req)) as (parts' & Hp' & Hsp); [apply Hreq|].
    simplify_eq. assert (G := split_length _ _ _ _ (sys_nonempty _ _ _ Hs) Hsp).
    cbn [owners coordinator cross remaining stopped length]. lia.
  - destruct (coordinate_load _ _ _ Hc Hx) as (H1 & H2 & H3 & H4).
    assert (H5 := coordinate_advances _ _ _ _ Hs Hc Hx). unfold total_work. rewrite H1, H2, H3.
    assert (stopped (coordinator sys) = false) as ->; [|lia].
    destruct (coordinator sys); try done. cbn in H5. lia.
Qed.

Lemma owner_act_load batch o now b o' served : b <> TickBranch ->
  owner_act reserve batch o now b = Ok (o', served) -> (load o' < load o)%nat.
Proof.
  assert (forall o1 o2 x, serve_data reserve o1 now = Some (o2, x) ->
    data_turn o2 = data_turn o1 /\ stopping o2 = stopping o1) as Hserve.
  { intros o1 o2 x Hx. unfold serve_data in Hx. destruct (data o1); [by injection Hx as <- <-|].
    by apply bind_Some in Hx as ([s r] & _ & [= <- <-]). }
  intros Hb Hx. assert (Hd := owner_act_data _ _ _ _ _ _ _ Hx). apply (f_equal length) in Hd.
  rewrite length_app in Hd. unfold owner_act in Hx. unfold load. destruct b; [|done|].
  - destruct (turn_pending o) eqn:Ht; [|done]. apply andb_true_iff in Ht as [Ht _].
    apply expect_Ok, Hserve in Hx as [E1 E2]. cbn in E1, E2. rewrite E1, E2, Ht. lia.
  - destruct (_ || _) eqn:Hg; [done|]. apply orb_false_iff in Hg as [_ Hg%bool_decide_eq_false].
    apply expect_Ok in Hx. assert (Hx' := Hx). apply Hserve in Hx' as [E1 E2]. rewrite E1, E2.
    unfold serve_data in Hx. destruct (data o) as [|req rest]; [done|].
    apply bind_Some in Hx as ([s r] & _ & [= <- <-]). cbn in *. lia.
Qed.

Lemma act_total sys i b sys' h : b <> TickBranch ->
  act config reserve sys i b = Ok (sys', h) -> (total_work sys' < total_work sys)%nat.
Proof.
  intros Hb. unfold act. destruct (owners sys !! i) as [o|] eqn:Ho; [|done].
  destruct (owner_credits sys !! i); [|done]. intros Hx. apply bind_Ok in Hx as ([o' served] & Ha & Hx).
  apply owner_act_load in Ha; [|done]. assert (Hsum := sum_list_insert load _ _ _ o' Ho).
  assert (coordinator sys' = coordinator sys /\ cross sys' = cross sys /\
    owners sys' = <[i := o']> (owners sys)) as (E1 & E2 & E3)
    by (destruct served as [[]|]; by injection Hx as <- <-).
  unfold total_work. rewrite E1, E2, E3, length_insert. lia.
Qed.

(** The actions of a shutdown. *)
Lemma shutdown_cases sys a : shutdown_action sys = Some a ->
  a = StopCoordinator \/ a = Coordinate reserve \/ (exists i, a = StopOwner i) \/
  exists i b, b <> TickBranch /\ a = Act i b reserve.
Proof.
  unfold shutdown_action. intros Ha.
  assert (forall i, exists j b, b <> TickBranch /\ Act i DataTurn reserve = Act j b reserve)
    as Hturn by (intros i; by exists i, DataTurn).
  destruct (coordinator sys); try (injection Ha as <-; destruct (blocker sys); by auto).
  - injection Ha as <-. case_bool_decide; auto.
  - apply fmap_Some in Ha as ([i o] & _ & ->). unfold finish_owner. cbn.
    destruct (turn_pending o); [by auto|]. destruct (stopping o); [|by eauto].
    right; right; right. by exists i, DataBranch.
Qed.

Lemma shutdown_work sys a : shutdown_action sys = Some a -> action_work config a = 1.
Proof.
  intros Ha%shutdown_cases. destruct Ha as [->|[->|[(i & ->)|(i & b & Hb & ->)]]]; [done..|].
  by destruct b.
Qed.

Lemma shutdown_total w sys a sys' h : sys_ok hash w sys -> shutdown_action sys = Some a ->
  fire hash config sys a = Ok (sys', h) -> (total_work sys' < total_work sys)%nat.
Proof.
  intros Hs Ha%shutdown_cases Hx.
  destruct Ha as [->|[->|[(i & ->)|(i & b & Hb & ->)]]]; cbn [fire] in Hx.
  - unfold stop_coordinator in Hx. unfold total_work. destruct (coordinator sys); try done.
    destruct (cross sys) eqn:E; [|done]. injection Hx as <- <-. cbn. rewrite E. cbn. lia.
  - by eapply coordinate_total.
  - unfold stop_owner in Hx. destruct (negb _); [done|]. destruct (_ <=? _)%nat; [done|].
    apply bind_Ok in Hx as ([sys1 c] & Hx & [= <- <-]).
    destruct (contact_load _ _ _ _ _ _ Hx) as (E1 & E2 & E3 & _ & E5). unfold total_work.
    rewrite E1, E2, E3. specialize (E5 eq_refl). lia.
  - by eapply act_total.
Qed.

(** ** The shutdown *)

Lemma shutdown_action_None w sys : sys_ok hash w sys -> shutdown_action sys = None ->
  coordinator sys = CoStopped /\ Forall (fun o => finished o = true) (owners sys) /\
  waiting sys = [] /\ unanswered sys = [].
Proof.
  intros Hs Ha. unfold shutdown_action in Ha. destruct (coordinator sys) eqn:Hc; try done.
  apply fmap_None, list_find_None in Ha.
  assert (Forall (fun o => finished o = true) (owners sys)) as Hf.
  { apply (Forall_impl _ _ _ Ha). intros o Ho. by destruct (finished o). }
  split_and!; [done|done| |by unfold unanswered; rewrite Hc].
  unfold waiting, queued. rewrite Hc, (sys_stopped _ _ _ Hs) by (by rewrite Hc). cbn.
  rewrite !app_nil_r. clear Ha Hs Hc. induction Hf as [|o l Ho _ IH]; [done|]. cbn.
  apply andb_true_iff in Ho as [_ Ho%bool_decide_eq_true]. by rewrite Ho.
Qed.

(** A schedule of enabled actions, each of which leaves less work, is a run that
    completes. *)
Lemma follow_runs next fuel w sys m :
  (forall w sys a, sys_ok hash w sys -> next sys = Some a ->
     fire hash config sys a <> Err tt /\ action_work config a = 1 /\
     forall sys' h, fire hash config sys a = Ok (sys', h) -> (total_work sys' < total_work sys)%nat) ->
  sys_ok hash w sys -> sim hash sys m ->
  w + Z.of_nat fuel < usize_max -> (total_work sys <= fuel)%nat ->
  exists sys' h actions, follow next fuel sys = Ok (sys', h) /\ next sys' = None /\
    run hash config sys actions = Ok (sys', h) /\ run_work config actions <= Z.of_nat fuel.
Proof.
  intros Hnext. revert w sys m. induction fuel as [|fuel IH]; intros w sys m Hs Hsim Hw Hf; cbn [follow];
    (destruct (next sys) as [a|] eqn:Ha; [|exists sys, [], []; split_and!; (done || cbn [run_work foldr]; lia)]).
  all: destruct (Hnext w sys a Hs Ha) as (Hen & Hwork & Htotal).
  all: destruct (fire hash config sys a) as [[sys1 h1]|[]|] eqn:Hx; [|done|exfalso].
  all: assert (G := fire_good hash config w sys a m Hs Hsim); rewrite Hwork in G.
  - assert (Hlt := Htotal _ _ eq_refl). lia.
  - rewrite Hx in G. apply G. lia.
  - assert (Hlt := Htotal _ _ eq_refl). rewrite Hx in G.
    destruct G as (Hs1 & _ & m1 & _ & Hsim1); [lia|].
    destruct (IH _ _ _ Hs1 Hsim1) as (sys2 & h2 & actions & H1 & H2 & H3 & H4); [lia..|].
    exists sys2, (h1 ++ h2), (a :: actions). cbn [mbind res_bind run]. rewrite H1, Hx. cbn [mbind res_bind].
    rewrite H3. split_and!; try done. rewrite run_work_cons, Hwork. lia.
  - rewrite Hx in G. apply G. lia.
Qed.

(** The shutdown of an engine that keeps its invariant is a run that completes. *)
Lemma shutdown_runs fuel w sys m : sys_ok hash w sys -> sim hash sys m ->
  w + Z.of_nat fuel < usize_max -> (total_work sys <= fuel)%nat ->
  exists sys' h actions, shutdown fuel sys = Ok (sys', h) /\ shutdown_action sys' = None /\
    run hash config sys actions = Ok (sys', h) /\ run_work config actions <= Z.of_nat fuel.
Proof.
  apply follow_runs. intros w' sys' a Hs Ha. split_and!; [by eapply shutdown_enabled|by apply (shutdown_work sys')|].
  intros sys1 h. by eapply shutdown_total.
Qed.
End Progress.
