(* ===== verification/SystemDriver.v ===== *)
(** * The engine behind its interface

    A client that waits for its reply sees the engine as a function: [execute_now]
    submits one operation to a quiet engine and lets coordinator and owners act
    until they are quiet again ([drain_action], a schedule), and [sample_owners]
    collects the statistics of the owners in order.  The engine comes back
    quiet, with its invariant, and the reply is that of the one table. *)

From S2P Require Import Prelude Bytes Protocol Command Expiry ExpiryTheorems Store StoreSpec StoreInvariant.
From S2P Require Import StoreTheorems Config Engine EngineSplit System SystemSpec SystemLocal SystemClients.
From S2P Require Import SystemCoordinator SystemConservation SystemOwners SystemRuns SystemProgress.

Local Open Scope Z_scope.

Section Driver.
Context (hash : bytes -> Z) (config : Config) (reserve : allocator).

Implicit Types (sys : system ExpiryIndex) (o : Owner ExpiryIndex) (w : Z) (m : table).

(** ** The schedule *)

Definition serve_owner (i : nat) o : action := Act i (if turn_pending o then DataTurn else DataBranch) reserve.

(** The next action of a schedule that serves what was accepted; [None] when
    nothing is left. *)
Definition drain_action sys : option action :=
  match coordinator sys with
  | CoIdle | CoStopped =>
      match cross sys with
      | _ :: _ => Some (Coordinate reserve)
      | [] => (fun io => serve_owner io.1 io.2) <$> list_find (fun o => data o <> []) (owners sys)
      end
  | _ => Some (match blocker sys with Some i => Act i DataTurn reserve | None => Coordinate reserve end)
  end.

Definition drain : nat -> system ExpiryIndex -> res () (system ExpiryIndex * list occurrence) :=
  follow hash config drain_action.

(** The reply of a command that never completes. *)
Definition no_reply : Reply := reply_error "accepted command lost its completion".

(** A client on its own is let in at once. *)
Definition admit_now sys (op : Operation) : res () (system ExpiryIndex * list occurrence) :=
  '(sys1, h) ← submit hash config sys 0 op;
  match h with
  | [] => enqueue config sys1 (length (admitting sys))
  | _ => Ok (sys1, h)
  end.

(** [EngineHandle::execute] of a client on its own. *)
Definition execute_now sys (op : Operation) : system ExpiryIndex * Reply :=
  match admit_now sys op with
  | Ok (sys1, [Refused _ reply]) => (sys1, reply)
  | Ok (sys1, _) =>
      match drain (total_work sys1) sys1 with
      | Ok (sys2, h) => (sys2, match answers h with (_, reply) :: _ => reply | [] => no_reply end)
      | _ => (sys1, no_reply)
      end
  | Err _ => (sys, deadline_exceeded)
  | Panic => (sys, no_reply)
  end.

(** [EngineHandle::stats]: an owner that owes its queue a turn takes it first. *)
Fixpoint sample_owners (count i : nat) sys : system ExpiryIndex * list ShardStats :=
  match count with
  | O => (sys, [])
  | S count =>
      let sys :=
        match owners sys !! i with
        | Some o =>
            if turn_pending o
            then match fire hash config sys (Act i DataTurn reserve) with Ok (sys, _) => sys | _ => sys end
            else sys
        | None => sys
        end in
      match sample sys i with
      | Ok (sys, [Sampled _ s]) => let '(sys, l) := sample_owners count (S i) sys in (sys, s :: l)
      | _ => (sys, [])
      end
  end.

(** ** The schedule completes *)

Lemma drain_cases sys a : drain_action sys = Some a ->
  a = Coordinate reserve \/ exists i b, b <> TickBranch /\ a = Act i b reserve.
Proof.
  assert (forall i o, exists j b, b <> TickBranch /\ serve_owner i o = Act j b reserve) as Hserve.
  { intros i o. unfold serve_owner. destruct (turn_pending o); [by exists i, DataTurn|by exists i, DataBranch]. }
  unfold drain_action. intros Ha.
  destruct (coordinator sys); try (destruct (blocker sys) as [i|]; injection Ha as <-;
    [right; by exists i, DataTurn|by left]).
  - destruct (cross sys); [|left; by injection Ha as <-].
    apply fmap_Some in Ha as ([i o] & _ & ->). right. apply Hserve.
  - destruct (cross sys); [|left; by injection Ha as <-].
    apply fmap_Some in Ha as ([i o] & _ & ->). right. apply Hserve.
Qed.

Lemma drain_enabled w sys a : sys_ok hash w sys -> drain_action sys = Some a ->
  fire hash config sys a <> Err tt.
Proof.
  intros Hs Ha. unfold drain_action in Ha.
  assert (forall i o, coordinator sys = CoIdle \/ coordinator sys = CoStopped ->
    list_find (fun o => data o <> []) (owners sys) = Some (i, o) ->
    fire hash config sys (serve_owner i o) <> Err tt) as Hserve.
  { intros i o Hc (Ho & Hd & _)%list_find_Some. cbn [serve_owner fire].
    destruct (turn_pending o) eqn:Ht; [by eapply turn_enabled|].
    apply (act_enabled hash config reserve w sys i o); [done..|]. cbn [owner_act]. rewrite Ht.
    rewrite (sys_unreserved _ _ _ Hs i o Ho) by (destruct Hc as [-> | ->]; apply not_elem_of_nil).
    rewrite !bool_decide_eq_false_2 by (done || by intros [? ?]). apply expect_not_Err. }
  assert (coordinator sys <> CoIdle -> stopped (coordinator sys) = false ->
    Some (match blocker sys with Some i => Act i DataTurn reserve | None => Coordinate reserve end) = Some a ->
    fire hash config sys a <> Err tt) as Hco.
  { intros Hc Hst [= <-]. destruct (blocker sys) as [i|] eqn:Hb; [|by eapply coordinate_enabled].
    by eapply blocker_enabled. }
  destruct (coordinator sys) eqn:Hc; try by apply Hco.
  - destruct (cross sys) as [|req rest] eqn:Hx.
    + apply fmap_Some in Ha as ([i o] & Hf & ->). apply Hserve; [by left|done].
    + injection Ha as <-. cbn [fire]. unfold coordinate. rewrite Hc. unfold next_cross. rewrite Hx.
      apply bind_not_Err; [apply expect_not_Err|intros id].
      by apply bind_not_Err; [apply expect_not_Err|].
  - rewrite (sys_stopped _ _ _ Hs) in Ha by (by rewrite Hc).
    apply fmap_Some in Ha as ([i o] & Hf & ->). apply Hserve; [by right|done].
Qed.

Lemma drain_total w sys a sys' h : sys_ok hash w sys -> drain_action sys = Some a ->
  fire hash config sys a = Ok (sys', h) -> (total_work sys' < total_work sys)%nat.
Proof.
  intros Hs Ha Hx. destruct (drain_cases _ _ Ha) as [->|(i & b & Hb & ->)]; cbn [fire] in Hx.
  - by eapply coordinate_total.
  - by eapply act_total.
Qed.

Lemma drain_work sys a : drain_action sys = Some a -> action_work config a = 1.
Proof. intros Ha. destruct (drain_cases _ _ Ha) as [->|(i & b & Hb & ->)]; [done|by destruct b]. Qed.

(** What the schedule leaves: nothing. *)
Lemma drain_action_None w sys : sys_ok hash w sys -> drain_action sys = None ->
  (coordinator sys = CoIdle \/ coordinator sys = CoStopped) /\ cross sys = [] /\
  (forall i o, owners sys !! i = Some o -> data o = []) /\
  waiting sys = [] /\ unanswered sys = [].
Proof.
  intros Hs Ha. unfold drain_action in Ha.
  assert (coordinator sys = CoIdle \/ coordinator sys = CoStopped) as Hc
    by (destruct (coordinator sys); [by left|discriminate Ha..|by right]).
  assert (cross sys = [] /\ list_find (fun o => data o <> []) (owners sys) = None) as [Hx Hf].
  { destruct Hc as [Hc|Hc]; rewrite Hc in Ha; destruct (cross sys); try done;
      (split; [done|]; by apply fmap_None in Ha). }
  apply list_find_None in Hf.
  assert (forall i o, owners sys !! i = Some o -> data o = []) as Hd.
  { intros i o Ho. rewrite Forall_forall in Hf. apply list_elem_of_lookup_2, Hf in Ho.
    by destruct (data o); [|destruct Ho]. }
  split_and!; [done..| |by unfold unanswered; destruct Hc as [-> | ->]].
  assert (concat (data <$> owners sys) = []) as Hcat.
  { clear -Hf. induction Hf as [|o l Ho _ IH]; [done|]. cbn. destruct (data o); [done|by destruct Ho]. }
  unfold waiting, queued. rewrite Hx, Hcat. by destruct Hc as [-> | ->].
Qed.

(** ** What happens meanwhile *)

(** Nothing is accepted, and everything takes effect at [now]. *)
Definition at_once (now : Z) (x : occurrence) : Prop :=
  match x with Accepted _ _ => False | TakesEffect _ _ t _ => t = now | _ => True end.

Definition timed (now : Z) sys : Prop :=
  clock sys = now /\ stopped (coordinator sys) = false /\
  match coordinator sys with CoPreparing _ _ t _ => t = now | _ => True end.

Lemma contact_clock rs sys i msg sys1 x : contact rs sys i msg = Ok (sys1, x) -> clock sys1 = clock sys.
Proof. by intros (l & ->)%contact_coordinator. Qed.

Lemma coordinate_timed now sys sys' h : timed now sys -> coordinate hash config reserve sys = Ok (sys', h) ->
  timed now sys' /\ Forall (at_once now) h.
Proof.
  intros (Hclock & Hst & Ht) Hx. unfold coordinate in Hx. cbn zeta in Hx.
  destruct (coordinator sys) as [|req parts n|req parts t rs|req parts r n|req parts r n|] eqn:Hc; [..|done].
  - unfold next_cross in Hx. destruct (cross sys); [done|].
    apply bind_Ok in Hx as (id & _ & Hx). apply bind_Ok in Hx as (ps & _ & [= <- <-]). by repeat constructor.
  - destruct (parts !! n); [|injection Hx as <- <-; by repeat constructor].
    apply bind_Ok in Hx as ([sys1 x] & E%contact_clock & [= <- <-]).
    by split; [split_and!; [cbn; congruence|done..]|constructor].
  - destruct (parts !! length rs).
    + apply bind_Ok in Hx as ([sys1 x] & E%contact_clock & Hy).
      destruct x; try done; injection Hy as <- <-;
        (split; [split_and!; [cbn; congruence|done..]|by repeat constructor]).
    + apply bind_Ok in Hx as ([ph r] & Hd%expect_Ok & [= <- <-]).
      unfold decide_phase in Hd. apply bind_Some in Hd as (reply & _ & Hd).
      destruct (match encoded_len reply with Some _ => _ | None => _ end); injection Hd as <- <-;
        by repeat constructor.
  - destruct (parts !! n); [|injection Hx as <- <-; by repeat constructor].
    apply bind_Ok in Hx as ([sys1 x] & E%contact_clock & [= <- <-]).
    by split; [split_and!; [cbn; congruence|done..]|constructor].
  - destruct (parts !! n); [|injection Hx as <- <-; by repeat constructor].
    apply bind_Ok in Hx as ([sys1 x] & E%contact_clock & [= <- <-]).
    by split; [split_and!; [cbn; congruence|done..]|constructor].
Qed.

Lemma act_timed now sys i b sys' h : timed now sys -> act config reserve sys i b = Ok (sys', h) ->
  timed now sys' /\ Forall (at_once now) h.
Proof.
  intros (Hclock & Hst & Ht) Hx. unfold act in Hx. destruct (owners sys !! i); [|done].
  destruct (owner_credits sys !! i); [|done]. apply bind_Ok in Hx as ([o' served] & _ & Hx).
  destruct served as [[req r]|]; injection Hx as <- <-; by repeat constructor.
Qed.

Lemma drain_timed now fuel sys sys' h : timed now sys -> drain fuel sys = Ok (sys', h) ->
  timed now sys' /\ Forall (at_once now) h.
Proof.
  unfold drain. revert sys h. induction fuel as [|fuel IH]; intros sys h Ht Hx; cbn [follow] in Hx;
    (destruct (drain_action sys) as [a|] eqn:Ha; [|injection Hx as <- <-; by split]); [done|].
  apply bind_Ok in Hx as ([sys1 h1] & H1 & Hx). apply bind_Ok in Hx as ([sys2 h2] & H2 & [= <- <-]).
  assert (timed now sys1 /\ Forall (at_once now) h1) as [Ht1 Hh1].
  { destruct (drain_cases _ _ Ha) as [->|(i & b & _ & ->)]; [by apply (coordinate_timed now) in H1|by apply (act_timed now) in H1]. }
  destruct (IH _ _ Ht1 H2). split; [done|]. by apply Forall_app.
Qed.

(** Nobody waits for room meanwhile. *)
Lemma contact_admitting rs sys i msg sys1 x : contact rs sys i msg = Ok (sys1, x) -> admitting sys1 = admitting sys.
Proof. by intros (l & ->)%contact_coordinator. Qed.

Lemma coordinate_admitting sys sys' h : coordinate hash config reserve sys = Ok (sys', h) ->
  admitting sys' = admitting sys.
Proof.
  intros Hx. unfold coordinate in Hx. cbn zeta in Hx.
  destruct (coordinator sys) as [|req parts n|req parts t rs|req parts r n|req parts r n|]; [..|done].
  - unfold next_cross in Hx. destruct (cross sys); [done|].
    apply bind_Ok in Hx as (id & _ & Hx). by apply bind_Ok in Hx as (ps & _ & [= <- <-]).
  - destruct (parts !! n); [|by injection Hx as <- <-].
    by apply bind_Ok in Hx as ([sys1 x] & <-%contact_admitting & [= <- <-]).
  - destruct (parts !! length rs).
    + apply bind_Ok in Hx as ([sys1 x] & <-%contact_admitting & Hy). by destruct x; try done; injection Hy as <- <-.
    + by apply bind_Ok in Hx as ([ph r] & _ & [= <- <-]).
  - destruct (parts !! n); [|by injection Hx as <- <-].
    by apply bind_Ok in Hx as ([sys1 x] & <-%contact_admitting & [= <- <-]).
  - destruct (parts !! n); [|by injection Hx as <- <-].
    by apply bind_Ok in Hx as ([sys1 x] & <-%contact_admitting & [= <- <-]).
Qed.

Lemma act_admitting sys i b sys' h : act config reserve sys i b = Ok (sys', h) -> admitting sys' = admitting sys.
Proof.
  unfold act. intros Hx. destruct (owners sys !! i); [|done]. destruct (owner_credits sys !! i); [|done].
  apply bind_Ok in Hx as ([o' [[req r]|]] & _ & Hx); by injection Hx as <- <-.
Qed.

Lemma drain_admitting fuel sys sys' h : drain fuel sys = Ok (sys', h) -> admitting sys' = admitting sys.
Proof.
  unfold drain. revert sys h. induction fuel as [|fuel IH]; intros sys h Hx; cbn [follow] in Hx;
    (destruct (drain_action sys) as [a|] eqn:Ha; [|by injection Hx as <- <-]); [done|].
  apply bind_Ok in Hx as ([sys1 h1] & H1 & Hx). apply bind_Ok in Hx as ([sys2 h2] & H2 & [= <- <-]).
  rewrite (IH _ _ H2). destruct (drain_cases _ _ Ha) as [->|(i & b & _ & ->)];
    [by eapply coordinate_admitting|by eapply act_admitting].
Qed.

Lemma at_once_accepted now h : Forall (at_once now) h -> accepted h = [].
Proof. induction 1 as [|[] h Hx _ IH]; done. Qed.

(** ** Histories of one operation *)

Lemma linear_none m h m' : linear m h m' -> effective h = [] -> m' = m /\ effect_replies h = [].
Proof.
  induction 1 as [m|m c op now r m1 h m2 _ _ _|m x h m2 Hx _ IH]; intros He; [done|discriminate He|].
  destruct x; try done; by apply IH.
Qed.

Lemma linear_single m h m' c op now : linear m h m' -> Forall (at_once now) h ->
  effective h = [(c, op)] -> exists r, effect_replies h = [(c, r)] /\ takes_effect m op now r m'.
Proof.
  induction 1 as [m|m c' op' now' r m1 h m2 Ht Hl IH|m x h m2 Hx Hl IH]; intros Hh He; [done|..].
  - apply Forall_cons in Hh as [E Hh]. cbn in E, He. subst now'. injection He as <- <- He.
    destruct (linear_none _ _ _ Hl He) as [-> Hr]. exists r. split; [cbn; by f_equal|done].
  - apply Forall_cons in Hh as [_ Hh]. destruct x; try done; by apply IH.
Qed.

(** ** One command *)

(** A quiet engine that represents the table [m]. *)
Record ready w sys m : Prop := {
  ready_ok : sys_ok hash w sys;
  ready_sim : sim hash sys m;
  ready_credits : credits_ok config sys;
  ready_idle : coordinator sys = CoIdle;
  ready_cross : cross sys = [];
  ready_admitting : admitting sys = [];
  ready_data i o : owners sys !! i = Some o -> data o = [];
  ready_limits i o : owners sys !! i = Some o -> limits (shard o) = shard_limits config (Z.of_nat i);
  ready_owners : length (owners sys) = Z.to_nat (workers config);
}.

Context (Hconfig : config_ok config).

(** Whether admission lets an operation in. *)
Definition admits (op : Operation) : bool := request_charge op <=? queue_bytes config.

Definition too_large : Reply := reply_error "BUSY command exceeds queue byte capacity".

Lemma ready_timed w sys m : ready w sys m -> timed (clock sys) sys.
Proof. intros Hr. unfold timed. by rewrite (ready_idle _ _ _ Hr). Qed.

Lemma load_bound (l : list (Owner ExpiryIndex)) : (forall i o, l !! i = Some o -> data o = []) ->
  (sum_list_with load l <= 2 * length l)%nat.
Proof.
  induction l as [|o l IH]; intros Hd; [done|].
  assert (load o <= 2)%nat as Ho.
  { unfold load. rewrite (Hd 0%nat o eq_refl). cbn. destruct (data_turn o), (stopping o); lia. }
  specialize (IH (fun i => Hd (S i))). change (load o + sum_list_with load l <= 2 * S (length l))%nat. lia.
Qed.

Lemma ready_owners_bound w sys m : ready w sys m -> (length (owners sys) <= 64)%nat.
Proof. intros Hr. rewrite (ready_owners _ _ _ Hr). destruct (ok_workers config Hconfig). lia. Qed.

Lemma ready_waiting w sys m : ready w sys m -> waiting sys = [].
Proof.
  intros Hr. unfold waiting, queued. rewrite (ready_idle _ _ _ Hr), (ready_cross _ _ _ Hr). cbn [undecided].
  rewrite !app_nil_r. assert (Hd := ready_data _ _ _ Hr). clear -Hd.
  induction (owners sys) as [|o l IH]; [done|]. cbn. rewrite (Hd 0%nat o eq_refl). apply (IH (fun i => Hd (S i))).
Qed.

(** A quiet engine has room for what admission lets in. *)
Lemma local_ready w sys m op k : ready w sys m -> request_charge op <= queue_bytes config ->
  admit_request hash (length (owners sys)) (queue_bytes config) false op
    = AdmitLocal (route hash (length (owners sys)) k) (request_charge op) ->
  exists sys1, admit_now sys op = Ok (sys1, [Accepted 0 op]) /\
    timed (clock sys) sys1 /\ coordinator sys1 = CoIdle /\ admitting sys1 = [] /\ (total_work sys1 <= 700)%nat.
Proof.
  intros Hr Hc Hadm. destruct (ok_queue config Hconfig) as (Hcap & Hqb). assert (Hidle := ready_idle _ _ _ Hr).
  assert (Hlen := ready_owners_bound _ _ _ Hr). assert (Hwork := load_bound _ (ready_data _ _ _ Hr)).
  set (i := route hash (length (owners sys)) k) in *.
  assert (i < length (owners sys))%nat as Hi by apply route_lt, (ready_ok _ _ _ Hr).
  destruct (lookup_lt_is_Some_2 _ _ Hi) as [o Ho].
  destruct (lookup_lt_is_Some_2 (owner_credits sys) i) as [av Hav].
  { by rewrite (sys_credits _ _ _ (ready_ok _ _ _ Hr)). }
  destruct (credits_owner _ _ (ready_credits _ _ _ Hr) _ _ _ Ho Hav) as (_ & _ & Hsum).
  rewrite (ready_data _ _ _ Hr _ _ Ho), (ready_admitting _ _ _ Hr) in Hsum. change (total_credit _) with 0 in Hsum.
  unfold admit_now, submit. rewrite Hadm, Hav, (proj2 (Z.leb_le _ _)) by lia. cbn [negb mbind res_bind].
  unfold enqueue. cbn [admitting owners coordinator cross]. rewrite (ready_admitting _ _ _ Hr). cbn [app lookup list_lookup length].
  rewrite Ho, (sys_running _ _ _ (ready_ok _ _ _ Hr) _ _ Ho) by (by rewrite Hidle).
  rewrite (ready_data _ _ _ Hr _ _ Ho). cbn [length]. rewrite (proj2 (Z.ltb_lt _ _)) by lia.
  eexists. split; [done|]. split_and!; [|done|done|].
  - unfold timed. cbn [coordinator clock set_owners forget]. by rewrite Hidle.
  - unfold total_work. cbn [coordinator cross owners set_owners forget]. rewrite Hidle, (ready_cross _ _ _ Hr).
    assert (Hsl := sum_list_insert load _ _ _ (set_data o ([] ++ [mkDataRequest 0 op (request_charge op)])) Ho).
    unfold load at 2 4 in Hsl. rewrite (ready_data _ _ _ Hr _ _ Ho) in Hsl. cbn in Hsl. cbn.
    destruct (data_turn o), (stopping o); lia.
Qed.

Lemma cross_ready w sys m op : ready w sys m -> request_charge op <= queue_bytes config ->
  admit_request hash (length (owners sys)) (queue_bytes config) false op = AdmitCross (request_charge op) ->
  exists sys1, admit_now sys op = Ok (sys1, [Accepted 0 op]) /\
    timed (clock sys) sys1 /\ coordinator sys1 = CoIdle /\ admitting sys1 = [] /\ (total_work sys1 <= 700)%nat.
Proof.
  intros Hr Hc Hadm. destruct (ok_queue config Hconfig) as (Hcap & Hqb). assert (Hidle := ready_idle _ _ _ Hr).
  assert (Hlen := ready_owners_bound _ _ _ Hr). assert (Hwork := load_bound _ (ready_data _ _ _ Hr)).
  destruct (credits_cross _ _ (ready_credits _ _ _ Hr)) as (_ & _ & Hsum).
  rewrite Hidle, (ready_cross _ _ _ Hr), (ready_admitting _ _ _ Hr) in Hsum. change (total_credit _) with 0 in Hsum.
  unfold admit_now, submit. rewrite Hadm, (proj2 (Z.leb_le _ _)) by lia. cbn [negb mbind res_bind].
  unfold enqueue. cbn [admitting owners coordinator cross]. rewrite (ready_admitting _ _ _ Hr). cbn [app lookup list_lookup length].
  rewrite Hidle, (ready_cross _ _ _ Hr). cbn [stopped length]. rewrite (proj2 (Z.ltb_lt _ _)) by lia.
  eexists. split; [done|]. split_and!; [|done|done|].
  - unfold timed. cbn [coordinator clock]. by rewrite ?Hidle.
  - unfold total_work. cbn [coordinator cross owners]. rewrite ?Hidle. cbn [remaining stopped length app]. lia.
Qed.

Lemma admit_ready w sys m op : ready w sys m -> keys op <> [] ->
  if admits op then
    exists sys1, admit_now sys op = Ok (sys1, [Accepted 0 op]) /\
      timed (clock sys) sys1 /\ coordinator sys1 = CoIdle /\ admitting sys1 = [] /\ (total_work sys1 <= 700)%nat
  else admit_now sys op = Ok (sys, [Refused 0 too_large]).
Proof.
  intros Hr Hk. assert (exists r, admit_request hash (length (owners sys)) (queue_bytes config) false op = r) as [r Hadm]
    by by eexists.
  assert (Hadm' := Hadm). unfold admit_request in Hadm'. unfold admits.
  destruct (keys op) as [|k ks] eqn:Hks; [done|]. rewrite <- Hks in *.
  destruct (ok_queue config Hconfig) as (Hcap & Hqb).
  destruct (request_charge op <=? queue_bytes config) eqn:Hc; zhyps.
  2: { rewrite (proj2 (Z.ltb_lt _ _)) in Hadm' by lia. cbn [orb] in Hadm'. rewrite <- Hadm' in Hadm.
    unfold admit_now, submit. by rewrite Hadm. }
  rewrite (proj2 (Z.ltb_ge _ _)), (proj2 (Z.ltb_ge u32_max _)) in Hadm' by lia. cbn [orb] in Hadm'.
  destruct (forallb _ _); rewrite <- Hadm' in Hadm; [by eapply local_ready|by eapply cross_ready].
Qed.

Lemma admit_now_run sys op sys1 h : admit_now sys op = Ok (sys1, h) ->
  exists actions, run hash config sys actions = Ok (sys1, h) /\ run_work config actions <= 2.
Proof.
  unfold admit_now. intros ([sys0 h0] & Hs & Hx)%bind_Ok. destruct h0 as [|x h0].
  - exists [Submit 0 op; Enqueue (length (admitting sys))]. cbn [run fire]. rewrite Hs. cbn [mbind res_bind].
    rewrite Hx. cbn [mbind res_bind app]. by rewrite ?app_nil_r.
  - injection Hx as <- <-. exists [Submit 0 op]. cbn [run fire]. rewrite Hs. cbn [mbind res_bind app]. by rewrite ?app_nil_r.
Qed.

(** Executing one operation: the reply and the effect are those of the table, at
    the present moment, and the engine is quiet again. *)
Lemma execute_now_spec w sys m op : ready w sys m -> keys op <> [] -> w + 1000 < usize_max ->
  exists w' m', w' <= w + 1000 /\ ready w' (execute_now sys op).1 m' /\
    clock (execute_now sys op).1 = clock sys /\
    if admits op then takes_effect m op (clock sys) (execute_now sys op).2 m'
    else (execute_now sys op).2 = too_large /\ m' = m.
Proof.
  intros Hr Hk Hw. assert (Hsub := admit_ready w sys m op Hr Hk). unfold execute_now.
  destruct (admits op); [|rewrite Hsub; exists w, m; split_and!; (done || lia)].
  destruct Hsub as (sys1 & Hsub & Ht1 & Hidle1 & Had1 & Hwork1). rewrite Hsub.
  destruct (admit_now_run _ _ _ _ Hsub) as (admission & Hrun1 & Hrw1).
  assert (Hg := run_good hash config w sys admission m (ready_ok _ _ _ Hr) (ready_sim _ _ _ Hr) ltac:(lia)).
  rewrite Hrun1 in Hg. destruct Hg as (Hs1 & Hlen1 & m1 & Hl1 & Hsim1).
  assert (Hn1 := run_work_nonneg config admission). set (w1 := w + run_work config admission) in *.
  apply linear_none in Hl1 as [-> _]; [|done].
  destruct (follow_runs hash config drain_action (total_work sys1) w1 sys1 m) as
    (sys2 & h & actions & Hx & Hnone & Hrun & Hrw); [|done|done|lia|done|].
  { intros w' sys' a Hs Ha. split_and!; [by eapply drain_enabled|by apply (drain_work sys')|].
    intros sys2 h. by eapply drain_total. }
  fold (drain (total_work sys1) sys1) in Hx. rewrite Hx. cbn [fst snd].
  destruct (drain_timed _ _ _ _ _ Ht1 Hx) as [Ht2 Hh].
  assert (Hn := run_work_nonneg config actions).
  assert (Hg := run_good hash config w1 sys1 actions m Hs1 Hsim1 ltac:(lia)). rewrite Hrun in Hg.
  destruct Hg as (Hs2 & Hlen2 & m2 & Hlin & Hsim2).
  destruct (drain_action_None _ _ Hs2 Hnone) as (Hco & Hcross & Hdata & Hwait & Hun).
  assert (coordinator sys2 = CoIdle) as Hidle2.
  { destruct Hco as [|Hco]; [done|]. destruct Ht2 as (_ & Hst & _). by rewrite Hco in Hst. }
  assert (G0 := run_conserves hash config sys admission). rewrite Hrun1 in G0. destruct G0 as [G0 _].
  rewrite (ready_waiting _ _ _ Hr) in G0. cbn in G0.
  assert (G := run_conserves hash config sys1 actions). rewrite Hrun in G. destruct G as [G1 G2].
  rewrite (at_once_accepted _ _ Hh), Hwait, app_nil_r, <- G0 in G1. cbn in G1.
  symmetry in G1. apply Permutation_singleton_r in G1.
  destruct (linear_single _ _ _ _ _ _ Hlin Hh G1) as (r & Hreply & Heffect).
  unfold unanswered in G2 at 1. rewrite Hidle1, Hun, Hreply in G2. cbn in G2. rewrite app_nil_r in G2.
  symmetry in G2. apply Permutation_singleton_r in G2. rewrite G2.
  exists (w1 + run_work config actions), m2. split_and!; [lia| |by destruct Ht2|done].
  constructor; try done.
  - eapply run_credits; [|done]. eapply run_credits; [|done]. apply Hr.
  - by rewrite (drain_admitting _ _ _ _ Hx).
  - intros i o Ho. assert (i < length (owners sys))%nat as Hi
      by (rewrite <- Hlen1, <- Hlen2; by eapply lookup_lt_Some).
    destruct (lookup_lt_is_Some_2 _ _ Hi) as [o0 Ho0]. rewrite <- (ready_limits _ _ _ Hr i o0 Ho0).
    destruct (run_limits hash config _ _ _ _ i o0 Hrun1 Ho0) as (o1 & Ho1 & <-).
    destruct (run_limits hash config _ _ _ _ i o1 Hrun Ho1) as (o2 & Ho2 & <-). congruence.
  - rewrite Hlen2, Hlen1. apply Hr.
Qed.

(** ** Time *)

Lemma advance_ready w sys m now : ready w sys m -> clock sys <= now <= i64_max ->
  exists sys', fire hash config sys (Advance now) = Ok (sys', []) /\ ready w sys' m /\ clock sys' = now.
Proof.
  intros Hr Hn. assert (Hg := advance_good hash config w sys now (ready_ok _ _ _ Hr)). cbn [fire] in *.
  rewrite (proj2 (Z.leb_le _ _)), (proj2 (Z.leb_le _ _)) in * by lia. cbn [andb] in *.
  destruct Hg as (Hs & _ & Hm). destruct (Hm m (ready_sim _ _ _ Hr)) as (m' & Hl & Hsim).
  apply linear_none in Hl as [-> _]; [|done]. eexists. split; [done|]. split; [|done].
  destruct Hr as [_ _ [C1 C2 C3] R4 R5 R6 R7 R8 R9]. by constructor.
Qed.

(** ** Statistics *)

(** Two engines with the same shards. *)
Definition same_shards sys sys' : Prop :=
  clock sys' = clock sys /\ forall i, shard <$> owners sys' !! i = shard <$> owners sys !! i.

Lemma same_shards_trans sys1 sys2 sys3 : same_shards sys1 sys2 -> same_shards sys2 sys3 -> same_shards sys1 sys3.
Proof. intros [A1 A2] [B1 B2]. split; [congruence|]. intros i. by rewrite B2. Qed.

(** An action of a quiet engine that only changes what an owner owes its queue. *)
Lemma toggle_ready w w' sys m i o b a h : ready w sys m -> owners sys !! i = Some o ->
  let sys' := set_owners sys (<[i := set_data_turn o b]> (owners sys)) in
  fire hash config sys a = Ok (sys', h) -> effective h = [] ->
  w + action_work config a <= w' -> w' <= usize_max ->
  ready w' sys' m /\ same_shards sys sys'.
Proof.
  intros Hr Ho sys' Hx Hh Hw Hw'.
  assert (Hg := fire_good hash config w sys a m (ready_ok _ _ _ Hr) (ready_sim _ _ _ Hr) ltac:(lia)).
  rewrite Hx in Hg. destruct Hg as (Hs & Hlen & m' & Hl & Hsim).
  apply linear_none in Hl as [-> _]; [|done].
  assert (forall j o1, owners sys' !! j = Some o1 -> exists o0, owners sys !! j = Some o0 /\
    shard o1 = shard o0 /\ data o1 = data o0) as Hback.
  { intros j o1. cbn [sys' owners set_owners]. destruct (decide (i = j)) as [<-|Hne].
    - rewrite list_lookup_insert_eq by (by eapply lookup_lt_Some). intros [= <-]. by exists o.
    - rewrite list_lookup_insert_ne by done. intros Hj. by exists o1. }
  split; [constructor|split; [done|]]; try done.
  - by eapply sys_ok_later.
  - by apply (fire_credits hash config sys a _ h (ready_credits _ _ _ Hr)).
  - exact (ready_idle _ _ _ Hr).
  - exact (ready_cross _ _ _ Hr).
  - exact (ready_admitting _ _ _ Hr).
  - intros j o1 (o0 & Hj & _ & ->)%Hback. by eapply ready_data.
  - intros j o1 (o0 & Hj & -> & _)%Hback. by eapply ready_limits.
  - rewrite Hlen. apply Hr.
  - intros j. cbn [sys' owners set_owners]. destruct (decide (i = j)) as [<-|Hne].
    + rewrite list_lookup_insert_eq, Ho by (by eapply lookup_lt_Some). done.
    + by rewrite list_lookup_insert_ne.
Qed.

Lemma sample_ready w sys m i o : ready w sys m -> owners sys !! i = Some o -> turn_pending o = false ->
  w + 1 <= usize_max ->
  exists sys', sample sys i = Ok (sys', [Sampled i (stats (shard o))]) /\
    ready (w + 1) sys' m /\ same_shards sys sys'.
Proof.
  intros Hr Ho Ht Hw. assert (Hi := lookup_lt_Some _ _ _ Ho).
  assert (sample sys i = Ok (set_owners sys (<[i := set_data_turn o true]> (owners sys)),
    [Sampled i (stats (shard o))])) as Hx.
  { unfold sample, contact. rewrite (proj2 (Nat.leb_gt _ _) Hi), Ho. cbn [expect mbind res_bind].
    rewrite Ht, (sys_running _ _ _ (ready_ok _ _ _ Hr) _ _ Ho) by (by rewrite (ready_idle _ _ _ Hr)). done. }
  eexists. split; [exact Hx|]. by apply (toggle_ready w _ _ _ i o true (Sample i) [Sampled i (stats (shard o))]).
Qed.

(** The turn that an owner owes its empty queue. *)
Lemma turn_ready w sys m i o : ready w sys m -> owners sys !! i = Some o -> turn_pending o = true ->
  w + 1 <= usize_max -> let sys' := set_owners sys (<[i := set_data_turn o false]> (owners sys)) in
  fire hash config sys (Act i DataTurn reserve) = Ok (sys', []) /\ ready (w + 1) sys' m /\ same_shards sys sys'.
Proof.
  intros Hr Ho Ht Hw sys'. assert (fire hash config sys (Act i DataTurn reserve) = Ok (sys', [])) as Hx.
  { cbn [fire]. unfold act. rewrite Ho. destruct (lookup_lt_is_Some_2 (owner_credits sys) i) as [av ->].
    { rewrite (sys_credits _ _ _ (ready_ok _ _ _ Hr)). by eapply lookup_lt_Some. }
    cbn [owner_act]. rewrite Ht. unfold serve_data. cbn [data set_data_turn].
    by rewrite (ready_data _ _ _ Hr _ _ Ho). }
  split; [done|]. by apply (toggle_ready w _ _ _ i o false (Act i DataTurn reserve) []).
Qed.

Lemma sample_owners_spec count i w sys m : ready w sys m -> (i + count <= length (owners sys))%nat ->
  w + 2 * Z.of_nat count <= usize_max ->
  exists w' sys' l, w' <= w + 2 * Z.of_nat count /\ sample_owners count i sys = (sys', l) /\
    ready w' sys' m /\ same_shards sys sys' /\ length l = count /\
    forall j s, l !! j = Some s -> exists o, owners sys !! (i + j)%nat = Some o /\ s = stats (shard o).
Proof.
  revert i w sys. induction count as [|count IH]; intros i w sys Hr Hi Hw; cbn [sample_owners].
  { exists w, sys, []. split_and!; (done || lia). }
  destruct (lookup_lt_is_Some_2 (owners sys) i ltac:(lia)) as [o Ho]. rewrite Ho.
  assert (exists sys1 o1, (if turn_pending o
      then match fire hash config sys (Act i DataTurn reserve) with Ok (sys, _) => sys | _ => sys end else sys) = sys1 /\
    ready (w + 1) sys1 m /\ same_shards sys sys1 /\ owners sys1 !! i = Some o1 /\ shard o1 = shard o /\
    turn_pending o1 = false) as (sys1 & o1 & -> & Hr1 & Hsame1 & Ho1 & Hsh & Ht1).
  { destruct (turn_pending o) eqn:Ht.
    - destruct (turn_ready w sys m i o Hr Ho Ht ltac:(lia)) as (-> & Hr1 & Hs1).
      eexists _, _. split; [done|]. split_and!; [done..| | |].
      + cbn [owners set_owners]. by rewrite list_lookup_insert_eq by (by eapply lookup_lt_Some).
      + done.
      + done.
    - exists sys, o. split_and!; try done. destruct Hr. constructor; try done. eapply sys_ok_later; [done|lia]. }
  destruct (sample_ready (w + 1) sys1 m i o1 Hr1 Ho1 Ht1 ltac:(lia)) as (sys2 & -> & Hr2 & Hsame2).
  assert (Hsame := same_shards_trans _ _ _ Hsame1 Hsame2).
  assert (length (owners sys2) = length (owners sys)) as Hlen
    by (by rewrite (ready_owners _ _ _ Hr2), (ready_owners _ _ _ Hr)).
  destruct (IH (S i) (w + 1 + 1) sys2 Hr2 ltac:(lia) ltac:(lia)) as (w' & sys3 & l & Hw' & -> & Hr3 & Hsame3 & Hll & Hl).
  exists w', sys3, (stats (shard o1) :: l). split_and!; [lia|done..| | |].
  - by eapply same_shards_trans.
  - cbn. by rewrite Hll.
  - intros [|j] s Hs.
    + injection Hs as <-. exists o. rewrite Nat.add_0_r, Hsh. done.
    + apply Hl in Hs as (o2 & Ho2 & ->). destruct Hsame as [_ Hsame]. specialize (Hsame (S i + j)%nat).
      rewrite Ho2 in Hsame. cbn in Hsame. symmetry in Hsame. apply fmap_Some in Hsame as (o3 & Ho3 & ->).
      exists o3. by replace (i + S j)%nat with (S i + j)%nat by lia.
Qed.
End Driver.
