(* ===== verification/SystemSample.v ===== *)
(** * A concrete engine

    Two owners, a schedule over them, and the states it reaches.  The states are
    named by evaluation, and their properties are evaluated one at a time. *)

From S2P Require Import Prelude Bytes Protocol Command Expiry Store StoreTheorems Config Engine System.

Local Open Scope Z_scope.

(** Two owners of four keys each, and keys routed by their first byte. *)
Definition sample_config : Config :=
  let c := default_config (Some 4) in
  mkConfig (bind c) 2 (io_threads c) (max_connections c) (queue_capacity c) (queue_bytes c)
    (admission_timeout c) (read_timeout c) (write_timeout c) (expiry_interval c) (expiry_batch c)
    4096 4 (config_reply_bytes c) (protocol c) (commands c) (password c).

Definition sample_hash (k : bytes) : Z := match k with b :: _ => Z.of_N (Byte.to_N b) | [] => 0 end.

Lemma sample_typed : config_typed sample_config.
Proof. split; repeat constructor; vm_compute; congruence. Qed.

(** A write over both owners with a local read in between, then a read of both,
    in progress, two more commands in queues, and one that holds its credits and
    waits for room; another one waited with it, and was given up. *)
Definition sample_actions : list action :=
  [Submit 1 (MultiSet [(bs "a", bs "1"); (bs "b", bs "2")]); Submit 2 (MultiGet [bs "b"]);
   Enqueue 1; Enqueue 0; Submit 3 (MultiGet [bs "b"; bs "a"; bs "c"]); Enqueue 0]
  ++ replicate 7 (Coordinate granted) ++ [Advance 5] ++ replicate 6 (Coordinate granted)
  ++ [Act 0 DataTurn granted; Act 1 DataTurn granted; Act 0 TickBranch granted]
  ++ [Act 0 DataTurn granted] ++ replicate 4 (Coordinate granted)
  ++ [Submit 4 (Delete [bs "b"]); Submit 5 (Delete [bs "a"; bs "b"]); Enqueue 1; Enqueue 0;
      Submit 6 (MultiGet [bs "a"; bs "b"]); Submit 7 (Delete [bs "a"]); AdmissionExpires 1].

(** The value of an evaluation that succeeds. *)
Definition value {E A} (d : A) (r : res E A) : A := match r with Ok a => a | _ => d end.

Lemma value_Ok {E A} (d : A) (r : res E A) : succeeds r = true -> r = Ok (value d r).
Proof. by destruct r. Qed.

(** The engine when it starts. *)
Definition sample_start : system ExpiryIndex :=
  value (start sample_config [] 0) (with_clock granted sample_config 0).

Lemma sample_started : with_clock granted sample_config 0 = Ok sample_start.
Proof. apply value_Ok. vm_compute. reflexivity. Qed.

(** The engine once the first command is done: owner 0 owes its queue a turn. *)
Definition sample_owing : system ExpiryIndex * list occurrence :=
  value (sample_start, []) (run sample_hash sample_config sample_start (take 20 sample_actions)).

(** The engine after all the actions, and what happened. *)
Definition sample_end : system ExpiryIndex * list occurrence :=
  value (sample_start, []) (run sample_hash sample_config sample_start sample_actions).

Lemma sample_run : run sample_hash sample_config sample_start sample_actions
  = Ok (sample_end.1, sample_end.2).
Proof. rewrite <- surjective_pairing. apply value_Ok. vm_compute. reflexivity. Qed.
