(* ===== verification/SystemTheorems.v ===== *)
(** * The engine keeps its promise

    From the start of a validated configuration, whatever the interleaving of
    clients, owners, coordinator and clock: no assertion fails, the operations
    take effect one at a time on one table, no request is lost or answered
    twice, no credit leaks, and the engine always gets done. *)

From S2P Require Import Prelude Bytes Protocol Command Expiry ExpiryTheorems Store StoreSpec StoreLemmas.
From S2P Require Import StoreEffects StoreInvariant StoreTheorems Config Engine EngineSplit System SystemSpec.
From S2P Require Import SystemLocal SystemClients SystemCoordinator SystemConservation SystemOwners.
From S2P Require Import SystemRuns SystemProgress SystemSample.

Local Open Scope Z_scope.

(** ** Linearizability *)

(** C6: Linearizability: whatever clients, owners, coordinator and clock do, from
    the start of a validated configuration, no assertion of the engine ever
    fails (before 2^64 revisions), and every command - over one owner or over
    several, before and during a shutdown - takes effect at one moment on one
    table, with the reply its specification gives there, and never partially. *)
Theorem engine_linearizable hash reserve config now sys actions : config_typed config ->
  with_clock reserve config now = Ok sys -> run_work config actions <= usize_max ->
  match run hash config sys actions with
  | Ok (sys', h) => exists m, linear ∅ h m /\ sim hash sys' m
  | Err _ => True
  | Panic => False
  end.
Proof.
  intros Hty Hstart Hw. destruct (with_clock_good hash _ _ _ _ Hty Hstart) as (Hs & Hsim & _).
  assert (Hg := run_good hash config 0 sys actions ∅ Hs Hsim ltac:(lia)).
  destruct (run _ _ _ _) as [[sys' h]|e|]; [|done..]. by destruct Hg as (_ & _ & ?).
Qed.

Lemma engine_linearizable_witness :
  length sample_end.2 = 10%nat /\ exists m, linear ∅ sample_end.2 m /\ sim sample_hash sample_end.1 m.
Proof.
  split; [vm_compute; reflexivity|].
  assert (G := engine_linearizable sample_hash granted sample_config 0 sample_start sample_actions
    sample_typed sample_started ltac:(vm_compute; discriminate)).
  rewrite sample_run in G. exact G.
Defined.

(** ** Conservation *)

(** C10: No request is lost, duplicated or answered with another reply: at every
    moment, the requests accepted so far are those that took effect, once each,
    and those still waiting; the replies of the effects are those given to their
    clients, once each, and that of the command being applied. *)
Theorem requests_conserved hash reserve config now sys actions sys' h :
  with_clock reserve config now = Ok sys -> run hash config sys actions = Ok (sys', h) ->
  accepted h ≡ₚ effective h ++ waiting sys' /\ effect_replies h ≡ₚ answers h ++ unanswered sys'.
Proof.
  intros Hstart Hrun. assert (G := run_conserves hash config sys actions). rewrite Hrun in G.
  destruct (with_clock_idle _ _ _ _ Hstart) as [E1 E2]. destruct G as [G1 G2].
  rewrite E1, app_nil_r in G1. by rewrite E2, app_nil_r in G2.
Qed.

Lemma requests_conserved_witness :
  length (waiting sample_end.1) = 3%nat /\
  accepted sample_end.2 ≡ₚ effective sample_end.2 ++ waiting sample_end.1.
Proof.
  split; [vm_compute; reflexivity|].
  exact (proj1 (requests_conserved _ _ _ _ _ _ _ _ sample_started sample_run)).
Defined.

(** C14: The byte credits never leak and never go negative: at every moment an
    owner's available credits, those of the requests in its queue and those of
    the requests that have taken theirs and still wait for room in it add up to
    the configured budget, and so do the coordinator's with those of its queue,
    the command in progress and the requests that wait for room in it; so a
    request that is given up at its deadline, or refused because its queue
    closed, has returned its credits, and a queue with the requests that wait for
    it never holds more than its budget. *)
Theorem credits_conserved hash reserve config now sys actions sys' h : config_typed config ->
  with_clock reserve config now = Ok sys -> run hash config sys actions = Ok (sys', h) ->
  (forall i o available, owners sys' !! i = Some o -> owner_credits sys' !! i = Some available ->
     0 <= available /\
     available + total_credit (data o) + total_credit (holding (Some i) (admitting sys'))
       = queue_bytes config) /\
  0 <= cross_credits sys' /\
  cross_credits sys' + total_credit (held (cross sys') (coordinator sys'))
    + total_credit (holding None (admitting sys')) = queue_bytes config.
Proof.
  intros Hty Hstart Hrun. assert (credits_ok config sys') as [_ H1 (H2 & _ & H3)].
  { eapply run_credits; [|done]. by eapply with_clock_credits. }
  rewrite total_credit_app in H3. split_and!; [|done|lia]. intros i o av Ho Hav.
  destruct (H1 i o av Ho Hav) as (? & _ & H4). rewrite total_credit_app in H4. lia.
Qed.

(** A request waits for room with 514 bytes of credit; another one waited, and
    has returned its own. *)
Lemma credits_conserved_witness :
  cross_credits sample_end.1 = 4192633 /\
  total_credit (holding None (admitting sample_end.1)) = 514 /\
  cross_credits sample_end.1 + total_credit (held (cross sample_end.1) (coordinator sample_end.1))
    + total_credit (holding None (admitting sample_end.1)) = queue_bytes sample_config.
Proof.
  split; [vm_compute; reflexivity|]. split; [vm_compute; reflexivity|].
  by apply (credits_conserved _ _ _ _ _ _ _ _ sample_typed sample_started sample_run).
Defined.

(** ** Termination *)

Lemma reachable_ok hash reserve config now sys actions sys' h : config_typed config ->
  with_clock reserve config now = Ok sys -> run hash config sys actions = Ok (sys', h) ->
  run_work config actions <= usize_max ->
  sys_ok hash (run_work config actions) sys' /\ exists m, linear ∅ h m /\ sim hash sys' m.
Proof.
  intros Hty Hstart Hrun Hw. destruct (with_clock_good hash _ _ _ _ Hty Hstart) as (Hs & Hsim & _).
  assert (Hg := run_good hash config 0 sys actions ∅ Hs Hsim ltac:(lia)).
  rewrite Hrun in Hg. by destruct Hg as (? & _ & ?).
Qed.

(** C7: Shutdown loses nothing: from every reachable state, with commands queued
    and one in progress, the shutdown completes within [total_work] actions;
    every owner has then stopped, and everything ever accepted has taken effect
    exactly once on the one table and has been answered with its reply. *)
Theorem shutdown_serves_everything hash reserve0 reserve config now sys actions sys1 h1 :
  config_typed config -> with_clock reserve0 config now = Ok sys ->
  run hash config sys actions = Ok (sys1, h1) ->
  run_work config actions + Z.of_nat (total_work sys1) < usize_max ->
  exists sys2 h2, shutdown hash config reserve (total_work sys1) sys1 = Ok (sys2, h2) /\
    coordinator sys2 = CoStopped /\ Forall (fun o => finished o = true) (owners sys2) /\
    accepted (h1 ++ h2) ≡ₚ effective (h1 ++ h2) /\
    effect_replies (h1 ++ h2) ≡ₚ answers (h1 ++ h2) /\
    exists m, linear ∅ (h1 ++ h2) m /\ sim hash sys2 m.
Proof.
  intros Hty Hstart Hrun Hw. assert (Hn := run_work_nonneg config actions).
  destruct (reachable_ok _ _ _ _ _ _ _ _ Hty Hstart Hrun) as (Hs & m & Hlin & Hsim); [lia|].
  destruct (shutdown_runs hash config reserve _ _ _ _ Hs Hsim Hw (le_n _))
    as (sys2 & h2 & more & Hsd & Hnone & Hmore & Hwork).
  assert (Hg := run_good hash config _ _ more _ Hs Hsim ltac:(lia)). rewrite Hmore in Hg.
  destruct Hg as (Hs2 & _ & m2 & Hlin2 & Hsim2).
  destruct (shutdown_action_None _ _ _ _ Hs2 Hnone) as (Hco & Hfin & Hwait & Hun).
  assert (G1 := run_conserves hash config sys actions). rewrite Hrun in G1.
  assert (G2 := run_conserves hash config sys1 more). rewrite Hmore in G2.
  destruct (with_clock_idle _ _ _ _ Hstart) as [E1 E2].
  destruct G1 as [A1 B1], G2 as [A2 B2].
  exists sys2, h2. split_and!; [done..| | |by exists m2; split; [eapply linear_app|]].
  - assert (G := conserve_trans _ _ _ _ _ _ _ A1 A2). rewrite E1, Hwait, !app_nil_r in G.
    unfold accepted, effective in *. by rewrite !omap_app.
  - assert (G := conserve_trans _ _ _ _ _ _ _ B1 B2). rewrite E2, Hun, !app_nil_r in G.
    unfold effect_replies, answers in *. by rewrite !omap_app.
Qed.

Lemma shutdown_serves_everything_witness :
  total_work sample_end.1 = 47%nat /\ length (waiting sample_end.1) = 3%nat /\
  exists sys2 h2, shutdown sample_hash sample_config granted 47 sample_end.1 = Ok (sys2, h2) /\
    accepted (sample_end.2 ++ h2) ≡ₚ effective (sample_end.2 ++ h2).
Proof.
  assert (total_work sample_end.1 = 47%nat) as Hn by (vm_compute; reflexivity).
  split_and!; [done|vm_compute; reflexivity|].
  assert (Hw : run_work sample_config sample_actions + Z.of_nat (total_work sample_end.1) < usize_max).
  { rewrite Hn. vm_compute. reflexivity. }
  assert (G := shutdown_serves_everything sample_hash granted granted sample_config 0 sample_start
    sample_actions _ _ sample_typed sample_started sample_run Hw).
  rewrite Hn in G. destruct G as (sys2 & h2 & Hsd & _ & _ & Hacc & _).
  exists sys2, h2. split; [exact Hsd|exact Hacc].
Defined.

(** C13: The coordinator cannot be starved or get stuck: in every reachable state
    with a command in progress, either its next action succeeds and leaves fewer
    to do (at most [4 * (owners + 1)] per command), or the one owner it waits
    for owes its queue a turn, takes it, and then no longer holds it up. *)
Theorem coordinator_progress hash reserve0 reserve config now sys actions sys1 h1 :
  config_typed config -> with_clock reserve0 config now = Ok sys ->
  run hash config sys actions = Ok (sys1, h1) -> run_work config actions < usize_max ->
  coordinator sys1 <> CoIdle -> stopped (coordinator sys1) = false ->
  (remaining (coordinator sys1) <= 4 * S (length (owners sys1)))%nat /\
  match blocker sys1 with
  | None => exists sys2 h2, fire hash config sys1 (Coordinate reserve) = Ok (sys2, h2) /\
      (remaining (coordinator sys2) < remaining (coordinator sys1))%nat
  | Some i => exists sys2 h2, fire hash config sys1 (Act i DataTurn reserve) = Ok (sys2, h2) /\
      coordinator sys2 = coordinator sys1 /\ blocker sys2 = None
  end.
Proof.
  intros Hty Hstart Hrun Hw Hc Hst.
  destruct (reachable_ok _ _ _ _ _ _ _ _ Hty Hstart Hrun) as (Hs & m & _ & Hsim); [lia|].
  split; [by eapply remaining_bound|].
  destruct (blocker sys1) as [i|] eqn:Hb.
  - destruct (fire_progress hash config _ _ _ (Act i DataTurn reserve) Hs Hsim)
      as (sys2 & h2 & Hx); [cbn; lia| |].
    { cbn [fire]. by eapply blocker_enabled. }
    exists sys2, h2. split; [done|]. by eapply blocker_gone.
  - destruct (fire_progress hash config _ _ _ (Coordinate reserve) Hs Hsim)
      as (sys2 & h2 & Hx); [cbn; lia| |].
    { by eapply coordinate_enabled. }
    exists sys2, h2. split; [done|]. by eapply coordinate_advances.
Qed.

Lemma coordinator_progress_witness :
  blocker sample_end.1 = None /\
  exists sys2 h2, fire sample_hash sample_config sample_end.1 (Coordinate granted) = Ok (sys2, h2) /\
    (remaining (coordinator sys2) < remaining (coordinator sample_end.1))%nat.
Proof.
  assert (blocker sample_end.1 = None) as Hb by (vm_compute; reflexivity). split; [done|].
  assert (Hr : remaining (coordinator sample_end.1) = 9%nat) by (vm_compute; reflexivity).
  assert (Hst : stopped (coordinator sample_end.1) = false) by (vm_compute; reflexivity).
  assert (Hw : run_work sample_config sample_actions < usize_max) by (vm_compute; reflexivity).
  assert (Hc : coordinator sample_end.1 <> CoIdle) by exact (fun E => O_S 8 (eq_trans (eq_sym (f_equal remaining E)) Hr)).
  assert (G := coordinator_progress sample_hash granted granted sample_config 0 sample_start
    sample_actions _ _ sample_typed sample_started sample_run Hw Hc Hst).
  rewrite Hb in G. exact (proj2 G).
Defined.

(** ** Owners *)

(** C15: An owner reserved by the coordinator is left alone by everybody else, and
    an owner that owes its queue a turn gives it before any control message or
    sweep: until then its shard, its first request and the turn stay, and the
    action that ends this answers that request, so that a stream of coordinated
    commands cannot starve queued local work. *)
Theorem owners_are_fair hash config (sys : system ExpiryIndex) a sys' h i o :
  fire hash config sys a = Ok (sys', h) -> owners sys !! i = Some o ->
  exists o', owners sys' !! i = Some o' /\
    (is_Some (reservation o) -> (forall reserve, a <> Coordinate reserve) ->
       shard o' = shard o /\ reservation o' = reservation o) /\
    (forall req rest, turn_pending o = true -> data o = req :: rest ->
       (turn_pending o' = true /\ shard o' = shard o /\ exists more, data o' = req :: more) \/
       (exists reserve r, a = Act i DataTurn reserve /\ Answered (client req) r ∈ h)).
Proof.
  intros Hx Ho. destruct (fire_owner _ _ _ _ _ _ _ _ Hx Ho) as (o' & Ho' & Hstep).
  exists o'. split; [done|]. destruct Hstep as [l|b reserve served o' Hact -> Hh|reserve o' -> Ht _|Ht|o' Ht Hr _].
  - split; [done|]. intros req rest Ht Hq. left. split_and!; [done|done|].
    cbn. rewrite Hq. by eexists.
  - split; [rewrite (owner_act_unreserved _ _ _ _ _ _ _ Hact); by intros [? ?]|].
    intros req rest Ht Hq. eapply owner_act_turn in Hact as (-> & r & E); [|done..].
    right. exists reserve, r. split; [done|]. by apply Hh.
  - split; [by intros _ Hne; exfalso; eapply Hne|]. intros req rest Ht'. congruence.
  - split; [done|]. intros req rest Ht'. congruence.
  - split; [by rewrite Hr; intros [? ?]|]. intros req rest Ht'. congruence.
Qed.

Lemma owners_are_fair_witness :
  (turn_pending <$> owners sample_owing.1 !! 0%nat) = Some true /\
  (length ∘ data <$> owners sample_owing.1 !! 0%nat) = Some 1%nat /\
  exists o sys' h, owners sample_owing.1 !! 0%nat = Some o /\
    fire sample_hash sample_config sample_owing.1 (Act 0 DataTurn granted) = Ok (sys', h) /\
    exists o', owners sys' !! 0%nat = Some o' /\
      forall req rest, turn_pending o = true -> data o = req :: rest ->
        (turn_pending o' = true /\ shard o' = shard o /\ exists more, data o' = req :: more) \/
        (exists reserve r, Act 0 DataTurn granted = Act 0 DataTurn reserve /\ Answered (client req) r ∈ h).
Proof.
  split; [vm_compute; reflexivity|]. split; [vm_compute; reflexivity|].
  destruct (owners sample_owing.1 !! 0%nat) as [o|] eqn:Ho.
  2: { assert (Hl : length (owners sample_owing.1) = 2%nat) by (vm_compute; reflexivity).
       apply lookup_ge_None in Ho. rewrite Hl in Ho. lia. }
  assert (Hx := value_Ok (sample_owing.1, [])
    (fire sample_hash sample_config sample_owing.1 (Act 0 DataTurn granted)) ltac:(vm_compute; reflexivity)).
  destruct (value _ _) as [sys' h]. exists o, sys', h. split; [reflexivity|]. split; [exact Hx|].
  destruct (owners_are_fair sample_hash sample_config _ _ sys' h 0 o Hx Ho) as (o' & Ho' & _ & Hd).
  exists o'. split; [exact Ho'|exact Hd].
Defined.

(** ** Splitting and combining *)

(** C12: Splitting and combining is the whole command: the parts of a command over
    several owners go to distinct owners in increasing order, and executing each
    on its own owner's entries alone and combining the replies gives the reply
    that the whole command gives on the union, and the same entries. *)
Theorem split_combine_correct hash n op m now : is_multi op = true -> (0 < n)%nat ->
  zlen (keys op) <= i64_max ->
  let owned i := filter (fun kv => route hash n kv.1 = i) m : table in
  exists parts results reply m',
    split hash n op = Some parts /\
    Sorted.StronglySorted lt (part_owner <$> parts) /\
    Forall2 (fun p r => (part_owner p < n)%nat /\ exists m1,
      spec_exec (owned (part_owner p)) (part_operation p) now = Ok (r, m1) /\
      forall k, route hash n k = part_owner p -> m' !! k = m1 !! k) parts results /\
    combine op parts results = Some reply /\ spec_exec m op now = Ok (reply, m').
Proof.
  intros Hm Hn Hlen owned. destruct (split_spec hash n op Hm) as (parts & Hsplit & Hsp).
  destruct (parts_execute hash n m now op parts Hsp) as (results & Hparts).
  destruct (combine_spec hash n m now op parts results Hm Hsp Hlen Hparts)
    as (reply & m' & Hcomb & Hspec & Hag).
  exists parts, results, reply, m'. split_and!; [done|by eapply split_sorted| |done|done].
  apply Forall2_same_length_lookup_2; [by eapply Forall2_length|].
  intros j p r Hp Hr. destruct (Forall2_lookup_lr _ _ _ _ _ _ Hparts Hp Hr) as (m2 & Hm2).
  apply list_elem_of_lookup_2 in Hp. split; [by eapply split_owner_lt|].
  apply (part_alone _ _ m now op parts p r m2 reply m'); try done. by apply (Hag p r).
Qed.

Lemma split_combine_correct_witness :
  let m : table := <[bs "a" := mkEntry (bs "1") None]> (<[bs "b" := mkEntry (bs "2") None]> ∅) in
  let op := MultiGet [bs "b"; bs "a"; bs "c"; bs "b"] in
  fst <$> spec_exec m op 0
    = Ok (Array [Bulk (Some (bs "2")); Bulk (Some (bs "1")); Bulk None; Bulk (Some (bs "2"))]) /\
  exists parts results reply, split sample_hash 2 op = Some parts /\ length parts = 2%nat /\
    combine op parts results = Some reply.
Proof.
  intros m op. split; [vm_compute; reflexivity|].
  destruct (split_combine_correct sample_hash 2 op m 0 eq_refl ltac:(lia) ltac:(vm_compute; discriminate))
    as (parts & results & reply & m' & Hs & _ & _ & Hc & _).
  exists parts, results, reply. split; [exact Hs|]. split; [|exact Hc].
  vm_compute in Hs. injection Hs as <-. reflexivity.
Defined.

(** ** Admission *)

(** Admission routes to the owner of all the keys, or to the coordinator
    exactly when they have several owners, and only a command that can be split;
    it charges at most the queue's budget, which fits the semaphore's 32 bits,
    and at least the payload; it refuses commands that are too large, have no
    key, or come after the close. *)
Theorem admission_routes hash n queue closing op :
  match admit_request hash n queue closing op with
  | Refuse reply => closing = true \/ keys op = [] \/ queue < request_charge op \/
      u32_max < request_charge op
  | AdmitLocal i charge => closing = false /\ keys op <> [] /\
      (forall k, k ∈ keys op -> route hash n k = i) /\
      charge <= queue /\ charge <= u32_max /\
      charge = payload_bytes op + 128 * zlen (keys op) + 256
  | AdmitCross charge => closing = false /\ is_multi op = true /\
      (exists k k', k ∈ keys op /\ k' ∈ keys op /\ route hash n k <> route hash n k') /\
      charge <= queue /\ charge <= u32_max /\
      charge = payload_bytes op + 128 * zlen (keys op) + 256
  end.
Proof.
  unfold admit_request. destruct closing; [by left|]. destruct (keys op) as [|k0 ks] eqn:Hks; [by right; left|].
  destruct (_ || _) eqn:Hc.
  { apply orb_true_iff in Hc as [Hc|Hc]; zhyps; right; right; [by left|by right]. }
  zhyps. rewrite <- Hks.
  assert (request_charge op = payload_bytes op + 128 * zlen (keys op) + 256) as Hcharge
    by by apply request_charge_exact.
  destruct (forallb _ _) eqn:Hf.
  - split_and!; try done; [by rewrite Hks|]. by apply forallb_route.
  - split_and!; try done.
    + destruct op; try done; cbn in Hks; injection Hks as <- <-; simpl in Hf; by rewrite Nat.eqb_refl in Hf.
    + apply forallb_false in Hf as (k & Hk & Hne). exists k, k0. split_and!; [done|rewrite Hks; constructor|].
      by apply Nat.eqb_neq.
Qed.
