(* ===== verification/Session.v ===== *)
(** * Client sessions ([recall-server/src/session.rs])

    A session executes one parsed command at a time: authentication, the
    connection's own metadata, and the commands it hands to the engine, which
    is any implementation of [EngineApi].  The constant-time comparison of the
    [subtle] crate is a parameter. *)

From S2P Require Import Prelude Bytes Protocol Command Store Config.

Local Open Scope Z_scope.

(** ** The engine as the session uses it *)

(** [EngineHandle]'s operations, in the order a connection awaits them. *)
Class EngineApi (E : Type) := {
  engine_execute : E -> Operation -> E * Reply;
  engine_stats : E -> E * list ShardStats;
  engine_worker_count : E -> Z;
}.

(** [Metrics] of the server: counters that wrap around. *)
Record Metrics := mkMetrics {
  active_connections : Z;
  total_connections : Z;
  rejected_connections : Z;
  total_commands : Z;
  protocol_errors : Z;
  io_timeouts : Z;
}.

Definition default_metrics : Metrics := mkMetrics 0 0 0 0 0 0.

(** ** Sessions *)

Record Session := mkSession {
  session_id : Z;
  authenticated : bool;
  client_name : option bytes;
  library_name : option bytes;
  library_version : option bytes;
}.

Definition new_session (id : Z) (c : Config) : Session :=
  mkSession id (match password c with None => true | Some _ => false end) None None None.

Definition set_authenticated (s : Session) : Session :=
  mkSession (session_id s) true (client_name s) (library_name s) (library_version s).

Definition set_name (s : Session) (n : option bytes) : Session :=
  mkSession (session_id s) (authenticated s) n (library_name s) (library_version s).

Definition set_library_name (s : Session) (n : option bytes) : Session :=
  mkSession (session_id s) (authenticated s) (client_name s) n (library_version s).

Definition set_library_version (s : Session) (n : option bytes) : Session :=
  mkSession (session_id s) (authenticated s) (client_name s) (library_name s) n.

Definition nonempty (value : bytes) : option bytes :=
  match value with [] => None | _ => Some value end.

(** [u64 as i64]. *)
Definition as_i64 (n : Z) : Z := if n <=? i64_max then n else n - 2 ^ 64.

(** The version in the workspace's [Cargo.toml]. *)
Definition package_version : bytes := bs "0.1.0".

Definition hello_reply (s : Session) : Reply :=
  Array [
    reply_bulk (bs "server"); reply_bulk (bs "recall");
    reply_bulk (bs "version"); reply_bulk package_version;
    reply_bulk (bs "proto"); Integer 2;
    reply_bulk (bs "id"); Integer (as_i64 (session_id s));
    reply_bulk (bs "mode"); reply_bulk (bs "standalone");
    reply_bulk (bs "role"); reply_bulk (bs "master");
    reply_bulk (bs "modules"); Array []].

Definition noauth : Reply := reply_error "NOAUTH Authentication required.".

Section Sessions.
Context (ct_eq : bytes -> bytes -> bool).

Definition authenticate (c : Config) (username : option bytes) (supplied : bytes) : () + Reply :=
  match password c with
  | None => inr (reply_error "ERR AUTH called without any password configured for the default user.")
  | Some expected =>
      let password_matches := ct_eq expected supplied in
      let user_matches :=
        match username with None => true | Some name => bool_decide (name = bs "default") end in
      if password_matches && user_matches then inl tt
      else inr (reply_error "WRONGPASS invalid username-password pair or user is disabled.")
  end.

(** ** INFO *)

Definition info_line (text : string) : bytes := bs text ++ CRLF.

Definition info_field (name : string) (n : Z) : bytes := bs name ++ dec n ++ CRLF.

(** The sum of a statistic, a [usize]; [None] is an overflow, which a build with
    overflow checks panics on. *)
Definition sum_usize (ns : list Z) : option Z :=
  foldl (fun sum n => sum ← sum; checked_usize (sum + n)) (Some 0) ns.

Definition owner_line (index : nat) (o : ShardStats) : bytes :=
  bs "owner_" ++ dec (Z.of_nat index) ++ bs ":keys=" ++ dec (stats_keys o)
    ++ bs ",payload_bytes=" ++ dec (stats_payload_bytes o)
    ++ bs ",key_limit=" ++ dec (stats_max_keys o)
    ++ bs ",payload_limit=" ++ dec (stats_max_payload_bytes o)
    ++ bs ",active_expired=" ++ dec (stats_expired_keys o)
    ++ bs ",applied=" ++ dec (stats_applied_commands o) ++ CRLF.

(** [include]. *)
Definition info_include (section : option bytes) (name : string) : bool :=
  match section with
  | None => true
  | Some value =>
      eq_ignore_ascii_case value (bs "all") || eq_ignore_ascii_case value (bs "default")
        || eq_ignore_ascii_case value (bs name)
  end.

Definition info_memory (stats : list ShardStats) : option bytes :=
  payload ← sum_usize (stats_payload_bytes <$> stats);
  keys ← sum_usize (stats_keys <$> stats);
  expiring ← sum_usize (stats_expiring_keys <$> stats);
  Some (info_line "# Memory" ++ info_line "accounting:live-key-value-payload-only"
    ++ info_field "payload_bytes:" payload
    ++ info_line "allocated_metadata_model:preallocated-per-owner"
    ++ info_field "physical_keys:" keys ++ info_field "expiring_keys:" expiring
    ++ concat (imap owner_line stats)).

Context {E : Type} `{EngineApi E}.

(** [info]; [None] is an arithmetic overflow. *)
Definition info (section : option bytes) (engine : E) (m : Metrics) : option (E * Reply) :=
  let server :=
    if info_include section "server" then
      info_line "# Server" ++ info_line "server_name:recall"
        ++ bs "recall_version:" ++ package_version ++ CRLF
        ++ info_line "mode:standalone" ++ info_line "persistence:memory-only"
        ++ info_field "engine_workers:" (engine_worker_count engine)
    else [] in
  let clients :=
    if info_include section "clients" then
      info_line "# Clients" ++ info_field "connected_clients:" (active_connections m)
    else [] in
  let counters :=
    if info_include section "stats" then
      info_line "# Stats" ++ info_field "total_connections_received:" (total_connections m)
        ++ info_field "total_commands_processed:" (total_commands m)
        ++ info_field "rejected_connections:" (rejected_connections m)
        ++ info_field "protocol_errors:" (protocol_errors m)
        ++ info_field "io_timeouts:" (io_timeouts m)
    else [] in
  '(engine, memory) ←
    (if info_include section "memory" then
       let '(engine, stats) := engine_stats engine in
       memory ← info_memory stats; Some (engine, memory)
     else Some (engine, []));
  Some (engine, reply_bulk (server ++ clients ++ counters ++ memory)).

(** ** Commands *)

(** The commands that need an authenticated session. *)
Definition run_command (s : Session) (command : Command) (engine : E) (m : Metrics) :
    option (Session * E * (Reply * bool)) :=
  match command with
  | Data op => let '(engine, reply) := engine_execute engine op in Some (s, engine, (reply, false))
  | Ping None => Some (s, engine, (Simple (bs "PONG"), false))
  | Ping (Some value) | Echo value => Some (s, engine, (reply_bulk value, false))
  | Quit => Some (s, engine, (reply_ok, true))
  | Select db =>
      Some (s, engine,
        ((if db =? 0 then reply_ok else reply_error "ERR DB index is out of range"), false))
  | Client GetName => Some (s, engine, (Bulk (client_name s), false))
  | Client (SetName name) => Some (set_name s (nonempty name), engine, (reply_ok, false))
  | Client (SetInfo is_library_name value) =>
      Some (if is_library_name then set_library_name s (nonempty value)
            else set_library_version s (nonempty value), engine, (reply_ok, false))
  | Metadata c => Some (s, engine, (metadata c, false))
  | Info section => '(engine, reply) ← info section engine m; Some (s, engine, (reply, false))
  | Auth _ _ | Hello _ _ _ => None
  end.

(** [Session::execute]: the session, the engine, the reply and whether the
    connection closes; [None] is a panic. *)
Definition session_execute (s : Session) (command : Command) (engine : E) (c : Config) (m : Metrics) :
    option (Session * E * (Reply * bool)) :=
  match command with
  | Auth username supplied =>
      match authenticate c username supplied with
      | inl _ => Some (set_authenticated s, engine, (reply_ok, false))
      | inr reply => Some (s, engine, (reply, false))
      end
  | Hello protocol auth name =>
      if match protocol with Some version => negb (version =? 2) | None => false end
      then Some (s, engine, (reply_error "NOPROTO unsupported protocol version", false))
      else
        let '(s, refused) :=
          match auth with
          | None => (s, None)
          | Some (username, supplied) =>
              match authenticate c (Some username) supplied with
              | inl _ => (set_authenticated s, None)
              | inr reply => (s, Some reply)
              end
          end in
        match refused with
        | Some reply => Some (s, engine, (reply, false))
        | None =>
            if negb (authenticated s) then Some (s, engine, (noauth, false))
            else
              let s := match name with Some name => set_name s (nonempty name) | None => s end in
              Some (s, engine, (hello_reply s, false))
        end
  | _ =>
      if negb (authenticated s) then Some (s, engine, (noauth, false))
      else run_command s command engine m
  end.
End Sessions.
