(* ===== verification/EngineContract.v ===== *)
(** * What a connection relies on of the engine

    [EngineLaws]: the engine represents a table, and each of its calls takes
    effect on it at the next reading of the clock.  [SystemEngine] discharges
    the contract for the engine of owners and coordinator. *)

From S2P Require Import Prelude Bytes Protocol Command Expiry Store StoreSpec Config SystemSpec Session.

Local Open Scope Z_scope.

Definition too_large : Reply := reply_error "BUSY command exceeds queue byte capacity".

(** The engine [represents] a table for as many calls as it has readings of the
    clock ahead; an operation that is too large is refused. *)
Class EngineLaws (E : Type) `{EngineApi E} := {
  admits : Operation -> bool;
  represents : E -> table -> list Z -> Prop;
  execute_law (e : E) m now times op : keys op <> [] -> represents e m (now :: times) ->
    exists m', represents (engine_execute e op).1 m' times /\
      if admits op then takes_effect m op now (engine_execute e op).2 m'
      else (engine_execute e op).2 = too_large /\ m' = m;
  stats_law (e : E) m now times : represents e m (now :: times) ->
    is_Some (info_memory (engine_stats e).2) /\ represents (engine_stats e).1 m times;
}.

(** All that the connections themselves need: an engine that can take [n] more
    calls returns from each of them, with statistics that add up. *)
Class EngineService (E : Type) `{EngineApi E} := {
  serving : nat -> E -> Prop;
  serving_less n n' (e : E) : serving n e -> (n' <= n)%nat -> serving n' e;
  serving_execute n (e : E) op : keys op <> [] -> serving (S n) e -> serving n (engine_execute e op).1;
  serving_stats n (e : E) : serving (S n) e ->
    is_Some (info_memory (engine_stats e).2) /\ serving n (engine_stats e).1;
}.

Section Serving.
Context {E : Type} `{Laws : EngineLaws E}.
Implicit Types (e : E).

(** An engine that represents a table serves as many calls as it has readings of
    the clock ahead. *)
Definition table_serving (n : nat) e : Prop := exists m times, represents e m times /\ (n <= length times)%nat.

Lemma table_serving_less n n' e : table_serving n e -> (n' <= n)%nat -> table_serving n' e.
Proof. intros (m & times & Hr & Hn) Hle. exists m, times. split; [done|lia]. Qed.

Lemma table_serving_execute n e op : keys op <> [] -> table_serving (S n) e ->
  table_serving n (engine_execute e op).1.
Proof.
  intros Hk (m & [|now times] & Hr & Hn); cbn in Hn; [lia|].
  destruct (execute_law e m now times op Hk Hr) as (m' & Hr' & _). exists m', times. split; [done|lia].
Qed.

Lemma table_serving_stats n e : table_serving (S n) e ->
  is_Some (info_memory (engine_stats e).2) /\ table_serving n (engine_stats e).1.
Proof.
  intros (m & [|now times] & Hr & Hn); cbn in Hn; [lia|].
  destruct (stats_law e m now times Hr) as [Hs Hr']. split; [done|]. exists m, times. split; [done|lia].
Qed.

#[export] Instance laws_service : EngineService E := {|
  serving := table_serving;
  serving_less := table_serving_less;
  serving_execute := table_serving_execute;
  serving_stats := table_serving_stats;
|}.
End Serving.

(** Operations executed one after the other on a table, one at each reading of
    the clock; those that [admits] refuses change nothing. *)
Inductive table_run (admits : Operation -> bool) :
    table -> list Operation -> list Z -> list Reply -> table -> Prop :=
| table_run_nil m times : table_run admits m [] times [] m
| table_run_cons m op ops now times reply m1 replies m2 :
    (if admits op then takes_effect m op now reply m1 else reply = too_large /\ m1 = m) ->
    table_run admits m1 ops times replies m2 ->
    table_run admits m (op :: ops) (now :: times) (reply :: replies) m2.
