(* ===== verification/SystemEngine.v ===== *)
(** * The engine of owners and coordinator keeps the contract

    [engine] is a system with the readings of the clock ahead of it; its calls
    are those of a client that waits for its reply ([SystemDriver]).  The
    statistics fit because the owners keep the limits they started with. *)

From S2P Require Import Prelude Bytes Protocol Command Expiry ExpiryTheorems Store StoreSpec StoreLemmas StoreInvariant.
From S2P Require Import StoreTheorems Config Engine System SystemSpec SystemConservation SystemRuns SystemDriver.
From S2P Require Import Session EngineContract.

Local Open Scope Z_scope.

Record engine := mkEngine { engine_system : system ExpiryIndex; readings : list Z }.

Section SystemEngine.
Context (hash : bytes -> Z) (config : Config) (reserve : allocator).

(** The clock's next reading. *)
Definition tick (e : engine) : engine :=
  match readings e with
  | [] => e
  | now :: times =>
      match fire hash config (engine_system e) (Advance now) with
      | Ok (sys, _) => mkEngine sys times
      | _ => mkEngine (engine_system e) times
      end
  end.

Definition system_execute (e : engine) (op : Operation) : engine * Reply :=
  let e := tick e in
  let '(sys, reply) := execute_now hash config reserve (engine_system e) op in
  (mkEngine sys (readings e), reply).

Definition system_stats (e : engine) : engine * list ShardStats :=
  let e := tick e in
  let '(sys, stats) := sample_owners hash config reserve (length (owners (engine_system e))) 0 (engine_system e) in
  (mkEngine sys (readings e), stats).

#[local] Instance system_api : EngineApi engine := {|
  engine_execute := system_execute;
  engine_stats := system_stats;
  engine_worker_count e := Z.of_nat (length (owners (engine_system e)));
|}.

(** Readings that do not go back, within an [i64]. *)
Fixpoint ascending (from : Z) (times : list Z) : Prop :=
  match times with
  | [] => True
  | now :: times => from <= now <= i64_max /\ ascending now times
  end.

Definition holds (e : engine) (m : table) (times : list Z) : Prop :=
  readings e = times /\ ascending (clock (engine_system e)) times /\
  exists w, ready hash config w (engine_system e) m /\ w + 1000 * Z.of_nat (length times) < usize_max.

Lemma tick_holds e m now times : holds e m (now :: times) ->
  readings (tick e) = times /\ ascending now times /\ clock (engine_system (tick e)) = now /\
  exists w, ready hash config w (engine_system (tick e)) m /\
    w + 1000 + 1000 * Z.of_nat (length times) < usize_max.
Proof.
  intros (Hread & [Hnow Hasc] & w & Hr & Hw).
  destruct (advance_ready hash config w _ m now Hr Hnow) as (sys & Hx & Hr' & Hclock).
  unfold tick. rewrite Hread, Hx. split_and!; [done..|]. exists w. split; [done|]. cbn [length] in Hw. lia.
Qed.

(** ** Statistics that add up *)

Lemma sum_usize_from sum ns : Forall (fun n => 0 <= n) ns -> 0 <= sum ->
  sum + foldr Z.add 0 ns <= usize_max ->
  foldl (fun sum n => sum ← sum; checked_usize (sum + n)) (Some sum) ns = Some (sum + foldr Z.add 0 ns).
Proof.
  intros Hns. revert sum. induction Hns as [|n ns Hn Hns IH]; intros sum Hs Hmax; cbn [foldl foldr] in *.
  { f_equal. lia. }
  assert (0 <= foldr Z.add 0 ns) by (clear -Hns; induction Hns; cbn; lia).
  cbn [mbind option_bind]. rewrite (proj2 (checked_usize_Some _ (sum + n))) by (split; [done|lia]).
  rewrite IH by lia. f_equal. lia.
Qed.

Lemma sum_usize_fits ns : Forall (fun n => 0 <= n) ns -> foldr Z.add 0 ns <= usize_max -> is_Some (sum_usize ns).
Proof. intros Hns Hmax. unfold sum_usize. rewrite sum_usize_from by (done || lia). by eexists. Qed.

Lemma sum_below (ns ms : list Z) : Forall2 (fun n m => 0 <= n <= m) ns ms ->
  Forall (fun n => 0 <= n) ns /\ foldr Z.add 0 ns <= foldr Z.add 0 ms.
Proof.
  induction 1 as [|n m ns ms Hn _ [IH1 IH2]]; cbn; [split; [constructor|lia]|].
  split; [constructor; [lia|done]|lia].
Qed.

Lemma sum_replicate n k : foldr Z.add 0 (replicate n k) = Z.of_nat n * k.
Proof. induction n as [|n IH]; cbn [replicate foldr]; lia. Qed.

(** A statistic that is bounded for each owner. *)
Lemma statistic_fits (f : ShardStats -> Z) (bounds : list Z) (l : list ShardStats) :
  length l = length bounds ->
  (forall j s b, l !! j = Some s -> bounds !! j = Some b -> 0 <= f s <= b) ->
  foldr Z.add 0 bounds <= usize_max -> is_Some (sum_usize (f <$> l)).
Proof.
  intros Hlen Hb Hmax. assert (Forall2 (fun n m => 0 <= n <= m) (f <$> l) bounds) as Hf.
  { apply Forall2_same_length_lookup_2; [by rewrite length_fmap|].
    intros j n b Hn Hbd. apply list_lookup_fmap_Some in Hn as (s & -> & Hs). by apply (Hb j). }
  apply sum_below in Hf as [H1 H2]. apply sum_usize_fits; [done|lia].
Qed.

Lemma size_deadlines m : (size (deadlines m) <= size m)%nat.
Proof. rewrite <- !size_dom. apply subseteq_size, dom_omap_subseteq. Qed.

(** The statistics of owner [j] are within its limits. *)
Definition stat_fits (j : nat) (s : ShardStats) : Prop :=
  0 <= stats_payload_bytes s <= max_payload_bytes (shard_limits config (Z.of_nat j)) /\
  0 <= stats_keys s <= 1048576 /\ 0 <= stats_expiring_keys s <= 1048576.

Lemma shard_stat_fits (s : Shard ExpiryIndex) j : config_ok config -> shard_ok s ->
  limits s = shard_limits config (Z.of_nat j) -> stat_fits j (stats s).
Proof.
  intros Hc Hok Hlim. destruct (ok_keys config Hc).
  destruct (ok_budget _ Hok) as [Hk Hp]. rewrite Hlim in Hk, Hp. unfold stat_fits.
  cbn [stats stats_payload_bytes stats_keys stats_expiring_keys].
  assert (Ht := timer_len_spec _ (ok_index _ Hok)). rewrite (ok_timers _ Hok) in Ht. rewrite Ht.
  assert (Hd := size_deadlines (entries s)). rewrite (ok_payload _ Hok).
  assert (Hnn := total_nonneg (entries s)). cbn [max_keys shard_limits] in Hk. lia.
Qed.

Lemma stats_add_up l : config_ok config -> Z.of_nat (length l) = workers config ->
  (forall j s, l !! j = Some s -> stat_fits j s) -> is_Some (info_memory l).
Proof.
  intros Hc Hlen Hs. destruct (ok_workers config Hc), (ok_payload_bytes config Hc).
  assert (forall f : ShardStats -> Z, (forall j s, l !! j = Some s -> 0 <= f s <= 1048576) ->
    is_Some (sum_usize (f <$> l))) as Hcount.
  { intros f Hf. apply (statistic_fits f (replicate (length l) 1048576)).
    - by rewrite length_replicate.
    - intros j s b Hj Hb. apply lookup_replicate in Hb as [-> _]. by apply (Hf j).
    - rewrite sum_replicate. int_lia. }
  unfold info_memory.
  destruct (statistic_fits stats_payload_bytes
    ((fun i => max_payload_bytes (shard_limits config (Z.of_nat i))) <$> seq 0 (Z.to_nat (workers config))) l) as [payload ->].
  - rewrite length_fmap, length_seq. lia.
  - intros j s b Hj Hb. apply list_lookup_fmap_Some in Hb as (i & -> & Hi). apply lookup_seq in Hi as [-> _].
    by apply Hs.
  - rewrite (proj1 (shard_limits_apportion config ltac:(lia) ltac:(lia))). lia.
  - destruct (Hcount stats_keys) as [ks ->]; [intros j s Hj; by apply (Hs j)|].
    destruct (Hcount stats_expiring_keys) as [ex ->]; [intros j s Hj; by apply (Hs j)|]. by eexists.
Qed.

Lemma stats_fit w sys m (l : list ShardStats) : config_ok config -> ready hash config w sys m ->
  length l = length (owners sys) ->
  (forall j s, l !! j = Some s -> exists o, owners sys !! j = Some o /\ s = stats (shard o)) ->
  is_Some (info_memory l).
Proof.
  intros Hc Hr Hlen Hl. assert (Hn := ready_owners _ _ _ _ _ Hr). destruct (ok_workers config Hc).
  apply stats_add_up; [done|lia|]. intros j s (o & Ho & ->)%Hl.
  apply shard_stat_fits; [done| |by apply (ready_limits _ _ _ _ _ Hr)].
  exact (owner_shard_ok _ _ _ _ _ (sys_owners _ _ _ (ready_ok _ _ _ _ _ Hr) _ _ Ho)).
Qed.

(** ** The contract *)

Context (Hconfig : config_ok config).

Lemma system_execute_law e m now times op : keys op <> [] -> holds e m (now :: times) ->
  exists m', holds (system_execute e op).1 m' times /\
    if SystemDriver.admits config op then takes_effect m op now (system_execute e op).2 m'
    else (system_execute e op).2 = too_large /\ m' = m.
Proof.
  intros Hk He. destruct (tick_holds e m now times He) as (Hread & Hasc & Hclock & w & Hr & Hw).
  destruct (execute_now_spec hash config reserve Hconfig w (engine_system (tick e)) m op Hr Hk ltac:(lia))
    as (w' & m' & Hw' & Hr' & Hc' & Hstep).
  unfold system_execute. destruct (execute_now _ _ _ _ _) as [sys reply]. cbn [fst snd] in *. exists m'. split.
  - split_and!; [done|cbn [engine_system]; by rewrite Hc', Hclock|]. exists w'. split; [done|lia].
  - rewrite <- Hclock. exact Hstep.
Qed.

Lemma system_stats_law e m now times : holds e m (now :: times) ->
  is_Some (info_memory (system_stats e).2) /\ holds (system_stats e).1 m times.
Proof.
  intros He. destruct (tick_holds e m now times He) as (Hread & Hasc & Hclock & w & Hr & Hw).
  assert (Hlen := ready_owners_bound hash config Hconfig _ _ _ Hr).
  destruct (sample_owners_spec hash config reserve (length (owners (engine_system (tick e)))) 0 w
    (engine_system (tick e)) m Hr ltac:(lia) ltac:(lia)) as (w' & sys & l & Hw' & Hx & Hr' & [Hc' _] & Hll & Hl).
  unfold system_stats. rewrite Hx. cbn [fst snd]. split.
  - by apply (stats_fit w (engine_system (tick e)) m).
  - split_and!; [done|cbn [engine_system]; by rewrite Hc', Hclock|]. exists w'. split; [done|lia].
Qed.

Definition system_laws : EngineLaws engine := {|
  admits := SystemDriver.admits config;
  represents := holds;
  execute_law := system_execute_law;
  stats_law := system_stats_law;
|}.

Lemma start_shards_limits first count shards i s : start_shards reserve config first count = Ok shards ->
  shards !! i = Some s -> limits s = shard_limits config (Z.of_nat (first + i)).
Proof.
  revert first shards i. induction count as [|count IH]; intros first shards i Hx Hs; cbn in Hx.
  { by injection Hx as <-. }
  apply bind_Ok in Hx as (s0 & H0 & Hx). apply bind_Ok in Hx as (rest & Hrest & [= <-]).
  destruct i as [|i]; [injection Hs as <-|].
  - unfold new_shard in H0. destruct (bad_limits _); [done|]. destruct (negb _); [done|].
    apply bind_Ok in H0 as (x & _ & [= <-]). cbn [limits]. by rewrite Nat.add_0_r.
  - rewrite (IH _ _ _ Hrest Hs). f_equal. lia.
Qed.

(** The engine when it starts represents the empty table. *)
Lemma start_holds now times sys : config_typed config -> with_clock reserve config now = Ok sys ->
  ascending now times -> 1000 * Z.of_nat (length times) < usize_max ->
  holds (mkEngine sys times) ∅ times.
Proof.
  intros Hty Hstart Hasc Hlen. destruct (with_clock_good hash _ _ _ _ Hty Hstart) as (Hs & Hsim & Hl).
  assert (Hcr := with_clock_credits _ _ _ _ Hty Hstart). unfold with_clock in Hstart.
  apply bind_Ok in Hstart as ([] & _ & Hstart). apply bind_Ok in Hstart as (shards & Hshards & [= <-]).
  destruct (start_shards _ _ _ _) as [shards'|e|] eqn:Hsh; [|done..]. injection Hshards as ->.
  assert (forall i o, owners (start config shards now) !! i = Some o ->
    exists s, shards !! i = Some s /\ o = mkOwner s None [] false false) as Ho.
  { intros i o Hi. cbn in Hi. by apply list_lookup_fmap_Some in Hi as (s & -> & ?); exists s. }
  split_and!; [done..|]. exists 0. split; [|cbn [engine_system]; lia]. constructor; try done.
  - by intros i o (s & _ & ->)%Ho.
  - intros i o (s & Hi & ->)%Ho. by apply (start_shards_limits 0 _ _ i s Hsh).
Qed.

(** As many owners as workers, with their limits. *)
Lemma start_owners now sys : with_clock reserve config now = Ok sys ->
  length (owners sys) = Z.to_nat (workers config) /\
  forall i o, owners sys !! i = Some o -> limits (shard o) = shard_limits config (Z.of_nat i).
Proof.
  unfold with_clock. intros Hstart. apply bind_Ok in Hstart as ([] & _ & Hstart).
  apply bind_Ok in Hstart as (shards & Hshards & [= <-]).
  destruct (start_shards _ _ _ _) as [shards'|e|] eqn:Hsh; [|done..]. injection Hshards as ->. split.
  - cbn. rewrite length_fmap. exact (proj1 (start_shards_spec _ _ _ _ _ Hconfig Hsh)).
  - intros i o Hi. cbn in Hi. apply list_lookup_fmap_Some in Hi as (s & -> & Hi).
    by apply (start_shards_limits 0 _ _ i s Hsh).
Qed.
End SystemEngine.
