(* ===== verification/Server.v ===== *)
(** * Connections and the accept loop ([recall-server/src/lib.rs])

    A connection reads requests from its stream, executes them in order and
    writes their replies.  What the network and the clock decide is data: the
    reads are a list of [read_event]s, and each turn of the loop observes whether
    the server is stopping and how its write ends.  The accept loop is a step
    function over its events. *)

From S2P Require Import Prelude Bytes Protocol Decoder Command Expiry Store Config System Session.

Local Open Scope Z_scope.

Inductive io_error := TimedOut | OtherError.

(** ** Starting *)

(** [Server::bind]: [bound] is what binding the listener yields.  An invalid
    configuration stops it first, whatever the engine would say. *)
Definition server_bind (reserve : allocator) (config : Config) (bound : res io_error ()) (now : Z) :
    res (string + io_error) (System.system ExpiryIndex * Metrics) :=
  _ ← map_err inl (validate config);
  _ ← map_err inr bound;
  engine ← map_err inl (System.with_clock reserve config now);
  Ok (engine, default_metrics).

(** ** Reading *)

(** The size of the read buffer of [next_request]. *)
Definition chunk_size : Z := 8192.

(** What a read waits for: bytes that arrive (none at the end of the stream), its
    deadline, an error, or the shutdown signal. *)
Inductive read_event :=
| Received (chunk : bytes)
| ReadDeadline
| ReadError
| ShutdownSignal.

Inductive read_failure :=
| ProtocolFailure (message : string)
| IoFailure (e : io_error).

(** How [next_request] ends; [Waiting] when the read is still pending. *)
Inductive request_outcome :=
| GotRequest (q : Request)
| NoRequest
| Failure (f : read_failure)
| Waiting.

(** A read takes at most [remaining] of the bytes that arrived; what it leaves
    arrives at the next one. *)
Definition read_chunk (remaining : Z) (chunk : bytes) (events : list read_event) :
    bytes * list read_event :=
  let n := Z.to_nat remaining in
  (take n chunk, match drop n chunk with [] => events | rest => Received rest :: events end).

(** [next_request]; [Err] when the fuel does not suffice. *)
Fixpoint next_request (fuel : nat) (c : Config) (d : Decoder) (input : bytes)
    (events : list read_event) : res () (request_outcome * Decoder * bytes * list read_event) :=
  match fuel with
  | O => Err tt
  | S fuel =>
      match decode d input with
      | (Panic, _, _) => Panic
      | (Err e, d, input) => Ok (Failure (ProtocolFailure (protocol_message e)), d, input, events)
      | (Ok (Some q), d, input) => Ok (GotRequest q, d, input, events)
      | (Ok None, d, input) =>
          let remaining := Z.min (Z.max 0 (max_frame_bytes (protocol c) - zlen input)) chunk_size in
          if remaining =? 0
          then Ok (Failure (ProtocolFailure "request exceeds configured limit"), d, input, events)
          else
            match events with
            | [] => Ok (Waiting, d, input, [])
            | ShutdownSignal :: events => Ok (NoRequest, d, input, events)
            | ReadDeadline :: events => Ok (Failure (IoFailure TimedOut), d, input, events)
            | ReadError :: events => Ok (Failure (IoFailure OtherError), d, input, events)
            | Received chunk :: events =>
                let '(received, events) := read_chunk remaining chunk events in
                match received with
                | [] =>
                    Ok (match input with
                        | [] => NoRequest
                        | _ => Failure (ProtocolFailure "truncated request")
                        end, d, input, events)
                | _ => next_request fuel c d (input ++ received) events
                end
            end
      end
  end.

(** The bytes still to arrive and the events bound the reads. *)
Definition event_size (e : read_event) : nat := match e with Received chunk => S (length chunk) | _ => 1 end.

Definition read_fuel (events : list read_event) : nat := S (sum_list_with event_size events).

(** ** Writing *)

Inductive write_event := Written | WriteDeadline | WriteError | NoMemory.

(** [u64] counters wrap around. *)
Definition fetch_add (n : Z) : Z := (n + 1) mod 2 ^ 64.

Definition count_command (m : Metrics) : Metrics :=
  mkMetrics (active_connections m) (total_connections m) (rejected_connections m)
    (fetch_add (total_commands m)) (protocol_errors m) (io_timeouts m).

Definition count_protocol_error (m : Metrics) : Metrics :=
  mkMetrics (active_connections m) (total_connections m) (rejected_connections m)
    (total_commands m) (fetch_add (protocol_errors m)) (io_timeouts m).

Definition count_timeout (m : Metrics) : Metrics :=
  mkMetrics (active_connections m) (total_connections m) (rejected_connections m)
    (total_commands m) (protocol_errors m) (fetch_add (io_timeouts m)).

(** The reply that [write_reply] sends. *)
Definition bounded_reply (c : Config) (reply : Reply) : Reply :=
  if match encoded_len reply with Some length => config_reply_bytes c <? length | None => true end
  then reply_error "ERR response exceeds configured limit"
  else reply.

(** [write_reply]: the metrics, what was sent whole and how it ended; [None] when
    the length of the reply is unknown. *)
Definition write_reply (c : Config) (w : write_event) (reply : Reply) (m : Metrics) :
    option (Metrics * list bytes * res io_error ()) :=
  let reply := bounded_reply c reply in
  _ ← encoded_len reply;
  Some
    match w with
    | Written => (m, [encode reply []], Ok tt)
    | WriteDeadline => (count_timeout m, [], Err TimedOut)
    | WriteError | NoMemory => (m, [], Err OtherError)
    end.

(** ** Connections *)

Record Connection := mkConnection {
  session : Session;
  decoder : Decoder;
  input : bytes;
}.

(** How a connection is left: still open, returned, or failed. *)
Inductive ending := Open | Returned | Failed (e : io_error).

(** A turn of the loop: is the server stopping at its head, and how does its
    write end. *)
Definition turn : Type := bool * write_event.

Record served (E : Type) := mkServed {
  sent : list bytes;
  connection_state : Connection;
  connection_engine : E;
  connection_metrics : Metrics;
  unread : list read_event;
  connection_ending : ending;
}.
Arguments mkServed {E}.
Arguments sent {E}.
Arguments connection_state {E}.
Arguments connection_engine {E}.
Arguments connection_metrics {E}.
Arguments unread {E}.
Arguments connection_ending {E}.

Section Connections.
Context (ct_eq : bytes -> bytes -> bool).
Context {E : Type} `{EngineApi E}.
Implicit Types (engine : E).

(** The decoder and session a connection starts with. *)
Definition new_connection (id : Z) (c : Config) : res ProtocolError Connection :=
  d ← new_decoder (protocol c); Ok (mkConnection (new_session id c) d []).

(** Executing one request: its reply and whether the connection closes. *)
Definition answer_request (s : Session) (q : Request) engine (c : Config) (m : Metrics) :
    option (Session * E * (Reply * bool)) :=
  match parse (arguments q) (commands c) with
  | Panic => None
  | Err e => Some (s, engine, (command_error_reply e, false))
  | Ok command => session_execute ct_eq s command engine c m
  end.

Definition prepend (output : list bytes) (r : served E) : served E :=
  mkServed (output ++ sent r) (connection_state r) (connection_engine r) (connection_metrics r)
    (unread r) (connection_ending r).

(** [connection], turn by turn. *)
Fixpoint connection (turns : list turn) (c : Config) (k : Connection) engine (m : Metrics)
    (events : list read_event) : res () (served E) :=
  match turns with
  | [] => Ok (mkServed [] k engine m events Open)
  | (stopping, w) :: turns =>
      if (stopping : bool) then Ok (mkServed [] k engine m events Returned)
      else
        '(outcome, d, rest, events) ← next_request (read_fuel events) c (decoder k) (input k) events;
        let k := mkConnection (session k) d rest in
        match outcome with
        | Waiting => Ok (mkServed [] k engine m events Open)
        | NoRequest => Ok (mkServed [] k engine m events Returned)
        | Failure (ProtocolFailure message) =>
            '(m, output, _) ← expect (write_reply c w
              (reply_error ("ERR Protocol error: " +:+ message)) (count_protocol_error m));
            Ok (mkServed output k engine m events Returned)
        | Failure (IoFailure TimedOut) =>
            Ok (mkServed [] k engine (count_timeout m) events (Failed TimedOut))
        | Failure (IoFailure e) => Ok (mkServed [] k engine m events (Failed e))
        | GotRequest q =>
            let m := count_command m in
            '(s, engine, (reply, close)) ← expect (answer_request (session k) q engine c m);
            let k := mkConnection s d rest in
            '(m, output, written) ← expect (write_reply c w reply m);
            match written with
            | Ok _ =>
                if (close : bool) then Ok (mkServed output k engine m events Returned)
                else prepend output <$> connection turns c k engine m events
            | Err e => Ok (mkServed output k engine m events (Failed e))
            | Panic => Panic
            end
        end
  end.
End Connections.

(** ** The accept loop *)

(** [Server::run]: the free permits, the live connections, the metrics, and the
    outcome once the loop is left. *)
Record Acceptor := mkAcceptor {
  permits : Z;
  live : gset Z;
  metrics : Metrics;
  outcome : option (res io_error ());
}.

Inductive accept_event :=
| Accepts
| AcceptError
| ConnectionEnds (id : Z)
| ShutdownRequested.

Definition new_acceptor (c : Config) : Acceptor :=
  mkAcceptor (max_connections c) ∅ default_metrics None.

(** [ConnectionGuard::new] and its [drop]. *)
Definition guard_new (m : Metrics) : Metrics :=
  mkMetrics (fetch_add (active_connections m)) (total_connections m) (rejected_connections m)
    (total_commands m) (protocol_errors m) (io_timeouts m).

Definition guard_drop (m : Metrics) : Metrics :=
  mkMetrics ((active_connections m - 1) mod 2 ^ 64) (total_connections m) (rejected_connections m)
    (total_commands m) (protocol_errors m) (io_timeouts m).

Definition count_connection (m : Metrics) : Metrics :=
  mkMetrics (active_connections m) (fetch_add (total_connections m)) (rejected_connections m)
    (total_commands m) (protocol_errors m) (io_timeouts m).

Definition count_rejected (m : Metrics) : Metrics :=
  mkMetrics (active_connections m) (total_connections m) (fetch_add (rejected_connections m))
    (total_commands m) (protocol_errors m) (io_timeouts m).

(** One event of the loop and, after it, of the connections that finish: [Err]
    when it cannot happen, [Panic] when the program stops itself. *)
Definition accept_step (a : Acceptor) (e : accept_event) : res () Acceptor :=
  match e, outcome a with
  | ConnectionEnds id, _ =>
      if bool_decide (id ∈ live a)
      then Ok (mkAcceptor (permits a + 1) (live a ∖ {[id]}) (guard_drop (metrics a)) (outcome a))
      else Err tt
  | _, Some _ => Err tt
  | Accepts, None =>
      if permits a =? 0
      then Ok (mkAcceptor (permits a) (live a) (count_rejected (metrics a)) None)
      else
        let id := total_connections (metrics a) + 1 in
        if i64_max <? id then Panic
        else Ok (mkAcceptor (permits a - 1) ({[id]} ∪ live a)
                   (guard_new (count_connection (metrics a))) None)
  | AcceptError, None => Ok (mkAcceptor (permits a) (live a) (metrics a) (Some (Err OtherError)))
  | ShutdownRequested, None => Ok (mkAcceptor (permits a) (live a) (metrics a) (Some (Ok tt)))
  end.

Fixpoint accept_run (a : Acceptor) (events : list accept_event) : res () Acceptor :=
  match events with
  | [] => Ok a
  | e :: events => a ← accept_step a e; accept_run a events
  end.
