(* ===== verification/ServerLemmas.v ===== *)
(** * Reading requests from a fragmented stream

    The lemmas behind the theorems on connections: how the chunks a stream
    arrives in relate to the stream, and what [next_request] makes of it. *)

From S2P Require Import Prelude Bytes Protocol Decoder DecoderLemmas DecoderTheorems Command CommandTheorems.
From S2P Require Import Expiry Store.
From S2P Require Import Config Session EngineContract Server.

Local Open Scope Z_scope.

(** ** Streams *)

(** A stream in chunks, and what happens after its last byte. *)
Definition arriving (chunks : list bytes) (tail : list read_event) : list read_event :=
  (Received <$> chunks) ++ tail.

Definition fragments (chunks : list bytes) : Prop := Forall (fun chunk => chunk <> []) chunks.

(** After the last byte, no byte arrives. *)
Definition tail_ok (tail : list read_event) : Prop :=
  match tail with Received (_ :: _) :: _ => False | _ => True end.

Definition arriving_size (chunks : list bytes) : nat := sum_list_with (fun c => S (length c)) chunks.

Lemma arriving_fuel chunks tail :
  sum_list_with event_size (arriving chunks tail) = (arriving_size chunks + sum_list_with event_size tail)%nat.
Proof.
  induction chunks as [|c chunks IH]; [done|].
  change (S (length c) + sum_list_with event_size (arriving chunks tail)
    = S (length c) + arriving_size chunks + sum_list_with event_size tail)%nat. lia.
Qed.

(** ** The decoder on a stream *)

(** [d] has read [input] without finding a request. *)
Definition resumes (l : Limits) (d : Decoder) (input : bytes) : Prop :=
  decoder_ok d input /\ Decoder.limits d = l /\ forall b, decode d (input ++ b) = decode (idle l) (input ++ b).

Lemma protocol_limits_ok c : config_typed c -> config_ok c -> limits_ok (protocol c).
Proof.
  intros [Hty _] Hc. constructor; [apply Hc|..]; repeat rewrite Forall_cons in Hty; cbv beta in Hty; lia.
Qed.

Lemma idle_resumes l input : limits_ok l -> resumes l (idle l) input.
Proof. intros Hl. split_and!; [by apply idle_ok|done|done]. Qed.

Lemma pending_resumes l d input d' rest : resumes l d input ->
  decode d input = (Ok None, d', rest) -> resumes l d' input.
Proof.
  intros (Hok & Hl & Heq) Hd. assert (Hs := decode_spec d input Hok). rewrite Hd in Hs.
  destruct Hs as (_ & Hok' & Hl' & _). split_and!; [done|congruence|]. intros b.
  assert (Hinc := decode_grows d input b Hok). rewrite Hd in Hinc. by rewrite Hinc, Heq.
Qed.

Lemma resumes_app l d input b : resumes l d input -> resumes l d (input ++ b).
Proof.
  intros (Hok & Hl & Heq). split_and!; [by apply decoder_ok_app|done|]. intros b'. by rewrite <- app_assoc.
Qed.

(** ** One request *)

(** What a stream that stops without a complete request ends in. *)
Definition at_end (s : bytes) (tail : list read_event) : request_outcome :=
  match tail with
  | [] => Waiting
  | ShutdownSignal :: _ => NoRequest
  | ReadDeadline :: _ => Failure (IoFailure TimedOut)
  | ReadError :: _ => Failure (IoFailure OtherError)
  | Received _ :: _ =>
      match s with [] => NoRequest | _ => Failure (ProtocolFailure "truncated request") end
  end.

(** The outcome of [next_request] as a function of the whole stream [s]. *)
Definition reads_stream (l : Limits) (s : bytes) (tail : list read_event) (o : request_outcome)
    (d : Decoder) (input : bytes) (events : list read_event) : Prop :=
  match decode (idle l) s with
  | (Ok (Some q), _, rest) => o = GotRequest q /\ d = idle l /\
      exists chunks, fragments chunks /\ events = arriving chunks tail /\ input ++ concat chunks = rest
  | (Ok None, _, _) => o = at_end s tail
  | (Err _, _, _) => exists message, o = Failure (ProtocolFailure message)
  | (Panic, _, _) => False
  end.

Lemma read_chunk_spec remaining chunk chunks tail : 0 < remaining -> fragments (chunk :: chunks) ->
  exists received chunks', read_chunk remaining chunk (arriving chunks tail) = (received, arriving chunks' tail) /\
    received <> [] /\ fragments chunks' /\
    received ++ concat chunks' = concat (chunk :: chunks) /\
    (arriving_size chunks' < arriving_size (chunk :: chunks))%nat.
Proof.
  intros Hr [Hne Hf]%Forall_cons. unfold read_chunk.
  set (n := Z.to_nat remaining). assert (0 < n)%nat as Hn by (unfold n; lia).
  assert (take n chunk <> []) as Ht by (destruct chunk, n; (done || lia)).
  assert (length (drop n chunk) < length chunk)%nat as Hlt.
  { rewrite length_drop. destruct chunk; [done|]. cbn. lia. }
  assert (take n chunk ++ drop n chunk = chunk) as Happ by apply take_drop.
  destruct (drop n chunk) as [|b rest].
  - exists (take n chunk), chunks. rewrite app_nil_r in Happ. cbn [concat arriving_size sum_list_with].
    split_and!; [done..|by rewrite Happ|].
    change (arriving_size chunks < S (length chunk) + arriving_size chunks)%nat. lia.
  - exists (take n chunk), ((b :: rest) :: chunks). split_and!; [done|done| | |].
    + by constructor.
    + cbn [concat]. by rewrite app_assoc, Happ.
    + change (S (length (b :: rest)) + arriving_size chunks < S (length chunk) + arriving_size chunks)%nat. lia.
Qed.

Lemma next_request_stream l c fuel d input chunks tail : limits_ok l -> protocol c = l ->
  resumes l d input -> fragments chunks -> tail_ok tail -> (arriving_size chunks < fuel)%nat ->
  exists o d' input' events, next_request fuel c d input (arriving chunks tail) = Ok (o, d', input', events) /\
    reads_stream l (input ++ concat chunks) tail o d' input' events.
Proof.
  intros Hl Hc. revert d input chunks. induction fuel as [|fuel IH]; intros d input chunks Hd Hf Ht Hfuel; [lia|].
  cbn [next_request]. assert (Hd' := Hd). destruct Hd' as (Hok & Hlim & Heq).
  assert (Hs := decode_spec d input Hok). assert (Hg := decode_grows d input (concat chunks) Hok).
  rewrite Heq in Hg. unfold reads_stream. rewrite Hc.
  destruct (decode d input) as [[[[q|]|e|] d'] rest] eqn:E; [..|done].
  - destruct Hs as (Hd' & _). do 4 eexists. split; [reflexivity|]. rewrite Hg. split_and!; [done|congruence|].
    by exists chunks.
  - destruct Hs as (-> & Hok' & _ & Hroom). rewrite Hlim in Hroom.
    assert (resumes l d' input) as Hres by (by eapply pending_resumes).
    rewrite (proj2 (Z.eqb_neq _ _)) by (unfold chunk_size; lia).
    destruct chunks as [|chunk chunks].
    + rewrite app_nil_r. assert (Hempty := Heq []). rewrite app_nil_r, E in Hempty. rewrite <- Hempty.
      destruct tail as [|[[|b chunk]| | |] tail]; cbn; unfold read_chunk; rewrite ?take_nil, ?drop_nil;
        try done; do 4 eexists; (split; [reflexivity|by destruct input]).
    + destruct (read_chunk_spec (Z.min (Z.max 0 (max_frame_bytes l - zlen input)) chunk_size) chunk chunks tail)
        as (received & chunks' & Hread & Hne & Hf' & Hcat & Hlt); [unfold chunk_size; lia|done|].
      cbn [arriving fmap list_fmap app]. change ((Received <$> chunks) ++ tail) with (arriving chunks tail).
      rewrite Hread. destruct received as [|b received]; [done|].
      destruct (IH d' (input ++ b :: received) chunks') as (o & d2 & i2 & ev & Hnext & Hreads);
        [by apply resumes_app|done|done|lia|].
      exists o, d2, i2, ev. split; [exact Hnext|]. rewrite <- app_assoc, Hcat in Hreads. exact Hreads.
  - destruct Hg as (e' & d2 & ->). do 4 eexists. split; [reflexivity|]. by eexists.
Qed.

(** ** One reply *)

Lemma bounded_reply_len c reply : is_Some (encoded_len (bounded_reply c reply)).
Proof.
  unfold bounded_reply. destruct (encoded_len reply) as [n|] eqn:E; [|vm_compute; by eexists].
  destruct (_ <? n); [vm_compute; by eexists|by rewrite E].
Qed.

Definition write_result (w : write_event) (m : Metrics) (output : bytes) :
    Metrics * list bytes * res io_error () :=
  match w with
  | Written => (m, [output], Ok tt)
  | WriteDeadline => (count_timeout m, [], Err TimedOut)
  | WriteError | NoMemory => (m, [], Err OtherError)
  end.

Lemma write_reply_spec c w reply m :
  write_reply c w reply m = Some (write_result w m (encode (bounded_reply c reply) [])).
Proof.
  unfold write_reply. destruct (bounded_reply_len c reply) as [n ->]. by destruct w.
Qed.

(** ** One connection *)

Section Connections.
Context (ct_eq : bytes -> bytes -> bool) (c : Config).
Context {E : Type} `{Laws : EngineService E}.
Implicit Types (engine : E) (k : Connection).

Lemma info_total n section engine m : serving (S n) engine ->
  exists engine' reply, info section engine m = Some (engine', reply) /\ serving n engine'.
Proof.
  intros Hn. unfold info. destruct (serving_stats n engine Hn) as [[memory Hm] Hn'].
  destruct (info_include section "memory").
  - destruct (engine_stats engine) as [engine' stats]. cbn [fst snd] in *. rewrite Hm. by do 2 eexists.
  - do 2 eexists. split; [done|]. eapply serving_less; [done|lia].
Qed.

(** An operation has a key. *)
Definition keyed (command : Command) : Prop := match command with Data op => keys op <> [] | _ => True end.

Lemma parse_keyed args limits command : parse args limits = Ok command -> keyed command.
Proof. intros Hp. destruct command; try done. by apply parsed_operation_ok in Hp as (_ & Hk & _). Qed.

Lemma session_execute_total n s command engine m : keyed command -> serving (S n) engine ->
  exists s' engine' reply close,
    session_execute ct_eq s command engine c m = Some (s', engine', (reply, close)) /\ serving n engine'.
Proof.
  intros Hk Hn. assert (serving n engine) as Hsame by (eapply serving_less; [done|lia]).
  destruct command as [op|payload|value| |u p|version auth name|db|[|nm|b v]|md|section]; cbn [session_execute].
  all: try (destruct (negb (authenticated s)); [by do 4 eexists|]; cbn [run_command]).
  all: try (by do 4 eexists).
  - assert (Hx := serving_execute n engine op Hk Hn). destruct (engine_execute engine op). by do 4 eexists.
  - destruct payload; by do 4 eexists.
  - destruct (authenticate _ _ _ _); by do 4 eexists.
  - destruct (match version with Some _ => _ | None => _ end); [by do 4 eexists|].
    destruct auth as [[u p]|]; [destruct (authenticate _ _ _ _); [|by do 4 eexists]|];
      destruct (negb _); by do 4 eexists.
  - destruct (info_total n section engine m Hn) as (engine' & reply & -> & Hn'). by do 4 eexists.
Qed.

Lemma answer_request_total n s q engine m : serving (S n) engine ->
  exists s' engine' reply close,
    answer_request ct_eq s q engine c m = Some (s', engine', (reply, close)) /\ serving n engine'.
Proof.
  intros Hn. unfold answer_request. assert (Hp := parse_total (arguments q) (commands c)).
  destruct (parse _ _) as [command|e|] eqn:Hparse; [|do 4 eexists; split; [done|eapply serving_less; [done|lia]]|done].
  apply session_execute_total; [|done]. by eapply parse_keyed.
Qed.

(** The replies of two connections: the same, but for the text of a protocol error. *)
Definition same_output (x y : bytes) : Prop :=
  x = y \/ exists m1 m2,
    x = encode (bounded_reply c (reply_error ("ERR Protocol error: " +:+ m1))) [] /\
    y = encode (bounded_reply c (reply_error ("ERR Protocol error: " +:+ m2))) [].

Definition same_service (r1 r2 : served E) : Prop :=
  Forall2 same_output (sent r1) (sent r2) /\
  session (connection_state r1) = session (connection_state r2) /\
  connection_engine r1 = connection_engine r2 /\
  connection_metrics r1 = connection_metrics r2 /\
  connection_ending r1 = connection_ending r2.

Lemma same_output_refl x : same_output x x.
Proof. by left. Qed.

Lemma same_outputs_refl l : Forall2 same_output l l.
Proof. induction l; constructor; auto using same_output_refl. Qed.

(** A connection in front of a stream of which it has read a part. *)
Definition facing (l : Limits) k (chunks : list bytes) (s : bytes) : Prop :=
  resumes l (decoder k) (input k) /\ fragments chunks /\ input k ++ concat chunks = s.

Lemma connection_stream l turns k1 k2 engine m chunks1 chunks2 tail s : limits_ok l -> protocol c = l ->
  tail_ok tail -> facing l k1 chunks1 s -> facing l k2 chunks2 s -> session k1 = session k2 ->
  serving (length turns) engine ->
  exists r1 r2, connection ct_eq turns c k1 engine m (arriving chunks1 tail) = Ok r1 /\
    connection ct_eq turns c k2 engine m (arriving chunks2 tail) = Ok r2 /\ same_service r1 r2.
Proof.
  unfold same_service. intros Hl Hc Ht. revert k1 k2 engine m chunks1 chunks2 s.
  induction turns as [|[stopping w] turns IH]; intros k1 k2 engine m chunks1 chunks2 s F1 F2 Hs Hn; cbn [connection].
  { do 2 eexists. split_and!; try done; constructor. }
  destruct stopping.
  { do 2 eexists. split_and!; try done; constructor. }
  destruct F1 as (R1 & G1 & E1), F2 as (R2 & G2 & E2).
  destruct (next_request_stream l c (read_fuel (arriving chunks1 tail)) _ _ chunks1 tail Hl Hc R1 G1 Ht)
    as (o1 & d1 & i1 & ev1 & -> & S1); [unfold read_fuel; rewrite arriving_fuel; lia|].
  destruct (next_request_stream l c (read_fuel (arriving chunks2 tail)) _ _ chunks2 tail Hl Hc R2 G2 Ht)
    as (o2 & d2 & i2 & ev2 & -> & S2); [unfold read_fuel; rewrite arriving_fuel; lia|].
  unfold reads_stream in S1, S2. rewrite E1 in S1. rewrite E2 in S2. cbn [mbind res_bind].
  destruct (decode (idle l) s) as [[[[q|]|e|] d'] rest]; [..|done].
  - destruct S1 as (-> & -> & ch1 & H1 & -> & C1), S2 as (-> & -> & ch2 & H2 & -> & C2).
    cbn [session]. rewrite Hs.
    destruct (answer_request_total (length turns) (session k2) q engine (count_command m) Hn)
      as (s' & engine' & reply & close & -> & Hn').
    cbn [expect mbind res_bind]. rewrite write_reply_spec. cbn [expect mbind res_bind].
    destruct w; cbn [write_result]; try (do 2 eexists; split_and!; try done; constructor).
    destruct close; [do 2 eexists; split_and!; try done; apply same_outputs_refl|].
    destruct (IH (mkConnection s' (idle l) i1) (mkConnection s' (idle l) i2) engine' (count_command m) ch1 ch2 rest)
      as (r1 & r2 & -> & -> & A1 & A2 & A3 & A4 & A5).
    { by split_and!; [apply idle_resumes| |]. }
    { by split_and!; [apply idle_resumes| |]. }
    { done. } { done. }
    do 2 eexists. split_and!; try done; constructor; [apply same_output_refl|exact A1].
  - subst o1 o2. destruct (at_end s tail) as [q| |[message|[]]|] eqn:Ha;
      try (do 2 eexists; split_and!; try done; constructor).
    { exfalso. destruct tail as [|[| | |] ?]; cbn in Ha; (done || by destruct s). }
    rewrite write_reply_spec. cbn [expect mbind res_bind].
    destruct w; cbn [write_result]; (do 2 eexists; split_and!; try done; try (cbn; congruence); apply same_outputs_refl).
  - destruct S1 as [m1 ->], S2 as [m2 ->]. rewrite !write_reply_spec. cbn [expect mbind res_bind].
    destruct w; cbn [write_result]; do 2 eexists; split_and!; try done; try (cbn; congruence);
      try (constructor; [right; by exists m1, m2|]); by constructor.
Qed.
End Connections.
