(* ===== verification/ServerSample.v ===== *)
(** * A concrete server

    The engine of [SystemSample] behind its interface, with the readings of its
    clock, and requests of a client, framed. *)

From S2P Require Import Prelude Bytes Protocol Decoder DecoderLemmas DecoderTheorems Command.
From S2P Require Import Expiry Store StoreSpec StoreTheorems Config Engine System SystemSample.
From S2P Require Import Session EngineContract SystemEngine.

Local Open Scope Z_scope.

Lemma sample_valid : validate sample_config = Ok tt.
Proof. vm_compute. reflexivity. Qed.

#[global] Instance sample_api : EngineApi engine := system_api sample_hash sample_config granted.

#[global] Instance sample_laws : EngineLaws engine :=
  system_laws sample_hash sample_config granted (validate_ok _ sample_typed sample_valid).

(** The engine as it starts, its clock read at these moments. *)
Definition sample_engine (times : list Z) : engine := mkEngine sample_start times.

Lemma sample_holds times : ascending 0 times -> 1000 * Z.of_nat (length times) < usize_max ->
  represents (sample_engine times) ∅ times.
Proof. intros Ht Hl. by apply (start_holds sample_hash sample_config granted 0 _ _ sample_typed sample_started). Qed.

Lemma sample_serving times : ascending 0 times -> 1000 * Z.of_nat (length times) < usize_max ->
  serving (length times) (sample_engine times).
Proof. intros Ht Hl. exists ∅, times. split; [by apply sample_holds|done]. Qed.

(** The comparison of two passwords by their bytes. *)
Definition same_bytes (a b : bytes) : bool := bool_decide (a = b).

Lemma same_bytes_spec a b : same_bytes a b = bool_decide (a = b).
Proof. done. Qed.

(** The same configuration, with a password. *)
Definition guarded_config : Config :=
  let c := sample_config in
  mkConfig (bind c) (workers c) (io_threads c) (max_connections c) (queue_capacity c) (queue_bytes c)
    (admission_timeout c) (read_timeout c) (write_timeout c) (expiry_interval c) (expiry_batch c)
    (config_payload_bytes c) (keys_per_worker c) (config_reply_bytes c) (protocol c) (commands c)
    (Some (bs "sesame")).

(** Requests over one owner and over two, one of which has expired when it is read. *)
Definition sample_requests : list (list bytes) :=
  [[bs "MSET"; bs "a"; bs "1"; bs "b"; bs "2"]; [bs "PEXPIRE"; bs "b"; bs "5"]; [bs "MGET"; bs "b"; bs "a"]].

(** Frames that fit the default limits, by computation. *)
Definition fits_default (args : list bytes) : bool :=
  (1 <=? zlen args) && (zlen args <=? max_arguments default_limits)
  && (zlen (frame args) <=? max_frame_bytes default_limits)
  && (zlen (dec (zlen args)) + 3 <=? max_header_bytes default_limits)
  && forallb (fun arg => (zlen arg <=? max_bulk_bytes default_limits)
       && (zlen (dec (zlen arg)) + 3 <=? max_header_bytes default_limits)) args.

Lemma fits_frames reqs : forallb fits_default reqs = true ->
  Forall2 (is_frame default_limits) reqs (frame <$> reqs).
Proof.
  induction reqs as [|args reqs IH]; cbn [forallb fmap list_fmap]; [constructor|].
  intros [H Hreqs]%andb_true_iff. constructor; [|by apply IH]. unfold fits_default in H. zhyps.
  apply is_frame_frame; try lia. apply Forall_forall. intros arg Harg%list_elem_of_In.
  rewrite forallb_forall in *. match goal with H : forall x, _ |- _ => specialize (H arg Harg) end. by zhyps.
Qed.

Lemma sample_frames : Forall2 (is_frame default_limits) sample_requests (frame <$> sample_requests).
Proof. apply fits_frames. vm_compute. reflexivity. Qed.
