(* ===== verification/ServerTheorems.v ===== *)
(** * What a server promises its clients

    Connections execute the requests of their stream in order, once, with one
    bounded reply each, however the stream is fragmented; a client that has not
    given the password reaches nothing; and a connection stays within its bounds. *)

From S2P Require Import Prelude Bytes Protocol Decoder DecoderLemmas DecoderTheorems Command CommandTheorems.
From S2P Require Import Expiry Store StoreTheorems Config Engine System SystemSample Session EngineContract SystemEngine Server ServerLemmas ServerSample.

Local Open Scope Z_scope.

(** ** Requests in order *)

(** Executing requests one after the other, up to the one that closes. *)
Fixpoint serve_requests {E} `{EngineApi E} (ct_eq : bytes -> bytes -> bool) (c : Config)
    (s : Session) (engine : E) (m : Metrics) (reqs : list (list bytes)) :
    option (Session * E * Metrics * list Reply * bool) :=
  match reqs with
  | [] => Some (s, engine, m, [], false)
  | args :: reqs =>
      let m := count_command m in
      '(s, engine, (reply, close)) ← answer_request ct_eq s (mkRequest args 0) engine c m;
      if (close : bool) then Some (s, engine, m, [reply], true)
      else
        '(s, engine, m, replies, closed) ← serve_requests ct_eq c s engine m reqs;
        Some (s, engine, m, reply :: replies, closed)
  end.

Section Requests.
Context (ct_eq : bytes -> bytes -> bool) (c : Config).
Context {E : Type} `{Laws : EngineService E}.
Implicit Types (engine : E) (k : Connection).

Lemma decode_nothing l : limits_ok l -> exists d, decode (idle l) [] = (Ok None, d, []).
Proof.
  intros Hl. destruct (limits_ok_bounds l Hl) as (H1 & _ & _ & H2 & _).
  assert (Hh : header_end (idle l) [] = (Ok None, set_scan (idle l) 0)).
  { unfold header_end. change (Z.to_nat (zlen [] - scan (idle l))) with 0%nat.
    cbn [header_scan]. unfold header_pending.
    change (saturating_usize (zlen [] - cursor (idle l))) with 0. change (zlen []) with 0.
    rewrite (proj2 (Z.leb_gt (max_header_bytes (Decoder.limits (idle l))) 0)) by (cbn; lia).
    by rewrite (proj2 (Z.leb_gt (max_frame_bytes (Decoder.limits (idle l))) 0)) by (cbn; lia). }
  exists (set_scan (idle l) 0). unfold decode, decode_loop, decode_iteration, count_stage, header_stage.
  cbn [length argument_count idle]. by rewrite Hh.
Qed.

Lemma is_frame_decodes l args w rest : limits_ok l -> is_frame l args w ->
  exists n, decode (idle l) (w ++ rest) = (Ok (Some (mkRequest args n)), idle l, rest).
Proof.
  intros Hl Hf. exists (zlen w). rewrite decode_unfold, (decode_run_frame l args) by done.
  cbn [wire_bytes]. by rewrite Nat2Z.id, drop_app_length.
Qed.

Lemma answer_request_wire s args n1 n2 engine m :
  answer_request ct_eq s (mkRequest args n1) engine c m = answer_request ct_eq s (mkRequest args n2) engine c m.
Proof. done. Qed.

Lemma connection_serves k engine m reqs ws chunks : limits_ok (protocol c) -> serving (length reqs) engine ->
  Forall2 (is_frame (protocol c)) reqs ws -> facing (protocol c) k chunks (concat ws) ->
  exists r s' engine' m' replies closed,
    connection ct_eq (replicate (S (length reqs)) (false, Written)) c k engine m (arriving chunks []) = Ok r /\
    serve_requests ct_eq c (session k) engine m reqs = Some (s', engine', m', replies, closed) /\
    sent r = (fun reply => encode (bounded_reply c reply) []) <$> replies /\
    session (connection_state r) = s' /\ connection_engine r = engine' /\ connection_metrics r = m' /\
    connection_ending r = if closed then Returned else Open.
Proof.
  intros Hl Hn Hws. revert k engine m chunks Hn. induction Hws as [|args w reqs ws Hf Hws IH];
    intros k engine m chunks Hn (Hres & Hfr & Hcat); cbn [serve_requests];
    [|change (S (length (args :: reqs))) with (S (S (length reqs)))];
    rewrite replicate_S; [|set (turns := replicate (S (length reqs)) (false, Written)) in *]; cbn [connection].
  all: destruct (next_request_stream (protocol c) c (read_fuel (arriving chunks [])) _ _ chunks [] Hl eq_refl Hres Hfr I)
    as (o & d & i & ev & -> & Hs); [unfold read_fuel; rewrite arriving_fuel; lia|].
  all: unfold reads_stream in Hs; rewrite Hcat in Hs; cbn [concat mbind res_bind] in *.
  - destruct (decode_nothing (protocol c) Hl) as [d' Hd]. rewrite Hd in Hs. subst o.
    do 6 eexists. split_and!; reflexivity.
  - destruct (is_frame_decodes (protocol c) args w (concat ws) Hl Hf) as [n Hd]. rewrite Hd in Hs.
    destruct Hs as (-> & -> & chunks' & Hfr' & -> & Hcat').
    rewrite (answer_request_wire _ args n 0). cbn [session].
    destruct (answer_request_total ct_eq c (length reqs) (session k) (mkRequest args 0) engine (count_command m) Hn)
      as (s' & engine' & reply & close & -> & Hn').
    cbn [expect mbind res_bind option_bind]. rewrite write_reply_spec. cbn [expect mbind res_bind write_result].
    destruct close; [do 6 eexists; split_and!; reflexivity|].
    destruct (IH (mkConnection s' (idle (protocol c)) i) engine' (count_command m) chunks' Hn')
      as (r & s2 & e2 & m2 & replies & closed & Hr & Hserve & Hsent & Hss & He & Hm & Hend).
    { by split_and!; [apply idle_resumes| |]. }
    rewrite Hr. cbn [session] in Hserve. rewrite Hserve.
    do 6 eexists. split_and!; try reflexivity; try done.
    cbn [prepend sent fmap list_fmap app]. by rewrite Hsent.
Qed.
End Requests.

(** C16: A connection is a pipeline: whatever the chunks its stream arrives in, it
    executes the requests framed in the stream in order, each exactly once, up to
    the one that closes, and sends their replies in that order, one for each. *)
Theorem connection_pipelines {E} `{EngineService E} ct_eq c k (engine : E) m reqs ws chunks :
  limits_ok (protocol c) -> Forall2 (is_frame (protocol c)) reqs ws -> serving (length reqs) engine ->
  decoder k = idle (protocol c) -> input k = [] -> fragments chunks -> concat chunks = concat ws ->
  exists r s' engine' m' replies closed,
    connection ct_eq (replicate (S (length reqs)) (false, Written)) c k engine m (Received <$> chunks) = Ok r /\
    serve_requests ct_eq c (session k) engine m reqs = Some (s', engine', m', replies, closed) /\
    sent r = (fun reply => encode (bounded_reply c reply) []) <$> replies /\
    session (connection_state r) = s' /\ connection_engine r = engine' /\ connection_metrics r = m' /\
    connection_ending r = if closed then Returned else Open.
Proof.
  intros Hl Hws Hn Hd Hi Hf Hcat. rewrite <- (app_nil_r (Received <$> chunks)).
  apply (connection_serves ct_eq c k engine m reqs ws chunks Hl Hn Hws).
  split_and!; [rewrite Hd, Hi; by apply idle_resumes|done|by rewrite Hi].
Qed.

(** A client that writes, sets a deadline and reads, its stream cut in an odd place. *)
Lemma connection_pipelines_witness :
  let c := sample_config in
  exists r, connection same_bytes (replicate 4 (false, Written)) c
      (mkConnection (new_session 1 c) (idle default_limits) []) (sample_engine [1; 2; 9]) default_metrics
      (Received <$> [take 5 (concat (frame <$> sample_requests)); drop 5 (concat (frame <$> sample_requests))])
    = Ok r /\ length (sent r) = 3%nat.
Proof.
  intros c.
  destruct (connection_pipelines same_bytes c (mkConnection (new_session 1 c) (idle default_limits) [])
    (sample_engine [1; 2; 9]) default_metrics sample_requests (frame <$> sample_requests)
    [take 5 (concat (frame <$> sample_requests)); drop 5 (concat (frame <$> sample_requests))])
    as (r & s' & e' & m' & replies & closed & Hr & Hserve & Hsent & _).
  { exact default_limits_ok. } { exact sample_frames. } { apply (sample_serving [1; 2; 9]); [cbn; int_lia|vm_compute; reflexivity]. } { reflexivity. } { reflexivity. }
  { repeat constructor; vm_compute; discriminate. } { vm_compute; reflexivity. }
  exists r. split; [exact Hr|]. rewrite Hsent, length_fmap.
  assert ((fun x => length x.1.2) <$> serve_requests same_bytes c (new_session 1 c) (sample_engine [1; 2; 9])
    default_metrics sample_requests = Some 3%nat) as Hlen by (vm_compute; reflexivity).
  cbn [session] in Hserve. rewrite Hserve in Hlen. cbn in Hlen. congruence.
Defined.

(** C39: The fragmentation of a stream is immaterial to everything but the wording
    of a framing error: two connections that differ only in the chunks in which
    the same bytes arrive - well-formed or not, then an end of stream, a deadline,
    an error, a shutdown or silence - execute the same requests, send the same
    replies and end the same way, whatever becomes of their writes. *)
Theorem fragmentation_immaterial {E} `{EngineService E} ct_eq c turns k (engine : E) m chunks1 chunks2 tail :
  limits_ok (protocol c) -> serving (length turns) engine ->
  decoder k = idle (protocol c) -> input k = [] -> tail_ok tail ->
  fragments chunks1 -> fragments chunks2 -> concat chunks1 = concat chunks2 ->
  exists r1 r2, connection ct_eq turns c k engine m (arriving chunks1 tail) = Ok r1 /\
    connection ct_eq turns c k engine m (arriving chunks2 tail) = Ok r2 /\ same_service c r1 r2.
Proof.
  intros Hl Hn Hd Hi Ht Hf1 Hf2 Hcat.
  apply (connection_stream ct_eq c (protocol c) turns k k engine m chunks1 chunks2 tail (concat chunks2));
    try done; (split_and!; [rewrite Hd, Hi; by apply idle_resumes|done|by rewrite Hi]).
Qed.

Lemma fragmentation_immaterial_witness :
  let c := sample_config in
  let k := mkConnection (new_session 1 c) (idle default_limits) [] in
  exists r1 r2, connection same_bytes (replicate 3 (false, Written)) c k (sample_engine [1; 2; 9]) default_metrics
      (arriving [bs "*1" ++ CRLF ++ bs "$4" ++ CRLF ++ bs "PING" ++ CRLF ++ bs "?"] [ReadDeadline]) = Ok r1 /\
    connection same_bytes (replicate 3 (false, Written)) c k (sample_engine [1; 2; 9]) default_metrics
      (arriving [bs "*1" ++ [CR]; [LF] ++ bs "$4" ++ CRLF ++ bs "PI"; bs "NG" ++ CRLF; bs "?"] [ReadDeadline]) = Ok r2 /\
    same_service c r1 r2.
Proof.
  intros c k. apply fragmentation_immaterial; try reflexivity; try exact I.
  - exact default_limits_ok.
  - apply (sample_serving [1; 2; 9]); [cbn; int_lia|vm_compute; reflexivity].
  - repeat constructor; discriminate.
  - repeat constructor; discriminate.
Defined.

(** ** Authentication *)

(** The requests that give the configured password. *)
Definition grants (c : Config) (command : Command) : bool :=
  match command, password c with
  | Auth username supplied, Some expected =>
      bool_decide (supplied = expected) &&
      match username with None => true | Some name => bool_decide (name = bs "default") end
  | Hello version (Some (username, supplied)) _, Some expected =>
      match version with Some v => v =? 2 | None => true end &&
      bool_decide (supplied = expected) && bool_decide (username = bs "default")
  | _, _ => false
  end.

Definition grants_request (c : Config) (args : list bytes) : bool :=
  match parse args (commands c) with Ok command => grants c command | _ => false end.

Definition is_error (r : Reply) : bool := match r with Error _ => true | _ => false end.

Section Authentication.
Context (ct_eq : bytes -> bytes -> bool) (Hct : forall a b, ct_eq a b = bool_decide (a = b)).
Context (c : Config) {E : Type} `{EngineApi E}.

Lemma authenticate_spec expected username supplied : password c = Some expected ->
  authenticate ct_eq c username supplied =
    if bool_decide (supplied = expected) &&
       match username with None => true | Some name => bool_decide (name = bs "default") end
    then inl tt
    else inr (reply_error "WRONGPASS invalid username-password pair or user is disabled.").
Proof.
  intros Hp. unfold authenticate. rewrite Hp, Hct.
  by rewrite (bool_decide_ext (expected = supplied) (supplied = expected)) by done.
Qed.

(** One command of a client that has not given the password. *)
Lemma unauthenticated_step s command (engine : E) m : password c <> None -> authenticated s = false ->
  exists s' reply close, session_execute ct_eq s command engine c m = Some (s', engine, (reply, close)) /\
    close = false /\ is_error reply = negb (grants c command) /\
    authenticated s' = grants c command /\ (grants c command = false -> s' = s).
Proof.
  intros Hp Hs. destruct (password c) as [expected|] eqn:Hpw; [|done].
  destruct command as [op|payload|value| |username supplied|version auth name|db|cl|md|section];
    cbn [session_execute grants]; rewrite ?Hs; cbn [negb]; try (do 3 eexists; split_and!; (reflexivity || done)).
  - rewrite (authenticate_spec expected) by done. rewrite Hpw.
    destruct (_ && _); do 3 eexists; split_and!; (reflexivity || done).
  - destruct (match version with Some _ => _ | None => _ end) eqn:Hv.
    { destruct version as [v|]; [|done]. apply negb_true_iff in Hv. rewrite Hv.
      destruct auth as [[u p]|]; rewrite ?Hpw; do 3 eexists; split_and!; (reflexivity || done). }
    assert (match version with Some v => v =? 2 | None => true end = true) as ->.
    { destruct version; [|done]. by apply negb_false_iff in Hv. }
    destruct auth as [[u p]|].
    + rewrite (authenticate_spec expected) by done. rewrite Hpw. cbn [andb].
      destruct (_ && _); cbn [set_authenticated authenticated negb];
        [destruct name|]; do 3 eexists; split_and!; (reflexivity || done).
    + rewrite Hs. cbn. do 3 eexists. split_and!; (reflexivity || done).
Qed.

Lemma unauthenticated_requests s (engine : E) m reqs : password c <> None -> authenticated s = false ->
  Forall (fun args => grants_request c args = false) reqs ->
  exists m' replies, serve_requests ct_eq c s engine m reqs = Some (s, engine, m', replies, false) /\
    length replies = length reqs /\ Forall (fun r => is_error r = true) replies.
Proof.
  intros Hp Hs Hg. revert m. induction Hg as [|args reqs Hargs _ IH]; intros m; cbn [serve_requests].
  { do 2 eexists. split_and!; [done..|constructor]. }
  assert (exists reply, answer_request ct_eq s (mkRequest args 0) engine c (count_command m)
    = Some (s, engine, (reply, false)) /\ is_error reply = true) as (reply & -> & Hr).
  { unfold answer_request. cbn [arguments]. unfold grants_request in Hargs.
    assert (Ht := parse_total args (commands c)).
    destruct (parse args (commands c)) as [command|e|]; [|by eexists|done].
    destruct (unauthenticated_step s command engine (count_command m) Hp Hs)
      as (s' & reply & close & -> & -> & He & _ & Hsame). rewrite Hargs in He.
    rewrite Hsame by done. by eexists. }
  cbn [mbind option_bind]. destruct (IH (count_command m)) as (m' & replies & -> & Hlen & Hall).
  do 2 eexists. split_and!; [done|cbn; by rewrite Hlen|by constructor].
Qed.
End Authentication.

(** C17: Without the password a client reaches nothing: if a password is
    configured, then until a request gives it - by AUTH, or HELLO 2 with AUTH, as
    the default user - every request is answered with an error, the session does
    not change and the engine is never called; and the first request that gives
    it authenticates the session. *)
Theorem password_guards_engine {E} `{EngineApi E} ct_eq c id (engine : E) m reqs :
  (forall a b, ct_eq a b = bool_decide (a = b)) -> password c <> None ->
  Forall (fun args => grants_request c args = false) reqs ->
  let s := new_session id c in
  exists m' replies, serve_requests ct_eq c s engine m reqs = Some (s, engine, m', replies, false) /\
    length replies = length reqs /\ Forall (fun r => is_error r = true) replies /\
    forall command, grants c command = true -> exists s' reply,
      session_execute ct_eq s command engine c m' = Some (s', engine, (reply, false)) /\
      is_error reply = false /\ authenticated s' = true.
Proof.
  intros Hct Hp Hg s. assert (authenticated s = false) as Hs.
  { unfold s, new_session. cbn. by destruct (password c). }
  destruct (unauthenticated_requests ct_eq Hct c s engine m reqs Hp Hs Hg) as (m' & replies & H1 & H2 & H3).
  exists m', replies. split_and!; [done..|]. intros command Hc.
  destruct (unauthenticated_step ct_eq Hct c s command engine m' Hp Hs)
    as (s' & reply & close & -> & -> & He & Ha & _). rewrite Hc in He, Ha. by exists s', reply.
Qed.

Lemma password_guards_engine_witness :
  let s := new_session 7 guarded_config in
  exists m' replies, serve_requests same_bytes guarded_config s (sample_engine [1; 2; 9]) default_metrics
      [[bs "GET"; bs "k"]; [bs "AUTH"; bs "wrong"]; [bs "HELLO"; bs "3"; bs "AUTH"; bs "default"; bs "sesame"]]
    = Some (s, sample_engine [1; 2; 9], m', replies, false) /\ length replies = 3%nat /\
    grants guarded_config (Auth None (bs "sesame")) = true.
Proof.
  intros s. destruct (password_guards_engine same_bytes guarded_config 7 (sample_engine [1; 2; 9]) default_metrics
    [[bs "GET"; bs "k"]; [bs "AUTH"; bs "wrong"]; [bs "HELLO"; bs "3"; bs "AUTH"; bs "default"; bs "sesame"]])
    as (m' & replies & H1 & H2 & _).
  { exact same_bytes_spec. } { discriminate. } { repeat constructor; vm_compute; reflexivity. }
  exists m', replies. split_and!; [exact H1|exact H2|vm_compute; reflexivity].
Defined.

(** ** Bounds *)

Section Bounds.
Context (ct_eq : bytes -> bytes -> bool) (c : Config) {E : Type} `{EngineApi E}.

Lemma bounded_reply_bytes reply : 44 <= config_reply_bytes c -> config_reply_bytes c <= usize_max ->
  zlen (encode (bounded_reply c reply) []) <= config_reply_bytes c.
Proof.
  intros Hlo Hhi. unfold bounded_reply.
  assert (zlen (encode (reply_error "ERR response exceeds configured limit") []) <= 44) as Herr
    by (vm_compute; discriminate).
  rewrite encoded_len_spec. destruct (checked_usize _) as [n|] eqn:Hn; [|lia].
  apply checked_usize_Some in Hn as [-> _]. destruct (_ <? _) eqn:Hb; [lia|]. by apply Z.ltb_ge in Hb.
Qed.

Lemma decode_shrinks d s r d' rest : decode d s = (r, d', rest) -> zlen rest <= zlen s.
Proof.
  unfold decode. destruct (decode_loop _ _ _) as [[[q|]|e|] d1]; intros [= _ _ <-];
    rewrite ?length_drop; lia.
Qed.

Lemma next_request_room fuel d s events o d' rest events' : 0 <= max_frame_bytes (protocol c) ->
  zlen s <= max_frame_bytes (protocol c) ->
  next_request fuel c d s events = Ok (o, d', rest, events') -> zlen rest <= max_frame_bytes (protocol c).
Proof.
  intros Hmax. revert d s events. induction fuel as [|fuel IH]; intros d s events Hs Hx; [done|].
  cbn [next_request] in Hx. destruct (decode d s) as [[r d1] s1] eqn:Hd. apply decode_shrinks in Hd.
  destruct r as [[q|]|e|]; [injection Hx as _ _ <- _; lia| |injection Hx as _ _ <- _; lia|done].
  destruct (_ =? 0) eqn:Hr; [injection Hx as _ _ <- _; lia|]. apply Z.eqb_neq in Hr.
  destruct events as [|[chunk| | |] events]; try (injection Hx as _ _ <- _; lia).
  unfold read_chunk in Hx. set (n := Z.to_nat _) in Hx.
  assert (zlen (take n chunk) <= max_frame_bytes (protocol c) - zlen s1) as Hn.
  { rewrite length_take. unfold n. lia. }
  destruct (take n chunk) as [|b received]; [injection Hx as _ _ <- _; lia|].
  apply IH in Hx; [done|]. rewrite length_app. cbn [length] in *. lia.
Qed.

Lemma connection_bounds turns k (engine : E) m events r : 44 <= config_reply_bytes c <= usize_max ->
  0 <= max_frame_bytes (protocol c) -> zlen (input k) <= max_frame_bytes (protocol c) ->
  connection ct_eq turns c k engine m events = Ok r ->
  Forall (fun output => zlen output <= config_reply_bytes c) (sent r) /\
  zlen (input (connection_state r)) <= max_frame_bytes (protocol c) /\
  (length (sent r) <= length turns)%nat.
Proof.
  intros [Hlo Hhi] Hmax. revert k engine m events r.
  induction turns as [|[stopping w] turns IH]; intros k engine m events r Hk Hx; cbn [connection] in Hx.
  { injection Hx as <-. cbn. split_and!; [constructor|done|lia]. }
  destruct stopping; [injection Hx as <-; cbn; split_and!; [constructor|done|lia]|].
  apply bind_Ok in Hx as ([[[o d] rest] ev] & Hnext & Hx).
  apply next_request_room in Hnext; [|done..].
  destruct o as [q| |[message|[]]|]; try (injection Hx as <-; cbn; split_and!; [constructor|done|lia]).
  - apply bind_Ok in Hx as ([[s' engine'] [reply close]] & _ & Hx).
    rewrite write_reply_spec in Hx. cbn [expect mbind res_bind] in Hx.
    assert (Hb := bounded_reply_bytes reply Hlo Hhi).
    destruct w; cbn [write_result] in Hx; try (injection Hx as <-; cbn; split_and!; [constructor|done|lia]).
    destruct close; [injection Hx as <-; cbn; split_and!; [by constructor|done|lia]|].
    destruct (connection _ _ _ _ _ _ _) as [r'| |] eqn:Hr; [|done..]. injection Hx as <-.
    destruct (IH (mkConnection s' d rest) _ _ _ _ Hnext Hr) as (A1 & A2 & A3). cbn. split_and!; [by constructor|done|lia].
  - rewrite write_reply_spec in Hx. cbn [expect mbind res_bind] in Hx.
    assert (Hb := bounded_reply_bytes (reply_error ("ERR Protocol error: " +:+ message)) Hlo Hhi).
    destruct w; cbn [write_result] in Hx; injection Hx as <-; cbn [sent connection_state input length];
      (split_and!; [first [exact (Forall_nil_2 _)|by apply Forall_singleton]|done|lia]).
Qed.
End Bounds.

(** C40: A connection stays within its bounds: each turn sends at most one reply,
    no reply is longer than the configured limit, and no more of the stream is
    buffered than the largest frame, whatever the client sends. *)
Theorem connection_bounded {E} `{EngineApi E} ct_eq turns c id k (engine : E) m events r :
  config_typed c -> validate c = Ok tt -> new_connection id c = Ok k ->
  connection ct_eq turns c k engine m events = Ok r ->
  Forall (fun output => zlen output <= config_reply_bytes c) (sent r) /\
  zlen (input (connection_state r)) <= max_frame_bytes (protocol c) /\
  (length (sent r) <= length turns)%nat.
Proof.
  intros Hty Hv Hk. assert (Hok := validate_ok c Hty Hv). assert (Hr := ok_reply c Hok). assert (Hn := ok_values c Hok).
  apply bind_Ok in Hk as (d & Hd & [= <-]).
  assert (0 <= max_frame_bytes (protocol c)) as Hf.
  { destruct Hty as [Hty _]. repeat rewrite Forall_cons in Hty. cbv beta in Hty. lia. }
  apply connection_bounds; [unfold usize_max; lia|done|by cbn].
Qed.

Lemma connection_bounded_witness :
  let c := sample_config in
  exists k r, new_connection 1 c = Ok k /\
    connection same_bytes (replicate 4 (false, Written)) c k (sample_engine [1; 2; 9]) default_metrics
      [Received (concat (frame <$> sample_requests)); Received (bs "*1" ++ CRLF ++ bs "$9")] = Ok r /\
    zlen (input (connection_state r)) <= max_frame_bytes (protocol c) /\ (length (sent r) <= 4)%nat.
Proof.
  intros c. set (events := [Received (concat (frame <$> sample_requests)); Received (bs "*1" ++ CRLF ++ bs "$9")]).
  exists (mkConnection (new_session 1 c) (idle default_limits) []).
  assert (succeeds (connection same_bytes (replicate 4 (false, Written)) c
    (mkConnection (new_session 1 c) (idle default_limits) []) (sample_engine [1; 2; 9]) default_metrics events) = true) as Hs
    by (vm_compute; reflexivity).
  destruct (connection same_bytes _ c _ _ _ events) as [r| |] eqn:Hr; [|discriminate Hs..].
  exists r. split_and!; [reflexivity|reflexivity|..];
    apply (connection_bounded same_bytes (replicate 4 (false, Written)) c 1
      (mkConnection (new_session 1 c) (idle default_limits) []) (sample_engine [1; 2; 9]) default_metrics events r);
    try exact Hr; try reflexivity; exact sample_typed.
Defined.
