(* ===== verification/EndToEnd.v ===== *)
(** * From bytes to the table and back

    All the components together: a client's stream goes through the decoder,
    the parser and the session to the engine, whose owners and coordinator
    execute it on their shards; the bytes that come back are the replies of one
    table. *)

From S2P Require Import Prelude Bytes Protocol Decoder DecoderLemmas DecoderTheorems Command CommandTheorems.
From S2P Require Import Expiry Store StoreSpec StoreTheorems Config Engine System SystemSpec SystemSample.
From S2P Require Import Session EngineContract SystemDriver SystemEngine.
From S2P Require Import Server ServerLemmas ServerSample ServerTheorems.

Local Open Scope Z_scope.

(** A session hands data commands to the engine, and their replies back. *)
Lemma serve_data_requests {E} `{EngineLaws E} ct_eq c s (engine : E) tbl times mt reqs ops :
  authenticated s = true -> represents engine tbl times -> length times = length ops ->
  Forall2 (fun args op => parse args (commands c) = Ok (Data op)) reqs ops ->
  exists engine' mt' replies tbl',
    serve_requests ct_eq c s engine mt reqs = Some (s, engine', mt', replies, false) /\
    table_run EngineContract.admits tbl ops times replies tbl' /\ represents engine' tbl' [].
Proof.
  intros Hs Hr Hlen Hops. revert engine tbl times mt Hr Hlen.
  induction Hops as [|args op reqs ops Hop Hops IH]; intros engine tbl times mt Hr Hlen; cbn [serve_requests].
  { destruct times; [|done]. do 4 eexists. split_and!; [done|constructor|done]. }
  destruct times as [|now times]; [done|]. injection Hlen as Hlen.
  assert (keys op <> []) as Hk by (by apply parsed_operation_ok in Hop as (_ & ? & _)).
  destruct (execute_law engine tbl now times op Hk Hr) as (tbl1 & Hr1 & Hstep).
  unfold answer_request. cbn [arguments]. rewrite Hop. cbn [session_execute]. rewrite Hs. cbn [negb run_command].
  destruct (engine_execute engine op) as [engine1 reply]. cbn [fst snd] in *. cbn [mbind option_bind].
  destruct (IH engine1 tbl1 times (count_command mt) Hr1 Hlen) as (engine' & mt' & replies & tbl' & -> & Hrun & Hr').
  do 4 eexists. split_and!; [done|by econstructor|done].
Qed.

(** C1: End to end: the bytes a client gets back are the encoded replies of one
    table.  On a freshly started server without a password, whatever the rest of
    the configuration, the number of owners, the hash function and the allocator,
    a client's framed data commands - over one owner or over several, in whatever
    chunks they arrive - are executed one after the other on one table that starts
    empty, each at the next reading of the clock, with the replies their
    specification gives (an error where it fails or is refused), encoded and
    bounded, in order. *)
Theorem end_to_end hash config reserve now sys times ct_eq id reqs ops ws chunks :
  config_typed config -> with_clock reserve config now = Ok sys -> password config = None ->
  ascending now times -> length times = length ops -> 1000 * Z.of_nat (length times) < usize_max ->
  Forall2 (fun args op => parse args (commands config) = Ok (Data op)) reqs ops ->
  Forall2 (is_frame (protocol config)) reqs ws -> fragments chunks -> concat chunks = concat ws ->
  exists k r replies tbl, new_connection id config = Ok k /\
    connection (H := system_api hash config reserve) ct_eq (replicate (S (length reqs)) (false, Written))
      config k (mkEngine sys times) default_metrics (Received <$> chunks) = Ok r /\
    table_run (SystemDriver.admits config) ∅ ops times replies tbl /\
    sent r = (fun reply => encode (bounded_reply config reply) []) <$> replies /\
    connection_ending r = Open.
Proof.
  intros Hty Hstart Hpw Hasc Hlen Hmax Hops Hws Hfr Hcat.
  assert (validate config = Ok tt) as Hv by (by apply bind_Ok in Hstart as ([] & Hv & _)).
  assert (Hc := validate_ok config Hty Hv).
  assert (Hh := start_holds hash config reserve now times sys Hty Hstart Hasc Hmax).
  set (H := system_api hash config reserve). set (Hlaws := system_laws hash config reserve Hc).
  assert (Hl := protocol_limits_ok config Hty Hc).
  exists (mkConnection (new_session id config) (idle (protocol config)) []).
  destruct (connection_serves (H := H) ct_eq config (mkConnection (new_session id config) (idle (protocol config)) [])
    (mkEngine sys times) default_metrics reqs ws chunks Hl) as (r & s' & e' & m' & replies & closed & Hr & Hserve & Hsent & _ & _ & _ & Hend).
  { exists ∅, times. split; [exact Hh|]. rewrite Hlen, (Forall2_length _ _ _ Hops). lia. } { done. }
  { split_and!; [by apply idle_resumes|done|done]. }
  destruct (serve_data_requests ct_eq config (new_session id config) (mkEngine sys times) ∅ times default_metrics
    reqs ops) as (e2 & m2 & replies2 & tbl & Hserve2 & Hrun & _); try done.
  { unfold new_session. cbn. by rewrite Hpw. }
  cbn [session] in Hserve. rewrite Hserve2 in Hserve. injection Hserve as <- <- <- <- <-.
  exists r, replies2, tbl. unfold new_connection, new_decoder. rewrite (ok_protocol config Hc).
  unfold arriving in Hr. rewrite app_nil_r in Hr. split_and!; try done.
Qed.

(** Two writes over two owners, a deadline that passes, and a read: the bytes. *)
Lemma end_to_end_witness :
  exists k r replies tbl, new_connection 1 sample_config = Ok k /\
    connection (H := sample_api) same_bytes (replicate 4 (false, Written)) sample_config k
      (sample_engine [1; 2; 9]) default_metrics (Received <$> [concat (frame <$> sample_requests)]) = Ok r /\
    sent r = [bs "+OK" ++ CRLF; bs ":1" ++ CRLF; bs "*2" ++ CRLF ++ bs "$-1" ++ CRLF ++ bs "$1" ++ CRLF ++ bs "1" ++ CRLF] /\
    table_run (SystemDriver.admits sample_config) ∅
      [MultiSet [(bs "a", bs "1"); (bs "b", bs "2")]; Expire (bs "b") 5; MultiGet [bs "b"; bs "a"]]
      [1; 2; 9] replies tbl.
Proof.
  destruct (end_to_end sample_hash sample_config granted 0 sample_start [1; 2; 9] same_bytes 1 sample_requests
    [MultiSet [(bs "a", bs "1"); (bs "b", bs "2")]; Expire (bs "b") 5; MultiGet [bs "b"; bs "a"]]
    (frame <$> sample_requests) [concat (frame <$> sample_requests)])
    as (k & r & replies & tbl & Hk & Hr & Hrun & _ & _).
  { exact sample_typed. } { exact sample_started. } { reflexivity. } { cbn. int_lia. } { reflexivity. }
  { vm_compute. reflexivity. } { repeat (apply List.Forall2_cons; [vm_compute; reflexivity|]). apply List.Forall2_nil. }
  { exact sample_frames. } { repeat constructor; vm_compute; discriminate. } { vm_compute. reflexivity. }
  exists k, r, replies, tbl. split; [exact Hk|]. split; [exact Hr|]. split; [|exact Hrun].
  assert (sent <$> connection (H := sample_api) same_bytes (replicate 4 (false, Written)) sample_config
    (mkConnection (new_session 1 sample_config) (idle default_limits) []) (sample_engine [1; 2; 9]) default_metrics
    (Received <$> [concat (frame <$> sample_requests)]) = Ok [bs "+OK" ++ CRLF; bs ":1" ++ CRLF;
      bs "*2" ++ CRLF ++ bs "$-1" ++ CRLF ++ bs "$1" ++ CRLF ++ bs "1" ++ CRLF]) as Hsent by (vm_compute; reflexivity).
  injection Hk as <-. apply (f_equal (fmap sent)) in Hr.
  by injection (eq_trans (eq_sym Hr) Hsent).
Defined.
