(* ===== verification/AcceptTheorems.v ===== *)
(** * The accept loop keeps its bounds

    At every moment each permit is free or held by one live connection, the
    identities of the connections are fresh and fit a reply, the counters agree
    with the loop, and a loop that was left drains. *)

From S2P Require Import Prelude Bytes Protocol Decoder Command Expiry Store Config Session Server.

Local Open Scope Z_scope.

Section AcceptLoop.
Context (c : Config) (Hc : 1 <= max_connections c <= 65536).

(** The accept loop and its connections at any moment, [offers] being the
    connections the listener has yielded. *)
Record accept_ok (offers : Z) (a : Acceptor) : Prop := {
  aok_permits : 0 <= permits a;
  aok_share : permits a + Z.of_nat (size (live a)) = max_connections c;
  aok_active : active_connections (metrics a) = Z.of_nat (size (live a));
  aok_ids : forall id, id ∈ live a -> 1 <= id <= total_connections (metrics a);
  aok_total : 0 <= total_connections (metrics a) <= i64_max;
  aok_offers : rejected_connections (metrics a) = (offers - total_connections (metrics a)) mod 2 ^ 64;
}.

Definition offered (e : accept_event) : Z := match e with Accepts => 1 | _ => 0 end.

Lemma new_acceptor_ok : accept_ok 0 (new_acceptor c).
Proof.
  constructor; cbn [new_acceptor permits live metrics default_metrics]; rewrite ?size_empty;
    [cbn; int_lia..|set_solver|cbn; int_lia|done].
Qed.

Lemma size_live_less (X : gset Z) id : id ∈ X -> size X = S (size (X ∖ {[id]})).
Proof.
  intros Hin. rewrite (union_difference_L {[id]} X) at 1 by set_solver.
  rewrite size_union, size_singleton; [done|set_solver].
Qed.

Lemma accept_step_ok offers a e a' : accept_ok offers a -> accept_step a e = Ok a' ->
  accept_ok (offers + offered e) a'.
Proof.
  intros [H1 H2 H3 H4 H5 H6] Hx. destruct e as [| |id|]; cbn [accept_step offered] in *.
  - destruct (outcome a); [done|]. destruct (permits a =? 0) eqn:Hp; zhyps.
    + injection Hx as <-. constructor; try done.
      cbn [metrics rejected_connections count_rejected total_connections].
      rewrite H6. unfold fetch_add. rewrite Zplus_mod_idemp_l. f_equal. lia.
    + destruct (i64_max <? _) eqn:Hid; [done|]. injection Hx as <-. zhyps.
      assert (fetch_add (total_connections (metrics a)) = total_connections (metrics a) + 1) as Ht
        by (apply Z.mod_small; int_lia).
      assert (total_connections (metrics a) + 1 ∉ live a) as Hn by (intros Hn%H4; lia).
      assert (size ({[total_connections (metrics a) + 1]} ∪ live a) = S (size (live a))) as Hs
        by (rewrite size_union, size_singleton; [done|set_solver]).
      constructor; cbn [permits live metrics guard_new count_connection active_connections
        total_connections rejected_connections]; rewrite ?Ht, ?Hs; try lia.
      * rewrite H3. unfold fetch_add. rewrite Z.mod_small; lia.
      * intros id [->%elem_of_singleton|Hin]%elem_of_union; [lia|]. apply H4 in Hin. lia.
      * rewrite H6. f_equal. lia.
  - destruct (outcome a); [done|]. injection Hx as <-. by constructor; rewrite ?Z.add_0_r.
  - case_bool_decide as Hin; [|done]. injection Hx as <-. rewrite Z.add_0_r.
    assert (Hs := size_live_less (live a) id Hin).
    constructor; cbn [permits live metrics guard_drop active_connections total_connections
      rejected_connections]; try done; try lia.
    + rewrite H3, Z.mod_small; lia.
    + intros x Hx. apply H4. set_solver.
  - destruct (outcome a); [done|]. injection Hx as <-. by constructor; rewrite ?Z.add_0_r.
Qed.

Lemma accept_run_ok offers a events a' : accept_ok offers a -> accept_run a events = Ok a' ->
  accept_ok (offers + foldr Z.add 0 (offered <$> events)) a'.
Proof.
  revert offers a. induction events as [|e events IH]; intros offers a Ha Hx; cbn in *.
  { injection Hx as <-. by rewrite Z.add_0_r. }
  apply bind_Ok in Hx as (a1 & Hs & Hx). rewrite Z.add_assoc.
  apply (IH _ a1); [by apply accept_step_ok with a|done].
Qed.

End AcceptLoop.

(** The connections that are left end, in any order. *)
Lemma accept_drains order a : NoDup order -> live a = list_to_set order ->
  exists a', accept_run a (ConnectionEnds <$> order) = Ok a' /\
    outcome a' = outcome a /\ live a' = ∅ /\ permits a' = permits a + Z.of_nat (length order).
Proof.
  revert a. induction order as [|id order IH]; intros a Hnd Hl.
  { exists a. cbn in *. split_and!; [done..|lia]. }
  apply NoDup_cons in Hnd as [Hid Hnd]. cbn [fmap list_fmap accept_run accept_step list_to_set] in *.
  rewrite bool_decide_eq_true_2 by set_solver. cbn [mbind res_bind].
  destruct (IH (mkAcceptor (permits a + 1) (live a ∖ {[id]}) (guard_drop (metrics a)) (outcome a)))
    as (a' & Hx & Ho & He & Hp); [done|cbn [live]; set_solver|].
  exists a'. cbn [outcome permits length] in *. split_and!; [done..|lia].
Qed.

(** C18: The accept loop never holds more connections than configured: whatever
    connects, ends or fails, in whatever order, each permit is free or held by
    exactly one live connection, [active_connections] counts them, no identity
    is given out twice and each fits the 64-bit integer of a reply, and every
    connection offered was either accepted or counted as rejected; a loop that
    was left drains: its connections may end in any order, and then every permit
    is back. *)
Theorem accept_loop_bounded c events a :
  config_typed c -> validate c = Ok tt -> accept_run (new_acceptor c) events = Ok a ->
  0 <= permits a /\ permits a + Z.of_nat (size (live a)) = max_connections c /\
  active_connections (metrics a) = Z.of_nat (size (live a)) /\
  (forall id, id ∈ live a -> 1 <= id <= total_connections (metrics a) /\ as_i64 id = id) /\
  rejected_connections (metrics a)
    = (foldr Z.add 0 (offered <$> events) - total_connections (metrics a)) mod 2 ^ 64 /\
  (forall a', accept_step a Accepts = Ok a' -> permits a <> 0 ->
     exists id, (id ∉ live a) /\ total_connections (metrics a) < id /\ live a' = {[id]} ∪ live a) /\
  forall order, NoDup order -> live a = list_to_set order ->
    exists a', accept_run a (ConnectionEnds <$> order) = Ok a' /\
      live a' = ∅ /\ permits a' = max_connections c /\ outcome a' = outcome a.
Proof.
  intros Hty Hv Hx. assert (Hc := ok_connections c (validate_ok c Hty Hv)).
  destruct (accept_run_ok c Hc 0 _ events a (new_acceptor_ok c Hc) Hx) as [H1 H2 H3 H4 H5 H6].
  split_and!; [done..| |done| |].
  - intros id Hid%H4. split; [done|]. unfold as_i64. by rewrite (proj2 (Z.leb_le _ _)) by lia.
  - intros a' Ha Hp. cbn [accept_step] in Ha. destruct (outcome a); [done|].
    rewrite (proj2 (Z.eqb_neq _ _) Hp) in Ha. destruct (_ <? _); [done|]. injection Ha as <-.
    exists (total_connections (metrics a) + 1). split_and!; [intros Hn%H4; lia|lia|done].
  - intros order Hnd Ho. destruct (accept_drains order a Hnd Ho) as (a' & Ha & Hout & Hl & Hp).
    exists a'. split_and!; [done..| |done]. rewrite Hp, <- H2, Ho, size_list_to_set by done. lia.
Qed.

Lemma accept_loop_bounded_witness :
  exists a, accept_run (new_acceptor (default_config None))
    [Accepts; Accepts; ConnectionEnds 1; Accepts; ShutdownRequested] = Ok a /\
  permits a = 126 /\ active_connections (metrics a) = 2 /\ 3 ∈ live a /\
  exists a', accept_run a (ConnectionEnds <$> [3; 2]) = Ok a' /\ permits a' = 128.
Proof.
  eexists. split; [reflexivity|].
  match goal with |- permits ?a = _ /\ _ => set (b := a) end.
  assert (permits b = 126 /\ active_connections (metrics b) = 2) as [Hp Ha] by (split; vm_compute; reflexivity).
  assert (live b = list_to_set [3; 2]) as Hl by (apply set_eq; intros x; cbn [live b]; set_solver).
  split_and!; [done..|rewrite Hl; set_solver|].
  destruct (accept_loop_bounded (default_config None)
    [Accepts; Accepts; ConnectionEnds 1; Accepts; ShutdownRequested] b) as (_ & _ & _ & _ & _ & _ & Hd).
  { apply default_config_typed. } { vm_compute; reflexivity. } { reflexivity. }
  destruct (Hd [3; 2]) as (a' & Hx & _ & Hpa & _).
  { repeat constructor; set_solver. } { exact Hl. }
  exists a'. split; [exact Hx|exact Hpa].
Defined.
