(* ===== verification/ServerRun.v ===== *)
(** * The server as a whole ([Server::run] of [recall-server/src/lib.rs])

    The accept loop, the requests of the live connections, and the engine, in any
    interleaving: a connection waits for the reply to its request before it sends
    another or ends, and the engine is shut down once the loop was left and every
    connection has ended (guards here, consequences of the code of [connection] and
    [Server::run] in [TaskRun]).  So no client is told that the server is shutting down,
    every reply finds its connection, and the shutdown finds nothing unfinished. *)

From S2P Require Import Prelude Bytes Protocol Command Expiry ExpiryTheorems Store StoreSpec StoreTheorems Config.
From S2P Require Import Engine System SystemSpec SystemConservation SystemRuns SystemProgress SystemDriver SystemSample.
From S2P Require Import Session Server AcceptTheorems.

Local Open Scope Z_scope.

(** [closing] is set when [Engine::shutdown] begins. *)
Record server := mkServer {
  acceptor : Acceptor;
  server_engine : system ExpiryIndex;
  closing : bool;
}.

Inductive server_event :=
| Loop (e : accept_event)
| Work (a : action)
| BeginShutdown.

(** The requests that have their credits and wait for room. *)
Definition seeking (sys : system ExpiryIndex) : list (nat * Operation) :=
  (fun a => request_of (request a)) <$> admitting sys.

(** The clients that wait for a reply. *)
Definition outstanding (sys : system ExpiryIndex) : list nat :=
  (seeking sys).*1 ++ (waiting sys).*1 ++ (unanswered sys).*1.

(** A connection is named by its identity. *)
Definition is_live (s : server) (client : nat) : bool := bool_decide (Z.of_nat client ∈ live (acceptor s)).

Definition is_free (s : server) (client : nat) : bool :=
  is_live s client && bool_decide (client ∉ outstanding (server_engine s)).

(** Who may do what: live connections submit one request at a time, and the
    engine stops once its shutdown has begun. *)
Definition allowed (s : server) (a : action) : bool :=
  match a with
  | Submit client _ | AdmissionTimeout client _ => negb (closing s) && is_free s client
  | AdmissionClosed client _ => closing s && is_free s client
  | StopCoordinator | StopOwner _ => closing s
  | _ => true
  end.

(** A connection that waits for a reply does not end. *)
Definition may_end (s : server) (e : accept_event) : bool :=
  match e with
  | ConnectionEnds id => bool_decide (Z.to_nat id ∉ outstanding (server_engine s))
  | _ => true
  end.

Section ServerRun.
Context (hash : bytes -> Z) (config : Config).

Definition server_step (s : server) (e : server_event) : res () (server * list occurrence) :=
  match e with
  | Loop e =>
      if may_end s e then
        a ← accept_step (acceptor s) e;
        Ok (mkServer a (server_engine s) (closing s), [])
      else Err tt
  | Work a =>
      if allowed s a then
        '(sys, h) ← fire hash config (server_engine s) a;
        Ok (mkServer (acceptor s) sys (closing s), h)
      else Err tt
  | BeginShutdown =>
      if bool_decide (is_Some (outcome (acceptor s))) && bool_decide (live (acceptor s) = ∅)
      then Ok (mkServer (acceptor s) (server_engine s) true, [])
      else Err tt
  end.

(** [Server::run], event by event. *)
Fixpoint server_run (s : server) (events : list server_event) : res () (server * list occurrence) :=
  match events with
  | [] => Ok (s, [])
  | e :: events =>
      '(s, happened) ← server_step s e;
      '(s, later) ← server_run s events;
      Ok (s, happened ++ later)
  end.

(** ** Who waits *)

Definition asks (a : action) : option (nat * Operation) :=
  match a with
  | Submit c op | AdmissionTimeout c op | AdmissionClosed c op => Some (c, op)
  | _ => None
  end.

(** What the engine's own actions bring about. *)
Inductive reports : list occurrence -> Prop :=
| reports_nothing : reports []
| reports_effect c op now r : reports [TakesEffect c op now r]
| reports_answer c r : reports [Answered c r]
| reports_service c op now r : reports [TakesEffect c op now r; Answered c r]
| reports_sample i x : reports [Sampled i x].

Definition refusals (h : list occurrence) : list (nat * Reply) :=
  omap (fun x => match x with Refused c r => Some (c, r) | _ => None end) h.

Lemma open_refusal n limit op r : admit_request hash n limit false op = Refuse r -> r <> shutting_down.
Proof.
  unfold admit_request. destruct (keys op); [by intros [= <-]|].
  destruct (_ || _); [by intros [= <-]|]. by destruct (forallb _ _).
Qed.

(** Some queue is closed. *)
Definition shut (sys : system ExpiryIndex) : Prop :=
  stopped (coordinator sys) = true \/ exists i o, owners sys !! i = Some o /\ stopping o = true.

(** What an action has to do with those who ask: a request asks for room or is
    refused, gets it or is given up, or nothing of the kind.  A client is told of
    a shutdown only when there is one. *)
Inductive admission (sys : system ExpiryIndex) (a : action) (sys' : system ExpiryIndex) :
    list occurrence -> Prop :=
| admission_asks c op : asks a = Some (c, op) -> seeking sys' = seeking sys ++ [(c, op)] ->
    admission sys a sys' []
| admission_refused c op r : asks a = Some (c, op) -> seeking sys' = seeking sys ->
    (r = shutting_down -> a = AdmissionClosed c op) -> admission sys a sys' [Refused c r]
| admission_enters c op : asks a = None -> seeking sys ≡ₚ (c, op) :: seeking sys' ->
    admission sys a sys' [Accepted c op]
| admission_leaves c op r : asks a = None -> seeking sys ≡ₚ (c, op) :: seeking sys' ->
    (r = shutting_down -> shut sys) -> admission sys a sys' [Refused c r]
| admission_other h : asks a = None -> seeking sys' = seeking sys -> reports h ->
    admission sys a sys' h.

Lemma submit_admission sys c op sys' h : submit hash config sys c op = Ok (sys', h) ->
  admission sys (Submit c op) sys' h.
Proof.
  unfold submit. destruct (admit_request _ _ _ _ _) as [r|i charge|charge] eqn:Hadm.
  - apply open_refusal in Hadm. intros [= <- <-]. by eapply admission_refused.
  - destruct (owner_credits sys !! i); [|done]. destruct (negb _); [done|]. intros [= <- <-].
    eapply admission_asks; [done|]. unfold seeking. cbn [admitting]. by rewrite fmap_app.
  - destruct (negb _); [done|]. intros [= <- <-].
    eapply admission_asks; [done|]. unfold seeking. cbn [admitting]. by rewrite fmap_app.
Qed.

Lemma seeking_forget sys n ad : admitting sys !! n = Some ad ->
  seeking sys ≡ₚ request_of (request ad) :: seeking (forget sys n).
Proof. intros Hn. unfold seeking. by rewrite (delete_Permutation _ _ _ Hn) at 1. Qed.

Lemma abandon_admission sys n reply a sys' h : asks a = None -> (reply = shutting_down -> shut sys) ->
  abandon sys n reply = Ok (sys', h) -> admission sys a sys' h.
Proof.
  intros Ha Hr. unfold abandon. destruct (admitting sys !! n) as [ad|] eqn:Hn; [|done]. intros [= <- <-].
  apply admission_leaves with (operation (request ad)); [done| |done].
  rewrite (seeking_forget _ _ _ Hn). by destruct ad as [req [i|]].
Qed.

Lemma enqueue_admission sys n sys' h : enqueue config sys n = Ok (sys', h) ->
  admission sys (Enqueue n) sys' h.
Proof.
  unfold enqueue. destruct (admitting sys !! n) as [[req [i|]]|] eqn:Hn; [| |done].
  - destruct (owners sys !! i) as [o|] eqn:Ho; [|done]. destruct (stopping o) eqn:Hs.
    + apply abandon_admission; [done|]. intros _. right. by exists i, o.
    + destruct (_ <? _); [|done]. intros [= <- <-]. apply admission_enters; [done|].
      by rewrite (seeking_forget _ _ _ Hn).
  - destruct (stopped (coordinator sys)) eqn:Hs.
    + apply abandon_admission; [done|]. intros _. by left.
    + destruct (_ <? _); [|done]. intros [= <- <-]. apply admission_enters; [done|].
      by rewrite (seeking_forget _ _ _ Hn).
Qed.

(** The coordinator asks nothing, and goes on. *)
Lemma coordinate_goes_on reserve sys sys' h : coordinate hash config reserve sys = Ok (sys', h) ->
  stopped (coordinator sys') = false /\ reports h.
Proof.
  intros Hx. unfold coordinate in Hx. cbn zeta in Hx.
  destruct (coordinator sys) as [|req parts n|req parts t rs|req parts rp n|req parts rp n|] eqn:Hc.
  - unfold next_cross in Hx. destruct (cross sys); [done|].
    apply bind_Ok in Hx as (id & _ & Hx). apply bind_Ok in Hx as (ps & _ & [= <- <-]). by split; [|constructor].
  - destruct (parts !! n); [apply bind_Ok in Hx as ([s1 x] & _ & [= <- <-])|injection Hx as <- <-];
      by split; [|constructor].
  - destruct (parts !! length rs).
    + apply bind_Ok in Hx as ([s1 x] & _ & Hx).
      destruct x; try done; injection Hx as <- <-; by split; [|constructor].
    + apply bind_Ok in Hx as ([ph rp] & Hd%expect_Ok & [= <- <-]). split; [|constructor].
      unfold decide_phase in Hd. apply bind_Some in Hd as (reply & _ & Hd).
      by destruct (match encoded_len reply with Some _ => _ | None => _ end); injection Hd as <- <-.
  - destruct (parts !! n); [apply bind_Ok in Hx as ([s1 x] & _ & [= <- <-])|injection Hx as <- <-];
      by split; [|constructor].
  - destruct (parts !! n); [apply bind_Ok in Hx as ([s1 x] & _ & [= <- <-])|injection Hx as <- <-];
      by split; [|constructor].
  - done.
Qed.

Lemma abandon_coordinator (sys : system ExpiryIndex) n reply sys' h : abandon sys n reply = Ok (sys', h) ->
  coordinator sys' = coordinator sys.
Proof.
  unfold abandon. destruct (admitting sys !! n) as [ad|]; [|done]. intros [= <- _].
  by destruct ad as [req [i|]].
Qed.

Lemma enqueue_coordinator (sys : system ExpiryIndex) n sys' h : enqueue config sys n = Ok (sys', h) ->
  coordinator sys' = coordinator sys.
Proof.
  unfold enqueue. destruct (admitting sys !! n) as [[req [i|]]|]; [| |done].
  - destruct (owners sys !! i) as [o|]; [|done].
    destruct (stopping o); [apply abandon_coordinator|]. destruct (_ <? _); [|done]. by intros [= <- _].
  - destruct (stopped _); [apply abandon_coordinator|]. destruct (_ <? _); [|done]. by intros [= <- _].
Qed.

Lemma submit_coordinator (sys : system ExpiryIndex) c op sys' h : submit hash config sys c op = Ok (sys', h) ->
  coordinator sys' = coordinator sys.
Proof.
  unfold submit. destruct (admit_request _ _ _ _ _) as [r|i charge|charge].
  - by intros [= <- _].
  - destruct (owner_credits sys !! i); [|done]. destruct (negb _); [done|]. by intros [= <- _].
  - destruct (negb _); [done|]. by intros [= <- _].
Qed.

(** Only [StopCoordinator] stops the coordinator. *)
Lemma fire_goes_on sys a sys' h : fire hash config sys a = Ok (sys', h) -> a <> StopCoordinator ->
  stopped (coordinator sys) = false -> stopped (coordinator sys') = false.
Proof.
  intros Hx Ha Hst. destruct a as [c op|c op|c op|n|n|i b r|r|now|i| |i]; cbn [fire] in Hx; try done.
  - by rewrite (submit_coordinator _ _ _ _ _ Hx).
  - destruct (admit_request _ _ _ _ _); try done; by injection Hx as <- _.
  - destruct (admit_request _ _ _ _ _); try done; by injection Hx as <- _.
  - by rewrite (enqueue_coordinator _ _ _ _ Hx).
  - by rewrite (abandon_coordinator _ _ _ _ _ Hx).
  - unfold act in Hx. destruct (owners sys !! i); [|done]. destruct (owner_credits sys !! i); [|done].
    by apply bind_Ok in Hx as ([o' [[req reply]|]] & _ & Hx); injection Hx as <- <-.
  - by apply coordinate_goes_on in Hx as (? & ?).
  - destruct (_ && _); try done. by injection Hx as <- <-.
  - unfold sample in Hx. destruct (_ <=? _)%nat; [done|].
    apply bind_Ok in Hx as ([s1 x] & Hk%contact_coordinator & Hx). destruct x; try done.
    injection Hx as <- <-. by destruct Hk as [l ->].
  - unfold stop_owner in Hx. destruct (negb _); [done|]. destruct (_ <=? _)%nat; [done|].
    apply bind_Ok in Hx as ([s1 x] & Hk%contact_coordinator & [= <- <-]). by destruct Hk as [l ->].
Qed.

Lemma fire_admission sys a sys' h : fire hash config sys a = Ok (sys', h) -> admission sys a sys' h.
Proof.
  intros Hx. destruct a as [c op|c op|c op|n|n|i b r|r|now|i| |i]; cbn [fire] in Hx.
  - by apply submit_admission in Hx.
  - destruct (admit_request _ _ _ _ _); try done; injection Hx as <- <-; by eapply admission_refused.
  - destruct (admit_request _ _ _ _ _); try done; injection Hx as <- <-; by eapply admission_refused.
  - by apply enqueue_admission in Hx.
  - apply abandon_admission with n deadline_exceeded; [done| |done]. by intros [= ].
  - apply admission_other; [done|unfold seeking; by rewrite (act_admitting _ _ _ _ _ _ _ Hx)|].
    unfold act in Hx. destruct (owners sys !! i); [|done]. destruct (owner_credits sys !! i); [|done].
    apply bind_Ok in Hx as ([o' [[req reply]|]] & _ & Hx); injection Hx as <- <-; constructor.
  - apply admission_other; [done|unfold seeking; by rewrite (coordinate_admitting _ _ _ _ _ _ Hx)|].
    by apply coordinate_goes_on in Hx as (? & ?).
  - destruct (_ && _); [|done]. injection Hx as <- <-. by apply admission_other; [..|constructor].
  - unfold sample in Hx. destruct (_ <=? _)%nat; [done|].
    apply bind_Ok in Hx as ([s1 x] & Hk%contact_admitting & Hx). destruct x; try done.
    injection Hx as <- <-. apply admission_other; [done|unfold seeking; by rewrite Hk|constructor].
  - unfold stop_coordinator in Hx. destruct (coordinator sys); try done.
    destruct (cross sys); try done. injection Hx as <- <-. by apply admission_other; [..|constructor].
  - unfold stop_owner in Hx. destruct (negb _); [done|]. destruct (_ <=? _)%nat; [done|].
    apply bind_Ok in Hx as ([s1 x] & Hk%contact_admitting & [= <- <-]).
    apply admission_other; [done|unfold seeking; by rewrite Hk|constructor].
Qed.

Lemma reports_quiet h : reports h -> accepted h = [] /\ refusals h = [].
Proof. by destruct 1. Qed.

Lemma effects_have_replies h : (effective h).*1 = (effect_replies h).*1.
Proof. induction h as [|[] h IH]; cbn in *; try done. by f_equal. Qed.

(** Who asks, and who hears something. *)
Definition asker (a : action) : list nat := match asks a with Some (c, _) => [c] | None => [] end.

Definition heard (h : list occurrence) : list (nat * Reply) := answers h ++ refusals h.

(** Who waits for an effect or an answer. *)
Lemma inside_fire sys a sys' h : fire hash config sys a = Ok (sys', h) ->
  (accepted h).*1 ++ (waiting sys).*1 ++ (unanswered sys).*1
    ≡ₚ (answers h).*1 ++ (waiting sys').*1 ++ (unanswered sys').*1.
Proof.
  intros Hx. assert (G := fire_conserves hash config sys a). rewrite Hx in G. destruct G as [G1 G2].
  apply (fmap_Permutation fst) in G1, G2. rewrite !fmap_app, effects_have_replies in G1. rewrite !fmap_app in G2.
  rewrite app_assoc, G1, <- app_assoc, (Permutation_app_comm (waiting sys').*1), app_assoc, G2.
  rewrite <- !app_assoc. f_equiv. apply Permutation_app_comm.
Qed.

(** Who waits: those who waited and the one who asks, but those who hear. *)
Lemma outstanding_fire sys a sys' h : fire hash config sys a = Ok (sys', h) ->
  asker a ++ outstanding sys ≡ₚ (heard h).*1 ++ outstanding sys'.
Proof.
  intros Hx. assert (Hi := inside_fire _ _ _ _ Hx). unfold outstanding, heard, asker.
  destruct (fire_admission _ _ _ _ Hx) as [c op Ha Hs|c op r Ha Hs _|c op Ha Hs|c op r Ha Hs _|h Ha Hs Hr];
    rewrite Ha; [..|apply reports_quiet in Hr as [E1 E2]; rewrite E1 in Hi; rewrite E2, app_nil_r];
    cbn [accepted answers refusals omap list_omap app fmap list_fmap fst] in Hi |- *.
  - rewrite Hs, fmap_app, <- app_assoc, Hi. cbn. apply Permutation_middle.
  - by rewrite Hs, Hi.
  - rewrite (fmap_Permutation fst _ _ Hs), <- Hi. cbn. apply Permutation_middle.
  - by rewrite (fmap_Permutation fst _ _ Hs), Hi.
  - rewrite Hs, Hi, !app_assoc. by rewrite (Permutation_app_comm (seeking sys).*1).
Qed.

(** ** One event *)

(** The server at any moment, [offers] connections having been offered. *)
Record server_ok offers (s : server) : Prop := {
  sv_accept : accept_ok config offers (acceptor s);
  sv_total : total_connections (metrics (acceptor s)) <= offers;
  sv_waiting : NoDup (outstanding (server_engine s));
  sv_live c : c ∈ outstanding (server_engine s) -> Z.of_nat c ∈ live (acceptor s);
  sv_open : closing s = false -> stopped (coordinator (server_engine s)) = false;
  sv_closed : closing s = true -> is_Some (outcome (acceptor s)) /\ live (acceptor s) = ∅;
}.

(** What the loop and the engine have to do with an event. *)
Definition offers_of (e : server_event) : Z := match e with Loop e => offered e | _ => 0 end.

Definition worked (events : list server_event) : list action :=
  omap (fun e => match e with Work a => Some a | _ => None end) events.

Lemma allowed_asks s a c op : allowed s a = true -> asks a = Some (c, op) ->
  Z.of_nat c ∈ live (acceptor s) /\ c ∉ outstanding (server_engine s).
Proof.
  assert (is_free s c = true -> Z.of_nat c ∈ live (acceptor s) /\ c ∉ outstanding (server_engine s)) as G.
  { unfold is_free, is_live. rewrite andb_true_iff, !bool_decide_eq_true. done. }
  destruct a; try done; cbn [allowed asks]; intros [_ Hf]%andb_true_iff [= -> _]; by apply G.
Qed.

Lemma allowed_asker s a c : allowed s a = true -> c ∈ asker a ->
  Z.of_nat c ∈ live (acceptor s) /\ c ∉ outstanding (server_engine s).
Proof.
  unfold asker. intros Hal Hc. destruct (asks a) as [[c' op]|] eqn:Ha; [|by apply not_elem_of_nil in Hc].
  apply list_elem_of_singleton in Hc as ->. by eapply allowed_asks.
Qed.

(** Who hears something or waits next waited already, or asks. *)
Lemma work_outstanding s a sys' h : allowed s a = true ->
  fire hash config (server_engine s) a = Ok (sys', h) -> NoDup (outstanding (server_engine s)) ->
  NoDup ((heard h).*1 ++ outstanding sys') /\
  forall c, c ∈ (heard h).*1 ++ outstanding sys' -> c ∈ outstanding (server_engine s) \/ c ∈ asker a.
Proof.
  intros Hal Hx Hnd. rewrite <- (outstanding_fire _ _ _ _ Hx). setoid_rewrite <- (outstanding_fire _ _ _ _ Hx).
  split; [|intros c [?|?]%elem_of_app; auto]. apply NoDup_app. split_and!; [|by intros c Hc; eapply allowed_asker|done].
  unfold asker. destruct (asks a) as [[c op]|]; [apply NoDup_singleton|constructor].
Qed.

(** Who hears something is connected. *)
Lemma work_heard s a sys' h c r : allowed s a = true ->
  fire hash config (server_engine s) a = Ok (sys', h) -> NoDup (outstanding (server_engine s)) ->
  (forall c, c ∈ outstanding (server_engine s) -> Z.of_nat c ∈ live (acceptor s)) ->
  (c, r) ∈ heard h -> Z.of_nat c ∈ live (acceptor s).
Proof.
  intros Hal Hx Hnd Hlive Hin.
  destruct (proj2 (work_outstanding _ _ _ _ Hal Hx Hnd) c) as [Hc|Hc]; [|by apply Hlive|by eapply allowed_asker].
  apply elem_of_app. left. apply list_elem_of_fmap. by exists (c, r).
Qed.

(** While the engine is not being shut down, none of its queues is closed. *)
Lemma open_not_shut w offers s : server_ok offers s -> sys_ok hash w (server_engine s) ->
  closing s = false -> ~ shut (server_engine s).
Proof.
  intros Hs Hsys Hopen. assert (Hco := sv_open _ _ Hs Hopen). intros [E|(i & o & Ho & E)]; [congruence|].
  by rewrite (sys_running _ _ _ Hsys i o Ho Hco) in E.
Qed.

Lemma work_refusals w offers s a sys' h c : server_ok offers s -> sys_ok hash w (server_engine s) ->
  allowed s a = true -> fire hash config (server_engine s) a = Ok (sys', h) ->
  (c, shutting_down) ∉ refusals h.
Proof.
  intros Hs Hsys Hal Hx Hin.
  assert (Z.of_nat c ∈ live (acceptor s)) as Hlive.
  { eapply work_heard; [done..|apply Hs|apply Hs|]. apply elem_of_app. by right. }
  assert (closing s = false) as Hopen.
  { destruct (closing s) eqn:E; [|done]. destruct (sv_closed _ _ Hs E) as [_ He]. rewrite He in Hlive. set_solver. }
  destruct (fire_admission _ _ _ _ Hx) as [c' op Ha _|c' op r Ha _ Hr|c' op _ _|c' op r _ _ Hr|h _ _ Hrep].
  - by apply not_elem_of_nil in Hin.
  - apply list_elem_of_singleton, pair_eq in Hin as [-> <-]. specialize (Hr eq_refl) as ->. cbn in Hal.
    by rewrite Hopen in Hal.
  - by apply not_elem_of_nil in Hin.
  - apply list_elem_of_singleton, pair_eq in Hin as [-> <-]. by eapply open_not_shut; [..|apply Hr].
  - apply reports_quiet in Hrep as [_ E]. rewrite E in Hin. by apply not_elem_of_nil in Hin.
Qed.

Lemma work_ok offers s a sys' h : server_ok offers s -> allowed s a = true ->
  fire hash config (server_engine s) a = Ok (sys', h) ->
  server_ok offers (mkServer (acceptor s) sys' (closing s)).
Proof.
  intros [H1 H2 H3 H4 H5 H6] Hal Hx. destruct (work_outstanding _ _ _ _ Hal Hx H3) as [Hnd Hin].
  constructor; cbn [acceptor server_engine closing]; try done.
  - by apply NoDup_app in Hnd as (_ & _ & ?).
  - intros c Hc. destruct (Hin c) as [Ho|Ha]; [apply elem_of_app; auto|by apply H4|]. by eapply allowed_asker.
  - intros Hopen. apply (fire_goes_on _ _ _ _ Hx); [|by apply H5]. intros ->. cbn in Hal. congruence.
Qed.

Context (Hmax : 1 <= max_connections config <= 65536).

(** The loop: its identities are fresh, and only who waits for nothing leaves. *)
Lemma loop_ok offers s e a : server_ok offers s -> may_end s e = true ->
  accept_step (acceptor s) e = Ok a ->
  server_ok (offers + offered e) (mkServer a (server_engine s) (closing s)).
Proof.
  intros [H1 H2 H3 H4 H5 H6] Hend Hx. assert (G := accept_step_ok config Hmax offers _ e a H1 Hx).
  assert (total_connections (metrics a) <= offers + offered e /\
    (forall c, c ∈ outstanding (server_engine s) -> Z.of_nat c ∈ live a) /\
    (closing s = true -> is_Some (outcome a) /\ live a = ∅)) as (Ht & Hl & Hc).
  { destruct e as [| |id|]; cbn [accept_step offered may_end] in *.
    - destruct (outcome (acceptor s)) as [o|] eqn:Ho; [done|].
      assert (closing s = true -> False) as Hnc by (intros E; by destruct (H6 E) as [[x ?] _]).
      destruct (_ =? _); [|destruct (_ <? _); [done|]]; injection Hx as <-;
        cbn [live metrics outcome count_rejected guard_new count_connection total_connections];
        split_and!; try lia; try done.
      + assert (G1 := aok_total _ _ _ H1). assert (F := Z.mod_le (total_connections (metrics (acceptor s)) + 1) (2 ^ 64)). unfold fetch_add. lia.
      + intros c Hin%H4. apply elem_of_union. by right.
    - destruct (outcome (acceptor s)) as [o|] eqn:Ho; [done|]. injection Hx as <-.
      split_and!; [cbn; lia|done|]. intros E. by destruct (H6 E) as [[x ?] _].
    - case_bool_decide as Hin; [|done]. injection Hx as <-. apply bool_decide_eq_true in Hend.
      cbn [live metrics outcome guard_drop total_connections]. split_and!; [lia| |].
      + intros c Hc. apply elem_of_difference. split; [by apply H4|]. rewrite elem_of_singleton.
        intros <-. by rewrite Nat2Z.id in Hend.
      + intros E. destruct (H6 E) as [_ E']. rewrite E' in Hin. by apply elem_of_empty in Hin.
    - destruct (outcome (acceptor s)) as [o|] eqn:Ho; [done|]. injection Hx as <-.
      split_and!; [cbn; lia|done|]. intros E. by destruct (H6 E) as [[x ?] _]. }
  by constructor.
Qed.

Lemma loop_no_panic offers s e : server_ok offers s -> offers + offered e <= i64_max ->
  accept_step (acceptor s) e <> Panic.
Proof.
  intros Hs Ho. assert (Ht := sv_total _ _ Hs). destruct e as [| |id|]; cbn [accept_step offered] in *.
  - destruct (outcome _); [done|]. destruct (_ =? 0); [done|].
    by rewrite (proj2 (Z.ltb_ge _ _)) by lia.
  - by destruct (outcome _).
  - by destruct (bool_decide _).
  - by destruct (outcome _).
Qed.

Lemma server_step_ok offers s e s' h : server_ok offers s -> server_step s e = Ok (s', h) ->
  server_ok (offers + offers_of e) s'.
Proof.
  intros Hs Hx. destruct e as [e|a|]; cbn [server_step offers_of] in *.
  - destruct (may_end s e) eqn:Hend; [|done]. apply bind_Ok in Hx as (a & Ha & [= <- <-]).
    by apply (loop_ok offers s e).
  - destruct (allowed s a) eqn:Hal; [|done]. apply bind_Ok in Hx as ([sys h1] & Hf & [= <- <-]).
    rewrite Z.add_0_r. by eapply work_ok.
  - destruct (_ && _) eqn:Hb; [|done]. injection Hx as <- <-. rewrite Z.add_0_r.
    apply andb_true_iff in Hb as [Ho'%bool_decide_eq_true Hl%bool_decide_eq_true].
    destruct Hs. by constructor.
Qed.

(** What an event leaves, of a server that keeps its promises. *)
Definition event_good (w : Z) (m : table) (out : res () (server * list occurrence)) : Prop :=
  match out with
  | Ok (s', h) => sys_ok hash w (server_engine s') /\ (forall c, (c, shutting_down) ∉ refusals h) /\
      exists m', linear m h m' /\ sim hash (server_engine s') m'
  | Err _ => True
  | Panic => False
  end.

Lemma server_step_good offers (w : Z) s m e : server_ok offers s -> sys_ok hash w (server_engine s) ->
  sim hash (server_engine s) m -> offers + offers_of e <= i64_max ->
  w + run_work config (worked [e]) <= usize_max ->
  event_good (w + run_work config (worked [e])) m (server_step s e).
Proof.
  intros Hs Hsys Hsim Ho Hw. destruct e as [e|a|]; cbn [server_step offers_of worked omap list_omap run_work foldr] in *.
  - destruct (may_end s e) eqn:Hend; [|done].
    destruct (accept_step (acceptor s) e) as [a|[]|] eqn:Hx; [|done|by apply (loop_no_panic offers s e Hs Ho)].
    cbn. split_and!; [by rewrite Z.add_0_r|intros c; apply not_elem_of_nil|].
    exists m. by split; [constructor|].
  - destruct (allowed s a) eqn:Hal; [|done].
    assert (G := fire_good hash config w (server_engine s) a m Hsys Hsim ltac:(lia)).
    destruct (fire hash config (server_engine s) a) as [[sys' h]|[]|] eqn:Hx; [|done..].
    destruct G as (G1 & _ & G2). cbn. rewrite !Z.add_0_r. split_and!; [done| |done].
    intros c. by eapply work_refusals.
  - destruct (_ && _) eqn:Hb; [|done].
    cbn. rewrite !Z.add_0_r. split_and!; [done|intros c; apply not_elem_of_nil|by exists m; split; [constructor|]].
Qed.

Lemma worked_cons e events : run_work config (worked (e :: events))
  = run_work config (worked [e]) + run_work config (worked events).
Proof. destruct e; unfold run_work, worked; cbn [omap list_omap foldr]; lia. Qed.

Lemma server_run_good offers w s m events : server_ok offers s -> sys_ok hash w (server_engine s) ->
  sim hash (server_engine s) m -> offers + zlen events <= i64_max ->
  w + run_work config (worked events) <= usize_max ->
  match server_run s events with
  | Ok (s', h) => (exists offers', server_ok offers' s') /\ (forall c, (c, shutting_down) ∉ refusals h) /\
      exists m', linear m h m' /\ sim hash (server_engine s') m'
  | Err _ => True
  | Panic => False
  end.
Proof.
  revert offers w s m. induction events as [|e events IH]; intros offers w s m Hs Hsys Hsim Ho Hw; cbn [server_run].
  { split_and!; [by eexists|intros c; apply not_elem_of_nil|exists m; by split; [constructor|]]. }
  rewrite worked_cons in Hw. cbn [length] in Ho. assert (Hn := run_work_nonneg config (worked events)).
  assert (0 <= offers_of e <= 1) by (destruct e as [[]| |]; cbn; lia).
  assert (G := server_step_good offers w s m e Hs Hsys Hsim ltac:(lia) ltac:(lia)).
  destruct (server_step s e) as [[s1 h1]|[]|] eqn:Hx; [|done..]. destruct G as (G2 & G3 & m1 & G4 & G5).
  assert (G1 := server_step_ok _ _ _ _ _ Hs Hx).
  cbn [mbind res_bind]. assert (G := IH _ _ s1 m1 G1 G2 G5 ltac:(lia) ltac:(lia)).
  destruct (server_run s1 events) as [[s2 h2]|[]|]; [|done..]. destruct G as (F1 & F3 & m2 & F4 & F5).
  cbn. split_and!; [done| |by exists m2; split; [eapply linear_app|]].
  intros c. unfold refusals. rewrite omap_app. intros [H0|H0]%elem_of_app; [by eapply G3|by eapply F3].
Qed.

(** The engine's part of it is a run of the engine. *)
Lemma server_run_engine s events s' h : server_run s events = Ok (s', h) ->
  run hash config (server_engine s) (worked events) = Ok (server_engine s', h).
Proof.
  revert s s' h. induction events as [|e events IH]; intros s s' h Hx; cbn [server_run] in Hx.
  { by injection Hx as <- <-. }
  apply bind_Ok in Hx as ([s1 h1] & Hs & Hx). apply bind_Ok in Hx as ([s2 h2] & Hr%IH & [= <- <-]).
  destruct e as [e|a|]; cbn [server_step] in Hs.
  - destruct (may_end s e); [|done]. by apply bind_Ok in Hs as (a & _ & [= <- <-]).
  - destruct (allowed s a); [|done]. apply bind_Ok in Hs as ([sys h0] & Hf & [= <- <-]).
    cbn [worked omap list_omap run server_engine] in *. rewrite Hf. cbn [mbind res_bind].
    unfold worked in Hr. by rewrite Hr.
  - destruct (_ && _); [|done]. by injection Hs as <- <-.
Qed.
End ServerRun.

(** The server when it starts. *)
Lemma server_start_ok reserve config now sys : config_typed config -> with_clock reserve config now = Ok sys ->
  1 <= max_connections config <= 65536 /\ server_ok config 0 (mkServer (new_acceptor config) sys false).
Proof.
  intros Hty Hstart. destruct (with_clock_idle _ _ _ _ Hstart) as [E1 E2].
  assert (E3 : admitting sys = []) by by destruct (with_clock_start _ _ _ _ Hstart) as (_ & shards & ->).
  assert (Hmax : 1 <= max_connections config <= 65536).
  { apply ok_connections, (validate_ok config Hty). by apply with_clock_start in Hstart as [? _]. }
  split; [done|]. constructor; cbn [acceptor server_engine closing]; unfold outstanding, seeking;
    rewrite ?E1, ?E2, ?E3; try done.
  - by apply new_acceptor_ok.
  - by constructor.
  - by intros c Hc%not_elem_of_nil.
  - intros _. by destruct (with_clock_start _ _ _ _ Hstart) as (_ & shards & ->).
Qed.

(** A server that is shutting its engine down has nobody left, and has executed
    and answered everything. *)
Lemma closed_complete hash reserve config now sys events s h offers : with_clock reserve config now = Ok sys ->
  server_run hash config (mkServer (new_acceptor config) sys false) events = Ok (s, h) ->
  server_ok config offers s -> closing s = true ->
  live (acceptor s) = ∅ /\ accepted h ≡ₚ effective h /\ effect_replies h ≡ₚ answers h.
Proof.
  intros Hstart Hx Hok Hc. destruct (with_clock_idle _ _ _ _ Hstart) as [E1 E2].
  destruct (sv_closed _ _ _ Hok Hc) as [_ He]. split; [done|].
  apply server_run_engine in Hx. assert (G := run_conserves hash config sys (worked events)).
  cbn [server_engine] in Hx. rewrite Hx in G. destruct G as [G1 G2].
  rewrite E1, app_nil_r in G1. rewrite E2, app_nil_r in G2.
  assert (outstanding (server_engine s) = []) as [_ [Hwt Hun]%app_nil]%app_nil.
  { apply elem_of_nil_inv. intros c Hin%(sv_live _ _ _ Hok). rewrite He in Hin. by apply elem_of_empty in Hin. }
  apply fmap_nil_inv in Hwt, Hun. by rewrite Hwt, Hun, !app_nil_r in *.
Qed.

(** C8: The server serves everybody it let in: whatever connects, asks, ends or
    is scheduled, in whatever order, nothing of the accept loop or the engine
    panics; the operations of all connections take effect one at a time on one
    table; a client that waits for a reply is connected and waits for one only,
    who hears something is connected, and nobody is ever told that the server is
    shutting down; and once the engine's shutdown begins, everything accepted
    has taken effect exactly once and has been answered with its reply. *)
Theorem server_graceful hash reserve config now sys events : config_typed config ->
  with_clock reserve config now = Ok sys ->
  run_work config (worked events) <= usize_max -> zlen events <= i64_max ->
  match server_run hash config (mkServer (new_acceptor config) sys false) events with
  | Ok (s, h) =>
      (exists m, linear ∅ h m /\ sim hash (server_engine s) m) /\
      NoDup (outstanding (server_engine s)) /\
      (forall c, c ∈ outstanding (server_engine s) -> Z.of_nat c ∈ live (acceptor s)) /\
      (forall e s' h' c r, server_step hash config s e = Ok (s', h') -> (c, r) ∈ heard h' ->
         Z.of_nat c ∈ live (acceptor s)) /\
      (forall c, (c, shutting_down) ∉ refusals h) /\
      (closing s = true -> live (acceptor s) = ∅ /\ accepted h ≡ₚ effective h /\
         effect_replies h ≡ₚ answers h)
  | Err _ => True
  | Panic => False
  end.
Proof.
  intros Hty Hstart Hw Ho. destruct (with_clock_good hash _ _ _ _ Hty Hstart) as (Hs & Hsim & _).
  destruct (with_clock_idle _ _ _ _ Hstart) as [E1 E2].
  destruct (server_start_ok _ _ _ _ Hty Hstart) as [Hmax H0].
  set (s0 := mkServer (new_acceptor config) sys false) in *.
  assert (G := server_run_good hash config Hmax 0 0 s0 ∅ events H0 Hs Hsim ltac:(lia) ltac:(lia)).
  destruct (server_run _ _ s0 events) as [[s h]|[]|] eqn:Hx; [|done..].
  destruct G as ([offers Hok] & Hr & Hlin). split_and!; [done|by apply Hok|by apply Hok| |done|].
  - intros e s' h' c r Hst Hin. destruct e as [e|a|]; cbn [server_step] in Hst.
    + destruct (may_end s e); [|done]. apply bind_Ok in Hst as (a & _ & [= <- <-]). by apply not_elem_of_nil in Hin.
    + destruct (allowed s a) eqn:Hal; [|done]. apply bind_Ok in Hst as ([sys' h0] & Hf & [= <- <-]).
      by eapply work_heard; [..|apply Hok|apply Hok|].
    + destruct (_ && _); [|done]. injection Hst as <- <-. by apply not_elem_of_nil in Hin.
  - intros Hc. by eapply closed_complete.
Qed.

(** Two clients are served although the shutdown was asked for while they
    waited. *)
Definition sample_visit : list server_event :=
  [Loop Accepts; Loop Accepts;
   Work (Submit 1 (MultiSet [(bs "a", bs "1"); (bs "b", bs "2")])); Work (Submit 2 (MultiGet [bs "b"]));
   Work (Enqueue 1); Loop ShutdownRequested; Work (Enqueue 0)] ++ (Work <$> replicate 13 (Coordinate granted)) ++
  [Loop (ConnectionEnds 1); Work (Act 0 DataTurn granted); Loop (ConnectionEnds 2); BeginShutdown;
   Work StopCoordinator; Work (StopOwner 0); Work (Act 1 DataTurn granted); Work (StopOwner 1)].
Definition sample_server : server := mkServer (new_acceptor sample_config) sample_start false.

Definition sample_closed : server * list occurrence :=
  value (sample_server, []) (server_run sample_hash sample_config sample_server sample_visit).

Lemma server_graceful_witness :
  closing sample_closed.1 = true /\ (length (accepted sample_closed.2), length (answers sample_closed.2)) = (2, 2)%nat /\
  live (acceptor sample_closed.1) = ∅ /\ accepted sample_closed.2 ≡ₚ effective sample_closed.2.
Proof.
  assert (closing sample_closed.1 = true) as Hc by (vm_compute; reflexivity).
  split; [exact Hc|]. split; [vm_compute; reflexivity|].
  assert (Hx : server_run sample_hash sample_config sample_server sample_visit = Ok sample_closed)
    by (apply value_Ok; vm_compute; reflexivity).
  assert (G := server_graceful sample_hash granted sample_config 0 sample_start sample_visit
    sample_typed sample_started ltac:(vm_compute; discriminate) ltac:(vm_compute; discriminate)).
  fold sample_server in G. rewrite Hx in G. destruct sample_closed as [s h].
  destruct G as (_ & _ & _ & _ & _ & Hend). destruct (Hend Hc) as (H1 & H2 & _).
  split; [exact H1|exact H2].
Defined.
