(* ===== verification/ServerDialogue.v ===== *)
(** * What one client sees of the server

    The history of a client is a sequence of complete exchanges - a refusal, or
    an acceptance, an effect and the answer with the reply of that effect - and at
    most one open one, request by request in the order the client asked. *)

From S2P Require Import Prelude Bytes Protocol Command Expiry ExpiryTheorems Store StoreTheorems Config.
From S2P Require Import Engine System SystemConservation SystemSample Session Server ServerRun.

Local Open Scope Z_scope.

(** ** A client's part of a history *)

Definition concerns (c : nat) (x : occurrence) : bool :=
  match x with
  | Accepted c' _ | Refused c' _ | TakesEffect c' _ _ _ | Answered c' _ => bool_decide (c' = c)
  | Sampled _ _ => false
  end.

Definition seen_by (c : nat) (h : list occurrence) : list occurrence := filter (concerns c) h.

(** What a client asks for, and what it is told, in order. *)
Definition requests_of (c : nat) (actions : list action) : list Operation :=
  omap (fun a => '(c', op) ← asks a; if bool_decide (c' = c) then Some op else None) actions.

Definition replies_to (c : nat) (h : list occurrence) : list Reply :=
  omap (fun x => match x with
                 | Answered c' r | Refused c' r => if bool_decide (c' = c) then Some r else None
                 | _ => None
                 end) h.

(** A request and its reply. *)
Inductive exchange (c : nat) (op : Operation) (r : Reply) : list occurrence -> Prop :=
| exchange_refused : exchange c op r [Refused c r]
| exchange_served now : exchange c op r [Accepted c op; TakesEffect c op now r; Answered c r].

(** A client's last request, if it waits for the reply. *)
Inductive pending (c : nat) (sys : system ExpiryIndex) : list Operation -> list occurrence -> Prop :=
| pending_none : c ∉ outstanding sys -> pending c sys [] []
| pending_seeks op : (c, op) ∈ seeking sys -> pending c sys [op] []
| pending_waits op : (c, op) ∈ waiting sys -> pending c sys [op] [Accepted c op]
| pending_served op now r : (c, r) ∈ unanswered sys ->
    pending c sys [op] [Accepted c op; TakesEffect c op now r].

(** Requests, replies and history of a client that talked with the server. *)
Definition dialogue (c : nat) (sys : system ExpiryIndex) (ops : list Operation) (replies : list Reply)
    (h : list occurrence) : Prop :=
  exists asked last exchanges tail, ops = asked ++ last /\ h = concat exchanges ++ tail /\
    Forall3 (exchange c) asked replies exchanges /\ pending c sys last tail.

(** ** Membership *)

Lemma outstanding_spec c sys : c ∈ outstanding sys <->
  (exists op, (c, op) ∈ seeking sys) \/ (exists op, (c, op) ∈ waiting sys) \/
  (exists r, (c, r) ∈ unanswered sys).
Proof.
  unfold outstanding. rewrite !elem_of_app, !list_elem_of_fmap. split.
  - intros [([c' x] & -> & Hin)|[([c' x] & -> & Hin)|([c' x] & -> & Hin)]]; [left|right; left|right; right]; by exists x.
  - intros [[x Hin]|[[x Hin]|[x Hin]]]; [left|right; left|right; right]; by exists (c, x).
Qed.

Lemma keyed_once {A} (l : list (nat * A)) c x y : NoDup l.*1 -> (c, x) ∈ l -> (c, y) ∈ l -> x = y.
Proof.
  intros Hnd Hx Hy. apply (elem_of_list_to_map_1 (M := gmap nat) l c x Hnd) in Hx.
  apply (elem_of_list_to_map_1 (M := gmap nat) l c y Hnd) in Hy. congruence.
Qed.

(** A client that waits does so in one place, for one request. *)
Lemma pending_once c sys last tail : NoDup (outstanding sys) -> pending c sys last tail ->
  (forall op, (c, op) ∈ seeking sys -> last = [op] /\ tail = []) /\
  (forall op, (c, op) ∈ waiting sys -> last = [op] /\ tail = [Accepted c op]) /\
  (forall r, (c, r) ∈ unanswered sys ->
     exists op now, last = [op] /\ tail = [Accepted c op; TakesEffect c op now r]).
Proof.
  intros (N1 & H1 & (N2 & H2 & N3)%NoDup_app)%NoDup_app Hp.
  assert (forall op, (c, op) ∈ seeking sys -> c ∈ (seeking sys).*1) as I1
    by (intros op Hin; apply list_elem_of_fmap; by exists (c, op)).
  assert (forall op, (c, op) ∈ waiting sys -> c ∈ (waiting sys).*1) as I2
    by (intros op Hin; apply list_elem_of_fmap; by exists (c, op)).
  assert (forall r, (c, r) ∈ unanswered sys -> c ∈ (unanswered sys).*1) as I3
    by (intros r Hin; apply list_elem_of_fmap; by exists (c, r)).
  setoid_rewrite elem_of_app in H1. destruct Hp as [Hout|op Hin|op Hin|op now r Hin].
  - rewrite outstanding_spec in Hout. split_and!; intros x Hx; exfalso; naive_solver.
  - split_and!; intros x Hx; [by rewrite (keyed_once _ _ _ _ N1 Hx Hin)|exfalso; naive_solver..].
  - split_and!; intros x Hx; [exfalso; naive_solver|by rewrite (keyed_once _ _ _ _ N2 Hx Hin)|exfalso; naive_solver].
  - split_and!; intros x Hx; [exfalso; naive_solver..|]. rewrite (keyed_once _ _ _ _ N3 Hx Hin). by eexists _, _.
Qed.

Section Dialogue.
Context (hash : bytes -> Z) (config : Config).

(** What does not concern a client leaves it where it is. *)
Lemma unconcerned_fire sys a sys' h c : fire hash config sys a = Ok (sys', h) -> seen_by c h = [] ->
  c ∉ asker a ->
  (forall op, (c, op) ∈ seeking sys <-> (c, op) ∈ seeking sys') /\
  (forall op, (c, op) ∈ waiting sys <-> (c, op) ∈ waiting sys') /\
  (forall r, (c, r) ∈ unanswered sys <-> (c, r) ∈ unanswered sys').
Proof.
  intros Hx Hno Hask. assert (G := fire_conserves hash config sys a). rewrite Hx in G. destruct G as [G1 G2].
  assert (forall x, x ∈ h -> concerns c x = true -> False) as Hnone.
  { intros x Hin Hc. apply (not_elem_of_nil x). rewrite <- Hno. apply list_elem_of_filter. by rewrite Hc. }
  assert (forall op, (c, op) ∉ accepted h) as N1.
  { intros op (x & Hin & E)%list_elem_of_omap. destruct x; simplify_eq. apply (Hnone _ Hin). by apply bool_decide_eq_true. }
  assert (forall op, (c, op) ∉ effective h) as N2.
  { intros op (x & Hin & E)%list_elem_of_omap. destruct x; simplify_eq. apply (Hnone _ Hin). by apply bool_decide_eq_true. }
  assert (forall r, (c, r) ∉ effect_replies h) as N3.
  { intros r (x & Hin & E)%list_elem_of_omap. destruct x; simplify_eq. apply (Hnone _ Hin). by apply bool_decide_eq_true. }
  assert (forall r, (c, r) ∉ answers h) as N4.
  { intros r (x & Hin & E)%list_elem_of_omap. destruct x; simplify_eq. apply (Hnone _ Hin). by apply bool_decide_eq_true. }
  split_and!; intros y.
  - unfold asker in Hask. destruct (fire_admission _ _ _ _ _ _ Hx) as [c' op Ha E|c' op r Ha E _|c' op _ E|c' op r _ E _|h _ E _].
    + rewrite Ha in Hask. rewrite E, elem_of_app, list_elem_of_singleton.
      split; [by left|intros [?|[= -> _]]; [done|]]. exfalso. apply Hask. by left.
    + by rewrite E.
    + assert (c' <> c) by (intros ->; apply (Hnone (Accepted c op)); [by left|by apply bool_decide_eq_true]).
      rewrite E, elem_of_cons. split; [intros [[= ]|]; congruence|by right].
    + assert (c' <> c) by (intros ->; apply (Hnone (Refused c r)); [by left|by apply bool_decide_eq_true]).
      rewrite E, elem_of_cons. split; [intros [[= ]|]; congruence|by right].
    + by rewrite E.
  - assert (E : (c, y) ∈ accepted h ++ waiting sys <-> (c, y) ∈ effective h ++ waiting sys') by (by rewrite G1).
    rewrite !elem_of_app in E. specialize (N1 y). specialize (N2 y). tauto.
  - assert (E : (c, y) ∈ effect_replies h ++ unanswered sys <-> (c, y) ∈ answers h ++ unanswered sys') by (by rewrite G2).
    rewrite !elem_of_app in E. specialize (N3 y). specialize (N4 y). tauto.
Qed.

Lemma pending_stays sys a sys' h c last tail : fire hash config sys a = Ok (sys', h) -> seen_by c h = [] ->
  c ∉ asker a -> pending c sys last tail -> pending c sys' last tail.
Proof.
  intros Hx Hno Hask Hp. destruct (unconcerned_fire _ _ _ _ _ Hx Hno Hask) as (H0 & H1 & H2).
  destruct Hp as [Hout|op Hin|op Hin|op now r Hin].
  - apply pending_none. rewrite outstanding_spec. setoid_rewrite <- H0. setoid_rewrite <- H1. setoid_rewrite <- H2.
    by rewrite <- outstanding_spec.
  - apply pending_seeks. by apply H0.
  - apply pending_waits. by apply H1.
  - apply pending_served. by apply H2.
Qed.

(** An action takes a client's dialogue one step further. *)
Definition goes_on c (sys' : system ExpiryIndex) ops tail replies : Prop :=
  (replies = [] /\ pending c sys' ops tail) \/
  exists op r, ops = [op] /\ replies = [r] /\ exchange c op r tail /\ c ∉ outstanding sys'.

Lemma seen_by_one c h c' : (forall x, x ∈ h -> concerns c' x = true) -> c' <> c -> 
  seen_by c h = [] /\ replies_to c h = [].
Proof.
  intros Hall Hne. induction h as [|x h IH]; [done|].
  destruct IH as [IH1 IH2]; [by intros y Hy; apply Hall; right|].
  assert (Hc := Hall x ltac:(left)). unfold seen_by, replies_to in *. cbn [omap list_omap].
  destruct x as [c1 op|c1 r|c1 op now r|c1 r|i st]; cbn [concerns] in *; [..|done];
    apply bool_decide_eq_true in Hc as ->; cbn [filter list_filter concerns];
    rewrite ?(bool_decide_eq_false_2 (c' = c)) by done; done.
Qed.

Lemma unconcerned_goes_on sys a sys' h c last tail : fire hash config sys a = Ok (sys', h) ->
  pending c sys last tail -> c ∉ asker a -> seen_by c h = [] /\ replies_to c h = [] ->
  goes_on c sys' last (tail ++ seen_by c h) (replies_to c h).
Proof.
  intros Hx Hp Hask [E1 E2]. rewrite E1, E2, app_nil_r. left. split; [done|]. by eapply pending_stays.
Qed.

(** Who is told something has one wait less. *)
Lemma told_free sys a sys' h c : fire hash config sys a = Ok (sys', h) -> NoDup (asker a ++ outstanding sys) ->
  c ∈ (heard h).*1 -> c ∉ outstanding sys'.
Proof.
  intros Hx Hnd Hc. rewrite (outstanding_fire _ _ _ _ _ _ Hx) in Hnd. apply NoDup_app in Hnd as (_ & Hnd & _).
  by apply Hnd.
Qed.

(** The client of a report knows of it. *)
Ltac others c c' Hother :=
  destruct (decide (c' = c)) as [->|Hne];
    [|apply Hother; apply (seen_by_one c _ c'); [|done]; intros x Hx';
      repeat (apply elem_of_cons in Hx' as [->|Hx']; [by apply bool_decide_eq_true|]);
      by apply not_elem_of_nil in Hx'].

Lemma pending_reported sys a sys' h c last tail : NoDup (outstanding sys) -> asks a = None ->
  fire hash config sys a = Ok (sys', h) -> reports h -> pending c sys last tail ->
  goes_on c sys' last (tail ++ seen_by c h) (replies_to c h).
Proof.
  intros Hnd Ha Hx Hrep Hp. assert (G := fire_conserves hash config sys a). rewrite Hx in G.
  assert (asker a = []) as Hask by (unfold asker; by rewrite Ha).
  assert (Hother := unconcerned_goes_on _ _ _ _ c _ _ Hx Hp ltac:(rewrite Hask; apply not_elem_of_nil)).
  assert (Htold := told_free _ _ _ _ c Hx). rewrite Hask in Htold. specialize (Htold Hnd).
  destruct (pending_once _ _ _ _ Hnd Hp) as (_ & O2 & O3).
  destruct Hrep as [|c' op now r|c' r|c' op now r|i x]; [by apply Hother| | | |by apply Hother].
  all: others c c' Hother; destruct G as [G1 G2]; cbn in G1, G2, Htold |- *;
    rewrite !bool_decide_eq_true_2 by done.
  - destruct (O2 op) as [-> ->]; [rewrite G1; by left|].
    left. split; [done|]. apply pending_served. rewrite <- G2. by left.
  - destruct (O3 r) as (op & now & -> & ->); [rewrite G2; by left|].
    right. exists op, r. split_and!; [done..|constructor|]. apply Htold. by left.
  - destruct (O2 op) as [-> ->]; [rewrite G1; by left|].
    right. exists op, r. split_and!; [done..|constructor|]. apply Htold. by left.
Qed.

(** What an action asks of it, and what happens, take a client further. *)
Lemma pending_step s a sys' h c last tail : allowed s a = true -> NoDup (outstanding (server_engine s)) ->
  fire hash config (server_engine s) a = Ok (sys', h) -> pending c (server_engine s) last tail ->
  goes_on c sys' (last ++ requests_of c [a]) (tail ++ seen_by c h) (replies_to c h).
Proof.
  intros Hal Hnd Hx Hp. assert (Hfree := fun c' => allowed_asker s a c' Hal).
  assert (G := fire_conserves hash config (server_engine s) a). rewrite Hx in G.
  assert (Hother := unconcerned_goes_on _ _ _ _ c _ _ Hx Hp).
  assert (NoDup (asker a ++ outstanding (server_engine s))) as Hall.
  { apply NoDup_app. split_and!; [|by intros c' Hc'; apply Hfree|done].
    unfold asker. destruct (asks a) as [[c' op]|]; [apply NoDup_singleton|constructor]. }
  assert (Htold := told_free _ _ _ _ c Hx Hall).
  destruct (pending_once _ _ _ _ Hnd Hp) as (O1 & _ & _).
  assert (c ∈ asker a -> last = [] /\ tail = []) as Hnone.
  { intros [_ Hf]%Hfree. rewrite outstanding_spec in Hf. destruct Hp; [done|exfalso; eauto 6..]. }
  unfold requests_of, asker in *. cbn [omap list_omap].
  destruct (fire_admission _ _ _ _ _ _ Hx) as [c' op Ha E|c' op r Ha E _|c' op Ha E|c' op r Ha E _|h Ha E Hrep];
    rewrite Ha in *; cbn [mbind option_bind] in *; [| | | |rewrite app_nil_r; by eapply pending_reported].
  - case_bool_decide as Hc; cbn [app].
    + subst c'. destruct (Hnone ltac:(by left)) as [-> ->]. left. split; [done|]. apply pending_seeks.
      rewrite E. apply elem_of_app. right. by left.
    + rewrite app_nil_r. apply Hother; [|done]. by intros ->%list_elem_of_singleton.
  - case_bool_decide as Hc; cbn [app].
    + subst c'. destruct (Hnone ltac:(by left)) as [-> ->]. cbn. rewrite bool_decide_eq_true_2 by done.
      right. exists op, r. split_and!; [done..|constructor|]. apply Htold. by left.
    + rewrite app_nil_r. assert (c <> c') by done. apply Hother; [by intros ->%list_elem_of_singleton|].
      cbn. by rewrite bool_decide_eq_false_2.
  - rewrite app_nil_r. others c c' (Hother (not_elem_of_nil c)).
    destruct (O1 op) as [-> ->]; [rewrite E; by left|]. cbn in G |- *. rewrite bool_decide_eq_true_2 by done.
    left. split; [done|]. apply pending_waits. destruct G as [<- _]. by left.
  - rewrite app_nil_r. others c c' (Hother (not_elem_of_nil c)).
    destruct (O1 op) as [-> ->]; [rewrite E; by left|]. cbn. rewrite bool_decide_eq_true_2 by done.
    right. exists op, r. split_and!; [done..|constructor|]. apply Htold. by left.
Qed.

(** A step of the server takes every client's dialogue further. *)
Lemma dialogue_step offers s e s' h c ops replies h0 : server_ok config offers s ->
  server_step hash config s e = Ok (s', h) -> dialogue c (server_engine s) ops replies h0 ->
  dialogue c (server_engine s') (ops ++ requests_of c (worked [e])) (replies ++ replies_to c h) (h0 ++ seen_by c h).
Proof.
  intros Hs Hx (asked & last & exchanges & tail & -> & -> & Hall & Hp).
  assert (h = [] -> worked [e] = [] -> server_engine s' = server_engine s ->
    dialogue c (server_engine s') ((asked ++ last) ++ requests_of c (worked [e])) (replies ++ replies_to c h)
      ((concat exchanges ++ tail) ++ seen_by c h)) as Hidle.
  { intros -> -> ->. rewrite !app_nil_r. by exists asked, last, exchanges, tail. }
  destruct e as [e|a|]; cbn [server_step] in Hx.
  - destruct (may_end s e); [|done]. apply bind_Ok in Hx as (a & _ & [= <- <-]). by apply Hidle.
  - destruct (allowed s a) eqn:Hal; [|done]. apply bind_Ok in Hx as ([sys h1] & Hf & [= <- <-]).
    cbn [worked omap list_omap server_engine]. rewrite <- !app_assoc.
    assert (Hgo := pending_step _ _ _ _ c _ _ Hal (sv_waiting _ _ _ Hs) Hf Hp).
    destruct Hgo as [[-> Hp']|(op & r & -> & -> & Hex & Hout)].
    + rewrite app_nil_r. by exists asked, (last ++ requests_of c [a]), exchanges, (tail ++ seen_by c h1).
    + exists (asked ++ [op]), [], (exchanges ++ [tail ++ seen_by c h1]), [].
      rewrite !app_nil_r, concat_app. cbn [concat]. rewrite app_nil_r. split_and!; [done..| |by constructor].
      apply Forall3_app; [done|]. by constructor; [|constructor].
  - destruct (_ && _); [|done]. injection Hx as <- <-. by apply Hidle.
Qed.
Context (Hmax : 1 <= max_connections config <= 65536).

Lemma dialogue_run offers s events s' h c ops replies h0 : server_ok config offers s ->
  server_run hash config s events = Ok (s', h) -> dialogue c (server_engine s) ops replies h0 ->
  dialogue c (server_engine s') (ops ++ requests_of c (worked events)) (replies ++ replies_to c h) (h0 ++ seen_by c h).
Proof.
  revert offers s ops replies h0 h. induction events as [|e events IH]; intros offers s ops replies h0 h Hs Hx Hd;
    cbn [server_run] in Hx.
  { injection Hx as <- <-. by rewrite !app_nil_r. }
  apply bind_Ok in Hx as ([s1 h1] & Hs1 & Hx). apply bind_Ok in Hx as ([s2 h2] & Hr & [= <- <-]).
  assert (G := IH _ s1 _ _ _ h2 (server_step_ok hash config Hmax _ _ _ _ _ Hs Hs1) Hr
    (dialogue_step _ _ _ _ _ _ _ _ _ Hs Hs1 Hd)).
  change (e :: events) with ([e] ++ events). unfold worked, requests_of, replies_to, seen_by in *.
  by rewrite !omap_app, filter_app, !app_assoc.
Qed.

(** Before it asks for anything, a client has seen nothing. *)
Lemma dialogue_start reserve now sys c : with_clock reserve config now = Ok sys -> dialogue c sys [] [] [].
Proof.
  intros Hstart. destruct (with_clock_idle _ _ _ _ Hstart) as [E1 E2].
  assert (E3 : admitting sys = []) by by destruct (with_clock_start _ _ _ _ Hstart) as (_ & shards & ->).
  exists [], [], [], []. split_and!; [done..|constructor|].
  apply pending_none. unfold outstanding, seeking. rewrite E1, E2, E3. apply not_elem_of_nil.
Qed.
End Dialogue.

(** C9: Every client is served request by request: in every run of the server,
    what it has asked, what it was told and what happened to it are a sequence of
    complete exchanges - refused, or accepted, executed once and answered with
    that reply - and at most one open one, in the order it asked; so no client
    is answered out of order, twice, or with another's reply. *)
Theorem clients_take_turns hash reserve config now sys events s h c : config_typed config ->
  with_clock reserve config now = Ok sys ->
  server_run hash config (mkServer (new_acceptor config) sys false) events = Ok (s, h) ->
  dialogue c (server_engine s) (requests_of c (worked events)) (replies_to c h) (seen_by c h).
Proof.
  intros Hty Hstart Hrun. destruct (server_start_ok _ _ _ _ Hty Hstart) as [Hmax H0].
  exact (dialogue_run _ _ Hmax _ _ _ _ _ c _ _ _ H0 Hrun (dialogue_start _ _ _ _ c Hstart)).
Qed.

(** In the middle of a visit: the second client waits. *)
Lemma clients_take_turns_witness :
  exists s h, server_run sample_hash sample_config sample_server (take 20 sample_visit) = Ok (s, h) /\
    requests_of 2 (worked (take 20 sample_visit)) = [MultiGet [bs "b"]] /\ replies_to 2 h = [] /\
    dialogue 2 (server_engine s) [MultiGet [bs "b"]] [] (seen_by 2 h).
Proof.
  assert (Hx := value_Ok (sample_server, []) (server_run sample_hash sample_config sample_server (take 20 sample_visit))
    ltac:(vm_compute; reflexivity)).
  assert (Hr : replies_to 2 (value (sample_server, []) (server_run sample_hash sample_config sample_server
    (take 20 sample_visit))).2 = []) by (vm_compute; reflexivity).
  destruct (value _ _) as [s h]. cbn [snd] in Hr. exists s, h. split; [exact Hx|]. split; [vm_compute; reflexivity|].
  split; [exact Hr|]. rewrite <- Hr.
  exact (clients_take_turns sample_hash granted sample_config 0 sample_start (take 20 sample_visit) s h 2
    sample_typed sample_started Hx).
Defined.
