(* ===== verification/Tasks.v ===== *)
(** * The server's tasks ([Server::run] and [connection] of [recall-server/src/lib.rs])

    Everything that runs, in one state: the accept loop, one task per connection,
    and the engine.  A task is [connection] cut where it awaits - bytes, a call of
    the engine, the owners' statistics, a write - and each event of the system
    takes one of them from one such point to the next.  A call suspends its task
    by a [Port]: an engine that has not answered yet. *)

From S2P Require Import Prelude Bytes Protocol Decoder Command Expiry Store Config.
From S2P Require Import Engine System SystemConservation Session Server ServerRun.

Local Open Scope Z_scope.

(** ** The engine as one task sees it *)

Inductive want := WantsReply (op : Operation) | WantsStats.

(** What the engine has answered so far to a task, and what it was asked in
    vain. *)
Record Port := mkPort {
  answer : option Reply;
  measured : option (list ShardStats);
  wanted : option want;
  worker_count : Z;
}.

Definition port_execute (p : Port) (op : Operation) : Port * Reply :=
  match answer p with
  | Some reply => (mkPort None (measured p) (wanted p) (worker_count p), reply)
  | None => (mkPort None (measured p) (Some (WantsReply op)) (worker_count p), Bulk None)
  end.

Definition port_stats (p : Port) : Port * list ShardStats :=
  match measured p with
  | Some stats => (mkPort (answer p) None (wanted p) (worker_count p), stats)
  | None => (mkPort (answer p) None (Some WantsStats) (worker_count p), [])
  end.

#[export] Instance port_api : EngineApi Port := {|
  engine_execute := port_execute;
  engine_stats := port_stats;
  engine_worker_count := worker_count;
|}.

#[export] Instance operation_eq_dec : EqDecision Operation.
Proof. solve_decision. Defined.

(** ** Tasks *)

(** Where [connection] is: at the head of its loop, in [next_request], about to
    call [EngineHandle::execute], in it, in [EngineHandle::stats] (with what it
    has of them), in [write_reply] (of a protocol error, last), or left. *)
Inductive stage :=
| AtHead
| InRead
| Calling (q : Request) (m : Metrics) (op : Operation)
| Awaiting (q : Request) (m : Metrics) (op : Operation)
| Measuring (q : Request) (m : Metrics) (stats : list ShardStats)
| Writing (reply : Reply) (close : bool)
| LastWrite (reply : Reply)
| Over (e : ending).

(** A connection, its stage, what has arrived for it and it has not read, and what
    it has sent. *)
Record Task := mkTask {
  link : Connection;
  at_stage : stage;
  backlog : list read_event;
  output : list bytes;
}.

Definition set_stage (t : Task) (st : stage) : Task := mkTask (link t) st (backlog t) (output t).

Section Tasks.
Context (ct_eq : bytes -> bytes -> bool) (config : Config).

(** The task of a connection that was accepted; it ends at once when
    [set_nodelay] or its decoder fails. *)
Definition new_task (id : Z) (nodelay : bool) : Task :=
  match (if nodelay then new_connection id config else Err (mkProtocolError "set_nodelay")) with
  | Ok k => mkTask k AtHead [] []
  | _ => mkTask (mkConnection (new_session id config) (idle (protocol config)) []) (Over (Failed OtherError)) [] []
  end.

(** Executing a request as far as the engine's answers go. *)
Definition resume (t : Task) (q : Request) (m : Metrics) (p : Port) : res () Task :=
  '(s, p, (reply, close)) ← expect (answer_request ct_eq (session (link t)) q p config m);
  let k := mkConnection s (decoder (link t)) (input (link t)) in
  let st := match wanted p with
            | None => Writing reply close
            | Some (WantsReply op) => Calling q m op
            | Some WantsStats => Measuring q m []
            end in
  Ok (mkTask k st (backlog t) (output t)).

(** [next_request], as far as the stream goes, and what follows it. *)
Definition read (n : Z) (t : Task) (m : Metrics) : res () (Task * Metrics) :=
  '(outcome, d, rest, events) ← next_request (read_fuel (backlog t)) config
     (decoder (link t)) (input (link t)) (backlog t);
  let t := mkTask (mkConnection (session (link t)) d rest) InRead events (output t) in
  match outcome with
  | Waiting => Ok (t, m)
  | NoRequest => Ok (set_stage t (Over Returned), m)
  | Failure (ProtocolFailure message) =>
      Ok (set_stage t (LastWrite (reply_error ("ERR Protocol error: " +:+ message))), count_protocol_error m)
  | Failure (IoFailure TimedOut) => Ok (set_stage t (Over (Failed TimedOut)), count_timeout m)
  | Failure (IoFailure e) => Ok (set_stage t (Over (Failed e)), m)
  | GotRequest q =>
      let m := count_command m in
      t ← resume t q m (mkPort None None None n);
      Ok (t, m)
  end.

(** A task that may go on by itself, if the server is [stopping] or not. *)
Definition poll (n : Z) (stopping : bool) (t : Task) (m : Metrics) : res () (Task * Metrics) :=
  match at_stage t with
  | AtHead => if stopping then Ok (set_stage t (Over Returned), m) else read n t m
  | InRead => read n t m
  | _ => Err tt
  end.

(** [EngineHandle::execute] has returned. *)
Definition hear (n : Z) (reply : Reply) (t : Task) : res () Task :=
  match at_stage t with
  | Awaiting q m _ => resume t q m (mkPort (Some reply) None None n)
  | _ => Ok t
  end.

(** [EngineHandle::stats] has an answer from one more owner. *)
Definition measure (n : nat) (s : ShardStats) (t : Task) : res () Task :=
  match at_stage t with
  | Measuring q m stats =>
      let stats := stats ++ [s] in
      if bool_decide (length stats = n) then resume t q m (mkPort None (Some stats) None (Z.of_nat n))
      else Ok (set_stage t (Measuring q m stats))
  | _ => Err tt
  end.

(** The write of a task ends. *)
Definition write (w : write_event) (t : Task) (m : Metrics) : res () (Task * Metrics) :=
  match at_stage t with
  | Writing reply close =>
      '(m, sent, written) ← expect (write_reply config w reply m);
      let st := match written with
                | Ok _ => if (close : bool) then Over Returned else AtHead
                | Err e => Over (Failed e)
                | Panic => Over Open
                end in
      Ok (mkTask (link t) st (backlog t) (output t ++ sent), m)
  | LastWrite reply =>
      '(m, sent, _) ← expect (write_reply config w reply m);
      Ok (mkTask (link t) (Over Returned) (backlog t) (output t ++ sent), m)
  | _ => Err tt
  end.

(** ** The server and its tasks *)

(** [tally] counts what the connections count. *)
Record host := mkHost {
  face : server;
  tally : Metrics;
  tasks : gmap nat Task;
}.

(** The network has something for a client, an accepted connection starts, a task
    goes on by itself, the engine acts, a task has the statistics of one more
    owner, the write of a task ends, the accept loop, [Engine::shutdown]. *)
Inductive host_event :=
| Net (c : nat) (e : read_event)
| Starts (c : nat) (nodelay : bool)
| Polls (c : nat) (stopping : bool)
| Acts (a : action)
| Measures (c : nat)
| Writes (c : nat) (w : write_event)
| Front (e : accept_event)
| Closes.

(** The metrics are shared. *)
Definition observed (h : host) : Metrics :=
  let m := metrics (acceptor (face h)) in
  mkMetrics (active_connections m) (total_connections m) (rejected_connections m)
    (total_commands (tally h)) (protocol_errors (tally h)) (io_timeouts (tally h)).

Definition set_task (h : host) (c : nat) (t : Task) : host := mkHost (face h) (tally h) (<[c := t]> (tasks h)).

Definition set_engine (h : host) (sys : system ExpiryIndex) : host :=
  mkHost (mkServer (acceptor (face h)) sys (closing (face h))) (tally h) (tasks h).

Definition workers_of (h : host) : nat := length (owners (server_engine (face h))).

(** The channel of the shutdown signal carries [true] once the loop was left. *)
Definition signalled (h : host) : bool := bool_decide (is_Some (outcome (acceptor (face h)))).

(** The engine's replies find the tasks that wait for them. *)
Fixpoint deliver (n : Z) (told : list (nat * Reply)) (ts : gmap nat Task) : res () (gmap nat Task) :=
  match told with
  | [] => Ok ts
  | (c, reply) :: told =>
      match ts !! c with
      | Some t => t ← hear n reply t; deliver n told (<[c := t]> ts)
      | None => deliver n told ts
      end
  end.

(** A task that calls the engine with an operation waits for its reply from now
    on. *)
Definition ask_for (h : host) (c : nat) (op : Operation) : res () host :=
  match tasks h !! c with
  | Some t =>
      match at_stage t with
      | Calling q m op' => if decide (op' = op) then Ok (set_task h c (set_stage t (Awaiting q m op))) else Err tt
      | _ => Err tt
      end
  | None => Err tt
  end.

(** What an action of the engine has to do with the tasks and the shutdown: the
    flag [closing] tells whether a call is admitted, and the engine stops only
    once it is set. *)
Definition ask (h : host) (a : action) : res () host :=
  match a with
  | Submit c op => if closing (face h) then Err tt else ask_for h c op
  | AdmissionTimeout c op => ask_for h c op
  | AdmissionClosed c op => if closing (face h) then ask_for h c op else Err tt
  | StopCoordinator | StopOwner _ => if closing (face h) then Ok h else Err tt
  | Sample _ => Err tt
  | _ => Ok h
  end.

Context (hash : bytes -> Z).

Definition host_step (h : host) (e : host_event) : res () (host * list occurrence) :=
  match e with
  | Net c e =>
      t ← match tasks h !! c with Some t => Ok t | None => Err tt end;
      match e with
      | ShutdownSignal => if signalled h then Ok tt else Err tt
      | _ => Ok tt
      end;;
      Ok (set_task h c (mkTask (link t) (at_stage t) (backlog t ++ [e]) (output t)), [])
  | Starts c nodelay =>
      if is_live (face h) c && bool_decide (tasks h !! c = None)
      then Ok (set_task h c (new_task (Z.of_nat c) nodelay), [])
      else Err tt
  | Polls c stopping =>
      t ← match tasks h !! c with Some t => Ok t | None => Err tt end;
      if stopping && negb (signalled h) then Err tt
      else
        '(t, m) ← poll (Z.of_nat (workers_of h)) stopping t (observed h);
        Ok (mkHost (face h) m (<[c := t]> (tasks h)), [])
  | Acts a =>
      h ← ask h a;
      '(sys, happened) ← fire hash config (server_engine (face h)) a;
      ts ← deliver (Z.of_nat (workers_of h)) (heard happened) (tasks h);
      Ok (mkHost (face (set_engine h sys)) (tally h) ts, happened)
  | Measures c =>
      t ← match tasks h !! c with Some t => Ok t | None => Err tt end;
      match at_stage t with
      | Measuring _ _ stats =>
          '(sys, happened) ← fire hash config (server_engine (face h)) (Sample (length stats));
          match happened with
          | [Sampled _ s] => t ← measure (workers_of h) s t; Ok (set_task (set_engine h sys) c t, happened)
          | _ => Panic
          end
      | _ => Err tt
      end
  | Writes c w =>
      t ← match tasks h !! c with Some t => Ok t | None => Err tt end;
      '(t, m) ← write w t (observed h);
      Ok (mkHost (face h) m (<[c := t]> (tasks h)), [])
  | Front e =>
      match e with
      | ConnectionEnds id =>
          match at_stage <$> tasks h !! Z.to_nat id with Some (Over _) => Ok tt | _ => Err tt end
      | _ => Ok tt
      end;;
      a ← accept_step (acceptor (face h)) e;
      Ok (mkHost (mkServer a (server_engine (face h)) (closing (face h))) (tally h) (tasks h), [])
  | Closes =>
      if bool_decide (is_Some (outcome (acceptor (face h)))) && bool_decide (live (acceptor (face h)) = ∅)
      then Ok (mkHost (mkServer (acceptor (face h)) (server_engine (face h)) true) (tally h) (tasks h), [])
      else Err tt
  end.

Fixpoint host_run (h : host) (events : list host_event) : res () (host * list occurrence) :=
  match events with
  | [] => Ok (h, [])
  | e :: events =>
      '(h, happened) ← host_step h e;
      '(h, later) ← host_run h events;
      Ok (h, happened ++ later)
  end.
End Tasks.

(** [Server::run], before its first event. *)
Definition new_host (config : Config) (engine : system ExpiryIndex) : host :=
  mkHost (mkServer (new_acceptor config) engine false) default_metrics ∅.
