(* ===== verification/TaskLemmas.v ===== *)
(** * What a task does between two points where it awaits

    [next_request] takes whole frames off a stream; a request is executed up to
    the engine's answer, and from there; and each step of a task keeps it
    well-formed and succeeds. *)

From S2P Require Import Prelude Bytes Protocol Decoder DecoderLemmas DecoderTheorems Command CommandTheorems.
From S2P Require Import Expiry Store StoreSpec StoreLemmas StoreInvariant Config Engine System SystemSpec SystemEngine.
From S2P Require Import Session EngineContract Server ServerLemmas ServerRun Tasks.

Local Open Scope Z_scope.

(** ** Reading *)

(** The bytes among what arrives. *)
Definition carried (events : list read_event) : bytes :=
  concat (omap (fun e => match e with Received chunk => Some chunk | _ => None end) events).

Lemma carried_app e1 e2 : carried (e1 ++ e2) = carried e1 ++ carried e2.
Proof. unfold carried. by rewrite omap_app, concat_app. Qed.

Lemma carried_received chunk events : carried (Received chunk :: events) = chunk ++ carried events.
Proof. done. Qed.

(** What a decoder has seen of a stream suits it. *)
Definition reading_ok (l : Limits) (k : Connection) : Prop :=
  decoder_ok (decoder k) (input k) /\ Decoder.limits (decoder k) = l.

(** A read leaves what it does not take, and never stops before it must. *)
Lemma read_chunk_splits remaining chunk events received rest : 0 < remaining ->
  read_chunk remaining chunk events = (received, rest) ->
  received ++ carried rest = carried (Received chunk :: events) /\
  (received <> [] -> sum_list_with event_size rest < S (length chunk) + sum_list_with event_size events)%nat.
Proof.
  intros Hr [= <- <-]. rewrite carried_received. rewrite <- (take_drop (Z.to_nat remaining) chunk) at 3.
  assert (length (take (Z.to_nat remaining) chunk) + length (drop (Z.to_nat remaining) chunk) = length chunk)%nat as Hlen
    by (rewrite <- length_app; by rewrite take_drop).
  destruct (drop (Z.to_nat remaining) chunk) as [|b rest].
  - rewrite app_nil_r. split; [done|]. intros _. lia.
  - rewrite carried_received, <- app_assoc. split; [done|]. intros Hne.
    assert (0 < length (take (Z.to_nat remaining) chunk))%nat
      by (destruct (take (Z.to_nat remaining) chunk); [done|cbn; lia]).
    change (sum_list_with event_size (Received (b :: rest) :: events))
      with (S (length (b :: rest)) + sum_list_with event_size events)%nat. lia.
Qed.

Lemma next_request_spec c fuel d i events : limits_ok (protocol c) -> decoder_ok d i ->
  Decoder.limits d = protocol c -> (sum_list_with event_size events < fuel)%nat ->
  exists o d' i' events', next_request fuel c d i events = Ok (o, d', i', events') /\
    match o with
    | GotRequest q => exists w, is_frame (protocol c) (arguments q) w /\ d' = idle (protocol c) /\
        i ++ carried events = w ++ i' ++ carried events'
    | Waiting => events' = [] /\ i' = i ++ carried events /\ decoder_ok d' i' /\
        Decoder.limits d' = protocol c
    | _ => True
    end.
Proof.
  intros Hl. revert d i events. induction fuel as [|fuel IH]; intros d i events Hok Hlim Hfuel; [lia|].
  cbn [next_request]. assert (Hs := decode_spec d i Hok). rewrite Hlim in Hs.
  destruct (decode d i) as [[[[q|]|e|] d'] rest]; [..|done].
  - destruct Hs as (Hd & w & -> & _ & Hw). do 4 eexists. split; [reflexivity|].
    exists w. by rewrite <- app_assoc.
  - destruct Hs as (-> & Hok' & Hlim' & Hroom). rewrite (proj2 (Z.eqb_neq _ _)) by (unfold chunk_size; lia).
    destruct events as [|[chunk| | |] events]; try (do 4 eexists; by split).
    { do 4 eexists. split; [reflexivity|]. change (carried []) with (@nil byte). by rewrite app_nil_r. }
    destruct (read_chunk _ chunk events) as [received rest] eqn:Hread.
    apply read_chunk_splits in Hread as [<- Hsize]; [|unfold chunk_size; lia].
    destruct received as [|b received]; [destruct i; do 4 eexists; by split|].
    change (sum_list_with event_size (Received chunk :: events))
      with (S (length chunk) + sum_list_with event_size events)%nat in Hfuel.
    destruct (IH d' (i ++ b :: received) rest) as (o & d2 & i2 & ev & -> & Ho);
      [by apply decoder_ok_app|done|specialize (Hsize ltac:(done)); lia|].
    exists o, d2, i2, ev. split; [done|]. by rewrite <- app_assoc in Ho.
  - do 4 eexists. by split.
Qed.

(** ** Executing *)

Section Executing.
Context (ct_eq : bytes -> bytes -> bool) (config : Config).

(** The call a request makes. *)
Definition data_call (s : Session) (args : list bytes) : option Operation :=
  match parse args (commands config) with
  | Ok (Data op) => if authenticated s then Some op else None
  | _ => None
  end.

(** An engine that has measured statistics that add up, or waits for them. *)
Definition port_fits (p : Port) : Prop :=
  match measured p with Some stats => is_Some (info_memory stats) | None => True end.

Lemma no_stats : is_Some (info_memory []).
Proof. by eexists. Qed.

#[local] Instance port_service : EngineService Port.
Proof.
  refine {| serving n p := port_fits p |}.
  - done.
  - intros n p op _ Hp. cbn. unfold port_execute. by destruct (answer p).
  - intros n p Hp. cbn. unfold port_stats, port_fits in *.
    destruct (measured p); (split; [|done]); [exact Hp|exact no_stats].
Defined.

Lemma answer_port_total s q p m : port_fits p -> exists s' p' reply close,
  answer_request ct_eq s q p config m = Some (s', p', (reply, close)).
Proof.
  intros Hp. destruct (answer_request_total (Laws := port_service) ct_eq config 0 s q p m Hp) as (s' & p' & reply & close & Hx & _).
  by do 4 eexists.
Qed.

(** A data command makes its call and has its answer, and does nothing else. *)
Lemma answer_port_data s q p m op : data_call s (arguments q) = Some op ->
  answer_request ct_eq s q p config m = Some (s, (port_execute p op).1, ((port_execute p op).2, false)).
Proof.
  unfold data_call, answer_request. destruct (parse _ _) as [[]|e|]; try done.
  destruct (authenticated s) eqn:Hs; [|done]. intros [= ->]. cbn [session_execute]. rewrite Hs. cbn [negb run_command].
  change (engine_execute p op) with (port_execute p op). by destruct (port_execute p op).
Qed.

(** Any other request makes no call, and changes no session before it has its
    statistics. *)
Lemma answer_port_other s q p m s' p' reply close : data_call s (arguments q) = None -> wanted p = None ->
  answer_request ct_eq s q p config m = Some (s', p', (reply, close)) ->
  wanted p' = None \/ wanted p' = Some WantsStats /\ measured p = None /\ s' = s.
Proof.
  unfold data_call, answer_request. intros Hc Hw Hx. destruct (parse _ _) as [command|e|]; [|by injection Hx as <- <- <- <-; left|done].
  destruct command as [op|payload|value| |u pw|version auth name|db|[|nm|b v]|md|section]; cbn [session_execute] in Hx.
  all: try (destruct (authenticated s); cbn [negb run_command] in Hx; [|by injection Hx as <- <- <- <-; left]).
  all: try (by injection Hx as <- <- <- <-; left).
  - done.
  - destruct payload; by injection Hx as <- <- <- <-; left.
  - destruct (authenticate _ _ _ _); by injection Hx as <- <- <- <-; left.
  - destruct (match version with Some _ => _ | None => _ end); [by injection Hx as <- <- <- <-; left|].
    destruct auth as [[u pw]|]; [destruct (authenticate _ _ _ _); [|by injection Hx as <- <- <- <-; left]|];
      destruct (negb _); by injection Hx as <- <- <- <-; left.
  - apply bind_Some in Hx as ([p1 r] & Hi & [= <- <- <- <-]). unfold info in Hi.
    apply bind_Some in Hi as ([p2 mem] & Hi & [= <- _]). destruct (info_include section "memory"); [|by injection Hi as <- _; left].
    cbn [engine_stats port_api] in Hi. unfold port_stats in Hi.
    destruct (measured p); apply bind_Some in Hi as (x & _ & [= <- _]); [by left|]. right. by split_and!.
Qed.

(** ** Resuming *)

(** The rest of a task that executes a request. *)
Definition executes (t : Task) (s : Session) (st : stage) : Task :=
  mkTask (mkConnection s (decoder (link t)) (input (link t))) st (backlog t) (output t).

Lemma task_link t st : executes t (session (link t)) st = set_stage t st.
Proof. by destruct t as [[] ? ? ?]. Qed.

(** A request starts: it calls the engine, waits for statistics, or is answered. *)
Lemma resume_start t q m n : let s := session (link t) in let p := mkPort None None None n in
  match data_call s (arguments q) with
  | Some op => resume ct_eq config t q m p = Ok (set_stage t (Calling q m op))
  | None => resume ct_eq config t q m p = Ok (set_stage t (Measuring q m [])) \/
      exists s' p' reply close, answer_request ct_eq s q p config m = Some (s', p', (reply, close)) /\
        resume ct_eq config t q m p = Ok (executes t s' (Writing reply close))
  end.
Proof.
  intros s p. unfold resume. fold s. destruct (data_call s (arguments q)) as [op|] eqn:Hc.
  - rewrite (answer_port_data _ _ _ _ _ Hc). cbn. by rewrite <- task_link.
  - destruct (answer_port_total s q p m I) as (s' & p' & reply & close & Hx). rewrite Hx. cbn [expect mbind res_bind].
    destruct (answer_port_other _ _ p _ _ _ _ _ Hc eq_refl Hx) as [->|(-> & _ & ->)].
    + right. by exists s', p', reply, close.
    + left. by rewrite <- task_link.
Qed.

(** The engine's reply is the reply. *)
Lemma resume_reply t q m n op reply : data_call (session (link t)) (arguments q) = Some op ->
  resume ct_eq config t q m (mkPort (Some reply) None None n) = Ok (set_stage t (Writing reply false)).
Proof.
  intros Hc. unfold resume. rewrite (answer_port_data _ _ _ _ _ Hc). cbn. by rewrite <- task_link.
Qed.

(** With the statistics, a request is answered. *)
Lemma resume_stats t q m n stats : data_call (session (link t)) (arguments q) = None ->
  is_Some (info_memory stats) -> let p := mkPort None (Some stats) None n in
  exists s' p' reply close, answer_request ct_eq (session (link t)) q p config m = Some (s', p', (reply, close)) /\
    resume ct_eq config t q m p = Ok (executes t s' (Writing reply close)).
Proof.
  intros Hc Hs p. destruct (answer_port_total (session (link t)) q p m Hs) as (s' & p' & reply & close & Hx).
  exists s', p', reply, close. split; [done|]. unfold resume. rewrite Hx. cbn [expect mbind res_bind].
  by destruct (answer_port_other _ _ p _ _ _ _ _ Hc eq_refl Hx) as [->|(_ & [=] & _)].
Qed.
End Executing.

(** ** One step of a task *)

Section Steps.
Context (ct_eq : bytes -> bytes -> bool) (config : Config) (n : nat).
Context (Hconfig : config_ok config) (Hlimits : limits_ok (protocol config)).
Context (Hn : (0 < n)%nat) (Hworkers : Z.of_nat n = workers config).

(** What holds of a task at each stage. *)
Definition task_ok (t : Task) : Prop :=
  match at_stage t with
  | AtHead | InRead | Writing _ _ => reading_ok (protocol config) (link t)
  | Calling q _ op | Awaiting q _ op =>
      reading_ok (protocol config) (link t) /\ data_call config (session (link t)) (arguments q) = Some op
  | Measuring q _ stats =>
      reading_ok (protocol config) (link t) /\ data_call config (session (link t)) (arguments q) = None /\
      (length stats < n)%nat /\ forall j s, stats !! j = Some s -> stat_fits config j s
  | LastWrite _ | Over _ => True
  end.

(** How a task starts a request. *)
Inductive starts (q : Request) (t : Task) : Task -> Prop :=
| starts_call m op : data_call config (session (link t)) (arguments q) = Some op ->
    starts q t (set_stage t (Calling q m op))
| starts_measuring m : data_call config (session (link t)) (arguments q) = None ->
    starts q t (set_stage t (Measuring q m []))
| starts_reply s' p p' m reply close : data_call config (session (link t)) (arguments q) = None ->
    answer_request ct_eq (session (link t)) q (p : Port) config m = Some (s', p', (reply, close)) ->
    starts q t (executes t s' (Writing reply close)).

(** How a task goes on by itself: the server stops, the stream has no more, the
    stream ends or fails, it breaks the protocol, or it has a request. *)
Inductive polled (t : Task) : Task -> Prop :=
| polled_stops : at_stage t = AtHead -> polled t (set_stage t (Over Returned))
| polled_waits d : let i := input (link t) ++ carried (backlog t) in
    decoder_ok d i -> Decoder.limits d = protocol config ->
    polled t (mkTask (mkConnection (session (link t)) d i) InRead [] (output t))
| polled_ends d i events e :
    polled t (mkTask (mkConnection (session (link t)) d i) (Over e) events (output t))
| polled_error d i events message :
    polled t (mkTask (mkConnection (session (link t)) d i)
      (LastWrite (reply_error ("ERR Protocol error: " +:+ message))) events (output t))
| polled_request q w i events t' :
    let t1 := mkTask (mkConnection (session (link t)) (idle (protocol config)) i) InRead events (output t) in
    is_frame (protocol config) (arguments q) w ->
    input (link t) ++ carried (backlog t) = w ++ i ++ carried events ->
    starts q t1 t' -> polled t t'.

Definition can_go_on (t : Task) : Prop := at_stage t = AtHead \/ at_stage t = InRead.

Lemma read_spec k t m : reading_ok (protocol config) (link t) ->
  exists t' m', read ct_eq config k t m = Ok (t', m') /\ polled t t'.
Proof.
  intros [Hok Hlim]. unfold read.
  destruct (next_request_spec config (read_fuel (backlog t)) (decoder (link t)) (input (link t)) (backlog t)
    Hlimits Hok Hlim ltac:(unfold read_fuel; lia)) as (o & d & i & events & -> & Ho). cbn [mbind res_bind].
  destruct o as [q| |[message|[]]|].
  - destruct Ho as (w & Hw & -> & Hcat).
    set (t1 := mkTask (mkConnection (session (link t)) (idle (protocol config)) i) InRead events (output t)).
    assert (Hs := resume_start ct_eq config t1 q (count_command m) k). cbn zeta in Hs.
    destruct (data_call config (session (link t1)) (arguments q)) as [op|] eqn:Hc.
    + rewrite Hs. do 2 eexists. split; [reflexivity|]. eapply polled_request; [done..|by apply starts_call].
    + destruct Hs as [->|(s' & p' & reply & close & Ha & ->)]; do 2 eexists; (split; [reflexivity|]);
        (eapply polled_request; [done..|]); [by apply starts_measuring|by eapply starts_reply].
  - do 2 eexists. split; [reflexivity|]. apply (polled_ends t).
  - do 2 eexists. split; [reflexivity|]. apply (polled_error t).
  - do 2 eexists. split; [reflexivity|]. apply (polled_ends t).
  - do 2 eexists. split; [reflexivity|]. apply (polled_ends t).
  - destruct Ho as (-> & -> & Hd & Hl'). do 2 eexists. split; [reflexivity|]. by apply (polled_waits t).
Qed.

Lemma poll_spec k stopping t m : task_ok t -> can_go_on t ->
  exists t' m', poll ct_eq config k stopping t m = Ok (t', m') /\ polled t t'.
Proof.
  unfold task_ok, poll. intros Hok [Hs|Hs]; rewrite Hs in *; [destruct stopping|]; [|by apply read_spec..].
  do 2 eexists. split; [reflexivity|]. by apply polled_stops.
Qed.

Lemma idle_reading s i : reading_ok (protocol config) (mkConnection s (idle (protocol config)) i).
Proof. split; [by apply idle_ok|done]. Qed.

Lemma polled_ok t t' : polled t t' -> task_ok t'.
Proof.
  destruct 1 as [|d i Hd Hl|d i events e|d i events msg|q w i events t' t1 Hw Hcat Hs]; try done.
  assert (Hr := idle_reading (session (link t)) i).
  destruct Hs as [m op Hc|m Hc|s' p p' m reply close Hc Ha]; unfold task_ok; cbn [set_stage executes at_stage link].
  - by split.
  - split_and!; [done|done|done|]. intros j s Hj. by rewrite lookup_nil in Hj.
  - apply idle_reading.
Qed.

(** The reply of a call. *)
Lemma hear_spec k reply t : task_ok t ->
  hear ct_eq config k reply t = Ok (match at_stage t with
                                    | Awaiting _ _ _ => set_stage t (Writing reply false)
                                    | _ => t
                                    end).
Proof.
  unfold task_ok, hear. destruct (at_stage t) as [| |q m op|q m op|q m stats|r cl|r|e]; try done.
  intros [_ Hc]. by apply resume_reply with op.
Qed.

Lemma hear_ok reply t : task_ok t ->
  task_ok (match at_stage t with Awaiting _ _ _ => set_stage t (Writing reply false) | _ => t end).
Proof. intros Hok. unfold task_ok in *. by destruct (at_stage t) eqn:E; rewrite ?E; cbn; try apply Hok. Qed.

(** One more owner's statistics. *)
Inductive measures (t : Task) (q : Request) (m : Metrics) : Task -> Prop :=
| measures_more stats : measures t q m (set_stage t (Measuring q m stats))
| measures_all s' p p' reply close :
    answer_request ct_eq (session (link t)) q (p : Port) config m = Some (s', p', (reply, close)) ->
    measures t q m (executes t s' (Writing reply close)).

Lemma measure_spec s t q m stats : task_ok t -> at_stage t = Measuring q m stats -> stat_fits config (length stats) s ->
  exists t', measure ct_eq config n s t = Ok t' /\ task_ok t' /\ measures t q m t'.
Proof.
  unfold task_ok, measure. intros Hok Hst Hs. rewrite Hst in *. destruct Hok as (Hr & Hc & Hlen & Hall).
  assert (forall j s', (stats ++ [s]) !! j = Some s' -> stat_fits config j s') as Hall'.
  { intros j s' [Hj|[Hj Hs']]%lookup_app_Some; [by apply Hall|].
    destruct (j - length stats)%nat eqn:E; cbn in Hs'; [|done]. injection Hs' as <-.
    by replace j with (length stats) by lia. }
  case_bool_decide as Hlast.
  - destruct (resume_stats ct_eq config t q m (Z.of_nat n) (stats ++ [s]) Hc) as (s' & p' & reply & close & Ha & ->).
    { apply (stats_add_up config); [done|by rewrite Hlast|done]. }
    eexists. split; [reflexivity|]. split; [exact Hr|by eapply measures_all].
  - eexists. split; [reflexivity|]. split; [|apply measures_more]. cbn [set_stage at_stage link].
    split_and!; try done. rewrite length_app in *. cbn in *. lia.
Qed.

(** How a write ends. *)
Definition told (reply : Reply) : bytes := encode (bounded_reply config reply) [].

Inductive writes (t : Task) : Task -> Prop :=
| writes_next reply : at_stage t = Writing reply false ->
    writes t (mkTask (link t) AtHead (backlog t) (output t ++ [told reply]))
| writes_close reply : at_stage t = Writing reply true ->
    writes t (mkTask (link t) (Over Returned) (backlog t) (output t ++ [told reply]))
| writes_fails reply close e : at_stage t = Writing reply close ->
    writes t (set_stage t (Over (Failed e)))
| writes_last reply : at_stage t = LastWrite reply ->
    writes t (mkTask (link t) (Over Returned) (backlog t) (output t ++ [told reply]))
| writes_last_fails reply : at_stage t = LastWrite reply -> writes t (set_stage t (Over Returned)).

Definition can_write (t : Task) : Prop :=
  match at_stage t with Writing _ _ | LastWrite _ => True | _ => False end.

Lemma write_spec w t m : can_write t -> exists t' m', write config w t m = Ok (t', m') /\ writes t t'.
Proof.
  unfold can_write, write. destruct (at_stage t) as [| | | | |reply close|reply|] eqn:Hs; try done; intros _;
    rewrite write_reply_spec; cbn [expect mbind res_bind]; destruct w; cbn [write_result];
    try destruct close; rewrite ?app_nil_r; do 2 eexists; (split; [reflexivity|]);
    by first [by apply writes_next|by apply writes_close|by eapply writes_fails|by apply writes_last|by eapply writes_last_fails].
Qed.

Lemma writes_ok t t' : task_ok t -> writes t t' -> task_ok t'.
Proof. unfold task_ok. intros Hok [r Hs|r Hs|r c e Hs|r Hs|r Hs]; try done. by rewrite Hs in Hok. Qed.

(** A task that starts. *)
Lemma new_task_ok id nodelay : task_ok (new_task config id nodelay).
Proof.
  unfold new_task. destruct nodelay; [|done]. unfold new_connection.
  destruct (new_decoder (protocol config)) as [d|e|] eqn:Hd; [|done..].
  unfold new_decoder in Hd. apply bind_Ok in Hd as (? & _ & [= <-]). apply idle_reading.
Qed.

(** What arrives for a task. *)
Lemma net_ok t e : task_ok t -> task_ok (mkTask (link t) (at_stage t) (backlog t ++ [e]) (output t)).
Proof. done. Qed.
End Steps.
