(* ===== verification/TaskConnection.v ===== *)
(** * A task is [connection], cut where it awaits

    With an engine that answers at once, the steps of a task in their order - go
    on, call the engine or have its statistics, write - are the turns of
    [connection] (file [Server]). *)

From S2P Require Import Prelude Bytes Protocol Decoder Command Expiry Store Config Engine System.
From S2P Require Import Session Server ServerLemmas Tasks TaskLemmas.

Local Open Scope Z_scope.

Section TaskConnection.
Context (ct_eq : bytes -> bytes -> bool) (config : Config).
Context {E : Type} `{EngineApi E}.
Implicit Types (engine : E) (t : Task).

(** An engine, before it is asked for anything. *)
Definition port_of engine : Port := mkPort None None None (engine_worker_count engine).

(** What a task waits for, from an engine that answers at once. *)
Definition engine_turn t engine : res () (Task * E) :=
  match at_stage t with
  | Calling q m op =>
      let '(engine', reply) := engine_execute engine op in
      t ← hear ct_eq config (engine_worker_count engine) reply (set_stage t (Awaiting q m op));
      Ok (t, engine')
  | Measuring q m _ =>
      let '(engine', stats) := engine_stats engine in
      t ← resume ct_eq config t q m (mkPort None (Some stats) None (engine_worker_count engine));
      Ok (t, engine')
  | _ => Ok (t, engine)
  end.

(** Turn by turn. *)
Fixpoint task_turns (turns : list turn) t engine (m : Metrics) : res () (Task * E * Metrics) :=
  match turns with
  | [] => Ok (t, engine, m)
  | (stopping, w) :: turns =>
      '(t, m) ← poll ct_eq config (engine_worker_count engine) stopping t m;
      '(t, engine) ← engine_turn t engine;
      match at_stage t with
      | Writing _ _ | LastWrite _ =>
          '(t, m) ← write config w t m;
          match at_stage t with
          | AtHead => task_turns turns t engine m
          | _ => Ok (t, engine, m)
          end
      | _ => Ok (t, engine, m)
      end
  end.

(** A task as the result of [connection]. *)
Definition as_served (out : Task * E * Metrics) : served E :=
  let '(t, engine, m) := out in
  mkServed (output t) (link t) engine m (backlog t) (match at_stage t with Over e => e | _ => Open end).

(** Executing a request, and executing it as far as the engine's answers go and
    from there. *)
Lemma answer_awaits s q engine m :
  answer_request ct_eq s q engine config m =
    '(s1, p1, out) ← answer_request ct_eq s q (port_of engine) config m;
    match wanted p1 with
    | None => Some (s1, engine, out)
    | Some (WantsReply op) =>
        let '(engine', reply) := engine_execute engine op in
        '(s2, _, out) ← answer_request ct_eq s1 q (mkPort (Some reply) None None (engine_worker_count engine)) config m;
        Some (s2, engine', out)
    | Some WantsStats =>
        let '(engine', stats) := engine_stats engine in
        '(s2, _, out) ← answer_request ct_eq s1 q (mkPort None (Some stats) None (engine_worker_count engine)) config m;
        Some (s2, engine', out)
    end.
Proof.
  unfold answer_request. destruct (parse (arguments q) (commands config)) as [command|e|]; [|done..].
  destruct command as [op|payload|value| |u pw|version auth name|db|[|nm|b v]|md|section];
    cbn [session_execute]; try (destruct (authenticated s) eqn:Hs; cbn [negb run_command]); try done.
  - cbn. rewrite Hs. cbn. by destruct (engine_execute engine op).
  - by destruct payload.
  - by destruct (authenticate ct_eq config u pw).
  - by destruct (authenticate ct_eq config u pw).
  - destruct (match version with Some _ => _ | None => _ end); [done|].
    destruct auth as [[u pw]|]; [destruct (authenticate _ _ _ _); [|done]|]; cbn; rewrite ?Hs; by destruct name.
  - destruct (match version with Some _ => _ | None => _ end); [done|].
    destruct auth as [[u pw]|]; [destruct (authenticate _ _ _ _); [|done]|]; cbn; rewrite ?Hs; by destruct name.
  - destruct no_stats as [x Hx]. unfold info.
    destruct (info_include section "memory"); [|done].
    cbn [engine_stats engine_worker_count port_api port_stats port_of measured answer wanted worker_count].
    rewrite Hx. cbn [mbind option_bind wanted worker_count]. rewrite Hs. cbn [negb run_command].
    destruct (engine_stats engine) as [engine' stats]. unfold info.
    cbn [engine_stats engine_worker_count port_api port_stats measured answer wanted worker_count].
    by destruct (info_memory stats).
Qed.

(** A request of a task, from an engine that answers at once. *)
Lemma resume_connection t q engine m :
  (t1 ← resume ct_eq config t q m (port_of engine); engine_turn t1 engine) =
  ('(s, engine, (reply, close)) ← expect (answer_request ct_eq (session (link t)) q engine config m);
   Ok (executes t s (Writing reply close), engine)).
Proof.
  rewrite answer_awaits. unfold resume at 1. destruct (data_call config (session (link t)) (arguments q)) as [op|] eqn:Hc.
  - rewrite (answer_port_data _ _ _ _ _ _ _ Hc). cbn.
    destruct (engine_execute engine op) as [engine' reply]. unfold hear. cbn [at_stage set_stage].
    assert (data_call config (session (link (executes t (session (link t)) (Awaiting q m op)))) (arguments q) = Some op)
      as Hc' by done.
    assert (G := resume_reply ct_eq config _ q m (engine_worker_count engine) op reply Hc').
    unfold executes, set_stage in *. cbn in *. rewrite G.
    by rewrite (answer_port_data _ _ _ _ _ _ _ Hc).
  - destruct (answer_request ct_eq (session (link t)) q (port_of engine) config m) as [[[s1 p1] [reply close]]|] eqn:Hx; [|done].
    destruct (answer_port_other _ _ _ _ (port_of engine) _ _ _ _ _ Hc eq_refl Hx) as [Hw|(Hw & _ & ->)];
      cbn [expect mbind res_bind option_bind]; rewrite Hw; [done|].
    unfold engine_turn. cbn [at_stage]. destruct (engine_stats engine) as [engine' stats]. unfold resume. cbn [link session].
    destruct (answer_request ct_eq (session (link t)) q (mkPort None (Some stats) None _) config m)
      as [[[s2 p2] [reply2 close2]]|] eqn:Hx2; [|done]. cbn [expect mbind res_bind option_bind].
    by destruct (answer_port_other _ _ _ _ (mkPort None (Some stats) None (engine_worker_count engine)) _ _ _ _ _ Hc eq_refl Hx2)
      as [->|(_ & [=] & _)].
Qed.

Lemma prepend_nil (r : served E) : prepend [] r = r.
Proof. by destruct r. Qed.

Lemma prepend_app a b (r : served E) : prepend a (prepend b r) = prepend (a ++ b) r.
Proof. unfold prepend. cbn. by rewrite app_assoc. Qed.

(** The steps of a task are the turns of its connection. *)
Theorem task_is_connection turns t engine m : at_stage t = AtHead ->
  as_served <$> task_turns turns t engine m =
  prepend (output t) <$> connection ct_eq turns config (link t) engine m (backlog t).
Proof.
  revert t engine m. induction turns as [|[stopping w] turns IH]; intros t engine m Hst; cbn [task_turns connection].
  { cbn. rewrite Hst. unfold prepend. cbn. by rewrite app_nil_r. }
  unfold poll. rewrite Hst. destruct stopping.
  { cbn. unfold prepend. cbn. by rewrite app_nil_r. }
  unfold read.
  destruct (next_request _ _ _ _ _) as [[[[o d] i] events]|e|]; [|done..]. cbn [mbind res_bind].
  destruct o as [q| |[message|[]]|]; cbn [mbind res_bind set_stage at_stage engine_turn].
  - set (t1 := mkTask (mkConnection (session (link t)) d i) InRead events (output t)).
    assert (G := resume_connection t1 q engine (count_command m)). cbn [t1 link session] in G.
    change (mkPort None None None (engine_worker_count engine)) with (port_of engine).
    destruct (resume ct_eq config t1 q (count_command m) (port_of engine)) as [t2|e|] eqn:Hr; cbn [mbind res_bind] in G |- *.
    + rewrite G. destruct (answer_request _ _ _ _ _ _) as [[[s engine'] [reply close]]|]; [|done].
      cbn [expect mbind res_bind executes at_stage]. unfold write. cbn [executes at_stage].
      rewrite !write_reply_spec. cbn [expect mbind res_bind].
      destruct w; cbn [write_result mbind res_bind at_stage];
        try (cbn; unfold prepend; cbn; by rewrite ?app_nil_r).
      destruct close; cbn [at_stage]; [by cbn|]. rewrite IH by done. cbn [output link backlog executes].
      destruct (connection _ _ _ _ _ _ _); [|done..]. cbn [fmap res_fmap]. by rewrite prepend_app.
    + by destruct (answer_request _ _ _ _ _ _) as [[[s engine'] [reply close]]|].
    + by destruct (answer_request _ _ _ _ _ _) as [[[s engine'] [reply close]]|].
  - cbn. unfold prepend. cbn. by rewrite app_nil_r.
  - unfold write. cbn [at_stage set_stage link backlog output]. rewrite !write_reply_spec. cbn [expect mbind res_bind].
    by destruct w; cbn; unfold prepend; cbn; rewrite ?app_nil_r.
  - cbn. unfold prepend. cbn. by rewrite app_nil_r.
  - cbn. unfold prepend. cbn. by rewrite app_nil_r.
  - cbn. unfold prepend. cbn. by rewrite app_nil_r.
Qed.
End TaskConnection.
