(* ===== verification/TaskRun.v ===== *)
(** * The tasks keep the server's promises

    In every run of the server with its tasks nothing panics, a task that can go
    on by itself or write does, and the accept loop and the engine do what a run
    of [ServerRun] does: the guards of [ServerRun] - who may ask, and who may end -
    hold because of where the tasks are. *)

From S2P Require Import Prelude Bytes Protocol Decoder DecoderLemmas Command CommandTheorems Expiry ExpiryTheorems.
From S2P Require Import Store StoreSpec StoreTheorems Config Engine System SystemSpec SystemLocal SystemConservation SystemOwners.
From S2P Require Import SystemRuns SystemEngine Session Server ServerLemmas AcceptTheorems ServerRun ServerDialogue.
From S2P Require Import Tasks TaskLemmas.

Local Open Scope Z_scope.

Section TaskRun.
Context (ct_eq : bytes -> bytes -> bool) (config : Config) (hash : bytes -> Z).

Definition owner_count : nat := Z.to_nat (workers config).

(** The server with its tasks at any moment. *)
Record host_ok (offers : Z) (h : host) : Prop := {
  host_server : server_ok config offers (face h);
  host_waits c : c ∈ outstanding (server_engine (face h)) ->
    exists t q m op, tasks h !! c = Some t /\ at_stage t = Awaiting q m op;
  host_live c t : tasks h !! c = Some t -> (forall e, at_stage t <> Over e) ->
    Z.of_nat c ∈ live (acceptor (face h));
  host_tasks c t : tasks h !! c = Some t -> task_ok config owner_count t;
  host_owners : length (owners (server_engine (face h))) = owner_count;
  host_limits i o : owners (server_engine (face h)) !! i = Some o ->
    limits (shard o) = shard_limits config (Z.of_nat i);
}.

(** ** What is asked *)

Definition begins (h h' : host) (c : nat) (op : Operation) : Prop :=
  exists t q m, tasks h !! c = Some t /\ at_stage t = Calling q m op /\
    h' = set_task h c (set_stage t (Awaiting q m op)).

Lemma ask_for_spec h c op h' : ask_for h c op = Ok h' -> begins h h' c op.
Proof.
  unfold ask_for. destruct (tasks h !! c) as [t|] eqn:Ht; [|done].
  destruct (at_stage t) as [| |q m op'| | | | |] eqn:Hs; try done.
  destruct (decide (op' = op)) as [->|]; [|done]. intros [= <-]. by exists t, q, m.
Qed.

Lemma ask_spec h a h' : ask h a = Ok h' ->
  face h' = face h /\ tally h' = tally h /\
  match asks a with Some (c, op) => begins h h' c op | None => h' = h end.
Proof.
  assert (forall c op, ask_for h c op = Ok h' -> face h' = face h /\ tally h' = tally h /\ begins h h' c op) as Hfor.
  { intros c op Hb%ask_for_spec. split_and!; [..|done]; by destruct Hb as (t & q & m & _ & _ & ->). }
  destruct a; cbn [ask asks]; try (by intros [= <-]); try (by destruct (closing _); [intros [= <-]|]);
    try done; try (by apply Hfor); destruct (closing _); try done; by apply Hfor.
Qed.

Section Keeps.
Context (Hconfig : config_ok config) (Hlimits : limits_ok (protocol config)).
Context (Hmax : 1 <= max_connections config <= 65536).

Lemma owner_count_fits : (0 < owner_count)%nat /\ Z.of_nat owner_count = workers config.
Proof. destruct (ok_workers config Hconfig). unfold owner_count. lia. Qed.

(** A task that calls the engine is connected and does not wait: it may ask. *)
Lemma calling_free offers h c t q m op : host_ok offers h -> tasks h !! c = Some t ->
  at_stage t = Calling q m op -> is_free (face h) c = true.
Proof.
  intros Hh Ht Hs. unfold is_free, is_live. apply andb_true_iff. split; apply bool_decide_eq_true.
  - apply (host_live _ _ Hh c t Ht). by rewrite Hs.
  - intros (t' & q' & m' & op' & Ht' & Hs')%(host_waits _ _ Hh). congruence.
Qed.

(** The engine is not being shut down as long as there is a connection. *)
Lemma live_open offers h c : host_ok offers h -> is_free (face h) c = true -> closing (face h) = false.
Proof.
  intros Hh Hf. unfold is_free, is_live in Hf. apply andb_true_iff in Hf as [Hl%bool_decide_eq_true _].
  destruct (closing (face h)) eqn:E; [|done]. destruct (sv_closed _ _ _ (host_server _ _ Hh) E) as [_ He].
  rewrite He in Hl. by apply elem_of_empty in Hl.
Qed.

(** The guards of [ServerRun] hold. *)
Lemma ask_allowed offers h a h' : host_ok offers h -> ask h a = Ok h' -> allowed (face h) a = true.
Proof.
  intros Hh Hx. assert (forall c op, begins h h' c op -> is_free (face h) c = true) as Hfree.
  { intros c op (t & q & m & Ht & Hs & _). by eapply calling_free. }
  destruct (ask_spec _ _ _ Hx) as (_ & _ & Hb). destruct a; cbn [ask asks allowed] in *; try done.
  - rewrite (Hfree _ _ Hb), andb_true_r. by destruct (closing _).
  - rewrite (Hfree _ _ Hb), andb_true_r. by rewrite (live_open _ _ _ Hh (Hfree _ _ Hb)).
  - rewrite (Hfree _ _ Hb), andb_true_r. by destruct (closing _).
  - by destruct (closing _).
  - by destruct (closing _).
Qed.

(** ** What is delivered *)

Definition heard_by (reply : Reply) (t : Task) : Task :=
  match at_stage t with Awaiting _ _ _ => set_stage t (Writing reply false) | _ => t end.

(** Everybody who is told something hears it, and nobody else anything. *)
Lemma deliver_spec k said ts : NoDup said.*1 -> (forall c t, ts !! c = Some t -> task_ok config owner_count t) ->
  exists ts', deliver ct_eq config k said ts = Ok ts' /\
    forall c, ts' !! c = (fun t => match (list_to_map said : gmap nat Reply) !! c with
                                   | Some reply => heard_by reply t
                                   | None => t
                                   end) <$> ts !! c.
Proof.
  revert ts. induction said as [|[c0 reply] said IH]; intros ts Hnd Hts.
  { exists ts. split; [done|]. intros c. by destruct (ts !! c). }
  cbn [fmap list_fmap fst] in Hnd. apply NoDup_cons in Hnd as [Hni Hnd]. cbn [deliver list_to_map foldr fst snd].
  assert ((list_to_map said : gmap nat Reply) !! c0 = None) as Hc0 by (by apply not_elem_of_list_to_map_1).
  destruct (ts !! c0) as [t|] eqn:Ht.
  - rewrite (hear_spec ct_eq config owner_count k reply t) by (by eapply Hts). cbn [mbind res_bind]. fold (heard_by reply t).
    destruct (IH (<[c0 := heard_by reply t]> ts)) as (ts' & -> & Hts'); [done| |].
    { intros c t' [[<- <-]|[_ Hc]]%lookup_insert_Some; [|by eapply Hts]. apply hear_ok. by eapply Hts. }
    exists ts'. split; [done|]. intros c. rewrite Hts'. destruct (decide (c0 = c)) as [<-|Hne].
    + by rewrite !lookup_insert_eq, Ht, Hc0.
    + by rewrite !lookup_insert_ne by done.
  - destruct (IH ts) as (ts' & -> & Hts'); [done..|]. exists ts'. split; [done|]. intros c. rewrite Hts'.
    destruct (decide (c0 = c)) as [<-|Hne]; [by rewrite Ht|by rewrite lookup_insert_ne].
Qed.
(** ** One event *)

(** What an event is to the accept loop and the engine. *)
Definition host_offers (e : host_event) : Z := match e with Front e => offered e | _ => 0 end.

Definition host_work (e : host_event) : Z :=
  match e with Acts a => action_work config a | Measures _ => 1 | _ => 0 end.

Definition acted (events : list host_event) : list action :=
  omap (fun e => match e with Acts a => Some a | _ => None end) events.

(** It is at most one event of theirs. *)
Definition projects (h : host) (e : host_event) (h' : host) (happened : list occurrence) : Prop :=
  (face h' = face h /\ happened = [] /\ acted [e] = [] /\ host_work e = 0 /\ host_offers e = 0) \/
  exists e', server_step hash config (face h) e' = Ok (face h', happened) /\
    (forall c, requests_of c (worked [e']) = requests_of c (acted [e])) /\
    run_work config (worked [e']) = host_work e /\ offers_of e' = host_offers e.

(** What an event of the tasks leaves. *)
Definition step_good (offers : Z) (h : host) (e : host_event) (out : res () (host * list occurrence)) : Prop :=
  match out with
  | Ok (h', happened) => host_ok (offers + host_offers e) h' /\ projects h e h' happened
  | Err _ => True
  | Panic => False
  end.

(** A change of one task. *)
Lemma host_ok_task offers h c t m : host_ok offers h -> task_ok config owner_count t ->
  (c ∈ outstanding (server_engine (face h)) -> exists q m op, at_stage t = Awaiting q m op) ->
  ((forall e, at_stage t <> Over e) -> Z.of_nat c ∈ live (acceptor (face h))) ->
  host_ok offers (mkHost (face h) m (<[c := t]> (tasks h))).
Proof.
  intros [H1 H2 H3 H4 H5 H6] Ht Hw Hl. constructor; cbn [face tasks]; try done.
  - intros c' Hc'. destruct (decide (c = c')) as [<-|Hne].
    + destruct (Hw Hc') as (q & m' & op & Hs). exists t, q, m', op. by rewrite lookup_insert_eq.
    + rewrite lookup_insert_ne by done. by apply H2.
  - intros c' t' [[<- <-]|[_ Hc]]%lookup_insert_Some; [done|by apply H3].
  - intros c' t' [[<- <-]|[_ Hc]]%lookup_insert_Some; [done|by eapply H4].
Qed.

Lemma not_waiting offers h c t : host_ok offers h -> tasks h !! c = Some t ->
  (forall q m op, at_stage t <> Awaiting q m op) -> c ∉ outstanding (server_engine (face h)).
Proof. intros Hh Ht Hs (t' & q & m & op & Ht' & Hs')%(host_waits _ _ Hh). simplify_eq. by eapply Hs. Qed.

Lemma quiet_good offers h e h' : host_ok offers h' -> face h' = face h ->
  acted [e] = [] -> host_work e = 0 -> host_offers e = 0 -> step_good offers h e (Ok (h', [])).
Proof. intros Hh Hf H1 H2 H3. split; [by rewrite H3, Z.add_0_r|]. by left. Qed.

Lemma net_good offers h c e : host_ok offers h -> step_good offers h (Net c e) (host_step ct_eq config hash h (Net c e)).
Proof.
  intros Hh. cbn [host_step]. destruct (tasks h !! c) as [t|] eqn:Ht; [|done]. cbn [mbind res_bind].
  assert (step_good offers h (Net c e) (Ok (set_task h c (mkTask (link t) (at_stage t) (backlog t ++ [e]) (output t)), []))) as G.
  { apply quiet_good; try done. apply host_ok_task; [done| | |].
    - apply (host_tasks _ _ Hh _ _ Ht).
    - intros (t' & q & m & op & Ht' & Hs)%(host_waits _ _ Hh). simplify_eq. by exists q, m, op.
    - exact (host_live _ _ Hh _ _ Ht). }
  destruct e; try done. by destruct (signalled h).
Qed.

Lemma starts_good offers h c nodelay : host_ok offers h ->
  step_good offers h (Starts c nodelay) (host_step ct_eq config hash h (Starts c nodelay)).
Proof.
  intros Hh. cbn [host_step]. destruct (_ && _) eqn:Hg; [|done].
  apply andb_true_iff in Hg as [Hl%bool_decide_eq_true Ht%bool_decide_eq_true].
  apply quiet_good; try done. apply host_ok_task; [done|by apply new_task_ok| |done].
  intros (t' & q & m & op & Ht' & _)%(host_waits _ _ Hh). congruence.
Qed.

Lemma can_go_on_dec t : can_go_on t \/ forall k st m, poll ct_eq config k st t m = Err tt.
Proof. unfold can_go_on, poll. destruct (at_stage t); auto. Qed.

Lemma polls_good offers h c stopping : host_ok offers h ->
  step_good offers h (Polls c stopping) (host_step ct_eq config hash h (Polls c stopping)).
Proof.
  intros Hh. cbn [host_step]. destruct (tasks h !! c) as [t|] eqn:Ht; [|done]. cbn [mbind res_bind].
  destruct (_ && _); [done|]. destruct (can_go_on_dec t) as [Hgo| ->]; [|done].
  destruct owner_count_fits as [Hn Hw].
  destruct (poll_spec ct_eq config owner_count Hlimits Hn (Z.of_nat (workers_of h)) stopping t (observed h)
    (host_tasks _ _ Hh _ _ Ht) Hgo) as (t' & m' & -> & Hp). cbn [mbind res_bind].
  apply quiet_good; try done. apply host_ok_task; [done|by eapply polled_ok| |].
  - intros Hc. exfalso. revert Hc. apply (not_waiting _ _ _ _ Hh Ht). intros q m op E. by destruct Hgo; congruence.
  - intros _. apply (host_live _ _ Hh _ _ Ht). intros e E. by destruct Hgo; congruence.
Qed.

Lemma can_write_dec t : can_write t \/ forall w m, write config w t m = Err tt.
Proof. unfold can_write, write. destruct (at_stage t); auto. Qed.

Lemma writes_good offers h c w : host_ok offers h ->
  step_good offers h (Writes c w) (host_step ct_eq config hash h (Writes c w)).
Proof.
  intros Hh. cbn [host_step]. destruct (tasks h !! c) as [t|] eqn:Ht; [|done]. cbn [mbind res_bind].
  destruct (can_write_dec t) as [Hgo| ->]; [|done].
  destruct (write_spec config w t (observed h) Hgo) as (t' & m' & -> & Hp). cbn [mbind res_bind].
  assert (forall st, (forall r c, st <> Writing r c) -> (forall r, st <> LastWrite r) -> at_stage t <> st) as Hst.
  { intros st H1 H2 E. unfold can_write in Hgo. rewrite E in Hgo. destruct st; try done; [by eapply H1|by eapply H2]. }
  apply quiet_good; try done. apply host_ok_task; [done| | |].
  - eapply writes_ok; [|done]. apply (host_tasks _ _ Hh _ _ Ht).
  - intros Hc. exfalso. revert Hc. apply (not_waiting _ _ _ _ Hh Ht). intros q m op. by apply Hst.
  - intros _. apply (host_live _ _ Hh _ _ Ht). intros e. by apply Hst.
Qed.
Lemma fire_keeps_limits sys a sys' h : fire hash config sys a = Ok (sys', h) ->
  length (owners sys') = length (owners sys) ->
  (forall i o, owners sys !! i = Some o -> limits (shard o) = shard_limits config (Z.of_nat i)) ->
  forall i o, owners sys' !! i = Some o -> limits (shard o) = shard_limits config (Z.of_nat i).
Proof.
  intros Hx Hlen Hall i o' Ho'. destruct (lookup_lt_is_Some_2 (owners sys) i) as [o Ho].
  { rewrite <- Hlen. by eapply lookup_lt_Some. }
  destruct (SystemOwners.fire_limits _ _ _ _ _ _ _ _ Hx Ho) as (o1 & Ho1 & Hl). simplify_eq. rewrite Hl. by apply Hall.
Qed.

(** Who is told something or waits from now on is where it waits. *)
Lemma asked_awaits offers h a h1 sys happened c : host_ok offers h -> ask h a = Ok h1 ->
  fire hash config (server_engine (face h)) a = Ok (sys, happened) ->
  c ∈ (heard happened).*1 ++ outstanding sys ->
  exists t q m op, tasks h1 !! c = Some t /\ at_stage t = Awaiting q m op.
Proof.
  intros Hh Ha Hx Hc. assert (Hal := ask_allowed _ _ _ _ Hh Ha). destruct (ask_spec _ _ _ Ha) as (_ & _ & Hb).
  destruct (work_outstanding hash config _ _ _ _ Hal Hx (sv_waiting _ _ _ (host_server _ _ Hh))) as [_ Hout].
  destruct (Hout c Hc) as [Hin|Hin].
  - apply (host_waits _ _ Hh) in Hin as (t & q & m' & op & Ht & Hst).
    destruct (asks a) as [[c' op']|]; [|subst h1; by exists t, q, m', op].
    destruct Hb as (t' & q' & m2 & Ht' & Hst' & ->). exists t, q, m', op. cbn.
    rewrite lookup_insert_ne; [done|]. intros ->. congruence.
  - unfold asker in Hin. destruct (asks a) as [[c' op]|]; [|by apply not_elem_of_nil in Hin].
    apply list_elem_of_singleton in Hin as ->. destruct Hb as (t & q & m' & _ & _ & ->).
    exists (set_stage t (Awaiting q m' op)), q, m', op. cbn. by rewrite lookup_insert_eq.
Qed.

(** The tasks once the engine acted and its replies were delivered. *)
Lemma acts_ok offers w m h a h1 sys happened ts : host_ok offers h -> sys_ok hash w (server_engine (face h)) ->
  sim hash (server_engine (face h)) m -> w + action_work config a <= usize_max ->
  ask h a = Ok h1 -> fire hash config (server_engine (face h)) a = Ok (sys, happened) ->
  (forall c, ts !! c = (fun t => match (list_to_map (heard happened) : gmap nat Reply) !! c with
                                 | Some reply => heard_by reply t
                                 | None => t
                                 end) <$> tasks h1 !! c) ->
  host_ok offers (mkHost (mkServer (acceptor (face h)) sys (closing (face h))) (tally h) ts).
Proof.
  intros Hh Hs Hsim Hw Ha Hx Hts. assert (Hal := ask_allowed _ _ _ _ Hh Ha).
  destruct (ask_spec _ _ _ Ha) as (_ & _ & Hb).
  assert (Hg := fire_good hash config w _ a m Hs Hsim Hw). rewrite Hx in Hg. destruct Hg as (_ & Hlen & _).
  destruct (work_outstanding hash config _ _ _ _ Hal Hx (sv_waiting _ _ _ (host_server _ _ Hh))) as [Hnd _].
  assert (forall c t1, tasks h1 !! c = Some t1 -> exists t, tasks h !! c = Some t /\ task_ok config owner_count t1 /\
    ((exists q m op, at_stage t = Awaiting q m op) -> t1 = t) /\
    ((exists e, at_stage t = Over e) -> t1 = t)) as Hback.
  { intros c t1 Ht1. assert (tasks h !! c = Some t1 -> exists t, tasks h !! c = Some t /\
      task_ok config owner_count t1 /\ ((exists q m op, at_stage t = Awaiting q m op) -> t1 = t) /\
      ((exists e, at_stage t = Over e) -> t1 = t)) as Hsame.
    { intros Ht. exists t1. split_and!; [done|by eapply host_tasks|done|done]. }
    destruct (asks a) as [[c' op]|]; [|subst h1; by apply Hsame].
    destruct Hb as (t & q & m' & Ht & Hst & ->). cbn [set_task tasks] in Ht1. apply lookup_insert_Some in Ht1 as [[<- <-]|[_ Ht1]]; [|by apply Hsame].
    exists t. split_and!; [done| | |].
    - assert (Hok := host_tasks _ _ Hh _ _ Ht). unfold task_ok in *. by rewrite Hst in Hok.
    - intros (q' & m2 & op' & E). congruence.
    - intros (e & E). congruence. }
  constructor; cbn [face tasks server_engine acceptor].
  - by eapply work_ok; [apply Hh|..].
  - intros c Hc.
    destruct (asked_awaits _ _ _ _ _ _ c Hh Ha Hx) as (t & q & m' & op & Ht & Hst); [by apply elem_of_app; right|].
    exists t, q, m', op. rewrite Hts, Ht. cbn. apply NoDup_app in Hnd as (_ & Hnd & _).
    rewrite not_elem_of_list_to_map_1; [done|]. intros Hin. by apply (Hnd c).
  - intros c t' Ht' Hno. rewrite Hts in Ht'. apply fmap_Some in Ht' as (t1 & Ht1 & ->).
    destruct (Hback _ _ Ht1) as (t & Ht & _ & _ & Hover). apply (host_live _ _ Hh _ _ Ht). intros e E.
    apply (Hno e). rewrite Hover by eauto. assert (forall r, heard_by r t = t) as Hsame by (intros r; unfold heard_by; by rewrite E).
    destruct ((list_to_map (heard happened) : gmap nat Reply) !! c); by rewrite ?Hsame.
  - intros c t' Ht'. rewrite Hts in Ht'. apply fmap_Some in Ht' as (t1 & Ht1 & ->).
    destruct (Hback _ _ Ht1) as (t & _ & Hok & _). destruct ((list_to_map (heard happened) : gmap nat Reply) !! c) as [reply|]; [|done].
    unfold heard_by. by apply hear_ok.
  - rewrite Hlen. apply Hh.
  - eapply fire_keeps_limits; [exact Hx|done|]. apply Hh.
Qed.

Lemma ask_no_panic h a : ask h a <> Panic.
Proof.
  assert (forall c op, ask_for h c op <> Panic) as Hfor.
  { intros c op. unfold ask_for. destruct (tasks h !! c) as [t|]; [|done].
    destruct (at_stage t); try done. by destruct (decide _). }
  destruct a; cbn [ask]; try done; try (by apply Hfor); destruct (closing _); try done; by apply Hfor.
Qed.

Lemma work_projects h a h' sys happened : allowed (face h) a = true ->
  fire hash config (server_engine (face h)) a = Ok (sys, happened) ->
  face h' = mkServer (acceptor (face h)) sys (closing (face h)) ->
  server_step hash config (face h) (Work a) = Ok (face h', happened).
Proof. intros Hal Hx ->. cbn [server_step]. by rewrite Hal, Hx. Qed.

Lemma acts_good offers w m h a : host_ok offers h -> sys_ok hash w (server_engine (face h)) ->
  sim hash (server_engine (face h)) m -> w + action_work config a <= usize_max ->
  step_good offers h (Acts a) (host_step ct_eq config hash h (Acts a)).
Proof.
  intros Hh Hs Hsim Hw. cbn [host_step]. destruct (ask h a) as [h1|e|] eqn:Ha; [|done|by apply (ask_no_panic h a)].
  cbn [mbind res_bind]. destruct (ask_spec _ _ _ Ha) as (Hf & Htl & Hb). rewrite Hf.
  assert (Hg := fire_good hash config w _ a m Hs Hsim Hw).
  destruct (fire hash config _ a) as [[sys happened]|e|] eqn:Hx; [|done|done]. cbn [mbind res_bind].
  assert (Hal := ask_allowed _ _ _ _ Hh Ha).
  destruct (work_outstanding hash config _ _ _ _ Hal Hx (sv_waiting _ _ _ (host_server _ _ Hh))) as [Hnd _].
  destruct (deliver_spec (Z.of_nat (workers_of h1)) (heard happened) (tasks h1)) as (ts & -> & Hts).
  { by apply NoDup_app in Hnd as (? & _ & _). }
  { intros c t Ht. destruct (asks a) as [[c' op]|]; [|subst h1; by eapply host_tasks].
    destruct Hb as (t0 & q & m' & Ht0 & Hst & ->). cbn [set_task tasks] in Ht. apply lookup_insert_Some in Ht as [[<- <-]|[_ Ht]]; [|by eapply host_tasks].
    assert (Hok := host_tasks _ _ Hh _ _ Ht0). unfold task_ok in *. by rewrite Hst in Hok. }
  cbn [mbind res_bind]. unfold set_engine. rewrite Hf, Htl. split.
  - cbn [host_offers face]. rewrite Z.add_0_r. by apply (acts_ok offers w m h a h1 sys happened).
  - right. exists (Work a). split_and!; [by eapply work_projects|done| |done].
    unfold worked, run_work. cbn [omap list_omap foldr host_work]. lia.
Qed.

(** The statistics of an owner fit its limits. *)
Lemma sample_spec sys i sys' happened : sample sys i = Ok (sys', happened) ->
  exists o : Owner ExpiryIndex, owners sys !! i = Some o /\ happened = [Sampled i (stats (shard o))].
Proof.
  unfold sample. destruct (_ <=? _)%nat; [done|]. intros Hx. apply bind_Ok in Hx as ([s1 x] & Hc & Hx).
  unfold contact in Hc. apply bind_Ok in Hc as (o & Ho%expect_Ok & Hc). destruct (_ || _); [done|].
  apply bind_Ok in Hc as ([o' b] & Hb%expect_Ok & [= _ <-]). injection Hb as _ <-. injection Hx as _ <-. by exists o.
Qed.

Lemma measures_good offers w m h c : host_ok offers h -> sys_ok hash w (server_engine (face h)) ->
  sim hash (server_engine (face h)) m -> w + 1 <= usize_max ->
  step_good offers h (Measures c) (host_step ct_eq config hash h (Measures c)).
Proof.
  intros Hh Hs Hsim Hw. cbn [host_step]. destruct (tasks h !! c) as [t|] eqn:Ht; [|done]. cbn [mbind res_bind].
  destruct (at_stage t) as [| | | |q m' l| | |] eqn:Hst; try done.
  assert (Hg := fire_good hash config w _ (Sample (length l)) m Hs Hsim Hw).
  destruct (fire hash config _ (Sample (length l))) as [[sys happened]|e|] eqn:Hx; [|done|done]. cbn [mbind res_bind].
  destruct Hg as (_ & Hlen & _). assert (Hx' := Hx). cbn [fire] in Hx'.
  destruct (sample_spec _ _ _ _ Hx') as (o & Ho & ->). clear Hx'. destruct owner_count_fits as [Hn Hwk].
  assert (Hok := host_tasks _ _ Hh _ _ Ht).
  destruct (measure_spec ct_eq config owner_count Hconfig Hn Hwk (stats (shard o)) t q m' l Hok Hst) as (t' & Hm & Ht' & _).
  { apply shard_stat_fits; [done| |by apply (host_limits _ _ Hh)].
    exact (owner_shard_ok _ _ _ _ _ (sys_owners _ _ _ Hs _ _ Ho)). }
  unfold workers_of. rewrite (host_owners _ _ Hh), Hm. cbn [mbind res_bind].
  assert (forall q m op, at_stage t <> Awaiting q m op) as Hna by (intros; congruence).
  assert (Hfree := not_waiting _ _ _ _ Hh Ht Hna).
  split.
  - cbn [host_offers]. rewrite Z.add_0_r. unfold set_task. cbn [set_engine tally tasks face].
    apply (host_ok_task offers (set_engine h sys) c t' (tally h)); [|done| |].
    + assert (Hal : allowed (face h) (Sample (length l)) = true) by done.
      destruct (work_outstanding hash config _ _ _ _ Hal Hx (sv_waiting _ _ _ (host_server _ _ Hh))) as [_ Hout].
      constructor; cbn [set_engine face tasks server_engine acceptor]; try apply Hh.
      * by eapply work_ok; [apply Hh|..].
      * intros c' Hc'. destruct (Hout c') as [Hin|Hin]; [by apply elem_of_app; right|by apply (host_waits _ _ Hh)|].
        by apply not_elem_of_nil in Hin.
      * rewrite Hlen. apply Hh.
      * eapply fire_keeps_limits; [exact Hx|done|]. apply Hh.
    + intros Hc. exfalso. cbn [set_engine face server_engine] in Hc.
      assert (Hal : allowed (face h) (Sample (length l)) = true) by done.
      destruct (work_outstanding hash config _ _ _ _ Hal Hx (sv_waiting _ _ _ (host_server _ _ Hh))) as [_ Hout].
      destruct (Hout c) as [Hin|Hin]; [by apply elem_of_app; right|done|by apply not_elem_of_nil in Hin].
    + intros _. cbn. apply (host_live _ _ Hh _ _ Ht). intros e. congruence.
  - right. exists (Work (Sample (length l))). split_and!; [by eapply work_projects|done|done|done].
Qed.

Lemma front_good offers h e : host_ok offers h -> offers + offered e <= i64_max ->
  step_good offers h (Front e) (host_step ct_eq config hash h (Front e)).
Proof.
  intros Hh Ho. cbn [host_step].
  assert (may_end (face h) e = true \/
    match e with
    | ConnectionEnds id => match at_stage <$> tasks h !! Z.to_nat id with Some (Over _) => Ok tt | _ => Err tt end
    | _ => Ok tt
    end = Err tt :> res () ()) as [Hend|Hno].
  { destruct e as [| |id|]; try by left. cbn [may_end]. destruct (tasks h !! Z.to_nat id) as [t|] eqn:Ht; cbn; [|by right].
    destruct (at_stage t) as [| | | | | | |en] eqn:Hst; try by right. left. apply bool_decide_eq_true.
    apply (not_waiting _ _ _ _ Hh Ht). intros; congruence. }
  2: { by rewrite Hno. }
  destruct (match e with ConnectionEnds _ => _ | _ => _ end) as [[]|x|] eqn:Hg; [|done|].
  2: { exfalso. destruct e as [| |id|]; try done. destruct (at_stage <$> tasks h !! Z.to_nat id) as [[]|]; done. }
  cbn [mbind res_bind]. assert (Hnp := loop_no_panic config offers (face h) e (host_server _ _ Hh) Ho).
  destruct (accept_step (acceptor (face h)) e) as [a|x|] eqn:Hx; [|done|by destruct Hnp]. cbn [mbind res_bind].
  assert (server_step hash config (face h) (Loop e)
    = Ok (mkServer a (server_engine (face h)) (closing (face h)), [])) as Hstep.
  { cbn [server_step]. by rewrite Hend, Hx. }
  split; [|right; by exists (Loop e)]. destruct Hh as [H1 H2 H3 H4 H5 H6].
  assert (G := server_step_ok hash config Hmax _ _ _ _ _ H1 Hstep).
  constructor; cbn [face tasks server_engine acceptor host_offers]; try done.
  intros c t Ht Hno. specialize (H3 _ _ Ht Hno). destruct e as [| |id|]; cbn [accept_step] in Hx.
  - destruct (outcome _); [done|]. destruct (_ =? 0); [by injection Hx as <-|]. destruct (_ <? _); [done|].
    injection Hx as <-. cbn. apply elem_of_union. by right.
  - destruct (outcome _); [done|]. by injection Hx as <-.
  - destruct (bool_decide _); [|done]. injection Hx as <-. cbn. apply elem_of_difference. split; [done|].
    intros <-%elem_of_singleton. rewrite Nat2Z.id, Ht in Hg. cbn in Hg. destruct (at_stage t) as [| | | | | | |en]; try done.
    by apply (Hno en).
  - destruct (outcome _); [done|]. by injection Hx as <-.
Qed.

Lemma closes_good offers h : host_ok offers h -> step_good offers h Closes (host_step ct_eq config hash h Closes).
Proof.
  intros Hh. cbn [host_step]. destruct (_ && _) eqn:Hg; [|done].
  assert (server_step hash config (face h) BeginShutdown
    = Ok (mkServer (acceptor (face h)) (server_engine (face h)) true, [])) as Hstep.
  { cbn [server_step]. by rewrite Hg. }
  split; [|right; by exists BeginShutdown]. destruct Hh as [H1 H2 H3 H4 H5 H6].
  assert (G := server_step_ok hash config Hmax _ _ _ _ _ H1 Hstep). by constructor.
Qed.

Lemma host_step_good offers w m h e : host_ok offers h -> sys_ok hash w (server_engine (face h)) ->
  sim hash (server_engine (face h)) m -> offers + host_offers e <= i64_max -> w + host_work e <= usize_max ->
  step_good offers h e (host_step ct_eq config hash h e).
Proof.
  intros Hh Hs Hsim Ho Hw. destruct e as [c e|c nodelay|c stopping|a|c|c w0|e|]; cbn [host_offers host_work] in *.
  - by apply net_good.
  - by apply starts_good.
  - by apply polls_good.
  - by eapply acts_good.
  - by eapply measures_good.
  - by apply writes_good.
  - by apply front_good.
  - by apply closes_good.
Qed.
(** ** Runs *)

Definition host_works (events : list host_event) : Z := foldr (fun e n => host_work e + n) 0 events.

Lemma host_work_nonneg e : 0 <= host_work e.
Proof. destruct e; cbn; try lia. apply action_work_nonneg. Qed.

Lemma host_works_nonneg events : 0 <= host_works events.
Proof. induction events as [|e events IH]; cbn; [lia|]. assert (H := host_work_nonneg e). unfold host_works in IH. lia. Qed.

(** What a run of the server with its tasks is to the accept loop and the
    engine. *)
Definition run_projects (h : host) (events : list host_event) (h' : host) (happened : list occurrence) : Prop :=
  exists evs, server_run hash config (face h) evs = Ok (face h', happened) /\
    (forall c, requests_of c (worked evs) = requests_of c (acted events)) /\
    run_work config (worked evs) = host_works events /\ (length evs <= length events)%nat.

Lemma requests_of_app c a b : requests_of c (a ++ b) = requests_of c a ++ requests_of c b.
Proof. unfold requests_of. by rewrite omap_app. Qed.

Lemma run_projects_cons h e h1 happened1 events h2 happened2 :
  projects h e h1 happened1 -> run_projects h1 events h2 happened2 ->
  run_projects h (e :: events) h2 (happened1 ++ happened2).
Proof.
  intros Hp (evs & Hrun & Hreq & Hwork & Hlen). destruct Hp as [(Hf & -> & Ha & Hw & _)|(e' & Hs & Hreq' & Hwork' & _)].
  - exists evs. rewrite <- Hf. split_and!; [done| | |cbn; lia].
    + intros c. change (e :: events) with ([e] ++ events). unfold acted in *. by rewrite omap_app, Ha, Hreq.
    + cbn. unfold host_works in Hwork. lia.
  - exists (e' :: evs). split_and!.
    + cbn [server_run]. rewrite Hs. cbn [mbind res_bind]. by rewrite Hrun.
    + intros c. change (e' :: evs) with ([e'] ++ evs). change (e :: events) with ([e] ++ events).
      unfold worked, acted in *. by rewrite !omap_app, !requests_of_app, Hreq, Hreq'.
    + rewrite worked_cons, Hwork, Hwork'. done.
    + cbn. lia.
Qed.

(** An event leaves a good engine. *)
Lemma host_step_next offers w m h e h' happened : host_ok offers h -> sys_ok hash w (server_engine (face h)) ->
  sim hash (server_engine (face h)) m -> offers + host_offers e <= i64_max -> w + host_work e <= usize_max ->
  host_step ct_eq config hash h e = Ok (h', happened) ->
  host_ok (offers + host_offers e) h' /\ projects h e h' happened /\
  sys_ok hash (w + host_work e) (server_engine (face h')) /\
  exists m', linear m happened m' /\ sim hash (server_engine (face h')) m'.
Proof.
  intros Hh Hs Hsim Ho Hw Hx. assert (G := host_step_good offers w m h e Hh Hs Hsim Ho Hw). rewrite Hx in G.
  destruct G as [Hh1 Hp]. split_and!; [done|done|..];
    (destruct Hp as [(-> & -> & _ & Hw0 & _)|(e' & Hst & _ & Hwk & Hoff)];
      [|assert (G := server_step_good hash config offers w (face h) m e' (host_server _ _ Hh) Hs Hsim
          ltac:(lia) ltac:(lia)); rewrite Hst, Hwk in G; by destruct G as (G1 & _ & G2)]).
  - by rewrite Hw0, Z.add_0_r.
  - exists m. by split; [constructor|].
Qed.

Lemma host_run_good offers w m h events : host_ok offers h -> sys_ok hash w (server_engine (face h)) ->
  sim hash (server_engine (face h)) m -> offers + zlen events <= i64_max -> w + host_works events <= usize_max ->
  match host_run ct_eq config hash h events with
  | Ok (h', happened) => (exists offers' w', host_ok offers' h' /\ sys_ok hash w' (server_engine (face h')) /\
        offers' <= offers + zlen events /\ w' <= w + host_works events) /\
      run_projects h events h' happened /\ exists m', linear m happened m' /\ sim hash (server_engine (face h')) m'
  | Err _ => True
  | Panic => False
  end.
Proof.
  revert offers w m h. induction events as [|e events IH]; intros offers w m h Hh Hs Hsim Ho Hw; cbn [host_run].
  { split_and!; [exists offers, w; cbn; split_and!; (done || lia)|exists []; by split_and!|exists m; by split; [constructor|]]. }
  cbn [length host_works foldr] in Ho, Hw. fold (host_works events) in Hw. assert (Hn := host_works_nonneg events).
  assert (0 <= host_offers e <= 1) by (destruct e as [| | | | | |[]|]; cbn; lia).
  assert (Hg := host_step_good offers w m h e Hh Hs Hsim ltac:(lia) ltac:(lia)).
  destruct (host_step ct_eq config hash h e) as [[h1 happened1]|x|] eqn:Hx; [|done|done]. clear Hg.
  destruct (host_step_next offers w m h e h1 happened1 Hh Hs Hsim ltac:(lia) ltac:(lia) Hx)
    as (Hh1 & Hp & Hs1 & m1 & Hlin1 & Hsim1).
  cbn [mbind res_bind]. assert (G := IH _ _ m1 h1 Hh1 Hs1 Hsim1 ltac:(lia) ltac:(lia)).
  destruct (host_run ct_eq config hash h1 events) as [[h2 happened2]|x|]; [|done|done].
  destruct G as ((offers' & w' & G1 & G2 & G3 & G4) & Hp2 & m2 & Hlin2 & Hsim2). cbn [mbind res_bind].
  split_and!; [|by eapply run_projects_cons|by exists m2; split; [eapply linear_app|]].
  exists offers', w'. split_and!; [done|done|cbn; lia|cbn; fold (host_works events); lia].
Qed.
(** A task can always go on where it does not wait, and its writes end. *)
Lemma task_goes offers h c t stopping w : host_ok offers h -> tasks h !! c = Some t ->
  (can_go_on t -> (stopping = true -> signalled h = true) ->
     exists h', host_step ct_eq config hash h (Polls c stopping) = Ok (h', [])) /\
  (can_write t -> exists h', host_step ct_eq config hash h (Writes c w) = Ok (h', [])).
Proof.
  intros Hh Ht. destruct owner_count_fits as [Hn Hwk]. split.
  - intros Hgo Hstop. cbn [host_step]. rewrite Ht. cbn [mbind res_bind].
    destruct (poll_spec ct_eq config owner_count Hlimits Hn (Z.of_nat (workers_of h)) stopping t (observed h)
      (host_tasks _ _ Hh _ _ Ht) Hgo) as (t' & m' & -> & _).
    assert (stopping && negb (signalled h) = false) as -> by (destruct stopping; [rewrite Hstop|]; done).
    cbn. by eexists.
  - intros Hgo. cbn [host_step]. rewrite Ht. cbn [mbind res_bind].
    destruct (write_spec config w t (observed h) Hgo) as (t' & m' & -> & _). cbn. by eexists.
Qed.

End Keeps.
End TaskRun.

(** The server with its tasks when it starts. *)
Lemma new_host_ok reserve config now sys : config_typed config -> with_clock reserve config now = Ok sys ->
  config_ok config /\ limits_ok (protocol config) /\ 1 <= max_connections config <= 65536 /\
  host_ok config 0 (new_host config sys).
Proof.
  intros Hty Hstart. destruct (server_start_ok _ _ _ _ Hty Hstart) as [Hmax H0].
  assert (validate config = Ok tt) as Hc%(validate_ok config Hty) by (by apply with_clock_start in Hstart as [? _]).
  split_and!; [done|by apply protocol_limits_ok|lia|lia|].
  assert (Hown := start_owners config reserve Hc now sys Hstart). destruct (ok_workers config Hc).
  constructor; cbn [new_host face tasks server_engine acceptor]; try done.
  - intros c Hin%(sv_live _ _ _ H0). cbn in Hin. set_solver.
  - apply Hown.
  - apply Hown.
Qed.
