(* ===== verification/Concurrent.v ===== *)
(** * Many clients at once

    The server as a whole, from the bytes of every client to one table.  What a
    task has done is a [conversation] over the requests framed in the bytes that
    arrived for it: the calls its client made of the engine are the data commands
    in them, and what it sent are the replies of the conversation. *)

From S2P Require Import Prelude Bytes Protocol Decoder DecoderLemmas DecoderTheorems Command CommandTheorems Expiry ExpiryTheorems.
From S2P Require Import Store StoreSpec StoreTheorems Config Engine System SystemSpec SystemConservation SystemRuns SystemSample.
From S2P Require Import SystemEngine Session Server ServerLemmas ServerSample ServerRun ServerDialogue Tasks TaskLemmas TaskRun.

Local Open Scope Z_scope.

Section Concurrent.
Context (ct_eq : bytes -> bytes -> bool) (config : Config).

(** ** Conversations *)

(** Requests executed one after the other from a session: the calls of the engine
    with their replies, the replies, and the session; a request may close it.  A
    data command of an authenticated session calls the engine, and its reply is
    the engine's; any other request is answered by the session, with the metrics
    and the statistics of the moment. *)
Inductive conversation (s0 : Session) :
    list (list bytes) -> list (Operation * Reply) -> list Reply -> Session -> bool -> Prop :=
| conversation_start : conversation s0 [] [] [] s0 false
| conversation_call reqs calls replies s q op reply :
    conversation s0 reqs calls replies s false -> data_call config s (arguments q) = Some op ->
    conversation s0 (reqs ++ [arguments q]) (calls ++ [(op, reply)]) (replies ++ [reply]) s false
| conversation_other reqs calls replies s q p m s' p' reply close :
    conversation s0 reqs calls replies s false -> data_call config s (arguments q) = None ->
    answer_request ct_eq s q (p : Port) config m = Some (s', p', (reply, close)) ->
    conversation s0 (reqs ++ [arguments q]) calls (replies ++ [reply]) s' close.

(** ** What a task has done *)

(** The request it executes, and the call it waits for. *)
Definition current (t : Task) : list (list bytes) :=
  match at_stage t with
  | Calling q _ _ | Awaiting q _ _ | Measuring q _ _ => [arguments q]
  | _ => []
  end.

Definition open_call (t : Task) : list Operation :=
  match at_stage t with Awaiting _ _ op => [op] | _ => [] end.

(** Sent are the replies, encoded and bounded: all of them; or all but the one
    that is being written or could not be; or a framing error after them. *)
Inductive delivered (replies : list Reply) : stage -> list bytes -> Prop :=
| delivered_all st : (forall reply close, st <> Writing reply close) ->
    delivered replies st (told config <$> replies)
| delivered_next sent reply close : replies = sent ++ [reply] ->
    delivered replies (Writing reply close) (told config <$> sent)
| delivered_failed sent reply e : replies = sent ++ [reply] ->
    delivered replies (Over (Failed e)) (told config <$> sent)
| delivered_error message :
    delivered replies (Over Returned)
      ((told config <$> replies) ++ [told config (reply_error ("ERR Protocol error: " +:+ message))]).

(** While the connection is open, the rest of its bytes are those it has not
    decoded, and its session is that of the conversation. *)
Definition attentive (t : Task) (s : Session) (closed : bool) (rest : bytes) : Prop :=
  match at_stage t with
  | Over _ => True
  | LastWrite reply => exists message, reply = reply_error ("ERR Protocol error: " +:+ message)
  | Writing _ close => closed = close /\ session (link t) = s /\ rest = input (link t) ++ carried (backlog t)
  | _ => closed = false /\ session (link t) = s /\ rest = input (link t) ++ carried (backlog t)
  end.

(** The task of a client for which these bytes arrived, which made these calls and
    got these replies. *)
Definition serves_stream (s0 : Session) (arrived : bytes) (calls : list Operation) (answers : list Reply)
    (t : Task) : Prop :=
  exists reqs ws pairs replies s closed rest,
    Forall2 (is_frame (protocol config)) (reqs ++ current t) ws /\ arrived = concat ws ++ rest /\
    conversation s0 reqs pairs replies s closed /\
    calls = pairs.*1 ++ open_call t /\ answers = pairs.*2 /\
    delivered replies (at_stage t) (output t) /\ attentive t s closed rest.

(** ** Every step of a task serves its stream *)

Lemma serves_new id nodelay : serves_stream (new_session id config) [] [] [] (new_task config id nodelay).
Proof.
  assert (forall d st, st = AtHead \/ st = Over (Failed OtherError) ->
    serves_stream (new_session id config) [] [] [] (mkTask (mkConnection (new_session id config) d []) st [] [])) as G.
  { intros d st Hst. exists [], [], [], [], (new_session id config), false, [].
    assert (delivered [] st []) as Hd by (apply (delivered_all []); by destruct Hst; subst).
    by destruct Hst as [->| ->]; split_and!; try done; constructor. }
  unfold new_task, new_connection. destruct nodelay; [|by apply G; right].
  destruct (new_decoder (protocol config)) as [d|e|]; cbn; apply G; auto.
Qed.

Lemma serves_net s0 arrived calls answers t e : serves_stream s0 arrived calls answers t ->
  serves_stream s0 (arrived ++ carried [e]) calls answers
    (mkTask (link t) (at_stage t) (backlog t ++ [e]) (output t)).
Proof.
  intros (reqs & ws & pairs & replies & s & closed & rest & Hf & -> & Hc & Hq & Ha & Hd & Hat).
  exists reqs, ws, pairs, replies, s, closed, (rest ++ carried [e]). rewrite app_assoc.
  split_and!; try done. unfold attentive in *. cbn [at_stage link backlog].
  destruct (at_stage t); try done; destruct Hat as (-> & <- & ->); by rewrite carried_app, app_assoc.
Qed.

(** The replies sent, before and after one more is due. *)
Lemma delivered_open replies st out : delivered replies st out -> (forall r c, st <> Writing r c) ->
  (forall e, st <> Over e) -> out = told config <$> replies.
Proof. intros [st' H|sent r c H|sent r e H|msg] H1 H2; try done; [by destruct (H1 r c)|by destruct (H2 (Failed e))|by destruct (H2 Returned)]. Qed.

Lemma delivered_quiet replies st : (forall r c, st <> Writing r c) -> delivered replies st (told config <$> replies).
Proof. by apply delivered_all. Qed.

Lemma go_on_quiet t : can_go_on t -> current t = [] /\ open_call t = [] /\
  (forall r c, at_stage t <> Writing r c) /\ (forall e, at_stage t <> Over e) /\
  forall s closed rest, attentive t s closed rest ->
    closed = false /\ session (link t) = s /\ rest = input (link t) ++ carried (backlog t).
Proof. unfold current, open_call, attentive. by intros [Hs|Hs]; rewrite Hs. Qed.

Lemma serves_polled s0 arrived calls answers t t' : can_go_on t -> polled ct_eq config t t' ->
  serves_stream s0 arrived calls answers t -> serves_stream s0 arrived calls answers t'.
Proof.
  intros Hgo Hp (reqs & ws & pairs & replies & s & closed & rest & Hf & -> & Hc & Hq & Ha & Hd & Hat).
  destruct (go_on_quiet t Hgo) as (E1 & E2 & E3 & E4 & E5). apply E5 in Hat as (-> & <- & ->).
  rewrite E1 in Hf. rewrite E2 in Hq. apply delivered_open in Hd; [|done..].
  destruct Hp as [Hst|d i Hok Hl|d i events e|d i events msg|q w i events t' t1 Hw Hcat Hs].
  - eexists reqs, ws, pairs, replies, _, false, _. cbn [set_stage at_stage output current open_call attentive].
    split_and!; try done. rewrite Hd. by apply delivered_quiet.
  - eexists reqs, ws, pairs, replies, _, false, _. cbn [at_stage output link current open_call attentive].
    split_and!; try done; [rewrite Hd; by apply delivered_quiet|]. cbn. by rewrite app_nil_r.
  - eexists reqs, ws, pairs, replies, _, false, _. cbn [at_stage output current open_call attentive].
    split_and!; try done. rewrite Hd. by apply delivered_quiet.
  - eexists reqs, ws, pairs, replies, _, false, _. cbn [at_stage output current open_call attentive].
    split_and!; try done; [|by eexists]. rewrite Hd. by apply delivered_quiet.
  - rewrite app_nil_r in Hf. assert (Forall2 (is_frame (protocol config)) (reqs ++ [arguments q]) (ws ++ [w])) as Hf'
      by (apply Forall2_app; [done|by repeat constructor]).
    assert (concat ws ++ w ++ i ++ carried events = concat (ws ++ [w]) ++ i ++ carried events) as Hcc
      by (rewrite concat_app; cbn; by rewrite app_nil_r, <- app_assoc).
    rewrite Hcat, Hcc. destruct Hs as [m op Hcall|m Hcall|s' p p' m reply close Hcall Hans].
    + exists reqs, (ws ++ [w]), pairs, replies, (session (link t)), false, (i ++ carried events).
      split_and!; try done. cbn. rewrite Hd. by apply delivered_quiet.
    + exists reqs, (ws ++ [w]), pairs, replies, (session (link t)), false, (i ++ carried events).
      split_and!; try done. cbn. rewrite Hd. by apply delivered_quiet.
    + exists (reqs ++ [arguments q]), (ws ++ [w]), pairs, (replies ++ [reply]), s', close, (i ++ carried events).
      split_and!; try done; [by rewrite app_nil_r|by eapply conversation_other|].
      cbn. rewrite Hd. by eapply delivered_next.
Qed.

(** It calls the engine, and has the reply. *)
Lemma serves_asked s0 arrived calls answers t q m op : at_stage t = Calling q m op ->
  serves_stream s0 arrived calls answers t ->
  serves_stream s0 arrived (calls ++ [op]) answers (set_stage t (Awaiting q m op)).
Proof.
  intros Hst (reqs & ws & pairs & replies & s & closed & rest & Hf & -> & Hc & -> & Ha & Hd & Hat).
  exists reqs, ws, pairs, replies, s, closed, rest.
  unfold current, open_call, attentive in *. rewrite Hst in *. rewrite app_nil_r. split_and!; try done.
  apply delivered_open in Hd as Hd'; [|done..]. cbn. rewrite Hd'. by apply delivered_quiet.
Qed.

Lemma serves_heard s0 arrived calls answers t q m op reply : at_stage t = Awaiting q m op ->
  data_call config (session (link t)) (arguments q) = Some op ->
  serves_stream s0 arrived calls answers t ->
  serves_stream s0 arrived calls (answers ++ [reply]) (set_stage t (Writing reply false)).
Proof.
  intros Hst Hcall (reqs & ws & pairs & replies & s & closed & rest & Hf & -> & Hc & -> & -> & Hd & Hat).
  unfold current, open_call, attentive in *. rewrite Hst in *. destruct Hat as (-> & <- & ->).
  exists (reqs ++ [arguments q]), ws, (pairs ++ [(op, reply)]), (replies ++ [reply]), (session (link t)), false,
    (input (link t) ++ carried (backlog t)).
  apply delivered_open in Hd as Hd'; [|done..].
  split_and!; try done; [by rewrite app_nil_r|by eapply conversation_call| | |].
  - cbn. by rewrite fmap_app, app_nil_r.
  - by rewrite fmap_app.
  - cbn. rewrite Hd'. by eapply delivered_next.
Qed.

(** It has statistics. *)
Lemma serves_measures s0 arrived calls answers t q m stats t' : at_stage t = Measuring q m stats ->
  data_call config (session (link t)) (arguments q) = None -> measures ct_eq config t q m t' ->
  serves_stream s0 arrived calls answers t -> serves_stream s0 arrived calls answers t'.
Proof.
  intros Hst Hcall Hm (reqs & ws & pairs & replies & s & closed & rest & Hf & -> & Hc & -> & -> & Hd & Hat).
  unfold current, open_call, attentive in *. rewrite Hst in *. destruct Hat as (-> & <- & ->).
  apply delivered_open in Hd as Hd'; [|done..].
  destruct Hm as [stats'|s' p p' reply close Hans].
  - exists reqs, ws, pairs, replies, (session (link t)), false, (input (link t) ++ carried (backlog t)).
    split_and!; try done. cbn. rewrite Hd'. by apply delivered_quiet.
  - exists (reqs ++ [arguments q]), ws, pairs, (replies ++ [reply]), s', close, (input (link t) ++ carried (backlog t)).
    split_and!; try done; [by rewrite app_nil_r|by eapply conversation_other|].
    cbn. rewrite Hd'. by eapply delivered_next.
Qed.

(** Its write ends. *)
Lemma serves_writes s0 arrived calls answers t t' : writes config t t' ->
  serves_stream s0 arrived calls answers t -> serves_stream s0 arrived calls answers t'.
Proof.
  intros Hw (reqs & ws & pairs & replies & s & closed & rest & Hf & -> & Hc & -> & -> & Hd & Hat).
  assert (forall r c, at_stage t = Writing r c -> exists sent, replies = sent ++ [r] /\ output t = told config <$> sent) as Hnext.
  { intros r c Hst. rewrite Hst in Hd. inversion Hd as [st H|sent r' c' H| |]; subst; [by destruct (H r c)|by exists sent]. }
  assert (forall r, at_stage t = LastWrite r -> output t = told config <$> replies) as Hlast.
  { intros r Hst. rewrite Hst in Hd. by apply delivered_open in Hd. }
  unfold current, open_call, attentive in *.
  exists reqs, ws, pairs, replies, s, closed, rest.
  destruct Hw as [r Hst|r Hst|r c e Hst|r Hst|r Hst]; rewrite Hst in *; cbn [set_stage at_stage output link backlog];
    split_and!; try done.
  - destruct (Hnext _ _ eq_refl) as (sent & -> & ->). change [told config r] with (told config <$> [r]).
    rewrite <- fmap_app. by apply delivered_quiet.
  - destruct (Hnext _ _ eq_refl) as (sent & -> & ->). change [told config r] with (told config <$> [r]).
    rewrite <- fmap_app. by apply delivered_quiet.
  - destruct (Hnext _ _ eq_refl) as (sent & -> & ->). by eapply delivered_failed.
  - rewrite (Hlast _ eq_refl). destruct Hat as [message ->]. apply delivered_error.
  - rewrite (Hlast _ eq_refl). by apply delivered_quiet.
Qed.
(** ** All tasks *)

(** The bytes that arrive for a client. *)
Definition arrived_for (c : nat) (events : list host_event) : bytes :=
  carried (omap (fun e => match e with Net c' e => if bool_decide (c' = c) then Some e else None | _ => None end) events).

Lemma arrived_for_app c a b : arrived_for c (a ++ b) = arrived_for c a ++ arrived_for c b.
Proof. unfold arrived_for. by rewrite omap_app, carried_app. Qed.

(** Every task serves the stream of its client; who has no task sends nothing. *)
Definition all_serve (ts : gmap nat Task) (arrived : nat -> bytes) (calls : nat -> list Operation)
    (answers : nat -> list Reply) : Prop :=
  forall c, match ts !! c with
            | Some t => serves_stream (new_session (Z.of_nat c) config) (arrived c) (calls c) (answers c) t
            | None => arrived c = [] /\ calls c = [] /\ answers c = []
            end.

Lemma all_serve_ext ts a1 q1 r1 a2 q2 r2 : all_serve ts a1 q1 r1 ->
  (forall c, a2 c = a1 c /\ q2 c = q1 c /\ r2 c = r1 c) -> all_serve ts a2 q2 r2.
Proof. intros H Heq c. specialize (H c). by destruct (Heq c) as (-> & -> & ->). Qed.

Lemma all_serve_insert ts c t a1 q1 r1 a2 q2 r2 : all_serve ts a1 q1 r1 ->
  serves_stream (new_session (Z.of_nat c) config) (a2 c) (q2 c) (r2 c) t ->
  (forall c', c <> c' -> a2 c' = a1 c' /\ q2 c' = q1 c' /\ r2 c' = r1 c') -> all_serve (<[c := t]> ts) a2 q2 r2.
Proof.
  intros H Ht Heq c'. destruct (decide (c = c')) as [<-|Hne]; [by rewrite lookup_insert_eq|].
  rewrite lookup_insert_ne by done. specialize (H c'). by destruct (Heq c' Hne) as (-> & -> & ->).
Qed.

Context (hash : bytes -> Z).

(** What is told is delivered once. *)
Lemma replies_delivered sys a sys' happened c : fire hash config sys a = Ok (sys', happened) ->
  replies_to c happened = match (list_to_map (heard happened) : gmap nat Reply) !! c with
                          | Some reply => [reply]
                          | None => []
                          end.
Proof.
  assert (forall c' r, (if bool_decide (c' = c) then [r] else [] : list Reply)
    = match (<[c' := r]> ∅ : gmap nat Reply) !! c with Some reply => [reply] | None => [] end) as H1.
  { intros c' r. case_bool_decide as E; [subst; by rewrite lookup_insert_eq|by rewrite lookup_insert_ne]. }
  assert (forall c' r, replies_to c [Answered c' r] = (if bool_decide (c' = c) then [r] else [])) as H2.
  { intros c' r. unfold replies_to. cbn. by case_bool_decide. }
  intros [c' op _ _|c' op r _ _ _|c' op _ _|c' op r _ _ _|h _ _ []]%fire_admission; try done;
    (etrans; [|apply H1]); apply (H2 _ _).
Qed.

(** The tasks of those who ask, and of those who hear. *)
Lemma ask_serves h a h1 ar q r : ask h a = Ok h1 -> all_serve (tasks h) ar q r ->
  all_serve (tasks h1) ar (fun c => q c ++ requests_of c [a]) r.
Proof.
  intros Ha H. destruct (ask_spec _ _ _ Ha) as (_ & _ & Hb). unfold requests_of. cbn [omap list_omap].
  destruct (asks a) as [[c op]|]; cbn [mbind option_bind].
  - destruct Hb as (t & q0 & m & Ht & Hst & ->). cbn [set_task tasks].
    apply (all_serve_insert _ _ _ _ _ _ _ _ _ H).
    + rewrite bool_decide_eq_true_2 by done. apply serves_asked; [done|]. specialize (H c). by rewrite Ht in H.
    + intros c' Hne. by rewrite bool_decide_eq_false_2, app_nil_r.
  - subst h1. apply (all_serve_ext _ _ _ _ _ _ _ H). intros c. by rewrite app_nil_r.
Qed.

Context (Hconfig : config_ok config) (Hlimits : limits_ok (protocol config)).
Context (Hmax : 1 <= max_connections config <= 65536).

Lemma acts_serve offers w m h a h' happened ar q r : host_ok config offers h ->
  sys_ok hash w (server_engine (face h)) -> sim hash (server_engine (face h)) m ->
  w + SystemLocal.action_work config a <= usize_max ->
  host_step ct_eq config hash h (Acts a) = Ok (h', happened) -> all_serve (tasks h) ar q r ->
  all_serve (tasks h') ar (fun c => q c ++ requests_of c [a]) (fun c => r c ++ replies_to c happened).
Proof.
  intros Hh Hs Hsim Hw Hx H. cbn [host_step] in Hx. apply bind_Ok in Hx as (h1 & Ha & Hx).
  assert (H1 := ask_serves _ _ _ _ _ _ Ha H). destruct (ask_spec _ _ _ Ha) as (Hf & _ & Hb). rewrite Hf in Hx.
  apply bind_Ok in Hx as ([sys hist] & Hfire & Hx). apply bind_Ok in Hx as (ts & Hd & [= <- <-]). cbn [tasks].
  assert (Hal := ask_allowed _ _ _ _ _ Hh Ha).
  destruct (work_outstanding hash config _ _ _ _ Hal Hfire (sv_waiting _ _ _ (host_server _ _ _ Hh))) as [Hnd _].
  assert (forall c t, tasks h1 !! c = Some t -> task_ok config (owner_count config) t) as Hok.
  { intros c t Ht. destruct (asks a) as [[c' op]|]; [|subst h1; by eapply host_tasks].
    destruct Hb as (t0 & q0 & m' & Ht0 & Hst & ->). cbn [set_task tasks] in Ht.
    apply lookup_insert_Some in Ht as [[<- <-]|[_ Ht]]; [|by eapply host_tasks].
    assert (Ht1 := host_tasks _ _ _ Hh _ _ Ht0). unfold task_ok in *. by rewrite Hst in Ht1. }
  destruct (deliver_spec ct_eq config (Z.of_nat (workers_of h1)) (heard hist) (tasks h1)) as (ts' & Hd' & Hts).
  { by apply NoDup_app in Hnd as (? & _ & _). }
  { done. }
  rewrite Hd' in Hd. injection Hd as ->. intros c. rewrite Hts. specialize (H1 c). rewrite (replies_delivered _ _ _ _ c Hfire).
  assert (Haw := asked_awaits config hash _ _ _ _ _ _ c Hh Ha Hfire).
  destruct (list_to_map (heard hist) !! c) as [reply|] eqn:Hc.
  - destruct Haw as (t & q0 & m' & op & Ht & Hst).
    { apply elem_of_list_to_map_2 in Hc. apply elem_of_app. left. apply list_elem_of_fmap. by exists (c, reply). }
    rewrite Ht in *. cbn [fmap option_fmap option_map]. unfold heard_by. rewrite Hst.
    assert (Hok1 := Hok _ _ Ht). unfold task_ok in Hok1. rewrite Hst in Hok1. destruct Hok1 as [_ Hcall].
    by eapply serves_heard.
  - rewrite app_nil_r. by destruct (tasks h1 !! c).
Qed.

Lemma step_serves offers w m h e h' happened ar q r : host_ok config offers h ->
  sys_ok hash w (server_engine (face h)) -> sim hash (server_engine (face h)) m ->
  w + host_work config e <= usize_max ->
  host_step ct_eq config hash h e = Ok (h', happened) -> all_serve (tasks h) ar q r ->
  all_serve (tasks h') (fun c => ar c ++ arrived_for c [e]) (fun c => q c ++ requests_of c (acted [e]))
    (fun c => r c ++ replies_to c happened).
Proof.
  intros Hh Hs Hsim Hw Hx H. destruct (owner_count_fits config Hconfig) as [Hn Hwk].
  assert (forall c t t', tasks h !! c = Some t ->
    (serves_stream (new_session (Z.of_nat c) config) (ar c) (q c) (r c) t ->
     serves_stream (new_session (Z.of_nat c) config) (ar c) (q c) (r c) t') ->
    all_serve (<[c := t']> (tasks h)) ar q r) as Hone.
  { intros c t t' Ht Himp. eapply all_serve_insert; [exact H| |done]. apply Himp. specialize (H c). by rewrite Ht in H. }
  assert (forall ts, all_serve ts ar q r ->
    all_serve ts (fun c => ar c ++ []) (fun c => q c ++ []) (fun c => r c ++ [])) as Hidle.
  { intros ts G. apply (all_serve_ext _ _ _ _ _ _ _ G). intros c. by rewrite !app_nil_r. }
  destruct e as [c e|c nodelay|c stopping|a|c|c w0|e|].
  - cbn [host_step] in Hx. destruct (tasks h !! c) as [t|] eqn:Ht; [|done]. cbn [mbind res_bind] in Hx.
    assert (h' = set_task h c (mkTask (link t) (at_stage t) (backlog t ++ [e]) (output t)) /\ happened = []) as [-> ->].
    { destruct e; try (by injection Hx as <- <-). destruct (signalled h); [|done]. by injection Hx as <- <-. }
    cbn [set_task tasks]. eapply all_serve_insert; [exact H| |].
    + cbn. rewrite bool_decide_eq_true_2, !app_nil_r by done. apply serves_net. specialize (H c). by rewrite Ht in H.
    + intros c' Hne. cbn. by rewrite bool_decide_eq_false_2, !app_nil_r.
  - cbn [host_step] in Hx. destruct (_ && _) eqn:Hg; [|done]. injection Hx as <- <-.
    apply andb_true_iff in Hg as [_ Ht%bool_decide_eq_true]. apply Hidle.
    apply (all_serve_insert _ _ _ _ _ _ _ _ _ H); [|done]. specialize (H c). rewrite Ht in H.
    destruct H as (-> & -> & ->). apply serves_new.
  - cbn [host_step] in Hx. destruct (tasks h !! c) as [t|] eqn:Ht; [|done]. cbn [mbind res_bind] in Hx.
    destruct (_ && _); [done|]. destruct (can_go_on_dec ct_eq config t) as [Hgo|E]; [|by rewrite E in Hx].
    destruct (poll_spec ct_eq config (owner_count config) Hlimits Hn (Z.of_nat (workers_of h)) stopping t (observed h)
      (host_tasks _ _ _ Hh _ _ Ht) Hgo) as (t' & m' & E & Hp).
    rewrite E in Hx. injection Hx as <- <-. apply Hidle. eapply Hone; [exact Ht|]. by apply serves_polled.
  - change (acted [Acts a]) with [a]. eapply all_serve_ext; [by eapply acts_serve|]. intros c. by rewrite app_nil_r.
  - cbn [host_step] in Hx. destruct (tasks h !! c) as [t|] eqn:Ht; [|done]. cbn [mbind res_bind] in Hx.
    destruct (at_stage t) as [| | | |q0 m' l| | |] eqn:Hst; try done.
    apply bind_Ok in Hx as ([sys hist] & Hfire & Hx). cbn [fire] in Hfire.
    destruct (sample_spec _ _ _ _ Hfire) as (o & Ho & ->). assert (Hok := host_tasks _ _ _ Hh _ _ Ht).
    unfold workers_of in Hx. rewrite (host_owners _ _ _ Hh) in Hx.
    destruct (measure_spec ct_eq config (owner_count config) Hconfig Hn Hwk (stats (shard o)) t q0 m' l Hok Hst)
      as (t' & Hm & _ & Hms).
    { apply shard_stat_fits; [done| |by apply (host_limits _ _ _ Hh)].
      exact (owner_shard_ok _ _ _ _ _ (sys_owners _ _ _ Hs _ _ Ho)). }
    rewrite Hm in Hx. injection Hx as <- <-. apply Hidle. eapply Hone; [exact Ht|].
    unfold task_ok in Hok. rewrite Hst in Hok. destruct Hok as (_ & Hcall & _). by eapply serves_measures.
  - cbn [host_step] in Hx. destruct (tasks h !! c) as [t|] eqn:Ht; [|done]. cbn [mbind res_bind] in Hx.
    destruct (can_write_dec config t) as [Hgo|E]; [|by rewrite E in Hx].
    destruct (write_spec config w0 t (observed h) Hgo) as (t' & m' & E & Hp).
    rewrite E in Hx. injection Hx as <- <-. apply Hidle. eapply Hone; [exact Ht|]. by apply serves_writes.
  - cbn [host_step] in Hx. apply bind_Ok in Hx as ([] & _ & Hx). apply bind_Ok in Hx as (a & _ & [= <- <-]). by apply Hidle.
  - cbn [host_step] in Hx. destruct (_ && _); [|done]. injection Hx as <- <-. by apply Hidle.
Qed.
End Concurrent.

(** Every task has served its stream so far, in every run. *)
Lemma run_serves ct_eq config hash offers w m h events h' happened ar q r :
  config_ok config -> limits_ok (protocol config) -> 1 <= max_connections config <= 65536 ->
  host_ok config offers h -> sys_ok hash w (server_engine (face h)) -> sim hash (server_engine (face h)) m ->
  offers + zlen events <= i64_max -> w + host_works config events <= usize_max ->
  host_run ct_eq config hash h events = Ok (h', happened) -> all_serve ct_eq config (tasks h) ar q r ->
  all_serve ct_eq config (tasks h') (fun c => ar c ++ arrived_for c events)
    (fun c => q c ++ requests_of c (acted events)) (fun c => r c ++ replies_to c happened).
Proof.
  intros Hc Hl Hmax. revert offers w m h h' happened ar q r.
  induction events as [|e events IH]; intros offers w m h h' happened ar q r Hh Hs Hsim Ho Hw Hx H; cbn [host_run] in Hx.
  { injection Hx as <- <-. apply (all_serve_ext _ _ _ _ _ _ _ _ _ H). intros c. by rewrite !app_nil_r. }
  apply bind_Ok in Hx as ([h1 happened1] & H1 & Hx). apply bind_Ok in Hx as ([h2 happened2] & H2 & [= <- <-]).
  change (host_works config (e :: events)) with (host_work config e + host_works config events) in Hw.
  cbn [length] in Ho. assert (Hn := host_works_nonneg config events). assert (0 <= host_offers e <= 1) by (destruct e as [| | | | | |[]|]; cbn; lia).
  destruct (host_step_next ct_eq config hash Hc Hl Hmax offers w m h e h1 happened1 Hh Hs Hsim ltac:(lia) ltac:(lia) H1)
    as (Hh1 & _ & Hs1 & m1 & _ & Hsim1).
  assert (G := step_serves ct_eq config hash Hc Hl offers w m h e h1 happened1 ar q r Hh Hs Hsim ltac:(lia) H1 H).
  assert (G2 := IH (offers + host_offers e) (w + host_work config e) m1 h1 h2 happened2 _ _ _ Hh1 Hs1 Hsim1 ltac:(lia) ltac:(lia) H2 G).
  apply (all_serve_ext _ _ _ _ _ _ _ _ _ G2). intros c. change (e :: events) with ([e] ++ events).
  unfold acted, replies_to. rewrite arrived_for_app, !omap_app, requests_of_app, !app_assoc. done.
Qed.

(** C2: End to end with many clients: whatever arrives for the clients of a freshly
    started server, in whatever chunks, and however its tasks interleave with
    owners, coordinator, clock, accept loop and shutdown, nothing panics, and the
    commands of all connections take effect one at a time on one table that starts
    empty.  The requests a connection has executed are those framed at the head of
    the bytes that arrived for it, in order, and while it is open it still has the
    bytes that follow: the calls it made of the engine are the data commands among them -
    each had its reply before the next -, and what it sent is the encoded replies
    of its conversation, those of the engine being each the reply of the one
    effect its command had after it was accepted, or a refusal. *)
Theorem concurrent_end_to_end ct_eq hash reserve config now sys events :
  config_typed config -> with_clock reserve config now = Ok sys ->
  host_works config events <= usize_max -> zlen events <= i64_max ->
  match host_run ct_eq config hash (new_host config sys) events with
  | Ok (h, happened) =>
      (exists m, linear ∅ happened m /\ sim hash (server_engine (face h)) m) /\
      forall c t, tasks h !! c = Some t ->
        let calls := requests_of c (acted events) in
        let answers := replies_to c happened in
        serves_stream ct_eq config (new_session (Z.of_nat c) config) (arrived_for c events) calls answers t /\
        dialogue c (server_engine (face h)) calls answers (seen_by c happened)
  | Err _ => True
  | Panic => False
  end.
Proof.
  intros Hty Hstart Hw Ho. destruct (new_host_ok _ _ _ _ Hty Hstart) as (Hc & Hl & Hmax & Hh).
  destruct (with_clock_good hash _ _ _ _ Hty Hstart) as (Hs & Hsim & _).
  assert (G := host_run_good ct_eq config hash Hc Hl Hmax 0 0 ∅ (new_host config sys) events Hh Hs Hsim
    ltac:(lia) ltac:(lia)).
  destruct (host_run _ _ _ _ events) as [[h happened]|e|] eqn:Hx; [|done|done].
  destruct G as (_ & (evs & Hrun & Hreq & _ & _) & m & Hlin & Hsim'). split; [by exists m|]. intros c t Ht calls answers.
  assert (G := run_serves ct_eq config hash 0 0 ∅ (new_host config sys) events h happened (fun _ => []) (fun _ => [])
    (fun _ => []) Hc Hl Hmax Hh Hs Hsim ltac:(lia) ltac:(lia) Hx).
  split.
  - assert (all_serve ct_eq config (tasks h) (fun c => arrived_for c events) (fun c => requests_of c (acted events))
      (fun c => replies_to c happened)) as Hall by (apply G; by intros c').
    specialize (Hall c). by rewrite Ht in Hall.
  - unfold calls. rewrite <- Hreq.
    exact (dialogue_run hash config Hmax _ _ _ _ _ c _ _ _ (host_server _ _ _ Hh) Hrun (dialogue_start _ _ _ _ c Hstart)).
Qed.

(** A visit of two clients: a write over both owners; and, in odd chunks, a [PING]
    and a read that waits behind the write; they are asked to go meanwhile. *)
Definition sample_stream : bytes := frame [bs "PING"] ++ frame [bs "MGET"; bs "b"].

Definition sample_tasks : list host_event :=
  [Front Accepts; Front Accepts; Starts 1 true; Starts 2 true;
   Net 1 (Received (frame [bs "MSET"; bs "a"; bs "1"; bs "b"; bs "2"])); Net 2 (Received (take 9 sample_stream));
   Polls 1 false; Polls 2 false; Acts (Submit 1 (MultiSet [(bs "a", bs "1"); (bs "b", bs "2")]));
   Net 2 (Received (drop 9 sample_stream)); Polls 2 false; Writes 2 Written; Polls 2 false;
   Acts (Submit 2 (MultiGet [bs "b"])); Acts (Enqueue 1); Front ShutdownRequested; Acts (Enqueue 0)]
  ++ (Acts <$> replicate 13 (Coordinate granted)) ++
  [Writes 1 Written; Polls 1 true; Front (ConnectionEnds 1); Acts (Act 0 DataTurn granted); Writes 2 Written;
   Polls 2 true; Front (ConnectionEnds 2); Closes;
   Acts StopCoordinator; Acts (StopOwner 0); Acts (Act 1 DataTurn granted); Acts (StopOwner 1)].

Definition sample_host : host * list occurrence :=
  value (new_host sample_config sample_start, [])
    (host_run same_bytes sample_config sample_hash (new_host sample_config sample_start) sample_tasks).

Lemma concurrent_end_to_end_witness :
  (output <$> tasks sample_host.1 !! 2%nat)
    = Some [bs "+PONG" ++ CRLF; bs "*1" ++ CRLF ++ bs "$1" ++ CRLF ++ bs "2" ++ CRLF] /\
  requests_of 2 (acted sample_tasks) = [MultiGet [bs "b"]] /\
  forall t, tasks sample_host.1 !! 2%nat = Some t ->
    serves_stream same_bytes sample_config (new_session 2 sample_config) sample_stream [MultiGet [bs "b"]]
      [Array [Bulk (Some (bs "2"))]] t.
Proof.
  assert (Hq : requests_of 2 (acted sample_tasks) = [MultiGet [bs "b"]]) by (vm_compute; reflexivity).
  assert (Hr : replies_to 2 sample_host.2 = [Array [Bulk (Some (bs "2"))]]) by (vm_compute; reflexivity).
  assert (Ha : arrived_for 2 sample_tasks = sample_stream) by (vm_compute; reflexivity).
  split; [vm_compute; reflexivity|]. split; [exact Hq|]. intros t Ht.
  assert (Hx : host_run same_bytes sample_config sample_hash (new_host sample_config sample_start) sample_tasks
    = Ok sample_host) by (apply value_Ok; vm_compute; reflexivity).
  assert (G := concurrent_end_to_end same_bytes sample_hash granted sample_config 0 sample_start sample_tasks
    sample_typed sample_started ltac:(vm_compute; discriminate) ltac:(vm_compute; discriminate)).
  rewrite Hx in G. destruct sample_host as [h happened]. destruct G as [_ G].
  destruct (G 2%nat t Ht) as [Hs _]. cbn [snd] in Hr. rewrite Hq, Hr, Ha in Hs. exact Hs.
Defined.
