(* ===== verification/Settings.v ===== *)
(** * Settings ([recall-server/src/settings.rs])

    The command line, the process environment and an environment file, and the
    configuration they make together.  What the operating system answers is
    data: the environment, and what opening a path yields. *)

From S2P Require Import Prelude Bytes Text Net Config.

Local Open Scope Z_scope.

Definition MAX_ENV_BYTES : Z := 16 * 1024.
Definition MAX_ENV_LINE_BYTES : Z := 2048.

Definition RECALL_BIND : str := st "RECALL_BIND".
Definition RECALL_WORKERS : str := st "RECALL_WORKERS".
Definition RECALL_IO_THREADS : str := st "RECALL_IO_THREADS".
Definition RECALL_MAX_MEMORY_MIB : str := st "RECALL_MAX_MEMORY_MIB".
Definition RECALL_KEYS_PER_WORKER : str := st "RECALL_KEYS_PER_WORKER".
Definition RECALL_MAX_CONNECTIONS : str := st "RECALL_MAX_CONNECTIONS".
Definition RECALL_QUEUE_BYTES_MIB : str := st "RECALL_QUEUE_BYTES_MIB".
Definition RECALL_PASSWORD : str := st "RECALL_PASSWORD".

Definition ENV_NAMES : list str :=
  [RECALL_BIND; RECALL_WORKERS; RECALL_IO_THREADS; RECALL_MAX_MEMORY_MIB; RECALL_KEYS_PER_WORKER;
   RECALL_MAX_CONNECTIONS; RECALL_QUEUE_BYTES_MIB; RECALL_PASSWORD].

(** A [BTreeMap]: a map that iterates in the order of its keys. *)
Definition Values : Type := gmap str str.
#[export] Typeclasses Transparent Values.

Fixpoint str_leb (a b : str) : bool :=
  match a, b with
  | [], _ => true
  | _ :: _, [] => false
  | x :: a, y :: b => (x <? y) || ((x =? y) && str_leb a b)
  end.

Definition key_le (a b : str * str) : Prop := str_leb a.1 b.1 = true.

#[export] Instance key_le_dec : RelDecision key_le.
Proof. intros a b. unfold key_le. apply _. Defined.

Definition in_key_order (m : Values) : list (str * str) := merge_sort key_le (map_to_list m).

Record Options := mkOptions {
  env_file : option str;
  explicit_file : bool;
  values : Values;
}.

(** ** The command line *)

Definition option_name (opt : str) : option str :=
  if bool_decide (opt = st "--bind") then Some RECALL_BIND
  else if bool_decide (opt = st "--workers") then Some RECALL_WORKERS
  else if bool_decide (opt = st "--io-threads") then Some RECALL_IO_THREADS
  else if bool_decide (opt = st "--max-memory-mib") then Some RECALL_MAX_MEMORY_MIB
  else if bool_decide (opt = st "--keys-per-worker") then Some RECALL_KEYS_PER_WORKER
  else if bool_decide (opt = st "--max-connections") then Some RECALL_MAX_CONNECTIONS
  else if bool_decide (opt = st "--queue-bytes-mib") then Some RECALL_QUEUE_BYTES_MIB
  else None.

(** The loop of [parse_options], [seen] being [file_option_seen]. *)
Fixpoint parse_options_loop (options : Options) (seen : bool) (arguments : list str) : res str Options :=
  match arguments with
  | [] => Ok options
  | opt :: arguments =>
      if bool_decide (opt = st "--no-env-file") then
        if seen then Err (st "choose only one environment-file option")
        else parse_options_loop (mkOptions None (explicit_file options) (values options)) true arguments
      else if bool_decide (opt = st "--env-file") then
        if seen then Err (st "choose only one environment-file option")
        else
          match arguments with
          | [] => Err (st "--env-file requires a path")
          | path :: arguments =>
              if bool_decide (path = []) then Err (st "--env-file requires a nonempty path")
              else parse_options_loop (mkOptions (Some path) true (values options)) true arguments
          end
      else
        match option_name opt with
        | None => Err (st "unknown option; use --help")
        | Some name =>
            match arguments with
            | [] => Err (st "missing value for " ++ opt)
            | value :: arguments =>
                match values options !! name with
                | Some _ => Err (st "duplicate option " ++ opt)
                | None =>
                    parse_options_loop
                      (mkOptions (env_file options) (explicit_file options) (<[name := value]> (values options)))
                      seen arguments
                end
            end
        end
  end.

Definition parse_options (arguments : list str) : res str Options :=
  parse_options_loop (mkOptions (Some (st ".env")) false ∅) false arguments.

(** ** The environment file *)

Definition validate_name (key : str) : res str () :=
  if bool_decide (key ∈ ENV_NAMES) then Ok tt else Err (st "unknown Recall environment setting").

(** [invalid], at the line numbered [n]. *)
Definition invalid_line (n : Z) : str := st "invalid environment assignment at line " ++ str_dec n.
Definition duplicate_line (n : Z) : str := st "duplicate environment assignment at line " ++ str_dec n.

(** A value, between two equal quotes or bare. *)
Definition unquote (raw_value : str) : option str :=
  match raw_value with
  | quote :: rest =>
      if (quote =? 39) || (quote =? 34) then
        if (str_len raw_value <? 2) || negb (bool_decide (last raw_value = Some quote)) then None
        else Some (take (length rest - 1) rest)
      else Some raw_value
  | [] => Some []
  end.

(** One line: nothing, or a key and its value. *)
Definition parse_line (n : Z) (line : str) : res str (option (str * str)) :=
  if (MAX_ENV_LINE_BYTES <? str_len line) || bool_decide (0 ∈ line) then Err (invalid_line n)
  else
    let line := trim line in
    if bool_decide (line = []) || starts_with 35 line then Ok None
    else
      '(key, raw_value) ← ok_or (invalid_line n) (split_once 61 line);
      let key := trim key in
      _ ← map_err (fun _ => invalid_line n) (validate_name key);
      value ← ok_or (invalid_line n) (unquote (trim raw_value));
      Ok (Some (key, value)).

Fixpoint parse_lines (n : Z) (ls : list str) (values : Values) : res str Values :=
  match ls with
  | [] => Ok values
  | line :: ls =>
      assignment ← parse_line n line;
      match assignment with
      | None => parse_lines (n + 1) ls values
      | Some (key, value) =>
          match values !! key with
          | Some _ => Err (duplicate_line n)
          | None => parse_lines (n + 1) ls (<[key := value]> values)
          end
      end
  end.

(** A text may start with a byte order mark. *)
Definition parse_values (text : str) : res str Values :=
  parse_lines 1 (lines (trim_start (Z.eqb 65279) text)) ∅.

(** [read_values] of a reader with these contents, [None] when reading fails. *)
Definition read_values (reader : option bytes) : res str Values :=
  input ← ok_or (st "cannot read environment file") (take (Z.to_nat (MAX_ENV_BYTES + 1)) <$> reader);
  if MAX_ENV_BYTES <? zlen input then Err (st "environment file exceeds 16 KiB")
  else
    text ← ok_or (st "environment file must be UTF-8") (from_utf8 input);
    parse_values text.

(** ** The configuration *)

Definition number (key value : str) : res str Z :=
  if bool_decide (value = []) || negb (forallb is_digit value)
  then Err (key ++ st " requires a nonnegative decimal integer")
  else ok_or (key ++ st " is out of range") (parse_usize 0 value).

Definition mib (key value : str) : res str Z :=
  n ← number key value; ok_or (key ++ st " is out of range") (checked_usize (n * (1024 * 1024))).

Definition set_bind (c : Config) (a : SocketAddr) : Config :=
  mkConfig a (workers c) (io_threads c) (max_connections c) (queue_capacity c) (queue_bytes c)
    (admission_timeout c) (read_timeout c) (write_timeout c) (expiry_interval c) (expiry_batch c)
    (config_payload_bytes c) (keys_per_worker c) (config_reply_bytes c) (protocol c) (commands c) (password c).

Definition set_workers (c : Config) (n : Z) : Config :=
  mkConfig (bind c) n (io_threads c) (max_connections c) (queue_capacity c) (queue_bytes c)
    (admission_timeout c) (read_timeout c) (write_timeout c) (expiry_interval c) (expiry_batch c)
    (config_payload_bytes c) (keys_per_worker c) (config_reply_bytes c) (protocol c) (commands c) (password c).

Definition set_io_threads (c : Config) (n : Z) : Config :=
  mkConfig (bind c) (workers c) n (max_connections c) (queue_capacity c) (queue_bytes c)
    (admission_timeout c) (read_timeout c) (write_timeout c) (expiry_interval c) (expiry_batch c)
    (config_payload_bytes c) (keys_per_worker c) (config_reply_bytes c) (protocol c) (commands c) (password c).

Definition set_payload_bytes (c : Config) (n : Z) : Config :=
  mkConfig (bind c) (workers c) (io_threads c) (max_connections c) (queue_capacity c) (queue_bytes c)
    (admission_timeout c) (read_timeout c) (write_timeout c) (expiry_interval c) (expiry_batch c)
    n (keys_per_worker c) (config_reply_bytes c) (protocol c) (commands c) (password c).

Definition set_keys_per_worker (c : Config) (n : Z) : Config :=
  mkConfig (bind c) (workers c) (io_threads c) (max_connections c) (queue_capacity c) (queue_bytes c)
    (admission_timeout c) (read_timeout c) (write_timeout c) (expiry_interval c) (expiry_batch c)
    (config_payload_bytes c) n (config_reply_bytes c) (protocol c) (commands c) (password c).

Definition set_max_connections (c : Config) (n : Z) : Config :=
  mkConfig (bind c) (workers c) (io_threads c) n (queue_capacity c) (queue_bytes c)
    (admission_timeout c) (read_timeout c) (write_timeout c) (expiry_interval c) (expiry_batch c)
    (config_payload_bytes c) (keys_per_worker c) (config_reply_bytes c) (protocol c) (commands c) (password c).

Definition set_queue_bytes (c : Config) (n : Z) : Config :=
  mkConfig (bind c) (workers c) (io_threads c) (max_connections c) (queue_capacity c) n
    (admission_timeout c) (read_timeout c) (write_timeout c) (expiry_interval c) (expiry_batch c)
    (config_payload_bytes c) (keys_per_worker c) (config_reply_bytes c) (protocol c) (commands c) (password c).

Definition set_password (c : Config) (p : bytes) : Config :=
  mkConfig (bind c) (workers c) (io_threads c) (max_connections c) (queue_capacity c) (queue_bytes c)
    (admission_timeout c) (read_timeout c) (write_timeout c) (expiry_interval c) (expiry_batch c)
    (config_payload_bytes c) (keys_per_worker c) (config_reply_bytes c) (protocol c) (commands c) (Some p).

(** One iteration of the loop of [from_sources]. *)
Definition apply_setting (config : Config) (key value : str) : res str Config :=
  if bool_decide (key = RECALL_BIND) then
    set_bind config <$> ok_or (st "RECALL_BIND requires an IP:port") (parse_socket_addr value)
  else if bool_decide (key = RECALL_WORKERS) then set_workers config <$> number key value
  else if bool_decide (key = RECALL_IO_THREADS) then set_io_threads config <$> number key value
  else if bool_decide (key = RECALL_MAX_MEMORY_MIB) then set_payload_bytes config <$> mib key value
  else if bool_decide (key = RECALL_KEYS_PER_WORKER) then set_keys_per_worker config <$> number key value
  else if bool_decide (key = RECALL_MAX_CONNECTIONS) then set_max_connections config <$> number key value
  else if bool_decide (key = RECALL_QUEUE_BYTES_MIB) then set_queue_bytes config <$> mib key value
  else if bool_decide (key = RECALL_PASSWORD) then Ok (set_password config (as_bytes value))
  else Err (st "unknown Recall environment setting").

Fixpoint apply_settings (config : Config) (l : list (str * str)) : res str Config :=
  match l with
  | [] => Ok config
  | (key, value) :: l => config ← apply_setting config key value; apply_settings config l
  end.

(** [Values::extend]: the later source wins. *)
Definition extend (m m' : Values) : Values := m' ∪ m.

(** [from_sources], on a machine with this parallelism. *)
Definition from_sources (cpus : option Z) (file process arguments : Values) : res str Config :=
  config ← apply_settings (default_config cpus) (in_key_order (extend (extend file process) arguments));
  _ ← map_err st (validate config);
  Ok config.

(** ** Loading *)

(** What opening a path yields, and what the opened file answers. *)
Inductive opened :=
| NotFound
| OpenFailed (kind : str)
| Opened (is_file : option bool) (reader : option bytes).

Definition is_recall (key : str) : bool := bool_decide (take 7 key = st "RECALL_").

(** The loop over the process environment, [std::env::vars_os]. *)
Fixpoint read_environment (environment : list (bytes * bytes)) (process : Values) : res str Values :=
  match environment with
  | [] => Ok process
  | (key, value) :: environment =>
      match from_utf8 key with
      | Some key =>
          if is_recall key then
            _ ← validate_name key;
            value ← ok_or (key ++ st " must be valid UTF-8") (from_utf8 value);
            if MAX_ENV_LINE_BYTES <? str_len value
            then Err (key ++ st " exceeds the configuration value limit")
            else read_environment environment (<[key := value]> process)
          else read_environment environment process
      | None => read_environment environment process
      end
  end.

Definition load_file (open : str -> opened) (options : Options) : res str Values :=
  match env_file options with
  | None => Ok ∅
  | Some path =>
      match open path with
      | Opened is_file reader =>
          is_file ← ok_or (st "cannot inspect environment file") is_file;
          if negb is_file then Err (st "environment path must be a regular file") else read_values reader
      | NotFound =>
          if negb (explicit_file options) then Ok ∅
          else Err (st "cannot read environment file: " ++ st "entity not found")
      | OpenFailed kind => Err (st "cannot read environment file: " ++ kind)
      end
  end.

Definition load (cpus : option Z) (environment : list (bytes * bytes)) (open : str -> opened)
    (arguments : list str) : res str Config :=
  options ← parse_options arguments;
  process ← read_environment environment ∅;
  file ← load_file open options;
  from_sources cpus file process (values options).

(** ** The process ([recall-server/src/main.rs]) *)

(** What [main] does with its arguments and settings. *)
Inductive startup :=
| ShowUsage
| ShowVersion
| ConfigurationError (message : str)
| StartServer (config : Config).

Definition startup_of (cpus : option Z) (environment : list (bytes * bytes)) (open : str -> opened)
    (arguments : list str) : res () startup :=
  let configured :=
    match load cpus environment open arguments with
    | Ok config =>
        match validate config with
        | Ok _ => Ok (StartServer config)
        | Err message => Ok (ConfigurationError (st message))
        | Panic => Panic
        end
    | Err message => Ok (ConfigurationError message)
    | Panic => Panic
    end in
  match arguments with
  | [argument] =>
      if bool_decide (argument = st "--help") || bool_decide (argument = st "-h") then Ok ShowUsage
      else if bool_decide (argument = st "--version") || bool_decide (argument = st "-V") then Ok ShowVersion
      else configured
  | _ => configured
  end.
