(* ===== verification/SettingsTheorems.v ===== *)
(** * The settings mean what their sources say

    The configuration is the one the sources give by precedence, whatever the
    order in which the settings are applied; an environment file is read back as
    it was written; and a diagnostic never shows the value of a setting. *)

From S2P Require Import Prelude Bytes Text Net Protocol Decoder Config Settings.

Local Open Scope Z_scope.

(** ** Precedence *)

(** The value of a setting: the command line, else the process environment, else
    the file. *)
Definition chosen (file process arguments : Values) (key : str) : option str :=
  match arguments !! key with
  | Some value => Some value
  | None => match process !! key with Some value => Some value | None => file !! key end
  end.

(** Numbers as a setting holds them. *)
Definition decimal (value : str) : option Z :=
  if bool_decide (value = []) || negb (forallb is_digit value) then None
  else checked_usize (str_undec value).

Definition mebibytes (value : str) : option Z := n ← decimal value; checked_usize (n * 1048576).

Definition setting {A} (read : str -> option A) (dflt : A) (value : option str) : option A :=
  match value with Some value => read value | None => Some dflt end.

(** The defaults [d], with the settings that [get] gives. *)
Definition configured (d : Config) (get : str -> option str) : option Config :=
  a ← setting parse_socket_addr (bind d) (get RECALL_BIND);
  w ← setting decimal (workers d) (get RECALL_WORKERS);
  io ← setting decimal (io_threads d) (get RECALL_IO_THREADS);
  memory ← setting mebibytes (config_payload_bytes d) (get RECALL_MAX_MEMORY_MIB);
  ks ← setting decimal (keys_per_worker d) (get RECALL_KEYS_PER_WORKER);
  cs ← setting decimal (max_connections d) (get RECALL_MAX_CONNECTIONS);
  qb ← setting mebibytes (queue_bytes d) (get RECALL_QUEUE_BYTES_MIB);
  p ← setting (fun v => Some (Some (as_bytes v))) (password d) (get RECALL_PASSWORD);
  Some (mkConfig a w io cs (queue_capacity d) qb (admission_timeout d) (read_timeout d) (write_timeout d)
    (expiry_interval d) (expiry_batch d) memory ks (config_reply_bytes d) (protocol d) (commands d) p).

(** What a setting does to a configuration. *)
Definition update (key value : str) : option (Config -> Config) :=
  if bool_decide (key = RECALL_BIND) then (fun a c => set_bind c a) <$> parse_socket_addr value
  else if bool_decide (key = RECALL_WORKERS) then (fun n c => set_workers c n) <$> decimal value
  else if bool_decide (key = RECALL_IO_THREADS) then (fun n c => set_io_threads c n) <$> decimal value
  else if bool_decide (key = RECALL_MAX_MEMORY_MIB) then (fun n c => set_payload_bytes c n) <$> mebibytes value
  else if bool_decide (key = RECALL_KEYS_PER_WORKER) then (fun n c => set_keys_per_worker c n) <$> decimal value
  else if bool_decide (key = RECALL_MAX_CONNECTIONS) then (fun n c => set_max_connections c n) <$> decimal value
  else if bool_decide (key = RECALL_QUEUE_BYTES_MIB) then (fun n c => set_queue_bytes c n) <$> mebibytes value
  else if bool_decide (key = RECALL_PASSWORD) then Some (fun c => set_password c (as_bytes value))
  else None.

Fixpoint updates (l : list (str * str)) (c : Config) : option Config :=
  match l with
  | [] => Some c
  | (key, value) :: l => u ← update key value; updates l (u c)
  end.

(** ** Diagnostics *)

Definition name_suffixes : list str :=
  [st " requires a nonnegative decimal integer"; st " is out of range"; st " must be valid UTF-8";
   st " exceeds the configuration value limit"].

Definition fixed_messages : list str :=
  [st "choose only one environment-file option"; st "--env-file requires a path";
   st "--env-file requires a nonempty path"; st "unknown option; use --help";
   st "unknown Recall environment setting"; st "cannot read environment file";
   st "environment file exceeds 16 KiB"; st "environment file must be UTF-8";
   st "RECALL_BIND requires an IP:port"; st "cannot inspect environment file";
   st "environment path must be a regular file"; st "cannot read environment file: entity not found"].

Definition validate_messages : list str :=
  [st "this milestone permits loopback binds only; transport security is not implemented";
   st "invalid worker, connection, queue, key, or payload limit";
   st "timeouts and expiration budgets must be nonzero"; st "invalid protocol limits";
   st "inconsistent or excessive protocol/command/reply limits";
   st "the configured password must contain 1 to 1024 bytes"].

(** Everything a failed start may say: fixed messages, names of settings and of
    options, line numbers, what opening the file answered, and what [validate]
    says of a configuration. *)
Inductive diagnostic (open : str -> opened) : str -> Prop :=
| FixedMessage m : m ∈ fixed_messages -> diagnostic open m
| AboutName name suffix : name ∈ ENV_NAMES -> suffix ∈ name_suffixes -> diagnostic open (name ++ suffix)
| AboutOption opt prefix : is_Some (option_name opt) ->
    prefix ∈ [st "missing value for "; st "duplicate option "] -> diagnostic open (prefix ++ opt)
| AtLine n m : 1 <= n -> m ∈ [invalid_line n; duplicate_line n] -> diagnostic open m
| NotOpened path kind : open path = OpenFailed kind ->
    diagnostic open (st "cannot read environment file: " ++ kind)
| InvalidConfiguration m : m ∈ validate_messages -> diagnostic open m.

(** ** Lemmas *)

Lemma number_spec key value :
  match decimal value with
  | Some n => number key value = Ok n
  | None => exists suffix, suffix ∈ name_suffixes /\ number key value = Err (key ++ suffix)
  end.
Proof.
  unfold decimal, number. destruct (_ || _) eqn:Hv; [eexists; split; [by left|done]|].
  apply orb_false_iff in Hv as [_ Hv]. apply negb_false_iff in Hv. rewrite forallb_forall in Hv.
  rewrite parse_usize_spec; [|by apply Forall_forall; intros c Hc%list_elem_of_In; apply Hv|int_lia].
  fold (str_undec value). destruct (checked_usize _); cbn [ok_or]; [done|].
  eexists. split; [right; by left|done].
Qed.

Lemma mib_spec key value :
  match mebibytes value with
  | Some n => mib key value = Ok n
  | None => exists suffix, suffix ∈ name_suffixes /\ mib key value = Err (key ++ suffix)
  end.
Proof.
  unfold mebibytes, mib. assert (Hn := number_spec key value). destruct (decimal value) as [n|].
  - rewrite Hn. cbn [mbind option_bind res_bind]. change (1024 * 1024) with 1048576.
    destruct (checked_usize _); cbn [ok_or]; [done|]. eexists. split; [right; by left|done].
  - destruct Hn as (suffix & Hs & ->). by exists suffix.
Qed.

(** Membership in a list of literals. *)
Ltac member := apply (bool_decide_eq_true_1 _); vm_compute; reflexivity.

Lemma applied_number open (key : str) (f : Config -> Z -> Config) c o r : key ∈ ENV_NAMES ->
  match o with Some n => r = Ok n | None => exists suffix, suffix ∈ name_suffixes /\ r = Err (key ++ suffix) end ->
  match (fun n c => f c n) <$> o with
  | Some u => f c <$> r = Ok (u c)
  | None => exists m, f c <$> r = Err m /\ diagnostic open m
  end.
Proof.
  intros Hkey. destruct o; cbn; [by intros ->|]. intros (suffix & Hs & ->).
  eexists. split; [done|]. by apply AboutName.
Qed.

(** A setting is applied by its update, or refused with a diagnostic. *)
Lemma apply_setting_update open c key value :
  match update key value with
  | Some u => apply_setting c key value = Ok (u c)
  | None => exists m, apply_setting c key value = Err m /\ diagnostic open m
  end.
Proof.
  unfold apply_setting, update.
  case_bool_decide as H1; [subst; destruct (parse_socket_addr value); cbn; [done|]|].
  { eexists. split; [done|]. apply FixedMessage. member. }
  do 6 (clear H1; case_bool_decide as H1; [apply (applied_number open key); [rewrite H1; member|apply number_spec || apply mib_spec]|]).
  clear H1. case_bool_decide; [done|]. eexists. split; [done|]. apply FixedMessage. member.
Qed.

Lemma update_known key value : is_Some (update key value) -> key ∈ ENV_NAMES.
Proof.
  unfold update. repeat (case_bool_decide; [subst; intros _; member|]). by intros [].
Qed.

Lemma update_commutes k1 v1 u1 k2 v2 u2 c : k1 <> k2 ->
  update k1 v1 = Some u1 -> update k2 v2 = Some u2 -> u1 (u2 c) = u2 (u1 c).
Proof.
  intros Hne H1 H2. unfold update in H1.
  repeat (case_bool_decide; [|]); try done; subst; unfold update in H2;
    repeat (case_bool_decide; [|]); try done; subst; try done;
    repeat match goal with
    | H : _ <$> _ = Some _ |- _ => apply fmap_Some in H as (? & _ & ->)
    | H : Some _ = Some _ |- _ => injection H as <-
    end; reflexivity.
Qed.

(** Settings of distinct names may be applied in any order. *)
Lemma updates_Permutation l l' c : l ≡ₚ l' -> NoDup l.*1 -> updates l c = updates l' c.
Proof.
  intros Hp. revert c. induction Hp as [|[k v] l l' Hp IH|[k1 v1] [k2 v2] l|l1 l2 l3 H1 IH1 H2 IH2];
    intros c Hnd; cbn [updates fmap list_fmap fst] in *; [done|..].
  - apply NoDup_cons in Hnd as [_ Hnd]. destruct (update k v); cbn; [by apply IH|done].
  - apply NoDup_cons in Hnd as [Hne _]. apply not_elem_of_cons in Hne as [Hne _].
    destruct (update k1 v1) as [u1|] eqn:E1, (update k2 v2) as [u2|] eqn:E2; cbn; try done.
    by rewrite (update_commutes k1 v1 u1 k2 v2 u2 c).
  - rewrite IH1 by done. apply IH2. by rewrite <- H1.
Qed.

Lemma apply_settings_updates open l c :
  match updates l c with
  | Some c' => apply_settings c l = Ok c'
  | None => exists m, apply_settings c l = Err m /\ diagnostic open m
  end.
Proof.
  revert c. induction l as [|[key value] l IH]; intros c; cbn [updates apply_settings]; [done|].
  assert (Ha := apply_setting_update open c key value). destruct (update key value) as [u|]; cbn.
  - rewrite Ha. apply IH.
  - destruct Ha as (m & -> & Hm). by exists m.
Qed.

(** The settings that [get] gives, in the order of their names. *)
Definition one (get : str -> option str) (key : str) : list (str * str) :=
  match get key with Some value => [(key, value)] | None => [] end.

Definition given (get : str -> option str) : list (str * str) := ENV_NAMES ≫= one get.

Lemma elem_of_given get key value : (key, value) ∈ given get <-> key ∈ ENV_NAMES /\ get key = Some value.
Proof.
  unfold given. rewrite list_elem_of_bind. unfold one. split.
  - intros (k & Hin & Hk). destruct (get k) eqn:E; set_solver.
  - intros [Hk E]. exists key. rewrite E. split; [by left|done].
Qed.

Lemma given_ext g1 g2 : (forall key, g1 key = g2 key) -> given g1 = given g2.
Proof.
  intros Hg. unfold given. induction ENV_NAMES as [|key names IH]; [done|].
  rewrite !bind_cons, IH. unfold one. by rewrite Hg.
Qed.

Lemma NoDup_given get : NoDup (given get).*1.
Proof.
  unfold given. assert (NoDup ENV_NAMES) as Hnd by (apply (bool_decide_eq_true_1 _); vm_compute; reflexivity).
  induction Hnd as [|key names Hk Hnd IH]; [constructor|].
  rewrite bind_cons, fmap_app. apply NoDup_app. split_and!; [| |done].
  - unfold one. destruct (get key); cbn; [apply NoDup_singleton|constructor].
  - intros k Hin Hin'. apply Hk. apply list_elem_of_fmap in Hin as ([k1 v1] & -> & Hin).
    apply list_elem_of_fmap in Hin' as ([k2 v2] & E & Hin'). cbn in E. subst k2.
    apply list_elem_of_bind in Hin' as (k2 & Hone & Hin'). unfold one in *.
    destruct (get key), (get k2); set_solver.
Qed.

(** A map of known settings holds what it gives. *)
Lemma map_to_list_given (m : gmap str str) : (forall key, is_Some (m !! key) -> key ∈ ENV_NAMES) ->
  map_to_list m ≡ₚ given (fun key => m !! key).
Proof.
  intros Hknown. apply NoDup_Permutation.
  - apply NoDup_map_to_list.
  - apply (NoDup_fmap_1 fst), NoDup_given.
  - intros [key value]. rewrite elem_of_map_to_list, elem_of_given. naive_solver.
Qed.

Lemma updates_app l l' c : updates (l ++ l') c = c ← updates l c; updates l' c.
Proof.
  revert c. induction l as [|[key value] l IH]; intros c; [done|]. cbn [app updates].
  destruct (update key value); cbn; [by rewrite IH|done].
Qed.

(** Applying the setting of one name first. *)
Lemma updates_step {A} (f : Config -> A -> Config) (proj : Config -> A) read get key l c :
  (forall c, f c (proj c) = c) -> (forall value, update key value = (fun a c => f c a) <$> read value) ->
  updates (one get key ++ l) c = a ← setting read (proj c) (get key); updates l (f c a).
Proof.
  intros Hf Hu. rewrite updates_app. unfold one. destruct (get key) as [value|]; cbn; [|by rewrite Hf].
  rewrite Hu. by destruct (read value).
Qed.

Definition put_password (c : Config) (p : option bytes) : Config :=
  mkConfig (bind c) (workers c) (io_threads c) (max_connections c) (queue_capacity c) (queue_bytes c)
    (admission_timeout c) (read_timeout c) (write_timeout c) (expiry_interval c) (expiry_batch c)
    (config_payload_bytes c) (keys_per_worker c) (config_reply_bytes c) (protocol c) (commands c) p.

Lemma updates_given get d : updates (given get) d = configured d get.
Proof.
  unfold given, ENV_NAMES, configured. rewrite !bind_cons.
  rewrite (updates_step set_bind bind parse_socket_addr) by (done || by intros []).
  apply option_bind_ext_fun; intros a.
  rewrite (updates_step set_workers workers decimal) by (done || by intros []).
  apply option_bind_ext_fun; intros w.
  rewrite (updates_step set_io_threads io_threads decimal) by (done || by intros []).
  apply option_bind_ext_fun; intros io.
  rewrite (updates_step set_payload_bytes config_payload_bytes mebibytes) by (done || by intros []).
  apply option_bind_ext_fun; intros memory.
  rewrite (updates_step set_keys_per_worker keys_per_worker decimal) by (done || by intros []).
  apply option_bind_ext_fun; intros ks.
  rewrite (updates_step set_max_connections max_connections decimal) by (done || by intros []).
  apply option_bind_ext_fun; intros cs.
  rewrite (updates_step set_queue_bytes queue_bytes mebibytes) by (done || by intros []).
  apply option_bind_ext_fun; intros qb.
  rewrite (updates_step put_password password (fun v => Some (Some (as_bytes v)))) by (done || by intros []).
  by apply option_bind_ext_fun; intros p.
Qed.

Lemma extend_chosen file process arguments key :
  extend (extend file process) arguments !! key = chosen file process arguments key.
Proof.
  unfold extend, chosen, Values in *. rewrite !lookup_union.
  by destruct (arguments !! key), (process !! key), (file !! key).
Qed.

Lemma key_order_given file process arguments : (forall key, is_Some (chosen file process arguments key) -> key ∈ ENV_NAMES) ->
  in_key_order (extend (extend file process) arguments) ≡ₚ given (chosen file process arguments).
Proof.
  intros Hk. unfold in_key_order. rewrite merge_sort_Permutation, map_to_list_given.
  - rewrite (given_ext _ (chosen file process arguments)); [done|apply extend_chosen].
  - intros key. rewrite extend_chosen. apply Hk.
Qed.

Lemma updates_known l c c' : updates l c = Some c' -> Forall (fun kv => kv.1 ∈ ENV_NAMES) l.
Proof.
  revert c. induction l as [|[key value] l IH]; intros c Hu; [constructor|]. cbn [updates] in Hu.
  destruct (update key value) as [u|] eqn:Hup; [|done]. constructor; [|by apply (IH (u c))].
  apply (update_known key value). by rewrite Hup.
Qed.

Lemma settings_known file process arguments c c' :
  updates (in_key_order (extend (extend file process) arguments)) c = Some c' ->
  forall key, is_Some (chosen file process arguments key) -> key ∈ ENV_NAMES.
Proof.
  intros Hu key [value Hv]. apply updates_known in Hu. rewrite Forall_forall in Hu.
  apply (Hu (key, value)). unfold in_key_order, Values in *. rewrite merge_sort_Permutation.
  apply elem_of_map_to_list. by rewrite <- Hv, <- extend_chosen.
Qed.

Lemma updates_key_order file process arguments c :
  (forall key, is_Some (chosen file process arguments key) -> key ∈ ENV_NAMES) ->
  updates (in_key_order (extend (extend file process) arguments)) c
    = configured c (chosen file process arguments).
Proof.
  intros Hk. rewrite <- updates_given. apply updates_Permutation; [by apply key_order_given|].
  rewrite (key_order_given _ _ _ Hk). apply NoDup_given.
Qed.

(** C36: The configuration is what its sources say, by precedence: loading
    succeeds with [c] if and only if every setting is known, [c] is the defaults
    with each of the eight settings read from the command line, else from the
    process environment, else from the file, and [c] is valid - whatever the
    order in which the settings are applied. *)
Theorem from_sources_precedence cpus file process arguments c :
  from_sources cpus file process arguments = Ok c <->
  (forall key, is_Some (chosen file process arguments key) -> key ∈ ENV_NAMES) /\
  configured (default_config cpus) (chosen file process arguments) = Some c /\ validate c = Ok tt.
Proof.
  unfold from_sources.
  set (l := in_key_order _). assert (Ha := apply_settings_updates (fun _ => NotFound) l (default_config cpus)).
  assert (forall r, map_err st (validate r) = Ok tt <-> validate r = Ok tt) as Hval.
  { intros r. by destruct (validate r) as [[]| |]. }
  split.
  - intros (c' & Hc & Hx)%bind_Ok. apply bind_Ok in Hx as ([] & Hv%Hval & [= ->]).
    destruct (updates l (default_config cpus)) as [c1|] eqn:Hu.
    + rewrite Ha in Hc. injection Hc as ->. assert (Hk := settings_known _ _ _ _ _ Hu).
      split_and!; [done| |done]. by rewrite <- Hu, <- updates_key_order.
    + destruct Ha as (m & Hm & _). congruence.
  - intros (Hk & Hc & Hv). assert (updates l (default_config cpus) = Some c) as Hu
      by (unfold l; by rewrite updates_key_order).
    rewrite Hu in Ha. rewrite Ha. cbn [mbind res_bind]. by rewrite (proj2 (Hval c) Hv).
Qed.

(** The command line overrides the environment, which overrides the file. *)
Lemma from_sources_precedence_witness :
  let file := list_to_map [(RECALL_WORKERS, st "1"); (RECALL_IO_THREADS, st "1"); (RECALL_MAX_CONNECTIONS, st "10")] in
  let process := list_to_map [(RECALL_WORKERS, st "2"); (RECALL_IO_THREADS, st "2"); (RECALL_PASSWORD, st "p")] in
  let arguments := {[RECALL_WORKERS := st "3"]} in
  exists c, from_sources None file process arguments = Ok c /\ workers c = 3 /\ io_threads c = 2 /\
    max_connections c = 10 /\ password c = Some (bs "p") /\
    configured (default_config None) (chosen file process arguments) = Some c.
Proof.
  intros file process arguments. eexists. split; [vm_compute; reflexivity|].
  split_and!; [reflexivity..|]. apply from_sources_precedence. vm_compute. reflexivity.
Defined.

(** ** Environment files *)

(** Characters a name is made of. *)
Definition name_char (c : Z) : bool :=
  negb (is_whitespace c) && is_scalar c && negb (c =? 61) && negb (c =? 10) && negb (c =? 0).

Definition name_ok (key : str) : bool :=
  starts_with 82 key && forallb name_char key
  && bool_decide (trim key = key).

Lemma names_ok key : key ∈ ENV_NAMES -> name_ok key = true.
Proof.
  assert (forallb name_ok ENV_NAMES = true) as H by (vm_compute; reflexivity).
  rewrite forallb_forall in H. intros Hk. by apply H, list_elem_of_In.
Qed.

(** An assignment, its value between double quotes. *)
Definition print_line (kv : str * str) : str := kv.1 ++ 61 :: 34 :: kv.2 ++ [34].

Definition print (l : list (str * str)) : str := l ≫= (fun kv => print_line kv ++ [10]).

(** The values that fit a line. *)
Definition printable (kv : str * str) : Prop :=
  kv.1 ∈ ENV_NAMES /\ Forall (fun c => is_scalar c = true) kv.2 /\ (10 ∉ kv.2) /\ (0 ∉ kv.2) /\
  str_len (print_line kv) <= MAX_ENV_LINE_BYTES.

Lemma printable_name kv : printable kv -> exists key,
  kv.1 = 82 :: key /\ Forall (fun c => name_char c = true) kv.1 /\ trim kv.1 = kv.1.
Proof.
  intros [Hk%names_ok _]. unfold name_ok in Hk. zhyps. destruct kv.1 as [|c key]; [done|].
  cbn [starts_with] in *. zhyps. subst c. exists key. split_and!; [done| |by apply (bool_decide_eq_true_1 _)].
  apply Forall_forall. intros c Hc%list_elem_of_In. rewrite forallb_forall in *. eauto.
Qed.

Lemma name_char_spec c : name_char c = true -> is_scalar c = true /\ c <> 61 /\ c <> 10 /\ c <> 0.
Proof. unfold name_char. intros H. zhyps. done. Qed.

Lemma str_len_nonneg s : 0 <= str_len s.
Proof. unfold str_len. lia. Qed.

Lemma unquote_quoted value : unquote (34 :: value ++ [34]) = Some value.
Proof.
  unfold unquote. cbn [Z.eqb Pos.eqb orb]. change (34 :: value ++ [34]) with ([34] ++ value ++ [34]).
  rewrite !str_len_app. change (str_len [34]) with 1. assert (H := str_len_nonneg value).
  rewrite (proj2 (Z.ltb_ge _ _)) by lia. rewrite app_assoc, last_snoc, bool_decide_eq_true_2 by done.
  cbn [negb orb]. f_equal. rewrite length_app. cbn [length].
  by replace (length value + 1 - 1)%nat with (length value) by lia; rewrite take_app_length.
Qed.

Lemma parse_line_print n kv : printable kv -> parse_line n (print_line kv) = Ok (Some kv).
Proof.
  intros Hp. destruct (printable_name kv Hp) as (key & Hk & Hchars & Htrim).
  destruct Hp as (Hname & Hscalar & H10 & H0 & Hlen). unfold parse_line.
  rewrite (proj2 (Z.ltb_ge _ _)) by done.
  rewrite bool_decide_eq_false_2.
  2:{ unfold print_line. rewrite elem_of_app, !elem_of_cons, elem_of_app, list_elem_of_singleton.
      rewrite Forall_forall in Hchars. intros [Hin|[|[|[|]]]]; try done. apply Hchars, name_char_spec in Hin. tauto. }
  cbn [orb]. assert (trim (print_line kv) = print_line kv) as ->.
  { unfold print_line. rewrite Hk.
    change ((82 :: key) ++ 61 :: 34 :: kv.2 ++ [34]) with (82 :: (key ++ ([61; 34] ++ kv.2 ++ [34]))).
    rewrite !app_assoc. by apply trim_id. }
  rewrite bool_decide_eq_false_2 by (unfold print_line; by rewrite Hk).
  assert (starts_with 35 (print_line kv) = false) as -> by (unfold print_line; by rewrite Hk).
  unfold print_line.
  cbn [orb]. rewrite split_once_app.
  2:{ eapply Forall_impl; [exact Hchars|]. cbv beta. intros c Hc%name_char_spec. tauto. }
  cbn [ok_or mbind res_bind]. rewrite Htrim. unfold validate_name. rewrite bool_decide_eq_true_2 by done.
  cbn [map_err mbind res_bind]. rewrite trim_id by done. rewrite unquote_quoted. by destruct kv.
Qed.

(** The lines of a printed file. *)
Lemma lines_print l : Forall printable l -> lines (print l) = print_line <$> l.
Proof.
  induction 1 as [|kv l Hp Hl IH]; [done|]. unfold print. rewrite bind_cons, <- app_assoc. cbn [app].
  fold (print l). rewrite lines_line; [by rewrite IH| |].
  - destruct (printable_name kv Hp) as (_ & _ & Hchars & _). destruct Hp as (_ & _ & H10 & _).
    apply Forall_app. split; [eapply Forall_impl; [exact Hchars|]; cbv beta; intros c Hc%name_char_spec; tauto|].
    repeat constructor; try done. apply Forall_app. split; [|by repeat constructor].
    apply Forall_forall. intros c Hc ->. done.
  - unfold print_line. by rewrite !app_comm_cons, app_assoc, last_snoc.
Qed.

Lemma parse_lines_print n l m : Forall printable l -> NoDup l.*1 -> (forall kv, kv ∈ l -> m !! kv.1 = None) ->
  parse_lines n (print_line <$> l) m = Ok (list_to_map l ∪ m).
Proof.
  unfold Values in *. intros Hl. revert n m. induction Hl as [|[key value] l Hp Hl IH]; intros n m Hnd Hm.
  { cbn. by rewrite (left_id_L ∅ (∪)). }
  apply NoDup_cons in Hnd as [Hk Hnd]. cbn [fmap list_fmap parse_lines]. unfold Values.
  rewrite parse_line_print by done. cbn [mbind res_bind].
  rewrite (Hm (key, value) ltac:(by left) : m !! key = None). rewrite IH; [|done|].
  - f_equal. cbn [list_to_map foldr uncurry]. rewrite <- insert_union_l, insert_union_r; [done|].
    by apply not_elem_of_list_to_map_1.
  - intros [k v] Hin. cbn [fst]. rewrite lookup_insert_ne; [apply (Hm (k, v)); by right|].
    intros ->. apply Hk. apply list_elem_of_fmap. by exists (k, v).
Qed.

Lemma print_scalar l : Forall printable l -> Forall (fun c => is_scalar c = true) (print l).
Proof.
  induction 1 as [|kv l Hp Hl IH]; [constructor|]. unfold print. rewrite bind_cons.
  apply Forall_app. split; [|exact IH]. destruct (printable_name kv Hp) as (_ & _ & Hchars & _).
  destruct Hp as (_ & Hs & _). unfold print_line. rewrite !Forall_app, !Forall_cons, Forall_app.
  split_and!; try done; try (by repeat constructor).
  eapply Forall_impl; [exact Hchars|]. cbv beta. intros c Hc%name_char_spec. tauto.
Qed.

(** C37: Round trip of environment files: the settings written one to a line
    between double quotes are read back exactly, spaces, quotes, [#], [$] and
    every other character of their values included, as long as no value has a
    newline or a NUL, no line exceeds 2048 bytes and the file 16 KiB. *)
Theorem environment_file_roundtrip l : Forall printable l -> NoDup l.*1 ->
  str_len (print l) <= MAX_ENV_BYTES ->
  read_values (Some (as_bytes (print l))) = Ok (list_to_map l).
Proof.
  intros Hl Hnd Hlen. unfold read_values. cbn [fmap option_fmap option_map ok_or mbind res_bind].
  unfold str_len in Hlen. rewrite take_ge by lia. rewrite (proj2 (Z.ltb_ge _ _)) by done.
  rewrite from_utf8_as_bytes by (by apply print_scalar). cbn [ok_or mbind res_bind]. unfold parse_values.
  rewrite trim_start_id.
  - rewrite lines_print, parse_lines_print by (done || set_solver). by rewrite (right_id_L ∅ (∪)).
  - destruct Hl as [|kv l Hp Hl]; [done|]. destruct (printable_name kv Hp) as (key & Hk & _).
    unfold print, print_line. rewrite bind_cons, Hk. done.
Qed.

Lemma environment_file_roundtrip_witness :
  read_values (Some (as_bytes (print [(RECALL_PASSWORD, st "it's #1 = $HOME"); (RECALL_WORKERS, st "2")])))
    = Ok (list_to_map [(RECALL_PASSWORD, st "it's #1 = $HOME"); (RECALL_WORKERS, st "2")]).
Proof.
  apply environment_file_roundtrip.
  - repeat constructor; cbn [fst snd]; try member; try (vm_compute; discriminate);
      try (apply (bool_decide_eq_true_1 _); vm_compute; reflexivity).
  - apply (bool_decide_eq_true_1 _). vm_compute. reflexivity.
  - vm_compute. discriminate.
Defined.

(** ** What a failed start says *)

Section Diagnostics.
Context (open : str -> opened).

(** An outcome whose error, if any, is a diagnostic. *)
Definition diagnosed {A} (r : res str A) : Prop :=
  match r with Ok _ => True | Err m => diagnostic open m | Panic => False end.

Lemma diagnosed_bind {A B} (r : res str A) (k : A -> res str B) :
  diagnosed r -> (forall a, diagnosed (k a)) -> diagnosed (r ≫= k).
Proof. destruct r; cbn; auto. Qed.

Lemma diagnosed_ok_or {A} m (o : option A) : diagnostic open m -> diagnosed (ok_or m o).
Proof. by destruct o. Qed.

Lemma diagnosed_fixed {A} m : m ∈ fixed_messages -> diagnosed (A:=A) (Err m).
Proof. apply FixedMessage. Qed.

Lemma diagnosed_line {A} n m : 1 <= n -> m ∈ [invalid_line n; duplicate_line n] -> diagnosed (A:=A) (Err m).
Proof. apply AtLine. Qed.

Lemma parse_options_diagnosed options seen arguments : diagnosed (parse_options_loop options seen arguments).
Proof.
  revert options seen. induction arguments as [arguments IH] using list_length_ind. intros options seen.
  destruct arguments as [|opt arguments]; [done|]. cbn [parse_options_loop].
  case_bool_decide; [destruct seen; [apply diagnosed_fixed; member|apply IH; cbn; lia]|].
  case_bool_decide; [destruct seen; [apply diagnosed_fixed; member|]|].
  - destruct arguments as [|path arguments]; [apply diagnosed_fixed; member|].
    case_bool_decide; [apply diagnosed_fixed; member|apply IH; cbn; lia].
  - destruct (option_name opt) as [name|] eqn:Hname; [|apply diagnosed_fixed; member].
    destruct arguments as [|value arguments]; [apply AboutOption; [by rewrite Hname|by left]|].
    destruct (values options !! name); [apply AboutOption; [by rewrite Hname|right; by left]|].
    apply IH. cbn. lia.
Qed.

Lemma parse_line_diagnosed n line : 1 <= n -> diagnosed (parse_line n line).
Proof.
  intros Hn. unfold parse_line.
  assert (diagnostic open (invalid_line n)) as Hinv by (apply (AtLine _ n); [done|by left]).
  destruct (_ || _); [done|]. destruct (_ || _); [done|].
  apply diagnosed_bind; [by apply diagnosed_ok_or|]. intros [key raw].
  apply diagnosed_bind; [by unfold validate_name; case_bool_decide|]. intros _.
  apply diagnosed_bind; [by apply diagnosed_ok_or|done].
Qed.

Lemma parse_lines_diagnosed n ls m : 1 <= n -> diagnosed (parse_lines n ls m).
Proof.
  revert n m. induction ls as [|line ls IH]; intros n m Hn; cbn [parse_lines]; [done|].
  apply diagnosed_bind; [by apply parse_line_diagnosed|]. intros [[key value]|]; [|apply IH; lia].
  destruct (m !! key); [apply (AtLine _ n); [done|right; by left]|apply IH; lia].
Qed.

Lemma read_values_diagnosed reader : diagnosed (read_values reader).
Proof.
  unfold read_values. apply diagnosed_bind; [apply diagnosed_ok_or, FixedMessage; member|]. intros input.
  destruct (_ <? _); [apply diagnosed_fixed; member|].
  apply diagnosed_bind; [apply diagnosed_ok_or, FixedMessage; member|]. intros text.
  by apply parse_lines_diagnosed.
Qed.

Lemma load_file_diagnosed options : diagnosed (load_file open options).
Proof.
  unfold load_file. destruct (env_file options) as [path|]; [|done].
  destruct (open path) as [|kind|is_file reader] eqn:Hopen.
  - destruct (negb _); [done|]. apply diagnosed_fixed. member.
  - by apply (NotOpened _ path).
  - apply diagnosed_bind; [apply diagnosed_ok_or, FixedMessage; member|]. intros b.
    destruct (negb b); [apply diagnosed_fixed; member|apply read_values_diagnosed].
Qed.

Lemma read_environment_diagnosed environment m : diagnosed (read_environment environment m).
Proof.
  revert m. induction environment as [|[key value] environment IH]; intros m; cbn [read_environment]; [done|].
  destruct (from_utf8 key) as [name|]; [|apply IH]. destruct (is_recall name); [|apply IH].
  unfold validate_name. case_bool_decide as Hname; cbn [mbind res_bind]; [|apply diagnosed_fixed; member].
  apply diagnosed_bind; [apply diagnosed_ok_or, AboutName; [done|member]|]. intros text.
  destruct (_ <? _); [apply AboutName; [done|member]|apply IH].
Qed.

Lemma validate_diagnosed c : diagnosed (map_err st (validate c)).
Proof.
  unfold validate, invalid, validate_limits.
  repeat (match goal with |- context [if ?b then _ else _] => destruct b end; cbn [map_err mbind res_bind];
    try done; try (apply InvalidConfiguration; member)).
Qed.

Lemma from_sources_diagnosed cpus file process arguments : diagnosed (from_sources cpus file process arguments).
Proof.
  unfold from_sources. apply diagnosed_bind.
  - assert (Ha := apply_settings_updates open (in_key_order (extend (extend file process) arguments)) (default_config cpus)).
    destruct (updates _ _); [by rewrite Ha|]. by destruct Ha as (m & -> & Hm).
  - intros c. apply diagnosed_bind; [apply validate_diagnosed|done].
Qed.
End Diagnostics.

Lemma option_name_public opt name : option_name opt = Some name -> name <> RECALL_PASSWORD.
Proof.
  unfold option_name. repeat (case_bool_decide; [intros [= <-]; vm_compute; discriminate|]). done.
Qed.

Lemma options_public options seen arguments options' : values options !! RECALL_PASSWORD = None ->
  parse_options_loop options seen arguments = Ok options' -> values options' !! RECALL_PASSWORD = None.
Proof.
  revert options seen. induction arguments as [arguments IH] using list_length_ind. intros options seen Hp Hx.
  destruct arguments as [|opt arguments]; [by injection Hx as <-|]. cbn [parse_options_loop] in Hx.
  case_bool_decide; [destruct seen; [done|refine (IH arguments ltac:(cbn; lia) _ _ _ Hx); exact Hp]|].
  case_bool_decide; [destruct seen; [done|]; destruct arguments as [|path arguments]; [done|];
    case_bool_decide; [done|refine (IH arguments ltac:(cbn; lia) _ _ _ Hx); exact Hp]|].
  destruct (option_name opt) as [name|] eqn:Hname; [|done].
  destruct arguments as [|value arguments]; [done|]. destruct (values options !! name); [done|].
  refine (IH arguments ltac:(cbn; lia) _ _ _ Hx). cbn [values]. unfold Values. rewrite lookup_insert_ne; [done|].
  by apply (option_name_public opt).
Qed.

Lemma load_diagnosed cpus environment open arguments :
  diagnosed open (load cpus environment open arguments).
Proof.
  unfold load. apply diagnosed_bind; [apply parse_options_diagnosed|]. intros options.
  apply diagnosed_bind; [apply read_environment_diagnosed|]. intros process.
  apply diagnosed_bind; [apply load_file_diagnosed|]. intros file. apply from_sources_diagnosed.
Qed.

(** C38: Secrets stay secret: loading the settings never panics, and when it fails
    its message is one of the diagnostics - a fixed text, the name of a known
    setting or option, the number of a line, or what opening the file answered -
    none of which contains the value of a setting; and no option of the
    command line, which other users can see, sets the password. *)
Theorem diagnostics_keep_secrets cpus environment open arguments :
  match load cpus environment open arguments with
  | Ok _ => True
  | Err m => diagnostic open m
  | Panic => False
  end /\
  match parse_options arguments with
  | Ok options => values options !! RECALL_PASSWORD = None
  | Err _ => True
  | Panic => False
  end.
Proof.
  split.
  - apply load_diagnosed.
  - assert (Hd := parse_options_diagnosed open (mkOptions (Some (st ".env")) false ∅) false arguments).
    fold (parse_options arguments) in Hd. destruct (parse_options arguments) as [options| |] eqn:Ho; try done.
    by eapply options_public, Ho.
Qed.

(** The second validation, in [main], never fires: what is loaded is valid. *)
Lemma load_valid cpus environment open arguments c :
  load cpus environment open arguments = Ok c -> validate c = Ok tt.
Proof.
  unfold load. intros Hx. apply bind_Ok in Hx as (options & _ & Hx). apply bind_Ok in Hx as (process & _ & Hx).
  apply bind_Ok in Hx as (file & _ & Hx). apply bind_Ok in Hx as (c' & _ & Hx).
  apply bind_Ok in Hx as ([] & Hv & [= ->]). by destruct (validate c) as [[]| |].
Qed.

(** A server is started with a valid configuration only, which listens on a
    loopback address, and the process never panics before it starts. *)
Lemma startup_valid cpus environment open arguments :
  match startup_of cpus environment open arguments with
  | Ok (StartServer c) => validate c = Ok tt /\ is_loopback (ip (bind c)) = true
  | Ok (ConfigurationError m) => diagnostic open m
  | Ok _ => True
  | _ => False
  end.
Proof.
  assert (Hd := load_diagnosed cpus environment open arguments). unfold startup_of.
  assert (match (match load cpus environment open arguments with
    | Ok config => match validate config with
      | Ok _ => Ok (StartServer config) | Err message => Ok (ConfigurationError (st message)) | Panic => Panic end
    | Err message => Ok (ConfigurationError message) | Panic => Panic end : res () startup) with
    | Ok (StartServer c) => validate c = Ok tt /\ is_loopback (ip (bind c)) = true
    | Ok (ConfigurationError m) => diagnostic open m | Ok _ => True | _ => False end) as Hc.
  { destruct (load _ _ _ _) as [c|m|] eqn:Hl; [|done..]. apply load_valid in Hl. rewrite Hl. split; [done|].
    unfold validate in Hl. by destruct (is_loopback (ip (bind c))). }
  destruct arguments as [|argument [|]]; [exact Hc| |exact Hc].
  destruct (_ || _); [done|]. destruct (_ || _); [done|]. exact Hc.
Qed.
