(* ===== verification/Process.v ===== *)
(** * The process ([recall-server/src/main.rs])

    From the arguments, as the operating system hands them over, to the exit code:
    [main] loads the settings, starts the server and runs it, with its tasks, until
    it has shut down.  What the operating system and the clients do is data
    ([World]).  [Panic] is the end of a process that stops itself, by a panic or an
    abort. *)

From S2P Require Import Prelude Bytes Text Net Protocol Command Expiry ExpiryTheorems Store StoreSpec StoreTheorems.
From S2P Require Import Config Engine System SystemSpec SystemConservation SystemRuns SystemProgress SystemSample.
From S2P Require Import Session Server ServerSample AcceptTheorems ServerRun Tasks TaskLemmas TaskRun Concurrent.
From S2P Require Import Settings SettingsTheorems.

Local Open Scope Z_scope.







(** ** The settings are machine integers *)








(** ** The exit code *)







